(* ===== verification/_CoqProject ===== *)
-Q . S2P
Prelude.v
AssocList.v
BTree.v
BTreeShape.v
BTreeInsert.v
BTreeRemove.v
BTreeQuery.v
BTreeCheck.v
BTreeMain.v
HashMap.v
KeyIndex.v
HashMapSpec.v
HashMapMain.v
LRUCache.v
LRUMain.v
RWLock.v
RWLockMain.v
RWLockGuards.v
HappensBefore.v
LockFreeQueue.v
LockFreeQueueMain.v
LockFreeQueueOrders.v
ThreadPool.v
ThreadPoolMain.v
TCPServer.v
TCPServerSpec.v
TCPServerLive.v
TCPRun.v
TCPLoop.v
TCPServerMain.v
UniquePtr.v
UniquePtrMain.v
PoolAllocator.v
PoolAllocatorMain.v
CxxStd.v
TCPSetup.v
Schema.v
Row.v
Table.v
TableSpec.v
RowMain.v
TableMain.v
TableReaders.v
Lexer.v
Ast.v
Parser.v
ParserSpec.v
ParserMain.v
SharedPtr.v
SharedPtrMain.v
SharedPtrThreads.v
Database.v
DatabaseSpec.v
QueryExecutor.v
QueryConcurrent.v
QueryRef.v
QueryRows.v
QueryBodies.v
QuerySpec.v
QueryLinear.v
QueryLinearSpec.v
QueryProgress.v
QueryLinearMain.v
QueryMain.v
System.v
SystemSpec.v
SystemLive.v
SystemMain.v
Service.v
ServiceSpec.v
ServiceLive.v
ServiceMain.v
EntryPoint.v
Bench.v
BenchClients.v
BenchServer.v
BenchServerSpec.v
BenchServerMain.v
BenchPool.v
BenchQueue.v
