(* ===== verification/Prelude.v ===== *)
(** * CppDB: a verified model of an in-memory relational database

    Paths are relative to the repository.

    ** The program and its parts

    [main.cpp] builds a [Database] and a [TCPServer].  The server's event loop
    reads bytes of clients, splits them into lines, and queues the lines of each
    connection; a task of the [ThreadPool] takes a connection's lines one by one,
    runs [QueryExecutor::execute] and writes the reply.  [execute] tokenizes and
    parses the line ([Lexer], [Parser]) and runs the statement on a [Table] that
    it holds by a [SharedPtr] taken from the [Database] (a [HashMap] under a
    [RWLock]).  A table keeps its rows in a [BTree] by id and caches rows in an
    [LRUCache] (a list and a [HashMap]), under a [RWLock] and a mutex.
    [UniquePtr] owns B-tree nodes.  [PoolAllocator] and [LockFreeQueue] stand
    alone.

    ** How code is modelled

    A C++ function is a Rocq function.  [result] (below) has a value, an
    exception, or undefined behaviour; [M S A] adds a state that survives an
    exception, as a C++ object does.  Out-of-range indices, null dereferences and
    dangling pointers are [Undef] or [Stuck], never a default value, so that a
    theorem that concludes a value rules them out.  Sizes are [nat], or [N] with
    the reduction modulo 2^64 where the code can overflow; [std::int64_t] values
    are [Z] with their range checked where text is parsed.  Objects with an
    identity (tables behind handles, list nodes, queue nodes, pool blocks) live in
    a heap of addresses.  Code that threads interleave is a step relation whose
    steps are the critical sections and atomic accesses of the code; theorems
    quantify over all interleavings ([rtc]).

    ** Files

    - [Prelude]: results, state, tactics; [AssocList]: sorted association lists,
      the reference for ordered storage; [CxxStd]: the library functions on
      characters, strings and numbers that the code calls ([std::from_chars],
      [std::to_string], ...).
    - [BTree] (include/structures/BTree.hpp): the nodes and every operation; the
      runtime check runs on [RawNode]s, whose children may be null;
      [BTreeShape], [BTreeInsert], [BTreeRemove], [BTreeQuery], [BTreeCheck]: the
      invariant (order, occupancy, uniform depth) and what each operation does to
      the sorted list of entries; [BTreeMain]: the theorems.
    - [HashMap] (include/structures/HashMap.hpp): open addressing with tombstones;
      [HashMapSpec]: the probe-chain invariant; [HashMapMain]: the theorems.
      [KeyIndex]: what a map promises its clients, as a class that the hash map
      instantiates for every hash function; the cache, the tables and the
      database are verified against the class.
    - [LRUCache], [LRUMain] (include/structures/LRUCache.hpp).
    - [Schema], [Row], [RowMain] (include/core, src/core): columns, typed cells.
    - [Table], [TableSpec], [TableMain] (src/core/table.cpp): every public call;
      [TableReaders]: calls of many threads under the table's lock, with
      [findById]'s three steps under the shared lock and the cache mutex.
    - [Lexer], [Ast], [Parser], [ParserSpec], [ParserMain] (src/query): the
      tokenizer and the recursive-descent parser against a grammar.
    - [SharedPtr], [SharedPtrMain]; [UniquePtr], [UniquePtrMain];
      [PoolAllocator], [PoolAllocatorMain] (include/memory, include/storage).
    - [RWLock], [RWLockMain], [RWLockGuards] (the two guards as scopes);
      [LockFreeQueue], [LockFreeQueueMain]; [ThreadPool], [ThreadPoolMain]
      (include/concurrency, src/concurrency).
    - [HappensBefore]: accesses with their [std::memory_order], what a thread
      knows of the others' accesses, and what a data race is.
      [SharedPtrThreads] and [LockFreeQueueOrders]: every access of the reference
      counts and of the queue with the order that the source names, over any
      number of threads.
    - [Database], [DatabaseSpec] (src/core/database.cpp): the map of handles and
      the heap of tables, with any number of handles held by clients.
    - [QueryExecutor] (src/query/query_executor.cpp): every statement, the choice
      of the index path, the text of replies.  [QueryRef]: the reference, queries
      on plain sorted lists.  [QueryRows], [QueryBodies], [QuerySpec], [QueryMain]:
      the code against the reference.
    - [QueryConcurrent]: queries of many threads, cut where other threads can run
      (taking a handle, the locked call of the table, letting the handle go).
      [QueryLinear], [QueryLinearSpec], [QueryProgress], [QueryLinearMain].
    - src/network/tcp_server.cpp: [TCPServer] has the loop and the tasks as steps
      that interleave, [TCPServerSpec] and [TCPServerLive] their invariant and
      measure; [TCPRun] has [run] against [stop], and [writeAll]; [TCPLoop] has
      [run], [acceptClients], [handleReadable] and [dropConnection] as functions
      of what the kernel answers; [TCPSetup] has the constructor and the
      destructor over the kernel's descriptors; [TCPServerMain]: the theorems.
    - [System], [SystemSpec], [SystemLive], [SystemMain]: server, tasks and
      concurrent queries put together, from bytes to replies.
    - [Service], [ServiceSpec], [ServiceLive], [ServiceMain]: the same on the
      thread pool, whose workers run the tasks, up to the end of the server's
      destructor.
    - [EntryPoint] (main.cpp): [main] over a run of the service, and the signal
      handler.
    - [Bench], [BenchPool], [BenchQueue], [BenchClients] (bench/bench.cpp): the
      workloads of the benchmarks, as clients of the components.  [BenchServer],
      [BenchServerSpec], [BenchServerMain]: the benchmark of the server with the
      bytes on the sockets, the service in between and its end.

    ** What the theorems show

    - The service ([SystemMain]): every reply written to any client is the one
      that a single sequential order of all queries gives, in which each client's
      queries are in the order of its bytes.  On its pool ([ServiceMain]): the
      service comes to rest with every accepted query answered and no table
      leaked; the destructor ends, after every task, with every client's
      descriptor closed; tasks and the pool's books agree, and no more tasks run
      at once than there are workers.  The program ([EntryPoint]): [main] returns
      the exit code of what happened and leaves no descriptor open.
    - Queries ([QueryLinearMain], [QueryMain]): concurrent queries are
      linearizable, tables dropped and re-created under them included; each
      finishes in at most four steps of its own; a sequential session gives the
      reference's replies; the index path selects the rows of a scan; what was
      inserted is selected; a dropped table lives until its last handle goes; at
      every time every row of every table is complete and has values of its
      columns' types, so that reading a column never finds another type.
      ([QueryProgress.query_alone]: without interference the steps of a query are
      [execute].)
    - Data structures: every history of calls on a B-tree, hash map, cache, table,
      pool, owning or shared pointer is that of its abstract model (sorted list,
      finite map, recency list, rows, free blocks, ownership), without undefined
      behaviour (a B-tree for every minimum degree below 2^30, from where on
      [2 * t_ - 1] overflows, [BTreeMain.btree_degree_overflow]); the runtime check
      of the B-tree holds exactly on well-formed trees; its height is logarithmic.
    - Language: tokenizing and parsing are total, accept exactly the grammar, and
      give back the statement that was printed.
    - Memory orders: the orders that the reference counts and the queue use are
      enough.  No two accesses race, whatever stale values the relaxed loads
      give; the thread that deletes an object has seen every use of it; and the
      queue's consumer reads values that are completely written.
    - Concurrency: exclusion, no lost wake-up and writer preference of the lock;
      order and absence of use after free in the queue; every task of the pool
      runs exactly once, also at shutdown; a connection's strand, its
      descriptor and its limits; [stop] ends [run]; guards hold the lock for their
      scope, also when it is left by an exception, and cannot deadlock.
    - The server's code: for every sequence of answers of the kernel [run] returns,
      and what it does are steps of the loop ([TCPServerMain.loop_code]); what each
      failing call of the constructor throws and leaves open, and that the
      destructor undoes the constructor ([TCPSetup.server_setup]).
    - The benchmarks: the 1000 inserts of 50 clients all succeed in every
      interleaving of the clients, the network, the event loop, the workers and
      the queries, and the run ends with the server gone
      ([BenchServerMain.bench_server]); the lookups, reads, tasks and items that
      are counted are all there, and no counter overflows.

    ** Fuel

    Recursion on trees uses the depth of the tree (the invariant gives the depth
    of every subtree); probing uses the number of slots (the load bound leaves an
    EMPTY slot); the capacity loop of the hash map 62 doublings (from 16 there is
    no more before the word wraps; [hashmap_construct] shows that for larger
    requests no fuel is enough); the lexer uses the length of its input and the
    parser's loops the number of tokens (every round consumes one).  That the fuel
    suffices is part of the theorems: their conclusions are values.  Liveness is
    shown by measures: [effort], [yeffort], [zeffort], [rank], [stepsLeft], and in
    [BenchServerMain] by three counts in lexicographic order.

    ** Not modelled

    - Weak memory beyond [HappensBefore].  The orders weaker than the default are
      in [SharedPtr], [LockFreeQueue] and one counter of the benchmarks, which is
      only added to and is read after the pool's threads have been joined.  There,
      knowledge is passed on as the orders say and a relaxed or acquire load may
      give an old value; read-modify-writes give the newest, as the language
      demands.  Loads of values that are written later (out of thin air) are left
      out.  Everything else is under a mutex or uses the default order, and is
      interleaved.
    - Failure of allocation (but for [HashMap]'s constructor, which can be asked
      for more slots than there is memory, and for the pool allocator running
      out), and numbers that memory bounds: reference counts beyond [long],
      element counts beyond [std::size_t].
    - [HashMap::loadFactor] (a floating-point number that nothing uses).
    - The kernel.  It is an argument: which bytes arrive, what calls answer, which
      descriptor is free.  [run] takes one list of answers, so it is a finite part
      of a run; that [run] ends is [TCPServerMain.stop_ends_run].  Socket options
      ([SO_REUSEADDR], [SO_NOSIGPIPE]) and the backlog have no effect in the model.
    - [RWLock] is not recursive, and a thread of [RWLockGuards] has one guard at a
      time; the code never holds two guards of the same lock.
    - Of the benchmarks the clock, the printed figures and the random generator
      (its numbers are arguments).  In [BenchServer] connections do not fail and
      writes to a client that reads succeed.
    - [tests/], which are not part of the program. *)

From stdpp Require Export base tactics numbers list list_numbers strings gmap sorting.

#[global] Set Default Goal Selector "!".

(** ** Results of C++ code

    A C++ call returns a value, throws, or runs into undefined behaviour
    (an out-of-range [operator[]], a null dereference, a [.value()] of an empty
    optional).  Loops and recursions that are not structural carry fuel, and
    running out of it is [Undef] too, so that a theorem that concludes [Val _]
    rules out both. *)
Inductive exn :=
  | QueryError (what : string)        (* cppdb::QueryError *)
  | InvalidArgument (what : string)   (* std::invalid_argument *)
  | OutOfRange (what : string)        (* std::out_of_range *)
  | RuntimeError (what : string)      (* std::runtime_error *)
  | LengthError                       (* std::length_error *)
  | BadAlloc                          (* std::bad_alloc *)
  | BadVariantAccess.                 (* std::bad_variant_access *)

Inductive result (A : Type) :=
  | Val (a : A)
  | Throw (e : exn)
  | Undef.
Arguments Val {A} _.
Arguments Throw {A} _.
Arguments Undef {A}.

#[export] Instance result_ret : MRet result := λ A a, Val a.
#[export] Instance result_bind : MBind result := λ A B f r,
  match r with Val a => f a | Throw e => Throw e | Undef => Undef end.

(** Reading an optional, a pointer or a vector cell that must be there. *)
Definition deref {A} (o : option A) : result A :=
  match o with Some a => Val a | None => Undef end.

(** ** The range of an [int] *)
Definition INT_MIN : Z := (- 2 ^ 31)%Z.
Definition INT_MAX : Z := (2 ^ 31 - 1)%Z.

(** ** Stateful code

    [M S A] is a computation over a mutable object of type [S].  An exception
    keeps the state reached when it was thrown: C++ does not roll back. *)
Inductive outcome (S A : Type) :=
  | Ret (s : S) (a : A)
  | Exn (s : S) (e : exn)
  | Stuck.
Arguments Ret {S A} _ _.
Arguments Exn {S A} _ _.
Arguments Stuck {S A}.

Definition M (S A : Type) : Type := S → outcome S A.

#[export] Instance M_ret {S} : MRet (M S) := λ A a s, Ret s a.
#[export] Instance M_bind {S} : MBind (M S) := λ A B f m s,
  match m s with
  | Ret s' a => f a s'
  | Exn s' e => Exn s' e
  | Stuck => Stuck
  end.

Definition get_state {S} : M S S := λ s, Ret s s.
Definition put_state {S} (s' : S) : M S unit := λ _, Ret s' ().
Definition throw {S A} (e : exn) : M S A := λ s, Exn s e.

(** A pure computation run inside stateful code. *)
Definition lift {S A} (r : result A) : M S A := λ s,
  match r with Val a => Ret s a | Throw e => Exn s e | Undef => Stuck end.

(** *** Running stateful code *)
Section M_equations.
Context {S A B C : Type}.
Implicit Types (s : S) (a : A) (m : M S A) (f : A → M S B) (g : B → M S C).

Lemma M_ret_run s a : mret (M := M S) a s = Ret s a.
Proof. done. Qed.
Lemma M_ret_bind f s a : (mret (M := M S) a ≫= f) s = f a s.
Proof. done. Qed.
Lemma M_get_run s : get_state s = Ret s s.
Proof. done. Qed.
Lemma M_put_run s s' : put_state s' s = Ret s' ().
Proof. done. Qed.
Lemma M_throw_run s e : throw (A := A) e s = Exn s e.
Proof. done. Qed.
Lemma M_throw_bind f s e : (throw e ≫= f) s = Exn s e.
Proof. done. Qed.
Lemma M_lift_run s a : lift (Val a) s = Ret s a.
Proof. done. Qed.
Lemma M_lift_throw s e : lift (A := A) (Throw e) s = Exn s e.
Proof. done. Qed.
Lemma M_lift_bind f s a : (lift (Val a) ≫= f) s = f a s.
Proof. done. Qed.
Lemma M_lift_throw_bind f s e : (lift (Throw e) ≫= f) s = Exn s e.
Proof. done. Qed.
Lemma M_assoc f g m s : ((m ≫= f) ≫= g) s = (m ≫= (λ a, f a ≫= g)) s.
Proof. unfold mbind, M_bind. by destruct (m s). Qed.

(** A call whose outcome is known. *)
Lemma M_bind_run m f s s' a : m s = Ret s' a → (m ≫= f) s = f a s'.
Proof. unfold mbind, M_bind. by intros ->. Qed.
Lemma M_bind_exn m f s s' e : m s = Exn s' e → (m ≫= f) s = Exn s' e.
Proof. unfold mbind, M_bind. by intros ->. Qed.
End M_equations.

Lemma M_get_bind {S B} (f : S → M S B) s : (get_state ≫= f) s = f s s.
Proof. done. Qed.
Lemma M_put_bind {S B} (f : unit → M S B) (s s' : S) : (put_state s' ≫= f) s = f () s'.
Proof. done. Qed.

Create HintDb mrun.
#[export] Hint Rewrite @M_ret_run @M_ret_bind @M_get_run @M_put_run @M_throw_run @M_throw_bind
  @M_lift_run @M_lift_throw @M_lift_bind @M_lift_throw_bind @M_get_bind @M_put_bind @M_assoc : mrun.

(** Runs stateful code as far as it goes by itself. *)
Ltac mrun := repeat (progress (autorewrite with mrun; cbn beta iota)).

(** Premises of a step, one after the other: the first ones determine what the
    later ones compute. *)
Ltac vm_each := only 1: (vm_compute; reflexivity); try vm_each.

(** A closed decidable proposition, by computation. *)
Ltac decides := refine (bool_decide_unpack _ _); vm_compute; exact I.

(** A range-for loop. *)
Fixpoint forM {S A} (l : list A) (f : A → M S unit) : M S unit :=
  match l with
  | [] => mret ()
  | a :: l' => f a ;; forM l' f
  end.

Fixpoint foldR {A B} (f : B → A → result B) (b : B) (l : list A) : result B :=
  match l with
  | [] => Val b
  | a :: l' => b' ← f b a; foldR f b' l'
  end.

(** ** [std::vector] operations that can leave the valid range *)
Definition at_ {A} (l : list A) (i : nat) : result A := deref (l !! i).

Definition vec_set {A} (i : nat) (x : A) (l : list A) : result (list A) :=
  if decide (i < length l) then Val (<[i:=x]> l) else Undef.

(** [v.insert(v.begin() + i, x)] *)
Definition vec_insert {A} (i : nat) (x : A) (l : list A) : result (list A) :=
  if decide (i ≤ length l) then Val (take i l ++ x :: drop i l) else Undef.

(** [v.erase(v.begin() + i)] *)
Definition vec_erase {A} (i : nat) (l : list A) : result (list A) :=
  if decide (i < length l) then Val (take i l ++ drop (S i) l) else Undef.

(** The two halves of a vector whose tail from [i] on is moved out and erased. *)
Definition vec_split {A} (i : nat) (l : list A) : result (list A * list A) :=
  if decide (i ≤ length l) then Val (take i l, drop i l) else Undef.

(** [v.back()] together with [v.pop_back()] *)
Definition vec_pop_back {A} (l : list A) : result (A * list A) :=
  x ← deref (last l); Val (x, take (length l - 1) l).

(** [v.front()] together with [v.erase(v.begin())] *)
Definition vec_pop_front {A} (l : list A) : result (A * list A) :=
  match l with [] => Undef | x :: l' => Val (x, l') end.

(** ** Ordered keys

    What the templates use of a key type: [operator<] and [operator==].  The
    laws are kept apart, so that the operations can be run without them. *)
Class KeyOps (K : Type) := {
  kltb : K → K → bool;
  keqb : K → K → bool;
}.

Class KeyLaws (K : Type) `{KeyOps K} := {
  keqb_eq : ∀ a b : K, keqb a b = true ↔ a = b;
  kltb_irrefl : ∀ a : K, kltb a a = false;
  kltb_trans : ∀ a b c : K, kltb a b = true → kltb b c = true → kltb a c = true;
  kltb_total : ∀ a b : K, kltb a b = true ∨ a = b ∨ kltb b a = true;
}.

Declare Scope cppdb_scope.
Delimit Scope cppdb_scope with cppdb.
Open Scope cppdb_scope.
Notation "a ≺ b" := (kltb a b = true) (at level 70) : cppdb_scope.

#[export] Instance Z_key : KeyOps Z := {| kltb := Z.ltb; keqb := Z.eqb |}.
#[export] Instance Z_key_laws : KeyLaws Z.
Proof. split; intros; simpl in *; lia. Qed.

(** ** Tactics and hints *)
Create HintDb cppdb.

(** Splits conjunctions and existentials of the context. *)
Ltac destr :=
  repeat match goal with
  | H : _ ∧ _ |- _ => destruct H
  | H : ∃ _, _ |- _ => destruct H
  | H : (_, _) = (_, _) |- _ => injection H as ? ?
  end; simplify_eq.

(** Evaluates the first [bool_decide] of the goal that arithmetic settles. *)
Ltac bdec :=
  match goal with
  | |- context [bool_decide ?P] =>
      first [ rewrite (bool_decide_eq_true_2 P) by (simpl; rewrite ?length_app; simpl; lia)
            | rewrite (bool_decide_eq_false_2 P) by (simpl; rewrite ?length_app; simpl; lia) ]
  end.

(** Inverts a [result] bind equation that ends in a value. *)
Ltac inv_bind :=
  repeat match goal with
  | H : mbind _ ?r = Val _ |- _ =>
      let E := fresh "E" in
      destruct r eqn:E; unfold mbind, result_bind in H; simpl in H; try discriminate H
  | H : Val _ = Val _ |- _ => injection H as H
  | H : mret _ = Val _ |- _ => injection H as H
  end.

(** ** Vectors seen through a split at an index

    Every operation of the code indexes a vector at a position that the proof
    knows as the length of a prefix; these equations are what the component
    proofs rewrite with. *)
Section vectors.
Context {A : Type}.
Implicit Types (l : list A) (x : A).

Lemma at_app l1 x l2 n : n = length l1 → at_ (l1 ++ x :: l2) n = Val x.
Proof. intros ->. unfold at_. by rewrite list_lookup_middle. Qed.

Lemma at_lt l i : i < length l → ∃ x, at_ l i = Val x ∧ l !! i = Some x.
Proof.
  intros [x Hx]%lookup_lt_is_Some. exists x. unfold at_. by rewrite Hx.
Qed.

Lemma at_Some l i x : l !! i = Some x → at_ l i = Val x.
Proof. unfold at_. by intros ->. Qed.

Lemma vec_set_Some l i x y : l !! i = Some x → vec_set i y l = Val (<[i:=y]> l).
Proof. intros Hi. unfold vec_set. rewrite decide_True; [done|]. by eapply lookup_lt_Some. Qed.

Lemma vec_set_app l1 x y l2 n :
  n = length l1 → vec_set n y (l1 ++ x :: l2) = Val (l1 ++ y :: l2).
Proof.
  intros ->. unfold vec_set.
  rewrite decide_True by (rewrite length_app; simpl; lia).
  by rewrite (insert_app_r_alt l1) by lia; rewrite Nat.sub_diag.
Qed.

Lemma vec_insert_app l1 x l2 n :
  n = length l1 → vec_insert n x (l1 ++ l2) = Val (l1 ++ x :: l2).
Proof.
  intros ->. unfold vec_insert.
  rewrite decide_True by (rewrite length_app; lia).
  by rewrite take_app_length, drop_app_length.
Qed.

Lemma vec_erase_app l1 x l2 n :
  n = length l1 → vec_erase n (l1 ++ x :: l2) = Val (l1 ++ l2).
Proof.
  intros ->. unfold vec_erase.
  rewrite decide_True by (rewrite length_app; simpl; lia).
  rewrite take_app_length. f_equal. f_equal.
  replace (S (length l1)) with (length l1 + 1) by lia.
  by rewrite drop_app_add.
Qed.

Lemma vec_split_app l1 l2 n :
  n = length l1 → vec_split n (l1 ++ l2) = Val (l1, l2).
Proof.
  intros ->. unfold vec_split.
  rewrite decide_True by (rewrite length_app; lia).
  by rewrite take_app_length, drop_app_length.
Qed.

Lemma vec_pop_back_snoc l x : vec_pop_back (l ++ [x]) = Val (x, l).
Proof.
  unfold vec_pop_back. rewrite last_snoc. simpl.
  rewrite length_app. simpl. replace (length l + 1 - 1) with (length l) by lia.
  by rewrite take_app_length.
Qed.

(** The same one position further. *)
Lemma at_app_S l1 x y l2 n :
  n = S (length l1) → at_ (l1 ++ x :: y :: l2) n = Val y.
Proof.
  intros ->. rewrite (cons_middle x), (assoc_L (++)).
  apply at_app. rewrite length_app. simpl. lia.
Qed.

Lemma vec_set_app_S l1 x y z l2 n :
  n = S (length l1) → vec_set n z (l1 ++ x :: y :: l2) = Val (l1 ++ x :: z :: l2).
Proof.
  intros ->. rewrite (cons_middle x l1 (y :: l2)), (cons_middle x l1 (z :: l2)), !(assoc_L (++)).
  apply vec_set_app. rewrite length_app. simpl. lia.
Qed.

Lemma vec_insert_app_S l1 x y l2 n :
  n = S (length l1) → vec_insert n y (l1 ++ x :: l2) = Val (l1 ++ x :: y :: l2).
Proof.
  intros ->. rewrite (cons_middle x l1 l2), (cons_middle x l1 (y :: l2)), !(assoc_L (++)).
  apply vec_insert_app. rewrite length_app. simpl. lia.
Qed.

Lemma vec_erase_app_S l1 x y l2 n :
  n = S (length l1) → vec_erase n (l1 ++ x :: y :: l2) = Val (l1 ++ x :: l2).
Proof.
  intros ->. rewrite (cons_middle x l1 (y :: l2)), (cons_middle x l1 l2), !(assoc_L (++)).
  apply vec_erase_app. rewrite length_app. simpl. lia.
Qed.

Lemma vec_split_app_S l1 x l2 n :
  n = S (length l1) → vec_split n (l1 ++ x :: l2) = Val (l1 ++ [x], l2).
Proof.
  intros ->. rewrite (cons_middle x), (assoc_L (++)).
  apply vec_split_app. rewrite length_app. simpl. lia.
Qed.

(** A list split at an index it contains, or at its end. *)
Lemma split_at_lt l i :
  i < length l → ∃ l1 x l2, l = l1 ++ x :: l2 ∧ length l1 = i.
Proof.
  intros [x Hx]%lookup_lt_is_Some.
  exists (take i l), x, (drop (S i) l). split.
  - by rewrite take_drop_middle.
  - rewrite length_take. apply lookup_lt_Some in Hx. lia.
Qed.

Lemma split_at_le l i : i ≤ length l → ∃ l1 l2, l = l1 ++ l2 ∧ length l1 = i.
Proof.
  intros Hi. exists (take i l), (drop i l).
  rewrite take_drop, length_take. split; [done | lia].
Qed.

Lemma snoc_inv l : 0 < length l → ∃ l' x, l = l' ++ [x].
Proof. destruct l as [|x l' _] using rev_ind; simpl; [lia | eauto]. Qed.
End vectors.

(** Runs the vector operations of a goal at positions that [lia] can name. *)
Ltac vec_step :=
  match goal with
  | |- context [at_ (?l1 ++ ?x :: ?l2) ?n] => rewrite (at_app l1 x l2 n) by (simpl; lia)
  | |- context [at_ (?l1 ++ ?x :: ?y :: ?l2) ?n] => rewrite (at_app_S l1 x y l2 n) by (simpl; lia)
  | |- context [vec_set ?n ?y (?l1 ++ ?x :: ?l2)] =>
      rewrite (vec_set_app l1 x y l2 n) by (simpl; lia)
  | |- context [vec_set ?n ?z (?l1 ++ ?x :: ?y :: ?l2)] =>
      rewrite (vec_set_app_S l1 x y z l2 n) by (simpl; lia)
  | |- context [vec_insert ?n ?x (?l1 ++ ?l2)] => rewrite (vec_insert_app l1 x l2 n) by (simpl; lia)
  | |- context [vec_insert ?n ?y (?l1 ++ ?x :: ?l2)] =>
      rewrite (vec_insert_app_S l1 x y l2 n) by (simpl; lia)
  | |- context [vec_erase ?n (?l1 ++ ?x :: ?l2)] => rewrite (vec_erase_app l1 x l2 n) by (simpl; lia)
  | |- context [vec_erase ?n (?l1 ++ ?x :: ?y :: ?l2)] =>
      rewrite (vec_erase_app_S l1 x y l2 n) by (simpl; lia)
  | |- context [vec_split ?n (?l1 ++ ?l2)] => rewrite (vec_split_app l1 l2 n) by (simpl; lia)
  | |- context [vec_split ?n (?l1 ++ ?x :: ?l2)] =>
      rewrite (vec_split_app_S l1 x l2 n) by (simpl; lia)
  | |- context [vec_pop_back (?l ++ [?x])] => rewrite (vec_pop_back_snoc l x)
  end.
Ltac vec_run := repeat (vec_step; cbn [mbind result_bind]).

Lemma foldR_app {A B} (f : B → A → result B) b l1 l2 :
  foldR f b (l1 ++ l2) = (b' ← foldR f b l1; foldR f b' l2).
Proof.
  revert b. induction l1 as [|a l1 IH]; intros b; [done|].
  simpl. destruct (f b a); simpl; [apply IH | done | done].
Qed.

Lemma filter_all {A} (P : A → Prop) `{∀ x, Decision (P x)} (l : list A) :
  (∀ x, x ∈ l → P x) → filter P l = l.
Proof.
  induction l as [|x l IH]; intros Hall; [done|].
  rewrite filter_cons_True by (apply Hall; by left). f_equal. apply IH. intros y Hy. apply Hall. by right.
Qed.

Lemma filter_ext_in {A} (P Q : A → Prop) `{∀ x, Decision (P x)} `{∀ x, Decision (Q x)} (l : list A) :
  (∀ x, x ∈ l → P x ↔ Q x) → filter P l = filter Q l.
Proof.
  induction l as [|x l IH]; intros Hall; [done|]. rewrite !filter_cons.
  rewrite (IH (λ y Hy, Hall y (list_elem_of_further _ _ _ Hy))).
  specialize (Hall x (list_elem_of_here _ _)). by repeat case_decide; try tauto.
Qed.

(** A loop that collects [g] of the elements a fallible test accepts. *)
Lemma foldR_collect {A B} (pred : A → result bool) (p : A → bool) (g : A → B) (l : list A) acc :
  (∀ x, x ∈ l → pred x = Val (p x)) →
  foldR (λ acc x, b ← pred x; Val (if b : bool then acc ++ [g x] else acc)) acc l =
  Val (acc ++ (g <$> filter (λ x, p x = true) l)).
Proof.
  revert acc. induction l as [|x l IH]; intros acc Hall; simpl; [by rewrite app_nil_r|].
  rewrite Hall by (by left). simpl. rewrite IH by (intros y Hy; apply Hall; by right).
  rewrite filter_cons. destruct (p x) eqn:Hp; simpl; [|done]. by rewrite <- (assoc_L (++)).
Qed.

(** ** Strings *)
Lemma string_app_cons c s s' : String c s +:+ s' = String c (s +:+ s').
Proof. done. Qed.
Lemma string_append_assoc s1 s2 s3 : (s1 +:+ s2) +:+ s3 = s1 +:+ (s2 +:+ s3).
Proof. induction s1 as [|c s1 IH]; [done|]. by rewrite !string_app_cons, IH. Qed.
Lemma string_length_app s s' : String.length (s +:+ s') = String.length s + String.length s'.
Proof. induction s as [|c s IH]; simpl; [done|]. by rewrite IH. Qed.
Lemma string_append_nil s : s +:+ "" = s.
Proof. induction s as [|c s IH]; [done|]. by rewrite string_app_cons, IH. Qed.
