(* ===== verification/AssocList.v ===== *)
(** * Ordered association lists

    The abstract value of a keyed container: its entries in strictly ascending
    key order.  [al_lookup], [al_insert], [al_delete], [al_alter] and [al_range]
    are the reference meaning of the B-tree's operations and, through them, of
    the tables; the lemmas here say how they act on a list cut into a part below
    the key, a part that may hold it and a part above it, and how they combine. *)

From S2P Require Import Prelude.

Section AssocList.
Context {K V : Type} `{KeyLaws K}.
Implicit Types (k : K) (v : V) (e : K * V) (l : list (K * V)).

Definition elt (a b : K * V) : Prop := a.1 ≺ b.1.
Definition ksorted l : Prop := StronglySorted elt l.
Definition below k l : Prop := Forall (λ e, e.1 ≺ k) l.
Definition above k l : Prop := Forall (λ e, k ≺ e.1) l.

Fixpoint al_lookup k l : option V :=
  match l with
  | [] => None
  | e :: l' => if keqb e.1 k then Some e.2 else al_lookup k l'
  end.

(** Insertion that leaves a present key alone. *)
Fixpoint al_insert k v l : list (K * V) :=
  match l with
  | [] => [(k, v)]
  | e :: l' =>
    if keqb e.1 k then l
    else if kltb k e.1 then (k, v) :: l
    else e :: al_insert k v l'
  end.

Definition al_delete k l : list (K * V) := base.filter (λ e, keqb e.1 k = false) l.

Definition al_alter (f : V → V) k l : list (K * V) :=
  (λ e, if keqb e.1 k then (e.1, f e.2) else e) <$> l.

Definition in_range (lo hi : K) e : bool := negb (kltb e.1 lo) && negb (kltb hi e.1).
Definition al_range (lo hi : K) l : list (K * V) := base.filter (λ e, in_range lo hi e = true) l.

(** ** The order on keys *)
Lemma keqb_refl k : keqb k k = true.
Proof. by apply keqb_eq. Qed.

Lemma keqb_false k1 k2 : keqb k1 k2 = false ↔ k1 ≠ k2.
Proof. rewrite <- not_true_iff_false, keqb_eq. done. Qed.

Lemma lt_neqb k1 k2 : k1 ≺ k2 → keqb k1 k2 = false.
Proof. intros Hlt. apply keqb_false. intros ->. by rewrite kltb_irrefl in Hlt. Qed.

Lemma gt_neqb k1 k2 : k2 ≺ k1 → keqb k1 k2 = false.
Proof. intros Hlt. apply keqb_false. intros ->. by rewrite kltb_irrefl in Hlt. Qed.

Lemma lt_nlt k1 k2 : k1 ≺ k2 → kltb k2 k1 = false.
Proof.
  intros H1. apply not_true_iff_false. intros H2.
  pose proof (kltb_trans _ _ _ H1 H2) as H3. by rewrite kltb_irrefl in H3.
Qed.

Lemma nlt_neq_gt k1 k2 : kltb k1 k2 = false → keqb k1 k2 = false → k2 ≺ k1.
Proof.
  intros H1 H2. apply keqb_false in H2.
  destruct (kltb_total k1 k2) as [?|[?|?]]; congruence.
Qed.

(** ** Sorted lists *)
Lemma ksorted_app l1 l2 :
  ksorted (l1 ++ l2) ↔
  (∀ a b, a ∈ l1 → b ∈ l2 → a.1 ≺ b.1) ∧ ksorted l1 ∧ ksorted l2.
Proof. apply StronglySorted_app. Qed.

Lemma ksorted_cons e l : ksorted (e :: l) ↔ above e.1 l ∧ ksorted l.
Proof.
  split.
  - intros Hs. apply StronglySorted_inv in Hs as [? Ha]. done.
  - intros [Ha Hs]. by constructor.
Qed.

Lemma ksorted_mid l1 e l2 :
  ksorted (l1 ++ e :: l2) →
  below e.1 l1 ∧ above e.1 l2 ∧ ksorted l1 ∧ ksorted l2.
Proof.
  rewrite ksorted_app, ksorted_cons. intros (Hx & Hs1 & Ha & Hs2).
  split_and!; try done.
  apply Forall_forall. intros a Ha'. apply Hx; [done | by left].
Qed.

Lemma ksorted_glue l1 k l2 :
  below k l1 → above k l2 → ksorted l1 → ksorted l2 → ksorted (l1 ++ l2).
Proof.
  intros Hb Ha Hs1 Hs2. apply ksorted_app. split_and!; try done.
  intros a b Hin1 Hin2. eapply kltb_trans.
  - by apply (proj1 (Forall_forall _ _) Hb).
  - by apply (proj1 (Forall_forall _ _) Ha).
Qed.

Lemma ksorted_glue_mid l1 e l2 :
  below e.1 l1 → above e.1 l2 → ksorted l1 → ksorted l2 → ksorted (l1 ++ e :: l2).
Proof.
  intros Hb Ha Hs1 Hs2. apply ksorted_app. split_and!; try done.
  - intros a b Hin1 Hin2. pose proof (proj1 (Forall_forall _ _) Hb a Hin1) as Hae.
    apply elem_of_cons in Hin2 as [->|Hin2]; [done|].
    eapply kltb_trans; [exact Hae|]. by apply (proj1 (Forall_forall _ _) Ha).
  - by apply ksorted_cons.
Qed.

Lemma below_app k l1 l2 : below k (l1 ++ l2) ↔ below k l1 ∧ below k l2.
Proof. apply Forall_app. Qed.
Lemma above_app k l1 l2 : above k (l1 ++ l2) ↔ above k l1 ∧ above k l2.
Proof. apply Forall_app. Qed.

Lemma below_trans k1 k2 l : below k1 l → k1 ≺ k2 → below k2 l.
Proof. intros Hb Hlt. eapply Forall_impl; [exact Hb|]. simpl. intros e He. by eapply kltb_trans; eauto. Qed.
Lemma above_trans k1 k2 l : above k2 l → k1 ≺ k2 → above k1 l.
Proof. intros Ha Hlt. eapply Forall_impl; [exact Ha|]. simpl. intros e He. by eapply kltb_trans; eauto. Qed.

Lemma ksorted_filter (P : K * V → Prop) `{∀ x, Decision (P x)} l :
  ksorted l → ksorted (base.filter P l).
Proof.
  induction l as [|e l IH]; intros Hs; [done|].
  apply ksorted_cons in Hs as [Ha Hs]. rewrite filter_cons.
  destruct (decide (P e)); [|by apply IH].
  apply ksorted_cons. split; [|by apply IH].
  apply Forall_forall. intros a [_ Hin]%list_elem_of_filter.
  by apply (proj1 (Forall_forall _ _) Ha).
Qed.

Lemma ksorted_NoDup l : ksorted l → NoDup (l.*1).
Proof.
  induction l as [|e l IH]; intros Hs; [constructor|].
  apply ksorted_cons in Hs as [Ha Hs]. simpl. constructor; [|by apply IH].
  intros (e' & Heq & Hin)%list_elem_of_fmap.
  pose proof (proj1 (Forall_forall _ _) Ha e' Hin) as Hlt.
  simpl in Hlt. by rewrite Heq, kltb_irrefl in Hlt.
Qed.

(** ** Lookup *)
Lemma al_lookup_app_below k l1 l2 : below k l1 → al_lookup k (l1 ++ l2) = al_lookup k l2.
Proof.
  induction 1 as [|e l1 He Hb IH]; [done|]. simpl. by rewrite lt_neqb.
Qed.

Lemma al_lookup_above k l : above k l → al_lookup k l = None.
Proof. induction 1 as [|e l He Ha IH]; [done|]. simpl. by rewrite gt_neqb. Qed.

Lemma al_lookup_below k l : below k l → al_lookup k l = None.
Proof. intros Hb. by rewrite <- (app_nil_r l), al_lookup_app_below. Qed.

Lemma al_lookup_app_above k l1 l2 : above k l2 → al_lookup k (l1 ++ l2) = al_lookup k l1.
Proof.
  intros Ha. induction l1 as [|e l1 IH]; simpl; [by apply al_lookup_above|].
  by rewrite IH.
Qed.

Lemma al_lookup_here k v l1 l2 : below k l1 → al_lookup k (l1 ++ (k, v) :: l2) = Some v.
Proof. intros Hb. rewrite al_lookup_app_below by done. simpl. by rewrite keqb_refl. Qed.

Lemma al_lookup_elem k v l : al_lookup k l = Some v → (k, v) ∈ l.
Proof.
  induction l as [|[k' v'] l IH]; simpl; [done|].
  destruct (keqb k' k) eqn:E.
  - apply keqb_eq in E. intros [= ->]. subst. by left.
  - intros Hl. right. by apply IH.
Qed.

Lemma al_lookup_Some k v l : ksorted l → al_lookup k l = Some v ↔ (k, v) ∈ l.
Proof.
  intros Hs. split; [apply al_lookup_elem|].
  intros (l1 & l2 & ->)%list_elem_of_split.
  apply ksorted_mid in Hs as (Hb & _). by apply al_lookup_here.
Qed.

Lemma al_lookup_None k l : al_lookup k l = None ↔ k ∉ l.*1.
Proof.
  induction l as [|[k' v'] l IH]; simpl; [set_solver|].
  destruct (keqb k' k) eqn:E.
  - apply keqb_eq in E. subst. set_solver.
  - apply keqb_false in E. rewrite IH. set_solver.
Qed.

(** ** Insertion *)
Lemma al_insert_app_below k v l1 l2 :
  below k l1 → al_insert k v (l1 ++ l2) = l1 ++ al_insert k v l2.
Proof.
  induction 1 as [|e l1 He Hb IH]; [done|]. simpl.
  by rewrite lt_neqb, (lt_nlt e.1 k), IH.
Qed.

Lemma al_insert_above k v l : above k l → al_insert k v l = (k, v) :: l.
Proof.
  destruct 1 as [|e l He Ha]; [done|]. simpl. by rewrite gt_neqb, He.
Qed.

Lemma al_insert_app_above k v l1 l2 :
  above k l2 → al_insert k v (l1 ++ l2) = al_insert k v l1 ++ l2.
Proof.
  intros Ha. induction l1 as [|e l1 IH]; simpl; [by apply al_insert_above|].
  destruct (keqb e.1 k); [done|]. destruct (kltb k e.1); [done|]. by rewrite IH.
Qed.

Lemma al_insert_here k v v' l1 l2 :
  below k l1 → al_insert k v (l1 ++ (k, v') :: l2) = l1 ++ (k, v') :: l2.
Proof. intros Hb. rewrite al_insert_app_below by done. simpl. by rewrite keqb_refl. Qed.

Lemma al_insert_present k v l :
  ksorted l → is_Some (al_lookup k l) → al_insert k v l = l.
Proof.
  intros Hs [v' (l1 & l2 & ->)%al_lookup_elem%list_elem_of_split].
  apply ksorted_mid in Hs as (Hb & _). by apply al_insert_here.
Qed.

Lemma al_insert_elem k v l e :
  e ∈ al_insert k v l → e = (k, v) ∨ e ∈ l.
Proof.
  induction l as [|e' l IH]; simpl; [set_solver|].
  destruct (keqb e'.1 k); [set_solver|].
  destruct (kltb k e'.1); set_solver.
Qed.

Lemma al_insert_ksorted k v l : ksorted l → ksorted (al_insert k v l).
Proof.
  induction l as [|e l IH]; intros Hs; simpl; [by repeat constructor|].
  destruct (keqb e.1 k) eqn:E1; [done|].
  apply ksorted_cons in Hs as Hs'. destruct Hs' as [Ha Hs'].
  destruct (kltb k e.1) eqn:E2; apply ksorted_cons; (split; [|auto]).
  - constructor; [done|]. eapply above_trans; eauto.
  - apply Forall_forall. intros e' [->|Hin]%al_insert_elem.
    + simpl. apply nlt_neq_gt; [done|]. apply keqb_false. apply keqb_false in E1. congruence.
    + by apply (proj1 (Forall_forall _ _) Ha).
Qed.

Lemma al_insert_length k v l :
  ksorted l →
  length (al_insert k v l) = if al_lookup k l is Some _ then length l else length l + 1.
Proof.
  intros Hs. destruct (al_lookup k l) as [v'|] eqn:E.
  { by rewrite al_insert_present. }
  induction l as [|e l IH]; simpl in *; [done|].
  destruct (keqb e.1 k) eqn:E1; [done|].
  destruct (kltb k e.1) eqn:E2; simpl; [lia|].
  apply ksorted_cons in Hs as [_ Hs]. rewrite IH by done. lia.
Qed.

Lemma al_lookup_insert k k' v l :
  al_lookup k l = None →
  al_lookup k' (al_insert k v l) = if keqb k k' then Some v else al_lookup k' l.
Proof.
  induction l as [|e l IH]; simpl; [done|].
  destruct (keqb e.1 k) eqn:E1; [done|]. intros Hl.
  destruct (kltb k e.1) eqn:E2; [done|]. simpl. rewrite IH by done.
  destruct (keqb e.1 k') eqn:E3; [|done].
  destruct (keqb k k') eqn:E4; [|done].
  apply keqb_eq in E3, E4. apply keqb_false in E1. congruence.
Qed.

(** ** Deletion *)
(** Nothing that is present is overwritten. *)
Lemma al_lookup_insert_stays k k' v v' l :
  ksorted l → al_lookup k' l = Some v' → al_lookup k' (al_insert k v l) = Some v'.
Proof.
  intros Hs Hk'. destruct (al_lookup k l) as [v0|] eqn:Hk.
  - by rewrite al_insert_present.
  - rewrite al_lookup_insert by done. destruct (keqb k k') eqn:He; [|done].
    apply keqb_eq in He as ->. congruence.
Qed.

Lemma al_delete_app k l1 l2 : al_delete k (l1 ++ l2) = al_delete k l1 ++ al_delete k l2.
Proof. apply filter_app. Qed.

Lemma al_delete_below k l : below k l → al_delete k l = l.
Proof.
  induction 1 as [|e l He Hb IH]; [done|]. unfold al_delete in *.
  rewrite filter_cons_True by (by apply lt_neqb). by rewrite IH.
Qed.

Lemma al_delete_above k l : above k l → al_delete k l = l.
Proof.
  induction 1 as [|e l He Hb IH]; [done|]. unfold al_delete in *.
  rewrite filter_cons_True by (by apply gt_neqb). by rewrite IH.
Qed.

Lemma al_delete_here k v l1 l2 :
  below k l1 → above k l2 → al_delete k (l1 ++ (k, v) :: l2) = l1 ++ l2.
Proof.
  intros Hb Ha. rewrite al_delete_app, al_delete_below by done. unfold al_delete.
  rewrite filter_cons_False by (simpl; by rewrite keqb_refl).
  f_equal. by apply al_delete_above.
Qed.

Lemma al_delete_mid k l1 l2 l3 :
  below k l1 → above k l3 → al_delete k (l1 ++ l2 ++ l3) = l1 ++ al_delete k l2 ++ l3.
Proof.
  intros Hb Ha. by rewrite !al_delete_app, (al_delete_below _ l1), (al_delete_above _ l3).
Qed.

Lemma al_delete_ksorted k l : ksorted l → ksorted (al_delete k l).
Proof. apply ksorted_filter. Qed.

Lemma al_delete_absent k l : al_lookup k l = None → al_delete k l = l.
Proof.
  induction l as [|e l IH]; simpl; [done|].
  destruct (keqb e.1 k) eqn:E; [done|]. intros Hl. unfold al_delete in *.
  by rewrite filter_cons_True, IH.
Qed.

Lemma al_delete_length k l :
  ksorted l →
  length (al_delete k l) = if al_lookup k l is Some _ then length l - 1 else length l.
Proof.
  intros Hs. destruct (al_lookup k l) as [v|] eqn:E.
  - apply al_lookup_elem, list_elem_of_split in E as (l1 & l2 & ->).
    apply ksorted_mid in Hs as (Hb & Ha & _).
    rewrite al_delete_here by done. rewrite !length_app. simpl. lia.
  - by rewrite al_delete_absent.
Qed.

Lemma al_lookup_delete k k' l :
  al_lookup k' (al_delete k l) = if keqb k k' then None else al_lookup k' l.
Proof.
  unfold al_delete. induction l as [|e l IH]; simpl; [by destruct (keqb k k')|].
  rewrite filter_cons. destruct (decide (keqb e.1 k = false)) as [E|E]; simpl.
  - rewrite IH. destruct (keqb e.1 k') eqn:E2; [|done].
    destruct (keqb k k') eqn:E3; [|done].
    apply keqb_eq in E2, E3. apply keqb_false in E. congruence.
  - rewrite IH. apply not_false_iff_true, keqb_eq in E. subst.
    by destruct (keqb e.1 k') eqn:E2.
Qed.

(** ** In-place update *)
Lemma al_alter_app f k l1 l2 : al_alter f k (l1 ++ l2) = al_alter f k l1 ++ al_alter f k l2.
Proof. apply fmap_app. Qed.

Lemma al_alter_below f k l : below k l → al_alter f k l = l.
Proof.
  induction 1 as [|e l He Hb IH]; [done|]. unfold al_alter in *.
  rewrite fmap_cons, IH. by rewrite lt_neqb.
Qed.

Lemma al_alter_above f k l : above k l → al_alter f k l = l.
Proof.
  induction 1 as [|e l He Hb IH]; [done|]. unfold al_alter in *.
  rewrite fmap_cons, IH. by rewrite gt_neqb.
Qed.

Lemma al_alter_mid f k l1 l2 l3 :
  below k l1 → above k l3 → al_alter f k (l1 ++ l2 ++ l3) = l1 ++ al_alter f k l2 ++ l3.
Proof.
  intros Hb Ha. by rewrite !al_alter_app, (al_alter_below _ _ l1), (al_alter_above _ _ l3).
Qed.

Lemma al_alter_keys f k l : (al_alter f k l).*1 = l.*1.
Proof.
  unfold al_alter. induction l as [|e l IH]; [done|]. csimpl. rewrite IH.
  by destruct (keqb e.1 k).
Qed.

(** Sortedness is a property of the keys alone. *)
Lemma ksorted_keys l1 l2 : l1.*1 = l2.*1 → ksorted l1 → ksorted l2.
Proof.
  revert l2. induction l1 as [|e1 l1 IH]; intros [|e2 l2] Heq Hs; try done.
  csimpl in *. injection Heq as He Hl.
  apply ksorted_cons in Hs as [Ha Hs]. apply ksorted_cons. split; [|by apply IH].
  apply Forall_forall. intros e Hin.
  assert (e.1 ∈ l1.*1) as (e' & He' & Hin')%list_elem_of_fmap.
  { rewrite Hl. by apply list_elem_of_fmap_2. }
  rewrite <- He, He'. by apply (proj1 (Forall_forall _ _) Ha).
Qed.

Lemma al_alter_ksorted f k l : ksorted l → ksorted (al_alter f k l).
Proof. apply ksorted_keys. by rewrite al_alter_keys. Qed.

Lemma al_lookup_alter f k k' l :
  al_lookup k' (al_alter f k l) =
  if keqb k k' then f <$> al_lookup k' l else al_lookup k' l.
Proof.
  unfold al_alter. induction l as [|e l IH]; csimpl; [by destruct (keqb k k')|].
  destruct (keqb e.1 k) eqn:E.
  - apply keqb_eq in E. subst k. simpl. rewrite IH. by destruct (keqb e.1 k').
  - rewrite IH. destruct (keqb e.1 k') eqn:E2; [|done].
    apply keqb_eq in E2. subst k'. apply keqb_false in E.
    by rewrite (proj2 (keqb_false k e.1)) by congruence.
Qed.

(** ** Ranges *)
Lemma al_range_app lo hi l1 l2 : al_range lo hi (l1 ++ l2) = al_range lo hi l1 ++ al_range lo hi l2.
Proof. apply filter_app. Qed.

Lemma al_range_below lo hi l : below lo l → al_range lo hi l = [].
Proof.
  induction 1 as [|e l He Hb IH]; [done|]. unfold al_range in *.
  rewrite filter_cons_False; [done|]. unfold in_range. by rewrite He.
Qed.

Lemma al_range_above lo hi l : above hi l → al_range lo hi l = [].
Proof.
  induction 1 as [|e l He Hb IH]; [done|]. unfold al_range in *.
  rewrite filter_cons_False; [done|]. unfold in_range. rewrite He.
  by destruct (kltb e.1 lo).
Qed.

Lemma al_range_cons_in lo hi e l :
  in_range lo hi e = true → al_range lo hi (e :: l) = e :: al_range lo hi l.
Proof. intros He. unfold al_range. by rewrite filter_cons_True. Qed.

(** ** Many keys at once *)
Definition has_key (ks : list K) (k : K) : bool := existsb (λ k', keqb k k') ks.

Lemma has_key_true ks k : has_key ks k = true ↔ k ∈ ks.
Proof.
  induction ks as [|k' ks IH]; simpl.
  - split; [done|by intros ?%elem_of_nil].
  - by rewrite orb_true_iff, IH, elem_of_cons, keqb_eq.
Qed.

Lemma al_delete_all ks l :
  foldl (λ l k, al_delete k l) l ks = base.filter (λ e, has_key ks e.1 = false) l.
Proof.
  revert l. induction ks as [|k ks IH]; intros l; simpl.
  - symmetry. by apply filter_all.
  - rewrite IH. unfold al_delete. rewrite list_filter_filter. apply filter_ext_in.
    intros e _. simpl. rewrite orb_false_iff. tauto.
Qed.

Lemma al_alter_all f ks l :
  NoDup ks →
  foldl (λ l k, al_alter f k l) l ks =
  (λ e, if has_key ks e.1 then (e.1, f e.2) else e) <$> l.
Proof.
  revert l. induction ks as [|k ks IH]; intros l Hn; simpl.
  - by rewrite list_fmap_id.
  - apply NoDup_cons in Hn as [Hk Hn]. rewrite IH by done. unfold al_alter.
    rewrite <- list_fmap_compose. apply list_fmap_ext. intros i e _. simpl.
    destruct (keqb e.1 k) eqn:He; simpl; [|done].
    apply keqb_eq in He. rewrite He. destruct (has_key ks k) eqn:Hks; [|done].
    by apply has_key_true in Hks.
Qed.

(** The keys of the entries that satisfy [p] name exactly those entries. *)
Lemma has_key_filter (p : V → bool) l e :
  ksorted l → e ∈ l → has_key (base.filter (λ e, p e.2 = true) l).*1 e.1 = p e.2.
Proof.
  intros Hs Hin. apply eq_bool_prop_intro. rewrite !Is_true_true, has_key_true. split.
  - intros ([k v] & Heq & [Hp Hin']%list_elem_of_filter)%list_elem_of_fmap.
    destruct e as [k' v']. simpl in *. subst k'.
    apply al_lookup_Some in Hin, Hin'; try done. congruence.
  - intros Hp. apply list_elem_of_fmap_2. by apply list_elem_of_filter.
Qed.

Lemma al_delete_where (p : V → bool) l :
  ksorted l →
  foldl (λ l k, al_delete k l) l (base.filter (λ e, p e.2 = true) l).*1 =
  base.filter (λ e, p e.2 = false) l.
Proof.
  intros Hs. rewrite al_delete_all. apply filter_ext_in. intros e He.
  by rewrite has_key_filter.
Qed.

Lemma al_alter_where f (p : V → bool) l :
  ksorted l →
  foldl (λ l k, al_alter f k l) l (base.filter (λ e, p e.2 = true) l).*1 =
  (λ e, if p e.2 then (e.1, f e.2) else e) <$> l.
Proof.
  intros Hs. rewrite al_alter_all.
  - apply list_fmap_ext. intros i e He%list_elem_of_lookup_2. by rewrite has_key_filter.
  - apply ksorted_NoDup. by apply ksorted_filter.
Qed.
End AssocList.
