(* ===== verification/BTree.v ===== *)
(** * B-tree (include/structures/BTree.hpp): data and operations

    [BTree<K, V>] as the code has it: nodes with parallel [keys] and [values]
    vectors and a [children] vector that is empty iff the node is a leaf.  A
    [UniquePtr<Node>] child is the sub-tree it owns; the root pointer is an
    [option].  Mutation of a node through a reference is written as the new node
    that the caller stores back at the index it descended through.

    Recursive member functions carry fuel.  The public operations start them with
    the depth of the tree; running out of fuel is [Undef], like an access outside
    a vector, and the theorems of [BTreeQuery], [BTreeInsert] and [BTreeRemove]
    show that neither happens on a tree that satisfies the invariant. *)

From S2P Require Import Prelude.

Section BTree.
Context {K V : Type} `{KeyOps K}.

#[warnings="-register-all"]
Inductive Node := mkNode {
  keys : list K;
  values : list V;
  children : list Node;
}.

Definition isLeaf (n : Node) : bool :=
  match children n with [] => true | _ => false end.

Record BTree := mkBTree {
  root_ : option Node;
  t_ : nat;
  size_ : nat;
}.

(** The depth of a tree, the fuel of the recursive operations. *)
Fixpoint depth (n : Node) : nat :=
  S (foldr Nat.max 0 (map depth (children n))).

(** [explicit BTree(int minDegree = 16)].  The argument is an [int]; an integer outside its range is not one. *)
Definition makeBTree (minDegree : Z) : result BTree :=
  if negb (bool_decide (INT_MIN ≤ minDegree ≤ INT_MAX)%Z) then Undef
  else if bool_decide (minDegree < 2)%Z
  then Throw (InvalidArgument "BTree: minimum degree must be >= 2")
  else Val (mkBTree None (Z.to_nat minDegree) 0).

(** [2 * t_ - 1] in [int] arithmetic: signed overflow is undefined. *)
Definition maxKeys (t : nat) : result nat :=
  if bool_decide (2 * Z.of_nat t ≤ INT_MAX)%Z then Val (2 * t - 1) else Undef.

Definition isFull (t : nat) (n : Node) : result bool :=
  m ← maxKeys t; Val (bool_decide (length (keys n) = m)).

(** [std::lower_bound]: the first position whose key is not less than [key]. *)
Fixpoint lower_bound (ks : list K) (key : K) : nat :=
  match ks with
  | [] => 0
  | k :: ks' => if kltb k key then S (lower_bound ks' key) else 0
  end.

Definition lowerBound (n : Node) (key : K) : nat := lower_bound (keys n) key.

(** [i < node.keys.size() && node.keys[i] == key] *)
Definition keyAt (n : Node) (i : nat) (key : K) : bool :=
  match keys n !! i with Some k => keqb k key | None => false end.

(** Storing back a child that was modified through its reference. *)
Definition setChild (n : Node) (i : nat) (c : Node) : result Node :=
  cs ← vec_set i c (children n);
  Val (mkNode (keys n) (values n) cs).

Definition setEntry (n : Node) (i : nat) (k : K) (v : V) : result Node :=
  ks ← vec_set i k (keys n);
  vs ← vec_set i v (values n);
  Val (mkNode ks vs (children n)).

(** ** Insertion *)
Definition splitChild (t : nat) (parent : Node) (i : nat) : result Node :=
  child ← at_ (children parent) i;
  let mid := t - 1 in
  '(_, rks) ← vec_split (mid + 1) (keys child);
  '(_, rvs) ← vec_split (mid + 1) (values child);
  '(lcs, rcs) ← (if isLeaf child then Val ([], [])
                 else vec_split (mid + 1) (children child));
  median ← at_ (keys child) mid;
  medianValue ← at_ (values child) mid;
  '(lks, _) ← vec_split mid (keys child);
  '(lvs, _) ← vec_split mid (values child);
  cs ← vec_set i (mkNode lks lvs lcs) (children parent);
  pks ← vec_insert i median (keys parent);
  pvs ← vec_insert i medianValue (values parent);
  pcs ← vec_insert (i + 1) (mkNode rks rvs rcs) cs;
  Val (mkNode pks pvs pcs).

Fixpoint insertNonFull (fuel : nat) (t : nat) (node : Node) (key : K) (value : V)
    : result (Node * bool) :=
  match fuel with
  | 0 => Undef
  | S fuel' =>
    let i := lowerBound node key in
    if keyAt node i key then Val (node, false)
    else if isLeaf node then
      ks ← vec_insert i key (keys node);
      vs ← vec_insert i value (values node);
      Val (mkNode ks vs (children node), true)
    else
      child ← at_ (children node) i;
      full ← isFull t child;
      '(node1, i1, dup) ←
        (if full : bool then
           node1 ← splitChild t node i;
           k ← at_ (keys node1) i;
           Val (node1, if kltb k key then i + 1 else i, keqb k key)
         else Val (node, i, false));
      if dup : bool then Val (node1, false)
      else
        child1 ← at_ (children node1) i1;
        '(child2, inserted) ← insertNonFull fuel' t child1 key value;
        node2 ← setChild node1 i1 child2;
        Val (node2, inserted)
  end.

Definition insert (b : BTree) (key : K) (value : V) : result (BTree * bool) :=
  match root_ b with
  | None => Val (mkBTree (Some (mkNode [key] [value] [])) (t_ b) 1, true)
  | Some root =>
    full ← isFull (t_ b) root;
    root1 ← (if full : bool
             then splitChild (t_ b) (mkNode [] [] [root]) 0
             else Val root);
    '(root2, inserted) ← insertNonFull (depth root1) (t_ b) root1 key value;
    Val (mkBTree (Some root2) (t_ b) (if inserted : bool then size_ b + 1 else size_ b),
         inserted)
  end.

(** ** Lookup *)
Fixpoint searchNode (fuel : nat) (node : Node) (key : K) : result (option V) :=
  match fuel with
  | 0 => Undef
  | S fuel' =>
    let i := lowerBound node key in
    if keyAt node i key then v ← at_ (values node) i; Val (Some v)
    else if isLeaf node then Val None
    else child ← at_ (children node) i; searchNode fuel' child key
  end.

Definition search (b : BTree) (key : K) : result (option V) :=
  match root_ b with
  | None => Val None
  | Some root => searchNode (depth root) root key
  end.

Definition contains (b : BTree) (key : K) : result bool :=
  r ← search b key; Val (bool_decide (is_Some r)).

(** A write through the pointer that the non-const [search] returns: [f] is
    applied to the value in place.  [None] is the null pointer. *)
Fixpoint updateNode (fuel : nat) (node : Node) (key : K) (f : V → result V)
    : result (option Node) :=
  match fuel with
  | 0 => Undef
  | S fuel' =>
    let i := lowerBound node key in
    if keyAt node i key then
      v ← at_ (values node) i;
      v' ← f v;
      vs ← vec_set i v' (values node);
      Val (Some (mkNode (keys node) vs (children node)))
    else if isLeaf node then Val None
    else
      child ← at_ (children node) i;
      r ← updateNode fuel' child key f;
      match r with
      | None => Val None
      | Some c => n ← setChild node i c; Val (Some n)
      end
  end.

Definition update (b : BTree) (key : K) (f : V → result V) : result (option BTree) :=
  match root_ b with
  | None => Val None
  | Some root =>
    r ← updateNode (depth root) root key f;
    Val (match r with
         | None => None
         | Some n => Some (mkBTree (Some n) (t_ b) (size_ b))
         end)
  end.

(** ** Removal *)
Definition borrowFromPrev (node : Node) (i : nat) : result Node :=
  child ← at_ (children node) i;
  left ← at_ (children node) (i - 1);
  sepKey ← at_ (keys node) (i - 1);
  sepValue ← at_ (values node) (i - 1);
  '(lk, lks) ← vec_pop_back (keys left);
  '(lv, lvs) ← vec_pop_back (values left);
  '(lcs, ccs) ← (if isLeaf left then Val (children left, children child)
                 else '(lc, lcs) ← vec_pop_back (children left);
                      Val (lcs, lc :: children child));
  node1 ← setEntry node (i - 1) lk lv;
  node2 ← setChild node1 (i - 1) (mkNode lks lvs lcs);
  setChild node2 i (mkNode (sepKey :: keys child) (sepValue :: values child) ccs).

Definition borrowFromNext (node : Node) (i : nat) : result Node :=
  child ← at_ (children node) i;
  right ← at_ (children node) (i + 1);
  sepKey ← at_ (keys node) i;
  sepValue ← at_ (values node) i;
  '(rk, rks) ← vec_pop_front (keys right);
  '(rv, rvs) ← vec_pop_front (values right);
  '(rcs, ccs) ← (if isLeaf right then Val (children right, children child)
                 else '(rc, rcs) ← vec_pop_front (children right);
                      Val (rcs, children child ++ [rc]));
  node1 ← setEntry node i rk rv;
  node2 ← setChild node1 (i + 1) (mkNode rks rvs rcs);
  setChild node2 i (mkNode (keys child ++ [sepKey]) (values child ++ [sepValue]) ccs).

Definition mergeChildren (node : Node) (i : nat) : result Node :=
  left ← at_ (children node) i;
  right ← at_ (children node) (i + 1);
  sepKey ← at_ (keys node) i;
  sepValue ← at_ (values node) i;
  let merged :=
    mkNode ((keys left ++ [sepKey]) ++ keys right)
           ((values left ++ [sepValue]) ++ values right)
           (if isLeaf right then children left else children left ++ children right) in
  node1 ← setChild node i merged;
  ks ← vec_erase i (keys node1);
  vs ← vec_erase i (values node1);
  cs ← vec_erase (i + 1) (children node1);
  Val (mkNode ks vs cs).

Definition fillChild (t : nat) (node : Node) (i : nat) : result Node :=
  let enough (j : nat) :=
    c ← at_ (children node) j; Val (bool_decide (t ≤ length (keys c))) in
  prevEnough ← (if bool_decide (0 < i) then enough (i - 1) else Val false);
  if prevEnough : bool then borrowFromPrev node i
  else
    nextEnough ← (if bool_decide (i < length (children node) - 1)
                  then enough (i + 1) else Val false);
    if nextEnough : bool then borrowFromNext node i
    else if bool_decide (0 < i) then mergeChildren node (i - 1)
    else mergeChildren node i.

Fixpoint takeMax (fuel : nat) (t : nat) (node : Node) : result (Node * (K * V)) :=
  match fuel with
  | 0 => Undef
  | S fuel' =>
    if isLeaf node then
      '(k, ks) ← vec_pop_back (keys node);
      '(v, vs) ← vec_pop_back (values node);
      Val (mkNode ks vs (children node), (k, v))
    else
      let last := length (children node) - 1 in
      child ← at_ (children node) last;
      node1 ← (if bool_decide (length (keys child) < t)
               then fillChild t node last else Val node);
      let last1 := length (children node1) - 1 in
      child1 ← at_ (children node1) last1;
      '(child2, e) ← takeMax fuel' t child1;
      node2 ← setChild node1 last1 child2;
      Val (node2, e)
  end.

Fixpoint takeMin (fuel : nat) (t : nat) (node : Node) : result (Node * (K * V)) :=
  match fuel with
  | 0 => Undef
  | S fuel' =>
    if isLeaf node then
      '(k, ks) ← vec_pop_front (keys node);
      '(v, vs) ← vec_pop_front (values node);
      Val (mkNode ks vs (children node), (k, v))
    else
      child ← at_ (children node) 0;
      node1 ← (if bool_decide (length (keys child) < t)
               then fillChild t node 0 else Val node);
      child1 ← at_ (children node1) 0;
      '(child2, e) ← takeMin fuel' t child1;
      node2 ← setChild node1 0 child2;
      Val (node2, e)
  end.

Fixpoint removeFrom (fuel : nat) (t : nat) (node : Node) (key : K)
    : result (Node * bool) :=
  match fuel with
  | 0 => Undef
  | S fuel' =>
    let i := lowerBound node key in
    let descend (n : Node) (j : nat) :=
      c ← at_ (children n) j;
      '(c', removed) ← removeFrom fuel' t c key;
      n' ← setChild n j c';
      Val (n', removed) in
    if keyAt node i key then
      if isLeaf node then
        ks ← vec_erase i (keys node);
        vs ← vec_erase i (values node);
        Val (mkNode ks vs (children node), true)
      else
        left ← at_ (children node) i;
        right ← at_ (children node) (i + 1);
        if bool_decide (t ≤ length (keys left)) then
          '(left', (k, v)) ← takeMax fuel' t left;
          node1 ← setChild node i left';
          node2 ← setEntry node1 i k v;
          Val (node2, true)
        else if bool_decide (t ≤ length (keys right)) then
          '(right', (k, v)) ← takeMin fuel' t right;
          node1 ← setChild node (i + 1) right';
          node2 ← setEntry node1 i k v;
          Val (node2, true)
        else
          node1 ← mergeChildren node i;
          descend node1 i
    else if isLeaf node then Val (node, false)
    else
      child ← at_ (children node) i;
      if bool_decide (length (keys child) < t) then
        node1 ← fillChild t node i;
        let i1 := lowerBound node1 key in
        if keyAt node1 i1 key then removeFrom fuel' t node1 key
        else descend node1 i1
      else descend node i
  end.

Definition remove (b : BTree) (key : K) : result (BTree * bool) :=
  match root_ b with
  | None => Val (b, false)
  | Some root =>
    '(root1, removed) ← removeFrom (depth root) (t_ b) root key;
    root2 ← (if bool_decide (keys root1 = [])
             then if isLeaf root1 then Val None
                  else c ← at_ (children root1) 0; Val (Some c)
             else Val (Some root1));
    Val (mkBTree root2 (t_ b) (if removed : bool then size_ b - 1 else size_ b), removed)
  end.

(** ** Traversals

    The visitor [f] may throw, like the lambdas the tables pass. *)
Section visit.
Context {A : Type} (f : A → K * V → result A).

(** The loop of [inOrder] from index [i] on, [n] iterations left. *)
Fixpoint inOrderLoop (visit : Node → A → result A) (node : Node) (n i : nat) (s : A)
    : result A :=
  match n with
  | 0 => Val s
  | S n' =>
    s1 ← (if isLeaf node then Val s
          else child ← at_ (children node) i; visit child s);
    k ← at_ (keys node) i;
    v ← at_ (values node) i;
    s2 ← f s1 (k, v);
    inOrderLoop visit node n' (i + 1) s2
  end.

Fixpoint inOrder (fuel : nat) (node : Node) (s : A) : result A :=
  match fuel with
  | 0 => Undef
  | S fuel' =>
    s1 ← inOrderLoop (inOrder fuel') node (length (keys node)) 0 s;
    if isLeaf node then Val s1
    else child ← deref (last (children node)); inOrder fuel' child s1
  end.

Definition forEachInOrder (b : BTree) (s : A) : result A :=
  match root_ b with
  | None => Val s
  | Some root => inOrder (depth root) root s
  end.

(** The loop of [rangeVisit] from index [i] on, [n] values of [i] left. *)
Fixpoint rangeLoop (visit : Node → A → result A) (node : Node) (hi : K) (n i : nat)
    (s : A) : result A :=
  match n with
  | 0 => Val s
  | S n' =>
    s1 ← (if isLeaf node then Val s
          else child ← at_ (children node) i; visit child s);
    if bool_decide (i = length (keys node)) then Val s1
    else
      k ← at_ (keys node) i;
      if kltb hi k then Val s1
      else
        v ← at_ (values node) i;
        s2 ← f s1 (k, v);
        rangeLoop visit node hi n' (i + 1) s2
  end.

Fixpoint rangeVisit (fuel : nat) (node : Node) (lo hi : K) (s : A) : result A :=
  match fuel with
  | 0 => Undef
  | S fuel' =>
    let i := lowerBound node lo in
    rangeLoop (λ c, rangeVisit fuel' c lo hi) node hi (length (keys node) + 1 - i) i s
  end.

Definition forEachRange (b : BTree) (lo hi : K) (s : A) : result A :=
  match root_ b with
  | None => Val s
  | Some root => rangeVisit (depth root) root lo hi s
  end.
End visit.

(** ** Size, height and the invariant check *)
Definition size (b : BTree) : nat := size_ b.
Definition empty (b : BTree) : bool := bool_decide (size_ b = 0).

Fixpoint heightNode (fuel : nat) (node : Node) : result nat :=
  match fuel with
  | 0 => Undef
  | S fuel' =>
    if isLeaf node then Val 1
    else child ← at_ (children node) 0; h ← heightNode fuel' child; Val (h + 1)
  end.

Definition height (b : BTree) : result nat :=
  match root_ b with
  | None => Val 0
  | Some root => heightNode (depth root) root
  end.

(** A limit that a null pointer leaves open. *)
Definition aboveLimit (lo : option K) (k : K) : bool :=
  match lo with Some l => kltb l k | None => true end.
Definition belowLimit (hi : option K) (k : K) : bool :=
  match hi with Some h => kltb k h | None => true end.

(** The loop over the keys in [checkNode]; [prev] is the key before. *)
Fixpoint checkKeys (prev lo hi : option K) (ks : list K) : bool :=
  match ks with
  | [] => true
  | k :: ks' => aboveLimit prev k && aboveLimit lo k && belowLimit hi k
                && checkKeys (Some k) lo hi ks'
  end.

(** The check does not take for granted that the pointers in [children] are set:
    it runs on nodes as they are in memory, where a child may be null. *)
#[warnings="-register-all"]
Inductive RawNode := mkRaw {
  rawKeys : list K;
  rawValues : list V;
  rawChildren : list (option RawNode);
}.

Record RawTree := mkRawTree {
  rawRoot_ : option RawNode;
  rawT_ : nat;
  rawSize_ : nat;
}.

(** A tree in which every child is set, seen as nodes in memory. *)
Fixpoint rawOf (n : Node) : RawNode :=
  mkRaw (keys n) (values n) (map (λ c, Some (rawOf c)) (children n)).

Definition rawTree (b : BTree) : RawTree := mkRawTree (rawOf <$> root_ b) (t_ b) (size_ b).

Fixpoint rawDepth (n : RawNode) : nat :=
  S (foldr Nat.max 0 (map (λ o, match o with Some c => rawDepth c | None => 0 end) (rawChildren n))).

Definition rawLeaf (n : RawNode) : bool :=
  match rawChildren n with [] => true | _ => false end.

(** [depth + 1] for the [int] [depth]. *)
Definition nextDepth (dep : nat) : result nat :=
  if bool_decide (Z.of_nat dep < INT_MAX)%Z then Val (dep + 1) else Undef.

(** [checkNode] returns the verdict with the two reference parameters
    [leafDepth] ([None] for -1) and [counted]. *)
Definition checkState : Type := option nat * nat.

Fixpoint checkChildren (check : RawNode → option K → option K → checkState →
      result (bool * checkState))
    (node : RawNode) (lo hi : option K) (m i : nat) (st : checkState)
    : result (bool * checkState) :=
  match m with
  | 0 => Val (true, st)
  | S m' =>
    childLower ← (if bool_decide (i = 0) then Val lo
                  else k ← at_ (rawKeys node) (i - 1); Val (Some k));
    childUpper ← (if bool_decide (i = length (rawKeys node)) then Val hi
                  else k ← at_ (rawKeys node) i; Val (Some k));
    child ← at_ (rawChildren node) i;
    match child with
    | None => Val (false, st)
    | Some c =>
      '(ok, st1) ← check c childLower childUpper st;
      if ok : bool then checkChildren check node lo hi m' (i + 1) st1
      else Val (false, st1)
    end
  end.

Fixpoint checkNode (fuel : nat) (t : nat) (node : RawNode) (dep : nat) (isRoot : bool)
    (lo hi : option K) (st : checkState) : result (bool * checkState) :=
  match fuel with
  | 0 => Undef
  | S fuel' =>
    let n := length (rawKeys node) in
    if negb (bool_decide (length (rawValues node) = n)) then Val (false, st)
    else if negb isRoot && bool_decide (n < t - 1) then Val (false, st)
    else
      most ← maxKeys t;
      if bool_decide (most < n) then Val (false, st)
      else if isRoot && bool_decide (n = 0) then Val (false, st)
      else if negb (checkKeys None lo hi (rawKeys node)) then Val (false, st)
      else
        let '(leafDepth, counted) := st in
        let counted1 := counted + n in
        if rawLeaf node then
          let leafDepth1 := match leafDepth with None => dep | Some d => d end in
          Val (bool_decide (leafDepth1 = dep), (Some leafDepth1, counted1))
        else if negb (bool_decide (length (rawChildren node) = n + 1))
        then Val (false, (leafDepth, counted1))
        else checkChildren (λ c lo' hi' st',
                 dep1 ← nextDepth dep; checkNode fuel' t c dep1 false lo' hi' st')
               node lo hi (n + 1) 0 (leafDepth, counted1)
  end.

Definition checkInvariants (b : RawTree) : result bool :=
  match rawRoot_ b with
  | None => Val (bool_decide (rawSize_ b = 0))
  | Some root =>
    '(ok, (_, counted)) ← checkNode (rawDepth root) (rawT_ b) root 0 true None None (None, 0);
    Val (ok && bool_decide (counted = rawSize_ b))
  end.
End BTree.

Arguments Node : clear implicits.
Arguments BTree : clear implicits.
Arguments RawNode : clear implicits.
Arguments RawTree : clear implicits.
