(* ===== verification/BTreeShape.v ===== *)
(** * B-tree: abstraction and shape

    [elems n] is the abstract value of a sub-tree, its entries in key order.
    [shape t h n] is the structural invariant of a sub-tree of height [h]: parallel
    vectors, at most [2t-1] keys, one more child than keys, every child with at
    least [t-1] keys, all leaves at depth [h].  The lemmas here cut a node at an
    index the way the operations do. *)

From S2P Require Import Prelude AssocList BTree.

(** ** The bound of a node in [int] arithmetic *)
Definition degree_fits (t : nat) : Prop := (2 * Z.of_nat t ≤ INT_MAX)%Z.

Lemma maxKeys_fits t : degree_fits t → maxKeys t = Val (2 * t - 1).
Proof. intros Hf. unfold maxKeys. by rewrite bool_decide_eq_true_2. Qed.

Lemma maxKeys_overflow t : ¬ degree_fits t → maxKeys t = Undef.
Proof. intros Hf. unfold maxKeys. by rewrite bool_decide_eq_false_2. Qed.

Section Shape.
Context {K V : Type} `{KeyLaws K}.
Implicit Types (n c : Node K V) (k key : K) (es : list (K * V)).

Definition entries n : list (K * V) := zip (keys n) (values n).

(** Entries with the sub-trees to their right, and to their left. *)
Fixpoint elems n : list (K * V) :=
  match n with
  | mkNode ks vs cs =>
    match cs with
    | [] => zip ks vs
    | c :: cs' =>
      elems c ++
      (fix go (es : list (K * V)) (cs : list (Node K V)) {struct cs}
           : list (K * V) :=
         match es, cs with
         | e :: es', c' :: cs' => e :: elems c' ++ go es' cs'
         | _, _ => []
         end) (zip ks vs) cs'
    end
  end.

Fixpoint suf es (cs : list (Node K V)) : list (K * V) :=
  match es, cs with
  | e :: es', c :: cs' => e :: elems c ++ suf es' cs'
  | _, _ => []
  end.

Fixpoint pre (cs : list (Node K V)) es : list (K * V) :=
  match cs, es with
  | c :: cs', e :: es' => elems c ++ e :: pre cs' es'
  | _, _ => []
  end.

Fixpoint shape (t h : nat) n : Prop :=
  length (values n) = length (keys n) ∧
  length (keys n) ≤ 2 * t - 1 ∧
  match h with
  | 0 => children n = []
  | S h' =>
    length (children n) = S (length (keys n)) ∧
    Forall (λ c, t - 1 ≤ length (keys c) ∧ shape t h' c) (children n)
  end.

(** A sub-tree as a child must be. *)
Definition ok (t h : nat) n : Prop := t - 1 ≤ length (keys n) ∧ shape t h n.

(** The invariant of a whole tree. *)
Definition inv_root (t : nat) (r : option (Node K V)) (l : list (K * V)) : Prop :=
  match r with
  | None => l = []
  | Some n => 1 ≤ length (keys n) ∧ l = elems n ∧ ∃ h, shape t h n
  end.

Definition represents (b : BTree K V) (l : list (K * V)) : Prop :=
  2 ≤ t_ b ∧ ksorted l ∧ size_ b = length l ∧ inv_root (t_ b) (root_ b) l.

(** ** Abstraction of a cut node *)
Lemma elems_leaf ks vs : elems (mkNode ks vs []) = zip ks vs.
Proof. done. Qed.

Lemma elems_cons ks vs c cs : elems (mkNode ks vs (c :: cs)) = elems c ++ suf (zip ks vs) cs.
Proof.
  simpl. f_equal. generalize (zip ks vs). induction cs as [|c' cs IH]; intros [|e es]; try done.
  simpl. f_equal. f_equal. apply IH.
Qed.

Lemma suf_app es1 es2 cs1 cs2 :
  length es1 = length cs1 → suf (es1 ++ es2) (cs1 ++ cs2) = suf es1 cs1 ++ suf es2 cs2.
Proof.
  revert cs1. induction es1 as [|e es1 IH]; intros [|c cs1] Hl; try done.
  simpl in *. rewrite IH by lia. by rewrite (assoc_L (++)).
Qed.

Lemma pre_app es1 es2 cs1 cs2 :
  length es1 = length cs1 → pre (cs1 ++ cs2) (es1 ++ es2) = pre cs1 es1 ++ pre cs2 es2.
Proof.
  revert cs1. induction es1 as [|e es1 IH]; intros [|c cs1] Hl; try done.
  simpl in *. rewrite IH by lia. by rewrite <- (assoc_L (++)).
Qed.

(** Shifting the cut: the same entries read from the left or from the right. *)
Lemma suf_pre es c cs c' cr er :
  length es = S (length cs) →
  elems c ++ suf (es ++ er) (cs ++ c' :: cr) =
  pre (c :: cs) es ++ elems c' ++ suf er cr.
Proof.
  revert es c. induction cs as [|c1 cs IH]; intros [|e es] c Hl; try done.
  - destruct es; [|done]. simpl. by rewrite <- (assoc_L (++)).
  - simpl in *. rewrite IH by lia. simpl. by rewrite <- (assoc_L (++)).
Qed.

Lemma zip_app_len (kl kr : list K) (vl vr : list V) :
  length kl = length vl → zip (kl ++ kr) (vl ++ vr) = zip kl vl ++ zip kr vr.
Proof. intros Hl. by apply zip_with_app. Qed.

Lemma length_zip_eq (kl : list K) (vl : list V) :
  length kl = length vl → length (zip kl vl) = length kl.
Proof. intros Hl. rewrite length_zip_with. lia. Qed.

Lemma elems_cut kl kr vl vr cl c cr :
  length kl = length cl → length vl = length cl →
  elems (mkNode (kl ++ kr) (vl ++ vr) (cl ++ c :: cr)) =
  pre cl (zip kl vl) ++ elems c ++ suf (zip kr vr) cr.
Proof.
  intros Hk Hv. destruct cl as [|c0 cl].
  - destruct kl, vl; try done. simpl. apply elems_cons.
  - simpl app. rewrite elems_cons, zip_app_len by lia.
    apply suf_pre. rewrite length_zip_eq by lia. done.
Qed.

Lemma pre_snoc cl c es k v :
  length es = length cl →
  pre (cl ++ [c]) (es ++ [(k, v)]) = pre cl es ++ elems c ++ [(k, v)].
Proof. intros Hl. by rewrite pre_app. Qed.

(** ** Shape of a cut node *)
Lemma shape_leaf_inv t n : shape t 0 n → children n = [] ∧ isLeaf n = true.
Proof. intros (_ & _ & Hc). unfold isLeaf. by rewrite Hc. Qed.

Lemma shape_S_nonleaf t h n : shape t (S h) n → isLeaf n = false.
Proof.
  intros (_ & _ & Hc & _). unfold isLeaf. by destruct (children n).
Qed.

Lemma shape_lengths t h n :
  shape t h n → length (values n) = length (keys n) ∧ length (keys n) ≤ 2 * t - 1.
Proof. destruct h; simpl; tauto. Qed.

(** A shaped internal node, cut at a child index. *)
Lemma shape_cut t h n i :
  shape t (S h) n → i ≤ length (keys n) →
  ∃ kl kr vl vr cl c cr,
    n = mkNode (kl ++ kr) (vl ++ vr) (cl ++ c :: cr) ∧
    length cl = i ∧ length kl = i ∧ length vl = i ∧
    length kr = length cr ∧ length vr = length cr ∧
    Forall (ok t h) cl ∧ ok t h c ∧ Forall (ok t h) cr ∧
    length kl + length kr ≤ 2 * t - 1.
Proof.
  intros (Hv & Hm & Hc & Hf) Hi. destruct n as [ks vs cs]. simpl in *.
  destruct (split_at_le ks i) as (kl & kr & -> & Hkl); [done|].
  destruct (split_at_le vs i) as (vl & vr & -> & Hvl); [lia|].
  destruct (split_at_lt cs i) as (cl & c & cr & -> & Hcl); [lia|].
  rewrite !length_app in *. simpl in *.
  apply Forall_app in Hf as [Hf1 Hf2]. apply Forall_cons in Hf2 as [Hf2 Hf3].
  exists kl, kr, vl, vr, cl, c, cr. split_and!; try done; lia.
Qed.

Lemma shape_glue t h kl kr vl vr cl c cr :
  length kl = length cl → length vl = length cl →
  length kr = length cr → length vr = length cr →
  Forall (ok t h) cl → ok t h c → Forall (ok t h) cr →
  length kl + length kr ≤ 2 * t - 1 →
  shape t (S h) (mkNode (kl ++ kr) (vl ++ vr) (cl ++ c :: cr)).
Proof.
  intros. simpl. rewrite !length_app. simpl. split_and!; try lia.
  apply Forall_app. split; [done|]. by apply Forall_cons.
Qed.

Lemma depth_shape t h n : shape t h n → depth n = S h.
Proof.
  revert n. induction h as [|h IH]; intros [ks vs cs] Hs.
  - apply shape_leaf_inv in Hs as [Hc _]. simpl in Hc. by subst.
  - destruct Hs as (_ & _ & Hc & Hf). simpl in *. f_equal.
    destruct cs as [|c cs]; [done|]. clear Hc. simpl.
    apply Forall_cons in Hf as [[_ Hc] Hf]. rewrite (IH _ Hc).
    enough (foldr Nat.max 0 (map depth cs) ≤ S h) by lia.
    induction Hf as [|c' cs [_ Hc'] Hf IH']; simpl; [lia|]. rewrite (IH _ Hc'). lia.
Qed.

(** ** Where a key lies *)
Lemma lower_bound_cut (ks : list K) key :
  ∃ kl kr, ks = kl ++ kr ∧ length kl = lower_bound ks key ∧
    Forall (λ k, k ≺ key) kl ∧
    match kr with [] => True | k :: _ => kltb k key = false end.
Proof.
  induction ks as [|k ks IH]; simpl; [by exists [], []|].
  destruct (kltb k key) eqn:E.
  - destruct IH as (kl & kr & -> & Hl & Hf & Hh).
    exists (k :: kl), kr. simpl. split_and!; [done|lia|by constructor|done].
  - exists [], (k :: ks). by rewrite E.
Qed.

Lemma lower_bound_le (ks : list K) key : lower_bound ks key ≤ length ks.
Proof.
  destruct (lower_bound_cut ks key) as (kl & kr & Hks & Hl & _).
  rewrite <- Hl. rewrite Hks at 1. rewrite length_app. lia.
Qed.

Lemma zip_keys_below kl (vl : list V) key :
  Forall (λ k, k ≺ key) kl → below key (zip kl vl).
Proof.
  intros Hf. revert vl. induction Hf as [|k kl Hk Hf IH]; intros [|v vl]; try constructor; try done.
  apply IH.
Qed.

Lemma below_pre cl es r key :
  length cl = length es → ksorted (pre cl es ++ r) → below key es → below key (pre cl es).
Proof.
  revert es. induction cl as [|c cl IH]; intros [|e es] Hl Hs Hb; try done.
  simpl in *. apply Forall_cons in Hb as [He Hb].
  rewrite <- (assoc_L (++)) in Hs. simpl in Hs.
  apply ksorted_mid in Hs as (Hbe & _ & _ & Hs).
  apply below_app. split; [by eapply below_trans|].
  constructor; [done|]. apply (IH es); [lia|done|done].
Qed.

Lemma above_suf es cs key :
  ksorted (suf es cs) → (∀ e, head es = Some e → key ≺ e.1) → above key (suf es cs).
Proof.
  destruct es as [|e es]; [constructor|]. destruct cs as [|c cs]; [constructor|].
  simpl. intros Hs He. specialize (He e eq_refl).
  apply ksorted_cons in Hs as [Ha _].
  constructor; [done|]. by eapply above_trans.
Qed.

(** The cut of a leaf and of an internal node at the descent index of a key:
    either the key is found at the cut, or everything left of the cut is below
    it and everything right of it above. *)
Lemma leaf_view t n key :
  shape t 0 n → ksorted (elems n) →
  ∃ kl kr vl vr,
    n = mkNode (kl ++ kr) (vl ++ vr) [] ∧
    length kl = lowerBound n key ∧ length vl = length kl ∧ length vr = length kr ∧
    below key (zip kl vl) ∧
    ((∃ kr' v vr', kr = key :: kr' ∧ vr = v :: vr' ∧ above key (zip kr' vr') ∧
        keyAt n (lowerBound n key) key = true) ∨
     (above key (zip kr vr) ∧ keyAt n (lowerBound n key) key = false)).
Proof.
  intros (Hv & _ & Hc) Hs. destruct n as [ks vs cs]. simpl in *. subst cs.
  unfold lowerBound, keyAt. simpl.
  destruct (lower_bound_cut ks key) as (kl & kr & Hks & Hl & Hf & Hh).
  rewrite <- Hl. subst ks. rewrite length_app in Hv.
  destruct (split_at_le vs (length kl)) as (vl & vr & -> & Hvl); [lia|].
  rewrite length_app in Hv. rewrite zip_app_len in Hs by done.
  exists kl, kr, vl, vr. split_and!; try lia; [done | by apply zip_keys_below |].
  destruct kr as [|k kr].
  { right. destruct vr; [|simpl in *; lia]. split; [constructor|].
    rewrite lookup_ge_None_2; [done|]. rewrite length_app. simpl. lia. }
  destruct vr as [|v vr]; [simpl in *; lia|].
  rewrite list_lookup_middle by done. simpl in Hs.
  apply ksorted_mid in Hs as (_ & Ha & _ & _).
  destruct (keqb k key) eqn:E.
  - left. apply keqb_eq in E. subst. by exists kr, v, vr.
  - right. split; [|done]. pose proof (nlt_neq_gt _ _ Hh E) as Hlt.
    constructor; [done|]. by eapply above_trans.
Qed.

Lemma node_view t h n key :
  shape t (S h) n → ksorted (elems n) →
  ∃ kl kr vl vr cl c cr,
    n = mkNode (kl ++ kr) (vl ++ vr) (cl ++ c :: cr) ∧
    length cl = lowerBound n key ∧ length kl = length cl ∧ length vl = length cl ∧
    length kr = length cr ∧ length vr = length cr ∧
    Forall (ok t h) cl ∧ ok t h c ∧ Forall (ok t h) cr ∧
    length kl + length kr ≤ 2 * t - 1 ∧
    below key (pre cl (zip kl vl)) ∧
    ((∃ kr' v vr' c' cr', kr = key :: kr' ∧ vr = v :: vr' ∧ cr = c' :: cr' ∧
        below key (elems c) ∧ above key (elems c' ++ suf (zip kr' vr') cr') ∧
        keyAt n (lowerBound n key) key = true) ∨
     (above key (suf (zip kr vr) cr) ∧ keyAt n (lowerBound n key) key = false)).
Proof.
  intros Hsh Hs.
  destruct (shape_cut t h n (lowerBound n key)) as
    (kl & kr & vl & vr & cl & c & cr & -> & Hcl & Hkl & Hvl & Hkr & Hvr & Hf1 & Hc & Hf2 & Hm);
    [done | apply lower_bound_le |].
  rewrite elems_cut in Hs by lia. unfold lowerBound, keyAt in *. simpl in *.
  destruct (lower_bound_cut (kl ++ kr) key) as (kl' & kr' & Heq & Hl & Hf & Hh).
  rewrite <- Hl in *. apply app_inj_1 in Heq as [<- <-]; [|lia].
  exists kl, kr, vl, vr, cl, c, cr. split_and!; try done; try lia.
  { eapply below_pre; [rewrite length_zip_eq; lia | exact Hs | by apply zip_keys_below]. }
  apply ksorted_app in Hs as (_ & _ & Hs). apply ksorted_app in Hs as (Hx & Hsc & Hss).
  destruct kr as [|k kr].
  { right. split; [constructor|].
    rewrite lookup_ge_None_2; [done|]. rewrite length_app. simpl. lia. }
  destruct vr as [|v vr]; [simpl in *; lia|].
  destruct cr as [|c' cr]; [simpl in *; lia|].
  rewrite list_lookup_middle by done. simpl in Hss, Hx.
  destruct (keqb k key) eqn:E.
  - left. apply keqb_eq in E. subst. exists kr, v, vr, c', cr. split_and!; try done.
    + apply Forall_forall. intros e He. apply (Hx e (key, v)); [done | by left].
    + by apply ksorted_cons in Hss as [? _].
  - right. split; [|done]. apply above_suf; [done|].
    intros e [= <-]. by apply nlt_neq_gt.
Qed.
End Shape.

#[global] Arguments elems : simpl never.

#[export] Hint Resolve zip_keys_below below_pre above_suf : cppdb.
