(* ===== verification/BTreeInsert.v ===== *)
(** * B-tree: insertion

    [splitChild] keeps the entries and the shape; [insertNonFull] and [insert]
    implement [al_insert] on the abstract list. *)

From S2P Require Import Prelude AssocList BTree BTreeShape.

Section Insert.
Context {K V : Type} `{KeyLaws K}.
Implicit Types (n c : Node K V) (k key : K).

(** Cutting a full node in its middle. *)
Lemma full_cut t h c :
  1 ≤ t → shape t h c → length (keys c) = 2 * t - 1 →
  ∃ lk m rk lv mv rv lc rc,
    c = mkNode (lk ++ m :: rk) (lv ++ mv :: rv) (lc ++ rc) ∧
    length lk = t - 1 ∧ length lv = t - 1 ∧ length rk = t - 1 ∧ length rv = t - 1 ∧
    ok t h (mkNode lk lv lc) ∧ ok t h (mkNode rk rv rc) ∧
    (isLeaf c = true ∧ lc = [] ∧ rc = [] ∨ isLeaf c = false ∧ length lc = t) ∧
    elems c = elems (mkNode lk lv lc) ++ (m, mv) :: elems (mkNode rk rv rc).
Proof.
  intros Ht Hs Hk. destruct (shape_lengths _ _ _ Hs) as [Hv _].
  destruct c as [ks vs cs]. simpl in Hk, Hv.
  destruct (split_at_lt ks (t - 1)) as (lk & m & rk & -> & Hlk); [lia|].
  destruct (split_at_lt vs (t - 1)) as (lv & mv & rv & -> & Hlv); [lia|].
  rewrite !length_app in *. simpl in Hk, Hv. destruct h as [|h].
  - apply shape_leaf_inv in Hs as [Hc Hl]. simpl in Hc. subst cs.
    exists lk, m, rk, lv, mv, rv, [], [].
    unfold ok, isLeaf. simpl. split_and!; try done; try lia; [by left|].
    rewrite !elems_leaf, zip_app_len by lia. done.
  - pose proof (shape_S_nonleaf _ _ _ Hs) as Hl.
    destruct Hs as (_ & _ & Hc & Hf). simpl in Hc, Hf. rewrite length_app in Hc. simpl in Hc.
    destruct (split_at_lt cs (t - 1)) as (lc & c1 & rc & -> & Hlc); [lia|].
    rewrite length_app in Hc. simpl in Hc. destruct rc as [|c2 rc]; [simpl in Hc; lia|].
    apply Forall_app in Hf as [Hf1 Hf2]. rewrite !Forall_cons in Hf2.
    destruct Hf2 as (Hf2 & Hf3 & Hf4). simpl in Hc.
    exists lk, m, rk, lv, mv, rv, (lc ++ [c1]), (c2 :: rc).
    split; [by rewrite <- (assoc_L (++))|]. split_and!; try lia.
    + split; [simpl; lia|]. rewrite <- (app_nil_r lk), <- (app_nil_r lv).
      apply shape_glue; simpl; try done; lia.
    + split; [simpl; lia|]. apply (shape_glue t h [] rk [] rv []); simpl; try done; lia.
    + right. split; [done|]. rewrite length_app. simpl. lia.
    + rewrite (elems_cut lk (m :: rk) lv (mv :: rv) lc c1 (c2 :: rc)) by lia.
      rewrite <- (app_nil_r lk) at 2. rewrite <- (app_nil_r lv) at 2.
      rewrite (elems_cut lk [] lv [] lc c1 []) by lia. rewrite elems_cons.
      simpl. rewrite app_nil_r. by rewrite <- (assoc_L (++)).
Qed.

(** Splitting the full child at the cut of a node. *)
Lemma splitChild_cut t h kl kr vl vr cl c cr :
  1 ≤ t → length kl = length cl → length vl = length cl →
  shape t h c → length (keys c) = 2 * t - 1 →
  ∃ m mv c1 c2,
    splitChild t (mkNode (kl ++ kr) (vl ++ vr) (cl ++ c :: cr)) (length cl) =
      Val (mkNode (kl ++ m :: kr) (vl ++ mv :: vr) (cl ++ c1 :: c2 :: cr)) ∧
    ok t h c1 ∧ ok t h c2 ∧
    length (keys c1) = t - 1 ∧ length (keys c2) = t - 1 ∧
    elems c = elems c1 ++ (m, mv) :: elems c2.
Proof.
  intros Ht Hkl Hvl Hs Hk.
  destruct (full_cut t h c) as
    (lk & m & rk & lv & mv & rv & lc & rc & -> & Hlk & Hlv & Hrk & Hrv & Ho1 & Ho2 & Hleaf & He);
    [done..|].
  exists m, mv, (mkNode lk lv lc), (mkNode rk rv rc). split_and!; try done.
  unfold splitChild. simpl keys. simpl values. simpl children.
  destruct Hleaf as [(Hl & -> & ->)|(Hl & Hlc)]; vec_run; rewrite Hl; by repeat (simpl; vec_run).
Qed.

(** What an insertion below [n] must establish, with the number of keys it may
    not go below. *)
Definition inserted_into t h key value n (r : result (Node K V * bool)) : Prop :=
  ∃ n', r = Val (n', bool_decide (al_lookup key (elems n) = None)) ∧
    shape t h n' ∧ elems n' = al_insert key value (elems n) ∧
    length (keys n) ≤ length (keys n').

(** Inserting into the child at the cut of the key's place. *)
Lemma insert_at_cut t h kl kr vl vr cl c cr key value (f : Node K V → result (Node K V * bool)) i :
  i = length cl → length kl = length cl → length vl = length cl →
  length kr = length cr → length vr = length cr →
  Forall (ok t h) cl → ok t h c → Forall (ok t h) cr → length kl + length kr ≤ 2 * t - 1 →
  below key (pre cl (zip kl vl)) → above key (suf (zip kr vr) cr) →
  inserted_into t h key value c (f c) →
  let n := mkNode (kl ++ kr) (vl ++ vr) (cl ++ c :: cr) in
  inserted_into t (S h) key value n
    (child1 ← at_ (children n) i;
     '(child2, inserted) ← f child1;
     node2 ← setChild n i child2;
     Val (node2, inserted)).
Proof.
  intros -> Hkl Hvl Hkr Hvr Hf1 [Hc1 Hc2] Hf2 Hm Hb Ha (c' & Hfc & Hs' & He' & Hl'). simpl.
  rewrite at_app by done. simpl. rewrite Hfc. simpl.
  unfold setChild. simpl. rewrite vec_set_app by done. simpl.
  unfold inserted_into. rewrite elems_cut by lia.
  rewrite al_lookup_app_below, al_lookup_app_above by done.
  rewrite al_insert_app_below, al_insert_app_above by done. rewrite <- He'.
  eexists. split_and!; [done | | by rewrite elems_cut by lia | done].
  apply shape_glue; try done. split; [lia|done].
Qed.

Lemma inserted_into_same t h key value n1 n2 r :
  elems n1 = elems n2 → length (keys n2) ≤ length (keys n1) →
  inserted_into t h key value n1 r → inserted_into t h key value n2 r.
Proof.
  intros He Hl (n' & Hr & Hs & He' & Hl'). exists n'. rewrite <- He.
  split_and!; try done. lia.
Qed.

(** Insertion into a leaf that has room. *)
Lemma insert_leaf t fuel n key value :
  shape t 0 n → length (keys n) < 2 * t - 1 → ksorted (elems n) →
  inserted_into t 0 key value n (insertNonFull (S fuel) t n key value).
Proof.
  intros Hs Hroom Hso. destruct (leaf_view t n key Hs Hso) as
    (kl & kr & vl & vr & -> & Hkl & Hvl & Hvr & Hb & [(kr' & v & vr' & -> & -> & Ha & Hat) | [Ha Hat]]);
    unfold inserted_into; cbn [insertNonFull]; rewrite Hat, elems_leaf, zip_app_len by done.
  - eexists. split_and!; [|done| |done].
    + simpl. by rewrite al_lookup_here.
    + rewrite elems_leaf, zip_app_len by done. simpl. by rewrite al_insert_here.
  - simpl. rewrite !vec_insert_app by lia. simpl.
    rewrite al_lookup_app_below, al_lookup_above by done. simpl in *.
    rewrite !length_app in *. simpl in *.
    eexists. split_and!; [done| | |done| |].
    + simpl. rewrite !length_app. simpl. lia.
    + simpl. rewrite length_app. simpl. lia.
    + rewrite elems_leaf, zip_app_len by done. simpl.
      by rewrite al_insert_app_below, al_insert_above.
    + simpl. rewrite length_app. simpl. lia.
Qed.

(** Insertion at a cut whose child is full: it is split, and the key is its median
    or goes to one of the halves. *)
Lemma insert_split t h kl kr vl vr cl c cr key value (f : Node K V → result (Node K V * bool)) :
  1 ≤ t → length kl = length cl → length vl = length cl → length kr = length cr → length vr = length cr →
  Forall (ok t h) cl → ok t h c → Forall (ok t h) cr → length kl + length kr < 2 * t - 1 →
  below key (pre cl (zip kl vl)) → above key (suf (zip kr vr) cr) →
  ksorted (pre cl (zip kl vl) ++ elems c ++ suf (zip kr vr) cr) → length (keys c) = 2 * t - 1 →
  (∀ c', shape t h c' → length (keys c') < 2 * t - 1 → ksorted (elems c') → inserted_into t h key value c' (f c')) →
  let n := mkNode (kl ++ kr) (vl ++ vr) (cl ++ c :: cr) in
  let i := length cl in
  inserted_into t (S h) key value n
    ('(node1, i1, dup) ←
       (node1 ← splitChild t n i;
        k ← at_ (keys node1) i;
        Val (node1, if kltb k key then i + 1 else i, keqb k key));
     if dup : bool then Val (node1, false)
     else
       child1 ← at_ (children node1) i1;
       '(child2, inserted) ← f child1;
       node2 ← setChild node1 i1 child2;
       Val (node2, inserted)).
Proof.
  intros Ht Hkl Hvl Hkr Hvr Hf1 Hc Hf2 Hroom Hb Ha Hso Hfull IH n i.
  destruct (splitChild_cut t h kl kr vl vr cl c cr) as
    (m & mv & c1 & c2 & Hsp & Ho1 & Ho2 & Hk1 & Hk2 & He); try done; [apply Hc|].
  subst n i. rewrite Hsp. cbn [mbind result_bind keys]. rewrite at_app by done.
  cbn [mbind result_bind]. rewrite He, <- (assoc_L (++)) in Hso.
  apply (inserted_into_same _ _ _ _ (mkNode (kl ++ m :: kr) (vl ++ mv :: vr) (cl ++ c1 :: c2 :: cr))).
  { rewrite !elems_cut by (simpl; lia). rewrite He. simpl. by rewrite <- (assoc_L (++)). }
  { simpl. rewrite !length_app. simpl. lia. }
  clear Hsp. apply ksorted_app in Hso as (_ & _ & Hso).
  apply ksorted_mid in Hso as (Hb1 & Ha2 & Hs1 & Hs2). simpl in Hb1, Ha2. apply above_app in Ha2 as [Ha2 Ha3].
  destruct (keqb m key) eqn:Em.
  { apply keqb_eq in Em. subst m. eexists. rewrite elems_cut by (simpl; lia).
    rewrite al_lookup_app_below, al_insert_app_below by done. simpl. rewrite al_lookup_here, al_insert_here by done.
    split; [done|]. split; [|by rewrite elems_cut by (simpl; lia)].
    apply shape_glue; simpl; try done; try lia. by apply Forall_cons. }
  destruct (kltb m key) eqn:El.
  - rewrite (cons_middle m), (cons_middle mv), (cons_middle c1), !(assoc_L (++)).
    assert (Hz : length (zip kl vl) = length cl) by (rewrite length_zip_eq; lia).
    apply insert_at_cut; rewrite ?length_app; simpl in *; try done; try lia.
    + apply Forall_app. split; [done|]. by constructor.
    + rewrite zip_app_len by lia. simpl. rewrite pre_snoc by done.
      rewrite !below_app. split_and!; [done|by eapply below_trans|by repeat constructor].
    + apply IH; [apply Ho2|lia|]. by apply ksorted_app in Hs2 as (_ & ? & _).
  - pose proof (nlt_neq_gt _ _ El Em) as Hgt. apply insert_at_cut; simpl in *; try done; try lia.
    + by apply Forall_cons.
    + constructor; [done|]. apply above_app. split; [by eapply above_trans|by apply (above_trans _ m)].
    + apply IH; [apply Ho1|lia|done].
Qed.

(** ** Fullness in [int] arithmetic *)
Lemma isFull_fits t n : degree_fits t → isFull t n = Val (bool_decide (length (keys n) = 2 * t - 1)).
Proof. intros Hf. unfold isFull. by rewrite maxKeys_fits. Qed.

(** Insertion below a node that has room. *)
Lemma insertNonFull_spec t h fuel n key value :
  1 ≤ t → degree_fits t → S h ≤ fuel →
  shape t h n → length (keys n) < 2 * t - 1 → ksorted (elems n) →
  inserted_into t h key value n (insertNonFull fuel t n key value).
Proof.
  intros Ht Hfit. revert h n. induction fuel as [|fuel IH]; intros h n Hf Hs Hroom Hso; [lia|].
  destruct h as [|h]; [by apply insert_leaf|]. pose proof (shape_S_nonleaf _ _ _ Hs) as Hl.
  destruct (node_view t h n key Hs Hso) as
    (kl & kr & vl & vr & cl & c & cr & -> & Hcl & Hkl & Hvl & Hkr & Hvr & Hf1 & Hc & Hf2 & Hm & Hb &
     [(kr' & v & vr' & c' & cr' & -> & -> & -> & Hbc & Ha & Hat) | [Ha Hat]]);
    cbn [insertNonFull]; rewrite Hat.
  - eexists. rewrite elems_cut by lia. split_and!; [|done| |done].
    + rewrite al_lookup_app_below by done. simpl. by rewrite al_lookup_here.
    + rewrite elems_cut by lia. rewrite al_insert_app_below by done. simpl. by rewrite al_insert_here.
  - rewrite Hl. rewrite elems_cut in Hso by lia. cbn [children keys] in *. rewrite length_app in Hroom.
    rewrite <- Hcl, at_app by done. cbn [mbind result_bind]. rewrite isFull_fits by done.
    cbn [mbind result_bind]. destruct (bool_decide_reflect (length (keys c) = 2 * t - 1)) as [Hfull|Hfull].
    + apply insert_split; try done. intros c' Hs' Hr' Hso'. apply IH; [lia|done..].
    + apply insert_at_cut; try done.
      destruct Hc as [Hc1 Hc2]. apply IH; [lia|done| |].
      * apply shape_lengths in Hc2. lia.
      * apply ksorted_app in Hso as (_ & _ & Hso). by apply ksorted_app in Hso as (_ & Hso & _).
Qed.

(** ** The public operation *)
Lemma insert_spec (b : BTree K V) l key value :
  represents b l → degree_fits (t_ b) →
  ∃ b' : BTree K V, BTree.insert b key value = Val (b', bool_decide (al_lookup key l = None)) ∧
    represents b' (al_insert key value l) ∧ t_ b' = t_ b.
Proof.
  intros (Ht & Hso & Hsz & Hr) Hfit. destruct b as [r t sz]. simpl in *. unfold BTree.insert. simpl.
  destruct r as [n|]; simpl in Hr.
  2: { subst l. eexists. split; [done|]. split; [|done].
       split; [done|]. split; [by apply (al_insert_ksorted key value [])|].
       split; [done|]. simpl. split; [lia|]. split; [done|].
       exists 0. simpl. split; [done|]. split; [lia|done]. }
  destruct Hr as (Hk & -> & h & Hs).
  rewrite isFull_fits by done. cbn [mbind result_bind].
  assert (∃ n1 h1, (if bool_decide (length (keys n) = 2 * t - 1) then splitChild t (mkNode [] [] [n]) 0 else Val n) = Val n1 ∧
            shape t h1 n1 ∧ length (keys n1) < 2 * t - 1 ∧ 1 ≤ length (keys n1) ∧
            elems n1 = elems n) as (n1 & h1 & -> & Hs1 & Hroom & Hk1 & He1).
  { destruct (bool_decide_reflect (length (keys n) = 2 * t - 1)) as [Hfull|Hfull].
    - destruct (splitChild_cut t h [] [] [] [] [] n []) as
        (m & mv & c1 & c2 & Hsp & Ho1 & Ho2 & Hk1 & Hk2 & He); try done; [lia|].
      exists (mkNode [m] [mv] [c1; c2]), (S h). split_and!; [done| |simpl; lia|simpl; lia|].
      + apply (shape_glue t h [] [m] [] [mv] [] c1 [c2]); simpl; try done; [|lia].
        by constructor.
      + rewrite elems_cons. simpl. by rewrite app_nil_r, He.
    - exists n, h. split_and!; try done.
      apply shape_lengths in Hs. lia. }
  simpl. rewrite (depth_shape t h1) by done. rewrite <- He1 in *.
  destruct (insertNonFull_spec t h1 (S h1) n1 key value) as (n2 & -> & Hs2 & He2 & Hl2);
    try done; [lia|].
  simpl. eexists. split; [done|]. split; [|done].
  split; [done|]. split; [by apply al_insert_ksorted|].
  split; [|simpl; split; [lia|by eauto]]. simpl.
  rewrite al_insert_length by done. rewrite Hsz.
  destruct (al_lookup key (elems n1)); [by rewrite bool_decide_eq_false_2|by rewrite bool_decide_eq_true_2].
Qed.
End Insert.
