(* ===== verification/BTreeRemove.v ===== *)
(** * B-tree: removal

    Borrowing and merging keep the entries and the shape, and widen the window of
    the child that is about to be entered until it holds at least [t] keys
    ([fillChild_widen]); [takeMax], [takeMin] and [removeFrom] then implement the
    removal of the last, the first and a given entry of the abstract list. *)

From S2P Require Import Prelude AssocList BTree BTreeShape.

Section Remove.
Context {K V : Type} `{KeyLaws K}.
Implicit Types (n a c d : Node K V) (k key : K) (v : V).

(** A good cut of an internal node: the parts of [shape_cut]. *)
Definition cut_ok (t h : nat) (kl kr : list K) (vl vr : list V)
    (cl : list (Node K V)) c (cr : list (Node K V)) : Prop :=
  length kl = length cl ∧ length vl = length cl ∧
  length kr = length cr ∧ length vr = length cr ∧
  Forall (ok t h) cl ∧ ok t h c ∧ Forall (ok t h) cr ∧
  length kl + length kr ≤ 2 * t - 1.

Lemma cut_shape t h kl kr vl vr cl c cr :
  cut_ok t h kl kr vl vr cl c cr →
  shape t (S h) (mkNode (kl ++ kr) (vl ++ vr) (cl ++ c :: cr)).
Proof. intros (?&?&?&?&?&?&?&?). by apply shape_glue. Qed.

Lemma cut_elems t h kl kr vl vr cl c cr :
  cut_ok t h kl kr vl vr cl c cr →
  elems (mkNode (kl ++ kr) (vl ++ vr) (cl ++ c :: cr)) =
  pre cl (zip kl vl) ++ elems c ++ suf (zip kr vr) cr.
Proof. intros (?&?&?&?&?&?&?&?). by apply elems_cut. Qed.

(** Replacing the child at the cut. *)
Lemma cut_replace t h kl kr vl vr cl c c' cr :
  cut_ok t h kl kr vl vr cl c cr → ok t h c' → cut_ok t h kl kr vl vr cl c' cr.
Proof. unfold cut_ok. tauto. Qed.

(** ** Borrowing from a sibling *)
Lemma borrow_prev_nodes t h a c k v :
  1 ≤ t → ok t h a → ok t h c → t ≤ length (keys a) → length (keys c) < t →
  ∃ aks ak avs av acs' ccs' x,
    keys a = aks ++ [ak] ∧ values a = avs ++ [av] ∧
    (if isLeaf a then Val (children a, children c)
     else '(lc, lcs) ← vec_pop_back (children a); Val (lcs, lc :: children c)) =
      Val (acs', ccs') ∧
    ok t h (mkNode aks avs acs') ∧
    ok t h (mkNode (k :: keys c) (v :: values c) ccs') ∧
    elems a ++ [(k, v)] = elems (mkNode aks avs acs') ++ (ak, av) :: x ∧
    elems (mkNode (k :: keys c) (v :: values c) ccs') = x ++ elems c.
Proof.
  intros Ht [_ Ha] [Hck Hc] Hta Htc.
  destruct (shape_lengths _ _ _ Ha) as [Hav Ham]. destruct (shape_lengths _ _ _ Hc) as [Hcv Hcm].
  destruct a as [aks avs acs], c as [cks cvs ccs]. simpl in *.
  destruct (snoc_inv aks) as (aks' & ak & ->); [lia|].
  destruct (snoc_inv avs) as (avs' & av & ->); [lia|].
  rewrite !length_app in *. simpl in *.
  destruct h as [|h].
  - destruct Ha as (_ & _ & Hac), Hc as (_ & _ & Hcc). simpl in Hac, Hcc. subst.
    exists aks', ak, avs', av, [], [], [(k, v)]. unfold ok, isLeaf. simpl.
    rewrite !elems_leaf, zip_app_len by lia. simpl. rewrite <- (assoc_L (++)). split_and!; try done; lia.
  - pose proof (shape_S_nonleaf _ _ _ Ha) as ->.
    destruct Ha as (_ & _ & Hac & Hfa), Hc as (_ & _ & Hcc & Hfc). simpl in *.
    rewrite length_app in Hac. simpl in Hac.
    destruct (snoc_inv acs) as (acs1 & a2 & ->); [lia|]. rewrite length_app in Hac. simpl in Hac.
    destruct (snoc_inv acs1) as (acs' & a1 & ->); [lia|]. rewrite length_app in Hac. simpl in Hac.
    rewrite vec_pop_back_snoc. simpl. rewrite !Forall_app, !Forall_singleton in Hfa.
    destruct Hfa as ((Hfa & Ha1) & Ha2). destruct ccs as [|c0 ccs]; [done|].
    exists aks', ak, avs', av, (acs' ++ [a1]), (a2 :: c0 :: ccs), (elems a2 ++ [(k, v)]).
    split_and!; try done.
    + split; [simpl; lia|]. rewrite <- (app_nil_r aks'), <- (app_nil_r avs').
      apply shape_glue; simpl; try done; lia.
    + split; [simpl; lia|]. apply (shape_glue t h [] (k :: cks) [] (v :: cvs) []); simpl in *; try done; lia.
    + rewrite <- (assoc_L (++) acs' [a1] [a2]). simpl app.
      rewrite (elems_cut aks' [ak] avs' [av] acs' a1 [a2]) by lia.
      rewrite <- (app_nil_r aks') at 2. rewrite <- (app_nil_r avs') at 2.
      rewrite (elems_cut aks' [] avs' [] acs' a1 []) by lia. simpl.
      by rewrite !app_nil_r, <- !(assoc_L (++)).
    + rewrite !elems_cons. simpl. by rewrite <- (assoc_L (++)).
Qed.

Lemma borrow_next_nodes t h c d k v :
  1 ≤ t → ok t h c → ok t h d → t ≤ length (keys d) → length (keys c) < t →
  ∃ dk dks dv dvs dcs' ccs' x,
    keys d = dk :: dks ∧ values d = dv :: dvs ∧
    (if isLeaf d then Val (children d, children c)
     else '(rc, rcs) ← vec_pop_front (children d); Val (rcs, children c ++ [rc])) =
      Val (dcs', ccs') ∧
    ok t h (mkNode dks dvs dcs') ∧
    ok t h (mkNode (keys c ++ [k]) (values c ++ [v]) ccs') ∧
    (k, v) :: elems d = x ++ (dk, dv) :: elems (mkNode dks dvs dcs') ∧
    elems (mkNode (keys c ++ [k]) (values c ++ [v]) ccs') = elems c ++ x.
Proof.
  intros Ht [Hck Hc] [_ Hd] Htd Htc.
  destruct (shape_lengths _ _ _ Hd) as [Hdv Hdm]. destruct (shape_lengths _ _ _ Hc) as [Hcv Hcm].
  destruct d as [[|dk dks] [|dv dvs] dcs], c as [cks cvs ccs]; simpl in *; try lia.
  destruct h as [|h].
  - destruct Hd as (_ & _ & Hdc), Hc as (_ & _ & Hcc). simpl in Hdc, Hcc. subst.
    exists dk, dks, dv, dvs, [], [], [(k, v)]. unfold ok, isLeaf. simpl.
    rewrite !elems_leaf, zip_app_len, !length_app by lia. simpl. split_and!; try done; lia.
  - pose proof (shape_S_nonleaf _ _ _ Hd) as ->.
    destruct Hd as (_ & _ & Hdc & Hfd), Hc as (_ & _ & Hcc & Hfc). simpl in *.
    destruct dcs as [|d1 [|d2 dcs]]; simpl in Hdc; try lia. simpl.
    apply Forall_cons in Hfd as [Hd1 Hfd].
    destruct (snoc_inv ccs) as (ccs' & c1 & ->); [lia|]. rewrite length_app in Hcc. simpl in Hcc.
    apply Forall_app in Hfc as [Hfc Hc1]. rewrite Forall_singleton in Hc1.
    exists dk, dks, dv, dvs, (d2 :: dcs), ((ccs' ++ [c1]) ++ [d1]), ((k, v) :: elems d1).
    split_and!; try done.
    + split; [simpl; lia|]. apply Forall_cons in Hfd as [Hd2 Hfd].
      apply (shape_glue t h [] dks [] dvs []); simpl in *; try done; lia.
    + split; [simpl; rewrite length_app; simpl; lia|]. rewrite <- (assoc_L (++)). simpl app.
      apply shape_glue; simpl; try done; try lia; by constructor.
    + rewrite <- (assoc_L (++) ccs' [c1] [d1]). simpl app. rewrite elems_cut by lia.
      rewrite <- (app_nil_r cks) at 2. rewrite <- (app_nil_r cvs) at 2.
      rewrite elems_cut by lia. simpl. by rewrite !app_nil_r, <- !(assoc_L (++)).
Qed.

Lemma merge_nodes t h a c k v :
  ok t h a → ok t h c → length (keys a) + length (keys c) < 2 * t - 1 →
  let m := mkNode ((keys a ++ [k]) ++ keys c) ((values a ++ [v]) ++ values c)
             (if isLeaf c then children a else children a ++ children c) in
  ok t h m ∧ elems m = elems a ++ (k, v) :: elems c ∧
  length (keys m) = length (keys a) + 1 + length (keys c).
Proof.
  intros [Hak Ha] [Hck Hc] Hm.
  destruct (shape_lengths _ _ _ Ha) as [Hav Ham]. destruct (shape_lengths _ _ _ Hc) as [Hcv Hcm].
  destruct a as [aks avs acs], c as [cks cvs ccs]. cbn [keys values children] in *.
  rewrite <- !(assoc_L (++)). simpl app.
  enough (shape t h (mkNode (aks ++ k :: cks) (avs ++ v :: cvs)
             (if isLeaf (mkNode cks cvs ccs) then acs else acs ++ ccs)) ∧
          elems (mkNode (aks ++ k :: cks) (avs ++ v :: cvs)
             (if isLeaf (mkNode cks cvs ccs) then acs else acs ++ ccs)) =
          elems (mkNode aks avs acs) ++ (k, v) :: elems (mkNode cks cvs ccs)) as [Hs He].
  { unfold ok. cbn [keys]. rewrite !length_app. simpl length.
    split_and!; [lia|done|done|lia]. }
  destruct h as [|h].
  - destruct Ha as (_ & _ & Hac), Hc as (_ & _ & Hcc). simpl in Hac, Hcc. subst.
    simpl. rewrite !elems_leaf, zip_app_len, !length_app by lia. simpl. split_and!; try done; lia.
  - pose proof (shape_S_nonleaf _ _ _ Hc) as ->.
    destruct Ha as (_ & _ & Hac & Hfa), Hc as (_ & _ & Hcc & Hfc). simpl in Hac, Hcc, Hfa, Hfc.
    destruct (snoc_inv acs) as (acs' & a1 & ->); [lia|]. rewrite length_app in Hac. simpl in Hac.
    destruct ccs as [|c0 ccs]; [done|]. simpl in Hcc.
    apply Forall_app in Hfa as [Hfa Ha1]. rewrite Forall_singleton in Ha1.
    rewrite <- (assoc_L (++)). simpl app. split.
    + apply shape_glue; simpl; try done; lia.
    + rewrite elems_cut by lia. rewrite <- (app_nil_r aks) at 2. rewrite <- (app_nil_r avs) at 2.
      rewrite elems_cut, elems_cons by lia. simpl. by rewrite app_nil_r, <- (assoc_L (++)).
Qed.

(** The three operations on a node cut at the separator [(k, v)]. *)
Lemma borrowFromPrev_cut t h kl k kr vl v vr cl a c cr i :
  1 ≤ t → i = S (length cl) → length kl = length cl → length vl = length cl →
  ok t h a → ok t h c → t ≤ length (keys a) → length (keys c) < t →
  ∃ a' ak av c' x,
    borrowFromPrev (mkNode (kl ++ k :: kr) (vl ++ v :: vr) (cl ++ a :: c :: cr)) i =
      Val (mkNode (kl ++ ak :: kr) (vl ++ av :: vr) (cl ++ a' :: c' :: cr)) ∧
    ok t h a' ∧ ok t h c' ∧ length (keys c') = S (length (keys c)) ∧
    elems a ++ [(k, v)] = elems a' ++ (ak, av) :: x ∧ elems c' = x ++ elems c.
Proof.
  intros Ht -> Hkl Hvl Ha Hc Hta Htc.
  destruct (borrow_prev_nodes t h a c k v) as
    (aks & ak & avs & av & acs' & ccs' & x & Hak & Hav & Hch & Ho1 & Ho2 & He1 & He2); try done.
  exists (mkNode aks avs acs'), ak, av, (mkNode (k :: keys c) (v :: values c) ccs'), x.
  split_and!; try done.
  unfold borrowFromPrev. cbn [children keys values].
  vec_run. rewrite Hak, Hav. vec_run. rewrite Hch. cbn [mbind result_bind].
  unfold setEntry, setChild. cbn [children keys values]. by repeat (vec_run; simpl).
Qed.

Lemma borrowFromNext_cut t h kl k kr vl v vr cl c d cr i :
  1 ≤ t → i = length cl → length kl = length cl → length vl = length cl →
  ok t h c → ok t h d → t ≤ length (keys d) → length (keys c) < t →
  ∃ c' dk dv d' x,
    borrowFromNext (mkNode (kl ++ k :: kr) (vl ++ v :: vr) (cl ++ c :: d :: cr)) i =
      Val (mkNode (kl ++ dk :: kr) (vl ++ dv :: vr) (cl ++ c' :: d' :: cr)) ∧
    ok t h c' ∧ ok t h d' ∧ length (keys c') = S (length (keys c)) ∧
    (k, v) :: elems d = x ++ (dk, dv) :: elems d' ∧ elems c' = elems c ++ x.
Proof.
  intros Ht -> Hkl Hvl Hc Hd Htd Htc.
  destruct (borrow_next_nodes t h c d k v) as
    (dk & dks & dv & dvs & dcs' & ccs' & x & Hdk & Hdv & Hch & Ho1 & Ho2 & He1 & He2); try done.
  exists (mkNode (keys c ++ [k]) (values c ++ [v]) ccs'), dk, dv, (mkNode dks dvs dcs'), x.
  split_and!; try done; [|simpl; rewrite length_app; simpl; lia].
  unfold borrowFromNext. cbn [children keys values].
  vec_run. rewrite Hdk, Hdv. simpl. rewrite Hch. cbn [mbind result_bind].
  unfold setEntry, setChild. cbn [children keys values]. by repeat (vec_run; simpl).
Qed.

Lemma mergeChildren_cut t h kl k kr vl v vr cl a c cr i :
  i = length cl → length kl = length cl → length vl = length cl →
  ok t h a → ok t h c → length (keys a) + length (keys c) < 2 * t - 1 →
  ∃ m,
    mergeChildren (mkNode (kl ++ k :: kr) (vl ++ v :: vr) (cl ++ a :: c :: cr)) i =
      Val (mkNode (kl ++ kr) (vl ++ vr) (cl ++ m :: cr)) ∧
    ok t h m ∧ length (keys m) = length (keys a) + 1 + length (keys c) ∧
    elems m = elems a ++ (k, v) :: elems c.
Proof.
  intros -> Hkl Hvl Ha Hc Hm.
  destruct (merge_nodes t h a c k v Ha Hc Hm) as (Ho & He & Hl).
  eexists. split_and!; [|exact Ho|exact Hl|exact He].
  unfold mergeChildren. cbn [children keys values].
  vec_run. unfold setChild. cbn [children keys values]. by repeat (vec_run; simpl).
Qed.

(** ** Topping up a child

    [fillChild] widens the window of the child it is called on: entries move in
    from the left ([x]) or from the right ([y]), the rest keeps its place. *)
Definition widened t h kl kr vl vr cl c cr (r : result (Node K V)) : Prop :=
  ∃ kl' kr' vl' vr' cl' c' cr' x y,
    r = Val (mkNode (kl' ++ kr') (vl' ++ vr') (cl' ++ c' :: cr')) ∧
    cut_ok t h kl' kr' vl' vr' cl' c' cr' ∧ t ≤ length (keys c') ∧
    length cl' ≤ length (cl : list (Node K V)) ∧ length cr' ≤ length (cr : list (Node K V)) ∧
    length kl' + length kr' ≤ length (kl : list K) + length (kr : list K) ≤
      S (length kl' + length kr') ∧
    pre cl (zip kl vl) = pre cl' (zip kl' vl') ++ x ∧
    elems c' = x ++ elems c ++ y ∧
    suf (zip kr vr) cr = y ++ suf (zip kr' vr') cr'.

(** The cut moved over one separator, to the left or to the right. *)
Lemma cut_prev t h kl kr vl vr cl c cr :
  cut_ok t h kl kr vl vr cl c cr → cl ≠ [] →
  ∃ kl0 k vl0 v cl0 a,
    kl = kl0 ++ [k] ∧ vl = vl0 ++ [v] ∧ cl = cl0 ++ [a] ∧
    length kl0 = length cl0 ∧ length vl0 = length cl0 ∧
    Forall (ok t h) cl0 ∧ ok t h a ∧
    pre cl (zip kl vl) = pre cl0 (zip kl0 vl0) ++ elems a ++ [(k, v)].
Proof.
  intros (Hkl & Hvl & _ & _ & Hf & _) Hne.
  assert (0 < length cl) by (destruct cl; [done|simpl; lia]).
  destruct (snoc_inv cl) as (cl0 & a & ->); [lia|].
  destruct (snoc_inv kl) as (kl0 & k & ->); [lia|].
  destruct (snoc_inv vl) as (vl0 & v & ->); [lia|].
  rewrite !length_app in *. simpl in *.
  apply Forall_app in Hf as [Hf Ha]. rewrite Forall_singleton in Ha.
  exists kl0, k, vl0, v, cl0, a. split_and!; try done; try lia.
  rewrite zip_app_len by lia. simpl. apply pre_snoc. rewrite length_zip_eq; lia.
Qed.

Lemma cut_next t h kl kr vl vr cl c cr :
  cut_ok t h kl kr vl vr cl c cr → cr ≠ [] →
  ∃ k kr0 v vr0 d cr0,
    kr = k :: kr0 ∧ vr = v :: vr0 ∧ cr = d :: cr0 ∧
    length kr0 = length cr0 ∧ length vr0 = length cr0 ∧
    ok t h d ∧ Forall (ok t h) cr0.
Proof.
  intros (_ & _ & Hkr & Hvr & _ & _ & Hf & _) Hne.
  destruct cr as [|d cr0]; [done|]. destruct kr as [|k kr0]; [done|].
  destruct vr as [|v vr0]; [done|]. apply Forall_cons in Hf as [Hd Hf].
  exists k, kr0, v, vr0, d, cr0. simpl in *. split_and!; try done; lia.
Qed.

(** The four ways to widen the window. *)
Lemma widen_borrow_next t h kl k kr vl v vr cl c d cr :
  1 ≤ t → cut_ok t h kl (k :: kr) vl (v :: vr) cl c (d :: cr) → length (keys c) < t → t ≤ length (keys d) →
  widened t h kl (k :: kr) vl (v :: vr) cl c (d :: cr)
    (borrowFromNext (mkNode (kl ++ k :: kr) (vl ++ v :: vr) (cl ++ c :: d :: cr)) (length cl)).
Proof.
  intros Ht (Hkl & Hvl & Hkr & Hvr & Hf1 & Hc & Hf2 & Hm) Htc Htd. apply Forall_cons in Hf2 as [Hd Hf2]. simpl in *.
  destruct (borrowFromNext_cut t h kl k kr vl v vr cl c d cr (length cl)) as
    (c' & dk & dv & d' & x & Hb & Ho1 & Ho2 & Hl & He1 & He2); try done.
  exists kl, (dk :: kr), vl, (dv :: vr), cl, c', (d' :: cr), [], x. split; [exact Hb|]. destruct Hc.
  split; [|simpl; rewrite He2; split_and!; try done; try lia].
  - unfold cut_ok. simpl. split_and!; try done; try lia. by constructor.
  - by rewrite app_nil_r.
  - rewrite (app_comm_cons (elems d)), He1. by rewrite <- (assoc_L (++)).
Qed.

Lemma widen_merge_next t h kl k kr vl v vr cl c d cr :
  2 ≤ t → cut_ok t h kl (k :: kr) vl (v :: vr) cl c (d :: cr) → length (keys c) < t → length (keys d) < t →
  widened t h kl (k :: kr) vl (v :: vr) cl c (d :: cr)
    (mergeChildren (mkNode (kl ++ k :: kr) (vl ++ v :: vr) (cl ++ c :: d :: cr)) (length cl)).
Proof.
  intros Ht (Hkl & Hvl & Hkr & Hvr & Hf1 & Hc & Hf2 & Hm) Htc Htd. apply Forall_cons in Hf2 as [Hd Hf2]. simpl in *.
  destruct (mergeChildren_cut t h kl k kr vl v vr cl c d cr (length cl)) as (m & Hb & Ho & Hl & He); try done; [lia|].
  exists kl, kr, vl, vr, cl, m, cr, [], ((k, v) :: elems d). split; [exact Hb|].
  split; [|simpl; split_and!; try done; destruct Hc, Hd; try lia].
  - unfold cut_ok. split_and!; try done; lia.
  - by rewrite app_nil_r.
Qed.

Lemma widen_borrow_prev t h kl k kr vl v vr cl a c cr :
  1 ≤ t → cut_ok t h (kl ++ [k]) kr (vl ++ [v]) vr (cl ++ [a]) c cr → length (keys c) < t → t ≤ length (keys a) →
  widened t h (kl ++ [k]) kr (vl ++ [v]) vr (cl ++ [a]) c cr
    (borrowFromPrev (mkNode (kl ++ k :: kr) (vl ++ v :: vr) (cl ++ a :: c :: cr)) (S (length cl))).
Proof.
  intros Ht (Hkl & Hvl & Hkr & Hvr & Hf1 & Hc & Hf2 & Hm) Htc Hta. rewrite !length_app in *. simpl in *.
  apply Forall_app in Hf1 as [Hf1 Ha]. rewrite Forall_singleton in Ha.
  destruct (borrowFromPrev_cut t h kl k kr vl v vr cl a c cr (S (length cl))) as
    (a' & ak & av & c' & x & Hb & Ho1 & Ho2 & Hl & He1 & He2); try done; try lia.
  exists (kl ++ [ak]), kr, (vl ++ [av]), vr, (cl ++ [a']), c', cr, x, []. rewrite <- !(assoc_L (++)).
  split; [exact Hb|]. rewrite !length_app. destruct Hc. split; [|simpl; split_and!; try done; try lia].
  - unfold cut_ok. rewrite !length_app. simpl. split_and!; try done; try lia. apply Forall_app. split; [done|by constructor].
  - assert (length (zip kl vl) = length cl) by (rewrite length_zip_eq; lia).
    rewrite !zip_app_len by lia. simpl. rewrite !pre_snoc by done. rewrite He1. by rewrite <- !(assoc_L (++)).
  - by rewrite app_nil_r.
Qed.

Lemma widen_merge_prev t h kl k kr vl v vr cl a c cr :
  2 ≤ t → cut_ok t h (kl ++ [k]) kr (vl ++ [v]) vr (cl ++ [a]) c cr → length (keys c) < t → length (keys a) < t →
  widened t h (kl ++ [k]) kr (vl ++ [v]) vr (cl ++ [a]) c cr
    (mergeChildren (mkNode (kl ++ k :: kr) (vl ++ v :: vr) (cl ++ a :: c :: cr)) (length cl)).
Proof.
  intros Ht (Hkl & Hvl & Hkr & Hvr & Hf1 & Hc & Hf2 & Hm) Htc Hta. rewrite !length_app in *. simpl in *.
  apply Forall_app in Hf1 as [Hf1 Ha]. rewrite Forall_singleton in Ha.
  destruct (mergeChildren_cut t h kl k kr vl v vr cl a c cr (length cl)) as (m & Hb & Ho & Hl & He); try done; try lia.
  exists kl, kr, vl, vr, cl, m, cr, (elems a ++ [(k, v)]), []. split; [exact Hb|]. rewrite !length_app.
  split; [|simpl; split_and!; try done; destruct Ha, Hc; try lia].
  - unfold cut_ok. split_and!; try done; lia.
  - rewrite zip_app_len by lia. simpl. apply pre_snoc. rewrite length_zip_eq; lia.
  - rewrite He, app_nil_r. by rewrite <- (assoc_L (++)).
Qed.

(** Whether the sibling at an index has a key to spare. *)
Lemma enough_run t (l r : list (Node K V)) a i j :
  r !! i = Some a → j = length l + i →
  (c ← at_ (l ++ r) j; Val (bool_decide (t ≤ length (keys c)))) = Val (bool_decide (t ≤ length (keys a))).
Proof.
  intros Hi ->. unfold at_. rewrite lookup_app_r by lia. replace (length l + i - length l) with i by lia. by rewrite Hi.
Qed.

Lemma fillChild_widen t h kl kr vl vr cl c cr :
  2 ≤ t → cut_ok t h kl kr vl vr cl c cr → length (keys c) < t →
  1 ≤ length kl + length kr →
  widened t h kl kr vl vr cl c cr
    (fillChild t (mkNode (kl ++ kr) (vl ++ vr) (cl ++ c :: cr)) (length cl)).
Proof.
  intros Ht Hcut Htc Hne. pose proof Hcut as (Hkl & _ & Hkr & _).
  unfold fillChild. cbn [children]. rewrite length_app. simpl length.
  destruct (decide (cl = [])) as [->|Hcl].
  - destruct (cut_next _ _ _ _ _ _ _ _ _ Hcut) as (k & kr0 & v & vr0 & d & cr0 & -> & -> & -> & _);
      [destruct cr; [simpl in *; lia|done]|].
    simpl length in *. repeat bdec. rewrite (enough_run t [] _ d 1) by done. cbn [mbind result_bind].
    destruct (decide (t ≤ length (keys d))) as [Hd|Hd]; bdec.
    + apply (widen_borrow_next t h kl k kr0 vl v vr0 []); [lia|done..].
    + apply (widen_merge_next t h kl k kr0 vl v vr0 []); [done|done|done|lia].
  - destruct (cut_prev _ _ _ _ _ _ _ _ _ Hcut Hcl) as (kl0 & k & vl0 & v & cl0 & a & -> & -> & -> & _).
    rewrite !length_app in *. simpl length in *. bdec. replace (length cl0 + 1) with (S (length cl0)) by lia.
    rewrite <- !(assoc_L (++)). cbn [app]. rewrite (enough_run t cl0 _ a 0 (S (length cl0) - 1)) by (done || lia). cbn [mbind result_bind].
    destruct (decide (t ≤ length (keys a))) as [Ha|Ha]; bdec; [apply widen_borrow_prev; [lia|done..]|].
    assert (Hmerge : widened t h (kl0 ++ [k]) kr (vl0 ++ [v]) vr (cl0 ++ [a]) c cr
      (mergeChildren (mkNode (kl0 ++ k :: kr) (vl0 ++ v :: vr) (cl0 ++ a :: c :: cr)) (S (length cl0) - 1))).
    { replace (S (length cl0) - 1) with (length cl0) by lia. apply widen_merge_prev; [done|done|done|lia]. }
    destruct (decide (cr = [])) as [->|Hcr]; [simpl; by repeat bdec|].
    destruct (cut_next _ _ _ _ _ _ _ _ _ Hcut Hcr) as (k2 & kr0 & v2 & vr0 & d & cr0 & -> & -> & -> & _).
    simpl length. bdec. rewrite (enough_run t cl0 _ d 2) by (done || lia). cbn [mbind result_bind].
    destruct (decide (t ≤ length (keys d))) as [Hd|Hd]; bdec; [|exact Hmerge].
    pose proof (widen_borrow_next t h (kl0 ++ [k]) k2 kr0 (vl0 ++ [v]) v2 vr0 (cl0 ++ [a]) c d cr0) as Hw.
    rewrite length_app, <- !(assoc_L (++)), Nat.add_comm in Hw. apply Hw; [lia|done..].
Qed.

Lemma cut_of_shape t h n i :
  shape t (S h) n → i ≤ length (keys n) →
  ∃ kl kr vl vr cl c cr,
    n = mkNode (kl ++ kr) (vl ++ vr) (cl ++ c :: cr) ∧ length cl = i ∧
    cut_ok t h kl kr vl vr cl c cr.
Proof.
  intros Hs Hi. destruct (shape_cut t h n i Hs Hi) as
    (kl & kr & vl & vr & cl & c & cr & -> & Hcl & Hkl & Hvl & Hkr & Hvr & ? & ? & ? & ?).
  exists kl, kr, vl, vr, cl, c, cr. unfold cut_ok. split_and!; try done; lia.
Qed.

(** Entering a child that has at least [t] keys, after topping it up if needed. *)
Lemma fill_if_short t h kl kr vl vr cl c cr :
  2 ≤ t → cut_ok t h kl kr vl vr cl c cr → 1 ≤ length kl + length kr →
  widened t h kl kr vl vr cl c cr
    (if bool_decide (length (keys c) < t)
     then fillChild t (mkNode (kl ++ kr) (vl ++ vr) (cl ++ c :: cr)) (length cl)
     else Val (mkNode (kl ++ kr) (vl ++ vr) (cl ++ c :: cr))).
Proof.
  intros Ht Hcut Hne. case_bool_decide; [by apply fillChild_widen|].
  exists kl, kr, vl, vr, cl, c, cr, [], []. split; [done|]. rewrite !app_nil_r.
  split_and!; try done; lia.
Qed.

Lemma takeMax_spec t h fuel n :
  2 ≤ t → S h ≤ fuel → shape t h n → t ≤ length (keys n) →
  ∃ n' e, takeMax fuel t n = Val (n', e) ∧ ok t h n' ∧ elems n = elems n' ++ [e].
Proof.
  intros Ht. revert h n. induction fuel as [|fuel IH]; intros h n Hf Hs Hk; [lia|].
  destruct h as [|h].
  - destruct (shape_lengths _ _ _ Hs) as [Hv Hm]. destruct Hs as (_ & _ & Hc).
    destruct n as [ks vs cs]. simpl in *. subst cs. simpl.
    destruct (snoc_inv ks) as (ks' & k & ->); [lia|].
    destruct (snoc_inv vs) as (vs' & v & ->); [lia|].
    rewrite !length_app in *. simpl in *. vec_run.
    eexists _, (k, v). rewrite !elems_leaf, zip_app_len by lia.
    split; [done|]. split; [|done]. unfold ok. simpl. split_and!; try done; lia.
  - cbn [takeMax]. rewrite (shape_S_nonleaf _ _ _ Hs).
    destruct (cut_of_shape t h n (length (keys n)) Hs) as
      (kl & kr & vl & vr & cl & c & cr & -> & Hcl & Hcut); [done|].
    pose proof Hcut as (Hkl & Hvl & Hkr & Hvr & _). simpl in Hcl, Hk. rewrite length_app in Hcl, Hk.
    destruct cr; [|simpl in *; lia]. rewrite (cut_elems _ _ _ _ _ _ _ _ _ Hcut).
    cbn [children]. rewrite length_app. simpl length.
    replace (length cl + 1 - 1) with (length cl) by lia. vec_run.
    destruct (fill_if_short _ _ _ _ _ _ _ _ _ Ht Hcut) as
      (kl' & kr' & vl' & vr' & cl' & c' & cr' & x & y & -> & Hcut' & Htc & Hl1 & Hl2 & Hl3 & Hp & He & Hsf);
      [lia|].
    destruct cr'; [|simpl in *; lia]. cbn [mbind result_bind children]. rewrite length_app. simpl length.
    replace (length cl' + 1 - 1) with (length cl') by lia. vec_run.
    pose proof Hcut' as (Hkl' & Hvl' & Hkr' & Hvr' & _ & Hc' & _).
    destruct (IH h c') as (c2 & e & -> & Ho & He2); [lia|apply Hc'|done|].
    cbn [mbind result_bind]. unfold setChild. cbn [children keys values]. vec_run.
    pose proof (cut_replace _ _ _ _ _ _ _ _ _ _ Hcut' Ho) as Hcut2.
    eexists _, e. split; [done|]. split; [split|].
    + simpl. rewrite length_app. lia.
    + by apply cut_shape.
    + rewrite (cut_elems _ _ _ _ _ _ _ _ _ Hcut2), Hp, Hsf.
      rewrite <- (assoc_L (++)), (assoc_L (++) (elems c) y), (assoc_L (++) x), <- He, He2.
      destruct (zip kr' vr'); by rewrite !app_nil_r, <- (assoc_L (++)).
Qed.

Lemma takeMin_spec t h fuel n :
  2 ≤ t → S h ≤ fuel → shape t h n → t ≤ length (keys n) →
  ∃ n' e, takeMin fuel t n = Val (n', e) ∧ ok t h n' ∧ elems n = e :: elems n'.
Proof.
  intros Ht. revert h n. induction fuel as [|fuel IH]; intros h n Hf Hs Hk; [lia|].
  destruct h as [|h].
  - destruct (shape_lengths _ _ _ Hs) as [Hv Hm]. destruct Hs as (_ & _ & Hc).
    destruct n as [[|k ks] [|v vs] cs]; simpl in *; try lia. subst cs. simpl.
    eexists _, (k, v). rewrite !elems_leaf.
    split; [done|]. split; [|done]. unfold ok. simpl. split_and!; try done; lia.
  - cbn [takeMin]. rewrite (shape_S_nonleaf _ _ _ Hs).
    destruct (cut_of_shape t h n 0 Hs) as
      (kl & kr & vl & vr & cl & c & cr & -> & Hcl & Hcut); [lia|].
    pose proof Hcut as (Hkl & Hvl & Hkr & Hvr & _). simpl in Hk. rewrite length_app in Hk.
    destruct cl; [|done]. rewrite (cut_elems _ _ _ _ _ _ _ _ _ Hcut).
    cbn [children]. vec_run.
    destruct (fill_if_short _ _ _ _ _ _ _ _ _ Ht Hcut) as
      (kl' & kr' & vl' & vr' & cl' & c' & cr' & x & y & Hfill & Hcut' & Htc & Hl1 & Hl2 & Hl3 & Hp & He & Hsf);
      [lia|].
    change (length []) with 0 in Hfill. rewrite Hfill.
    destruct cl'; [|simpl in *; lia]. cbn [mbind result_bind children]. vec_run.
    pose proof Hcut' as (Hkl' & Hvl' & Hkr' & Hvr' & _ & Hc' & _).
    destruct (IH h c') as (c2 & e & -> & Ho & He2); [lia|apply Hc'|done|].
    cbn [mbind result_bind]. unfold setChild. cbn [children keys values]. vec_run.
    pose proof (cut_replace _ _ _ _ _ _ _ _ _ _ Hcut' Ho) as Hcut2.
    eexists _, e. split; [done|]. split; [split|].
    + simpl. rewrite length_app. lia.
    + by apply cut_shape.
    + rewrite (cut_elems _ _ _ _ _ _ _ _ _ Hcut2), Hsf. simpl in Hp |- *. subst x.
      simpl in He. by rewrite (assoc_L (++)), <- He, He2.
Qed.

(** ** The descent index after a change of the node *)
Lemma lower_bound_app (kl kr : list K) key :
  Forall (λ k, k ≺ key) kl → Forall (λ k, key ≺ k) kr →
  lower_bound (kl ++ kr) key = length kl ∧
  (∀ k, (kl ++ kr) !! length kl = Some k → keqb k key = false).
Proof.
  intros Hl Hr. split.
  - induction Hl as [|k kl Hk Hl IH]; simpl.
    + destruct Hr as [|k kr Hk Hr]; [done|]. simpl. by rewrite lt_nlt.
    + by rewrite Hk, IH.
  - intros k Hk. destruct Hr as [|k' kr Hk' Hr].
    + rewrite app_nil_r, lookup_ge_None_2 in Hk by lia. done.
    + rewrite list_lookup_middle in Hk by done. simplify_eq. by apply gt_neqb.
Qed.

Lemma below_pre_keys (kl : list K) (vl : list V) cl key :
  length kl = length cl → length vl = length cl →
  below key (pre cl (zip kl vl)) → Forall (λ k, k ≺ key) kl.
Proof.
  revert vl cl. induction kl as [|k kl IH]; intros [|v vl] [|c cl] Hk Hv Hb; try done.
  simpl in *. apply below_app in Hb as [_ Hb]. apply Forall_cons in Hb as [Hb1 Hb2].
  constructor; [done|]. apply (IH vl cl); try done; lia.
Qed.

Lemma above_suf_keys (kr : list K) (vr : list V) cr key :
  length kr = length cr → length vr = length cr →
  above key (suf (zip kr vr) cr) → Forall (λ k, key ≺ k) kr.
Proof.
  revert vr cr. induction kr as [|k kr IH]; intros [|v vr] [|c cr] Hk Hv Ha; try done.
  simpl in *. apply Forall_cons in Ha as [Ha1 Ha2]. apply above_app in Ha2 as [_ Ha2].
  constructor; [done|]. apply (IH vr cr); try done; lia.
Qed.

Lemma descent_index t h kl kr vl vr cl c cr key :
  cut_ok t h kl kr vl vr cl c cr →
  below key (pre cl (zip kl vl)) → above key (suf (zip kr vr) cr) →
  let n := mkNode (kl ++ kr) (vl ++ vr) (cl ++ c :: cr) in
  lowerBound n key = length cl ∧ keyAt n (length cl) key = false.
Proof.
  intros (Hkl & Hvl & Hkr & Hvr & _) Hb Ha. unfold lowerBound, keyAt. simpl.
  destruct (lower_bound_app kl kr key) as [H1 H2];
    [by eapply below_pre_keys|by eapply above_suf_keys|].
  rewrite H1, <- Hkl. split; [done|].
  destruct ((kl ++ kr) !! length kl) as [k|] eqn:E; [by apply H2|done].
Qed.

(** ** Removing a key below a node *)
Definition removed_from t h key n (r : result (Node K V * bool)) : Prop :=
  ∃ n', r = Val (n', bool_decide (is_Some (al_lookup key (elems n)))) ∧
    shape t h n' ∧ elems n' = al_delete key (elems n) ∧
    length (keys n) ≤ S (length (keys n')).

Lemma removed_from_same t h key n1 n2 r :
  elems n1 = elems n2 → length (keys n1) = length (keys n2) →
  removed_from t h key n1 r → removed_from t h key n2 r.
Proof. intros He Hl. unfold removed_from. by rewrite He, Hl. Qed.

(** Removing in the child at the cut of the key's place. *)
Lemma remove_at_cut t h kl kr vl vr cl c cr key (r : result (Node K V * bool)) i n0 :
  i = length cl → cut_ok t h kl kr vl vr cl c cr → t ≤ length (keys c) →
  below key (pre cl (zip kl vl)) → above key (suf (zip kr vr) cr) →
  removed_from t h key c r →
  let n := mkNode (kl ++ kr) (vl ++ vr) (cl ++ c :: cr) in
  elems n0 = elems n → length (keys n0) ≤ S (length kl + length kr) →
  removed_from t (S h) key n0
    ('(c', removed) ← r;
     n' ← setChild n i c';
     Val (n', removed)).
Proof.
  intros -> Hcut Htc Hb Ha (c' & Hfc & Hs' & He' & Hl') n He0 Hk0. subst n.
  rewrite Hfc. cbn [mbind result_bind]. unfold setChild. cbn [children keys values]. vec_run.
  unfold removed_from. rewrite He0, (cut_elems _ _ _ _ _ _ _ _ _ Hcut).
  rewrite al_lookup_app_below, al_lookup_app_above by done.
  rewrite al_delete_mid by done. rewrite <- He'.
  assert (ok t h c') as Hc' by (split; [lia|done]).
  pose proof (cut_replace _ _ _ _ _ _ _ _ _ _ Hcut Hc') as Hcut'.
  eexists. split; [done|]. split; [by apply cut_shape|].
  split; [by apply (cut_elems _ _ _ _ _ _ _ _ _ Hcut')|]. simpl. by rewrite length_app.
Qed.

(** Removing the separator of an internal node. *)
Lemma remove_here t h kl kr vl v vr cl c c' cr key fuel i :
  2 ≤ t → S h ≤ fuel → i = length cl →
  cut_ok t h kl (key :: kr) vl (v :: vr) cl c (c' :: cr) →
  ksorted (elems (mkNode (kl ++ key :: kr) (vl ++ v :: vr) (cl ++ c :: c' :: cr))) →
  below key (pre cl (zip kl vl)) → below key (elems c) →
  above key (elems c' ++ suf (zip kr vr) cr) →
  (∀ c, ok t h c → t ≤ length (keys c) → ksorted (elems c) →
     removed_from t h key c (removeFrom fuel t c key)) →
  let node := mkNode (kl ++ key :: kr) (vl ++ v :: vr) (cl ++ c :: c' :: cr) in
  removed_from t (S h) key node
    (left ← at_ (children node) i;
     right ← at_ (children node) (i + 1);
     if bool_decide (t ≤ length (keys left)) then
       '(left', (k, v)) ← takeMax fuel t left;
       node1 ← setChild node i left';
       node2 ← setEntry node1 i k v;
       Val (node2, true)
     else if bool_decide (t ≤ length (keys right)) then
       '(right', (k, v)) ← takeMin fuel t right;
       node1 ← setChild node (i + 1) right';
       node2 ← setEntry node1 i k v;
       Val (node2, true)
     else
       node1 ← mergeChildren node i;
       c ← at_ (children node1) i;
       '(c', removed) ← removeFrom fuel t c key;
       n' ← setChild node1 i c';
       Val (n', removed)).
Proof.
  intros Ht Hf -> Hcut Hso Hb Hbc Ha IH node.
  pose proof Hcut as (Hkl & Hvl & Hkr & Hvr & Hf1 & Hc & Hf2 & Hm).
  apply Forall_cons in Hf2 as [Hc' Hf2]. simpl in Hkr, Hvr, Hm.
  assert (Helems : elems node = pre cl (zip kl vl) ++ elems c ++ (key, v) :: elems c' ++ suf (zip kr vr) cr)
    by apply (cut_elems _ _ _ _ _ _ _ _ _ Hcut).
  change (children node) with (cl ++ c :: c' :: cr). vec_run.
  assert (Hdel : al_lookup key (elems node) = Some v ∧
    al_delete key (elems node) = pre cl (zip kl vl) ++ elems c ++ elems c' ++ suf (zip kr vr) cr).
  { rewrite Helems, (assoc_L (++) (pre _ _)). rewrite al_lookup_here, al_delete_here
      by (try done; by apply below_app). by rewrite <- (assoc_L (++)). }
  case_bool_decide as Hl1; [|case_bool_decide as Hl2].
  - destruct (takeMax_spec t h fuel c) as (c1 & [k' v'] & -> & Ho & He); try done; [apply Hc|].
    cbn [mbind result_bind]. unfold setChild, setEntry, node. repeat (cbn [children keys values]; vec_run).
    unfold removed_from. fold node. destruct Hdel as [-> ->].
    eexists. split; [done|]. split; [|split].
    + apply shape_glue; simpl; try done; try lia. by constructor.
    + rewrite elems_cut by lia. simpl. by rewrite He, <- (assoc_L (++)).
    + simpl. rewrite !length_app. simpl. lia.
  - destruct (takeMin_spec t h fuel c') as (c1 & [k' v'] & -> & Ho & He); try done; [apply Hc'|].
    cbn [mbind result_bind]. unfold setChild, setEntry, node. repeat (cbn [children keys values]; vec_run).
    unfold removed_from. fold node. destruct Hdel as [-> ->].
    eexists. split; [done|]. split; [|split].
    + apply shape_glue; simpl; try done; try lia. by constructor.
    + rewrite elems_cut by lia. simpl. by rewrite He.
    + simpl. rewrite !length_app. simpl. lia.
  - destruct (mergeChildren_cut t h kl key kr vl v vr cl c c' cr (length cl)) as
      (m & Hmg & Ho & Hlm & He); try done; [lia|].
    unfold node. rewrite Hmg. cbn [mbind result_bind children]. vec_run. fold node.
    assert (Hcut' : cut_ok t h kl kr vl vr cl m cr) by (unfold cut_ok; split_and!; try done; lia).
    assert (Heq : elems node = elems (mkNode (kl ++ kr) (vl ++ vr) (cl ++ m :: cr))).
    { rewrite Helems, (cut_elems _ _ _ _ _ _ _ _ _ Hcut'), He. by rewrite <- (assoc_L (++)). }
    destruct Hc, Hc'. apply remove_at_cut; try done; try lia.
    + by apply above_app in Ha as [_ Ha].
    + apply IH; [done|lia|]. fold node in Hso. rewrite Heq, (cut_elems _ _ _ _ _ _ _ _ _ Hcut') in Hso.
      apply ksorted_app in Hso as (_ & _ & Hso). by apply ksorted_app in Hso as (_ & Hso & _).
    + simpl. rewrite length_app. simpl. lia.
Qed.

Lemma removeFrom_spec t h fuel n key :
  2 ≤ t → S h ≤ fuel → shape t h n → 1 ≤ length (keys n) → ksorted (elems n) →
  removed_from t h key n (removeFrom fuel t n key).
Proof.
  intros Ht. revert h n. induction fuel as [|fuel IH]; intros h n Hf Hs Hk Hso; [lia|].
  destruct h as [|h].
  - destruct (leaf_view t n key Hs Hso) as
      (kl & kr & vl & vr & -> & Hkl & Hvl & Hvr & Hb & [(kr' & v & vr' & -> & -> & Ha & Hat) | [Ha Hat]]);
      unfold removed_from; cbn [removeFrom]; rewrite Hat, elems_leaf, zip_app_len by done.
    + simpl. rewrite !vec_erase_app by lia. cbn [mbind result_bind].
      rewrite al_lookup_here, al_delete_here by done.
      destruct Hs as (Hs1 & Hs2 & _). simpl in *. rewrite !length_app in *. simpl in *.
      eexists. split; [done|].
      rewrite elems_leaf, zip_app_len by lia. simpl. rewrite !length_app.
      split_and!; try done; simpl in *; lia.
    + simpl isLeaf. rewrite al_lookup_app_below, al_lookup_above by done.
      eexists. split; [done|].
      split; [done|]. rewrite elems_leaf, zip_app_len by done.
      rewrite al_delete_app, al_delete_below, al_delete_above by done. split; [done|lia].
  - pose proof (shape_S_nonleaf _ _ _ Hs) as Hl.
    destruct (node_view t h n key Hs Hso) as
      (kl & kr & vl & vr & cl & c & cr & -> & Hcl & Hkl & Hvl & Hkr & Hvr & Hf1 & Hc & Hf2 & Hm & Hb & Hcase).
    assert (Hcut : cut_ok t h kl kr vl vr cl c cr) by (unfold cut_ok; split_and!; done).
    assert (Hchild : ∀ c, ok t h c → t ≤ length (keys c) → ksorted (elems c) →
        removed_from t h key c (removeFrom fuel t c key)).
    { intros c0 Hc0 Ht0 Hs0. apply IH; [lia|apply Hc0|lia|done]. }
    destruct Hcase as [(kr' & v & vr' & c' & cr' & -> & -> & -> & Hbc & Ha & Hat) | [Ha Hat]];
      cbn [removeFrom]; rewrite Hat, Hl; clear Hat.
    + apply remove_here; try done; lia.
    + rewrite <- Hcl. cbn [children]. vec_run. simpl in Hk. rewrite length_app in Hk.
      case_bool_decide as Hshort.
      2: { apply remove_at_cut; try done; [lia| |simpl; rewrite length_app; lia].
           apply Hchild; [done|lia|]. rewrite (cut_elems _ _ _ _ _ _ _ _ _ Hcut) in Hso.
           apply ksorted_app in Hso as (_ & _ & Hso). by apply ksorted_app in Hso as (_ & Hso & _). }
      destruct (fillChild_widen _ _ _ _ _ _ _ _ _ Ht Hcut Hshort Hk) as
        (kl' & kr' & vl' & vr' & cl' & c' & cr' & x & y & -> & Hcut' & Htc & Hl1 & Hl2 & Hl3 & Hp & He & Hsf).
      rewrite Hp in Hb. rewrite Hsf in Ha.
      apply below_app in Hb as [Hb _]. apply above_app in Ha as [_ Ha].
      assert (Helems : elems (mkNode (kl ++ kr) (vl ++ vr) (cl ++ c :: cr)) =
                       elems (mkNode (kl' ++ kr') (vl' ++ vr') (cl' ++ c' :: cr'))).
      { rewrite (cut_elems _ _ _ _ _ _ _ _ _ Hcut), (cut_elems _ _ _ _ _ _ _ _ _ Hcut'), Hp, Hsf, He.
        by rewrite <- !(assoc_L (++)). }
      destruct (descent_index _ _ _ _ _ _ _ _ _ _ Hcut' Hb Ha) as [Hlb Hka].
      cbn [mbind result_bind]. rewrite Hlb, Hka. cbn [children]. vec_run.
      apply remove_at_cut; try done; [|simpl; rewrite length_app; lia].
      apply Hchild; [apply Hcut'|done|].
      rewrite Helems, (cut_elems _ _ _ _ _ _ _ _ _ Hcut') in Hso.
      apply ksorted_app in Hso as (_ & _ & Hso). by apply ksorted_app in Hso as (_ & Hso & _).
Qed.

(** ** The public operation *)
Lemma remove_spec (b : BTree K V) l key :
  represents b l →
  ∃ b' : BTree K V,
    BTree.remove b key = Val (b', bool_decide (is_Some (al_lookup key l))) ∧
    represents b' (al_delete key l) ∧ t_ b' = t_ b.
Proof.
  intros (Ht & Hso & Hsz & Hr). destruct b as [r t sz]. unfold BTree.remove. simpl in *.
  destruct r as [n|]; simpl in Hr.
  2: { subst l. eexists. split; [done|]. split; [|done]. by split_and!. }
  destruct Hr as (Hk & -> & h & Hs). rewrite (depth_shape t h) by done.
  destruct (removeFrom_spec t h (S h) n key) as (n1 & -> & Hs1 & He1 & Hl1); try done.
  cbn [mbind result_bind].
  assert (Hlen : length (al_delete key (elems n)) =
      if bool_decide (is_Some (al_lookup key (elems n))) then sz - 1 else sz).
  { rewrite al_delete_length by done. rewrite Hsz. by destruct (al_lookup key (elems n)). }
  destruct (decide (keys n1 = [])) as [Hempty|Hempty];
    [rewrite (bool_decide_eq_true_2 (keys n1 = [])) by done
    |rewrite (bool_decide_eq_false_2 (keys n1 = [])) by done].
  - destruct h as [|h].
    + destruct n1 as [ks vs cs]. apply shape_leaf_inv in Hs1 as Hleaf. destruct Hleaf as [Hc ->].
      simpl in *. subst. eexists. split; [done|]. split; [|done].
      split; [done|]. split; [by apply al_delete_ksorted|]. rewrite <- He1. simpl.
      rewrite <- Hlen, <- He1. by rewrite elems_leaf.
    + rewrite (shape_S_nonleaf _ _ _ Hs1).
      destruct n1 as [ks vs cs]. simpl in Hempty. subst ks.
      destruct Hs1 as (Hv & _ & Hc & Hf). simpl in *.
      destruct cs as [|c [|]]; simpl in Hc; try lia. apply Forall_cons in Hf as [[Hc1 Hc2] _].
      destruct vs; [|done]. eexists. split; [done|]. split; [|done].
      split; [done|]. split; [by apply al_delete_ksorted|]. split; [done|]. simpl.
      split; [lia|]. split; [|by eauto]. rewrite <- He1, elems_cons. simpl. by rewrite app_nil_r.
  - eexists. split; [done|]. split; [|done].
    split; [done|]. split; [by apply al_delete_ksorted|]. split; [done|]. simpl.
    split; [destruct (keys n1); [done|simpl; lia]|]. split; [done|by eauto].
Qed.
End Remove.
