(* ===== verification/BTreeQuery.v ===== *)
(** * B-tree: lookup, in-place update, traversals, height

    On a tree that represents the list [l]: [search] is [al_lookup], a write
    through its result is [al_alter], [forEachInOrder] visits [l] in order,
    [forEachRange] visits exactly the entries of [l] in the closed interval, and
    the height is logarithmic in the number of entries. *)

From S2P Require Import Prelude AssocList BTree BTreeShape.

Section Query.
Context {K V : Type} `{KeyLaws K}.
Implicit Types (n c : Node K V) (k key : K).

(** ** Lookup *)
Lemma searchNode_spec t h fuel n key :
  S h ≤ fuel → shape t h n → ksorted (elems n) →
  searchNode fuel n key = Val (al_lookup key (elems n)).
Proof.
  revert h n. induction fuel as [|fuel IH]; intros h n Hf Hs Hso; [lia|].
  destruct h as [|h].
  - destruct (leaf_view t n key Hs Hso) as
      (kl & kr & vl & vr & -> & Hkl & Hvl & Hvr & Hb & [(kr' & v & vr' & -> & -> & Ha & Hat) | [Ha Hat]]);
      cbn [searchNode]; rewrite Hat, elems_leaf, zip_app_len by done.
    + rewrite <- Hkl. simpl. vec_run. by rewrite al_lookup_here.
    + simpl. by rewrite al_lookup_app_below, al_lookup_above.
  - pose proof (shape_S_nonleaf _ _ _ Hs) as Hl.
    destruct (node_view t h n key Hs Hso) as
      (kl & kr & vl & vr & cl & c & cr & -> & Hcl & Hkl & Hvl & Hkr & Hvr & Hf1 & Hc & Hf2 & Hm & Hb &
       [(kr' & v & vr' & c' & cr' & -> & -> & -> & Hbc & Ha & Hat) | [Ha Hat]]);
      cbn [searchNode]; rewrite Hat, <- Hcl; rewrite elems_cut in Hso |- * by lia.
    + cbn [values]. vec_run. rewrite al_lookup_app_below by done. simpl. by rewrite al_lookup_here.
    + rewrite Hl. cbn [children]. vec_run.
      rewrite al_lookup_app_below, al_lookup_app_above by done.
      apply (IH h); [lia|apply Hc|].
      apply ksorted_app in Hso as (_ & _ & Hso). by apply ksorted_app in Hso as (_ & Hso & _).
Qed.

Lemma search_spec (b : BTree K V) l key :
  represents b l → search b key = Val (al_lookup key l).
Proof.
  intros (_ & Hso & _ & Hr). unfold search. destruct (root_ b) as [n|]; simpl in Hr.
  - destruct Hr as (_ & -> & h & Hs). rewrite (depth_shape (t_ b) h) by done.
    by apply (searchNode_spec (t_ b) h).
  - by subst.
Qed.

(** ** Writing through the pointer that [search] returns *)
Lemma updateNode_spec t h fuel n key (f : V → result V) (g : V → V) :
  S h ≤ fuel → shape t h n → ksorted (elems n) →
  (∀ v, al_lookup key (elems n) = Some v → f v = Val (g v)) →
  ∃ r, updateNode fuel n key f = Val r ∧
    match r with
    | None => al_lookup key (elems n) = None
    | Some n' =>
        is_Some (al_lookup key (elems n)) ∧ shape t h n' ∧
        keys n' = keys n ∧ elems n' = al_alter g key (elems n)
    end.
Proof.
  revert h n. induction fuel as [|fuel IH]; intros h n Hf Hs Hso Hfg; [lia|].
  destruct h as [|h].
  - destruct (leaf_view t n key Hs Hso) as
      (kl & kr & vl & vr & -> & Hkl & Hvl & Hvr & Hb & [(kr' & v & vr' & -> & -> & Ha & Hat) | [Ha Hat]]);
      cbn [updateNode]; rewrite Hat; rewrite elems_leaf, zip_app_len in Hfg |- * by done.
    + rewrite <- Hkl. simpl in Hfg |- *. vec_run.
      rewrite al_lookup_here in Hfg |- * by done. rewrite (Hfg v) by done. cbn [mbind result_bind].
      vec_run. eexists. split; [done|]. split; [by eauto|].
      destruct Hs as (Hs1 & Hs2 & _). simpl in *. rewrite !length_app in *. simpl in *.
      split; [done|]. split; [done|]. rewrite elems_leaf, zip_app_len by done. simpl.
      rewrite al_alter_app. simpl. rewrite al_alter_below by done. csimpl.
      unfold al_alter. csimpl. rewrite keqb_refl. f_equal. f_equal. symmetry. by apply al_alter_above.
    + simpl. eexists. split; [done|]. by rewrite al_lookup_app_below, al_lookup_above.
  - pose proof (shape_S_nonleaf _ _ _ Hs) as Hl.
    destruct (node_view t h n key Hs Hso) as
      (kl & kr & vl & vr & cl & c & cr & -> & Hcl & Hkl & Hvl & Hkr & Hvr & Hf1 & Hc & Hf2 & Hm & Hb &
       [(kr' & v & vr' & c' & cr' & -> & -> & -> & Hbc & Ha & Hat) | [Ha Hat]]);
      cbn [updateNode]; rewrite Hat, <- Hcl; rewrite elems_cut in Hso, Hfg |- * by lia.
    + cbn [values]. vec_run. simpl in Hfg |- *.
      rewrite al_lookup_app_below, al_lookup_here in Hfg by done.
      rewrite (Hfg v) by done. cbn [mbind result_bind]. vec_run. eexists. split; [done|].
      rewrite al_lookup_app_below, al_lookup_here by done. split; [by eauto|].
      split; [by apply shape_glue|]. split; [done|]. rewrite elems_cut by lia. simpl.
      rewrite !al_alter_app, (al_alter_below _ _ (pre _ _)), (al_alter_below _ _ (elems c)) by done.
      f_equal. f_equal. unfold al_alter. csimpl. rewrite keqb_refl. f_equal.
      symmetry. by apply al_alter_above.
    + rewrite Hl. cbn [children]. vec_run.
      rewrite al_lookup_app_below, al_lookup_app_above in Hfg |- * by done.
      destruct (IH h c) as (r & -> & Hr); [lia|apply Hc| |done|].
      { apply ksorted_app in Hso as (_ & _ & Hso). by apply ksorted_app in Hso as (_ & Hso & _). }
      cbn [mbind result_bind]. destruct r as [c'|]; [|by eauto].
      destruct Hr as (Hsome & Hs' & Hk' & He'). unfold setChild. cbn [children keys values]. vec_run.
      eexists. split; [done|]. split; [done|]. split.
      { apply shape_glue; try done. split; [rewrite Hk'; apply Hc|done]. }
      split; [done|]. rewrite elems_cut by lia. by rewrite al_alter_mid, He'.
Qed.

Lemma update_spec (b : BTree K V) l key (f : V → result V) (g : V → V) v :
  represents b l → al_lookup key l = Some v → f v = Val (g v) →
  ∃ b' : BTree K V, update b key f = Val (Some b') ∧
    represents b' (al_alter g key l) ∧ t_ b' = t_ b.
Proof.
  intros (Ht & Hso & Hsz & Hr) Hl Hf. unfold update.
  destruct b as [[n|] t sz]; simpl in *; [|by subst].
  destruct Hr as (Hk & -> & h & Hs). rewrite (depth_shape t h) by done.
  destruct (updateNode_spec t h (S h) n key f g) as (r & -> & Hr); try done.
  { intros v' Hv'. rewrite Hl in Hv'. by injection Hv' as <-. }
  destruct r as [n'|]; [|congruence]. destruct Hr as (_ & Hs' & Hk' & He').
  eexists. split; [done|]. split; [|done].
  split; [done|]. split; [by apply al_alter_ksorted|].
  split; [unfold al_alter; by rewrite length_fmap|]. simpl.
  rewrite Hk'. split; [done|]. split; [done|by eauto].
Qed.

(** ** In-order traversal *)
Section visit.
Context {A : Type} (f : A → K * V → result A).

Lemma inOrderLoop_spec (visit : Node K V → A → result A) n kl kr vl vr cl cr m i s :
  n = mkNode (kl ++ kr) (vl ++ vr) (cl ++ cr) → m = length kr → i = length kl →
  length vl = length kl → length vr = length kr →
  (if isLeaf n then True else length cl = length kl ∧ length kr ≤ length cr) →
  (∀ c s, c ∈ cr → visit c s = foldR f s (elems c)) →
  inOrderLoop f visit n m i s =
  foldR f s (if isLeaf n then zip kr vr else pre cr (zip kr vr)).
Proof.
  intros Hn -> Hi Hvl Hvr. revert kl vl cl vr cr i s Hn Hi Hvl Hvr.
  induction kr as [|k kr IH]; intros kl vl cl vr cr i s Hn -> Hvl Hvr Hc Hv.
  { destruct vr; [|done]. destruct (isLeaf n); [done|]. by destruct cr. }
  destruct vr as [|v vr]; [done|]. cbn [length inOrderLoop].
  assert (Hstep : (if isLeaf n then Val s else c ← at_ (children n) (length kl); visit c s) =
    foldR f s (if isLeaf n then [] else match cr with [] => [] | c :: _ => elems c end)).
  { destruct (isLeaf n); [done|]. destruct Hc as [Hc1 Hc2]. destruct cr as [|c cr]; [simpl in Hc2; lia|].
    rewrite Hn. cbn [children]. vec_run. apply Hv. by left. }
  assert (Hkn : keys n = kl ++ k :: kr) by by rewrite Hn.
  assert (Hvn : values n = vl ++ v :: vr) by by rewrite Hn.
  rewrite Hstep, Hkn, Hvn. clear Hstep.
  destruct (foldR f s _) as [s1| |] eqn:Es1; cbn [mbind result_bind].
  2,3: destruct (isLeaf n); [done|]; destruct cr; [done|];
       simpl; rewrite foldR_app, Es1; done.
  vec_run. destruct (f s1 (k, v)) as [s2| |] eqn:Es2; cbn [mbind result_bind].
  2,3: destruct (isLeaf n); [simpl in *; simplify_eq; by rewrite Es2|];
       destruct Hc as [_ Hc]; destruct cr; [simpl in Hc; lia|]; simpl;
       rewrite foldR_app, Es1; simpl; by rewrite Es2.
  destruct (isLeaf n) eqn:El.
  - rewrite (IH (kl ++ [k]) (vl ++ [v]) cl vr cr); rewrite ?length_app; simpl in *; try done; try lia.
    + simplify_eq. by rewrite Es2.
    + by rewrite <- !(assoc_L (++)).
  - destruct Hc as [Hc1 Hc2]. destruct cr as [|c cr]; [simpl in Hc2; lia|].
    rewrite (IH (kl ++ [k]) (vl ++ [v]) (cl ++ [c]) vr cr); rewrite ?length_app; simpl in *; try done; try lia.
    + rewrite foldR_app, Es1. simpl. by rewrite Es2.
    + by rewrite <- !(assoc_L (++)).
    + intros c' s' Hin. apply Hv. by right.
Qed.

Lemma inOrder_spec t h fuel n s :
  S h ≤ fuel → shape t h n → inOrder f fuel n s = foldR f s (elems n).
Proof.
  revert h n s. induction fuel as [|fuel IH]; intros h n s Hf Hs; [lia|].
  destruct (shape_lengths _ _ _ Hs) as [Hv _]. cbn [inOrder].
  destruct h as [|h].
  - destruct (shape_leaf_inv _ _ Hs) as [Hc Hl].
    rewrite (inOrderLoop_spec _ n [] (keys n) [] (values n) [] []); try done.
    + rewrite Hl. destruct n as [ks vs cs]. simpl in *. subst. rewrite elems_leaf.
      by destruct (foldR f s (zip ks vs)).
    + destruct n. simpl in *. by subst.
    + by rewrite Hl.
    + intros c s'. by intros ?%elem_of_nil.
  - pose proof (shape_S_nonleaf _ _ _ Hs) as Hl. destruct Hs as (_ & _ & Hc & Hfc).
    destruct n as [ks vs cs]. simpl in Hv, Hc, Hfc.
    rewrite (inOrderLoop_spec _ _ [] ks [] vs [] cs); try done.
    + rewrite Hl. destruct (snoc_inv cs) as (cl & c & ->); [lia|].
      rewrite length_app in Hc. simpl in Hc. apply Forall_app in Hfc as [_ Hfc].
      apply Forall_cons in Hfc as [[_ Hfc] _]. cbn [children]. rewrite last_snoc.
      rewrite <- (app_nil_r ks) at 2. rewrite <- (app_nil_r vs) at 2.
      rewrite elems_cut by lia. simpl. rewrite app_nil_r, foldR_app.
      replace (zip ks vs) with (zip ks vs ++ []) at 1 by apply app_nil_r.
      rewrite pre_app, app_nil_r by (rewrite length_zip_eq; lia).
      destruct (foldR f s (pre cl (zip ks vs))); simpl; [|done|done]. apply (IH h); [lia|done].
    + rewrite Hl. simpl. lia.
    + intros c s' Hin. apply (IH h); [lia|].
      by apply (proj1 (Forall_forall _ _) Hfc c Hin).
Qed.

Lemma forEachInOrder_spec (b : BTree K V) l s :
  represents b l → forEachInOrder f b s = foldR f s l.
Proof.
  intros (_ & _ & _ & Hr). unfold forEachInOrder. destruct (root_ b) as [n|]; simpl in Hr.
  - destruct Hr as (_ & -> & h & Hs). rewrite (depth_shape (t_ b) h) by done.
    by apply (inOrder_spec (t_ b) h).
  - by subst.
Qed.

(** ** Range scan *)

(** What is left of a node from its key index on; for an internal node that
    includes the child at that index. *)
Definition from_cut n (kr : list K) (vr : list V) (cr : list (Node K V)) : list (K * V) :=
  if isLeaf n then zip kr vr
  else match cr with [] => [] | c :: cr' => elems c ++ suf (zip kr vr) cr' end.

Lemma rangeLoop_spec (visit : Node K V → A → result A) n lo hi kl kr vl vr cl cr m i s :
  n = mkNode (kl ++ kr) (vl ++ vr) (cl ++ cr) → m = S (length kr) → i = length kl →
  length vl = length kl → length vr = length kr →
  (if isLeaf n then True else length cl = length kl ∧ length cr = S (length kr)) →
  Forall (λ k, kltb k lo = false) kr → ksorted (from_cut n kr vr cr) →
  (∀ c s, c ∈ cr → ksorted (elems c) → visit c s = foldR f s (al_range lo hi (elems c))) →
  rangeLoop f visit n hi m i s = foldR f s (al_range lo hi (from_cut n kr vr cr)).
Proof.
  intros Hn -> Hi Hvl Hvr. revert kl vl cl vr cr i s Hn Hi Hvl Hvr.
  induction kr as [|k kr IH]; intros kl vl cl vr cr i s Hn -> Hvl Hvr Hc Hlo Hso Hv.
  - cbn [length rangeLoop]. destruct vr; [|done].
    assert (Hstep : (if isLeaf n then Val s else c ← at_ (children n) (length kl); visit c s) =
      foldR f s (al_range lo hi (from_cut n [] [] cr))).
    { unfold from_cut in *. destruct (isLeaf n); [done|]. destruct Hc as [Hc1 Hc2].
      destruct cr as [|c cr]; [done|]. rewrite Hn. cbn [children]. vec_run. simpl suf in *.
      rewrite app_nil_r in *. apply Hv; [by left|done]. }
    assert (Hkn : keys n = kl) by (rewrite Hn; apply app_nil_r).
    rewrite Hstep, Hkn, bool_decide_eq_true_2 by done. by destruct (foldR f s _).
  - set (m := length (k :: kr)). cbn [rangeLoop].
    destruct vr as [|v vr]; [done|]. apply Forall_cons in Hlo as [Hk Hlo].
    set (here := if isLeaf n then [] else match cr with [] => [] | c :: _ => elems c end).
    set (cr1 := match cr with [] => [] | _ :: cr' => cr' end).
    assert (Hcut : from_cut n (k :: kr) (v :: vr) cr = here ++ (k, v) :: from_cut n kr vr cr1).
    { unfold from_cut, here, cr1. destruct (isLeaf n); [done|]. destruct Hc as [Hc1 Hc2].
      destruct cr as [|c [|c2 cr]]; done. }
    assert (Hkn : keys n = kl ++ k :: kr) by by rewrite Hn.
    assert (Hvn : values n = vl ++ v :: vr) by by rewrite Hn.
    rewrite Hcut in Hso |- *. apply ksorted_mid in Hso as (Hb & Ha & Hs1 & Hs2). simpl in Hb, Ha.
    assert (Hstep : (if isLeaf n then Val s else c ← at_ (children n) (length kl); visit c s) =
      foldR f s (al_range lo hi here)).
    { unfold here in *. destruct (isLeaf n); [done|]. destruct Hc as [Hc1 Hc2].
      destruct cr as [|c cr]; [done|]. rewrite Hn. cbn [children]. vec_run. apply Hv; [by left|done]. }
    rewrite Hstep, al_range_app, foldR_app. clear Hstep.
    destruct (foldR f s (al_range lo hi here)) as [s1| |]; cbn [mbind result_bind]; [|done|done].
    rewrite Hkn, Hvn. rewrite bool_decide_eq_false_2 by (rewrite length_app; simpl; lia). vec_run.
    destruct (kltb hi k) eqn:Ehi.
    { rewrite al_range_above; [done|]. constructor; [done|]. by eapply above_trans. }
    rewrite al_range_cons_in by (unfold in_range; simpl; by rewrite Hk, Ehi). simpl.
    destruct (f s1 (k, v)) as [s2| |]; cbn [mbind result_bind]; [|done|done].
    apply (IH (kl ++ [k]) (vl ++ [v]) (match cr with [] => cl | c :: _ => cl ++ [c] end) vr cr1);
      rewrite ?length_app; simpl in *; try done; try lia.
    + rewrite Hn. unfold cr1. destruct cr; by rewrite <- !(assoc_L (++)).
    + unfold cr1. destruct (isLeaf n); [done|]. destruct Hc as [Hc1 Hc2]. destruct cr; [done|].
      rewrite length_app. simpl in *. lia.
    + intros c s' Hin. apply Hv. unfold cr1 in Hin. destruct cr; [done|by right].
Qed.

Lemma rangeVisit_spec t h fuel n lo hi s :
  S h ≤ fuel → shape t h n → ksorted (elems n) →
  rangeVisit f fuel n lo hi s = foldR f s (al_range lo hi (elems n)).
Proof.
  revert h n s. induction fuel as [|fuel IH]; intros h n s Hf Hs Hso; [lia|]. cbn [rangeVisit].
  destruct h as [|h].
  - pose proof (shape_leaf_inv _ _ Hs) as [_ Hl].
    destruct (leaf_view t n lo Hs Hso) as
      (kl & kr & vl & vr & Hn & Hkl & Hvl & Hvr & Hb & Hcase).
    assert (Hlo : Forall (λ k, kltb k lo = false) kr).
    { destruct Hcase as [(kr' & v & vr' & -> & -> & Ha & _) | [Ha _]].
      - constructor; [apply kltb_irrefl|]. clear -Ha Hvr H0. revert vr' Hvr Ha.
        induction kr' as [|k kr' IH]; intros [|v' vr'] Hvr Ha; simpl in *; try lia; [done|].
        apply Forall_cons in Ha as [Ha1 Ha2]. constructor; [by apply lt_nlt|]. apply (IH vr'); [lia|done].
      - clear -Ha Hvr H0. revert vr Hvr Ha.
        induction kr as [|k kr' IH]; intros [|v' vr'] Hvr Ha; simpl in *; try lia; [done|].
        apply Forall_cons in Ha as [Ha1 Ha2]. constructor; [by apply lt_nlt|]. apply (IH vr'); [lia|done]. }
    rewrite <- Hkl. rewrite (rangeLoop_spec _ n lo hi kl kr vl vr [] []); try done.
    + unfold from_cut. rewrite Hl. subst n. rewrite elems_leaf, zip_app_len by done.
      by rewrite al_range_app, (al_range_below lo hi (zip kl vl)).
    + subst n. simpl. rewrite length_app. lia.
    + by rewrite Hl.
    + unfold from_cut. rewrite Hl. subst n. rewrite elems_leaf, zip_app_len in Hso by done.
      by apply ksorted_app in Hso as (_ & _ & Hso).
    + by intros c s' ?%elem_of_nil.
  - pose proof (shape_S_nonleaf _ _ _ Hs) as Hl.
    destruct (node_view t h n lo Hs Hso) as
      (kl & kr & vl & vr & cl & c & cr & Hn & Hcl & Hkl & Hvl & Hkr & Hvr & Hf1 & Hc & Hf2 & Hm & Hb & Hcase).
    assert (Hlo : Forall (λ k, kltb k lo = false) kr).
    { assert (Hgt : ∀ (kr : list K) (vr : list V) cr, length kr = length cr → length vr = length cr →
          above lo (suf (zip kr vr) cr) → Forall (λ k, kltb k lo = false) kr).
      { clear -H0. induction kr as [|k kr IH]; intros [|v vr] [|c cr] Hk Hv Ha; try done.
        simpl in *. apply Forall_cons in Ha as [Ha1 Ha2]. apply above_app in Ha2 as [_ Ha2].
        constructor; [by apply lt_nlt|]. apply (IH vr cr); try done; lia. }
      destruct Hcase as [(kr' & v & vr' & c' & cr' & -> & -> & -> & Hbc & Ha & _) | [Ha _]].
      - apply above_app in Ha as [_ Ha]. simpl in *.
        constructor; [apply kltb_irrefl|]. apply (Hgt kr' vr' cr'); [lia|lia|done].
      - by apply (Hgt kr vr cr). }
    rewrite <- Hcl. rewrite (rangeLoop_spec _ n lo hi kl kr vl vr cl (c :: cr)); try done; try lia.
    + unfold from_cut. rewrite Hl. subst n. rewrite elems_cut by lia.
      by rewrite (al_range_app _ _ (pre _ _)), (al_range_below lo hi (pre _ _)).
    + subst n. simpl. rewrite length_app. lia.
    + rewrite Hl. simpl. lia.
    + unfold from_cut. rewrite Hl. subst n. rewrite elems_cut in Hso by lia.
      by apply ksorted_app in Hso as (_ & _ & Hso).
    + intros c' s' Hin Hs'. apply (IH h); [lia| |done].
      apply elem_of_cons in Hin as [->|Hin]; [apply Hc|].
      by apply (proj1 (Forall_forall _ _) Hf2).
Qed.

Lemma forEachRange_spec (b : BTree K V) l lo hi s :
  represents b l → forEachRange f b lo hi s = foldR f s (al_range lo hi l).
Proof.
  intros (_ & Hso & _ & Hr). unfold forEachRange. destruct (root_ b) as [n|]; simpl in Hr.
  - destruct Hr as (_ & -> & h & Hs). rewrite (depth_shape (t_ b) h) by done.
    by apply (rangeVisit_spec (t_ b) h).
  - by subst.
Qed.
End visit.

(** ** Height *)
Lemma heightNode_spec t h fuel n : S h ≤ fuel → shape t h n → heightNode fuel n = Val (S h).
Proof.
  revert h n. induction fuel as [|fuel IH]; intros h n Hf Hs; [lia|]. cbn [heightNode].
  destruct h as [|h].
  - by destruct (shape_leaf_inv _ _ Hs) as [_ ->].
  - rewrite (shape_S_nonleaf _ _ _ Hs).
    destruct (shape_cut t h n 0 Hs) as
      (kl & kr & vl & vr & cl & c & cr & -> & Hcl & _ & _ & _ & _ & _ & Hc & _); [lia|].
    cbn [children]. vec_run. rewrite (IH h c) by (lia || apply Hc). simpl. f_equal. lia.
Qed.

(** A sub-tree of height [h] in the middle of a tree holds at least [t^(h+1) - 1]
    entries. *)
Lemma suf_length es cs m :
  length es = length cs → Forall (λ c, m ≤ length (elems c)) cs →
  length es * S m ≤ length (suf es cs).
Proof.
  revert cs. induction es as [|e es IH]; intros [|c cs] Hl Hf; simpl in *; try lia.
  apply Forall_cons in Hf as [Hc Hf]. specialize (IH cs). rewrite length_app.
  assert (length es * S m ≤ length (suf es cs)) by (apply IH; [lia|done]). lia.
Qed.

Lemma elems_length t h n :
  1 ≤ t → shape t h n → length (keys n) + 1 ≤ length (elems n) + 1 ∧
  (length (keys n) + 1) * t ^ h ≤ length (elems n) + 1.
Proof.
  intros Ht. revert n. induction h as [|h IH]; intros n Hs.
  - destruct (shape_lengths _ _ _ Hs) as [Hv _]. destruct Hs as (_ & _ & Hc).
    destruct n as [ks vs cs]. simpl in *. subst. rewrite elems_leaf, length_zip_eq by done. lia.
  - destruct (shape_cut t h n 0 Hs) as
      (kl & kr & vl & vr & cl & c & cr & -> & Hcl & Hkl & Hvl & Hkr & Hvr & _ & Hc & Hf & _); [lia|].
    destruct cl, kl, vl; try done. simpl app. rewrite elems_cons, length_app. cbn [keys].
    assert (Hm : ∀ c, ok t h c → t ^ S h - 1 ≤ length (elems c)).
    { intros c0 [Hk0 Hs0]. destruct (IH c0 Hs0) as [_ IH0].
      assert (t ^ S h ≤ (length (keys c0) + 1) * t ^ h).
      { simpl. apply Nat.mul_le_mono_r. lia. }
      lia. }
    assert (Hsl : length (zip kr vr) * S (t ^ S h - 1) ≤ length (suf (zip kr vr) cr)).
    { apply suf_length; [rewrite length_zip_eq; lia|].
      eapply Forall_impl; [exact Hf|]. simpl. apply Hm. }
    specialize (Hm c Hc). rewrite length_zip_eq in Hsl by lia.
    assert (1 ≤ t ^ S h) by (pose proof (Nat.pow_nonzero t (S h)); lia).
    replace (S (t ^ S h - 1)) with (t ^ S h) in Hsl by lia.
    assert (length kr ≤ length kr * t ^ S h) by nia. lia.
Qed.

Lemma height_spec (b : BTree K V) l :
  represents b l →
  ∃ h, height b = Val h ∧ (l = [] → h = 0) ∧ (l ≠ [] → 2 * t_ b ^ (h - 1) ≤ length l + 1).
Proof.
  intros (Ht & _ & _ & Hr). unfold height. destruct (root_ b) as [n|]; simpl in Hr.
  - destruct Hr as (Hk & -> & h & Hs). rewrite (depth_shape (t_ b) h) by done.
    rewrite (heightNode_spec (t_ b) h) by done. exists (S h). split; [done|].
    destruct (elems_length (t_ b) h n) as [Hl1 Hl2]; [lia|done|]. split.
    + intros He. rewrite He in Hl1. simpl in Hl1. lia.
    + intros _. simpl. rewrite Nat.sub_0_r.
      assert (2 * t_ b ^ h ≤ (length (keys n) + 1) * t_ b ^ h) by (apply Nat.mul_le_mono_r; lia). lia.
  - exists 0. by subst.
Qed.
End Query.
