(* ===== verification/BTreeCheck.v ===== *)
(** * B-tree: the invariant check

    [checkInvariants] decides the representation invariant: on every tree of
    nodes in memory, well formed or not and null children included, it terminates
    without an out-of-range access and answers true exactly when every child is
    set and the tree represents some ordered list.  It is undefined only where
    [2 * t_ - 1] or a depth leaves the range of [int]. *)

From S2P Require Import Prelude AssocList BTree BTreeShape.

Section Check.
Context {K V : Type} `{KeyLaws K}.
Implicit Types (n c : Node K V) (k : K) (lo hi : option K).

(** Sorted entries strictly between two optional limits. *)
Definition within lo hi (l : list (K * V)) : Prop :=
  Forall (λ e, aboveLimit lo e.1 = true ∧ belowLimit hi e.1 = true) l.
Definition seg lo hi (l : list (K * V)) : Prop := ksorted l ∧ within lo hi l.

(** A child followed by separators and children, each child between its separators. *)
Fixpoint segs lo hi (ks : list K) (cs : list (Node K V)) : Prop :=
  match ks, cs with
  | [], [c] => seg lo hi (elems c)
  | k :: ks', c :: cs' =>
      aboveLimit lo k = true ∧ belowLimit hi k = true ∧
      seg lo (Some k) (elems c) ∧ segs (Some k) hi ks' cs'
  | _, _ => False
  end.

Fixpoint chain lo hi (ks : list K) : Prop :=
  match ks with
  | [] => True
  | k :: ks' => aboveLimit lo k = true ∧ belowLimit hi k = true ∧ chain (Some k) hi ks'
  end.

Lemma above_limit_trans lo k1 k2 : aboveLimit lo k1 = true → k1 ≺ k2 → aboveLimit lo k2 = true.
Proof. destruct lo; simpl; [|done]. intros. by eapply kltb_trans. Qed.

Lemma below_limit_trans hi k1 k2 : belowLimit hi k2 = true → k1 ≺ k2 → belowLimit hi k1 = true.
Proof. destruct hi; simpl; [|done]. intros. by eapply kltb_trans. Qed.

Lemma checkKeys_chain prev lo hi ks :
  (∀ p, prev = Some p → aboveLimit lo p = true) →
  checkKeys prev lo hi ks = true ↔
  chain (match prev with Some p => Some p | None => lo end) hi ks.
Proof.
  revert prev. induction ks as [|k ks IH]; intros prev Hp; simpl; [done|].
  rewrite !andb_true_iff. destruct prev as [p|]; simpl in *.
  - split.
    + intros (((H1 & H2) & H3) & H4). apply IH in H4; [done|]. by intros ? [= <-].
    + intros (H1 & H2 & H3). pose proof (above_limit_trans lo p k (Hp p eq_refl) H1).
      split_and!; try done. apply IH; [|done]. by intros ? [= <-].
  - split.
    + intros (((H1 & H2) & H3) & H4). apply IH in H4; [done|]. by intros ? [= <-].
    + intros (H1 & H2 & H3). split_and!; try done. apply IH; [|done]. by intros ? [= <-].
Qed.

Lemma seg_leaf lo hi ks (vs : list V) :
  length vs = length ks → seg lo hi (zip ks vs) ↔ chain lo hi ks.
Proof.
  revert lo vs. induction ks as [|k ks IH]; intros lo [|v vs] Hl; try done.
  { split; [done|]. intros _. split; constructor. }
  simpl in *. unfold seg, within. rewrite ksorted_cons, Forall_cons. simpl.
  rewrite <- (IH (Some k) vs) by lia. unfold seg, within.
  split.
  - intros ((Ha & Hs) & (H1 & H2) & Hw). split_and!; try done.
    apply Forall_forall. intros e He. simpl.
    split; [by apply (proj1 (Forall_forall _ _) Ha)|by apply (proj1 (Forall_forall _ _) Hw)].
  - intros (H1 & H2 & Hs & Hw). split_and!; try done.
    + eapply Forall_impl; [exact Hw|]. simpl. tauto.
    + eapply Forall_impl; [exact Hw|]. simpl. intros e [He1 He2]. split; [|done].
      by eapply above_limit_trans.
Qed.

Lemma seg_node lo hi ks (vs : list V) c cs :
  length vs = length ks → length cs = length ks →
  seg lo hi (elems c ++ suf (zip ks vs) cs) ↔ segs lo hi ks (c :: cs).
Proof.
  revert lo vs c cs. induction ks as [|k ks IH]; intros lo [|v vs] c [|c' cs] Hv Hc; try done.
  { simpl. by rewrite app_nil_r. }
  cbn [segs zip zip_with suf] in *. simpl in Hv, Hc. rewrite <- (IH (Some k) vs c' cs) by lia.
  unfold seg, within. rewrite !Forall_app, Forall_cons.
  split.
  - intros [Hs (Hw1 & (H1 & H2) & Hw2)]. apply ksorted_mid in Hs as (Hb & Ha & Hs1 & Hs2). simpl in *.
    apply Forall_app in Hw2 as [Hw2 Hw3]. apply above_app in Ha as [Ha1 Ha2].
    split_and!; try done; apply Forall_forall; intros e He; split;
      first [by apply (proj1 (Forall_forall _ _) Hw1) | by apply (proj1 (Forall_forall _ _) Hb)
            |by apply (proj1 (Forall_forall _ _) Ha1) | by apply (proj1 (Forall_forall _ _) Ha2)
            |by apply (proj1 (Forall_forall _ _) Hw2) | by apply (proj1 (Forall_forall _ _) Hw3)].
  - intros (H1 & H2 & (Hs1 & Hw1) & Hs2 & Hw2 & Hw3). split.
    + apply ksorted_glue_mid; try done.
      * eapply Forall_impl; [exact Hw1|]. simpl. tauto.
      * apply above_app. split; (eapply Forall_impl; [eassumption|]); simpl; tauto.
    + split_and!; try done.
      * eapply Forall_impl; [exact Hw1|]. simpl. intros e [He1 He2]. split; [done|].
        by eapply below_limit_trans.
      * apply Forall_app. split; (eapply Forall_impl; [eassumption|]); simpl; intros e [He1 He2];
          (split; [by eapply above_limit_trans|done]).
Qed.

Lemma segs_chain lo hi ks cs : segs lo hi ks cs → chain lo hi ks.
Proof.
  revert lo cs. induction ks as [|k ks IH]; intros lo [|c cs]; simpl; try done.
  intros (H1 & H2 & H3 & H4). split_and!; try done. by eapply IH.
Qed.

(** ** Counting *)
Fixpoint total (cs : list (Node K V)) : nat :=
  match cs with [] => 0 | c :: cs' => length (elems c) + total cs' end.

Lemma suf_total es cs : length es = length cs → length (suf es cs) = length es + total cs.
Proof.
  revert cs. induction es as [|e es IH]; intros [|c cs] Hl; try done.
  simpl in *. rewrite length_app, IH by lia. simpl. lia.
Qed.

(** ** Nodes in memory *)
Lemma depth_child n c : c ∈ children n → depth c < depth n.
Proof.
  destruct n as [ks vs cs]. simpl. intros Hin. apply Nat.lt_succ_r.
  induction cs as [|c' cs IH]; [by apply elem_of_nil in Hin|]. simpl.
  apply elem_of_cons in Hin as [->|Hin]; [lia|]. specialize (IH Hin). lia.
Qed.

Lemma rawDepth_child (r c : RawNode K V) : Some c ∈ rawChildren r → rawDepth c < rawDepth r.
Proof.
  destruct r as [ks vs cs]. simpl. intros Hin. apply Nat.lt_succ_r.
  induction cs as [|c' cs IH]; [by apply elem_of_nil in Hin|]. simpl.
  apply elem_of_cons in Hin as [<-|Hin]; [lia|]. specialize (IH Hin). lia.
Qed.

(** Children that are all set. *)
Definition rawList (cs : list (Node K V)) : list (option (RawNode K V)) := map (λ c, Some (rawOf c)) cs.

Lemma node_size_ind (P : Node K V → Prop) :
  (∀ n, (∀ c, c ∈ children n → P c) → P n) → ∀ n, P n.
Proof.
  intros HP n. remember (depth n) as d eqn:Hd. revert n Hd.
  induction d as [d IH] using lt_wf_ind. intros n ->. apply HP. intros c Hc.
  by eapply IH; [by apply depth_child|].
Qed.

Lemma rawDepth_rawOf n : rawDepth (rawOf n) = depth n.
Proof.
  induction n as [[ks vs cs] IH] using node_size_ind. cbn [rawOf rawDepth depth rawChildren children] in *. f_equal.
  induction cs as [|c cs IHcs]; [done|]. cbn [map foldr]. rewrite IH by left. f_equal.
  apply IHcs. intros c' Hc'. apply IH. by right.
Qed.

Lemma rawOf_inj n1 n2 : rawOf n1 = rawOf n2 → n1 = n2.
Proof.
  revert n2. induction n1 as [[ks vs cs] IH] using node_size_ind. intros [ks2 vs2 cs2].
  cbn [rawOf keys values children] in *. intros [= <- <- Heq]. f_equal.
  revert cs2 Heq. induction cs as [|c cs IHcs]; intros [|c2 cs2] Heq; try done.
  cbn [map] in Heq. injection Heq as Hc Hcs. f_equal; [by apply IH; [left|]|].
  apply IHcs; [|done]. intros c' Hc'. apply IH. by right.
Qed.

(** ** What a check establishes

    [good h w] says that the part that was checked is well formed, of height [h]
    and with [w] entries.  A check at depth [d] accepts exactly then, provided its
    leaves are where [ld] says; it is undefined only when [fits] does not hold. *)
Definition verdict (fits : Prop) (good : nat → nat → Prop) (d : nat) (ld : option nat) (cnt : nat)
    (r : result (bool * checkState)) : Prop :=
  match r with
  | Val (b, st) =>
    (b = true → ∃ h w, good h w ∧ (ld = None ∨ ld = Some (d + h)) ∧ st = (Some (d + h), cnt + w)) ∧
    (∀ h w, good h w → (ld = None ∨ ld = Some (d + h)) → b = true)
  | Throw _ => False
  | Undef => ¬ fits
  end.

Definition occupied (t : nat) (isRoot : bool) (ks : list K) : Prop :=
  if isRoot then 1 ≤ length ks else t - 1 ≤ length ks.

Definition good_node t isRoot lo hi (r : RawNode K V) (h w : nat) : Prop :=
  ∃ n, r = rawOf n ∧ occupied t isRoot (keys n) ∧ shape t h n ∧ seg lo hi (elems n) ∧ w = length (elems n).

Definition good_children t lo hi ks (rs : list (option (RawNode K V))) (h w : nat) : Prop :=
  ∃ cs, rs = rawList cs ∧ Forall (ok t h) cs ∧ segs lo hi ks cs ∧ w = total cs.

Lemma verdict_reject fits good d ld cnt st :
  (∀ h w, ¬ good h w) → verdict fits good d ld cnt (Val (false, st)).
Proof. intros Hn. split; [done|]. intros h w Hg. by destruct (Hn h w). Qed.

Lemma verdict_mono (fits fits' : Prop) good d ld cnt r :
  (fits' → fits) → verdict fits good d ld cnt r → verdict fits' good d ld cnt r.
Proof. destruct r as [[]| |]; simpl; tauto. Qed.

Lemma good_height t isRoot lo hi r h w : good_node t isRoot lo hi r h w → rawDepth r = S h.
Proof. intros (n & -> & _ & Hs & _). rewrite rawDepth_rawOf. by eapply depth_shape. Qed.

Lemma good_children_cons t lo hi ks r rs h w :
  good_children t lo hi ks (r :: rs) h w ↔
  ∃ (c : RawNode K V) w1 w2, r = Some c ∧ w = w1 + w2 ∧
    match ks with
    | [] => good_node t false lo hi c h w1 ∧ rs = [] ∧ w2 = 0
    | s :: ks' => aboveLimit lo s = true ∧ belowLimit hi s = true ∧
        good_node t false lo (Some s) c h w1 ∧ good_children t (Some s) hi ks' rs h w2
    end.
Proof.
  split.
  - intros ([|c cs] & Heq & Hok & Hseg & ->); [done|]. injection Heq as -> ->.
    apply Forall_cons in Hok as [[Ho Hs] Hok]. exists (rawOf c), (length (elems c)), (total cs).
    split; [done|]. split; [done|]. destruct ks as [|s ks].
    + destruct cs; [|done]. split; [|done]. by exists c.
    + destruct Hseg as (H1 & H2 & H3 & H4). split_and!; try done; [by exists c|by exists cs].
  - intros (c & w1 & w2 & -> & -> & Hks). destruct ks as [|s ks].
    + destruct Hks as ((n & -> & Ho & Hs & Hseg & ->) & -> & ->). exists [n]. split_and!; try done; by repeat constructor.
    + destruct Hks as (H1 & H2 & (n & -> & Ho & Hs & Hseg & ->) & (cs & -> & Hok & Hsegs & ->)).
      exists (n :: cs). split_and!; try done. by constructor.
Qed.

(** ** The loop over the children *)
Lemma checkChildren_spec t d fits check (n : RawNode K V) kl kr cl cr lo hi ld cnt m i lower :
  rawKeys n = kl ++ kr → rawChildren n = cl ++ cr → i = length kl → length cl = length kl →
  m = length cr → length cr = S (length kr) →
  lower = (match last kl with Some k => Some k | None => lo end) →
  chain lower hi kr →
  (∀ (c : RawNode K V) lo hi ld cnt, Some c ∈ cr → verdict fits (good_node t false lo hi c) d ld cnt (check c lo hi (ld, cnt))) →
  verdict fits (good_children t lower hi kr cr) d ld cnt (checkChildren check n lo hi m i (ld, cnt)).
Proof.
  intros Hk Hc Hi Hcl Hm. subst m. revert kl cl kr lower ld cnt i Hk Hc Hi Hcl.
  induction cr as [|o cr IH]; intros kl cl kr lower ld cnt i Hk Hc Hi Hcl Hlen Hlow Hch Hgood; [done|].
  cbn [length checkChildren].
  assert ((if bool_decide (i = 0) then Val lo else k ← at_ (rawKeys n) (i - 1); Val (Some k)) = Val lower) as ->.
  { subst. rewrite Hk. destruct kl as [|k kl _] using rev_ind; [done|].
    rewrite last_snoc, length_app. simpl. bdec. rewrite <- (assoc_L (++)). simpl. by vec_run. }
  cbn [mbind result_bind].
  set (upper := match kr with [] => hi | k :: _ => Some k end).
  assert ((if bool_decide (i = length (rawKeys n)) then Val hi else k ← at_ (rawKeys n) i; Val (Some k)) = Val upper) as ->.
  { subst i. rewrite Hk. unfold upper. destruct kr as [|k kr].
    - rewrite app_nil_r. by rewrite bool_decide_eq_true_2.
    - rewrite bool_decide_eq_false_2 by (rewrite length_app; simpl; lia). by vec_run. }
  cbn [mbind result_bind]. rewrite Hc. vec_run.
  destruct o as [c|].
  2: { apply verdict_reject. intros h w (c & _ & _ & [=] & _)%good_children_cons. }
  assert (Hv : verdict fits (good_node t false lower upper c) d ld cnt (check c lower upper (ld, cnt)))
    by (apply Hgood; by left).
  destruct (check c lower upper (ld, cnt)) as [[b1 [ld1 cnt1]]| |]; [|done|done].
  destruct Hv as [Hb1 Hb2]. cbn [mbind result_bind]. destruct b1.
  2: { split; [done|]. intros h w (c' & w1 & w2 & [= <-] & -> & Hks)%good_children_cons Hld.
       apply (Hb2 h w1); [|done]. unfold upper. destruct kr; tauto. }
  destruct (Hb1 eq_refl) as (h & w & Hc1 & Hld & [= -> ->]). clear Hb1 Hb2. destruct kr as [|k kr].
  { destruct cr; [|done]. split; [|done]. intros _. exists h, w. split; [|done].
    apply good_children_cons. exists c, w, 0. split_and!; try done. }
  simpl in Hlen, Hch. destruct Hch as (Hch1 & Hch2 & Hch3).
  assert (Hrest : verdict fits (good_children t (Some k) hi kr cr) d (Some (d + h)) (cnt + w)
            (checkChildren check n lo hi (length cr) (i + 1) (Some (d + h), cnt + w))).
  { apply (IH (kl ++ [k]) (cl ++ [Some c])); rewrite ?length_app, ?last_snoc, <- ?(assoc_L (++)); simpl; try done; try lia.
    intros c' lo' hi' ld' cnt' Hin. apply Hgood. by right. }
  destruct (checkChildren _ _ _ _ _ _ _) as [[b st]| |]; [|done|done]. destruct Hrest as [Hr1 Hr2]. split.
  - intros Hb. destruct (Hr1 Hb) as (h' & w' & Hg & [?|[= Heq]] & ->); [done|].
    assert (h' = h) as -> by lia. exists h, (w + w'). split; [|split; [done|f_equal; lia]].
    apply good_children_cons. by exists c, w, w'.
  - intros h' w' (c' & w1 & w2 & [= <-] & -> & H1 & H2 & Hg1 & Hg2)%good_children_cons _.
    apply good_height in Hc1, Hg1. assert (h' = h) as -> by lia. eapply Hr2; [done|by right].
Qed.

(** ** A node *)
Lemma node_chain t h n lo hi : shape t h n → seg lo hi (elems n) → chain lo hi (keys n).
Proof.
  destruct n as [ks vs cs]. intros Hs Hseg. destruct h; destruct Hs as (Hv & _ & Hc); simpl in *.
  - subst cs. rewrite elems_leaf in Hseg. by apply seg_leaf in Hseg.
  - destruct Hc as [Hc _]. destruct cs as [|c cs]; [done|]. rewrite elems_cons in Hseg.
    simpl in Hc. apply seg_node in Hseg; [|done|lia]. by apply segs_chain in Hseg.
Qed.

(** What a node must have before its children are looked at. *)
Record node_fine t isRoot lo hi (ks : list K) (vs : list V) : Prop := {
  nf_values : length vs = length ks;
  nf_most : length ks ≤ 2 * t - 1;
  nf_least : occupied t isRoot ks;
  nf_chain : chain lo hi ks;
}.

Lemma good_fine t isRoot lo hi r h w :
  good_node t isRoot lo hi r h w → node_fine t isRoot lo hi (rawKeys r) (rawValues r).
Proof.
  intros (n & -> & Ho & Hs & Hseg & _). pose proof (node_chain _ _ _ _ _ Hs Hseg).
  apply shape_lengths in Hs as [??]. by destruct n.
Qed.

Lemma good_leaf t isRoot lo hi ks vs h w :
  node_fine t isRoot lo hi ks vs → good_node t isRoot lo hi (mkRaw ks vs []) h w ↔ h = 0 ∧ w = length ks.
Proof.
  intros [Hv Hm Ho Hc]. split.
  - intros ([ks' vs' cs] & Heq & _ & Hs & _ & ->). injection Heq as <- <- Hcs. symmetry in Hcs.
    apply map_eq_nil in Hcs as ->. rewrite elems_leaf, length_zip_eq by done. split; [|done].
    destruct h; [done|]. by destruct Hs as (_ & _ & ? & _).
  - intros [-> ->]. exists (mkNode ks vs []). rewrite elems_leaf, length_zip_eq by done.
    split_and!; try done. by apply seg_leaf.
Qed.

Lemma good_children_length t isRoot lo hi ks vs r rs h w :
  good_node t isRoot lo hi (mkRaw ks vs (r :: rs)) h w → length (r :: rs) = length ks + 1.
Proof.
  intros ([ks' vs' cs] & Heq & _ & Hs & _). injection Heq as <- <- Hcs. rewrite Hcs, length_map.
  destruct h; destruct Hs as (_ & _ & Hs); simpl in Hs; [by subst|lia].
Qed.

Lemma good_inner t isRoot lo hi ks vs rs h w :
  node_fine t isRoot lo hi ks vs → length rs = length ks + 1 →
  good_node t isRoot lo hi (mkRaw ks vs rs) h w ↔
  ∃ h1 w1, h = S h1 ∧ w = length ks + w1 ∧ good_children t lo hi ks rs h1 w1.
Proof.
  intros [Hv Hm Ho Hc] Hlen.
  assert (Hw : ∀ c cs, length cs = length ks →
    length (elems c ++ suf (zip ks vs) cs) = length ks + total (c :: cs)).
  { intros c cs Hl. rewrite length_app, suf_total, length_zip_eq by (rewrite ?length_zip_eq; lia). simpl. lia. }
  split.
  - intros ([ks' vs' cs] & Heq & _ & Hs & Hseg & ->). injection Heq as <- <- ->. rewrite length_map in Hlen.
    destruct h as [|h]; [destruct Hs as (_ & _ & Hs); simpl in Hs; subst; simpl in Hlen; lia|]. destruct Hs as (_ & _ & _ & Hok).
    destruct cs as [|c cs]; [simpl in Hlen; lia|]. simpl in Hlen. rewrite elems_cons in *. rewrite Hw by lia.
    exists h, (total (c :: cs)). split_and!; try done. exists (c :: cs).
    apply seg_node in Hseg; [|done|lia]. by split_and!.
  - intros (h1 & w1 & -> & -> & cs & -> & Hok & Hseg & ->). unfold rawList in Hlen. rewrite length_map in Hlen.
    destruct cs as [|c cs]; [simpl in Hlen; lia|]. simpl in Hlen. exists (mkNode ks vs (c :: cs)).
    rewrite elems_cons, Hw by lia. split_and!; try done; [|by apply seg_node; [|lia|]].
    simpl. split_and!; try done. lia.
Qed.

Lemma verdict_leaf t isRoot lo hi ks vs dep ld cnt fits :
  node_fine t isRoot lo hi ks vs →
  let ld1 := match ld with None => dep | Some d => d end in
  verdict fits (good_node t isRoot lo hi (mkRaw ks vs [])) dep ld cnt
    (Val (bool_decide (ld1 = dep), (Some ld1, cnt + length ks))).
Proof.
  intros Hf ld1. split.
  - intros Hb%bool_decide_eq_true. exists 0, (length ks). rewrite Nat.add_0_r, Hb.
    split; [by apply good_leaf|]. split; [|done]. destruct ld; [right; by f_equal|by left].
  - intros h w [-> ->]%good_leaf Hld; [|done]. apply bool_decide_eq_true. subst ld1.
    destruct Hld as [->| ->]; [done|lia].
Qed.

Lemma verdict_inner t isRoot lo hi ks vs rs dep ld cnt fits r :
  node_fine t isRoot lo hi ks vs → length rs = length ks + 1 →
  verdict fits (good_children t lo hi ks rs) (dep + 1) ld (cnt + length ks) r →
  verdict fits (good_node t isRoot lo hi (mkRaw ks vs rs)) dep ld cnt r.
Proof.
  intros Hf Hlen Hr. destruct r as [[b st]| |]; [|done|done]. destruct Hr as [Hr1 Hr2]. split.
  - intros Hb. destruct (Hr1 Hb) as (h & w & Hg & Hld & ->). exists (S h), (length ks + w).
    replace (dep + S h) with (dep + 1 + h) by lia. split; [apply good_inner; by eauto|].
    split; [done|f_equal; lia].
  - intros h w Hg Hld. apply good_inner in Hg as (h1 & w1 & -> & -> & Hg); [|done|done].
    eapply Hr2; [done|]. by replace (dep + 1 + h1) with (dep + S h1) by lia.
Qed.

(** The degree and the depths below a node are in the range of [int]. *)
Definition int_fits t (dep : nat) (r : RawNode K V) : Prop :=
  degree_fits t ∧ (Z.of_nat (dep + rawDepth r) ≤ INT_MAX + 1)%Z.

Lemma verdict_deeper t isRoot lo hi dep (r c : RawNode K V) ld cnt (f : nat → result (bool * checkState)) :
  rawDepth c < rawDepth r →
  verdict (int_fits t (dep + 1) c) (good_node t isRoot lo hi c) (dep + 1) ld cnt (f (dep + 1)) →
  verdict (int_fits t dep r) (good_node t isRoot lo hi c) (dep + 1) ld cnt (dep1 ← nextDepth dep; f dep1).
Proof.
  intros Hd Hf. unfold nextDepth, int_fits in *.
  assert (0 < rawDepth c) by (destruct c; simpl; lia).
  destruct (bool_decide_reflect (Z.of_nat dep < INT_MAX)%Z) as [Hi|Hi]; cbn [mbind result_bind].
  - eapply verdict_mono; [|done]. intros []. split; [done|]. lia.
  - intros []. lia.
Qed.

Lemma checkNode_spec t fuel (r : RawNode K V) dep isRoot lo hi ld cnt :
  rawDepth r ≤ fuel →
  verdict (int_fits t dep r) (good_node t isRoot lo hi r) dep ld cnt
    (checkNode fuel t r dep isRoot lo hi (ld, cnt)).
Proof.
  revert r dep isRoot lo hi ld cnt.
  induction fuel as [|fuel IH]; intros [ks vs rs] dep isRoot lo hi ld cnt Hf; [simpl in Hf; lia|].
  cbn [checkNode rawKeys rawValues rawChildren].
  destruct (bool_decide_reflect (length vs = length ks)) as [Hv|Hv]; cbn [negb].
  2: { apply verdict_reject. intros h w []%good_fine. done. }
  destruct (negb isRoot && bool_decide (length ks < t - 1)) eqn:Hocc.
  { apply verdict_reject. intros h w [_ _ Ho _]%good_fine. apply andb_true_iff in Hocc as [Hr Hlt].
    apply bool_decide_eq_true in Hlt. destruct isRoot; [done|]. simpl in Ho. lia. }
  destruct (decide (degree_fits t)) as [Hfit|Hfit].
  2: { rewrite maxKeys_overflow by done. simpl. by intros []. }
  rewrite maxKeys_fits by done. cbn [mbind result_bind].
  destruct (bool_decide_reflect (2 * t - 1 < length ks)) as [Hm|Hm].
  { apply verdict_reject. intros h w [_ Hm' _ _]%good_fine. simpl in Hm'. lia. }
  destruct (isRoot && bool_decide (length ks = 0)) eqn:Hroot.
  { apply verdict_reject. intros h w [_ _ Ho _]%good_fine. apply andb_true_iff in Hroot as [-> Hlt].
    apply bool_decide_eq_true in Hlt. simpl in Ho. lia. }
  assert (Hoc : occupied t isRoot ks).
  { destruct isRoot; simpl in *; [apply bool_decide_eq_false in Hroot|apply bool_decide_eq_false in Hocc]; lia. }
  destruct (checkKeys None lo hi ks) eqn:Hck; cbn [negb].
  2: { apply verdict_reject. intros h w [_ _ _ Hc]%good_fine. apply not_true_iff_false in Hck.
       by apply Hck, checkKeys_chain. }
  apply checkKeys_chain in Hck; [|done].
  assert (Hnf : node_fine t isRoot lo hi ks vs) by (split; try done; lia).
  destruct rs as [|r1 rs]; [by apply verdict_leaf|]. cbn [rawLeaf rawChildren]. set (rs' := r1 :: rs) in *.
  destruct (bool_decide_reflect (length rs' = length ks + 1)) as [Hl|Hl]; cbn [negb].
  - apply verdict_inner; [done..|].
    apply (checkChildren_spec _ _ _ _ _ [] ks [] rs'); try done; try lia.
    intros c lo' hi' ld' cnt' Hin. pose proof (rawDepth_child (mkRaw ks vs rs') c Hin) as Hd.
    apply verdict_deeper; [done|]. apply IH. lia.
  - apply verdict_reject. by intros h w ?%good_children_length.
Qed.

(** ** The whole tree *)
Definition tree_fits (b : RawTree K V) : Prop :=
  match rawRoot_ b with Some r => int_fits (rawT_ b) 0 r | None => True end.

(** A tree in memory that is a B-tree: every child is set and the nodes
    represent a sorted list. *)
Definition is_btree (b : RawTree K V) : Prop := ∃ b' l, b = rawTree b' ∧ represents b' l.

Lemma good_root t n h w :
  good_node t true None None (rawOf n) h w ↔
  1 ≤ length (keys n) ∧ shape t h n ∧ ksorted (elems n) ∧ w = length (elems n).
Proof.
  split.
  - intros (n' & <-%rawOf_inj & Ho & Hs & [Hso _] & ->). done.
  - intros (Ho & Hs & Hso & ->). exists n. split_and!; try done. split; [done|].
    apply Forall_forall. by intros.
Qed.

Lemma checkInvariants_spec (b : RawTree K V) :
  2 ≤ rawT_ b →
  match checkInvariants b with
  | Val r => r = true ↔ is_btree b
  | Throw _ => False
  | Undef => ¬ tree_fits b
  end.
Proof.
  intros Ht. unfold checkInvariants, tree_fits, is_btree, represents. destruct b as [[r|] t sz]; cbn [rawRoot_ rawT_ rawSize_] in *.
  - pose proof (checkNode_spec t (rawDepth r) r 0 true None None None 0 (le_n _)) as Hv.
    destruct (checkNode _ _ _ _ _ _ _ _) as [[ok [ld cnt]]| |]; [|done|done].
    cbn [mbind result_bind]. destruct Hv as [Hb1 Hb2]. rewrite andb_true_iff, bool_decide_eq_true. split.
    + intros [Hok <-]. destruct (Hb1 Hok) as (h & w & Hg & _ & [= -> ->]). destruct Hg as (n & -> & Hg).
      exists (mkBTree (Some n) t (length (elems n))), (elems n).
      assert (Hr : good_node t true None None (rawOf n) h w) by (by exists n).
      apply good_root in Hr as (Ho & Hs & Hso & ->). split; [done|]. split_and!; simpl; by eauto.
    + intros ([[n|] t' sz'] & l & [= -> <- ->] & _ & Hso & Hsz & Ho & -> & h & Hs). simpl in Hsz.
      assert (Hg : good_node t true None None (rawOf n) h (length (elems n))) by (by apply good_root).
      assert (Hok : ok = true) by (apply (Hb2 _ _ Hg); by left). split; [done|].
      destruct (Hb1 Hok) as (h' & w' & Hg' & _ & [= _ ->]). apply good_root in Hg' as (_ & _ & _ & ->). done.
  - rewrite bool_decide_eq_true. split.
    + intros ->. exists (mkBTree None t 0), []. split_and!; try done. constructor.
    + intros ([[n|] t' sz'] & l & Heq & _ & _ & Hsz & Hl); [done|]. simpl in *. subst l. injection Heq as <- ->. done.
Qed.

Lemma rawTree_inj (b1 b2 : BTree K V) : rawTree b1 = rawTree b2 → b1 = b2.
Proof.
  destruct b1 as [[n1|] t1 s1], b2 as [[n2|] t2 s2]; intros [=]; subst; try done.
  f_equal. f_equal. by apply rawOf_inj.
Qed.

Lemma checked_represents (b : BTree K V) :
  2 ≤ t_ b → checkInvariants (rawTree b) = Val true → ∃ l, represents b l.
Proof.
  intros Ht Hc. pose proof (checkInvariants_spec (rawTree b) Ht) as Hs. rewrite Hc in Hs.
  destruct (proj1 Hs eq_refl) as (b' & l & <-%rawTree_inj & Hl). by exists l.
Qed.
End Check.
