(* ===== verification/BTreeMain.v ===== *)
(** * B-tree: main theorems

    The tree against its reference, a sorted association list, over every
    history of calls; the traversals; the height; the runtime check. *)

From S2P Require Import Prelude AssocList BTree BTreeShape BTreeInsert BTreeRemove BTreeQuery BTreeCheck.

Section History.
Context {K V : Type} `{KeyOps K} `{!KeyLaws K}.

(** A call of the public interface, and what it returns. *)
Inductive btree_op :=
  | OpInsert (k : K) (v : V)
  | OpRemove (k : K)
  | OpSearch (k : K)
  | OpContains (k : K).
Inductive btree_out := OutBool (b : bool) | OutValue (v : option V).

Definition btree_call (b : BTree K V) (o : btree_op) : result (BTree K V * btree_out) :=
  match o with
  | OpInsert k v => '(b', r) ← insert b k v; Val (b', OutBool r)
  | OpRemove k => '(b', r) ← remove b k; Val (b', OutBool r)
  | OpSearch k => r ← search b k; Val (b, OutValue r)
  | OpContains k => r ← contains b k; Val (b, OutBool r)
  end.

Definition ref_call (l : list (K * V)) (o : btree_op) : list (K * V) * btree_out :=
  match o with
  | OpInsert k v => (al_insert k v l, OutBool (bool_decide (al_lookup k l = None)))
  | OpRemove k => (al_delete k l, OutBool (bool_decide (is_Some (al_lookup k l))))
  | OpSearch k => (l, OutValue (al_lookup k l))
  | OpContains k => (l, OutBool (bool_decide (is_Some (al_lookup k l))))
  end.

(** A history of calls with the returned values, oldest first. *)
Definition btree_calls (b : BTree K V) (ops : list btree_op) : result (BTree K V * list btree_out) :=
  foldR (λ s o, '(b', r) ← btree_call s.1 o; Val (b', s.2 ++ [r])) (b, []) ops.

Definition ref_calls (ops : list btree_op) : list (K * V) * list btree_out :=
  foldl (λ s o, let '(l', r) := ref_call s.1 o in (l', s.2 ++ [r])) ([], []) ops.

Lemma btree_contains_spec (b : BTree K V) l k :
  represents b l → contains b k = Val (bool_decide (is_Some (al_lookup k l))).
Proof.
  intros Hb. unfold contains. rewrite (search_spec b l) by done. simpl.
  by destruct (al_lookup k l).
Qed.

Lemma btree_call_spec b l o :
  represents b l → degree_fits (t_ b) →
  ∃ b', btree_call b o = Val (b', (ref_call l o).2) ∧ represents b' (ref_call l o).1 ∧ t_ b' = t_ b.
Proof.
  intros Hb Hfit. destruct o as [k v|k|k|k]; simpl.
  - destruct (insert_spec b l k v Hb Hfit) as (b' & -> & ? & ?). by exists b'.
  - destruct (remove_spec b l k Hb) as (b' & -> & ? & ?). by exists b'.
  - rewrite (search_spec b l) by done. by exists b.
  - rewrite (btree_contains_spec b l) by done. by exists b.
Qed.

Lemma makeBTree_spec (d : Z) :
  (2 ≤ d ≤ INT_MAX)%Z → ∃ b : BTree K V, makeBTree d = Val b ∧ represents b [] ∧ t_ b = Z.to_nat d.
Proof.
  intros Hd. unfold makeBTree. rewrite bool_decide_eq_true_2 by (unfold INT_MIN; lia). cbn [negb].
  rewrite bool_decide_eq_false_2 by lia. eexists. split; [done|].
  split; [|done]. split; [simpl; lia|]. split; [constructor|done].
Qed.

(** C4: For every minimum degree from 2 up to 2^30 - 1, the largest for which
    the [int] expression [2 * t_ - 1] does not overflow, and every sequence of
    insert, remove, search and contains calls on a new B-tree, the calls return
    (no index of a node is out of range, no arithmetic overflows, every recursion
    ends), each returns what a sorted association list returns, and the final
    tree stands for that list and satisfies the B-tree invariants. *)
Theorem btree_history (d : Z) (ops : list btree_op) :
  (2 ≤ d < 2 ^ 30)%Z →
  ∃ b b', makeBTree d = Val b ∧
    btree_calls b ops = Val (b', (ref_calls ops).2) ∧
    represents b' (ref_calls ops).1.
Proof.
  intros Hd. destruct (makeBTree_spec d) as (b & -> & Hb & Hdeg); [unfold INT_MAX; lia|]. exists b.
  assert (Hfit : degree_fits (t_ b)) by (rewrite Hdeg; unfold degree_fits, INT_MAX; lia).
  unfold btree_calls, ref_calls.
  enough (∀ l outs b, represents b l → degree_fits (t_ b) →
    ∃ b', foldR (λ s o, '(b', r) ← btree_call s.1 o; Val (b', s.2 ++ [r])) (b, outs) ops =
        Val (b', (foldl (λ s o, let '(l', r) := ref_call s.1 o in (l', s.2 ++ [r])) (l, outs) ops).2) ∧
      represents b' (foldl (λ s o, let '(l', r) := ref_call s.1 o in (l', s.2 ++ [r])) (l, outs) ops).1)
    as Hgen by (destruct (Hgen [] [] b Hb Hfit) as (b' & ? & ?); eauto).
  clear b Hb Hdeg Hfit. induction ops as [|o ops IH]; intros l outs b Hb Hfit; [by exists b|].
  cbn [foldR foldl fst snd]. destruct (btree_call_spec b l o Hb Hfit) as (b1 & -> & Hb1 & Hdeg).
  cbn [mbind result_bind]. destruct (ref_call l o) as [l1 r]. apply IH; [done|by rewrite Hdeg].
Qed.

(** From 2^30 on the constructor still accepts the degree, and the second
    insertion is undefined. *)
Lemma btree_degree_overflow (d : Z) k1 v1 k2 v2 :
  (2 ^ 30 ≤ d ≤ INT_MAX)%Z →
  ∃ b, makeBTree d = Val b ∧ btree_calls b [OpInsert k1 v1; OpInsert k2 v2] = Undef.
Proof.
  intros Hd. destruct (makeBTree_spec d) as (b & Hb & (_ & _ & _ & Hr) & Hdeg); [lia|].
  assert (Hfit : ¬ degree_fits (t_ b)) by (rewrite Hdeg; unfold degree_fits, INT_MAX in *; lia).
  exists b. split; [done|]. unfold makeBTree in Hb. repeat case_match; simplify_eq.
  unfold btree_calls. cbn [foldR btree_call fst snd BTree.insert root_ t_ mbind result_bind] in *.
  unfold isFull. by rewrite (maxKeys_overflow _ Hfit).
Qed.

(** C31: A B-tree that passes [checkInvariants] holds some sorted list of
    entries, and for all bounds the pruned range scan visits exactly the entries
    whose key lies between them, in ascending order, and the in-order traversal
    visits all of them. *)
Theorem btree_range_scan (b : BTree K V) :
  2 ≤ t_ b → checkInvariants (rawTree b) = Val true →
  ∃ l, represents b l ∧
    (∀ A (f : A → K * V → result A) s, forEachInOrder f b s = foldR f s l) ∧
    ∀ lo hi A (f : A → K * V → result A) s,
      forEachRange f b lo hi s = foldR f s (base.filter (λ e, in_range lo hi e = true) l).
Proof.
  intros Ht Hc. destruct (checked_represents b Ht Hc) as [l Hl].
  exists l. split; [done|]. split.
  - intros A f s. by apply forEachInOrder_spec.
  - intros lo hi A f s. by apply forEachRange_spec.
Qed.

(** C32: On every tree of nodes in memory, whatever they hold and null children
    included, whose minimum degree is at least 2 and for which [2 * t_ - 1] and
    the depths of the nodes are in the range of [int], [checkInvariants] returns,
    and it returns true exactly when the tree is a B-tree: every child set,
    sorted keys between the separators, node sizes within bounds, all leaves at
    the same depth, and the right size. *)
Theorem btree_check_exact (b : RawTree K V) :
  2 ≤ rawT_ b → tree_fits b → ∃ r, checkInvariants b = Val r ∧ (r = true ↔ is_btree b).
Proof.
  intros Ht Hfit. pose proof (checkInvariants_spec b Ht) as Hc.
  destruct (checkInvariants b) as [r| |]; [by exists r|done|done].
Qed.

(** The height of a B-tree of minimum degree [t] with [n] entries satisfies
    2 * t ^ (h - 1) <= n + 1, so every descent is logarithmic. *)
Theorem btree_height_bound (b : BTree K V) (l : list (K * V)) :
  represents b l →
  ∃ h, height b = Val h ∧ (l = [] → h = 0) ∧ (l ≠ [] → 2 * t_ b ^ (h - 1) ≤ length l + 1).
Proof. apply height_spec. Qed.
End History.

(** ** Instances *)
Definition sample_ops : list (@btree_op Z string) :=
  (λ k, OpInsert k "v") <$> [5; 3; 9; 1; 7; 2; 8; 6; 4; 3]%Z.
Definition sample_tree : BTree Z string :=
  match b ← makeBTree 2; btree_calls b (sample_ops ++ [OpRemove 5%Z; OpSearch 7%Z]) with
  | Val (b, _) => b
  | _ => mkBTree None 2 0
  end.

Lemma btree_history_witness :
  ∃ b b', makeBTree 2 = Val b ∧
    btree_calls b sample_ops = Val (b', (ref_calls sample_ops).2) ∧
    represents b' (ref_calls sample_ops).1.
Proof. apply (btree_history 2 sample_ops). split; reflexivity || discriminate. Defined.

Lemma btree_range_scan_witness :
  ∃ l, represents sample_tree l ∧
    (∀ A (f : A → Z * string → result A) s, forEachInOrder f sample_tree s = foldR f s l) ∧
    ∀ lo hi A (f : A → Z * string → result A) s,
      forEachRange f sample_tree lo hi s = foldR f s (base.filter (λ e, in_range lo hi e = true) l).
Proof. apply (btree_range_scan sample_tree); [vm_compute; lia|vm_compute; reflexivity]. Defined.

(** A node whose second child is null. *)
Definition null_child_tree : RawTree Z string :=
  mkRawTree (Some (mkRaw [5%Z] ["v"] [Some (mkRaw [3%Z] ["v"] []); None])) 2 2.

Lemma btree_check_exact_witness :
  (∃ r, checkInvariants (rawTree sample_tree) = Val r ∧ (r = true ↔ is_btree (rawTree sample_tree))) ∧
  checkInvariants null_child_tree = Val false ∧
  ∃ r, checkInvariants null_child_tree = Val r ∧ (r = true ↔ is_btree null_child_tree).
Proof.
  split; [|split; [vm_compute; reflexivity|]].
  - apply (btree_check_exact (rawTree sample_tree)); [vm_compute; lia|vm_compute; split; discriminate].
  - apply (btree_check_exact null_child_tree); [vm_compute; lia|vm_compute; split; discriminate].
Defined.

Lemma sample_represents : ∃ l, represents sample_tree l.
Proof. apply checked_represents; vm_compute; [lia|reflexivity]. Qed.

Lemma btree_height_bound_witness :
  ∃ l h, represents sample_tree l ∧ height sample_tree = Val h ∧
    (l = [] → h = 0) ∧ (l ≠ [] → 2 * t_ sample_tree ^ (h - 1) ≤ length l + 1).
Proof.
  destruct sample_represents as [l Hl]. exists l.
  destruct (btree_height_bound sample_tree l Hl) as (h & Hh). exists h. split; assumption.
Defined.
