(* ===== verification/HashMap.v ===== *)
(** * Hash map (include/structures/HashMap.hpp): data and operations

    Open addressing with linear probing and tombstones.  The table is the vector
    of slots as the code has it; [kNotFound] is [None].  The hash function is a
    parameter ([std::hash] is unspecified): every theorem holds for all of them.
    A probe index is computed with [& mask] on 64-bit words, here on [N].

    [place] loops until it meets the key or an EMPTY slot; its fuel is the number
    of slots, and [HashMapSpec] shows that it suffices whenever one slot is EMPTY. *)

From S2P Require Import Prelude.

Section HashMap.
Context {K V : Type} `{EqDecision K} (hash : K → N).

Inductive SlotState := EMPTY | OCCUPIED | DELETED.

#[export] Instance SlotState_eq_dec : EqDecision SlotState.
Proof. solve_decision. Defined.

Record Slot := mkSlot {
  state : SlotState;
  kv : option (K * V);
}.

Record HashMap := mkHashMap {
  slots_ : list Slot;
  size_ : nat;   (* occupied slots *)
  used_ : nat;   (* occupied + deleted slots *)
}.

Definition kMinCapacity : N := 16.
Definition emptySlot : Slot := mkSlot EMPTY None.

(** [while (capacity < initialCapacity) capacity *= 2;] with [std::size_t]
    arithmetic modulo 2^64. *)
Fixpoint growCapacity (fuel : nat) (capacity initialCapacity : N) : result N :=
  match fuel with
  | 0 => Undef
  | S fuel' =>
    if bool_decide (capacity < initialCapacity)%N
    then growCapacity fuel' ((capacity * 2) mod 2 ^ 64)%N initialCapacity
    else Val capacity
  end.

(** [slots_.resize(capacity)] on the empty vector of a new map: [maxSize] is the
    vector's [max_size()], [allocates n] whether the allocator has room for [n]
    slots. *)
Definition resizeSlots (maxSize : N) (allocates : N → bool) (capacity : N) : result (list Slot) :=
  if bool_decide (maxSize < capacity)%N then Throw LengthError
  else if allocates capacity then Val (replicate (N.to_nat capacity) emptySlot)
  else Throw BadAlloc.

(** [explicit HashMap(std::size_t initialCapacity)]; 62 doublings are the most
    that can be needed before the word overflows. *)
Definition makeHashMap (maxSize : N) (allocates : N → bool) (initialCapacity : N) : result HashMap :=
  capacity ← growCapacity 62 kMinCapacity initialCapacity;
  slots ← resizeSlots maxSize allocates capacity;
  Val (mkHashMap slots 0 0).

(** [HashMap()] *)
Definition newHashMap : HashMap :=
  mkHashMap (replicate (N.to_nat kMinCapacity) emptySlot) 0 0.

Definition capacity (h : HashMap) : nat := length (slots_ h).
Definition mask (h : HashMap) : nat := capacity h - 1.

Definition homeIndex (h : HashMap) (key : K) : nat :=
  N.to_nat (N.land (hash key) (N.of_nat (mask h))).

(** [(index + 1) & mask()] *)
Definition nextIndex (h : HashMap) (index : nat) : nat :=
  N.to_nat (N.land (N.of_nat (index + 1)) (N.of_nat (mask h))).

(** [slot.state == OCCUPIED && slot.kv->first == key] *)
Definition holds (s : Slot) (key : K) : result bool :=
  if decide (state s = OCCUPIED)
  then e ← deref (kv s); Val (bool_decide (e.1 = key))
  else Val false.

(** The probe loop of [findSlot], [n] probes left. *)
Fixpoint findLoop (h : HashMap) (key : K) (n index : nat) : result (option nat) :=
  match n with
  | 0 => Val None
  | S n' =>
    slot ← at_ (slots_ h) index;
    if decide (state slot = EMPTY) then Val None
    else
      hit ← holds slot key;
      if hit : bool then Val (Some index)
      else findLoop h key n' (nextIndex h index)
  end.

Definition findSlot (h : HashMap) (key : K) : result (option nat) :=
  findLoop h key (capacity h) (homeIndex h key).

Definition find (h : HashMap) (key : K) : result (option V) :=
  index ← findSlot h key;
  match index with
  | None => Val None
  | Some i => slot ← at_ (slots_ h) i; e ← deref (kv slot); Val (Some e.2)
  end.

Definition contains (h : HashMap) (key : K) : result bool :=
  index ← findSlot h key; Val (bool_decide (is_Some index)).

(** The loop of [place]; [firstDeleted] is the earliest tombstone met. *)
Fixpoint placeLoop (fuel : nat) (h : HashMap) (key : K) (value : V)
    (assignIfPresent : bool) (firstDeleted : option nat) (index : nat)
    : result (HashMap * bool) :=
  match fuel with
  | 0 => Undef
  | S fuel' =>
    slot ← at_ (slots_ h) index;
    hit ← holds slot key;
    if hit : bool then
      if assignIfPresent then
        e ← deref (kv slot);
        ss ← vec_set index (mkSlot (state slot) (Some (e.1, value))) (slots_ h);
        Val (mkHashMap ss (size_ h) (used_ h), false)
      else Val (h, false)
    else
      let firstDeleted1 :=
        if decide (state slot = DELETED)
        then match firstDeleted with None => Some index | Some d => Some d end
        else firstDeleted in
      if decide (state slot = EMPTY) then
        let target := match firstDeleted1 with Some d => d | None => index end in
        dest ← at_ (slots_ h) target;
        let used1 := if decide (state dest = EMPTY) then used_ h + 1 else used_ h in
        ss ← vec_set target (mkSlot OCCUPIED (Some (key, value))) (slots_ h);
        Val (mkHashMap ss (size_ h + 1) used1, true)
      else placeLoop fuel' h key value assignIfPresent firstDeleted1 (nextIndex h index)
  end.

Definition place (h : HashMap) (key : K) (value : V) (assignIfPresent : bool)
    : result (HashMap * bool) :=
  placeLoop (capacity h) h key value assignIfPresent None (homeIndex h key).

Definition rehash (h : HashMap) (newCapacity : nat) : result HashMap :=
  foldR (λ h' slot,
      if decide (state slot = OCCUPIED) then
        e ← deref (kv slot);
        '(h'', _) ← place h' e.1 e.2 false;
        Val h''
      else Val h')
    (mkHashMap (replicate newCapacity emptySlot) 0 0) (slots_ h).

Definition reserveForOneMore (h : HashMap) : result HashMap :=
  if bool_decide ((used_ h + 1) * 10 ≤ capacity h * 7) then Val h
  else
    let mostlyLive := bool_decide (capacity h * 4 < (size_ h + 1) * 10) in
    rehash h (if mostlyLive then capacity h * 2 else capacity h).

Definition insert (h : HashMap) (key : K) (value : V) : result (HashMap * bool) :=
  h1 ← reserveForOneMore h; place h1 key value false.

Definition insertOrAssign (h : HashMap) (key : K) (value : V) : result (HashMap * bool) :=
  h1 ← reserveForOneMore h; place h1 key value true.

Definition erase (h : HashMap) (key : K) : result (HashMap * bool) :=
  index ← findSlot h key;
  match index with
  | None => Val (h, false)
  | Some i =>
    ss ← vec_set i (mkSlot DELETED None) (slots_ h);
    Val (mkHashMap ss (size_ h - 1) (used_ h), true)
  end.

(** [operator[]], with the value read through the returned reference. *)
Definition subscript (h : HashMap) (key : K) (default : V) : result (HashMap * V) :=
  existing ← find h key;
  match existing with
  | Some v => Val (h, v)
  | None =>
    '(h1, _) ← insert h key default;
    v ← find h1 key;
    v' ← deref v;
    Val (h1, v')
  end.

Definition size (h : HashMap) : nat := size_ h.
Definition empty (h : HashMap) : bool := bool_decide (size_ h = 0).

Definition forEach {A} (f : A → K * V → result A) (h : HashMap) (s : A) : result A :=
  foldR (λ s' slot,
      if decide (state slot = OCCUPIED) then e ← deref (kv slot); f s' e else Val s')
    s (slots_ h).
End HashMap.

Arguments Slot : clear implicits.
Arguments HashMap : clear implicits.
