(* ===== verification/KeyIndex.v ===== *)
(** * The interface of a key index

    What the hash map promises to its clients, the LRU cache and the database:
    operations and, apart from them, the laws that relate an index to the finite
    map it stands for.  The clients are proved against this interface; the hash
    map discharges it in [HashMapSpec]. *)

From S2P Require Import Prelude.

Class KeyIndex (K V Ix : Type) := {
  ix_new : Ix;
  ix_find : Ix → K → result (option V);
  ix_contains : Ix → K → result bool;
  ix_insert : Ix → K → V → result (Ix * bool);
  ix_insertOrAssign : Ix → K → V → result (Ix * bool);
  ix_erase : Ix → K → result (Ix * bool);
  ix_size : Ix → nat;
  ix_forEach : ∀ {A : Type}, (A → K * V → result A) → Ix → A → result A;
}.

Class KeyIndexLaws (K V Ix : Type) `{Countable K} `{!KeyIndex K V Ix} := {
  ix_repr : Ix → gmap K V → Prop;
  ix_new_ok : ix_repr ix_new ∅;
  ix_find_ok ix m k : ix_repr ix m → ix_find ix k = Val (m !! k);
  ix_contains_ok ix m k :
    ix_repr ix m → ix_contains ix k = Val (bool_decide (is_Some (m !! k)));
  ix_insert_ok ix m k v :
    ix_repr ix m →
    ∃ ix', ix_insert ix k v = Val (ix', bool_decide (m !! k = None)) ∧
      ix_repr ix' (if m !! k is Some _ then m else <[k:=v]> m);
  ix_insertOrAssign_ok ix m k v :
    ix_repr ix m →
    ∃ ix', ix_insertOrAssign ix k v = Val (ix', bool_decide (m !! k = None)) ∧
      ix_repr ix' (<[k:=v]> m);
  ix_erase_ok ix m k :
    ix_repr ix m →
    ∃ ix', ix_erase ix k = Val (ix', bool_decide (is_Some (m !! k))) ∧
      ix_repr ix' (delete k m);
  ix_size_ok ix m : ix_repr ix m → ix_size ix = size m;
  ix_forEach_ok ix m :
    ix_repr ix m →
    ∃ l, l ≡ₚ map_to_list m ∧
      ∀ (A : Type) (f : A → K * V → result A) s, ix_forEach f ix s = foldR f s l;
}.

#[export] Hint Mode KeyIndex - - ! : typeclass_instances.
