(* ===== verification/HashMapSpec.v ===== *)
(** * Hash map: specification

    [wf h m]: the table [h] stands for the finite map [m].  Every operation
    returns, probes only inside the table, keeps [wf] and acts on [m] as the
    corresponding map operation, for every hash function. *)

From S2P Require Import Prelude HashMap KeyIndex.

Section Spec.
Context {K V : Type} `{Countable K} (hash : K → N).
Implicit Types (h : HashMap K V) (m : gmap K V) (k key : K) (v : V) (s : Slot K V).

Abbreviation occ k v := (mkSlot OCCUPIED (Some (k, v))).
Abbreviation homeIndex := (homeIndex hash).

Definition slot_ok s : Prop :=
  match state s with OCCUPIED => is_Some (kv s) | _ => kv s = None end.

Definition occupied s : bool := bool_decide (state s = OCCUPIED).
Definition nonempty s : bool := bool_decide (state s ≠ EMPTY).
Definition count (P : Slot K V → bool) (l : list (Slot K V)) : nat :=
  length (base.filter (λ s, P s = true) l).

(** The [j]-th slot that a probe for [k] visits. *)
Definition probe h k (j : nat) : nat := (homeIndex h k + j) mod capacity h.

(** The first [j] slots of the probe sequence are in use. *)
Definition chained h k (j : nat) : Prop :=
  ∀ j', j' < j → ∃ s, slots_ h !! probe h k j' = Some s ∧ state s ≠ EMPTY.

Record wf h m : Prop := {
  wf_cap : ∃ e, 4 ≤ e ∧ capacity h = 2 ^ e;
  wf_slot : ∀ i s, slots_ h !! i = Some s → slot_ok s;
  wf_size : size_ h = count occupied (slots_ h);
  wf_used : used_ h = count nonempty (slots_ h);
  wf_sound : ∀ i k v, slots_ h !! i = Some (occ k v) →
    m !! k = Some v ∧ ∃ j, j < capacity h ∧ i = probe h k j ∧ chained h k j;
  wf_complete : ∀ k v, m !! k = Some v → ∃ i, slots_ h !! i = Some (occ k v);
  wf_uniq : ∀ i i' k v v',
    slots_ h !! i = Some (occ k v) → slots_ h !! i' = Some (occ k v') → i = i';
}.

(** The load bound between operations. *)
Definition light h : Prop := used_ h * 10 ≤ capacity h * 7.
Definition hm_repr h m : Prop := wf h m ∧ light h.

(** ** Index arithmetic *)
Lemma land_mask n e : N.to_nat (N.land n (N.of_nat (2 ^ e - 1))) = N.to_nat n mod 2 ^ e.
Proof.
  assert (N.of_nat (2 ^ e - 1) = N.ones (N.of_nat e)) as ->.
  { rewrite N.ones_equiv, <- N.sub_1_r. rewrite Nat2N.inj_sub, Nat2N.inj_pow. done. }
  rewrite N.land_ones, N2Nat.inj_mod, N2Nat.inj_pow. by rewrite Nat2N.id.
Qed.

Lemma homeIndex_mod h k e : capacity h = 2 ^ e → homeIndex h k = N.to_nat (hash k) mod capacity h.
Proof. intros He. unfold HashMap.homeIndex, mask. rewrite He. apply land_mask. Qed.

Lemma nextIndex_mod h i e : capacity h = 2 ^ e → nextIndex h i = (i + 1) mod capacity h.
Proof.
  intros He. unfold nextIndex, mask. rewrite He, land_mask. by rewrite Nat2N.id.
Qed.

Lemma pow2_pos e : 0 < 2 ^ e.
Proof. pose proof (Nat.pow_nonzero 2 e). lia. Qed.

Lemma probe_lt h k j e : capacity h = 2 ^ e → probe h k j < capacity h.
Proof. intros He. unfold probe. apply Nat.mod_upper_bound. pose proof (pow2_pos e). lia. Qed.

Lemma probe_0 h k e : capacity h = 2 ^ e → probe h k 0 = homeIndex h k.
Proof.
  intros He. unfold probe. rewrite Nat.add_0_r, (homeIndex_mod h k e He).
  pose proof (pow2_pos e). rewrite Nat.Div0.mod_mod. done.
Qed.

Lemma probe_next h k j e : capacity h = 2 ^ e → nextIndex h (probe h k j) = probe h k (S j).
Proof.
  intros He. rewrite (nextIndex_mod _ _ e He). unfold probe.
  rewrite Nat.Div0.add_mod_idemp_l. f_equal. lia.
Qed.

(** Every slot is on every probe sequence. *)
Lemma probe_reach h k i e :
  capacity h = 2 ^ e → i < capacity h → ∃ j, j < capacity h ∧ probe h k j = i.
Proof.
  intros He Hi. set (c := capacity h) in *. pose proof (pow2_pos e) as Hp. rewrite <- He in Hp.
  assert (Hh : homeIndex h k < c).
  { rewrite (homeIndex_mod h k e He). apply Nat.mod_upper_bound. lia. }
  exists ((i + (c - homeIndex h k)) mod c). split; [apply Nat.mod_upper_bound; lia|].
  unfold probe. fold c. rewrite Nat.Div0.add_mod_idemp_r.
  replace (homeIndex h k + (i + (c - homeIndex h k))) with (i + 1 * c) by lia.
  rewrite Nat.Div0.mod_add. by apply Nat.mod_small.
Qed.

(** ** Slots and counts *)
Lemma slot_cases s :
  slot_ok s → (state s ≠ OCCUPIED ∧ kv s = None) ∨ ∃ k v, s = occ k v.
Proof.
  destruct s as [[] [[k v]|]]; unfold slot_ok; simpl; intros Hs;
    first [by left | by right; eauto | by destruct Hs].
Qed.

Lemma holds_free s key : state s ≠ OCCUPIED → holds s key = Val false.
Proof. intros Hs. unfold holds. by rewrite decide_False. Qed.

Lemma holds_occ k v key : holds (occ k v : Slot K V) key = Val (bool_decide (k = key)).
Proof. done. Qed.

Lemma count_set P (l : list (Slot K V)) i s s' :
  l !! i = Some s →
  count P (<[i:=s']> l) + (if P s then 1 else 0) = count P l + (if P s' then 1 else 0).
Proof.
  intros Hi. apply list_elem_of_split_length in Hi as (l1 & l2 & -> & ->).
  replace (length l1) with (length l1 + 0) by lia. rewrite insert_app_r. simpl.
  unfold count. rewrite !filter_app, !filter_cons, !length_app.
  destruct (P s), (P s'); simpl; lia.
Qed.

Lemma count_le P (l : list (Slot K V)) : count P l ≤ length l.
Proof. apply length_filter. Qed.

Lemma count_all P (l : list (Slot K V)) : (∀ i s, l !! i = Some s → P s = true) → count P l = length l.
Proof.
  induction l as [|s l IH]; intros Hall; [done|]. unfold count in *.
  rewrite filter_cons_True by (by apply (Hall 0)). simpl. f_equal. apply IH.
  intros i s'. apply (Hall (S i)).
Qed.

Lemma exists_empty h m : wf h m → used_ h < capacity h → ∃ i s, slots_ h !! i = Some s ∧ state s = EMPTY.
Proof.
  intros Hwf Hu. destruct (decide (Exists (λ s, state s = EMPTY) (slots_ h))) as [He|He].
  - apply Exists_exists in He as (s & Hin & Hs). apply list_elem_of_lookup in Hin as [i Hi]. eauto.
  - exfalso. rewrite (wf_used _ _ Hwf), count_all in Hu; [unfold capacity in Hu; lia|].
    intros i s Hi. apply bool_decide_eq_true. intros Hs. apply He. apply Exists_exists.
    exists s. split; [|done]. apply list_elem_of_lookup. eauto.
Qed.

Lemma slot_at h i : i < capacity h → ∃ s, slots_ h !! i = Some s ∧ at_ (slots_ h) i = Val s.
Proof. intros [s [? ?]]%at_lt. eauto. Qed.

(** ** Finding *)
Lemma findLoop_absent h m key n j :
  wf h m → m !! key = None → findLoop h key n (probe h key j) = Val None.
Proof.
  intros Hwf Hm. destruct (wf_cap _ _ Hwf) as (e & _ & He). revert j.
  induction n as [|n IH]; intros j; [done|]. cbn [findLoop].
  destruct (slot_at h (probe h key j)) as (s & Hs & ->); [by eapply probe_lt|].
  cbn [mbind result_bind]. case_decide; [done|].
  destruct (slot_cases s) as [[Hst _]|(k & v & ->)]; [by eapply wf_slot| |].
  - rewrite holds_free by done. cbn [mbind result_bind]. by rewrite (probe_next h key j e).
  - rewrite holds_occ. cbn [mbind result_bind]. rewrite bool_decide_eq_false_2.
    + by rewrite (probe_next h key j e).
    + intros ->. apply (wf_sound _ _ Hwf) in Hs as [Hs _]. congruence.
Qed.

Lemma findLoop_present h m key v i j0 n j :
  wf h m → slots_ h !! i = Some (occ key v) → i = probe h key j0 → chained h key j0 →
  j ≤ j0 < j + n → findLoop h key n (probe h key j) = Val (Some i).
Proof.
  intros Hwf Hi Hij Hch. destruct (wf_cap _ _ Hwf) as (e & _ & He). revert j.
  induction n as [|n IH]; intros j Hj; [lia|]. cbn [findLoop].
  destruct (slot_at h (probe h key j)) as (s & Hs & ->); [by eapply probe_lt|].
  cbn [mbind result_bind]. destruct (decide (j = j0)) as [->|Hne].
  { rewrite <- Hij in Hs |- *. rewrite Hi in Hs. injection Hs as <-. simpl.
    by rewrite bool_decide_eq_true_2. }
  rewrite decide_False.
  2: { destruct (Hch j) as (s' & Hs' & Hst); [lia|]. congruence. }
  destruct (slot_cases s) as [[Hst _]|(k & v' & ->)]; [by eapply wf_slot| |].
  - rewrite holds_free by done. cbn [mbind result_bind].
    rewrite (probe_next h key j e) by done. apply IH. lia.
  - rewrite holds_occ. cbn [mbind result_bind]. case_bool_decide as Hk.
    + subst k. do 2 f_equal. by eapply wf_uniq.
    + rewrite (probe_next h key j e) by done. apply IH. lia.
Qed.

Lemma findSlot_spec h m key :
  wf h m →
  ∃ r, findSlot hash h key = Val r ∧
    match r with
    | None => m !! key = None
    | Some i => ∃ v, m !! key = Some v ∧ slots_ h !! i = Some (occ key v)
    end.
Proof.
  intros Hwf. destruct (wf_cap _ _ Hwf) as (e & _ & He). unfold findSlot.
  rewrite <- (probe_0 h key e He). destruct (m !! key) as [v|] eqn:Hm.
  - destruct (wf_complete _ _ Hwf key v Hm) as (i & Hi).
    destruct (wf_sound _ _ Hwf i key v Hi) as (_ & j & Hj & Hij & Hch).
    exists (Some i). split; [|by eauto]. eapply findLoop_present; try done. lia.
  - exists None. split; [|done]. by eapply findLoop_absent.
Qed.

Lemma find_spec h m key : wf h m → find hash h key = Val (m !! key).
Proof.
  intros Hwf. unfold find. destruct (findSlot_spec h m key Hwf) as (r & -> & Hr). simpl.
  destruct r as [i|]; [|by rewrite Hr]. destruct Hr as (v & -> & Hi).
  unfold at_. by rewrite Hi.
Qed.

(** ** Changing one slot *)
Definition set_slot h i s (sz us : nat) : HashMap K V := mkHashMap (<[i:=s]> (slots_ h)) sz us.

Lemma set_slot_cap h i s sz us : capacity (set_slot h i s sz us) = capacity h.
Proof. unfold capacity, set_slot. simpl. apply length_insert. Qed.

Lemma set_slot_probe h i s sz us k j : probe (set_slot h i s sz us) k j = probe h k j.
Proof.
  unfold probe, HashMap.homeIndex, mask. by rewrite set_slot_cap.
Qed.

(** Slots that are in use stay in use. *)
Lemma set_slot_chained h i s sz us k j :
  state s ≠ EMPTY → chained h k j → chained (set_slot h i s sz us) k j.
Proof.
  intros Hs Hch j' Hj. destruct (Hch j' Hj) as (s' & Hs' & Hst).
  rewrite set_slot_probe. unfold set_slot. simpl.
  destruct (decide (i = probe h k j')) as [->|Hne].
  - exists s. split; [|done]. apply list_lookup_insert_eq. by eapply lookup_lt_Some.
  - exists s'. by rewrite list_lookup_insert_ne.
Qed.

Lemma set_slot_lookup h i s sz us i' s' :
  slots_ (set_slot h i s sz us) !! i' = Some s' →
  (i' = i ∧ s' = s) ∨ (i' ≠ i ∧ slots_ h !! i' = Some s').
Proof.
  unfold set_slot. simpl. intros Hl. destruct (decide (i' = i)) as [->|Hne].
  - left. split; [done|]. apply list_lookup_insert_Some in Hl. destruct Hl as [(_ & ? & _)|[? _]]; done.
  - right. by rewrite list_lookup_insert_ne in Hl.
Qed.

(** A free slot at the end of a chain takes a new key. *)
Lemma wf_put_new h m key v i j s :
  wf h m → m !! key = None → slots_ h !! i = Some s → state s ≠ OCCUPIED →
  j < capacity h → i = probe h key j → chained h key j →
  wf (set_slot h i (occ key v) (size_ h + 1)
        (if decide (state s = EMPTY) then used_ h + 1 else used_ h)) (<[key:=v]> m).
Proof.
  intros Hwf Hm Hi Hs Hj Hij Hch.
  assert (Hlt : i < length (slots_ h)) by (by eapply lookup_lt_Some). split.
  - rewrite set_slot_cap. by apply Hwf.
  - intros i' s' [[-> ->]|[_ Hs']]%set_slot_lookup; [by eexists|by eapply wf_slot].
  - simpl. pose proof (count_set occupied _ _ _ (occ key v) Hi) as Hc.
    assert (occupied s = false) as Hn by (by apply bool_decide_eq_false). rewrite Hn in Hc.
    change (occupied (occ key v)) with true in Hc. rewrite (wf_size _ _ Hwf). simpl in Hc. lia.
  - simpl. pose proof (count_set nonempty _ _ _ (occ key v) Hi) as Hc.
    change (nonempty (occ key v)) with true in Hc. rewrite (wf_used _ _ Hwf).
    case_decide as Hst.
    + assert (nonempty s = false) as Hn by (apply bool_decide_eq_false; tauto).
      rewrite Hn in Hc. simpl in Hc. lia.
    + assert (nonempty s = true) as Hn by (by apply bool_decide_eq_true). rewrite Hn in Hc. simpl in Hc. lia.
  - intros i' k' v' [[-> [= -> ->]]|[Hne Hs']]%set_slot_lookup.
    + rewrite lookup_insert_eq. split; [done|]. exists j. rewrite set_slot_cap, set_slot_probe.
      split_and!; try done. by apply set_slot_chained.
    + destruct (wf_sound _ _ Hwf _ _ _ Hs') as (Hm' & j' & Hj' & Hij' & Hch').
      assert (key ≠ k') by congruence. rewrite lookup_insert_ne by done. split; [done|].
      exists j'. rewrite set_slot_cap, set_slot_probe. split_and!; try done. by apply set_slot_chained.
  - intros k' v' Hk'. destruct (decide (key = k')) as [->|Hne].
    + rewrite lookup_insert_eq in Hk'. injection Hk' as ->. exists i.
      by apply list_lookup_insert_eq.
    + rewrite lookup_insert_ne in Hk' by done. destruct (wf_complete _ _ Hwf _ _ Hk') as (i' & Hi').
      exists i'. simpl. rewrite list_lookup_insert_ne; [done|]. intros <-. rewrite Hi in Hi'.
      injection Hi' as ->. done.
  - intros i1 i2 k' v1 v2 [[-> [= -> ->]]|[Hne1 H1]]%set_slot_lookup
      [[-> Heq]|[Hne2 H2]]%set_slot_lookup.
    + done.
    + apply (wf_sound _ _ Hwf) in H2 as [H2 _]. congruence.
    + injection Heq as -> ->. apply (wf_sound _ _ Hwf) in H1 as [H1 _]. congruence.
    + by eapply wf_uniq.
Qed.

Lemma wf_assign h m key v v' i :
  wf h m → slots_ h !! i = Some (occ key v) →
  wf (set_slot h i (occ key v') (size_ h) (used_ h)) (<[key:=v']> m).
Proof.
  intros Hwf Hi. assert (Hlt : i < length (slots_ h)) by (by eapply lookup_lt_Some). split.
  - rewrite set_slot_cap. by apply Hwf.
  - intros i' s' [[-> ->]|[_ Hs']]%set_slot_lookup; [by eexists|by eapply wf_slot].
  - simpl. pose proof (count_set occupied _ _ _ (occ key v') Hi) as Hc. simpl in Hc.
    rewrite (wf_size _ _ Hwf). lia.
  - simpl. pose proof (count_set nonempty _ _ _ (occ key v') Hi) as Hc. simpl in Hc.
    rewrite (wf_used _ _ Hwf). lia.
  - intros i' k' v1 [[-> [= -> ->]]|[Hne Hs']]%set_slot_lookup.
    + rewrite lookup_insert_eq. split; [done|].
      destruct (wf_sound _ _ Hwf _ _ _ Hi) as (_ & j' & Hj' & Hij' & Hch').
      exists j'. rewrite set_slot_cap, set_slot_probe. split_and!; try done. by apply set_slot_chained.
    + destruct (wf_sound _ _ Hwf _ _ _ Hs') as (Hm' & j' & Hj' & Hij' & Hch').
      assert (key ≠ k') by (intros ->; apply Hne; by eapply wf_uniq).
      rewrite lookup_insert_ne by done. split; [done|].
      exists j'. rewrite set_slot_cap, set_slot_probe. split_and!; try done. by apply set_slot_chained.
  - intros k' v1 Hk'. destruct (decide (key = k')) as [->|Hne].
    + rewrite lookup_insert_eq in Hk'. injection Hk' as ->. exists i.
      by apply list_lookup_insert_eq.
    + rewrite lookup_insert_ne in Hk' by done. destruct (wf_complete _ _ Hwf _ _ Hk') as (i' & Hi').
      exists i'. simpl. rewrite list_lookup_insert_ne; [done|]. intros <-. congruence.
  - intros i1 i2 k' v1 v2 [[-> [= -> ->]]|[Hne1 H1]]%set_slot_lookup
      [[-> Heq]|[Hne2 H2]]%set_slot_lookup.
    + done.
    + by eapply wf_uniq.
    + injection Heq as -> ->. by eapply wf_uniq.
    + by eapply wf_uniq.
Qed.

Lemma wf_delete h m key v i :
  wf h m → slots_ h !! i = Some (occ key v) →
  wf (set_slot h i (mkSlot DELETED None) (size_ h - 1) (used_ h)) (delete key m).
Proof.
  intros Hwf Hi. assert (Hlt : i < length (slots_ h)) by (by eapply lookup_lt_Some). split.
  - rewrite set_slot_cap. by apply Hwf.
  - intros i' s' [[-> ->]|[_ Hs']]%set_slot_lookup; [done|by eapply wf_slot].
  - simpl. pose proof (count_set occupied _ _ _ (mkSlot DELETED None) Hi) as Hc. simpl in Hc.
    rewrite (wf_size _ _ Hwf). lia.
  - simpl. pose proof (count_set nonempty _ _ _ (mkSlot DELETED None) Hi) as Hc. simpl in Hc.
    rewrite (wf_used _ _ Hwf). lia.
  - intros i' k' v1 [[-> [=]]|[Hne Hs']]%set_slot_lookup.
    destruct (wf_sound _ _ Hwf _ _ _ Hs') as (Hm' & j' & Hj' & Hij' & Hch').
    assert (key ≠ k') by (intros ->; apply Hne; by eapply wf_uniq).
    rewrite lookup_delete_ne by done. split; [done|].
    exists j'. rewrite set_slot_cap, set_slot_probe. split_and!; try done. by apply set_slot_chained.
  - intros k' v1 [Hne Hk']%lookup_delete_Some. destruct (wf_complete _ _ Hwf _ _ Hk') as (i' & Hi').
    exists i'. simpl. rewrite list_lookup_insert_ne; [done|]. intros <-. congruence.
  - intros i1 i2 k' v1 v2 [[-> [=]]|[Hne1 H1]]%set_slot_lookup [[-> [=]]|[Hne2 H2]]%set_slot_lookup.
    by eapply wf_uniq.
Qed.

(** ** Placing *)
Lemma chained_mono h k j j' : chained h k j → j' ≤ j → chained h k j'.
Proof. intros Hch Hle j'' Hj. apply Hch. lia. Qed.

Lemma chained_S h k j s :
  chained h k j → slots_ h !! probe h k j = Some s → state s ≠ EMPTY → chained h k (S j).
Proof.
  intros Hch Hs Hst j' Hj. destruct (decide (j' = j)) as [->|Hne]; [by eauto|]. apply Hch. lia.
Qed.

Definition tombstone_before h k j (fd : option nat) : Prop :=
  ∀ d, fd = Some d → ∃ jd sd, jd < j ∧ d = probe h k jd ∧ slots_ h !! d = Some sd ∧ state sd = DELETED.

Lemma placeLoop_absent h m key v asg fuel fd j :
  wf h m → m !! key = None →
  (∃ j1 s1, j ≤ j1 < j + fuel ∧ slots_ h !! probe h key j1 = Some s1 ∧ state s1 = EMPTY) →
  chained h key j → j + fuel ≤ capacity h → tombstone_before h key j fd →
  ∃ i jt s,
    placeLoop fuel h key v asg fd (probe h key j) =
      Val (set_slot h i (occ key v) (size_ h + 1)
             (if decide (state s = EMPTY) then used_ h + 1 else used_ h), true) ∧
    slots_ h !! i = Some s ∧ state s ≠ OCCUPIED ∧
    jt < capacity h ∧ i = probe h key jt ∧ chained h key jt.
Proof.
  intros Hwf Hm. destruct (wf_cap _ _ Hwf) as (e & _ & He). revert j fd.
  induction fuel as [|fuel IH]; intros j fd (j1 & s1 & Hj1 & Hs1 & Hst1) Hch Hfuel Hfd; [lia|].
  cbn [placeLoop].
  destruct (slot_at h (probe h key j)) as (s & Hs & ->); [by eapply probe_lt|].
  cbn [mbind result_bind].
  assert (Hhold : holds s key = Val false).
  { destruct (slot_cases s) as [[Hst _]|(k & v' & ->)]; [by eapply wf_slot|by apply holds_free|].
    rewrite holds_occ. f_equal. apply bool_decide_eq_false. intros ->.
    apply (wf_sound _ _ Hwf) in Hs as [Hs _]. congruence. }
  rewrite Hhold. cbn [mbind result_bind].
  destruct (decide (state s = EMPTY)) as [Hst|Hst].
  - rewrite (decide_False (P := state s = DELETED)) by congruence.
    destruct fd as [d|].
    + destruct (Hfd d eq_refl) as (jd & sd & Hjd & -> & Hsd & Hstd).
      exists (probe h key jd), jd, sd.
      rewrite (at_Some _ _ _ Hsd). cbn [mbind result_bind]. rewrite (vec_set_Some _ _ _ _ Hsd).
      split; [done|]. split_and!; try done; [congruence|lia|]. apply (chained_mono h key j); [done|lia].
    + exists (probe h key j), j, s.
      rewrite (at_Some _ _ _ Hs). cbn [mbind result_bind]. rewrite (vec_set_Some _ _ _ _ Hs).
      split; [done|]. split_and!; try done; [congruence|lia].
  - rewrite (probe_next h key j e) by done. apply IH.
    + exists j1, s1. split; [|done]. assert (j ≠ j1) by (intros ->; congruence). lia.
    + by eapply chained_S.
    + lia.
    + intros d. case_decide as Hd; [destruct fd as [d'|]|]; intros Hfd'.
      * destruct (Hfd _ Hfd') as (jd & sd & Hjd & Hx). exists jd, sd. split; [lia|done].
      * injection Hfd' as <-. exists j, s. split_and!; try done; lia.
      * destruct (Hfd _ Hfd') as (jd & sd & Hjd & Hx). exists jd, sd. split; [lia|done].
Qed.

Lemma placeLoop_present h m key v v0 asg i j0 fuel fd j :
  wf h m → slots_ h !! i = Some (occ key v0) → i = probe h key j0 → chained h key j0 →
  j ≤ j0 < j + fuel →
  placeLoop fuel h key v asg fd (probe h key j) =
    Val (if asg : bool then set_slot h i (occ key v) (size_ h) (used_ h) else h, false).
Proof.
  intros Hwf Hi Hij Hch. destruct (wf_cap _ _ Hwf) as (e & _ & He). revert j fd.
  induction fuel as [|fuel IH]; intros j fd Hj; [lia|]. cbn [placeLoop].
  destruct (slot_at h (probe h key j)) as (s & Hs & ->); [by eapply probe_lt|].
  cbn [mbind result_bind].
  destruct (slot_cases s) as [[Hst _]|(k & v' & ->)]; [by eapply wf_slot| |].
  - assert (j ≠ j0) by (intros ->; rewrite Hij in Hi; rewrite Hi in Hs; by simplify_eq).
    destruct (Hch j) as (s' & Hs' & Hst'); [lia|]. assert (s' = s) as -> by congruence.
    rewrite holds_free by done. cbn [mbind result_bind]. rewrite (decide_False (P := state s = EMPTY)) by done.
    rewrite (probe_next h key j e) by done. apply IH. lia.
  - rewrite holds_occ. cbn [mbind result_bind]. case_bool_decide as Hk.
    + subst k. assert (i = probe h key j) as Heq by (by eapply wf_uniq). rewrite <- Heq in *.
      destruct asg; [|done]. simpl. by rewrite (vec_set_Some _ _ _ _ Hi).
    + assert (j ≠ j0) by (intros ->; rewrite Hij in Hi; rewrite Hi in Hs; by simplify_eq).
      cbn [state]. rewrite !decide_False by done.
      rewrite (probe_next h key j e) by done. apply IH. lia.
Qed.

Lemma place_spec h m key v asg :
  wf h m → used_ h < capacity h →
  ∃ h', place hash h key v asg = Val (h', bool_decide (m !! key = None)) ∧
    wf h' (if m !! key is Some _ then (if asg : bool then <[key:=v]> m else m) else <[key:=v]> m) ∧
    capacity h' = capacity h ∧ used_ h' ≤ used_ h + 1.
Proof.
  intros Hwf Hu. destruct (wf_cap _ _ Hwf) as (e & _ & He). unfold place.
  rewrite <- (probe_0 h key e He). destruct (m !! key) as [v0|] eqn:Hm.
  - destruct (wf_complete _ _ Hwf key v0 Hm) as (i & Hi).
    destruct (wf_sound _ _ Hwf i key v0 Hi) as (_ & j & Hj & Hij & Hch).
    rewrite (placeLoop_present h m key v v0 asg i j) by (try done; lia).
    destruct asg; eexists; (split; [done|]).
    + split; [by eapply wf_assign|]. split; [apply set_slot_cap|simpl; lia].
    + split; [done|]. split; [done|lia].
  - destruct (exists_empty h m Hwf Hu) as (i1 & s1 & Hi1 & Hs1).
    destruct (probe_reach h key i1 e He) as (j1 & Hj1 & <-); [by eapply lookup_lt_Some|].
    destruct (placeLoop_absent h m key v asg (capacity h) None 0) as
      (i & jt & s & -> & Hi & Hst & Hjt & Hij & Hch); try done.
    { exists j1, s1. split; [lia|done]. }
    { intros j' Hj'. lia. }
    eexists. split; [done|]. split; [by eapply wf_put_new|]. split; [apply set_slot_cap|].
    simpl. case_decide; lia.
Qed.

(** ** Rehashing *)
Lemma count_fresh P n : P emptySlot = false → count P (replicate n emptySlot) = 0.
Proof.
  intros HP. unfold count. induction n as [|n IH]; [done|].
  rewrite replicate_S, filter_cons_False; [done|]. by rewrite HP.
Qed.

Lemma wf_fresh n e : 4 ≤ e → n = 2 ^ e → wf (mkHashMap (replicate n emptySlot) 0 0) ∅.
Proof.
  intros He ->. split; unfold capacity; simpl.
  - exists e. by rewrite length_replicate.
  - by intros i s [-> _]%lookup_replicate.
  - by rewrite count_fresh.
  - by rewrite count_fresh.
  - by intros i k v [[=] _]%lookup_replicate.
  - intros k v. by rewrite lookup_empty.
  - by intros i i' k v v' [[=] _]%lookup_replicate.
Qed.

Lemma wf_elem h m k v : wf h m → m !! k = Some v ↔ occ k v ∈ slots_ h.
Proof.
  intros Hwf. rewrite list_elem_of_lookup. split; [apply (wf_complete _ _ Hwf)|].
  intros [i Hi]. by apply (wf_sound _ _ Hwf) in Hi as [? _].
Qed.

Lemma rehash_spec h m n e :
  wf h m → 4 ≤ e → n = 2 ^ e → size_ h < n →
  ∃ h', rehash hash h n = Val h' ∧ wf h' m ∧ capacity h' = n ∧ used_ h' ≤ size_ h.
Proof.
  intros Hwf He Hn Hsz. unfold rehash.
  (* the part of the old table already moved, and the part still to move *)
  enough (∀ l2 l1 h1 m1, slots_ h = l1 ++ l2 → wf h1 m1 → capacity h1 = n →
      used_ h1 ≤ count occupied l1 → (∀ k v, m1 !! k = Some v ↔ occ k v ∈ l1) →
      ∃ h', foldR (λ h' slot,
          if decide (state slot = OCCUPIED)
          then e ← deref (kv slot); '(h'', _) ← place hash h' e.1 e.2 false; Val h''
          else Val h') h1 l2 = Val h' ∧ wf h' m ∧ capacity h' = n ∧ used_ h' ≤ size_ h) as Hgen.
  { apply (Hgen (slots_ h) [] _ ∅); [done|by eapply wf_fresh| |done|].
    - unfold capacity. simpl. apply length_replicate.
    - intros k v. rewrite lookup_empty. split; [done|]. by intros ?%elem_of_nil. }
  induction l2 as [|s l2 IH]; intros l1 h1 m1 Hl Hwf1 Hc1 Hu1 Hm1.
  - rewrite app_nil_r in Hl. exists h1. split; [done|]. rewrite <- Hl in *.
    split; [|split; [done|by rewrite (wf_size _ _ Hwf)]].
    enough (m1 = m) as <- by done. apply map_eq. intros k. apply option_eq. intros v.
    by rewrite Hm1, (wf_elem h m).
  - assert (Hs : slots_ h !! length l1 = Some s) by (rewrite Hl; by apply list_lookup_middle).
    assert (Hcnt : count occupied (l1 ++ [s]) = count occupied l1 + if occupied s then 1 else 0).
    { unfold count. rewrite filter_app, length_app, filter_cons. f_equal.
      by destruct (occupied s). }
    rewrite cons_middle, (assoc_L (++)) in Hl. cbn [foldR].
    destruct (slot_cases s) as [[Hst _]|(k & v & ->)]; [by apply (wf_slot _ _ Hwf _ _ Hs)| |].
    + rewrite decide_False by done. cbn [mbind result_bind]. apply (IH (l1 ++ [s]) h1 m1); try done; [lia|].
      intros k v. rewrite Hm1, elem_of_app, list_elem_of_singleton. split; [by left|].
      intros [?| <-]; done.
    + rewrite decide_True by done. simpl deref. cbn [mbind result_bind]. simpl in Hcnt.
      assert (Hle : count occupied (l1 ++ [occ k v]) ≤ size_ h).
      { rewrite (wf_size _ _ Hwf), Hl. unfold count. rewrite (filter_app _ (l1 ++ _)), length_app. lia. }
      assert (Hnew : m1 !! k = None).
      { destruct (m1 !! k) as [v'|] eqn:Hk; [|done]. exfalso.
        apply Hm1 in Hk as [i Hi]%list_elem_of_lookup.
        assert (Hi' : slots_ h !! i = Some (occ k v')).
        { rewrite Hl, <- (assoc_L (++)). by apply lookup_app_l_Some. }
        apply lookup_lt_Some in Hi. pose proof (wf_uniq _ _ Hwf _ _ _ _ _ Hi' Hs). lia. }
      destruct (place_spec h1 m1 k v false Hwf1) as (h2 & Hp & Hwf2 & Hc2 & Hu2); [lia|].
      cbn [fst snd]. rewrite Hp, Hnew in *. cbn [mbind result_bind].
      apply (IH (l1 ++ [occ k v]) h2 (<[k:=v]> m1)); try done; try lia.
      intros k' v'. rewrite lookup_insert_Some, elem_of_app, list_elem_of_singleton, Hm1.
      split.
      * intros [[<- <-]|[Hne Hin]]; [by right|by left].
      * intros [Hin|[= <- <-]]; [|by left]. right. split; [|done]. intros <-.
        apply Hm1 in Hin. congruence.
Qed.

Lemma size_le_used h m : wf h m → size_ h ≤ used_ h.
Proof.
  intros Hwf. rewrite (wf_size _ _ Hwf), (wf_used _ _ Hwf). unfold count.
  induction (slots_ h) as [|s l IH]; [done|]. rewrite !filter_cons. unfold occupied, nonempty in *.
  destruct (state s); simpl; lia.
Qed.

Lemma reserve_spec h m :
  hm_repr h m →
  ∃ h', reserveForOneMore hash h = Val h' ∧ wf h' m ∧ (used_ h' + 1) * 10 ≤ capacity h' * 7.
Proof.
  intros [Hwf Hli]. unfold light in Hli. destruct (wf_cap _ _ Hwf) as (e & He4 & He).
  assert (16 ≤ capacity h).
  { rewrite He. change 16 with (2 ^ 4). apply Nat.pow_le_mono_r; lia. }
  pose proof (size_le_used h m Hwf).
  unfold reserveForOneMore. case_bool_decide as Hroom; [by exists h|].
  case_bool_decide as Hlive.
  - destruct (rehash_spec h m (capacity h * 2) (S e)) as (h' & -> & Hwf' & Hc & Hu); try done; try lia.
    { rewrite He. simpl. lia. }
    exists h'. split; [done|]. split; [done|]. lia.
  - destruct (rehash_spec h m (capacity h) e) as (h' & -> & Hwf' & Hc & Hu); try done; try lia.
    exists h'. split; [done|]. split; [done|]. lia.
Qed.

(** ** Public operations *)
Lemma hm_put_spec h m key v asg :
  hm_repr h m →
  ∃ h', (h1 ← reserveForOneMore hash h; place hash h1 key v asg) =
      Val (h', bool_decide (m !! key = None)) ∧
    hm_repr h' (if m !! key is Some _ then (if asg : bool then <[key:=v]> m else m)
                else <[key:=v]> m).
Proof.
  intros Hr. destruct (reserve_spec h m Hr) as (h1 & -> & Hwf1 & Hroom). cbn [mbind result_bind].
  destruct (wf_cap _ _ Hwf1) as (e & _ & He). pose proof (pow2_pos e).
  destruct (place_spec h1 m key v asg Hwf1) as (h2 & -> & Hwf2 & Hc & Hu); [lia|].
  exists h2. split; [done|]. split; [done|]. unfold light. lia.
Qed.

Lemma hm_erase_spec h m key :
  hm_repr h m →
  ∃ h', erase hash h key = Val (h', bool_decide (is_Some (m !! key))) ∧
    hm_repr h' (delete key m).
Proof.
  intros [Hwf Hli]. unfold erase. destruct (findSlot_spec h m key Hwf) as (r & -> & Hr).
  cbn [mbind result_bind]. destruct r as [i|].
  - destruct Hr as (v & -> & Hi). rewrite (vec_set_Some _ _ _ _ Hi).
    eexists. split; [done|]. split; [by eapply wf_delete|].
    unfold light. fold (set_slot h i (mkSlot DELETED None) (size_ h - 1) (used_ h)).
    by rewrite set_slot_cap.
  - rewrite Hr. eexists. split; [done|]. by rewrite delete_id.
Qed.

(** The entries in slot order. *)
Definition live_entries h : list (K * V) :=
  omap (λ s : Slot K V, match state s with OCCUPIED => kv s | _ => None end) (slots_ h).

Lemma forEach_entries h m {A} (f : A → K * V → result A) (a : A) :
  wf h m → forEach f h a = foldR f a (live_entries h).
Proof.
  intros Hwf. unfold forEach, live_entries.
  assert (Hok : Forall slot_ok (slots_ h)).
  { apply Forall_lookup. by apply Hwf. }
  revert a. induction Hok as [|sl l Hsl Hl IH]; intros a; [done|]. cbn [foldR omap list_omap].
  destruct (slot_cases sl Hsl) as [[Hst _]|(k & v & ->)].
  - rewrite decide_False by done. cbn [mbind result_bind]. rewrite IH. by destruct sl as [[] ?].
  - simpl. destruct (f a (k, v)); simpl; [apply IH|done|done].
Qed.

Lemma live_entries_elem h m k v : wf h m → (k, v) ∈ live_entries h ↔ m !! k = Some v.
Proof.
  intros Hwf. rewrite (wf_elem h m k v Hwf). unfold live_entries. rewrite list_elem_of_omap. split.
  - intros ([st x] & Hin & Hs). simpl in Hs. destruct st; try done. by subst.
  - intros Hin. by eexists.
Qed.

Lemma live_entries_NoDup h m : wf h m → NoDup (live_entries h).*1.
Proof.
  intros Hwf. apply NoDup_alt. intros a b k Ha Hb.
  pose proof (wf_uniq _ _ Hwf) as Huq. unfold live_entries in *. clear Hwf.
  revert a b Ha Hb Huq. generalize (slots_ h). intros l.
  enough (∀ l, (∀ i i' k v v', l !! i = Some (occ k v) → l !! i' = Some (occ k v') → i = i') →
    NoDup (omap (λ s : Slot K V, match state s with OCCUPIED => kv s | _ => None end) l).*1) as Hnd.
  { intros a b Ha Hb Huq. by eapply NoDup_lookup; [apply Hnd|..]. }
  clear. induction l as [|[st x] l IH]; intros Huq; [constructor|]. cbn [omap list_omap].
  assert (IH' := IH (λ i i' k v v' H1 H2, Nat.succ_inj _ _ (Huq (S i) (S i') k v v' H1 H2))).
  destruct st; simpl; try done. destruct x as [[k v]|]; [|done]. csimpl. constructor; [|done].
  intros ([k' v'] & Hk & ([st x] & Hin & Hs)%list_elem_of_omap)%list_elem_of_fmap. simpl in *. subst k'.
  destruct st; try done. subst x. apply list_elem_of_lookup in Hin as [i Hi].
  by pose proof (Huq 0 (S i) k v v' eq_refl Hi).
Qed.

Lemma live_entries_map h m : wf h m → live_entries h ≡ₚ map_to_list m.
Proof.
  intros Hwf. apply NoDup_Permutation.
  - apply (NoDup_fmap_1 fst). by eapply live_entries_NoDup.
  - apply NoDup_map_to_list.
  - intros [k v]. rewrite elem_of_map_to_list. by apply live_entries_elem.
Qed.

Lemma size_spec h m : wf h m → size_ h = base.size m.
Proof.
  intros Hwf. rewrite <- length_map_to_list, <- (live_entries_map h m Hwf).
  rewrite (wf_size _ _ Hwf). unfold live_entries, count.
  assert (Hok : Forall slot_ok (slots_ h)) by (apply Forall_lookup; by apply Hwf).
  induction Hok as [|sl l Hsl Hl IH]; [done|]. rewrite filter_cons. cbn [omap list_omap].
  destruct (slot_cases sl Hsl) as [[Hst _]|(k & v & ->)].
  - rewrite decide_False; [rewrite IH; by destruct sl as [[] ?]|].
    apply not_true_iff_false. by apply bool_decide_eq_false.
  - simpl. by rewrite IH.
Qed.

Lemma subscript_spec h m key d :
  hm_repr h m →
  ∃ h', subscript hash h key d = Val (h', default d (m !! key)) ∧
    hm_repr h' (if m !! key is Some _ then m else <[key:=d]> m).
Proof.
  intros Hr. unfold subscript. rewrite (find_spec h m) by apply Hr. cbn [mbind result_bind].
  destruct (m !! key) as [v|] eqn:Hm; [by exists h|].
  destruct (hm_put_spec h m key d false Hr) as (h' & Hp & Hr'). unfold insert. rewrite Hp, Hm in *.
  cbn [mbind result_bind]. exists h'. rewrite (find_spec h' _) by apply Hr'.
  by rewrite lookup_insert_eq.
Qed.

Lemma contains_find h m key : wf h m → contains hash h key = Val (bool_decide (is_Some (m !! key))).
Proof.
  intros Hwf. unfold contains.
  destruct (findSlot_spec h m key Hwf) as ([i|] & -> & Hr); simpl; [|by rewrite Hr].
  by destruct Hr as (v & -> & _).
Qed.

Lemma new_spec : hm_repr newHashMap ∅.
Proof. split; [by apply (wf_fresh _ 4)|]. unfold light. simpl. lia. Qed.

(** ** The hash map is a key index *)
#[local] Instance HashMap_index : KeyIndex K V (HashMap K V) := {|
  ix_new := newHashMap;
  ix_find := find hash;
  ix_contains := contains hash;
  ix_insert := insert hash;
  ix_insertOrAssign := insertOrAssign hash;
  ix_erase := erase hash;
  ix_size := size;
  ix_forEach A := forEach;
|}.

#[local] Instance HashMap_index_laws : KeyIndexLaws K V (HashMap K V).
Proof.
  refine {| ix_repr := hm_repr |}; simpl.
  - apply new_spec.
  - intros h m k [Hwf _]. by apply find_spec.
  - intros h m k [Hwf _]. by apply contains_find.
  - intros h m k v Hr. destruct (hm_put_spec h m k v false Hr) as (h' & Hp & Hr'). exists h'. split; [exact Hp|].
    by destruct (m !! k).
  - intros h m k v Hr. destruct (hm_put_spec h m k v true Hr) as (h' & Hp & Hr'). exists h'. split; [exact Hp|].
    by destruct (m !! k).
  - intros h m k. apply hm_erase_spec.
  - intros h m [Hwf _]. by apply size_spec.
  - intros h m [Hwf _]. exists (live_entries h). split; [by apply live_entries_map|].
    intros A f s. by apply (forEach_entries h m).
Qed.
End Spec.

(** ** Construction

    Doubling stops at the least power of two that is large enough, if that fits
    a [std::size_t]; for larger requests the word wraps to zero and the loop
    never ends. *)
Lemma growCapacity_step e init fuel :
  (e ≤ 63)%N → (init ≤ 2 ^ 63)%N → 64 - N.to_nat e ≤ fuel →
  ∃ e', growCapacity fuel (2 ^ e) init = Val (2 ^ e')%N ∧ (e ≤ e' ≤ 63)%N ∧ (init ≤ 2 ^ e')%N ∧
    ((e < e')%N → (2 ^ (e' - 1) < init)%N).
Proof.
  revert e. induction fuel as [|fuel IH]; intros e He Hi Hf; [lia|]. cbn [growCapacity].
  case_bool_decide as Hlt.
  - assert (Hne : e ≠ 63%N) by (intros ->; lia).
    replace ((2 ^ e * 2) mod 2 ^ 64)%N with (2 ^ (e + 1))%N.
    2: { rewrite N.mod_small; [by rewrite N.pow_add_r|].
         change (2 ^ e * 2)%N with (2 ^ e * 2 ^ 1)%N. rewrite <- N.pow_add_r.
         apply N.pow_lt_mono_r; lia. }
    destruct (IH (e + 1)%N) as (e' & -> & Hle & Hinit & Hmin); [lia|done|lia|].
    exists e'. split; [done|]. split; [lia|]. split; [done|]. intros _.
    destruct (decide (e' = e + 1)%N) as [->|]; [|apply Hmin; lia].
    by replace (e + 1 - 1)%N with e by lia.
  - exists e. split; [done|]. split; [lia|]. split; lia.
Qed.

Lemma growCapacity_wraps init fuel e :
  (e ≤ 64)%N → (2 ^ 63 < init)%N → growCapacity fuel (2 ^ e mod 2 ^ 64) init = Undef.
Proof.
  revert e. induction fuel as [|fuel IH]; intros e He Hi; [done|]. cbn [growCapacity].
  assert (Hlt : (2 ^ e mod 2 ^ 64 ≤ 2 ^ 63)%N).
  { destruct (decide (e = 64)%N) as [->|]; [by vm_compute|].
    rewrite N.mod_small by (apply N.pow_lt_mono_r; lia). apply N.pow_le_mono_r; lia. }
  rewrite bool_decide_eq_true_2 by lia.
  rewrite N.Div0.mul_mod_idemp_l. destruct (decide (e = 64)%N) as [->|].
  - change ((2 ^ 64 * 2) mod 2 ^ 64)%N with (2 ^ 64 mod 2 ^ 64)%N. by apply IH.
  - change (2 ^ e * 2)%N with (2 ^ e * 2 ^ 1)%N. rewrite <- N.pow_add_r. apply IH; [lia|done].
Qed.

Section Make.
Context {K V : Type} `{Countable K} (hash : K → N).

(** The slots a new map asks for. *)
Lemma makeHashMap_spec (maxSize : N) (allocates : N → bool) (init : N) :
  (init ≤ 2 ^ 63)%N →
  ∃ e, (4 ≤ e ≤ 63 ∧ init ≤ 2 ^ e ∧ (4 < e → 2 ^ (e - 1) < init))%N ∧
    match makeHashMap (K := K) (V := V) maxSize allocates init with
    | Val h => (2 ^ e ≤ maxSize)%N ∧ allocates (2 ^ e)%N = true ∧
        hm_repr hash h ∅ ∧ N.of_nat (capacity h) = (2 ^ e)%N
    | Throw LengthError => (maxSize < 2 ^ e)%N
    | Throw BadAlloc => (2 ^ e ≤ maxSize)%N ∧ allocates (2 ^ e)%N = false
    | _ => False
    end.
Proof.
  intros Hi. unfold makeHashMap, resizeSlots. change kMinCapacity with (2 ^ 4)%N.
  destruct (growCapacity_step 4 init 62) as (e & -> & He & Hinit & Hmin); [lia|done|simpl; lia|].
  exists e. split; [done|]. cbn [mbind result_bind].
  destruct (bool_decide_reflect (maxSize < 2 ^ e)%N) as [Hm|Hm]; [done|].
  destruct (allocates (2 ^ e)%N); [|split; [lia|done]]. split; [lia|]. split; [done|]. split.
  - split; [|unfold light; simpl; lia]. apply (wf_fresh hash _ (N.to_nat e)); [lia|].
    by rewrite N2Nat.inj_pow.
  - unfold capacity. simpl. rewrite length_replicate. lia.
Qed.
End Make.
