(* ===== verification/HashMapMain.v ===== *)
(** * Hash map: main theorems

    The table against its reference, a finite map, over every history of calls
    and for every hash function; construction. *)

From S2P Require Import Prelude HashMap KeyIndex HashMapSpec.

Section History.
Context {K V : Type} `{Countable K} (hash : K → N).

Inductive hash_op :=
  | HInsert (k : K) (v : V)
  | HInsertOrAssign (k : K) (v : V)
  | HErase (k : K)
  | HFind (k : K)
  | HContains (k : K)
  | HSubscript (k : K) (d : V)   (* [d]: what [V{}] is *)
  | HSize.
Inductive hash_out := HBool (b : bool) | HValue (v : option V) | HNat (n : nat).

Definition hash_call (h : HashMap K V) (o : hash_op) : result (HashMap K V * hash_out) :=
  match o with
  | HInsert k v => '(h', r) ← insert hash h k v; Val (h', HBool r)
  | HInsertOrAssign k v => '(h', r) ← insertOrAssign hash h k v; Val (h', HBool r)
  | HErase k => '(h', r) ← erase hash h k; Val (h', HBool r)
  | HFind k => r ← find hash h k; Val (h, HValue r)
  | HContains k => r ← contains hash h k; Val (h, HBool r)
  | HSubscript k d => '(h', v) ← subscript hash h k d; Val (h', HValue (Some v))
  | HSize => Val (h, HNat (size h))
  end.

Definition map_call (m : gmap K V) (o : hash_op) : gmap K V * hash_out :=
  match o with
  | HInsert k v => (if m !! k is Some _ then m else <[k:=v]> m, HBool (bool_decide (m !! k = None)))
  | HInsertOrAssign k v => (<[k:=v]> m, HBool (bool_decide (m !! k = None)))
  | HErase k => (delete k m, HBool (bool_decide (is_Some (m !! k))))
  | HFind k => (m, HValue (m !! k))
  | HContains k => (m, HBool (bool_decide (is_Some (m !! k))))
  | HSubscript k d => (if m !! k is Some _ then m else <[k:=d]> m, HValue (Some (default d (m !! k))))
  | HSize => (m, HNat (base.size m))
  end.

Definition hash_calls (h : HashMap K V) (ops : list hash_op) : result (HashMap K V * list hash_out) :=
  foldR (λ s o, '(h', r) ← hash_call s.1 o; Val (h', s.2 ++ [r])) (h, []) ops.

Definition map_calls (ops : list hash_op) : gmap K V * list hash_out :=
  foldl (λ s o, let '(m', r) := map_call s.1 o in (m', s.2 ++ [r])) (∅, []) ops.

Lemma hash_call_spec h m o :
  hm_repr hash h m →
  ∃ h', hash_call h o = Val (h', (map_call m o).2) ∧ hm_repr hash h' (map_call m o).1.
Proof.
  intros Hr. pose proof (HashMap_index_laws hash (V := V)) as L.
  destruct o as [k v|k v|k|k|k|k d|]; simpl.
  - destruct (hm_put_spec hash h m k v false Hr) as (h' & Hp & Hr'). unfold insert. rewrite Hp.
    exists h'. split; [done|]. by destruct (m !! k).
  - destruct (hm_put_spec hash h m k v true Hr) as (h' & Hp & Hr'). unfold insertOrAssign. rewrite Hp.
    exists h'. split; [done|]. by destruct (m !! k).
  - destruct (hm_erase_spec hash h m k Hr) as (h' & -> & Hr'). by exists h'.
  - rewrite (find_spec hash h m) by apply Hr. by exists h.
  - rewrite (contains_find hash h m) by apply Hr. by exists h.
  - destruct (subscript_spec hash h m k d Hr) as (h' & -> & Hr'). by exists h'.
  - exists h. split; [|done]. unfold size. rewrite (size_spec hash h m) by apply Hr. done.
Qed.

(** C10: For every hash function and every sequence of insert, insertOrAssign,
    erase, find, contains, operator[] and size calls on a new hash map, the calls
    return (every probe ends inside the table, through growth and tombstone
    purges), each returns what a finite map returns, the final table stands for
    that map, and forEach visits each of its entries exactly once. *)
Theorem hashmap_history (ops : list hash_op) :
  ∃ h, hash_calls newHashMap ops = Val (h, (map_calls ops).2) ∧
    hm_repr hash h (map_calls ops).1 ∧
    ∃ l, l ≡ₚ map_to_list (map_calls ops).1 ∧
      ∀ A (f : A → K * V → result A) s, forEach f h s = foldR f s l.
Proof.
  unfold hash_calls, map_calls.
  enough (∀ m outs h, hm_repr hash h m →
    ∃ h', foldR (λ s o, '(h', r) ← hash_call s.1 o; Val (h', s.2 ++ [r])) (h, outs) ops =
        Val (h', (foldl (λ s o, let '(m', r) := map_call s.1 o in (m', s.2 ++ [r])) (m, outs) ops).2) ∧
      hm_repr hash h' (foldl (λ s o, let '(m', r) := map_call s.1 o in (m', s.2 ++ [r])) (m, outs) ops).1)
    as Hgen.
  { destruct (Hgen ∅ [] newHashMap (new_spec hash)) as (h & ? & Hr). exists h. split; [done|].
    split; [done|]. exists (live_entries h). split; [by apply (live_entries_map hash), Hr|].
    intros A f s. by eapply forEach_entries, Hr. }
  induction ops as [|o ops IH]; intros m outs h Hr; [by exists h|].
  cbn [foldR foldl fst snd]. destruct (hash_call_spec h m o Hr) as (h1 & -> & Hr1).
  cbn [mbind result_bind]. destruct (map_call m o) as [m1 r]. by apply IH.
Qed.

(** Between calls the table is at most 70% in use (tombstones included) and
    its capacity is a power of two of at least 16, whatever the history. *)
Theorem hashmap_load (ops : list hash_op) :
  ∃ h outs e, hash_calls newHashMap ops = Val (h, outs) ∧
    4 ≤ e ∧ capacity h = 2 ^ e ∧ used_ h * 10 ≤ capacity h * 7 ∧ size_ h ≤ used_ h.
Proof.
  unfold hash_calls. enough (∀ m outs h, hm_repr hash h m →
    ∃ h' outs' m', foldR (λ s o, '(h', r) ← hash_call s.1 o; Val (h', s.2 ++ [r])) (h, outs) ops =
        Val (h', outs') ∧ hm_repr hash h' m') as Hgen.
  { destruct (Hgen ∅ [] newHashMap (new_spec hash)) as (h & outs & m & Heq & [Hwf Hl]).
    destruct (wf_cap _ _ _ Hwf) as (e & He & Hc). exists h, outs, e.
    pose proof (size_le_used hash h m Hwf). done. }
  induction ops as [|o ops IH]; intros m outs h Hr; [by exists h, outs, m|].
  cbn [foldR fst snd]. destruct (hash_call_spec h m o Hr) as (h1 & -> & Hr1).
  cbn [mbind result_bind]. by eapply IH.
Qed.

(** C33: The constructor with an initial capacity of at most 2^63 asks for the
    least power of two of slots that is at least 16 and the requested capacity.
    Above the vector's [max_size()] it throws [std::length_error]; below, it
    throws [std::bad_alloc] when there is no memory for the slots, and otherwise
    returns an empty map with exactly that many slots.  With a capacity above 2^63
    (the type allows it) the doubling wraps to zero and the loop never ends,
    however long it runs. *)
Theorem hashmap_construct (maxSize : N) (allocates : N → bool) (init : N) :
  ((init ≤ 2 ^ 63)%N →
    ∃ e, (4 ≤ e ≤ 63 ∧ init ≤ 2 ^ e ∧ (4 < e → 2 ^ (e - 1) < init))%N ∧
      ((maxSize < 2 ^ e)%N → makeHashMap (K := K) (V := V) maxSize allocates init = Throw LengthError) ∧
      ((2 ^ e ≤ maxSize)%N → allocates (2 ^ e)%N = false →
        makeHashMap (K := K) (V := V) maxSize allocates init = Throw BadAlloc) ∧
      ((2 ^ e ≤ maxSize)%N → allocates (2 ^ e)%N = true →
        ∃ h : HashMap K V, makeHashMap maxSize allocates init = Val h ∧
          hm_repr hash h ∅ ∧ N.of_nat (capacity h) = (2 ^ e)%N)) ∧
  ((2 ^ 63 < init)%N → ∀ fuel, growCapacity fuel kMinCapacity init = Undef).
Proof.
  split.
  - intros Hi. destruct (makeHashMap_spec (V := V) hash maxSize allocates init Hi) as (e & He & Hm). exists e. split; [done|].
    destruct (makeHashMap maxSize allocates init) as [h|[]|]; try done.
    + destruct Hm as (Hle & Hal & Hr & Hc). split_and!; [lia|congruence|]. by exists h.
    + split_and!; [done|lia|lia].
    + destruct Hm as [Hle Hal]. split_and!; [lia|done|congruence].
  - intros Hi fuel. change kMinCapacity with (2 ^ 4 mod 2 ^ 64)%N. apply growCapacity_wraps; [lia|done].
Qed.
End History.

(** A vector of at most 2^58 slots and memory for a million of them. *)
Lemma hashmap_construct_witness :
  ∃ e, (4 ≤ e ≤ 63 ∧ 100 ≤ 2 ^ e ∧ (4 < e → 2 ^ (e - 1) < 100))%N ∧
    ((2 ^ 58 < 2 ^ e)%N → makeHashMap (K := Z) (V := Z) (2 ^ 58) (λ n, n <=? 2 ^ 20)%N 100 = Throw LengthError) ∧
    ((2 ^ e ≤ 2 ^ 58)%N → (2 ^ e <=? 2 ^ 20)%N = false →
      makeHashMap (K := Z) (V := Z) (2 ^ 58) (λ n, n <=? 2 ^ 20)%N 100 = Throw BadAlloc) ∧
    ((2 ^ e ≤ 2 ^ 58)%N → (2 ^ e <=? 2 ^ 20)%N = true →
      ∃ h : HashMap Z Z, makeHashMap (2 ^ 58) (λ n, n <=? 2 ^ 20)%N 100 = Val h ∧
        hm_repr Z.to_N h ∅ ∧ N.of_nat (capacity h) = (2 ^ e)%N).
Proof. apply (hashmap_construct Z.to_N (2 ^ 58) (λ n, n <=? 2 ^ 20)%N 100). vm_compute. discriminate. Defined.
