(* ===== verification/LRUCache.v ===== *)
(** * LRU cache (include/structures/LRUCache.hpp)

    The recency list is a [std::list]: every node has an address that stays the
    same while the node moves, here a number drawn from a counter, and the index
    maps a key to the address of its node.  Using an address whose node is gone
    is undefined behaviour.  The index is any [KeyIndex]; the theorems are proved
    against its laws.

    [lru_repr c l]: the cache [c] holds the entries [l], most recent first. *)

From S2P Require Import Prelude KeyIndex.

Section LRUCache.
Context {K V Ix : Type} `{Countable K} `{!KeyIndex K nat Ix}.

(** ** [std::list] nodes *)
#[local] Abbreviation node := (nat * (K * V))%type.

Definition nodeAt (items : list node) (it : nat) : result (nat * node) :=
  deref (list_find (λ n, n.1 = it) items).

(** [it->second = value] *)
Definition assignNode (items : list node) (it : nat) (value : V) : result (list node) :=
  '(i, n) ← nodeAt items it; Val (<[i:=(n.1, (n.2.1, value))]> items).

(** [items_.splice(items_.begin(), items_, it)] *)
Definition spliceFront (items : list node) (it : nat) : result (list node) :=
  '(i, n) ← nodeAt items it; Val (n :: delete i items).

(** [items_.erase(it)] *)
Definition eraseNode (items : list node) (it : nat) : result (list node) :=
  '(i, n) ← nodeAt items it; Val (delete i items).

(** ** The cache *)
Record LRUCache := mkLRUCache {
  capacity_ : N;
  items_ : list node;
  index_ : Ix;
  hits_ : N;
  misses_ : N;
  nextNode : nat;   (* the next address the list allocates *)
}.

Definition incr (n : N) : N := ((n + 1) mod 2 ^ 64)%N.

Definition makeLRUCache (capacity : N) : result LRUCache :=
  if bool_decide (capacity = 0%N)
  then Throw (InvalidArgument "LRUCache: capacity must be > 0")
  else Val (mkLRUCache capacity [] ix_new 0 0 0).

Definition touch (c : LRUCache) (it : nat) : result LRUCache :=
  items ← spliceFront (items_ c) it;
  Val (mkLRUCache (capacity_ c) items (index_ c) (hits_ c) (misses_ c) (nextNode c)).

(** [if (items_.size() == capacity_) { ... }] of [put] *)
Definition evictIfFull (c : LRUCache) : result LRUCache :=
  if bool_decide (N.of_nat (length (items_ c)) = capacity_ c) then
    '(back, items) ← vec_pop_back (items_ c);
    '(index, _) ← ix_erase (index_ c) back.2.1;
    Val (mkLRUCache (capacity_ c) items index (hits_ c) (misses_ c) (nextNode c))
  else Val c.

Definition put (c : LRUCache) (key : K) (value : V) : result LRUCache :=
  found ← ix_find (index_ c) key;
  match found with
  | Some it =>
    items ← assignNode (items_ c) it value;
    touch (mkLRUCache (capacity_ c) items (index_ c) (hits_ c) (misses_ c) (nextNode c)) it
  | None =>
    c1 ← evictIfFull c;
    let it := nextNode c1 in
    let items := (it, (key, value)) :: items_ c1 in
    '(index, _) ← ix_insertOrAssign (index_ c1) key it;
    Val (mkLRUCache (capacity_ c1) items index (hits_ c1) (misses_ c1) (S it))
  end.

Definition get (c : LRUCache) (key : K) : result (LRUCache * option V) :=
  found ← ix_find (index_ c) key;
  match found with
  | None =>
    Val (mkLRUCache (capacity_ c) (items_ c) (index_ c) (hits_ c) (incr (misses_ c)) (nextNode c), None)
  | Some it =>
    c1 ← touch (mkLRUCache (capacity_ c) (items_ c) (index_ c) (incr (hits_ c)) (misses_ c) (nextNode c)) it;
    front ← deref (head (items_ c1));
    Val (c1, Some front.2.2)
  end.

Definition peek (c : LRUCache) (key : K) : result (option V) :=
  found ← ix_find (index_ c) key;
  match found with
  | None => Val None
  | Some it => '(_, n) ← nodeAt (items_ c) it; Val (Some n.2.2)
  end.

Definition contains (c : LRUCache) (key : K) : result bool := ix_contains (index_ c) key.

Definition erase (c : LRUCache) (key : K) : result (LRUCache * bool) :=
  found ← ix_find (index_ c) key;
  match found with
  | None => Val (c, false)
  | Some it =>
    items ← eraseNode (items_ c) it;
    '(index, _) ← ix_erase (index_ c) key;
    Val (mkLRUCache (capacity_ c) items index (hits_ c) (misses_ c) (nextNode c), true)
  end.

Definition clear (c : LRUCache) : LRUCache :=
  mkLRUCache (capacity_ c) [] ix_new (hits_ c) (misses_ c) (nextNode c).

Definition size (c : LRUCache) : nat := length (items_ c).
Definition capacity (c : LRUCache) : N := capacity_ c.
Definition hits (c : LRUCache) : N := hits_ c.
Definition misses (c : LRUCache) : N := misses_ c.
End LRUCache.

Arguments LRUCache : clear implicits.

(** ** The reference cache: a list of entries, most recent first *)
Section Recency.
Context {K V : Type} `{Countable K}.
Implicit Types (l : list (K * V)) (k : K) (v : V).

Definition cached l : gmap K V := list_to_map l.
Definition forget k l : list (K * V) := base.filter (λ e, e.1 ≠ k) l.

Definition ref_put (cap : N) k v l : list (K * V) :=
  (k, v) :: match cached l !! k with
            | Some _ => forget k l
            | None => if bool_decide (N.of_nat (length l) = cap) then take (length l - 1) l else l
            end.

Definition ref_get k l : option V * list (K * V) :=
  match cached l !! k with
  | Some v => (Some v, (k, v) :: forget k l)
  | None => (None, l)
  end.

Lemma forget_middle k v l1 l2 :
  NoDup (l1 ++ (k, v) :: l2).*1 → forget k (l1 ++ (k, v) :: l2) = l1 ++ l2.
Proof.
  rewrite fmap_app. csimpl. rewrite NoDup_app. intros (_ & Hd & Hn%NoDup_cons). destruct Hn as [Hn _].
  unfold forget. rewrite filter_app, filter_cons_False by naive_solver.
  f_equal; apply filter_all; intros [k' v'] Hi; simpl; intros ->.
  - apply (Hd k); [|by left]. by apply (list_elem_of_fmap_2 fst) in Hi.
  - by apply (list_elem_of_fmap_2 fst) in Hi.
Qed.

Lemma forget_absent k l : k ∉ l.*1 → forget k l = l.
Proof.
  intros Hk. apply filter_all. intros [k' v'] Hi. simpl. intros ->.
  apply Hk. by apply (list_elem_of_fmap_2 fst) in Hi.
Qed.

Lemma cached_Some k v l : NoDup l.*1 → cached l !! k = Some v ↔ (k, v) ∈ l.
Proof. intros Hn. symmetry. by apply elem_of_list_to_map. Qed.

Lemma cached_None k l : cached l !! k = None ↔ k ∉ l.*1.
Proof. symmetry. apply not_elem_of_list_to_map. Qed.

Lemma forget_cached k l : NoDup l.*1 → cached (forget k l) = delete k (cached l).
Proof.
  intros Hn. apply map_eq. intros k'. apply option_eq. intros v.
  assert (Hn' : NoDup (forget k l).*1).
  { eapply sublist_NoDup; [done|apply fmap_sublist, sublist_filter]. }
  rewrite cached_Some, lookup_delete_Some, cached_Some by done. unfold forget.
  rewrite list_elem_of_filter. simpl. split; intros [??]; done.
Qed.

Lemma forget_NoDup k l : NoDup l.*1 → NoDup (forget k l).*1 ∧ k ∉ (forget k l).*1.
Proof.
  intros Hn. split.
  - eapply sublist_NoDup; [done|apply fmap_sublist, sublist_filter].
  - by intros ([k' v] & -> & [? _]%list_elem_of_filter)%list_elem_of_fmap.
Qed.

Lemma ref_put_NoDup cap k v l : NoDup l.*1 → NoDup (ref_put cap k v l).*1.
Proof.
  intros Hn. unfold ref_put. destruct (cached l !! k) eqn:Hk.
  - csimpl. constructor; by apply forget_NoDup.
  - apply cached_None in Hk.
    assert (Hsub : take (length l - 1) l `sublist_of` l) by apply sublist_take.
    case_bool_decide; csimpl; constructor; try done.
    + intros Hin. apply Hk. eapply elem_of_submseteq; [done|].
      by apply fmap_submseteq, sublist_submseteq.
    + eapply sublist_NoDup; [done|by apply fmap_sublist].
Qed.

(** Reading only reorders; storing adds one entry and may lose others. *)
Lemma ref_get_cached k l : NoDup l.*1 → cached (ref_get k l).2 = cached l.
Proof.
  intros Hn. unfold ref_get. destruct (cached l !! k) as [v|] eqn:Hk; [|done]. simpl.
  unfold cached at 1. simpl. fold (cached (forget k l)). rewrite forget_cached by done.
  by rewrite insert_delete_id.
Qed.

Lemma ref_put_here cap k v l : cached (ref_put cap k v l) !! k = Some v.
Proof. unfold ref_put, cached at 1. simpl. apply lookup_insert_eq. Qed.

Lemma ref_put_sub cap k v l k' v' :
  NoDup l.*1 → cached (ref_put cap k v l) !! k' = Some v' →
  (k' = k ∧ v' = v) ∨ (k' ≠ k ∧ cached l !! k' = Some v').
Proof.
  intros Hn Hk'. pose proof (ref_put_NoDup cap k v l Hn) as Hn'.
  destruct (decide (k' = k)) as [->|Hne]; [left|right; split; [done|]].
  { rewrite ref_put_here in Hk'. by simplify_eq. }
  apply cached_Some in Hk'; [|done]. apply cached_Some; [done|]. unfold ref_put in Hk'.
  apply elem_of_cons in Hk' as [[=]|Hin]; [done|].
  destruct (cached l !! k); [by apply list_elem_of_filter in Hin as [_ Hin]|].
  case_bool_decide; [|done]. eapply elem_of_submseteq; [done|]. apply sublist_submseteq, sublist_take.
Qed.

(** ** Working sets

    An entry survives as long as fewer than [cap] keys have been used since it
    was: it can only sink by one place for every other key. *)
Inductive lru_op := OpPut (k : K) (v : V) | OpGet (k : K).
Definition op_key (o : lru_op) : K := match o with OpPut k _ => k | OpGet k => k end.

Definition ref_step (cap : N) l (o : lru_op) : list (K * V) :=
  match o with OpPut k v => ref_put cap k v l | OpGet k => (ref_get k l).2 end.

Definition sunk (X : gset K) k v l : Prop :=
  NoDup l.*1 ∧ ∃ l1 l2, l = l1 ++ (k, v) :: l2 ∧ ∀ k', k' ∈ l1.*1 → k' ∈ X.

Lemma sunk_promote X k v k' v' l :
  k' ≠ k → k' ∈ X → sunk X k v l → sunk X k v ((k', v') :: forget k' l).
Proof.
  intros Hne HX (Hn & l1 & l2 & -> & Hsub). split; [csimpl; constructor; by apply forget_NoDup|].
  exists ((k', v') :: forget k' l1), (forget k' l2). split.
  - unfold forget. by rewrite filter_app, filter_cons_True by (simpl; congruence).
  - csimpl. intros k0 [->|(e & -> & [_ Hin]%list_elem_of_filter)%list_elem_of_fmap]%elem_of_cons; [done|].
    apply Hsub. by apply list_elem_of_fmap_2.
Qed.

Lemma sunk_new X k v k' v' l cap :
  k' ≠ k → k' ∈ X → (N.of_nat (base.size X) < cap)%N → cached l !! k' = None →
  sunk X k v l → sunk X k v (ref_put cap k' v' l).
Proof.
  intros Hne HX Hsz Hk' (Hn & l1 & l2 & -> & Hsub). split; [by apply ref_put_NoDup|].
  unfold ref_put. rewrite Hk'. apply cached_None in Hk'.
  assert (Hsub' : ∀ k0, k0 ∈ ((k', v') :: l1).*1 → k0 ∈ X).
  { csimpl. intros k0 [->|Hin]%elem_of_cons; [done|by apply Hsub]. }
  case_bool_decide as Hfull; [|by exists ((k', v') :: l1), l2].
  destruct l2 as [|x l2 _] using rev_ind.
  - exfalso. rewrite length_app in Hfull. simpl in Hfull.
    assert (Hc : NoDup (k' :: l1.*1)).
    { rewrite fmap_app, NoDup_app in Hn. rewrite fmap_app, not_elem_of_app in Hk'.
      constructor; [apply Hk'|apply Hn]. }
    assert (Hle : base.size (list_to_set (k' :: l1.*1) : gset K) ≤ base.size X).
    { apply subseteq_size. intros k0 Hk0%elem_of_list_to_set. by apply Hsub'. }
    rewrite size_list_to_set in Hle by done. simpl in Hle. rewrite length_fmap in Hle. lia.
  - exists ((k', v') :: l1), l2. split; [|done].
    rewrite app_comm_cons, (assoc_L (++)), take_app_length'; [done|]. rewrite !length_app. simpl. lia.
Qed.

Lemma sunk_step X k v l cap o :
  op_key o ≠ k → op_key o ∈ X → (N.of_nat (base.size X) < cap)%N →
  sunk X k v l → sunk X k v (ref_step cap l o).
Proof.
  intros Hne HX Hsz Hs. destruct o as [k' v'|k']; simpl in *.
  - destruct (cached l !! k') eqn:Hk'; [|by apply sunk_new]. unfold ref_put. rewrite Hk'.
    by apply sunk_promote.
  - unfold ref_get. destruct (cached l !! k'); [by apply sunk_promote|done].
Qed.
End Recency.

(** ** Refinement *)
Section Spec.
Context {K V Ix : Type} `{Countable K} `{!KeyIndex K nat Ix} `{!KeyIndexLaws K nat Ix}.
#[local] Abbreviation node := (nat * (K * V))%type.
Implicit Types (c : LRUCache K V Ix) (l : list (K * V)) (k : K) (v : V) (n : node).

(** The index [m] holds exactly the addresses of the nodes. *)
Definition addresses (items : list (node)) (m : gmap K nat) : Prop :=
  ∀ k it, m !! k = Some it ↔ ∃ v, (it, (k, v)) ∈ items.

Record lru_repr c l : Prop := {
  lr_items : (items_ c).*2 = l;
  lr_cap : (0 < capacity_ c)%N;
  lr_len : (N.of_nat (length l) ≤ capacity_ c)%N;
  lr_keys : NoDup l.*1;
  lr_ids : NoDup (items_ c).*1;
  lr_fresh : ∀ n, n ∈ items_ c → n.1 < nextNode c;
  lr_index : ∃ m, ix_repr (index_ c) m ∧ addresses (items_ c) m;
}.

(** A node that the list holds is found by its address. *)
Lemma nodeAt_middle (l1 l2 : list (node)) it e :
  NoDup (l1 ++ (it, e) :: l2).*1 →
  nodeAt (l1 ++ (it, e) :: l2) it = Val (length l1, (it, e)).
Proof.
  intros Hn. unfold nodeAt.
  replace (list_find _ _) with (Some (length l1, (it, e))); [done|].
  symmetry. apply list_find_Some. split; [by apply list_lookup_middle|]. split; [done|].
  intros j y Hj Hlt Hy. assert (j = length l1); [|lia]. apply (NoDup_lookup _ _ _ it Hn).
  - by rewrite list_lookup_fmap, Hj, <- Hy.
  - by rewrite list_lookup_fmap, list_lookup_middle.
Qed.

(** What the index says about a key, in terms of the nodes. *)
Lemma find_cases c l k :
  lru_repr c l →
  (∃ (it : nat) v (l1 l2 : list (node)), ix_find (index_ c) k = Val (Some it) ∧ items_ c = l1 ++ (it, (k, v)) :: l2 ∧
     nodeAt (items_ c) it = Val (length l1, (it, (k, v))) ∧
     l = l1.*2 ++ (k, v) :: l2.*2 ∧ cached l !! k = Some v ∧ forget k l = l1.*2 ++ l2.*2) ∨
  (ix_find (index_ c) k = Val None ∧ cached l !! k = None).
Proof.
  intros Hr. destruct (lr_index _ _ Hr) as (m & Hm & Ha). rewrite (ix_find_ok _ _ _ Hm).
  destruct (m !! k) as [it|] eqn:Hk; [left|right].
  - apply Ha in Hk as (v & (l1 & l2 & Heq)%list_elem_of_split).
    assert (Hl : l = l1.*2 ++ (k, v) :: l2.*2).
    { rewrite <- (lr_items _ _ Hr), Heq. by rewrite fmap_app. }
    pose proof (lr_keys _ _ Hr) as Hnk. pose proof (lr_ids _ _ Hr) as Hni.
    exists it, v, l1, l2. split; [done|]. split; [done|]. split.
    { rewrite Heq in Hni |- *. by apply nodeAt_middle. }
    split; [done|]. split.
    + apply cached_Some; [done|]. rewrite Hl. apply elem_of_app. right. by left.
    + rewrite Hl in Hnk |- *. by apply forget_middle.
  - split; [done|]. apply cached_None. rewrite <- (lr_items _ _ Hr).
    intros ((k' & v) & -> & ((it & e) & Heq & Hin)%list_elem_of_fmap)%list_elem_of_fmap.
    simpl in *. subst e. assert (m !! k' = Some it) by (apply Ha; eauto). congruence.
Qed.

Lemma makeLRUCache_spec (cap : N) :
  (0 < cap)%N → ∃ c, makeLRUCache cap = Val c ∧ lru_repr c [] ∧ capacity_ c = cap.
Proof.
  intros Hc. unfold makeLRUCache. rewrite bool_decide_eq_false_2 by lia.
  eexists. split; [done|]. split; [|done]. split; simpl; try done; try lia; try apply NoDup_nil_2.
  - by intros n ?%elem_of_nil.
  - exists ∅. split; [apply ix_new_ok|]. intros k it. rewrite lookup_empty. split; [done|].
    by intros (v & ?%elem_of_nil).
Qed.

(** Nodes moved, no key or address gained or lost. *)
Lemma lru_repr_perm c l c' :
  lru_repr c l → capacity_ c' = capacity_ c → index_ c' = index_ c → nextNode c' = nextNode c →
  (λ n : node, (n.1, n.2.1)) <$> items_ c' ≡ₚ (λ n, (n.1, n.2.1)) <$> items_ c →
  lru_repr c' (items_ c').*2.
Proof.
  intros Hr Hc Hi Hn Hp.
  assert (Hids : (items_ c').*1 ≡ₚ (items_ c).*1).
  { apply (fmap_Permutation fst) in Hp. by rewrite <- !list_fmap_compose in Hp. }
  assert (Hkeys : (items_ c').*2.*1 ≡ₚ l.*1).
  { rewrite <- (lr_items _ _ Hr). apply (fmap_Permutation snd) in Hp.
    rewrite <- !list_fmap_compose in Hp. by rewrite <- !list_fmap_compose. }
  assert (Hmem : ∀ it k, (∃ v, (it, (k, v)) ∈ items_ c') ↔ ∃ v, (it, (k, v)) ∈ items_ c).
  { assert (Hgen : ∀ (x : list (node)) it k, (∃ v, (it, (k, v)) ∈ x) ↔
      (it, k) ∈ (λ n : node, (n.1, n.2.1)) <$> x).
    { intros x it k. rewrite list_elem_of_fmap. split; [intros [v Hv]; by exists (it, (k, v))|].
      intros ((it' & k' & v) & [= -> ->] & Hin). by exists v. }
    intros it k. by rewrite !Hgen, Hp. }
  split; try done.
  - rewrite Hc. apply Hr.
  - rewrite Hc. rewrite <- (length_fmap fst), Hkeys, length_fmap. apply Hr.
  - rewrite Hkeys. apply Hr.
  - rewrite Hids. apply Hr.
  - intros n Hin. rewrite Hn. assert (Hin' : n.1 ∈ (items_ c).*1) by (rewrite <- Hids; by apply list_elem_of_fmap_2).
    apply list_elem_of_fmap in Hin' as (n' & -> & Hin'). by apply Hr.
  - destruct (lr_index _ _ Hr) as (m & Hm & Ha). exists m. rewrite Hi. split; [done|].
    intros k it. by rewrite Hmem.
Qed.

Lemma lru_get_spec c l k :
  lru_repr c l →
  ∃ c', get c k = Val (c', (ref_get k l).1) ∧ lru_repr c' (ref_get k l).2 ∧
    capacity_ c' = capacity_ c ∧
    hits_ c' = (if (ref_get k l).1 is Some _ then incr (hits_ c) else hits_ c) ∧
    misses_ c' = (if (ref_get k l).1 is Some _ then misses_ c else incr (misses_ c)).
Proof.
  intros Hr. unfold get, ref_get.
  destruct (find_cases c l k Hr) as [(it & v & l1 & l2 & -> & Hi & Hat & Hl & -> & ->)|[-> ->]];
    cbn [mbind result_bind].
  - unfold touch, spliceFront. simpl. rewrite Hat. cbn [mbind result_bind].
    rewrite Hi, delete_middle. simpl. eexists. split; [done|]. split; [|done].
    assert ((k, v) :: l1.*2 ++ l2.*2 = ((it, (k, v)) :: l1 ++ l2).*2) as -> by (csimpl; by rewrite fmap_app).
    eapply (lru_repr_perm c l (mkLRUCache _ _ _ _ _ _)); simpl; try done.
    rewrite Hi, !fmap_app. csimpl. rewrite ?fmap_app. apply Permutation_middle.
  - eexists. split; [done|]. split; [|done]. rewrite <- (lr_items _ _ Hr).
    by eapply (lru_repr_perm c l (mkLRUCache _ _ _ _ _ _)).
Qed.

Lemma lru_peek_spec c l k : lru_repr c l → peek c k = Val (cached l !! k).
Proof.
  intros Hr. unfold peek.
  destruct (find_cases c l k Hr) as [(it & v & l1 & l2 & -> & Hi & Hat & Hl & -> & _)|[-> ->]]; [|done].
  cbn [mbind result_bind]. by rewrite Hat.
Qed.

Lemma lru_contains_spec c l k : lru_repr c l → contains c k = Val (bool_decide (is_Some (cached l !! k))).
Proof.
  intros Hr. pose proof (find_cases c l k Hr) as Hf. unfold contains.
  destruct (lr_index _ _ Hr) as (m & Hm & _).
  rewrite (ix_contains_ok _ _ _ Hm). rewrite (ix_find_ok _ _ _ Hm) in Hf.
  f_equal. apply bool_decide_ext. destruct Hf as [(it & v & ? & ? & [= ->] & _ & _ & _ & -> & _)|[[= ->] ->]]; [|done].
  split; intros _; by eexists.
Qed.

(** A node goes, and its key with it. *)
Lemma lru_repr_drop c l (l1 : list (node)) (n : node) (l2 : list (node)) index m hs ms :
  lru_repr c l → items_ c = l1 ++ n :: l2 →
  ix_repr index (delete n.2.1 m) → addresses (items_ c) m →
  lru_repr (mkLRUCache (capacity_ c) (l1 ++ l2) index hs ms (nextNode c)) (l1.*2 ++ l2.*2).
Proof.
  intros Hr Hi Hix Ha. destruct n as [it [k v]]. simpl in Hix.
  pose proof (lr_items _ _ Hr) as Hl. pose proof (lr_keys _ _ Hr) as Hk. pose proof (lr_ids _ _ Hr) as Hid.
  pose proof (lr_len _ _ Hr) as Hlen.
  rewrite <- Hl, Hi in Hk. rewrite Hi in Hid, Ha. rewrite <- Hl, Hi in Hlen.
  rewrite <- Permutation_middle in Hk. rewrite <- Permutation_middle in Hid. csimpl in *.
  apply NoDup_cons in Hk as [Hk1 Hk2]. apply NoDup_cons in Hid as [Hid1 Hid2].
  rewrite length_fmap, length_app in Hlen. simpl in Hlen.
  rewrite <- fmap_app. split; simpl; try done.
  - apply Hr.
  - rewrite length_fmap, length_app. lia.
  - intros n Hn. apply (lr_fresh _ _ Hr). rewrite Hi.
    apply elem_of_app. apply elem_of_app in Hn as [?|?]; [by left|right; by right].
  - exists (delete k m). split; [done|]. intros k' it'. rewrite lookup_delete_Some, (Ha k' it').
    setoid_rewrite elem_of_app. setoid_rewrite elem_of_cons. split.
    + intros (Hne & v' & Hin). exists v'. destruct Hin as [?|[[= -> -> ->]|?]]; [by left|done|by right].
    + intros (v' & Hin). split.
      * intros ->. apply Hk1. apply elem_of_app in Hin.
        apply (list_elem_of_fmap_2 (λ n : node, n.2)) in Hin.
        by apply (list_elem_of_fmap_2 fst) in Hin.
      * exists v'. tauto.
Qed.

Lemma lru_erase_spec c l k :
  lru_repr c l →
  ∃ c', erase c k = Val (c', bool_decide (is_Some (cached l !! k))) ∧ lru_repr c' (forget k l) ∧
    capacity_ c' = capacity_ c ∧ hits_ c' = hits_ c ∧ misses_ c' = misses_ c.
Proof.
  intros Hr. unfold erase.
  destruct (find_cases c l k Hr) as [(it & v & l1 & l2 & -> & Hi & Hat & Hl & -> & ->)|[-> Hn]];
    cbn [mbind result_bind].
  - unfold eraseNode. rewrite Hat. cbn [mbind result_bind]. rewrite Hi, delete_middle.
    destruct (lr_index _ _ Hr) as (m & Hm & Ha).
    destruct (ix_erase_ok _ _ k Hm) as (ix' & -> & Hix). cbn [mbind result_bind].
    eexists. split; [done|]. split; [|done]. by eapply lru_repr_drop.
  - rewrite Hn. exists c. split; [done|]. split; [|done].
    rewrite forget_absent; [done|]. by apply cached_None.
Qed.

Lemma evictIfFull_spec c l :
  lru_repr c l →
  ∃ c' l', evictIfFull c = Val c' ∧ lru_repr c' l' ∧
    l' = (if bool_decide (N.of_nat (length l) = capacity_ c) then take (length l - 1) l else l) ∧
    (N.of_nat (length l') < capacity_ c)%N ∧
    capacity_ c' = capacity_ c ∧ hits_ c' = hits_ c ∧ misses_ c' = misses_ c.
Proof.
  intros Hr. unfold evictIfFull. pose proof (lr_len _ _ Hr) as Hlen. pose proof (lr_cap _ _ Hr) as Hcap.
  assert (Hle : length (items_ c) = length l) by (rewrite <- (lr_items _ _ Hr); by rewrite length_fmap).
  rewrite Hle. case_bool_decide as Hfull; [|by exists c, l; split_and!; try done; lia].
  destruct (snoc_inv (items_ c)) as (l1 & [it [k v]] & Hi); [lia|].
  destruct (lr_index _ _ Hr) as (m & Hm & Ha).
  rewrite Hi, vec_pop_back_snoc. cbn [mbind result_bind fst snd].
  destruct (ix_erase_ok _ _ k Hm) as (ix' & -> & Hix). cbn [mbind result_bind].
  exists (mkLRUCache (capacity_ c) l1 ix' (hits_ c) (misses_ c) (nextNode c)), l1.*2.
  assert (Hl : l = l1.*2 ++ [(k, v)]) by (rewrite <- (lr_items _ _ Hr), Hi; by rewrite fmap_app).
  assert (Hln : length l = length l1 + 1) by (rewrite Hl, length_app, length_fmap; done).
  split; [done|]. split.
  - pose proof (lru_repr_drop c l l1 (it, (k, v)) [] ix' m (hits_ c) (misses_ c) Hr Hi Hix Ha) as Hd.
    csimpl in Hd. by rewrite !app_nil_r in Hd.
  - split; [|rewrite length_fmap; simpl; split_and!; try done; lia].
    rewrite Hln, Hl, take_app_length' by (rewrite length_fmap; lia). done.
Qed.

Lemma lru_put_spec c l k v :
  lru_repr c l →
  ∃ c', put c k v = Val c' ∧ lru_repr c' (ref_put (capacity_ c) k v l) ∧
    capacity_ c' = capacity_ c ∧ hits_ c' = hits_ c ∧ misses_ c' = misses_ c.
Proof.
  intros Hr. unfold put, ref_put.
  destruct (find_cases c l k Hr) as [(it & v0 & l1 & l2 & -> & Hi & Hat & Hl & -> & ->)|[-> Hn]];
    cbn [mbind result_bind].
  - unfold assignNode. rewrite Hat. cbn [mbind result_bind fst snd].
    pose proof (lr_ids _ _ Hr) as Hid. rewrite Hi in Hid.
    rewrite Hi, insert_app_r_alt, Nat.sub_diag by lia. simpl.
    unfold touch, spliceFront. simpl. rewrite nodeAt_middle by (by rewrite fmap_app in Hid |- *).
    cbn [mbind result_bind]. rewrite delete_middle. eexists. split; [done|]. split; [|done].
    assert ((k, v) :: l1.*2 ++ l2.*2 = ((it, (k, v)) :: l1 ++ l2).*2) as -> by (csimpl; by rewrite fmap_app).
    eapply (lru_repr_perm c l (mkLRUCache _ _ _ _ _ _)); simpl; try done.
    rewrite Hi, !fmap_app. csimpl. rewrite ?fmap_app. apply Permutation_middle.
  - rewrite Hn. destruct (evictIfFull_spec c l Hr) as (c1 & l1 & -> & Hr1 & Hl1 & Hlt & Hc1 & Hh & Hms).
    cbn [mbind result_bind]. rewrite <- Hl1.
    assert (Hnk : k ∉ l1.*1).
    { apply cached_None in Hn. intros Hin. apply Hn. rewrite Hl1 in Hin. case_bool_decide; [|done].
      eapply elem_of_submseteq; [done|]. apply fmap_submseteq, sublist_submseteq, sublist_take. }
    destruct (lr_index _ _ Hr1) as (m & Hm & Ha).
    destruct (ix_insertOrAssign_ok _ _ k (nextNode c1) Hm) as (ix' & -> & Hix). cbn [mbind result_bind].
    eexists. split; [done|]. split; [|done]. split; simpl.
    + exact (f_equal (cons (k, v)) (lr_items _ _ Hr1)).
    + apply Hr1.
    + rewrite Hc1. lia.
    + constructor; [done|apply Hr1].
    + constructor; [|apply Hr1]. intros (n & Heq & Hin)%list_elem_of_fmap.
      apply (lr_fresh _ _ Hr1) in Hin. lia.
    + intros n [->|Hin]%elem_of_cons; simpl; [lia|]. apply (lr_fresh _ _ Hr1) in Hin. lia.
    + eexists. split; [done|]. intros k' it'. rewrite lookup_insert_Some, (Ha k' it').
      setoid_rewrite elem_of_cons. split.
      * intros [[<- <-]|(_ & v' & Hin)]; [by exists v; left|by exists v'; right].
      * intros (v' & [[= -> -> ->]|Hin]); [by left|]. right. split; [|by exists v']. intros <-. apply Hnk.
        rewrite <- (lr_items _ _ Hr1). apply (list_elem_of_fmap_2 (λ n : node, n.2)) in Hin.
        by apply (list_elem_of_fmap_2 fst) in Hin.
Qed.

(** A sequence of uses. *)
Definition runOps c (ops : list (@lru_op K V)) : result (LRUCache K V Ix) :=
  foldR (λ c o, match o with
    | OpPut k v => put c k v
    | OpGet k => '(c', _) ← get c k; Val c'
    end) c ops.

Lemma runOps_spec c l ops :
  lru_repr c l →
  ∃ c', runOps c ops = Val c' ∧ lru_repr c' (foldl (ref_step (capacity_ c)) l ops) ∧
    capacity_ c' = capacity_ c.
Proof.
  unfold runOps. revert c l. induction ops as [|o ops IH]; intros c l Hr; [by exists c|].
  assert (∃ c1, (match o with
    | OpPut k v => put c k v
    | OpGet k => '(c', _) ← get c k; Val c'
    end) = Val c1 ∧ lru_repr c1 (ref_step (capacity_ c) l o) ∧ capacity_ c1 = capacity_ c)
    as (c1 & Heq & Hr1 & Hc1).
  { destruct o as [k v|k].
    - destruct (lru_put_spec c l k v Hr) as (c1 & ? & ? & ? & _). eauto.
    - destruct (lru_get_spec c l k Hr) as (c1 & -> & ? & ? & _). eauto. }
  cbn [foldR foldl]. rewrite Heq. rewrite <- Hc1 in Hr1 |- *. cbn [mbind result_bind]. by apply IH.
Qed.

Lemma working_set_spec c l k v ops :
  lru_repr c l →
  (∀ o, o ∈ ops → op_key o ≠ k) →
  (N.of_nat (base.size (list_to_set (op_key <$> ops) : gset K)) < capacity_ c)%N →
  ∃ c', (c1 ← put c k v; runOps c1 ops) = Val c' ∧ peek c' k = Val (Some v).
Proof.
  intros Hr Hne Hsz. destruct (lru_put_spec c l k v Hr) as (c1 & -> & Hr1 & Hc1 & _). cbn [mbind result_bind].
  destruct (runOps_spec c1 _ ops Hr1) as (c2 & -> & Hr2 & _). exists c2. split; [done|].
  rewrite (lru_peek_spec _ _ k Hr2). f_equal. rewrite Hc1 in *.
  set (X := list_to_set (op_key <$> ops) : gset K) in *.
  assert (HX : ∀ o, o ∈ ops → op_key o ∈ X).
  { intros o Ho. apply elem_of_list_to_set. by apply list_elem_of_fmap_2. }
  assert (Hs : sunk X k v (ref_put (capacity_ c) k v l)).
  { split; [apply Hr1|]. eexists [], _. split; [done|]. by intros k' ?%elem_of_nil. }
  clear Hr2. clearbody X. revert Hs. generalize (ref_put (capacity_ c) k v l).
  induction ops as [|o ops IH]; intros l0 Hs.
  - destruct Hs as (Hn & l1 & l2 & Heq & _). apply cached_Some; [done|]. simpl. rewrite Heq.
    apply elem_of_app. right. by left.
  - simpl. apply IH.
    + intros o' Ho'. apply Hne. by right.
    + intros o' Ho'. apply HX. by right.
    + apply sunk_step; [apply Hne; by left|apply HX; by left|done|done].
Qed.

Lemma lru_clear_spec c l : lru_repr c l → lru_repr (clear c) [].
Proof.
  intros Hr. split; simpl; try done; try apply NoDup_nil_2.
  - apply Hr.
  - lia.
  - by intros n ?%elem_of_nil.
  - exists ∅. split; [apply ix_new_ok|]. intros k it. rewrite lookup_empty. split; [done|].
    by intros (v & ?%elem_of_nil).
Qed.
End Spec.
