(* ===== verification/LRUMain.v ===== *)
(** * LRU cache: main theorems

    The cache over the hash map, for every hash function, against the reference
    list of entries in recency order. *)

From S2P Require Import Prelude HashMap KeyIndex HashMapSpec LRUCache.

Section History.
Context {K V : Type} `{Countable K} (hash : K → N).
#[local] Instance index : KeyIndex K nat (HashMap K nat) := HashMap_index hash.
#[local] Instance index_laws : KeyIndexLaws K nat (HashMap K nat) := HashMap_index_laws hash.
Abbreviation Cache := (LRUCache K V (HashMap K nat)).

Inductive cache_op := CPut (k : K) (v : V) | CGet (k : K) | CPeek (k : K) | CContains (k : K)
  | CErase (k : K) | CClear | CSize.
Inductive cache_out := CUnit | CBool (b : bool) | CValue (v : option V) | CNat (n : nat).

Definition cache_call (c : Cache) (o : cache_op) : result (Cache * cache_out) :=
  match o with
  | CPut k v => c' ← put c k v; Val (c', CUnit)
  | CGet k => '(c', v) ← get c k; Val (c', CValue v)
  | CPeek k => v ← peek c k; Val (c, CValue v)
  | CContains k => b ← contains c k; Val (c, CBool b)
  | CErase k => '(c', b) ← erase c k; Val (c', CBool b)
  | CClear => Val (clear c, CUnit)
  | CSize => Val (c, CNat (size c))
  end.

Definition recency_call (cap : N) (l : list (K * V)) (o : cache_op) : list (K * V) * cache_out :=
  match o with
  | CPut k v => (ref_put cap k v l, CUnit)
  | CGet k => ((ref_get k l).2, CValue (ref_get k l).1)
  | CPeek k => (l, CValue (cached l !! k))
  | CContains k => (l, CBool (bool_decide (is_Some (cached l !! k))))
  | CErase k => (forget k l, CBool (bool_decide (is_Some (cached l !! k))))
  | CClear => ([], CUnit)
  | CSize => (l, CNat (length l))
  end.

Definition cache_calls (c : Cache) (ops : list cache_op) : result (Cache * list cache_out) :=
  foldR (λ s o, '(c', r) ← cache_call s.1 o; Val (c', s.2 ++ [r])) (c, []) ops.

Definition recency_calls (cap : N) (ops : list cache_op) : list (K * V) * list cache_out :=
  foldl (λ s o, let '(l', r) := recency_call cap s.1 o in (l', s.2 ++ [r])) ([], []) ops.

Lemma cache_call_spec (c : Cache) l o :
  lru_repr c l →
  ∃ c', cache_call c o = Val (c', (recency_call (capacity_ c) l o).2) ∧
    lru_repr c' (recency_call (capacity_ c) l o).1 ∧ capacity_ c' = capacity_ c.
Proof.
  intros Hr. destruct o as [k v|k|k|k|k| |]; cbn [cache_call recency_call fst snd].
  - destruct (lru_put_spec c l k v Hr) as (c' & -> & ? & ? & _). by exists c'.
  - destruct (lru_get_spec c l k Hr) as (c' & -> & ? & ? & _). by exists c'.
  - rewrite (lru_peek_spec c l) by done. by exists c.
  - rewrite (lru_contains_spec c l) by done. by exists c.
  - destruct (lru_erase_spec c l k Hr) as (c' & -> & ? & ? & _). by exists c'.
  - exists (clear c). split; [done|]. split; [by eapply lru_clear_spec|done].
  - exists c. split; [|done]. unfold size. do 3 f_equal. rewrite <- (lr_items _ _ Hr). by rewrite length_fmap.
Qed.

(** C28: For every capacity above zero, every hash function and every sequence of
    put, get, peek, contains, erase, clear and size calls on a new cache, the
    calls return (no stale list iterator is ever followed), each returns what the
    recency list returns, and the final cache holds that list: never more entries
    than its capacity, keys unique, most recently used first. *)
Theorem lru_history (cap : N) (ops : list cache_op) :
  (0 < cap)%N →
  ∃ c c', makeLRUCache cap = Val c ∧
    cache_calls c ops = Val (c', (recency_calls cap ops).2) ∧
    lru_repr c' (recency_calls cap ops).1.
Proof.
  intros Hcap. destruct (makeLRUCache_spec (V := V) cap Hcap) as (c & Hc & Hr & Hcc). exists c.
  unfold cache_calls, recency_calls. rewrite <- Hcc.
  enough (∀ l outs c1, lru_repr c1 l → capacity_ c1 = capacity_ c →
    ∃ c', foldR (λ s o, '(c', r) ← cache_call s.1 o; Val (c', s.2 ++ [r])) (c1, outs) ops =
        Val (c', (foldl (λ s o, let '(l', r) := recency_call (capacity_ c) s.1 o in (l', s.2 ++ [r]))
                   (l, outs) ops).2) ∧
      lru_repr c' (foldl (λ s o, let '(l', r) := recency_call (capacity_ c) s.1 o in (l', s.2 ++ [r]))
                   (l, outs) ops).1) as Hgen.
  { destruct (Hgen [] [] c Hr eq_refl) as (c' & ? & ?). exists c'. by rewrite <- Hcc in Hc. }
  induction ops as [|o ops IH]; intros l outs c1 Hr1 Hc1; [by exists c1|].
  cbn [foldR foldl fst snd]. destruct (cache_call_spec c1 l o Hr1) as (c2 & -> & Hr2 & Hc2).
  cbn [mbind result_bind]. rewrite Hc1 in *. destruct (recency_call (capacity_ c) l o) as [l2 r]. by apply IH.
Qed.

(** A value that was put stays readable through any number of put and get
    calls for other keys, as long as fewer distinct keys than the capacity are
    used: eviction takes the least recently used entry and no other. *)
Theorem lru_working_set (c : Cache) (l : list (K * V)) (k : K) (v : V) (ops : list lru_op) :
  lru_repr c l →
  (∀ o, o ∈ ops → op_key o ≠ k) →
  (N.of_nat (base.size (list_to_set (op_key <$> ops) : gset K)) < capacity_ c)%N →
  ∃ c', (c1 ← put c k v; runOps c1 ops) = Val c' ∧ peek c' k = Val (Some v).
Proof. apply working_set_spec. Qed.
End History.

Lemma lru_history_witness :
  let ops := [CPut 1 1; CPut 2 2; CGet 1; CPut 3 3; CGet 2; CErase 1; CSize]%Z in
  ∃ c c', makeLRUCache (KeyIndex0 := HashMap_index Z.to_N) 2 = Val c ∧
    cache_calls Z.to_N c ops = Val (c', (recency_calls 2 ops).2) ∧
    lru_repr (KeyIndexLaws0 := HashMap_index_laws Z.to_N) c' (recency_calls 2 ops).1.
Proof. apply (lru_history Z.to_N 2). lia. Defined.

Lemma lru_working_set_witness :
  let ops := [OpPut 2 20; OpGet 1; OpPut 2 21; OpGet 2]%Z in
  ∃ c c', makeLRUCache (KeyIndex0 := HashMap_index Z.to_N) 3 = Val c ∧
    (c1 ← put (KeyIndex0 := HashMap_index Z.to_N) c 7%Z 70%Z;
     runOps (KeyIndex0 := HashMap_index Z.to_N) c1 ops) = Val c' ∧
    peek (KeyIndex0 := HashMap_index Z.to_N) c' 7%Z = Val (Some 70%Z).
Proof.
  intros ops. destruct (makeLRUCache_spec (KeyIndexLaws0 := HashMap_index_laws Z.to_N) (V := Z) 3)
    as (c & Hc & Hr & Hcap); [lia|]. exists c.
  destruct (lru_working_set Z.to_N c [] 7%Z 70%Z ops Hr) as (c' & Hc').
  - intros o. unfold ops. rewrite !elem_of_cons, elem_of_nil. intros [->|[->|[->|[->|[]]]]]; discriminate.
  - rewrite Hcap. vm_compute. reflexivity.
  - exists c'. split; assumption.
Defined.
