(* ===== verification/RWLock.v ===== *)
(** * Readers-writer lock (include/concurrency/RWLock.hpp, src/concurrency/rwlock.cpp)

    The fields and, for each method, what its critical section does: the
    predicate of the wait, the update, and the condition variable it notifies.
    The system runs any number of threads that lock and unlock in any order.  A
    critical section of [mutex_] is one step; a thread whose predicate fails
    sleeps until it is notified or wakes without reason. *)

From S2P Require Import Prelude.

Record RWLock := mkRWLock {
  activeReaders_ : Z;
  waitingWriters_ : Z;
  writerActive_ : bool;
}.

Definition newRWLock : RWLock := mkRWLock 0 0 false.

Inductive signal := NoSignal | NotifyOneWriter | NotifyAllReaders.

(** ** The critical sections *)
Definition readPred (l : RWLock) : bool := negb (writerActive_ l) && (waitingWriters_ l =? 0)%Z.
Definition readEnter (l : RWLock) : RWLock :=
  mkRWLock (activeReaders_ l + 1) (waitingWriters_ l) (writerActive_ l).

Definition readUnlock (l : RWLock) : RWLock * signal :=
  let l' := mkRWLock (activeReaders_ l - 1) (waitingWriters_ l) (writerActive_ l) in
  (l', if (activeReaders_ l' =? 0)%Z then NotifyOneWriter else NoSignal).

Definition writeRegister (l : RWLock) : RWLock :=
  mkRWLock (activeReaders_ l) (waitingWriters_ l + 1) (writerActive_ l).
Definition writePred (l : RWLock) : bool := negb (writerActive_ l) && (activeReaders_ l =? 0)%Z.
Definition writeEnter (l : RWLock) : RWLock :=
  mkRWLock (activeReaders_ l) (waitingWriters_ l - 1) true.

Definition writeUnlock (l : RWLock) : RWLock * signal :=
  let l' := mkRWLock (activeReaders_ l) (waitingWriters_ l) false in
  (l', if (waitingWriters_ l' >? 0)%Z then NotifyOneWriter else NotifyAllReaders).

(** ** Threads *)
Inductive tstate := Idle | RAsleep | RAwake | Reading | WAsleep | WAwake | Writing.

#[export] Instance tstate_eq_dec : EqDecision tstate.
Proof. solve_decision. Defined.

Record sys := mkSys { lock : RWLock; threads : list tstate }.

Definition newSys (n : nat) : sys := mkSys newRWLock (replicate n Idle).

(** What a notification does to the sleepers. *)
Definition wakeReader (st : tstate) : tstate := match st with RAsleep => RAwake | _ => st end.

Inductive deliver : signal → list tstate → list tstate → Prop :=
  | deliver_none ths : deliver NoSignal ths ths
  | deliver_nobody ths : WAsleep ∉ ths → deliver NotifyOneWriter ths ths
  | deliver_one ths i : ths !! i = Some WAsleep → deliver NotifyOneWriter ths (<[i:=WAwake]> ths)
  | deliver_all ths : deliver NotifyAllReaders ths (wakeReader <$> ths).

Inductive action := AReadLock | AReadUnlock | AWriteLock | AWriteUnlock | ASpurious.

(** A writer calls [writeLock] once; it is registered while it waits. *)
Definition registered (l : RWLock) (st : tstate) : RWLock := if bool_decide (st = Idle) then writeRegister l else l.

Inductive step (i : nat) : action → sys → sys → Prop :=
  | step_read l ths st :
      ths !! i = Some st → st = Idle ∨ st = RAwake → readPred l = true →
      step i AReadLock (mkSys l ths) (mkSys (readEnter l) (<[i:=Reading]> ths))
  | step_read_sleep l ths st :
      ths !! i = Some st → st = Idle ∨ st = RAwake → readPred l = false →
      step i AReadLock (mkSys l ths) (mkSys l (<[i:=RAsleep]> ths))
  | step_read_unlock l ths ths' :
      ths !! i = Some Reading → deliver (readUnlock l).2 (<[i:=Idle]> ths) ths' →
      step i AReadUnlock (mkSys l ths) (mkSys (readUnlock l).1 ths')
  | step_write l ths st :
      ths !! i = Some st → st = Idle ∨ st = WAwake → writePred (registered l st) = true →
      step i AWriteLock (mkSys l ths) (mkSys (writeEnter (registered l st)) (<[i:=Writing]> ths))
  | step_write_sleep l ths st :
      ths !! i = Some st → st = Idle ∨ st = WAwake → writePred (registered l st) = false →
      step i AWriteLock (mkSys l ths) (mkSys (registered l st) (<[i:=WAsleep]> ths))
  | step_write_unlock l ths ths' :
      ths !! i = Some Writing → deliver (writeUnlock l).2 (<[i:=Idle]> ths) ths' →
      step i AWriteUnlock (mkSys l ths) (mkSys (writeUnlock l).1 ths')
  | step_spurious_read l ths :
      ths !! i = Some RAsleep → step i ASpurious (mkSys l ths) (mkSys l (<[i:=RAwake]> ths))
  | step_spurious_write l ths :
      ths !! i = Some WAsleep → step i ASpurious (mkSys l ths) (mkSys l (<[i:=WAwake]> ths)).

Definition any_step (s s' : sys) : Prop := ∃ i a, step i a s s'.
Definition reachable (n : nat) : sys → Prop := rtc any_step (newSys n).

(** ** Counting threads *)
Definition count (st : tstate) (ths : list tstate) : nat := length (base.filter (λ x, x = st) ths).
Definition one (b : bool) : nat := if b then 1 else 0.
Definition same (x st : tstate) : bool :=
  match x, st with
  | Idle, Idle | RAsleep, RAsleep | RAwake, RAwake | Reading, Reading
  | WAsleep, WAsleep | WAwake, WAwake | Writing, Writing => true
  | _, _ => false
  end.

Lemma same_spec x st : same x st = bool_decide (x = st).
Proof. by destruct x, st. Qed.

Lemma count_insert st ths i x y :
  ths !! i = Some x →
  count st (<[i:=y]> ths) + one (same x st) = count st ths + one (same y st).
Proof.
  intros (l1 & l2 & -> & ->)%list_elem_of_split_length. rewrite insert_app_r_alt, Nat.sub_diag by lia. simpl.
  unfold count. rewrite !filter_app, !length_app, !filter_cons, !same_spec.
  repeat case_decide; repeat case_bool_decide; simpl; try done; lia.
Qed.

Lemma count_pos st ths : 0 < count st ths ↔ st ∈ ths.
Proof.
  unfold count. split.
  - destruct (base.filter _ ths) as [|x r] eqn:Hf; simpl; [lia|]. intros _.
    assert (x ∈ base.filter (λ x, x = st) ths) as [-> ?]%list_elem_of_filter by (rewrite Hf; by left). done.
  - intros Hin. destruct (base.filter _ ths) eqn:Hf; simpl; [|lia].
    assert (st ∈ base.filter (λ x, x = st) ths) as Hin' by (by apply list_elem_of_filter).
    rewrite Hf in Hin'. by apply elem_of_nil in Hin'.
Qed.

Lemma count_zero st ths : st ∉ ths → count st ths = 0.
Proof. rewrite <- count_pos. lia. Qed.

Lemma count_wakeReaders st ths :
  count st (wakeReader <$> ths) =
    match st with
    | RAsleep => 0
    | RAwake => count RAwake ths + count RAsleep ths
    | _ => count st ths
    end.
Proof.
  unfold count. induction ths as [|x ths IH]; [by destruct st|]. rewrite fmap_cons, !filter_cons.
  destruct st, x; simpl; repeat case_decide; simpl in *; try done; try lia.
Qed.

Lemma busy_count_le st ths : count st ths ≤ length ths.
Proof. apply length_filter. Qed.

(** All the counts after one thread moved from [x] to [y]. *)
Ltac counts Hi y :=
  let go st := (let H := fresh "Hc" in pose proof (count_insert st _ _ _ y Hi) as H; cbn [same one] in H) in
  go Idle; go RAsleep; go RAwake; go Reading; go WAsleep; go WAwake; go Writing.

(** ** The invariant *)
Record rw_inv (s : sys) : Prop := {
  rw_readers : activeReaders_ (lock s) = Z.of_nat (count Reading (threads s));
  rw_waiting : waitingWriters_ (lock s) = Z.of_nat (count WAsleep (threads s) + count WAwake (threads s));
  rw_writer : count Writing (threads s) = one (writerActive_ (lock s));
  rw_exclusive : writerActive_ (lock s) = true → count Reading (threads s) = 0;
  (* a free lock has no writer asleep without another one on its way *)
  rw_wake_writer : writerActive_ (lock s) = false → count Reading (threads s) = 0 →
    0 < count WAsleep (threads s) → 0 < count WAwake (threads s);
  (* readers sleep only behind a writer *)
  rw_wake_reader : writerActive_ (lock s) = false → waitingWriters_ (lock s) = 0%Z →
    count RAsleep (threads s) = 0;
}.

Lemma rw_inv_new n : rw_inv (newSys n).
Proof.
  assert (Hc : ∀ st, st ≠ Idle → count st (replicate n Idle) = 0).
  { intros st Hst. apply count_zero. intros [-> _]%elem_of_replicate. done. }
  split; simpl; rewrite ?Hc by done; done.
Qed.

(** Delivery of [notify_one]: some sleeping writer, if any, is awake. *)
Lemma deliver_writer ths ths' :
  deliver NotifyOneWriter ths ths' →
  count RAsleep ths' = count RAsleep ths ∧ count RAwake ths' = count RAwake ths ∧
  count Reading ths' = count Reading ths ∧ count Writing ths' = count Writing ths ∧
  count WAsleep ths' + count WAwake ths' = count WAsleep ths + count WAwake ths ∧
  (0 < count WAsleep ths' → 0 < count WAwake ths').
Proof.
  intros Hd. remember NotifyOneWriter as sg eqn:Hsg. destruct Hd as [ths|ths Hn|ths i Hi|ths]; try done.
  - rewrite (count_zero _ _ Hn). repeat split; lia.
  - counts Hi WAwake. repeat split; lia.
Qed.

(** ** Every step keeps it *)
Lemma readPred_spec l : readPred l = true ↔ writerActive_ l = false ∧ waitingWriters_ l = 0%Z.
Proof. unfold readPred. rewrite andb_true_iff, negb_true_iff, Z.eqb_eq. done. Qed.
Lemma writePred_spec l : writePred l = true ↔ writerActive_ l = false ∧ activeReaders_ l = 0%Z.
Proof. unfold writePred. rewrite andb_true_iff, negb_true_iff, Z.eqb_eq. done. Qed.

Lemma step_read_inv i a l ths st :
  rw_inv (mkSys l ths) → ths !! i = Some st → st = Idle ∨ st = RAwake → a = readPred l →
  rw_inv (if a then mkSys (readEnter l) (<[i:=Reading]> ths) else mkSys l (<[i:=RAsleep]> ths)).
Proof.
  intros [H1 H2 H3 H4 H5 H6] Hi Hst ->. simpl in *. destruct (readPred l) eqn:Hp.
  - apply readPred_spec in Hp as [Hw Hn]. rewrite Hw in *.
    destruct Hst as [-> | ->]; counts Hi Reading; split; simpl; rewrite ?Hw; intros; (done || simpl in *; lia).
  - assert (Hno : writerActive_ l = false → waitingWriters_ l ≠ 0%Z).
    { intros Hw Hn. rewrite <- not_true_iff_false in Hp. apply Hp. by apply readPred_spec. }
    destruct Hst as [-> | ->]; counts Hi RAsleep; split; simpl; intros; try done; try lia; naive_solver lia.
Qed.

Lemma step_write_inv i a l ths st :
  rw_inv (mkSys l ths) → ths !! i = Some st → st = Idle ∨ st = WAwake → a = writePred (registered l st) →
  rw_inv (if a then mkSys (writeEnter (registered l st)) (<[i:=Writing]> ths)
          else mkSys (registered l st) (<[i:=WAsleep]> ths)).
Proof.
  intros [H1 H2 H3 H4 H5 H6] Hi Hst ->. simpl in *.
  assert (Hreg : activeReaders_ (registered l st) = activeReaders_ l ∧ writerActive_ (registered l st) = writerActive_ l ∧
    waitingWriters_ (registered l st) = (waitingWriters_ l + Z.of_nat (one (same st Idle)))%Z).
  { rewrite same_spec. unfold registered. case_bool_decide; simpl; split_and!; try done; lia. }
  destruct Hreg as (R1 & R2 & R3). set (l' := registered l st) in *. clearbody l'. destruct (writePred l') eqn:Hp.
  - apply writePred_spec in Hp as [Hw Hn]. rewrite R2 in Hw. rewrite R1 in Hn. rewrite Hw in *.
    destruct Hst as [-> | ->]; counts Hi Writing; cbn [same one] in *; split; simpl; intros; try done; lia.
  - assert (Hno : writerActive_ l = false → activeReaders_ l ≠ 0%Z).
    { intros Hw Hn. rewrite <- not_true_iff_false in Hp. apply Hp, writePred_spec. by rewrite R1, R2. }
    destruct Hst as [-> | ->]; counts Hi WAsleep; cbn [same one] in *; split; simpl; rewrite ?R1, ?R2, ?R3;
      intros; try done; try lia; naive_solver lia.
Qed.

Lemma deliver_other sg ths ths' :
  deliver sg ths ths' → sg ≠ NotifyOneWriter →
  ths' = match sg with NotifyAllReaders => wakeReader <$> ths | _ => ths end.
Proof. by destruct 1. Qed.

Lemma step_unlock_inv i l ths ths' :
  rw_inv (mkSys l ths) →
  (ths !! i = Some Reading → deliver (readUnlock l).2 (<[i:=Idle]> ths) ths' → rw_inv (mkSys (readUnlock l).1 ths')) ∧
  (ths !! i = Some Writing → deliver (writeUnlock l).2 (<[i:=Idle]> ths) ths' → rw_inv (mkSys (writeUnlock l).1 ths')).
Proof.
  intros [H1 H2 H3 H4 H5 H6]. simpl in *. split; intros Hi; counts Hi Idle.
  - assert (writerActive_ l = false) as Hw.
    { destruct (writerActive_ l); [|done]. specialize (H4 eq_refl). lia. }
    rewrite Hw in *. cbn [one] in *. unfold readUnlock. cbn [fst snd activeReaders_]. rewrite H1.
    destruct (Z.eqb_spec (Z.of_nat (count Reading ths) - 1) 0) as [Hz|Hz].
    + intros (D1 & D2 & D3 & D4 & D5 & D6)%deliver_writer. split; simpl; intros; rewrite ?Hw; try done; try lia.
    + intros ->%deliver_other; [|done]. split; simpl; intros; rewrite ?Hw; try done; try lia.
  - assert (writerActive_ l = true) as Hw.
    { destruct (writerActive_ l); [done|]. cbn [one] in H3. lia. }
    specialize (H4 Hw). rewrite Hw in *. cbn [one] in *. unfold writeUnlock. cbn [fst snd waitingWriters_]. rewrite H2.
    rewrite Z.gtb_ltb. destruct (Z.ltb_spec 0 (Z.of_nat (count WAsleep ths + count WAwake ths))) as [Hz|Hz].
    + intros (D1 & D2 & D3 & D4 & D5 & D6)%deliver_writer. split; simpl; intros; try done; lia.
    + intros ->%deliver_other; [|done]. split; simpl; rewrite ?count_wakeReaders; intros; try done; lia.
Qed.

Lemma rw_inv_step s s' : rw_inv s → any_step s s' → rw_inv s'.
Proof.
  intros Hinv (i & a & Hs). destruct Hs as [l ths st Hi Hst Hp|l ths st Hi Hst Hp|l ths ths' Hi Hd
    |l ths st Hi Hst Hp|l ths st Hi Hst Hp|l ths ths' Hi Hd|l ths Hi|l ths Hi].
  - by apply (step_read_inv i true l ths st).
  - by apply (step_read_inv i false l ths st).
  - by eapply (step_unlock_inv i l ths ths').
  - by apply (step_write_inv i true l ths st).
  - by apply (step_write_inv i false l ths st).
  - by eapply (step_unlock_inv i l ths ths').
  - destruct Hinv as [H1 H2 H3 H4 H5 H6]. simpl in *. counts Hi RAwake. split; simpl; intros; naive_solver lia.
  - destruct Hinv as [H1 H2 H3 H4 H5 H6]. simpl in *. counts Hi WAwake. split; simpl; intros; naive_solver lia.
Qed.

Lemma rw_inv_reachable n s : reachable n s → rw_inv s.
Proof.
  intros Hr. assert (H0 := rw_inv_new n). induction Hr as [|s1 s2 s3 H12 _ IH]; [done|].
  apply IH. by eapply rw_inv_step.
Qed.

(** ** What clients use *)

(** Who reads goes on reading until it unlocks. *)
Lemma step_keeps_reading i a s s' j :
  step i a s s' → threads s !! j = Some Reading → (i = j → a ≠ AReadUnlock) → threads s' !! j = Some Reading.
Proof.
  intros Hs Hj Ha.
  assert (Hins : ∀ (ths : list tstate) k st y, ths !! k = Some st → st ≠ Reading → ths !! j = Some Reading →
    <[k:=y]> ths !! j = Some Reading).
  { intros ths k st y Hk Hst Hr. rewrite list_lookup_insert_ne; [done|]. intros ->. congruence. }
  assert (Hdel : ∀ sg ths ths', deliver sg ths ths' → ths !! j = Some Reading → ths' !! j = Some Reading).
  { intros sg ths ths' Hd Hr. destruct Hd as [ths|ths _|ths k Hk|ths]; try done.
    - by eapply (Hins ths k WAsleep).
    - rewrite list_lookup_fmap. by rewrite Hr. }
  destruct Hs as [l ths st Hi Hst Hp|l ths st Hi Hst Hp|l ths ths' Hi Hd
    |l ths st Hi Hst Hp|l ths st Hi Hst Hp|l ths ths' Hi Hd|l ths Hi|l ths Hi]; simpl in *.
  - eapply Hins; [done| |done]. by destruct Hst as [-> | ->].
  - eapply Hins; [done| |done]. by destruct Hst as [-> | ->].
  - eapply Hdel; [done|]. rewrite list_lookup_insert_ne; [done|]. intros ->. by apply Ha.
  - eapply Hins; [done| |done]. by destruct Hst as [-> | ->].
  - eapply Hins; [done| |done]. by destruct Hst as [-> | ->].
  - eapply Hdel; [done|]. by eapply Hins.
  - by eapply Hins.
  - by eapply Hins.
Qed.

Lemma writing_excludes n s i j : reachable n s → threads s !! i = Some Writing → threads s !! j ≠ Some Reading.
Proof.
  intros [_ _ H3 H4 _ _]%rw_inv_reachable Hi Hj.
  apply list_elem_of_lookup_2, count_pos in Hi, Hj.
  destruct (writerActive_ (lock s)); simpl in H3; [specialize (H4 eq_refl)|]; lia.
Qed.
