(* ===== verification/RWLockMain.v ===== *)
(** * Readers-writer lock: main theorems *)

From S2P Require Import Prelude RWLock.

Lemma count_two st ths i j : ths !! i = Some st → ths !! j = Some st → i ≠ j → 2 ≤ count st ths.
Proof.
  intros Hi Hj Hne. set (other := if bool_decide (st = Idle) then Writing else Idle).
  assert (Hd : same other st = false) by (rewrite same_spec; by destruct st).
  pose proof (count_insert st _ _ _ other Hi) as Hc. rewrite Hd, same_spec, bool_decide_eq_true_2 in Hc by done.
  assert (0 < count st (<[i:=other]> ths)); [|simpl in Hc; lia].
  apply count_pos, (list_elem_of_lookup_2 _ j). by rewrite list_lookup_insert_ne.
Qed.

(** C11: In every reachable state of any number of threads a thread that writes is
    alone: no other thread writes and none reads; and the counters of the lock
    are the numbers of threads that read and that wait to write, so they stay
    between 0 and the number of threads. *)
Theorem rwlock_exclusion (n : nat) (s : sys) :
  reachable n s →
  (∀ i j, threads s !! i = Some Writing → threads s !! j = Some Writing ∨ threads s !! j = Some Reading → i = j) ∧
  activeReaders_ (lock s) = Z.of_nat (count Reading (threads s)) ∧
  waitingWriters_ (lock s) = Z.of_nat (count WAsleep (threads s) + count WAwake (threads s)) ∧
  (0 ≤ activeReaders_ (lock s) ≤ Z.of_nat (length (threads s)))%Z.
Proof.
  intros [H1 H2 H3 H4 _ _]%rw_inv_reachable. pose proof (busy_count_le Reading (threads s)). split; [|split_and!; try done; lia].
  intros i j Hi Hj. assert (Hw : 0 < count Writing (threads s)) by (by eapply count_pos, list_elem_of_lookup_2).
  destruct (writerActive_ (lock s)) eqn:Ha; cbn [one] in H3; [|lia].
  destruct (decide (i = j)) as [|Hne]; [done|]. exfalso. destruct Hj as [Hj|Hj].
  - pose proof (count_two _ _ _ _ Hi Hj Hne). lia.
  - assert (0 < count Reading (threads s)) by (by eapply count_pos, list_elem_of_lookup_2). specialize (H4 eq_refl). lia.
Qed.

(** A thread that waits for a free lock is awake, and takes it. *)
Lemma free_lock_taken n s :
  reachable n s → Writing ∉ threads s → Reading ∉ threads s →
  RAsleep ∈ threads s ∨ RAwake ∈ threads s ∨ WAsleep ∈ threads s ∨ WAwake ∈ threads s →
  ∃ i s', (threads s !! i = Some WAwake ∧ step i AWriteLock s s' ∧ threads s' !! i = Some Writing) ∨
    (threads s !! i = Some RAwake ∧ step i AReadLock s s' ∧ threads s' !! i = Some Reading).
Proof.
  intros [H1 H2 H3 H4 H5 H6]%rw_inv_reachable Hw Hr Hwait. destruct s as [l ths]. simpl in *.
  rewrite (count_zero _ _ Hr) in *. rewrite (count_zero _ _ Hw) in H3.
  assert (Hact : writerActive_ l = false) by (by destruct (writerActive_ l)).
  assert (Hlt : ∀ i st, ths !! i = Some st → i < length ths) by (intros; by eapply lookup_lt_Some).
  destruct (decide (WAwake ∈ ths)) as [(i & Hi)%list_elem_of_lookup_1|Hno].
  - exists i. eexists. left. split; [done|]. split; [apply (step_write i l ths WAwake); [done|by right|by apply writePred_spec]|].
    simpl. apply list_lookup_insert_eq. by eapply Hlt.
  - rewrite (count_zero _ _ Hno) in *. assert (Hs : count WAsleep ths = 0) by (specialize (H5 Hact eq_refl); lia).
    assert (Hww : waitingWriters_ l = 0%Z) by lia. specialize (H6 Hact Hww).
    assert (RAwake ∈ ths) as (i & Hi)%list_elem_of_lookup_1.
    { destruct Hwait as [Ha|[Ha|[Ha|Ha]]]; apply count_pos in Ha; try (exfalso; lia).
      - by apply count_pos.
      - apply count_pos in Ha. done. }
    exists i. eexists. right. split; [done|]. split; [apply (step_read i l ths RAwake); [done|by right|by apply readPred_spec]|].
    simpl. apply list_lookup_insert_eq. by eapply Hlt.
Qed.

(** No wakeup is lost: in every reachable state where nobody holds the lock
    and some thread waits for it, a thread that waits is awake and its next step
    takes the lock; sleeping threads never deadlock a free lock. *)
Theorem rwlock_no_lost_wakeup (n : nat) (s : sys) :
  reachable n s →
  Writing ∉ threads s → Reading ∉ threads s →
  RAsleep ∈ threads s ∨ RAwake ∈ threads s ∨ WAsleep ∈ threads s ∨ WAwake ∈ threads s →
  ∃ i a s' st, step i a s s' ∧ threads s' !! i = Some st ∧ (st = Writing ∨ st = Reading).
Proof.
  intros Hr Hw Hrd Hwait. destruct (free_lock_taken n s Hr Hw Hrd Hwait) as (i & s' & [(_ & Hs & Ht)|(_ & Hs & Ht)]);
    [exists i, AWriteLock, s', Writing|exists i, AReadLock, s', Reading]; split_and!; auto.
Qed.

(** Writers are preferred: while a writer waits, no thread starts to read. *)
Theorem rwlock_writer_preference (n : nat) (s s' : sys) (i j : nat) (a : action) :
  reachable n s → step i a s s' → WAsleep ∈ threads s ∨ WAwake ∈ threads s →
  threads s' !! j = Some Reading → threads s !! j = Some Reading.
Proof.
  intros [_ H2 _ _ _ _]%rw_inv_reachable Hs Hwait.
  assert (Hww : (0 < waitingWriters_ (lock s))%Z) by (destruct Hwait as [Hw|Hw]; apply count_pos in Hw; lia).
  assert (Hins : ∀ (ths : list tstate) st, st ≠ Reading → <[i:=st]> ths !! j = Some Reading → ths !! j = Some Reading).
  { intros ths st Hst Hj. destruct (decide (i = j)) as [->|Hne]; [|by rewrite list_lookup_insert_ne in Hj].
    apply list_lookup_insert_Some in Hj as [(_ & -> & _)|(? & _)]; done. }
  assert (Hdel : ∀ sg ths ths', deliver sg ths ths' → ths' !! j = Some Reading → ths !! j = Some Reading).
  { intros sg ths ths' Hd. destruct Hd as [ths|ths _|ths k Hk|ths]; try done.
    - intros [(_ & ? & _)|(_ & ?)]%list_lookup_insert_Some; done.
    - rewrite list_lookup_fmap. destruct (ths !! j) as [[]|]; done. }
  destruct Hs as [l ths st Hi Hst Hp|l ths st Hi Hst Hp|l ths ths' Hi Hd
    |l ths st Hi Hst Hp|l ths st Hi Hst Hp|l ths ths' Hi Hd|l ths Hi|l ths Hi]; simpl in *; intros Hj;
    try (by eapply Hins; [|exact Hj]); try (by eapply Hins; [|by eapply Hdel]).
  apply readPred_spec in Hp as [_ Hp]. lia.
Qed.

(** Thread 0 writes, thread 1 waits to write, thread 2 is turned away. *)
Definition demo_sys : sys := mkSys (mkRWLock 0 1 true) [Writing; WAsleep; RAsleep].
Lemma demo_reachable : reachable 3 demo_sys.
Proof.
  apply (rtc_l _ _ (mkSys (mkRWLock 0 0 true) [Writing; Idle; Idle])).
  { exists 0, AWriteLock. apply (step_write 0 newRWLock [Idle; Idle; Idle] Idle); [done|by left|done]. }
  apply (rtc_l _ _ (mkSys (mkRWLock 0 1 true) [Writing; WAsleep; Idle])).
  { exists 1, AWriteLock. apply (step_write_sleep 1 (mkRWLock 0 0 true) [Writing; Idle; Idle] Idle); [done|by left|done]. }
  apply rtc_once. exists 2, AReadLock.
  apply (step_read_sleep 2 (mkRWLock 0 1 true) [Writing; WAsleep; Idle] Idle); [done|by left|done].
Qed.

Lemma rwlock_exclusion_witness :
  (∀ i j, threads demo_sys !! i = Some Writing →
     threads demo_sys !! j = Some Writing ∨ threads demo_sys !! j = Some Reading → i = j) ∧
  activeReaders_ (lock demo_sys) = Z.of_nat (count Reading (threads demo_sys)) ∧
  waitingWriters_ (lock demo_sys) = Z.of_nat (count WAsleep (threads demo_sys) + count WAwake (threads demo_sys)) ∧
  (0 ≤ activeReaders_ (lock demo_sys) ≤ Z.of_nat (length (threads demo_sys)))%Z.
Proof. apply (rwlock_exclusion 3). exact demo_reachable. Defined.

(** The writer has left: the sleeping writer was notified. *)
Definition demo_free : sys := mkSys (mkRWLock 0 1 false) [Idle; WAwake; RAsleep].
Lemma demo_free_reachable : reachable 3 demo_free.
Proof.
  eapply rtc_r; [exact demo_reachable|]. exists 0, AWriteUnlock.
  apply (step_write_unlock 0 (mkRWLock 0 1 true) [Writing; WAsleep; RAsleep]); [done|].
  apply (deliver_one [Idle; WAsleep; RAsleep] 1). done.
Qed.

Lemma rwlock_no_lost_wakeup_witness :
  ∃ i a s' st, step i a demo_free s' ∧ threads s' !! i = Some st ∧ (st = Writing ∨ st = Reading).
Proof. apply (rwlock_no_lost_wakeup 3); [exact demo_free_reachable|decides|decides|decides]. Defined.

(** Thread 0 reads, thread 1 waits to write. *)
Definition demo_reading : sys := mkSys (mkRWLock 1 1 false) [Reading; WAsleep; Idle].
Lemma demo_reading_reachable : reachable 3 demo_reading.
Proof.
  apply (rtc_l _ _ (mkSys (mkRWLock 1 0 false) [Reading; Idle; Idle])).
  { exists 0, AReadLock. apply (step_read 0 newRWLock [Idle; Idle; Idle] Idle); [done|by left|done]. }
  apply rtc_once. exists 1, AWriteLock.
  apply (step_write_sleep 1 (mkRWLock 1 0 false) [Reading; Idle; Idle] Idle); [done|by left|done].
Qed.

Lemma rwlock_writer_preference_witness : threads demo_reading !! 0 = Some Reading.
Proof.
  apply (rwlock_writer_preference 3 demo_reading (mkSys (mkRWLock 1 1 false) [Reading; WAsleep; RAsleep]) 2 0 AReadLock).
  - exact demo_reading_reachable.
  - apply (step_read_sleep 2 (mkRWLock 1 1 false) [Reading; WAsleep; Idle] Idle); [done|by left|done].
  - decides.
  - reflexivity.
Defined.
