(* ===== verification/RWLockGuards.v ===== *)
(** * Lock guards (include/concurrency/RWLock.hpp)

    [ReadGuard] and [WriteGuard]: the constructor locks, the destructor unlocks,
    and a guard cannot be copied, so that a guard is a scope of its thread.  The
    body of the scope is left by its end or by an exception; both run the
    destructor. *)

From S2P Require Import Prelude RWLock RWLockMain.

Inductive guard := ReadGuard | WriteGuard.

Definition ctorAction (g : guard) : action := match g with ReadGuard => AReadLock | WriteGuard => AWriteLock end.
Definition dtorAction (g : guard) : action := match g with ReadGuard => AReadUnlock | WriteGuard => AWriteUnlock end.
Definition held (g : guard) : tstate := match g with ReadGuard => Reading | WriteGuard => Writing end.

(** Where a thread is: in the constructor, in the body, or in the destructor with
    an exception under way or without. *)
Inductive scope := Outside | InCtor (g : guard) | InBody (g : guard) | InDtor (g : guard) (threw : bool).

#[global] Instance guard_eq_dec : EqDecision guard.
Proof. solve_decision. Defined.
#[global] Instance scope_eq_dec : EqDecision scope.
Proof. solve_decision. Defined.

Record gsys := mkGsys { g_sys : sys; g_scopes : list scope }.

Definition newGsys (n : nat) : gsys := mkGsys (newSys n) (replicate n Outside).

Inductive gstep : gsys → gsys → Prop :=
  | g_declare i g s sc :
      sc !! i = Some Outside → gstep (mkGsys s sc) (mkGsys s (<[i:=InCtor g]> sc))
  | g_ctor i g s s' sc :
      sc !! i = Some (InCtor g) → step i (ctorAction g) s s' → threads s' !! i = Some (held g) →
      gstep (mkGsys s sc) (mkGsys s' (<[i:=InBody g]> sc))
  | g_wait i g s s' sc :
      sc !! i = Some (InCtor g) → step i (ctorAction g) s s' → threads s' !! i ≠ Some (held g) →
      gstep (mkGsys s sc) (mkGsys s' sc)
  | g_leave i g threw s sc :
      sc !! i = Some (InBody g) → gstep (mkGsys s sc) (mkGsys s (<[i:=InDtor g threw]> sc))
  | g_dtor i g threw s s' sc :
      sc !! i = Some (InDtor g threw) → step i (dtorAction g) s s' →
      gstep (mkGsys s sc) (mkGsys s' (<[i:=Outside]> sc))
  | g_spurious i s s' sc :
      step i ASpurious s s' → gstep (mkGsys s sc) (mkGsys s' sc).

(** ** What the lock knows of a thread *)
Definition fits (sc : scope) (st : tstate) : Prop :=
  match sc with
  | Outside => st = Idle
  | InCtor ReadGuard => st = Idle ∨ st = RAsleep ∨ st = RAwake
  | InCtor WriteGuard => st = Idle ∨ st = WAsleep ∨ st = WAwake
  | InBody g | InDtor g _ => st = held g
  end.

(** Others at most wake a thread. *)
Definition wakes (st st' : tstate) : Prop := st' = st ∨ (st = RAsleep ∧ st' = RAwake) ∨ (st = WAsleep ∧ st' = WAwake).

Lemma fits_wakes sc st st' : fits sc st → wakes st st' → fits sc st'.
Proof. intros Hf [->|[[-> ->]|[-> ->]]]; [done|..]; by destruct sc as [|[]|[]|[]]; simpl in *; naive_solver. Qed.

Lemma deliver_wakes sg ths ths' j st : deliver sg ths ths' → ths !! j = Some st → ∃ st', ths' !! j = Some st' ∧ wakes st st'.
Proof.
  intros Hd Hj. destruct Hd as [ths|ths _|ths i Hi|ths].
  - exists st. split; [done|by left].
  - exists st. split; [done|by left].
  - destruct (decide (i = j)) as [->|Hne].
    + rewrite Hi in Hj. injection Hj as <-. exists WAwake. split; [apply list_lookup_insert_eq; by eapply lookup_lt_Some|by right; right].
    + exists st. rewrite list_lookup_insert_ne by done. split; [done|by left].
  - exists (wakeReader st). rewrite list_lookup_fmap, Hj. split; [done|]. destruct st; simpl; (by left) || by right; left.
Qed.

Lemma step_others i a s s' j st :
  step i a s s' → j ≠ i → threads s !! j = Some st → ∃ st', threads s' !! j = Some st' ∧ wakes st st'.
Proof.
  intros Hs Hne Hj. destruct Hs; simpl in *; try (exists st; rewrite list_lookup_insert_ne by done; split; [done|by left]);
    (eapply deliver_wakes; [done|by rewrite list_lookup_insert_ne]).
Qed.

Lemma deliver_idle sg ths ths' j : deliver sg ths ths' → ths !! j = Some Idle → ths' !! j = Some Idle.
Proof. intros Hd Hj. destruct (deliver_wakes _ _ _ _ _ Hd Hj) as (st' & Hst & [->|[[? _]|[? _]]]); done. Qed.

(** What its own step makes of the thread. *)
Lemma ctor_fits i g s s' st :
  step i (ctorAction g) s s' → threads s !! i = Some st → ∃ st', threads s' !! i = Some st' ∧ (st' = held g ∨ fits (InCtor g) st').
Proof.
  intros Hs Hi. assert (Hlt : i < length (threads s)) by (by eapply lookup_lt_Some).
  remember (ctorAction g) as a eqn:Ea. destruct Hs; destruct g; try done; simpl in *;
    (eexists; split; [by apply list_lookup_insert_eq|simpl; auto]).
Qed.

Lemma dtor_idle i g s s' : step i (dtorAction g) s s' → threads s' !! i = Some Idle.
Proof.
  intros Hs. remember (dtorAction g) as a eqn:Ea.
  destruct Hs as [| |l ths ths' Hi Hd| | |l ths ths' Hi Hd| |]; destruct g; try done; simpl in *;
    (eapply deliver_idle; [done|apply list_lookup_insert_eq; by eapply lookup_lt_Some]).
Qed.

Lemma spurious_wakes i s s' j st : step i ASpurious s s' → threads s !! j = Some st → ∃ st', threads s' !! j = Some st' ∧ wakes st st'.
Proof.
  intros Hs Hj. destruct (decide (j = i)) as [->|Hne]; [|by eapply step_others].
  remember ASpurious as a eqn:Ea. destruct Hs as [| | | | | |l ths Hi|l ths Hi]; try done; simpl in *; rewrite Hi in Hj; injection Hj as <-;
    (eexists; split; [apply list_lookup_insert_eq; by eapply lookup_lt_Some|unfold wakes; auto]).
Qed.

(** ** The invariant *)
Record g_inv (n : nat) (s : gsys) : Prop := {
  gi_lock : reachable n (g_sys s);
  gi_len : length (g_scopes s) = length (threads (g_sys s));
  gi_fits : ∀ i sc st, g_scopes s !! i = Some sc → threads (g_sys s) !! i = Some st → fits sc st;
}.

Lemma step_length i a s s' : step i a s s' → length (threads s') = length (threads s).
Proof.
  assert (Hd : ∀ sg ths ths', deliver sg ths ths' → length ths' = length ths) by (intros ? ? ? []; by rewrite ?length_insert, ?length_fmap).
  intros []; simpl; rewrite ?length_insert; try done; match goal with H : deliver _ _ _ |- _ => apply Hd in H end; by rewrite length_insert in *.
Qed.

(** Thread [i] makes a step of the lock and goes to the scope [sc']. *)
Lemma g_inv_move n s s' sc i a sc' :
  g_inv n (mkGsys s sc) → step i a s s' → i < length sc →
  (∀ st st', threads s !! i = Some st → threads s' !! i = Some st' → fits sc' st') →
  g_inv n (mkGsys s' (<[i:=sc']> sc)).
Proof.
  intros [H1 H2 H3] Hs Hi Hf. split; simpl in *.
  - eapply rtc_r; [done|by exists i, a].
  - by rewrite length_insert, (step_length _ _ _ _ Hs).
  - intros j x st' Hj Hst'. assert (is_Some (threads s !! j)) as [st Hst].
    { apply lookup_lt_is_Some. rewrite <- (step_length _ _ _ _ Hs). by eapply lookup_lt_Some. }
    apply list_lookup_insert_Some in Hj as [(<- & <- & _)|[Hne Hj]]; [by eapply Hf|].
    destruct (step_others _ _ _ _ _ _ Hs ltac:(done) Hst) as (st1 & Hst1 & Hw). rewrite Hst' in Hst1. injection Hst1 as <-.
    eapply fits_wakes; [by eapply H3|done].
Qed.

Lemma g_inv_step n s s' : g_inv n s → gstep s s' → g_inv n s'.
Proof.
  intros H Hs. destruct Hs as [i g s sc Hi|i g s s' sc Hi Hs Hh|i g s s' sc Hi Hs Hh|i g t s sc Hi|i g t s s' sc Hi Hs|i s s' sc Hs];
    try (assert (Hlt : i < length sc) by (by eapply lookup_lt_Some)).
  - destruct H as [H1 H2 H3]. split; simpl in *; [done|by rewrite length_insert|].
    intros j x st [(<- & <- & _)|[_ Hj]]%list_lookup_insert_Some Hst; [|by eapply H3]. specialize (H3 _ _ _ Hi Hst). destruct g; by left.
  - eapply g_inv_move; [done..|]. intros st st' _ Hst'. rewrite Hh in Hst'. by injection Hst' as <-.
  - rewrite <- (list_insert_id sc i (InCtor g)) by done. eapply g_inv_move; [done..|]. intros st st' Hst Hst'.
    destruct (ctor_fits _ _ _ _ _ Hs Hst) as (st1 & Hst1 & Hf). rewrite Hst' in Hst1. injection Hst1 as <-. destruct Hf as [->|]; done.
  - destruct H as [H1 H2 H3]. split; simpl in *; [done|by rewrite length_insert|].
    intros j x st [(<- & <- & _)|[_ Hj]]%list_lookup_insert_Some Hst; [|by eapply H3]. by apply (H3 _ _ _ Hi Hst).
  - eapply g_inv_move; [done..|]. intros st st' _ Hst'. rewrite (dtor_idle _ _ _ _ Hs) in Hst'. by injection Hst' as <-.
  - destruct H as [H1 H2 H3]. split; simpl in *; [eapply rtc_r; [done|by exists i, ASpurious]|by rewrite (step_length _ _ _ _ Hs)|].
    intros j x st' Hj Hst'. assert (is_Some (threads s !! j)) as [st Hst] by (apply lookup_lt_is_Some; rewrite <- H2; by eapply lookup_lt_Some).
    destruct (spurious_wakes _ _ _ _ _ Hs Hst) as (st1 & Hst1 & Hw). rewrite Hst' in Hst1. injection Hst1 as <-.
    eapply fits_wakes; [by eapply H3|done].
Qed.

Lemma g_inv_reachable n s : rtc gstep (newGsys n) s → g_inv n s.
Proof.
  revert s. apply rtc_ind_r; [|intros s s' _ Hs H; by eapply g_inv_step].
  split; simpl; [apply rtc_refl|by rewrite !length_replicate|]. by intros i sc st [-> _]%lookup_replicate [-> _]%lookup_replicate.
Qed.

(** ** Progress *)
Lemma deliver_total sg ths : ∃ ths', deliver sg ths ths'.
Proof.
  destruct sg; [by eexists; constructor| |by eexists; constructor].
  destruct (decide (WAsleep ∈ ths)) as [(i & Hi)%list_elem_of_lookup_1|Hn]; eexists; [by apply (deliver_one ths i)|by apply deliver_nobody].
Qed.

(** A destructor does not wait. *)
Lemma dtor_step i g s : threads s !! i = Some (held g) → ∃ s', step i (dtorAction g) s s'.
Proof.
  destruct s as [l ths]. intros Hi. destruct g; simpl in *.
  - destruct (deliver_total (readUnlock l).2 (<[i:=Idle]> ths)) as [ths' Hd]. eexists. by eapply step_read_unlock.
  - destruct (deliver_total (writeUnlock l).2 (<[i:=Idle]> ths)) as [ths' Hd]. eexists. by eapply step_write_unlock.
Qed.

(** A constructor that finds nobody else gets the lock at once. *)
Lemma ctor_step i g s :
  rw_inv s → threads s !! i = Some Idle → (∀ st, st ∈ threads s → st = Idle) →
  ∃ s', step i (ctorAction g) s s' ∧ threads s' !! i = Some (held g).
Proof.
  intros [H1 H2 H3 _ _ _] Hi Hall. assert (Hc : ∀ st, st ≠ Idle → count st (threads s) = 0).
  { intros st Hst. apply count_zero. by intros ->%Hall. }
  rewrite !Hc in * by done. destruct s as [[ar ww wa] ths]. simpl in *. destruct wa; [done|].
  assert (Hlt : i < length ths) by (by eapply lookup_lt_Some). destruct g; eexists; split.
  - eapply (step_read i _ ths Idle); [done|by left|]. apply readPred_spec. simpl. by rewrite H2.
  - by apply list_lookup_insert_eq.
  - eapply (step_write i _ ths Idle); [done|by left|]. apply writePred_spec. simpl. by rewrite H1.
  - by apply list_lookup_insert_eq.
Qed.

Definition inside (sc : scope) : option guard := match sc with InBody g | InDtor g _ => Some g | _ => None end.

Lemma inside_holds n s i st g :
  g_inv n s → threads (g_sys s) !! i = Some st → st = held g ↔ (g_scopes s !! i) ≫= inside = Some g.
Proof.
  intros H Hst. assert (is_Some (g_scopes s !! i)) as [sc Hsc].
  { apply lookup_lt_is_Some. rewrite (gi_len _ _ H). by eapply lookup_lt_Some. }
  pose proof (gi_fits _ _ H _ _ _ Hsc Hst) as Hf. rewrite Hsc. simpl.
  destruct sc as [|[]|[]|[] ?], g; simpl in *; subst; naive_solver.
Qed.

Lemma g_progress n s :
  g_inv n s → (∃ i sc, g_scopes s !! i = Some sc ∧ sc ≠ Outside) →
  ∃ i s', gstep s s' ∧ g_scopes s' !! i ≠ g_scopes s !! i.
Proof.
  intros H (i0 & sc0 & Hi0 & Hne). destruct s as [s sc].
  assert (Hmove : ∀ i x y, sc !! i = Some x → x ≠ y → <[i:=y]> sc !! i ≠ sc !! i).
  { intros i x y Hi Hxy. rewrite list_lookup_insert_eq by (by eapply lookup_lt_Some). congruence. }
  assert (Hthread : ∀ i x, sc !! i = Some x → ∃ st, threads s !! i = Some st ∧ fits x st).
  { intros i x Hi. assert (is_Some (threads s !! i)) as [st Hst].
    { apply lookup_lt_is_Some. pose proof (gi_len _ _ H) as Hl. simpl in Hl. rewrite <- Hl. by eapply lookup_lt_Some. }
    exists st. split; [done|]. by apply (gi_fits _ _ H _ _ _ Hi Hst). }
  destruct (decide (Exists (λ x, is_Some (inside x)) sc)) as [(x & (i & Hi)%list_elem_of_lookup_1 & g & Hg)%Exists_exists|Hnone].
  { destruct x as [| |g'|g' t]; try done; injection Hg as ->.
    - exists i. eexists. split; [by apply (g_leave i g false)|]. simpl. by eapply Hmove.
    - destruct (Hthread _ _ Hi) as (st & Hst & ->). destruct (dtor_step i g s Hst) as [s' Hs'].
      exists i. eexists. split; [by eapply g_dtor|]. simpl. by eapply Hmove. }
  assert (Hfree : ∀ g, held g ∉ threads s).
  { intros g (i & Hi)%list_elem_of_lookup_1. destruct (inside_holds _ _ _ _ g H Hi) as [Hin _]. specialize (Hin eq_refl). simpl in Hin.
    destruct (sc !! i) as [x|] eqn:Hx; [|done]. apply Hnone, Exists_exists. exists x. split; [by eapply list_elem_of_lookup_2|]. by exists g. }
  assert (Hctor : ∀ i g s', sc !! i = Some (InCtor g) → step i (ctorAction g) s s' → threads s' !! i = Some (held g) →
    ∃ i s'', gstep (mkGsys s sc) s'' ∧ g_scopes s'' !! i ≠ g_scopes (mkGsys s sc) !! i).
  { intros i g s' Hi Hs Ht. exists i. eexists. split; [by eapply g_ctor|]. simpl. by eapply Hmove. }
  destruct (decide (Forall (eq Idle) (threads s))) as [Hall|Hall].
  - destruct sc0 as [|g| |]; [done| |destruct Hnone; apply Exists_exists; eexists; split; [by eapply list_elem_of_lookup_2|done]..].
    destruct (Hthread _ _ Hi0) as (st & Hst & _). rewrite Forall_forall in Hall.
    assert (st = Idle) as -> by (symmetry; apply Hall; by eapply list_elem_of_lookup_2).
    destruct (ctor_step i0 g s) as (s' & Hs & Ht); [apply (rw_inv_reachable n), (gi_lock _ _ H)|done|intros x Hx; symmetry; by apply Hall|].
    by eapply Hctor.
  - destruct (free_lock_taken n s (gi_lock _ _ H)) as (i & s' & Hi); [apply (Hfree WriteGuard)|apply (Hfree ReadGuard)| |].
    { apply not_Forall_Exists, Exists_exists in Hall as (st & Hin & Hst); [|solve_decision].
      pose proof (Hfree WriteGuard). pose proof (Hfree ReadGuard). destruct st; simpl in *; try done; auto. }
    assert (is_Some (sc !! i)) as [x Hx].
    { apply lookup_lt_is_Some. pose proof (gi_len _ _ H) as Hl. simpl in Hl. rewrite Hl. by destruct Hi as [[? _]|[? _]]; eapply lookup_lt_Some. }
    destruct (Hthread _ _ Hx) as (st & Hst & Hf).
    destruct Hi as [(Hi & Hs & Ht)|(Hi & Hs & Ht)]; rewrite Hi in Hst; injection Hst as <-.
    + apply (Hctor i WriteGuard s'); [|done|done]. destruct x as [|[]|[]|[]]; simpl in Hf; naive_solver.
    + apply (Hctor i ReadGuard s'); [|done|done]. destruct x as [|[]|[]|[]]; simpl in Hf; naive_solver.
Qed.

Lemma outside_idle n s :
  g_inv n s → Forall (eq Outside) (g_scopes s) → lock (g_sys s) = newRWLock.
Proof.
  intros H Hall. pose proof (rw_inv_reachable n _ (gi_lock _ _ H)) as [H1 H2 H3 _ _ _].
  assert (Hc : ∀ st, st ≠ Idle → count st (threads (g_sys s)) = 0).
  { intros st Hst. apply count_zero. intros (i & Hi)%list_elem_of_lookup_1.
    assert (is_Some (g_scopes s !! i)) as [sc Hsc] by (apply lookup_lt_is_Some; rewrite (gi_len _ _ H); by eapply lookup_lt_Some).
    rewrite Forall_forall in Hall. pose proof (Hall sc ltac:(by eapply list_elem_of_lookup_2)) as <-.
    by pose proof (gi_fits _ _ H _ _ _ Hsc Hi). }
  rewrite !Hc in * by done. destruct (lock (g_sys s)) as [ar ww []]; simpl in *; [done|]. by subst.
Qed.

(** C22: Guards hold the lock for their scope and for no longer.  A thread holds
    the lock in a mode exactly while it is inside a guard of that mode; no
    destructor waits, also not the one an exception runs; a lock that no guard is
    on is the one that was constructed; and threads that use the lock through
    guards cannot get stuck: while one of them is in a guard, its constructor
    included, one of them can move on. *)
Theorem guards_release n s :
  rtc gstep (newGsys n) s →
  (∀ i st g, threads (g_sys s) !! i = Some st → st = held g ↔ (g_scopes s !! i) ≫= inside = Some g) ∧
  (∀ i g threw, g_scopes s !! i = Some (InDtor g threw) → ∃ l, gstep s (mkGsys l (<[i:=Outside]> (g_scopes s)))) ∧
  (Forall (eq Outside) (g_scopes s) → lock (g_sys s) = newRWLock) ∧
  (¬ Forall (eq Outside) (g_scopes s) → ∃ i s', gstep s s' ∧ g_scopes s' !! i ≠ g_scopes s !! i).
Proof.
  intros H%g_inv_reachable. split_and!.
  - intros i st g Hi. by eapply inside_holds.
  - intros i g threw Hi. assert (is_Some (threads (g_sys s) !! i)) as [st Hst].
    { apply lookup_lt_is_Some. rewrite <- (gi_len _ _ H). by eapply lookup_lt_Some. }
    pose proof (gi_fits _ _ H _ _ _ Hi Hst) as ->. destruct (dtor_step i g _ Hst) as [s' Hs']. exists s'. destruct s. by eapply g_dtor.
  - by eapply outside_idle.
  - intros (sc & (i & Hi)%list_elem_of_lookup_1 & Hne)%not_Forall_Exists%Exists_exists; [|apply _].
    eapply g_progress; [done|]. exists i, sc. split; [done|]. intros ->. by apply Hne.
Qed.

(** The body of a writer throws; its destructor releases the lock. *)
Definition demo_thrown : gsys := mkGsys (mkSys (mkRWLock 0 0 true) [Writing; Idle]) [InDtor WriteGuard true; InCtor ReadGuard].

Lemma guards_release_witness :
  rtc gstep (newGsys 2) demo_thrown ∧ ∃ l, gstep demo_thrown (mkGsys l [Outside; InCtor ReadGuard]).
Proof.
  assert (H : rtc gstep (newGsys 2) demo_thrown).
  { eapply rtc_l; [apply (g_declare 0 WriteGuard); reflexivity|]. simpl.
    eapply rtc_l; [apply (g_ctor 0 WriteGuard); [reflexivity|apply (step_write 0 _ _ Idle); [reflexivity|by left|reflexivity]|reflexivity]|]. simpl.
    eapply rtc_l; [apply (g_leave 0 WriteGuard true); reflexivity|]. simpl.
    eapply rtc_l; [apply (g_declare 1 ReadGuard); reflexivity|]. apply rtc_refl. }
  split; [exact H|]. exact (proj1 (proj2 (guards_release 2 demo_thrown H)) 0 WriteGuard true eq_refl).
Defined.
