(* ===== verification/HappensBefore.v ===== *)
(** * Happens-before

    What a thread knows: the accesses that happen before its next one.  An access
    knows what its thread knew; a release publishes this with the value that is
    stored, and an acquire that reads the value adds what was published with it;
    a read-modify-write operation carries on what was published before it (a
    release sequence).  Two accesses race when they are to the same place, one of
    them writes, one of them is not atomic, and the earlier one is not known to
    the later one. *)

From S2P Require Import Prelude.

(** ** Accesses *)
Inductive memory_order := Relaxed | Acquire | Release | AcqRel.

Definition acquires (o : memory_order) : bool := match o with Acquire | AcqRel => true | _ => false end.
Definition releases (o : memory_order) : bool := match o with Release | AcqRel => true | _ => false end.

Inductive access := NaRead | NaWrite | AtRead | AtWrite.

#[global] Instance access_eq_dec : EqDecision access.
Proof. solve_decision. Defined.

Definition isWrite (a : access) : bool := match a with NaWrite | AtWrite => true | _ => false end.
Definition isAtomic (a : access) : bool := match a with AtRead | AtWrite => true | _ => false end.
Definition conflict (a b : access) : bool := (isWrite a || isWrite b) && negb (isAtomic a && isAtomic b).

Section Log.
Context {Loc : Type}.

(** An access is named by its place in the log of all accesses. *)
Record event := mkEvent { e_loc : Loc; e_access : access; e_knows : gset nat }.

Definition race_free (log : list event) : Prop :=
  ∀ i j a b, log !! i = Some a → log !! j = Some b → i < j →
    e_loc a = e_loc b → conflict (e_access a) (e_access b) = true → i ∈ e_knows b.

(** ** What operations do to the log and to the knowledge of their thread *)
Definition perform (l : Loc) (a : access) (K : gset nat) (log : list event) : list event * gset nat :=
  (log ++ [mkEvent l a K], {[length log]} ∪ K).

(** A load that reads a value that was published with [view]. *)
Definition load (o : memory_order) (l : Loc) (view K : gset nat) (log : list event) : list event * gset nat :=
  perform l AtRead (if acquires o then view ∪ K else K) log.

(** A store, and what is published with the value. *)
Definition store (o : memory_order) (l : Loc) (K : gset nat) (log : list event) : list event * gset nat * gset nat :=
  let '(log', K') := perform l AtWrite K log in (log', K', if releases o then K' else ∅).

(** A read-modify-write operation on a value that was published with [view]. *)
Definition rmw (o : memory_order) (l : Loc) (view K : gset nat) (log : list event) : list event * gset nat * gset nat :=
  let '(log', K') := perform l AtWrite (if acquires o then view ∪ K else K) log in
  (log', K', if releases o then view ∪ K' else view).

(** ** Races, one access at a time *)
Definition known (log : list event) (P : event → Prop) (K : gset nat) : Prop :=
  ∀ i e, log !! i = Some e → P e → i ∈ K.

Lemma known_snoc log P e K : known log P K → (P e → length log ∈ K) → known (log ++ [e]) P K.
Proof.
  intros Hk He i x [Hi|[Hi Hx]]%lookup_app_Some Hp; [by eapply Hk|].
  apply list_lookup_singleton_Some in Hx as [? <-]. assert (i = length log) as -> by lia. by apply He.
Qed.

Lemma known_mono log (P Q : event → Prop) K K' : known log P K → (∀ e, Q e → P e) → K ⊆ K' → known log Q K'.
Proof. intros Hk HP HK i e Hi Hq. apply HK. eapply Hk; eauto. Qed.

Lemma known_nil P K : known [] P K.
Proof. intros i e H. by rewrite lookup_nil in H. Qed.

Lemma race_free_nil : race_free [].
Proof. intros i j a b H. by rewrite lookup_nil in H. Qed.

Lemma race_free_snoc log l a K :
  race_free log → known log (λ e, e_loc e = l ∧ conflict (e_access e) a = true) K → race_free (log ++ [mkEvent l a K]).
Proof.
  intros Hr Hk i j x y Hx [Hy|[Hj Hy]]%lookup_app_Some Hij Hl Hc.
  - rewrite lookup_app_l in Hx by (apply lookup_lt_Some in Hy; lia). by eapply Hr.
  - apply list_lookup_singleton_Some in Hy as [? <-]. rewrite lookup_app_l in Hx by lia. by eapply Hk.
Qed.
End Log.
Arguments event : clear implicits.
