(* ===== verification/LockFreeQueue.v ===== *)
(** * Lock-free queue (include/concurrency/LockFreeQueue.hpp)

    Many producers, one consumer.  Nodes live on a heap; the steps are the atomic
    accesses of the code: a producer allocates its node, exchanges [tail_] and
    links its predecessor; the consumer loads [head_->next] and takes the value.
    Accesses are sequentially consistent here.  [Undef] is an access to a node
    that has been deleted, or to a value that is not there. *)

From S2P Require Import Prelude.

Section Queue.
Context {T : Type}.

Record Node := mkNode { value : option T; next : option nat }.

Inductive pstate := PIdle | PNew (node : nat) | PLink (node prev : nat).
Inductive cstate := CIdle | CGot (node : nat).

Record queue := mkQueue {
  heap : gmap nat Node;
  head_ : nat;
  tail_ : nat;
  fresh : nat;               (* the next address *)
}.

Definition newQueue : queue := mkQueue {[0 := mkNode None None]} 0 0 1.

(** ** push, access by access *)
Definition push_alloc (q : queue) (item : T) : queue * nat :=
  (mkQueue (<[fresh q := mkNode (Some item) None]> (heap q)) (head_ q) (tail_ q) (S (fresh q)), fresh q).

(** [tail_.exchange(node)] *)
Definition push_exchange (q : queue) (node : nat) : queue * nat :=
  (mkQueue (heap q) (head_ q) node (fresh q), tail_ q).

(** [prev->next.store(node)] *)
Definition push_link (q : queue) (node prev : nat) : result queue :=
  n ← deref (heap q !! prev);
  Val (mkQueue (<[prev := mkNode (value n) (Some node)]> (heap q)) (head_ q) (tail_ q) (fresh q)).

(** ** pop *)
Definition pop_load (q : queue) : result (option nat) :=
  n ← deref (heap q !! head_ q); Val (next n).

Definition pop_take (q : queue) (node : nat) : result (queue * T) :=
  n ← deref (heap q !! node);
  out ← deref (value n);
  _ ← deref (heap q !! head_ q);
  Val (mkQueue (delete (head_ q) (<[node := mkNode None (next n)]> (heap q))) node (tail_ q) (fresh q), out).

Definition isEmpty (q : queue) : result bool :=
  n ← deref (heap q !! head_ q); Val (bool_decide (next n = None)).

(** ** The destructor: the nodes from [head_] on *)
Fixpoint destroy (fuel : nat) (h : gmap nat Node) (node : option nat) : result (gmap nat Node) :=
  match node with
  | None => Val h
  | Some a =>
    match fuel with
    | 0 => Undef
    | S fuel' => n ← deref (h !! a); destroy fuel' (delete a h) (next n)
    end
  end.

(** ** The system: producers, the consumer, and what they pushed and popped *)
Record qsys := mkQsys {
  shared : queue;
  producers : list pstate;
  consumer : cstate;
  pushed : list T;   (* in the order of the exchanges *)
  popped : list T;
}.

Definition newQsys (n : nat) : qsys := mkQsys newQueue (replicate n PIdle) CIdle [] [].

Inductive qstep : qsys → qsys → Prop :=
  | q_alloc i x q q' a ps c pu po :
      ps !! i = Some PIdle → push_alloc q x = (q', a) →
      qstep (mkQsys q ps c pu po) (mkQsys q' (<[i:=PNew a]> ps) c pu po)
  | q_exchange i a x q q' prev ps c pu po :
      ps !! i = Some (PNew a) → value <$> heap q !! a = Some (Some x) → push_exchange q a = (q', prev) →
      qstep (mkQsys q ps c pu po) (mkQsys q' (<[i:=PLink a prev]> ps) c (pu ++ [x]) po)
  | q_link i a prev q q' ps c pu po :
      ps !! i = Some (PLink a prev) → push_link q a prev = Val q' →
      qstep (mkQsys q ps c pu po) (mkQsys q' (<[i:=PIdle]> ps) c pu po)
  | q_load_none q ps pu po :
      pop_load q = Val None → qstep (mkQsys q ps CIdle pu po) (mkQsys q ps CIdle pu po)
  | q_load q n ps pu po :
      pop_load q = Val (Some n) → qstep (mkQsys q ps CIdle pu po) (mkQsys q ps (CGot n) pu po)
  | q_take q q' n x ps pu po :
      pop_take q n = Val (q', x) → qstep (mkQsys q ps (CGot n) pu po) (mkQsys q' ps CIdle pu (po ++ [x])).

(** ** The invariant

    [chain] is the stub and the nodes behind it in the order of the exchanges, up
    to the tail, with the values [xs].  A node points to the next one, or the
    producer that is to link them has not come to it. *)
Definition nodes_new (ps : list pstate) : list nat :=
  omap (λ p, match p with PNew a => Some a | _ => None end) ps.

Record chained (q : queue) (ps : list pstate) (chain : list nat) (xs : list T) : Prop := {
  ch_head : chain !! 0 = Some (head_ q);
  ch_tail : last chain = Some (tail_ q);
  ch_nodup : NoDup (chain ++ nodes_new ps);
  ch_dom : ∀ a, is_Some (heap q !! a) ↔ a ∈ chain ++ nodes_new ps;
  ch_fresh : ∀ a, a ∈ chain ++ nodes_new ps → a < fresh q;
  ch_link : ∀ j a b, chain !! j = Some a → chain !! S j = Some b →
    next <$> heap q !! a = Some (Some b) ∨
    (next <$> heap q !! a = Some None ∧ ∃ i, ps !! i = Some (PLink b a));
  ch_last : next <$> heap q !! tail_ q = Some None;
  ch_pending : ∀ i a prev, ps !! i = Some (PLink a prev) →
    next <$> heap q !! prev = Some None ∧ ∃ j, chain !! j = Some prev ∧ chain !! S j = Some a;
  ch_once : ∀ i i' a a' prev, ps !! i = Some (PLink a prev) → ps !! i' = Some (PLink a' prev) → i = i';
  ch_length : length chain = S (length xs);
  ch_values : ∀ j a x, chain !! S j = Some a → xs !! j = Some x → value <$> heap q !! a = Some (Some x);
  ch_new : ∀ i a, ps !! i = Some (PNew a) →
    ∃ x, heap q !! a = Some (mkNode (Some x) None);
}.

Definition new_of (p : pstate) : list nat := match p with PNew a => [a] | _ => [] end.

Lemma nodes_new_insert ps i p p' :
  ps !! i = Some p → ∃ r, nodes_new ps ≡ₚ new_of p ++ r ∧ nodes_new (<[i:=p']> ps) ≡ₚ new_of p' ++ r.
Proof.
  intros (l1 & l2 & -> & ->)%list_elem_of_split_length. exists (nodes_new l1 ++ nodes_new l2).
  rewrite insert_app_r_alt, Nat.sub_diag by lia. simpl. unfold nodes_new. rewrite !omap_app. split.
  - destruct p; csimpl; rewrite ?Permutation_middle; done.
  - destruct p'; csimpl; rewrite ?Permutation_middle; done.
Qed.

Lemma chained_new n : chained newQueue (replicate n PIdle) [0] [].
Proof.
  assert (Hn : nodes_new (replicate n PIdle) = []) by (by induction n).
  split; rewrite ?Hn; simpl; try done.
  - apply NoDup_singleton.
  - intros a. rewrite lookup_singleton_is_Some, list_elem_of_singleton. naive_solver.
  - intros a ->%list_elem_of_singleton. lia.
  - intros i a prev [? _]%lookup_replicate. done.
  - intros i i' a a' prev [? _]%lookup_replicate. done.
  - intros i a [? _]%lookup_replicate. done.
Qed.

(** The position of a node in the chain is unique. *)
Lemma chain_at q ps chain xs i j a :
  chained q ps chain xs → chain !! i = Some a → chain !! j = Some a → i = j.
Proof. intros Hc Hi Hj. pose proof (ch_nodup _ _ _ _ Hc) as [Hn _]%NoDup_app. by eapply NoDup_lookup. Qed.

Lemma chain_last q ps chain xs : chained q ps chain xs → chain !! length xs = Some (tail_ q).
Proof. intros Hc. pose proof (ch_tail _ _ _ _ Hc) as Hl. rewrite last_lookup, (ch_length _ _ _ _ Hc) in Hl. done. Qed.

(** ** Each step keeps it *)
Lemma chained_alloc q ps chain xs i x :
  chained q ps chain xs → ps !! i = Some PIdle →
  chained (push_alloc q x).1 (<[i:=PNew (push_alloc q x).2]> ps) chain xs.
Proof.
  intros [H1 H2 H3 H4 H5 H6 H7 H8 H9 H10 H11 H12] Hi. simpl.
  destruct (nodes_new_insert ps i PIdle (PNew (fresh q)) Hi) as (r & Hr & Hr'). simpl in Hr, Hr'.
  assert (Hf : fresh q ∉ chain ++ nodes_new ps) by (intros Hin%H5; lia).
  assert (Hold : ∀ a, a ∈ chain ++ nodes_new ps →
    <[fresh q:=mkNode (Some x) None]> (heap q) !! a = heap q !! a).
  { intros a Ha. apply lookup_insert_ne. by intros <-. }
  assert (Hch : ∀ j a, chain !! j = Some a → a ∈ chain ++ nodes_new ps).
  { intros j a Ha. apply elem_of_app. left. by eapply list_elem_of_lookup_2. }
  assert (Hother : ∀ k a prev, <[i:=PNew (fresh q)]> ps !! k = Some (PLink a prev) → ps !! k = Some (PLink a prev)).
  { intros k a prev [(_ & ? & _)|(_ & ?)]%list_lookup_insert_Some; done. }
  rewrite <- Hr in Hr'. split; simpl; try done.
  - rewrite Hr', <- Permutation_middle. by constructor.
  - intros a. rewrite Hr', <- Permutation_middle, elem_of_cons, lookup_insert_is_Some', H4. naive_solver.
  - intros a. rewrite Hr', <- Permutation_middle, elem_of_cons. intros [->|Ha%H5]; lia.
  - intros j a b Ha Hb. rewrite !Hold by eauto. destruct (H6 j a b Ha Hb) as [?|[? (k & Hk)]]; [by left|].
    right. split; [done|]. exists k. rewrite list_lookup_insert_ne; [done|]. intros ->. congruence.
  - rewrite Hold; [done|]. eapply (Hch (length chain - 1)). rewrite last_lookup in H2.
    by rewrite Nat.sub_1_r.
  - intros k a prev Hk%Hother. destruct (H8 k a prev Hk) as (? & j & Hj & ?). rewrite Hold by eauto. eauto.
  - intros k k' a a' prev Hk%Hother Hk'%Hother. by eapply H9.
  - intros j a y Ha Hy. rewrite Hold by eauto. by eapply H11.
  - intros k a [(<- & [= <-] & _)|(_ & Hk)]%list_lookup_insert_Some.
    + exists x. by rewrite lookup_insert_eq.
    + destruct (H12 k a Hk) as [y Hy]. exists y. rewrite Hold; [done|]. apply H4. by eexists.
Qed.

Lemma chained_exchange q ps chain xs i a x :
  chained q ps chain xs → ps !! i = Some (PNew a) → value <$> heap q !! a = Some (Some x) →
  chained (push_exchange q a).1 (<[i:=PLink a (push_exchange q a).2]> ps) (chain ++ [a]) (xs ++ [x]).
Proof.
  intros Hc Hi Hx. pose proof (chain_last _ _ _ _ Hc) as Hlast.
  pose proof (λ i j a, chain_at _ _ _ _ i j a Hc) as Hat.
  destruct Hc as [H1 H2 H3 H4 H5 H6 H7 H8 H9 H10 H11 H12]. simpl.
  destruct (nodes_new_insert ps i (PNew a) (PLink a (tail_ q)) Hi) as (r & Hr & Hr'). simpl in Hr, Hr'.
  assert (Hperm : (chain ++ [a]) ++ nodes_new (<[i:=PLink a (tail_ q)]> ps) ≡ₚ chain ++ nodes_new ps).
  { by rewrite Hr, Hr', <- (assoc_L (++)). }
  destruct (H12 i a Hi) as [y Hy]. rewrite Hy in Hx. injection Hx as ->.
  assert (Hsplit : ∀ j b, (chain ++ [a]) !! j = Some b → chain !! j = Some b ∨ (j = length chain ∧ b = a)).
  { intros j b [?|[Hj Hb]]%lookup_app_Some; [by left|]. apply list_lookup_singleton_Some in Hb as [? ->]. right. lia. }
  assert (Hnl : ∀ j b c, chain !! j = Some b → chain !! S j = Some c → j ≠ length xs).
  { intros j b c _ Hjc ->. apply lookup_lt_Some in Hjc. lia. }
  assert (Hi' : <[i:=PLink a (tail_ q)]> ps !! i = Some (PLink a (tail_ q))).
  { apply list_lookup_insert_eq. by eapply lookup_lt_Some. }
  split; simpl; try done.
  - rewrite lookup_app_l; [done|]. lia.
  - by rewrite last_snoc.
  - by rewrite Hperm.
  - intros b. by rewrite Hperm.
  - intros b. rewrite Hperm. apply H5.
  - intros j b c Hb Hcc. apply Hsplit in Hb as [Hb|[-> ->]].
    2: { apply lookup_lt_Some in Hcc. rewrite length_app in Hcc. simpl in Hcc. lia. }
    apply Hsplit in Hcc as [Hcc|[Hj ->]].
    + destruct (H6 j b c Hb Hcc) as [?|[? (k & Hk)]]; [by left|]. right. split; [done|]. exists k.
      rewrite list_lookup_insert_ne; [done|]. intros ->. congruence.
    + assert (j = length xs) as -> by lia. assert (b = tail_ q) as -> by congruence. right. split; [done|]. by exists i.
  - by rewrite Hy.
  - intros k b prev [(<- & [= <- <-] & _)|(Hk & Hkp)]%list_lookup_insert_Some.
    + split; [done|]. exists (length xs). rewrite lookup_app_l by (apply lookup_lt_Some in Hlast; lia).
      split; [done|]. rewrite <- H10, lookup_app_r, Nat.sub_diag by lia. done.
    + destruct (H8 k b prev Hkp) as (? & j & Hj & Hj'). split; [done|]. exists j.
      rewrite !lookup_app_l by (by eapply lookup_lt_Some). done.
  - assert (Hnone : ∀ k b, ps !! k = Some (PLink b (tail_ q)) → False).
    { intros k b Hk. destruct (H8 k b _ Hk) as (_ & j & Hj & Hj'). apply (Hnl j _ _ Hj Hj'). by eapply Hat. }
    intros k k' b b' prev Hk Hk'. destruct (decide (i = k)) as [<-|Hik], (decide (i = k')) as [<-|Hik']; [done| | |].
    + rewrite Hi' in Hk. injection Hk as <- <-. rewrite list_lookup_insert_ne in Hk' by done. by destruct (Hnone _ _ Hk').
    + rewrite Hi' in Hk'. injection Hk' as <- <-. rewrite list_lookup_insert_ne in Hk by done. by destruct (Hnone _ _ Hk).
    + rewrite list_lookup_insert_ne in Hk, Hk' by done. by eapply H9.
  - rewrite !length_app. simpl. lia.
  - intros j b z Hb Hz. apply Hsplit in Hb as [Hb|[Hj ->]].
    + rewrite lookup_app_l in Hz by (apply lookup_lt_Some in Hb; lia). by eapply H11.
    + assert (j = length xs) as -> by lia. rewrite lookup_app_r, Nat.sub_diag in Hz by lia. injection Hz as <-. by rewrite Hy.
  - intros k b [(_ & ? & _)|(_ & Hk)]%list_lookup_insert_Some; [done|]. by eapply H12.
Qed.

Lemma chained_link q ps chain xs i b a :
  chained q ps chain xs → ps !! i = Some (PLink b a) →
  ∃ q', push_link q b a = Val q' ∧ chained q' (<[i:=PIdle]> ps) chain xs.
Proof.
  intros Hc Hi. pose proof (chain_last _ _ _ _ Hc) as Hlast.
  pose proof (λ i j a, chain_at _ _ _ _ i j a Hc) as Hat.
  destruct Hc as [H1 H2 H3 H4 H5 H6 H7 H8 H9 H10 H11 H12].
  destruct (H8 i b a Hi) as (Hnone & j & Hj & Hj'). unfold push_link.
  destruct (heap q !! a) as [[v nx]|] eqn:Ha; [|done]. injection Hnone as ->. simpl.
  eexists. split; [done|].
  destruct (nodes_new_insert ps i (PLink b a) PIdle Hi) as (r & Hr & Hr'). simpl in Hr, Hr'. rewrite <- Hr in Hr'.
  assert (Hval : ∀ c, value <$> <[a:=mkNode v (Some b)]> (heap q) !! c = value <$> heap q !! c).
  { intros c. destruct (decide (a = c)) as [<-|Hne]; [by rewrite lookup_insert_eq, Ha|by rewrite lookup_insert_ne]. }
  assert (Hother : ∀ k c p, <[i:=PIdle]> ps !! k = Some (PLink c p) → i ≠ k ∧ ps !! k = Some (PLink c p) ∧ p ≠ a).
  { intros k c p [(_ & ? & _)|(Hne & Hk)]%list_lookup_insert_Some; [done|]. split; [done|]. split; [done|].
    intros ->. by apply Hne, (H9 i k b c a). }
  assert (Hta : a ≠ tail_ q).
  { intros ->. assert (j = length xs) as -> by (by eapply Hat). apply lookup_lt_Some in Hj'. lia. }
  split; simpl; try done.
  - by rewrite Hr'.
  - intros c. rewrite Hr', lookup_insert_is_Some', H4. split; [|by right]. intros [<-|?]; [|done].
    apply H4. by rewrite Ha.
  - intros c. rewrite Hr'. apply H5.
  - intros k c d Hcc Hd. destruct (decide (a = c)) as [<-|Hne].
    + assert (k = j) as -> by (by eapply Hat). assert (d = b) as -> by congruence. left. by rewrite lookup_insert_eq.
    + rewrite lookup_insert_ne by done. destruct (H6 k c d Hcc Hd) as [?|[? (m & Hm)]]; [by left|]. right.
      split; [done|]. exists m. rewrite list_lookup_insert_ne; [done|]. intros <-. congruence.
  - by rewrite lookup_insert_ne.
  - intros k c p (_ & Hk & Hp)%Hother. rewrite lookup_insert_ne by done. by eapply H8.
  - intros k k' c c' p (_ & Hk & _)%Hother (_ & Hk' & _)%Hother. by eapply H9.
  - intros k c x Hcc Hx. rewrite Hval. by eapply H11.
  - intros k c [(_ & ? & _)|(_ & Hk)]%list_lookup_insert_Some; [done|]. destruct (H12 k c Hk) as [x Hx]. exists x.
    rewrite lookup_insert_ne; [done|]. intros <-. apply NoDup_app in H3 as (_ & Hd & _). apply (Hd a).
    + by eapply list_elem_of_lookup_2.
    + unfold nodes_new. apply list_elem_of_omap. exists (PNew a). split; [by eapply list_elem_of_lookup_2|done].
Qed.

(** What the consumer finds behind the stub. *)
Lemma pop_load_spec q ps chain xs :
  chained q ps chain xs →
  ∃ o, pop_load q = Val o ∧
    match o with
    | Some n => ∃ x xs', xs = x :: xs' ∧ chain !! 1 = Some n
    | None => xs = [] ∨ ∃ i n, ps !! i = Some (PLink n (head_ q))
    end.
Proof.
  intros Hc. pose proof (chain_last _ _ _ _ Hc) as Hlast. destruct Hc as [H1 H2 H3 H4 H5 H6 H7 H8 H9 H10 H11 H12].
  assert (is_Some (heap q !! head_ q)) as [[v nx] Hh].
  { apply H4, elem_of_app. left. by eapply list_elem_of_lookup_2. }
  unfold pop_load. rewrite Hh. simpl. exists nx. split; [done|]. destruct xs as [|x xs'].
  - cbn [length] in Hlast. assert (head_ q = tail_ q) as Ht by congruence. rewrite <- Ht, Hh in H7. injection H7 as ->. by left.
  - destruct (chain !! 1) as [b|] eqn:Hb; [|apply lookup_ge_None in Hb; simpl in H10; lia].
    destruct (H6 0 _ b H1 Hb) as [Hn|[Hn (i & Hi)]]; rewrite Hh in Hn; injection Hn as ->.
    + eauto.
    + right. eauto.
Qed.

Lemma chained_take q ps chain x xs n :
  chained q ps chain (x :: xs) → chain !! 1 = Some n → next <$> heap q !! head_ q = Some (Some n) →
  ∃ q' chain', pop_take q n = Val (q', x) ∧ chained q' ps chain' xs.
Proof.
  intros Hc Hn Hhead. pose proof (λ i j a, chain_at _ _ _ _ i j a Hc) as Hat.
  destruct Hc as [H1 H2 H3 H4 H5 H6 H7 H8 H9 H10 H11 H12].
  destruct chain as [|h [|n' chain]]; [done|done|]. injection H1 as ->. injection Hn as ->.
  pose proof (H11 0 n x eq_refl eq_refl) as Hv. unfold pop_take.
  destruct (heap q !! n) as [[v nx]|] eqn:Hnn; [|done]. injection Hv as ->. simpl.
  destruct (heap q !! head_ q) as [hd|] eqn:Hh; [|done]. simpl. eexists _, (n :: chain). split; [done|].
  pose proof H3 as Hnd. simpl in Hnd. apply NoDup_cons in Hnd as [Hh1 Hnd]. apply NoDup_cons in Hnd as [Hn1 Hnd].
  set (h' := delete (head_ q) (<[n:=mkNode None nx]> (heap q))).
  assert (Hne : head_ q ≠ n) by (intros Heq; apply Hh1; rewrite Heq; by left).
  assert (Hnext : ∀ c, c ≠ head_ q → next <$> h' !! c = next <$> heap q !! c).
  { intros c Hc. unfold h'. rewrite lookup_delete_ne by done. destruct (decide (n = c)) as [<-|?].
    - by rewrite lookup_insert_eq, Hnn.
    - by rewrite lookup_insert_ne. }
  assert (Hrest : ∀ c, c ≠ head_ q → c ≠ n → h' !! c = heap q !! c).
  { intros c Hc Hc'. unfold h'. by rewrite lookup_delete_ne, lookup_insert_ne. }
  assert (Hin : ∀ j c, (n :: chain) !! j = Some c → c ≠ head_ q).
  { intros j c Hj ->. specialize (Hat 0 (S j) (head_ q) eq_refl Hj). lia. }
  split; simpl; try done.
  - apply NoDup_cons in H3 as [_ H3]. exact H3.
  - intros c. specialize (H4 c). simpl in H4. rewrite !elem_of_cons in H4.
    rewrite elem_of_cons. fold h'. destruct (decide (c = head_ q)) as [->|Hc].
    + unfold h'. rewrite lookup_delete_eq. split; [by intros []|]. intros Hin'. exfalso. apply Hh1. by apply elem_of_cons.
    + destruct (decide (c = n)) as [->|Hcn].
      * unfold h'. rewrite lookup_delete_ne, lookup_insert_eq by done. split; eauto.
      * rewrite Hrest by done. rewrite H4. tauto.
  - intros c Hc. apply H5. by right.
  - intros j c d Hj Hj'. fold h'. rewrite (Hnext c) by (by eapply Hin). by apply (H6 (S j)).
  - fold h'. rewrite Hnext; [done|]. eapply (Hin (length chain)). rewrite !last_cons_cons in H2. by rewrite last_lookup in H2.
  - intros i c p Hi. destruct (H8 i c p Hi) as (Hp & j & Hj & Hj'). fold h'.
    assert (p ≠ head_ q) as Hph by (intros ->; rewrite Hh in Hp; congruence).
    rewrite Hnext by done. split; [done|]. destruct j as [|j]; [simpl in Hj; congruence|]. by exists j.
  - simpl in H10. lia.
  - intros j c y Hj Hy. fold h'. rewrite Hrest; [by apply (H11 (S j))|by apply (Hin (S j))|].
    intros ->. specialize (Hat 1 (S (S j)) n eq_refl Hj). lia.
  - intros i c Hi. destruct (H12 i c Hi) as [y Hy]. exists y. fold h'.
    assert (Hcn : c ∈ nodes_new ps).
    { unfold nodes_new. apply list_elem_of_omap. exists (PNew c). split; [by eapply list_elem_of_lookup_2|done]. }
    rewrite Hrest; [done| |].
    + intros ->. apply Hh1. right. apply elem_of_app. by right.
    + intros ->. apply Hn1. apply elem_of_app. by right.
Qed.
End Queue.
