(* ===== verification/LockFreeQueueMain.v ===== *)
(** * Lock-free queue: main theorems *)

From S2P Require Import Prelude LockFreeQueue.

Section Main.
Context {T : Type}.
Implicit Types (s : qsys (T := T)) (q : queue (T := T)).

Definition got (q : queue (T := T)) (chain : list nat) (c : cstate) : Prop :=
  match c with
  | CIdle => True
  | CGot n => chain !! 1 = Some n ∧ next <$> heap q !! head_ q = Some (Some n)
  end.

Definition q_inv s : Prop :=
  ∃ chain xs, chained (shared s) (producers s) chain xs ∧ pushed s = popped s ++ xs ∧
    got (shared s) chain (consumer s).

Lemma q_inv_step s s' : q_inv s → qstep s s' → q_inv s'.
Proof.
  intros (chain & xs & Hc & Hp & Hg) Hs.
  destruct Hs as [i x q q' a ps c pu po Hi Ha|i a x q q' prev ps c pu po Hi Hx Ha|i a prev q q' ps c pu po Hi Ha
    |q ps pu po Hl|q n ps pu po Hl|q q' n x ps pu po Ht]; simpl in *.
  - pose proof (chained_alloc q ps chain xs i x Hc Hi) as Hc'. rewrite Ha in Hc'. exists chain, xs. split; [done|].
    split; [done|]. destruct c as [|n]; [done|]. destruct Hg as [? Hn]. split; [done|]. injection Ha as <- <-. simpl.
    rewrite lookup_insert_ne; [done|]. intros Heq.
    assert (head_ q < fresh q); [|lia]. apply (ch_fresh _ _ _ _ Hc), elem_of_app. left.
    eapply list_elem_of_lookup_2, (ch_head _ _ _ _ Hc).
  - pose proof (chained_exchange q ps chain xs i a x Hc Hi Hx) as Hc'. rewrite Ha in Hc'. injection Ha as <- <-.
    exists (chain ++ [a]), (xs ++ [x]). split; [done|]. split; [simpl; by rewrite Hp, (assoc_L (++))|].
    destruct c as [|n]; [done|]. destruct Hg as [Hn ?]. split; [|done]. by apply lookup_app_l_Some.
  - destruct (chained_link q ps chain xs i a prev Hc Hi) as (q1 & Ha' & Hc'). rewrite Ha in Ha'. injection Ha' as <-.
    exists chain, xs. split; [done|]. split; [done|]. destruct c as [|n]; [done|]. destruct Hg as [? Hn]. split; [done|].
    simpl in *. destruct (ch_pending _ _ _ _ Hc i a prev Hi) as [Hnone _]. unfold push_link in Ha.
    destruct (heap q !! prev) as [nd|] eqn:Hprev; [|done]. injection Ha as <-. simpl.
    rewrite lookup_insert_ne; [done|]. intros ->. rewrite Hprev in Hn. congruence.
  - by exists chain, xs.
  - exists chain, xs. split; [done|]. split; [done|]. destruct (pop_load_spec q ps chain xs Hc) as (o & Hl' & Ho).
    rewrite Hl in Hl'. injection Hl' as <-. destruct Ho as (x & xs' & _ & Hn). split; [done|]. simpl.
    unfold pop_load in Hl. destruct (heap q !! head_ q) as [nd|]; [|done]. simpl in *. congruence.
  - destruct Hg as [Hn Hh]. destruct xs as [|y xs].
    { assert (length chain = 1) as Hlen by apply (ch_length _ _ _ _ Hc). apply lookup_lt_Some in Hn. lia. }
    destruct (chained_take q ps chain y xs n Hc Hn Hh) as (q1 & chain' & Ht' & Hc'). rewrite Ht in Ht'.
    injection Ht' as <- <-. exists chain', xs. split; [done|]. split; [|done]. simpl. by rewrite Hp, <- (assoc_L (++)).
Qed.

Lemma q_inv_reachable n s : rtc qstep (newQsys n) s → q_inv s.
Proof.
  intros Hr. assert (H0 : q_inv (newQsys n)) by (exists [0], []; split; [apply chained_new|done]).
  induction Hr as [|s1 s2 s3 H12 _ IH]; [done|]. apply IH. by eapply q_inv_step.
Qed.

(** Nobody is between the exchange and the link. *)
Definition settled s : Prop := ∀ i a prev, producers s !! i ≠ Some (PLink a prev).

(** C18: For any number of producers and any interleaving, the values popped so
    far are exactly the first values pushed, in the order of the producers'
    exchanges: nothing is lost, duplicated, invented or reordered.  When no
    producer is between its exchange and its link, the consumer is told that
    nothing is ready only if every pushed value has been popped. *)
Theorem queue_fifo (n : nat) s :
  rtc qstep (newQsys n) s →
  (∃ rest, pushed s = popped s ++ rest) ∧
  (settled s → pop_load (shared s) = Val None → popped s = pushed s).
Proof.
  intros (chain & xs & Hc & Hp & _)%q_inv_reachable. split; [by exists xs|]. intros Hset Hl.
  destruct (pop_load_spec _ _ _ _ Hc) as (o & Hl' & Ho). rewrite Hl in Hl'. injection Hl' as <-.
  destruct Ho as [->|(i & a & Hi)]; [by rewrite Hp, app_nil_r|]. by apply Hset in Hi.
Qed.

(** No step of the queue touches a node that was deleted, or a value that is
    not there: whatever the interleaving, a producer that has exchanged the tail
    can link its node, the consumer can look behind the stub, and when it saw a
    node it can take its value. *)
Theorem queue_no_use_after_free (n : nat) s :
  rtc qstep (newQsys n) s →
  (∀ i a prev, producers s !! i = Some (PLink a prev) → ∃ q', push_link (shared s) a prev = Val q') ∧
  (∃ o, pop_load (shared s) = Val o) ∧ (∃ b, isEmpty (shared s) = Val b) ∧
  (∀ a, consumer s = CGot a → ∃ q' x, pop_take (shared s) a = Val (q', x)).
Proof.
  intros (chain & xs & Hc & _ & Hg)%q_inv_reachable. split; [|split; [|split]].
  - intros i a prev Hi. destruct (chained_link _ _ _ _ _ _ _ Hc Hi) as (q' & ? & _). eauto.
  - destruct (pop_load_spec _ _ _ _ Hc) as (o & ? & _). eauto.
  - destruct (pop_load_spec _ _ _ _ Hc) as (o & Hl & _). unfold pop_load in Hl. unfold isEmpty.
    destruct (heap (shared s) !! head_ (shared s)) as [nd|]; [|done]. simpl. eauto.
  - intros a Ha. rewrite Ha in Hg. destruct Hg as [Hn Hh]. destruct xs as [|y xs].
    { assert (length chain = 1) as Hlen by apply (ch_length _ _ _ _ Hc). apply lookup_lt_Some in Hn. lia. }
    destruct (chained_take _ _ _ _ _ _ Hc Hn Hh) as (q' & chain' & ? & _). eauto.
Qed.

(** Deleting a fully linked list of nodes. *)
Lemma destroy_linked (h : gmap nat (Node (T := T))) a chain :
  NoDup (a :: chain) → (∀ b, is_Some (h !! b) ↔ b ∈ a :: chain) →
  (∀ j b c, (a :: chain) !! j = Some b → (a :: chain) !! S j = Some c → next <$> h !! b = Some (Some c)) →
  (∀ b, last (a :: chain) = Some b → next <$> h !! b = Some None) →
  destroy (S (length chain)) h (Some a) = Val ∅.
Proof.
  revert h a. induction chain as [|b chain IH]; intros h a Hnd Hdom Hlink Hlast.
  - specialize (Hlast a eq_refl). cbn [destroy length]. destruct (h !! a) as [nd|] eqn:Ha; [|done].
    injection Hlast as Hlast. cbn [deref mbind result_bind]. rewrite Hlast. f_equal. apply map_eq. intros c.
    rewrite lookup_empty. destruct (decide (a = c)) as [<-|Hne]; [by rewrite lookup_delete_eq|].
    rewrite lookup_delete_ne by done. apply eq_None_not_Some. rewrite Hdom, list_elem_of_singleton. congruence.
  - pose proof (Hlink 0 a b eq_refl eq_refl) as Hab. change (S (length (b :: chain))) with (S (S (length chain))).
    cbn [destroy]. destruct (h !! a) as [nd|] eqn:Ha; [|done]. injection Hab as Hab. cbn [deref mbind result_bind].
    rewrite Hab. apply NoDup_cons in Hnd as [Hna Hnd].
    assert (Hold : ∀ j c, (b :: chain) !! j = Some c → delete a h !! c = h !! c).
    { intros j c Hj. apply lookup_delete_ne. intros <-. apply Hna. by eapply list_elem_of_lookup_2. }
    apply (IH (delete a h) b); [done| | |].
    + intros c. destruct (decide (a = c)) as [<-|Hne].
      * rewrite lookup_delete_eq. split; [by intros []|done].
      * rewrite lookup_delete_ne, Hdom, elem_of_cons by done. split; [|by right]. by intros [->|].
    + intros j c d Hc Hd. rewrite (Hold j) by done. by apply (Hlink (S j)).
    + intros c Hc. rewrite (Hold (length chain)); [apply Hlast; by rewrite last_cons_cons|].
      by rewrite last_lookup in Hc.
Qed.

(** The destructor, run when no push is under way, deletes every node exactly
    once and leaves nothing allocated (within as many iterations as there are
    nodes). *)
Theorem queue_destroyed (n : nat) s :
  rtc qstep (newQsys n) s → (∀ i p, producers s !! i = Some p → p = PIdle) →
  destroy (base.size (heap (shared s))) (heap (shared s)) (Some (head_ (shared s))) = Val ∅.
Proof.
  intros (chain & xs & Hc & _ & _)%q_inv_reachable Hidle.
  assert (Hnew : nodes_new (producers s) = []).
  { revert Hidle. generalize (producers s). induction l as [|p l IH]; intros Hp; [done|]. csimpl.
    assert (p = PIdle) as -> by (by apply (Hp 0)). apply IH. intros i. apply (Hp (S i)). }
  destruct Hc as [H1 H2 H3 H4 H5 H6 H7 H8 H9 H10 H11 H12]. rewrite Hnew, app_nil_r in H3.
  setoid_rewrite Hnew in H4. setoid_rewrite app_nil_r in H4.
  destruct chain as [|a chain]; [done|]. injection H1 as <-.
  assert (base.size (heap (shared s)) = S (length chain)) as ->.
  { rewrite <- size_dom. assert (dom (heap (shared s)) = list_to_set (a :: chain)) as ->.
    { apply set_eq. intros b. by rewrite elem_of_dom, elem_of_list_to_set. }
    by rewrite size_list_to_set. }
  apply destroy_linked; [done|done| |].
  - intros j b c Hb Hcc. destruct (H6 j b c Hb Hcc) as [?|[_ (i & Hi)]]; [done|]. by apply Hidle in Hi.
  - intros b Hb. rewrite Hb in H2. by injection H2 as ->.
Qed.
End Main.

(** Producer 0 exchanges first, producer 1 links first; the consumer pops one. *)
Lemma demo_queue :
  ∃ s : qsys (T := nat), rtc qstep (newQsys 2) s ∧ pushed s = [5; 6] ∧ popped s = [5] ∧ producers s = [PIdle; PIdle] ∧
    consumer s = CIdle.
Proof.
  eexists. split; [|split; [|split; [|split]]].
  - eapply rtc_l; [eapply (q_alloc 0 5); [done|reflexivity]|].
    eapply rtc_l; [eapply (q_exchange 0 1 5); [done|reflexivity|reflexivity]|].
    eapply rtc_l; [eapply (q_alloc 1 6); [done|reflexivity]|].
    eapply rtc_l; [eapply (q_exchange 1 2 6); [done|reflexivity|reflexivity]|].
    eapply rtc_l; [eapply (q_link 1 2 1); [done|reflexivity]|].
    eapply rtc_l; [eapply q_load_none; reflexivity|].
    eapply rtc_l; [eapply (q_link 0 1 0); [done|reflexivity]|].
    eapply rtc_l; [eapply (q_load _ 1); reflexivity|].
    eapply rtc_l; [eapply (q_take _ _ 1 5); reflexivity|].
    apply rtc_refl.
  - reflexivity.
  - reflexivity.
  - reflexivity.
  - reflexivity.
Qed.

Lemma queue_fifo_witness :
  ∃ s : qsys (T := nat), pushed s = [5; 6] ∧ popped s = [5] ∧ (∃ rest, pushed s = popped s ++ rest) ∧
    (settled s → pop_load (shared s) = Val None → popped s = pushed s).
Proof.
  destruct demo_queue as (s & Hr & Hpu & Hpo & _). exists s. split; [done|]. split; [done|].
  apply (queue_fifo 2). exact Hr.
Defined.

Lemma queue_destroyed_witness :
  ∃ s : qsys (T := nat), pushed s = [5; 6] ∧
    destroy (base.size (heap (shared s))) (heap (shared s)) (Some (head_ (shared s))) = Val ∅.
Proof.
  destruct demo_queue as (s & Hr & Hpu & _ & Hps & _). exists s. split; [done|].
  apply (queue_destroyed 2 s Hr). rewrite Hps. intros [|[|i]] p [= <-]; reflexivity.
Defined.
