(* ===== verification/LockFreeQueueOrders.v ===== *)
(** * Lock-free queue with its memory orders (include/concurrency/LockFreeQueue.hpp)

    The steps of [LockFreeQueue] with what their threads know.  All exchanges of
    [tail_] read the latest value, as read-modify-write operations do.  A node's
    [next] is stored once: a load behind it may still read the null pointer from
    before, unless the store happens before the load.  Threads of the model know
    of each other only what these accesses tell them; with other synchronization
    they know more, and less can be read. *)

From S2P Require Import Prelude HappensBefore LockFreeQueue LockFreeQueueMain.

Inductive place := PTail | PValue (node : nat) | PNext (node : nat).

Section Orders.
Context {T : Type}.

Record osys := mkOsys {
  o_sys : qsys (T := T);
  o_producers : list (gset nat);         (* what they know *)
  o_consumer : gset nat;
  o_tail : gset nat;                     (* published with [tail_] *)
  o_next : gmap nat (nat * gset nat);    (* the stores to [next], and what they published *)
  o_log : list (event place);
}.

(** The constructor; the threads start behind it. *)
Definition newOsys (n : nat) : osys :=
  let '(log1, K1) := perform (PValue 0) NaWrite ∅ [] in
  let '(log2, K2) := perform (PNext 0) NaWrite K1 log1 in
  let '(log3, K3, view) := store Relaxed PTail K2 log2 in
  mkOsys (newQsys n) (replicate n K3) K3 view ∅ log3.

Inductive ostep : osys → osys → Prop :=
  | o_alloc i x q q' a ps c pu po kp kc tv nv lg K lg1 K1 lg2 K2 :   (* [new Node(std::move(item))] *)
      ps !! i = Some PIdle → push_alloc q x = (q', a) → kp !! i = Some K →
      perform (PValue a) NaWrite K lg = (lg1, K1) → perform (PNext a) NaWrite K1 lg1 = (lg2, K2) →
      ostep (mkOsys (mkQsys q ps c pu po) kp kc tv nv lg)
        (mkOsys (mkQsys q' (<[i:=PNew a]> ps) c pu po) (<[i:=K2]> kp) kc tv nv lg2)
  | o_exchange i a x q q' prev ps c pu po kp kc tv nv lg K lg' K' tv' :
      ps !! i = Some (PNew a) → value <$> heap q !! a = Some (Some x) → push_exchange q a = (q', prev) → kp !! i = Some K →
      rmw AcqRel PTail tv K lg = (lg', K', tv') →
      ostep (mkOsys (mkQsys q ps c pu po) kp kc tv nv lg)
        (mkOsys (mkQsys q' (<[i:=PLink a prev]> ps) c (pu ++ [x]) po) (<[i:=K']> kp) kc tv' nv lg')
  | o_link i a prev q q' ps c pu po kp kc tv nv lg K lg' K' view :
      ps !! i = Some (PLink a prev) → push_link q a prev = Val q' → kp !! i = Some K →
      store Release (PNext prev) K lg = (lg', K', view) →
      ostep (mkOsys (mkQsys q ps c pu po) kp kc tv nv lg)
        (mkOsys (mkQsys q' (<[i:=PIdle]> ps) c pu po) (<[i:=K']> kp) kc tv (<[prev:=(length lg, view)]> nv) lg')
  | o_load_none q o ps pu po kp kc tv nv lg lg' kc' :   (* there is nothing, or an old value is read *)
      pop_load q = Val o → (o = None ∨ ∃ st view, nv !! head_ q = Some (st, view) ∧ st ∉ kc) →
      load Acquire (PNext (head_ q)) ∅ kc lg = (lg', kc') →
      ostep (mkOsys (mkQsys q ps CIdle pu po) kp kc tv nv lg) (mkOsys (mkQsys q ps CIdle pu po) kp kc' tv nv lg')
  | o_load (b : bool) q n ps pu po kp kc tv nv lg st view lg' kc' :   (* in [pop], or in [empty] *)
      pop_load q = Val (Some n) → nv !! head_ q = Some (st, view) →
      load Acquire (PNext (head_ q)) view kc lg = (lg', kc') →
      ostep (mkOsys (mkQsys q ps CIdle pu po) kp kc tv nv lg)
        (mkOsys (mkQsys q ps (if b then CGot n else CIdle) pu po) kp kc' tv nv lg')
  | o_take q q' n x ps pu po kp kc tv nv lg lg1 K1 lg2 K2 lg3 K3 :   (* the value is moved out; the old stub is deleted *)
      pop_take q n = Val (q', x) → perform (PValue n) NaWrite kc lg = (lg1, K1) →
      perform (PValue (head_ q)) NaWrite K1 lg1 = (lg2, K2) → perform (PNext (head_ q)) NaWrite K2 lg2 = (lg3, K3) →
      ostep (mkOsys (mkQsys q ps (CGot n) pu po) kp kc tv nv lg)
        (mkOsys (mkQsys q' ps CIdle pu (po ++ [x])) kp K3 tv (delete (head_ q) nv) lg3).

(** Without orders it is a run of the queue. *)
Lemma ostep_qstep w w' : ostep w w' → rtc qstep (o_sys w) (o_sys w').
Proof.
  intros []; simpl; try (apply rtc_once; econstructor; eassumption).
  - apply rtc_refl.
  - destruct b; [apply rtc_once; by constructor|apply rtc_refl].
Qed.

Lemma ostep_run n w : rtc ostep (newOsys n) w → rtc qstep (newQsys n) (o_sys w).
Proof.
  intros H. change (newQsys n) with (o_sys (newOsys n)). induction H as [|w1 w2 w3 Hs _ IH]; [apply rtc_refl|].
  etrans; [by apply ostep_qstep|exact IH].
Qed.
End Orders.
Arguments osys : clear implicits.

(** ** What is known *)
Definition wk (lg : list (event place)) (l : place) (K : gset nat) : Prop := known lg (λ e, e_loc e = l ∧ e_access e = NaWrite) K.
Definition stored (lg : list (event place)) (a : nat) (K : gset nat) : Prop := known lg (λ e, e_loc e = PNext a ∧ e_access e = AtWrite) K.

Lemma wk_snoc lg l K l' a K' :
  wk lg l K → (l' = l → a = NaWrite → length lg ∈ K) → wk (lg ++ [mkEvent l' a K']) l K.
Proof. intros Hk Hn. apply known_snoc; [done|]. intros [? ?]. by apply Hn. Qed.

Lemma wk_mono lg l K K' : wk lg l K → K ⊆ K' → wk lg l K'.
Proof. intros Hk HK. by eapply known_mono. Qed.

Lemma stored_snoc lg b K l' a K' :
  stored lg b K → (l' = PNext b → a = AtWrite → length lg ∈ K) → stored (lg ++ [mkEvent l' a K']) b K.
Proof. intros Hk Hn. apply known_snoc; [done|]. intros [? ?]. by apply Hn. Qed.

Section Inv.
Context {T : Type}.
Implicit Types (w : osys T) (q : queue (T := T)).

Record oinv (q : queue (T := T)) (ps : list pstate) (c : cstate) (kp : list (gset nat)) (kc tv : gset nat)
    (nv : gmap nat (nat * gset nat)) (lg : list (event place)) : Prop := {
  i_race : race_free lg;
  i_kind : ∀ i e, lg !! i = Some e →
    match e_loc e with
    | PTail => e_access e = AtWrite
    | PValue a => a < fresh q ∧ e_access e = NaWrite
    | PNext a => a < fresh q ∧ e_access e ≠ NaRead
    end;
  i_tail : ∀ i K, kp !! i = Some K → wk lg (PNext (tail_ q)) (tv ∪ K);
  i_new : ∀ i a K, ps !! i = Some (PNew a) → kp !! i = Some K → wk lg (PValue a) K ∧ wk lg (PNext a) K;
  i_link : ∀ i a prev K, ps !! i = Some (PLink a prev) → kp !! i = Some K →
    wk lg (PValue a) K ∧ wk lg (PNext a) K ∧ wk lg (PNext prev) K;
  i_next : ∀ p n, next <$> heap q !! p = Some (Some n) →
    ∃ st view, nv !! p = Some (st, view) ∧ wk lg (PValue n) view ∧ wk lg (PNext n) view ∧ stored lg p view;
  i_unstored : ∀ p, (∀ n, next <$> heap q !! p ≠ Some (Some n)) → is_Some (heap q !! p) → stored lg p ∅;
  i_head : wk lg (PValue (head_ q)) kc ∧ wk lg (PNext (head_ q)) kc;
  i_reads : known lg (λ e, e_access e = AtRead) kc;
  i_got : ∀ n, c = CGot n → ∃ st view, nv !! head_ q = Some (st, view) ∧ view ⊆ kc;
}.

#[local] Arguments i_race {_ _ _ _ _ _ _ _} _.
#[local] Arguments i_kind {_ _ _ _ _ _ _ _} _.
#[local] Arguments i_tail {_ _ _ _ _ _ _ _} _.
#[local] Arguments i_new {_ _ _ _ _ _ _ _} _.
#[local] Arguments i_link {_ _ _ _ _ _ _ _} _.
#[local] Arguments i_next {_ _ _ _ _ _ _ _} _.
#[local] Arguments i_unstored {_ _ _ _ _ _ _ _} _.
#[local] Arguments i_head {_ _ _ _ _ _ _ _} _.
#[local] Arguments i_reads {_ _ _ _ _ _ _ _} _.
#[local] Arguments i_got {_ _ _ _ _ _ _ _} _.

Definition o_inv w : Prop :=
  oinv (shared (o_sys w)) (producers (o_sys w)) (consumer (o_sys w)) (o_producers w) (o_consumer w) (o_tail w) (o_next w) (o_log w).

Lemma o_inv_new n : o_inv (newOsys n).
Proof.
  unfold o_inv, newOsys, store, perform. cbn -[lookup app newQueue]. split.
  - repeat apply race_free_snoc; [apply race_free_nil|apply known_nil|..]; (apply known_snoc; [|by intros [? _]]); try apply known_nil.
    apply known_snoc; [apply known_nil|by intros [? _]].
  - intros [|[|[|i]]] e [= <-]; simpl; try lia; split; try done; lia.
  - intros i K [-> _]%lookup_replicate. repeat apply wk_snoc; [apply known_nil|..]; intros; set_solver.
  - intros i a K [? _]%lookup_replicate. done.
  - intros i a prev K [? _]%lookup_replicate. done.
  - intros p m. unfold newQueue. cbn [heap]. destruct (decide (p = 0)) as [->|Hp]; [done|]. by rewrite lookup_singleton_ne by done.
  - intros p _ _. repeat apply stored_snoc; [apply known_nil|..]; done.
  - split; (repeat apply wk_snoc; [apply known_nil|..]; intros; set_solver).
  - repeat (apply known_snoc; [|done]). apply known_nil.
  - done.
Qed.

(** ** The chain *)
Lemma next_chain q ps chain xs p n :
  chained q ps chain xs → next <$> heap q !! p = Some (Some n) → ∃ j, chain !! j = Some p ∧ chain !! S j = Some n.
Proof.
  intros Hc Hn. assert (Hp : p ∈ chain ++ nodes_new ps) by (apply (ch_dom _ _ _ _ Hc); by destruct (heap q !! p)).
  apply elem_of_app in Hp as [(j & Hj)%list_elem_of_lookup_1|([| |] & Hin & Hp)%list_elem_of_omap]; [|done| |done].
  - exists j. split; [done|]. destruct (chain !! S j) as [b|] eqn:Hb.
    + destruct (ch_link _ _ _ _ Hc j p b Hj Hb) as [Hl|[Hl _]]; congruence.
    + assert (j = length xs) as ->.
      { apply lookup_ge_None in Hb. apply lookup_lt_Some in Hj. rewrite (ch_length _ _ _ _ Hc) in *. lia. }
      assert (p = tail_ q) as -> by (pose proof (chain_last _ _ _ _ Hc); congruence). pose proof (ch_last _ _ _ _ Hc). congruence.
  - injection Hp as ->. apply list_elem_of_lookup_1 in Hin as [i Hi]. destruct (ch_new _ _ _ _ Hc i p Hi) as [x Hx]. by rewrite Hx in Hn.
Qed.

Lemma chain_fresh q ps chain xs j a : chained q ps chain xs → chain !! j = Some a → a < fresh q.
Proof. intros Hc Hj. apply (ch_fresh _ _ _ _ Hc), elem_of_app. left. by eapply list_elem_of_lookup_2. Qed.

Lemma head_fresh q ps chain xs : chained q ps chain xs → head_ q < fresh q.
Proof. intros Hc. eapply chain_fresh; [done|apply (ch_head _ _ _ _ Hc)]. Qed.

Lemma tail_fresh q ps chain xs : chained q ps chain xs → tail_ q < fresh q.
Proof. intros Hc. eapply chain_fresh; [done|by eapply chain_last]. Qed.

Lemma new_fresh q ps chain xs i a : chained q ps chain xs → ps !! i = Some (PNew a) → a < fresh q ∧ a ∉ chain.
Proof.
  intros Hc Hi. assert (Ha : a ∈ nodes_new ps) by (apply list_elem_of_omap; exists (PNew a); split; [by eapply list_elem_of_lookup_2|done]).
  split; [apply (ch_fresh _ _ _ _ Hc), elem_of_app; by right|]. intros Hin. pose proof (ch_nodup _ _ _ _ Hc) as (_ & Hd & _)%NoDup_app. by apply (Hd a).
Qed.

Lemma link_chain q ps chain xs i a prev :
  chained q ps chain xs → ps !! i = Some (PLink a prev) →
  next <$> heap q !! prev = Some None ∧ ∃ j, chain !! j = Some prev ∧ chain !! S j = Some a.
Proof. intros Hc Hi. by apply (ch_pending _ _ _ _ Hc i). Qed.

(** ** Each step keeps what is known *)
Lemma oinv_alloc q ps c kp kc tv nv lg chain xs i x K :
  chained q ps chain xs → oinv q ps c kp kc tv nv lg → kp !! i = Some K →
  let lg1 := lg ++ [mkEvent (PValue (fresh q)) NaWrite K] in
  let K1 := {[length lg]} ∪ K in
  oinv (push_alloc q x).1 (<[i:=PNew (fresh q)]> ps) c (<[i:={[length lg1]} ∪ K1]> kp) kc tv nv
    (lg1 ++ [mkEvent (PNext (fresh q)) NaWrite K1]).
Proof.
  intros Hc H Hi lg1 K1. set (a := fresh q). pose proof (tail_fresh _ _ _ _ Hc) as Ht. pose proof (head_fresh _ _ _ _ Hc) as Hh.
  assert (Hnone : ∀ l K0, l = PValue a ∨ l = PNext a → known lg (λ e, e_loc e = l) K0).
  { intros l K0 Hl j e Hj He. pose proof (i_kind H j e Hj) as Hk. rewrite He in Hk. unfold a in *. destruct Hl as [->| ->]; lia. }
  assert (Hw : ∀ l K0, l ≠ PValue a → l ≠ PNext a → wk lg l K0 → wk (lg1 ++ [mkEvent (PNext a) NaWrite K1]) l K0).
  { intros l K0 H1 H2 Hk. apply wk_snoc; [apply wk_snoc; [done|]|]; intros <-; done. }
  assert (Hs : ∀ b K0, stored lg b K0 → stored (lg1 ++ [mkEvent (PNext a) NaWrite K1]) b K0).
  { intros b K0 Hk. apply stored_snoc; [apply stored_snoc; [done|]|]; done. }
  assert (Hkp : ∀ j K', <[i:={[length lg1]} ∪ K1]> kp !! j = Some K' → ∃ K0, kp !! j = Some K0 ∧ K0 ⊆ K').
  { intros j K' [(<- & <- & _)|(_ & Hj)]%list_lookup_insert_Some; [exists K; split; [done|]; unfold K1; set_solver|by exists K']. }
  assert (Hheap : ∀ p n, next <$> <[a:=mkNode (Some x) None]> (heap q) !! p = Some (Some n) → next <$> heap q !! p = Some (Some n)).
  { intros p n. destruct (decide (a = p)) as [<-|Hne]; [by rewrite lookup_insert_eq|by rewrite lookup_insert_ne]. }
  split; simpl.
  - apply race_free_snoc; [apply race_free_snoc; [apply H|]|].
    + eapply known_mono; [apply (Hnone (PValue a) K); by left|by intros e [? _]|done].
    + apply known_snoc; [|by intros [? _]]. eapply known_mono; [apply (Hnone (PNext a) K1); by right|by intros e [? _]|done].
  - intros j e [[Hj|[_ Hj]]%lookup_app_Some|[_ Hj]]%lookup_app_Some.
    + pose proof (i_kind H j e Hj) as Hk. destruct (e_loc e); [done|destruct Hk; split; [lia|done]..].
    + apply list_lookup_singleton_Some in Hj as [_ <-]. simpl. split; [lia|done].
    + apply list_lookup_singleton_Some in Hj as [_ <-]. simpl. split; [lia|done].
  - intros j K' (K0 & HK0 & Hsub)%Hkp. apply Hw; [done|unfold a; intros [= E]; lia|]. eapply wk_mono; [by apply (i_tail H j)|set_solver].
  - intros j b K' Hj HK'. apply list_lookup_insert_Some in Hj as [(<- & [= <-] & _)|(Hne & Hj)].
    + rewrite list_lookup_insert_eq in HK' by (by eapply lookup_lt_Some). injection HK' as <-. split.
      * apply wk_snoc; [apply wk_snoc|]; [|intros; unfold K1; set_solver|done]. eapply known_mono; [apply (Hnone (PValue a)); by left|by intros e [? _]|done].
      * apply wk_snoc; [apply wk_snoc|]; [|done|intros; set_solver]. eapply known_mono; [apply (Hnone (PNext a)); by right|by intros e [? _]|done].
    + rewrite list_lookup_insert_ne in HK' by done. destruct (i_new H j b K' Hj HK') as [? ?].
      destruct (new_fresh _ _ _ _ _ _ Hc Hj) as [Hb _]. split; apply Hw; try done; unfold a; intros [= E]; lia.
  - intros j b prev K' Hj HK'. apply list_lookup_insert_Some in Hj as [(_ & ? & _)|(Hne & Hj)]; [done|].
    rewrite list_lookup_insert_ne in HK' by done. destruct (i_link H j b prev K' Hj HK') as (? & ? & ?).
    destruct (link_chain _ _ _ _ _ _ _ Hc Hj) as (_ & k & Hk & Hk').
    pose proof (chain_fresh _ _ _ _ _ _ Hc Hk). pose proof (chain_fresh _ _ _ _ _ _ Hc Hk'). split_and!; apply Hw; try done; unfold a; intros [= E]; lia.
  - intros p n Hn%Hheap. destruct (i_next H p n Hn) as (st & view & Hv & Hv1 & Hv2 & Hv3). exists st, view.
    destruct (next_chain _ _ _ _ _ _ Hc Hn) as (k & _ & Hk). pose proof (chain_fresh _ _ _ _ _ _ Hc Hk).
    split_and!; [done|apply Hw..|by apply Hs]; try done; unfold a; intros [= E]; lia.
  - intros p Hp Hin. apply Hs. destruct (decide (a = p)) as [<-|Hne].
    + eapply known_mono; [apply (Hnone (PNext a) ∅); by right|by intros e [? _]|done].
    + apply (i_unstored H); [intros n; specialize (Hp n)|]; by rewrite lookup_insert_ne in *.
  - destruct (i_head H). split; apply Hw; try done; unfold a; intros [= E]; lia.
  - apply known_snoc; [apply known_snoc; [apply H|done]|done].
  - apply H.
Qed.

Lemma oinv_exchange q ps c kp kc tv nv lg chain xs i a K :
  chained q ps chain xs → oinv q ps c kp kc tv nv lg → ps !! i = Some (PNew a) → kp !! i = Some K →
  let K' := {[length lg]} ∪ (tv ∪ K) in
  oinv (push_exchange q a).1 (<[i:=PLink a (tail_ q)]> ps) c (<[i:=K']> kp) kc (tv ∪ K') nv
    (lg ++ [mkEvent PTail AtWrite (tv ∪ K)]).
Proof.
  intros Hc H Hi HK K'. destruct (i_new H i a K Hi HK) as [Hv Hn].
  assert (Hw : ∀ l K0, wk lg l K0 → wk (lg ++ [mkEvent PTail AtWrite (tv ∪ K)]) l K0) by (intros l K0 Hk; by apply wk_snoc).
  assert (Hs : ∀ b K0, stored lg b K0 → stored (lg ++ [mkEvent PTail AtWrite (tv ∪ K)]) b K0) by (intros b K0 Hk; by apply stored_snoc).
  split; simpl.
  - apply race_free_snoc; [apply H|]. intros j e Hj [He Hcf]. pose proof (i_kind H j e Hj) as Hk. rewrite He in Hk. by rewrite Hk in Hcf.
  - intros j e [Hj|[_ Hj]]%lookup_app_Some; [by apply (i_kind H j e Hj)|]. by apply list_lookup_singleton_Some in Hj as [_ <-].
  - intros j K0 _. apply Hw. eapply wk_mono; [done|]. unfold K'. set_solver.
  - intros j b K0 Hj HK0. apply list_lookup_insert_Some in Hj as [(_ & ? & _)|(Hne & Hj)]; [done|]. rewrite list_lookup_insert_ne in HK0 by done.
    destruct (i_new H j b K0 Hj HK0). split; by apply Hw.
  - intros j b prev K0 Hj HK0. apply list_lookup_insert_Some in Hj as [(<- & [= <- <-] & _)|(Hne & Hj)].
    + rewrite list_lookup_insert_eq in HK0 by (by eapply lookup_lt_Some). injection HK0 as <-. pose proof (i_tail H i K HK).
      split_and!; apply Hw; (eapply wk_mono; [done|unfold K'; set_solver]).
    + rewrite list_lookup_insert_ne in HK0 by done. destruct (i_link H j b prev K0 Hj HK0) as (? & ? & ?). split_and!; by apply Hw.
  - intros p n Hp. destruct (i_next H p n Hp) as (st & view & ? & ? & ? & ?). exists st, view. split_and!; [done|by apply Hw..|by apply Hs].
  - intros p Hp Hin. by apply Hs, (i_unstored H).
  - destruct (i_head H). split; by apply Hw.
  - apply known_snoc; [apply H|done].
  - apply (i_got H).
Qed.

Lemma oinv_link q q' ps c kp kc tv nv lg chain xs i a prev K :
  chained q ps chain xs → oinv q ps c kp kc tv nv lg → ps !! i = Some (PLink a prev) → push_link q a prev = Val q' → kp !! i = Some K →
  (∀ n, c = CGot n → next <$> heap q !! head_ q = Some (Some n)) →
  let K' := {[length lg]} ∪ K in
  oinv q' (<[i:=PIdle]> ps) c (<[i:=K']> kp) kc tv (<[prev:=(length lg, K')]> nv) (lg ++ [mkEvent (PNext prev) AtWrite K]).
Proof.
  intros Hc H Hi Hl HK Hgot K'. destruct (i_link H i a prev K Hi HK) as (Hv & Hn & Hp).
  destruct (link_chain _ _ _ _ _ _ _ Hc Hi) as (Hnone & k & Hk & Hk'). unfold push_link in Hl.
  destruct (heap q !! prev) as [nd|] eqn:Hprev; [|done]. injection Hl as <-. injection Hnone as Hnone.
  pose proof (chain_fresh _ _ _ _ _ _ Hc Hk) as Hfr.
  assert (Hw : ∀ l K0, wk lg l K0 → wk (lg ++ [mkEvent (PNext prev) AtWrite K]) l K0) by (intros l K0 Hk0; by apply wk_snoc).
  assert (Hs : ∀ b K0, b ≠ prev → stored lg b K0 → stored (lg ++ [mkEvent (PNext prev) AtWrite K]) b K0).
  { intros b K0 Hne Hk0. apply stored_snoc; [done|]. by intros [= ->]. }
  assert (Hhead : ∀ p n, p ≠ prev → next <$> <[prev:=mkNode (value nd) (Some a)]> (heap q) !! p = Some (Some n) ↔ next <$> heap q !! p = Some (Some n)).
  { intros p n Hne. by rewrite lookup_insert_ne. }
  split; simpl.
  - apply race_free_snoc; [apply H|]. intros j e Hj [He Hcf]. apply (Hp j e Hj). split; [done|].
    pose proof (i_kind H j e Hj) as Hkd. rewrite He in Hkd. destruct (e_access e); naive_solver.
  - intros j e [Hj|[_ Hj]]%lookup_app_Some; [by apply (i_kind H j e Hj)|]. by apply list_lookup_singleton_Some in Hj as [_ <-].
  - intros j K0 [(<- & <- & _)|(_ & Hj)]%list_lookup_insert_Some; apply Hw; [|by apply (i_tail H j)].
    eapply wk_mono; [by apply (i_tail H i K)|unfold K'; set_solver].
  - intros j b K0 Hj HK0. apply list_lookup_insert_Some in Hj as [(_ & ? & _)|(Hne & Hj)]; [done|]. rewrite list_lookup_insert_ne in HK0 by done.
    destruct (i_new H j b K0 Hj HK0). split; by apply Hw.
  - intros j b p K0 Hj HK0. apply list_lookup_insert_Some in Hj as [(_ & ? & _)|(Hne & Hj)]; [done|]. rewrite list_lookup_insert_ne in HK0 by done.
    destruct (i_link H j b p K0 Hj HK0) as (? & ? & ?). split_and!; by apply Hw.
  - intros p n. destruct (decide (p = prev)) as [->|Hne].
    + rewrite lookup_insert_eq. intros [= <-]. exists (length lg), K'. rewrite lookup_insert_eq.
      assert (Hno : stored lg prev ∅) by (apply (i_unstored H); rewrite Hprev; [intros m; simpl; congruence|done]).
      split_and!; [done|apply Hw; eapply wk_mono; [done|unfold K'; set_solver]..|].
      apply stored_snoc; [eapply known_mono; [exact Hno|done|set_solver]|intros; unfold K'; set_solver].
    + rewrite Hhead by done. intros Hpn. destruct (i_next H p n Hpn) as (st & view & ? & ? & ? & ?). exists st, view.
      rewrite lookup_insert_ne by done. split_and!; [done|by apply Hw..|by apply Hs].
  - intros p Hpn Hin. destruct (decide (p = prev)) as [->|Hne]; [by specialize (Hpn a); rewrite lookup_insert_eq in Hpn|].
    apply Hs; [done|]. rewrite lookup_insert_ne in Hin by done. apply (i_unstored H); [|done]. intros n Hpn'. by apply (Hpn n), Hhead.
  - destruct (i_head H). split; by apply Hw.
  - apply known_snoc; [apply H|done].
  - intros n Hcn. destruct (i_got H n Hcn) as (st & view & ? & ?). exists st, view. rewrite lookup_insert_ne; [done|].
    intros ->. specialize (Hgot n Hcn). rewrite Hprev in Hgot. simpl in Hgot. congruence.
Qed.

(** A load that knows [K] and reads what was published with [view]. *)
Lemma oinv_load q ps c c' kp kc tv nv lg chain xs view :
  chained q ps chain xs → oinv q ps c kp kc tv nv lg →
  (∀ n, c' = CGot n → ∃ st view', nv !! head_ q = Some (st, view') ∧ view' ⊆ view) →
  oinv q ps c' kp ({[length lg]} ∪ (view ∪ kc)) tv nv (lg ++ [mkEvent (PNext (head_ q)) AtRead (view ∪ kc)]).
Proof.
  intros Hc H Hgot. pose proof (head_fresh _ _ _ _ Hc) as Hfr. destruct (i_head H) as [Hv Hn].
  set (K1 := view ∪ kc). assert (Hw : ∀ l K0, wk lg l K0 → wk (lg ++ [mkEvent (PNext (head_ q)) AtRead K1]) l K0) by (intros l K0 Hk0; by apply wk_snoc).
  assert (Hs : ∀ b K0, stored lg b K0 → stored (lg ++ [mkEvent (PNext (head_ q)) AtRead K1]) b K0) by (intros b K0 Hk; by apply stored_snoc).
  split; simpl.
  - apply race_free_snoc; [apply H|]. intros j e Hj [He Hcf]. apply elem_of_union_r. apply (Hn j e Hj). split; [done|].
    pose proof (i_kind H j e Hj) as Hkd. rewrite He in Hkd. destruct (e_access e); naive_solver.
  - intros j e [Hj|[_ Hj]]%lookup_app_Some; [by apply (i_kind H j e Hj)|]. by apply list_lookup_singleton_Some in Hj as [_ <-].
  - intros j K0 Hj. apply Hw. by apply (i_tail H j).
  - intros j b K0 Hj HK0. destruct (i_new H j b K0 Hj HK0). split; by apply Hw.
  - intros j b p K0 Hj HK0. destruct (i_link H j b p K0 Hj HK0) as (? & ? & ?). split_and!; by apply Hw.
  - intros p n Hp. destruct (i_next H p n Hp) as (st & view' & ? & ? & ? & ?). exists st, view'. split_and!; [done|by apply Hw..|by apply Hs].
  - intros p Hp Hin. by apply Hs, (i_unstored H).
  - split; apply Hw; (eapply wk_mono; [done|unfold K1; set_solver]).
  - apply known_snoc; [eapply known_mono; [apply (i_reads H)|done|unfold K1; set_solver]|intros _; set_solver].
  - intros n Hcn. destruct (Hgot n Hcn) as (st & view' & ? & ?). exists st, view'. split; [done|]. unfold K1. set_solver.
Qed.

(** What taking a node does, and who is not concerned. *)
Lemma pop_take_heap q q' n x :
  pop_take q n = Val (q', x) →
  tail_ q' = tail_ q ∧ fresh q' = fresh q ∧ head_ q' = n ∧
  ∀ p, next <$> heap q' !! p = if decide (p = head_ q) then None else next <$> heap q !! p.
Proof.
  unfold pop_take. destruct (heap q !! n) as [[v nx]|] eqn:Hnn; [|done]. simpl. destruct v; [|done]. simpl.
  destruct (heap q !! head_ q); [|done]. intros [= <- _]. simpl. split_and!; try done. intros p.
  case_decide as E; [subst; by rewrite lookup_delete_eq|].
  rewrite lookup_delete_ne by done. destruct (decide (n = p)) as [<-|?]; [by rewrite lookup_insert_eq, Hnn|by rewrite lookup_insert_ne].
Qed.

Lemma taken_apart q ps chain xs n :
  chained q ps chain xs → next <$> heap q !! head_ q = Some (Some n) →
  chain !! 0 = Some (head_ q) ∧ chain !! 1 = Some n ∧ head_ q ≠ n ∧ tail_ q ≠ head_ q ∧
  ∀ j a prev, ps !! j = Some (PLink a prev) → a ≠ n ∧ a ≠ head_ q ∧ prev ≠ head_ q.
Proof.
  intros Hc Hhn. destruct (next_chain _ _ _ _ _ _ Hc Hhn) as (k & Hk & Hk').
  assert (k = 0) as -> by (eapply chain_at; [done|done|apply (ch_head _ _ _ _ Hc)]). split_and!; [done..| | |].
  - intros E. rewrite <- E in Hk'. by pose proof (chain_at _ _ _ _ _ _ _ Hc Hk Hk').
  - intros E. pose proof (chain_last _ _ _ _ Hc) as Hl. rewrite E in Hl. pose proof (chain_at _ _ _ _ _ _ _ Hc Hk Hl) as Hz.
    apply lookup_lt_Some in Hk'. rewrite (ch_length _ _ _ _ Hc) in Hk'. lia.
  - intros j a prev Hj. destruct (link_chain _ _ _ _ _ _ _ Hc Hj) as (Hnone & m & Hm & Hm').
    assert (Hprev : prev ≠ head_ q) by (intros ->; congruence). split_and!; [| |done].
    + intros ->. pose proof (chain_at _ _ _ _ _ _ _ Hc Hk' Hm') as [= <-]. congruence.
    + intros ->. by pose proof (chain_at _ _ _ _ _ _ _ Hc Hk Hm').
Qed.

Lemma oinv_take q q' n x ps kp kc tv nv lg chain xs :
  chained q ps chain xs → oinv q ps (CGot n) kp kc tv nv lg → next <$> heap q !! head_ q = Some (Some n) → pop_take q n = Val (q', x) →
  let lg1 := lg ++ [mkEvent (PValue n) NaWrite kc] in
  let K1 := {[length lg]} ∪ kc in
  let lg2 := lg1 ++ [mkEvent (PValue (head_ q)) NaWrite K1] in
  let K2 := {[length lg1]} ∪ K1 in
  oinv q' ps CIdle kp ({[length lg2]} ∪ K2) tv (delete (head_ q) nv) (lg2 ++ [mkEvent (PNext (head_ q)) NaWrite K2]).
Proof.
  intros Hc H Hhn Ht lg1 K1 lg2 K2. destruct (i_got H n eq_refl) as (st & view & Hnv & Hview).
  destruct (i_next H _ _ Hhn) as (st' & view' & Hnv' & Hnval & Hnnext & Hst). rewrite Hnv in Hnv'. injection Hnv' as <- <-.
  destruct (i_head H) as [Hv Hn].
  destruct (pop_take_heap q q' n x Ht) as (Hq1 & Hq2 & Hq3 & Hq4).
  destruct (taken_apart _ _ _ _ _ Hc Hhn) as (Hk & Hk' & Hne & Htail & Hlink).
  pose proof (chain_fresh _ _ _ _ _ _ Hc Hk) as Hf1. pose proof (chain_fresh _ _ _ _ _ _ Hc Hk') as Hf2.
  assert (Hw : ∀ l K0, l ≠ PValue n → l ≠ PValue (head_ q) → l ≠ PNext (head_ q) → wk lg l K0 → wk (lg2 ++ [mkEvent (PNext (head_ q)) NaWrite K2]) l K0).
  { intros l K0 ? ? ? Hk0. repeat apply wk_snoc; [done|..]; intros <-; done. }
  assert (Hs : ∀ b K0, stored lg b K0 → stored (lg2 ++ [mkEvent (PNext (head_ q)) NaWrite K2]) b K0).
  { intros b K0 Hk0. by repeat apply stored_snoc. }
  assert (Hval : ∀ l e j, lg !! j = Some e → e_loc e = PValue l → e_access e = NaWrite).
  { intros l e j Hj He. pose proof (i_kind H j e Hj) as Hkd. rewrite He in Hkd. by destruct Hkd. }
  split; rewrite ?Hq1, ?Hq2, ?Hq3.
  - repeat apply race_free_snoc; [apply H|..].
    + intros j e Hj [He _]. apply Hview, (Hnval j e Hj). eauto.
    + apply known_snoc; [|intros [[= ?] _]; congruence]. intros j e Hj [He _]. apply elem_of_union_r, (Hv j e Hj). eauto.
    + do 2 (apply known_snoc; [|by intros [? _]]). intros j e Hj [He _]. unfold K2, K1. do 2 apply elem_of_union_r.
      pose proof (i_kind H j e Hj) as Hkd. rewrite He in Hkd. destruct Hkd as [_ Hkd]. destruct (e_access e) eqn:Ea; [done| | |].
      * by apply (Hn j e Hj).
      * by apply (i_reads H j e Hj).
      * by apply Hview, (Hst j e Hj).
  - intros j e [[[Hj|[_ Hj]]%lookup_app_Some|[_ Hj]]%lookup_app_Some|[_ Hj]]%lookup_app_Some; [by apply (i_kind H j e Hj)|..];
      apply list_lookup_singleton_Some in Hj as [_ <-]; done.
  - intros j K0 Hj. apply Hw; [done..|congruence|]. by apply (i_tail H j).
  - intros j b K0 Hj HK0. destruct (i_new H j b K0 Hj HK0). destruct (new_fresh _ _ _ _ _ _ Hc Hj) as [_ Hb].
    assert (b ≠ n ∧ b ≠ head_ q) as [? ?] by (split; intros ->; apply Hb; by eapply list_elem_of_lookup_2).
    split; apply Hw; (done || congruence).
  - intros j b p K0 Hj HK0. destruct (i_link H j b p K0 Hj HK0) as (? & ? & ?). destruct (Hlink _ _ _ Hj) as (? & ? & ?).
    split_and!; apply Hw; (done || congruence).
  - intros p m. rewrite Hq4. case_decide as E; [done|]. intros Hp. destruct (i_next H p m Hp) as (st1 & view1 & ? & ? & ? & ?).
    exists st1, view1. rewrite lookup_delete_ne by done. destruct (next_chain _ _ _ _ _ _ Hc Hp) as (j & Hj & Hj').
    assert (m ≠ n) by (intros ->; pose proof (chain_at _ _ _ _ _ _ _ Hc Hk' Hj') as [= <-]; congruence).
    assert (m ≠ head_ q) by (intros ->; by pose proof (chain_at _ _ _ _ _ _ _ Hc Hk Hj')).
    split_and!; [done|apply Hw; (done || congruence)..|by apply Hs].
  - intros p Hp Hin. assert (E : p ≠ head_ q).
    { intros ->. specialize (Hq4 (head_ q)). rewrite decide_True in Hq4 by done. by destruct Hin as [? Hin]; rewrite Hin in Hq4. }
    specialize (Hq4 p). rewrite decide_False in Hq4 by done. apply Hs, (i_unstored H).
    + intros m. rewrite <- Hq4. apply Hp.
    + destruct Hin as [? Hin]. rewrite Hin in Hq4. by destruct (heap q !! p).
  - assert (HK : view ⊆ {[length lg2]} ∪ K2) by (unfold K2, K1; set_solver). split.
    + repeat apply wk_snoc; [by eapply wk_mono|intros; unfold K2, K1; set_solver|intros; unfold K2; set_solver|done].
    + repeat apply wk_snoc; [by eapply wk_mono|done|done|]. intros; set_solver.
  - repeat (apply known_snoc; [|done]). eapply known_mono; [apply (i_reads H)|done|unfold K2, K1; set_solver].
  - done.
Qed.

Lemma o_inv_step w w' : q_inv (o_sys w) → o_inv w → ostep w w' → o_inv w'.
Proof.
  intros (chain & xs & Hc & _ & Hg) H Hs. unfold o_inv in *.
  destruct Hs as [i x q q' a ps c pu po kp kc tv nv lg K lg1 K1 lg2 K2 Hi Ha HK H1 H2|i a x q q' prev ps c pu po kp kc tv nv lg K lg' K' tv' Hi Hx Ha HK H1
    |i a prev q q' ps c pu po kp kc tv nv lg K lg' K' view Hi Ha HK H1|q o ps pu po kp kc tv nv lg lg' kc' Hl Ho H1
    |b q n ps pu po kp kc tv nv lg st view lg' kc' Hl Hnv H1|q q' n x ps pu po kp kc tv nv lg lg1 K1 lg2 K2 lg3 K3 Ht H1 H2 H3]; simpl in *.
  - injection Ha as <- <-. injection H1 as <- <-. injection H2 as <- <-. by apply (oinv_alloc q ps c kp kc tv nv lg chain xs i x K).
  - injection Ha as <- <-. injection H1 as <- <- <-. by eapply (oinv_exchange q ps c kp kc tv nv lg chain xs i a K).
  - injection H1 as <- <- <-. eapply (oinv_link q q' ps c kp kc tv nv lg chain xs i a prev K); try done.
    intros n ->. by destruct Hg.
  - injection H1 as <- <-. by eapply (oinv_load q ps CIdle CIdle kp kc tv nv lg chain xs ∅).
  - injection H1 as <- <-. eapply (oinv_load q ps CIdle _ kp kc tv nv lg chain xs view); [done..|]. intros m _. by exists st, view.
  - injection H1 as <- <-. injection H2 as <- <-. injection H3 as <- <-. destruct Hg as [_ Hg].
    by eapply (oinv_take q q' n x ps kp kc tv nv lg chain xs).
Qed.

Lemma o_inv_reachable n w : rtc ostep (newOsys n) w → o_inv w.
Proof.
  revert w. apply rtc_ind_r; [apply o_inv_new|]. intros w w' Hr Hs H. eapply o_inv_step; [|done|done].
  eapply q_inv_reachable. by apply ostep_run.
Qed.

(** Every access is known to the thread that made it. *)
Definition allKnown w : Prop := known (o_log w) (λ _, True) (o_consumer w ∪ ⋃ o_producers w).

Lemma union_list_insert (kp : list (gset nat)) i K K' : kp !! i = Some K → K ⊆ K' → ⋃ kp ∪ K' ⊆ ⋃ <[i:=K']> kp.
Proof.
  intros Hi HK x [Hx|Hx]%elem_of_union.
  - apply elem_of_union_list in Hx as (Y & (j & Hj)%list_elem_of_lookup_1 & Hx). apply elem_of_union_list. destruct (decide (i = j)) as [<-|Hne].
    + exists K'. split; [|set_solver]. apply (list_elem_of_lookup_2 _ i), list_lookup_insert_eq. by eapply lookup_lt_Some.
    + exists Y. split; [|done]. apply (list_elem_of_lookup_2 _ j). by rewrite list_lookup_insert_ne.
  - apply elem_of_union_list. exists K'. split; [|done]. apply (list_elem_of_lookup_2 _ i), list_lookup_insert_eq. by eapply lookup_lt_Some.
Qed.

Lemma allKnown_step w w' : ostep w w' → allKnown w → allKnown w'.
Proof.
  assert (Hp : ∀ (lg : list (event place)) kc kp i K K' l a K0, kp !! i = Some K → K ⊆ K' → length lg ∈ K' → known lg (λ _, True) (kc ∪ ⋃ kp) →
    known (lg ++ [mkEvent l a K0]) (λ _, True) (kc ∪ ⋃ <[i:=K']> kp)).
  { intros lg kc kp i K K' l a K0 Hi HK Hin Hk. pose proof (union_list_insert kp i K K' Hi HK) as Hu.
    apply known_snoc; [eapply known_mono; [done|done|set_solver]|]. intros _. apply elem_of_union_r, Hu. set_solver. }
  assert (Hc : ∀ (lg : list (event place)) kc kc' (ks : gset nat) l a K0, kc ⊆ kc' → length lg ∈ kc' → known lg (λ _, True) (kc ∪ ks) →
    known (lg ++ [mkEvent l a K0]) (λ _, True) (kc' ∪ ks)).
  { intros lg kc kc' ks l a K0 HK Hin Hk. apply known_snoc; [eapply known_mono; [done|done|set_solver]|]. intros _. set_solver. }
  assert (Hc1 : ∀ (lg : list (event place)) kc (ks : gset nat) l a K0, known lg (λ _, True) (kc ∪ ks) →
    known (lg ++ [mkEvent l a K0]) (λ _, True) (({[length lg]} ∪ kc) ∪ ks)) by (intros; eapply Hc; [| |done]; set_solver).
  intros Hs Hk. unfold allKnown in *. destruct Hs as [i x q q' a ps c pu po kp kc tv nv lg K lg1 K1 lg2 K2 Hi Ha HK H1 H2| | | | |]; simpl in *.
  - injection H1 as <- <-. injection H2 as <- <-. rewrite <- (list_insert_insert_eq kp i _ ({[length lg]} ∪ K)).
    eapply Hp; [apply list_lookup_insert_eq; by eapply lookup_lt_Some|set_solver|set_solver|]. eapply Hp; [done|set_solver..|done].
  - unfold rmw, store, load, perform in *. simplify_eq/=. eapply Hp; [done|set_solver..|done].
  - unfold rmw, store, load, perform in *. simplify_eq/=. eapply Hp; [done|set_solver..|done].
  - unfold rmw, store, load, perform in *. simplify_eq/=. eapply Hc; [|set_solver|done]. set_solver.
  - unfold rmw, store, load, perform in *. simplify_eq/=. eapply Hc; [|set_solver|done]. set_solver.
  - unfold rmw, store, load, perform in *. simplify_eq/=. by do 3 apply Hc1.
Qed.

Lemma allKnown_reachable n w : rtc ostep (newOsys n) w → allKnown w.
Proof.
  revert w. apply rtc_ind_r; [|intros w w' _ Hs H; by eapply allKnown_step].
  unfold allKnown, newOsys, store, perform. cbn -[app]. repeat (apply known_snoc; [|intros _; set_solver]). apply known_nil.
Qed.

(** C24: The queue with its memory orders.  For any number of producers, any
    interleaving and whatever old values the consumer's loads return: no two
    accesses race, the deletions of nodes included, and who has joined all the
    threads knows of all accesses, so that the destructor races with none.  The
    values popped are the first values pushed, in the order of the exchanges, and
    no step touches a deleted node or a value that is not there. *)
Theorem queue_orders (n : nat) w :
  rtc ostep (newOsys n) w →
  race_free (o_log w) ∧ allKnown w ∧
  (∃ rest, pushed (o_sys w) = popped (o_sys w) ++ rest) ∧
  (∀ i a prev, producers (o_sys w) !! i = Some (PLink a prev) → ∃ q', push_link (shared (o_sys w)) a prev = Val q') ∧
  (∃ o, pop_load (shared (o_sys w)) = Val o) ∧
  (∀ a, consumer (o_sys w) = CGot a → ∃ q' x, pop_take (shared (o_sys w)) a = Val (q', x)).
Proof.
  intros Hr. pose proof (ostep_run n w Hr) as Hq. destruct (queue_no_use_after_free n _ Hq) as (? & ? & _ & ?).
  destruct (q_inv_reachable n _ Hq) as (chain & xs & _ & Hp & _).
  split_and!; [apply (i_race (o_inv_reachable n w Hr))|by eapply allKnown_reachable|by exists xs|done..].
Qed.
End Inv.

(** A push, a load that misses it, one that sees it, and the value taken. *)
Lemma demo_orders :
  ∃ w : osys nat, rtc ostep (newOsys 1) w ∧ popped (o_sys w) = [5] ∧ length (o_log w) = 12.
Proof.
  eexists. split; [|split].
  - eapply rtc_l; [by eapply (o_alloc 0 5)|]. eapply rtc_l; [by eapply (o_exchange 0 1 5)|]. eapply rtc_l; [by eapply (o_link 0 1 0)|].
    eapply rtc_l; [eapply o_load_none; [reflexivity| |reflexivity]|].
    { right. eexists _, _. split; [reflexivity|]. vm_compute. by intros ?. }
    eapply rtc_l; [by eapply (o_load true)|]. eapply rtc_l; [by eapply o_take|]. apply rtc_refl.
  - reflexivity.
  - reflexivity.
Qed.

Lemma queue_orders_witness : ∃ w : osys nat, popped (o_sys w) = [5] ∧ race_free (o_log w) ∧ ∃ rest, pushed (o_sys w) = popped (o_sys w) ++ rest.
Proof.
  destruct demo_orders as (w & Hr & Hp & _). exists w. split; [exact Hp|].
  destruct (queue_orders 1 w Hr) as (Hrace & _ & Hfifo & _). exact (conj Hrace Hfifo).
Defined.
