(* ===== verification/ThreadPool.v ===== *)
(** * Thread pool (include/concurrency/ThreadPool.hpp, src/concurrency/thread_pool.cpp)

    The queue and the flag that [mutex_] guards, and what each critical section
    does with them.  The system has the workers, the submitters (whose
    notification comes after the critical section, so that others run in
    between) and the destructor.  A task is any value; a worker that runs it
    comes back from it, by return or by an exception that it swallows. *)

From S2P Require Import Prelude.

Section Pool.
Context {Task : Type}.

Record pool := mkPool { tasks_ : list Task; stopping_ : bool }.

(** ** The critical sections *)
Definition makePool (threadCount : nat) : result pool :=
  if bool_decide (threadCount = 0) then Throw (InvalidArgument "ThreadPool: threadCount must be >= 1")
  else Val (mkPool [] false).

Definition submit (p : pool) (task : Task) : result pool :=
  if stopping_ p then Throw (RuntimeError "ThreadPool: submit after shutdown")
  else Val (mkPool (tasks_ p ++ [task]) (stopping_ p)).

Definition stop (p : pool) : pool := mkPool (tasks_ p) true.

(** [stopping_ || !tasks_.empty()] *)
Definition workPred (p : pool) : bool := stopping_ p || bool_decide (tasks_ p ≠ []).

(** What a worker does when the predicate holds: the task it runs, or its end. *)
Definition take (p : pool) : pool * option Task :=
  match tasks_ p with
  | [] => (p, None)
  | task :: rest => (mkPool rest (stopping_ p), Some task)
  end.

(** ** The system *)
Inductive wstate := WCheck | WAsleep | WRun (task : Task) | WExited.
Inductive dstate := DIdle | DNotify | DJoin | DDone.

#[export] Instance dstate_eq_dec : EqDecision dstate.
Proof. solve_decision. Defined.

Record psys := mkPsys {
  shared : pool;
  workers : list wstate;
  notifies : nat;         (* [submit] calls that have yet to notify *)
  dtor : dstate;
  submitted : list Task;  (* in order *)
  started : list Task;    (* in the order they were taken *)
  finished : list Task;
}.

Definition wake (w : wstate) : wstate := match w with WAsleep => WCheck | _ => w end.

Inductive wake_one : list wstate → list wstate → Prop :=
  | wake_nobody ws : WAsleep ∉ ws → wake_one ws ws
  | wake_some ws i : ws !! i = Some WAsleep → wake_one ws (<[i:=WCheck]> ws).

Definition newPsys (n : nat) : psys := mkPsys (mkPool [] false) (replicate n WCheck) 0 DIdle [] [] [].

Inductive pstep : psys → psys → Prop :=
  | p_submit t p p' ws k d su st fi :
      submit p t = Val p' →
      pstep (mkPsys p ws k d su st fi) (mkPsys p' ws (S k) d (su ++ [t]) st fi)
  | p_notify p ws ws' k d su st fi :
      wake_one ws ws' → pstep (mkPsys p ws (S k) d su st fi) (mkPsys p ws' k d su st fi)
  | p_sleep i p ws k d su st fi :
      ws !! i = Some WCheck → workPred p = false →
      pstep (mkPsys p ws k d su st fi) (mkPsys p (<[i:=WAsleep]> ws) k d su st fi)
  | p_take i t p p' ws k d su st fi :
      ws !! i = Some WCheck → workPred p = true → take p = (p', Some t) →
      pstep (mkPsys p ws k d su st fi) (mkPsys p' (<[i:=WRun t]> ws) k d su (st ++ [t]) fi)
  | p_exit i p p' ws k d su st fi :
      ws !! i = Some WCheck → workPred p = true → take p = (p', None) →
      pstep (mkPsys p ws k d su st fi) (mkPsys p' (<[i:=WExited]> ws) k d su st fi)
  | p_return i t p ws k d su st fi :
      ws !! i = Some (WRun t) →
      pstep (mkPsys p ws k d su st fi) (mkPsys p (<[i:=WCheck]> ws) k d su st (fi ++ [t]))
  | p_spurious i p ws k d su st fi :
      ws !! i = Some WAsleep →
      pstep (mkPsys p ws k d su st fi) (mkPsys p (<[i:=WCheck]> ws) k d su st fi)
  | p_stop p ws k su st fi :
      pstep (mkPsys p ws k DIdle su st fi) (mkPsys (stop p) ws k DNotify su st fi)
  | p_notify_all p ws k su st fi :
      pstep (mkPsys p ws k DNotify su st fi) (mkPsys p (wake <$> ws) k DJoin su st fi)
  | p_join p ws k su st fi :
      Forall (eq WExited) ws → pstep (mkPsys p ws k DJoin su st fi) (mkPsys p ws k DDone su st fi).

(** ** The invariant *)
Definition running (ws : list wstate) : list Task := omap (λ w, match w with WRun t => Some t | _ => None end) ws.

(** Some worker will look at the queue again without being notified. *)
Definition attentive (ws : list wstate) : Prop := ∃ w, w ∈ ws ∧ w ≠ WAsleep ∧ w ≠ WExited.

Record pool_inv (s : psys) : Prop := {
  pi_some : workers s ≠ [];
  pi_queue : submitted s = started s ++ tasks_ (shared s);
  pi_started : started s ≡ₚ finished s ++ running (workers s);
  pi_exited : WExited ∈ workers s → tasks_ (shared s) = [] ∧ stopping_ (shared s) = true;
  pi_wake : tasks_ (shared s) ≠ [] → attentive (workers s) ∨ (0 < notifies s) ∨ dtor s = DNotify;
  pi_dtor : stopping_ (shared s) = true ↔ dtor s ≠ DIdle;
  pi_join : dtor s = DJoin ∨ dtor s = DDone → WAsleep ∉ workers s;
  pi_done : dtor s = DDone → Forall (eq WExited) (workers s);
}.

(** *** One worker changes *)
Implicit Types (ws : list wstate) (i : nat).

Lemma insert_in ws i (w y : wstate) : ws !! i = Some y → w ∈ <[i:=w]> ws.
Proof. intros Hi. apply (list_elem_of_lookup_2 _ i). apply list_lookup_insert_eq. by eapply lookup_lt_Some. Qed.

Lemma insert_sub ws i (w x : wstate) : w ∈ <[i:=x]> ws → w = x ∨ w ∈ ws.
Proof.
  intros (j & [(_ & <- & _)|(_ & Hj)]%list_lookup_insert_Some)%list_elem_of_lookup_1; [by left|right].
  by eapply list_elem_of_lookup_2.
Qed.

Lemma insert_keep ws i (w x y : wstate) : ws !! i = Some y → w ∈ ws → w ≠ y → w ∈ <[i:=x]> ws.
Proof.
  intros Hi (j & Hj)%list_elem_of_lookup_1 Hne. apply (list_elem_of_lookup_2 _ j).
  rewrite list_lookup_insert_ne; [done|]. intros ->. congruence.
Qed.

Definition run_of (w : wstate) : list Task := match w with WRun t => [t] | _ => [] end.

Lemma running_insert ws i w w' :
  ws !! i = Some w → ∃ r, running ws ≡ₚ run_of w ++ r ∧ running (<[i:=w']> ws) ≡ₚ run_of w' ++ r.
Proof.
  intros (l1 & l2 & -> & ->)%list_elem_of_split_length. exists (running l1 ++ running l2).
  rewrite insert_app_r_alt, Nat.sub_diag by lia. simpl. unfold running. rewrite !omap_app. split.
  - destruct w; csimpl; rewrite ?Permutation_middle; done.
  - destruct w'; csimpl; rewrite ?Permutation_middle; done.
Qed.

Lemma running_wake ws : running (wake <$> ws) = running ws.
Proof. unfold running. induction ws as [|[] ws IH]; csimpl; by rewrite ?IH. Qed.

Lemma asleep_dec ws : {WAsleep ∈ ws} + {WAsleep ∉ ws}.
Proof.
  induction ws as [|[| | |] ws [IH|IH]]; try (left; by left); try (left; by right);
    right; rewrite ?elem_of_cons; (by intros ?%elem_of_nil) || naive_solver.
Qed.

Lemma attentive_intro ws i (w : wstate) : ws !! i = Some w → w ≠ WAsleep → w ≠ WExited → attentive ws.
Proof. intros Hi. exists w. split; [by eapply list_elem_of_lookup_2|done]. Qed.

Lemma attentive_insert ws i (w y : wstate) :
  ws !! i = Some y → w ≠ WAsleep → w ≠ WExited → attentive (<[i:=w]> ws).
Proof. intros Hi. exists w. split; [by eapply insert_in|done]. Qed.

(** With nobody asleep and nobody gone, everybody is attentive. *)
Lemma attentive_all ws : ws ≠ [] → WAsleep ∉ ws → WExited ∉ ws → attentive ws.
Proof. destruct ws as [|w ws]; [done|]. intros _ Ha He. exists w. split; [by left|]. split; intros ->; [apply Ha|apply He]; by left. Qed.

Lemma pool_inv_new n : 0 < n → pool_inv (newPsys n).
Proof.
  intros Hn. split; simpl; try done.
  - destruct n; [lia|done].
  - assert (running (replicate n WCheck) = []) as -> by (clear; by induction n). done.
  - by intros [? _]%elem_of_replicate.
  - by intros [|].
Qed.

(** ** Every step keeps it *)
Lemma workPred_false p : workPred p = false → stopping_ p = false ∧ tasks_ p = [].
Proof. unfold workPred. intros [? H%bool_decide_eq_false]%orb_false_iff. split; [done|]. by destruct (tasks_ p); [|destruct H]. Qed.

(** One worker goes from [y] to [w]. *)
Lemma worker_inv i y w p p' ws k k' d su st st' fi fi' :
  pool_inv (mkPsys p ws k d su st fi) → ws !! i = Some y → y ≠ WExited →
  su = st' ++ tasks_ p' → (∀ r, running ws ≡ₚ run_of y ++ r → st' ≡ₚ fi' ++ run_of w ++ r) →
  stopping_ p' = stopping_ p → (tasks_ p = [] → tasks_ p' = []) →
  (w = WExited → tasks_ p' = [] ∧ stopping_ p = true) → (w = WAsleep → tasks_ p' = [] ∧ stopping_ p = false) →
  pool_inv (mkPsys p' (<[i:=w]> ws) k' d su st' fi').
Proof.
  intros [H1 H2 H3 H4 H5 H6 H7 H8] Hi Hy Hsu Hst Hstop Hnil He Ha. simpl in *.
  destruct (running_insert ws i y w Hi) as (r & Hr & Hr'). split; simpl; try done.
  - intros Hn. apply H1. apply (f_equal length) in Hn. rewrite length_insert in Hn. by apply nil_length_inv.
  - rewrite Hr'. by apply Hst.
  - rewrite Hstop. intros [<-|Hin]%insert_sub; [by apply He|]. destruct (H4 Hin). auto.
  - intros Hne. left. apply (attentive_insert _ _ _ _ Hi); intros ->; [by destruct (Ha eq_refl)|by destruct (He eq_refl)].
  - by rewrite Hstop.
  - intros Hd [<-|Hin]%insert_sub; [|by apply (H7 Hd)]. destruct Ha as [_ Ha]; [done|].
    assert (stopping_ p = true); [|congruence]. apply H6. by destruct Hd as [-> | ->].
  - intros ->. specialize (H8 eq_refl). by eapply Forall_lookup_1 in H8; [|done].
Qed.

Lemma running_keep ws (y w : wstate) (st fi : list Task) r :
  st ≡ₚ fi ++ running ws → run_of y = run_of w → running ws ≡ₚ run_of y ++ r → st ≡ₚ fi ++ run_of w ++ r.
Proof. intros -> <- ->. done. Qed.

Lemma pool_inv_step s s' : pool_inv s → pstep s s' → pool_inv s'.
Proof.
  intros Hinv Hs. pose proof Hinv as [H1 H2 H3 H4 H5 H6 H7 H8].
  destruct Hs as [t p p' ws k d su st fi Hsub|p ws ws' k d su st fi Hw|i p ws k d su st fi Hi Hp
    |i t p p' ws k d su st fi Hi Hp Ht|i p p' ws k d su st fi Hi Hp Ht|i t p ws k d su st fi Hi
    |i p ws k d su st fi Hi|p ws k su st fi|p ws k su st fi|p ws k su st fi Hall]; simpl in *.
  - unfold submit in Hsub. destruct (stopping_ p) eqn:Hst; [done|]. injection Hsub as <-. split; simpl; try done.
    + by rewrite H2, (assoc_L (++)).
    + intros He. destruct (H4 He). congruence.
    + intros _. right. left. lia.
  - destruct Hw as [ws Hno|ws i Hi].
    + split; simpl; try done. intros Hne. left. apply attentive_all; [done|done|]. intros He. by destruct (H4 He).
    + apply (worker_inv i WAsleep WCheck p p ws (S k) k d su st st fi fi); try done.
      intros r. by apply (running_keep ws WAsleep WCheck).
  - apply workPred_false in Hp as [? ?]. apply (worker_inv i WCheck WAsleep p p ws k k d su st st fi fi); try done.
    intros r. by apply (running_keep ws WCheck WAsleep).
  - unfold take in Ht. destruct (tasks_ p) as [|t' rest] eqn:Htasks; [done|]. injection Ht as <- <-.
    apply (worker_inv i WCheck (WRun t') p _ ws k k d su st _ fi fi); try done.
    + by rewrite H2, <- (assoc_L (++)).
    + simpl. intros r <-. by rewrite H3, <- (assoc_L (++)), <- Permutation_cons_append.
    + by rewrite Htasks.
  - unfold take in Ht. destruct (tasks_ p) as [|t' rest] eqn:Htasks; [|done]. injection Ht as <-.
    apply (worker_inv i WCheck WExited p p ws k k d su st st fi fi); try done.
    + by rewrite Htasks.
    + intros r. by apply (running_keep ws WCheck WExited).
    + intros _. split; [done|]. unfold workPred in Hp. rewrite Htasks in Hp. by destruct (stopping_ p).
  - apply (worker_inv i (WRun t) WCheck p p ws k k d su st st fi (fi ++ [t])); try done.
    simpl. intros r Hr. by rewrite H3, Hr, <- (assoc_L (++)).
  - apply (worker_inv i WAsleep WCheck p p ws k k d su st st fi fi); try done.
    intros r. by apply (running_keep ws WAsleep WCheck).
  - split; simpl; try done; [intros He; by destruct (H4 He)|by right; right|by intros [|]].
  - assert (Hst : stopping_ p = true) by (by apply H6).
    assert (Hawake : WAsleep ∉ wake <$> ws) by (intros (w & Hw & _)%list_elem_of_fmap; by destruct w).
    assert (Hgone : WExited ∈ wake <$> ws → WExited ∈ ws) by (intros (w & Hw & Hin)%list_elem_of_fmap; by destruct w).
    assert (Hsome : wake <$> ws ≠ []) by (by intros ->%fmap_nil_inv).
    split; simpl; try done; [by rewrite running_wake|by auto|]. intros Hne. left. apply attentive_all; [done|done|].
    intros He%Hgone. by destruct (H4 He).
  - split; simpl; try done; naive_solver.
Qed.

Lemma pool_inv_reachable n s : 0 < n → rtc pstep (newPsys n) s → pool_inv s.
Proof.
  intros Hn Hr. assert (H0 := pool_inv_new n Hn). induction Hr as [|s1 s2 s3 H12 _ IH]; [done|].
  apply IH. by eapply pool_inv_step.
Qed.
End Pool.

Arguments pool : clear implicits.
Arguments psys : clear implicits.
Arguments wstate : clear implicits.
