(* ===== verification/ThreadPoolMain.v ===== *)
(** * Thread pool: main theorems *)

From S2P Require Import Prelude ThreadPool.

Section Main.
Context {Task : Type}.
Implicit Types (s : psys Task) (p : pool Task) (ws : list (wstate Task)).

(** Every submitted task is taken from the queue exactly once and in order of
    submission: at any time the tasks submitted are the tasks started followed
    by the queue, and the tasks started are the ones that have finished and the
    ones that workers are running, each once. *)
Theorem pool_exactly_once (n : nat) s :
  0 < n → rtc pstep (newPsys n) s →
  submitted s = started s ++ tasks_ (shared s) ∧ started s ≡ₚ finished s ++ running (workers s).
Proof. intros Hn [_ H2 H3 _ _ _ _ _]%pool_inv_reachable; [done|done]. Qed.

(** No wakeup is lost: a task never sits in the queue with everybody asleep.
    While the queue is not empty either some worker is about to look at it (it
    is checking or will come back from its task), or the pending notification of
    a [submit] or of the destructor brings that about. *)
Theorem pool_no_lost_wakeup (n : nat) s :
  0 < n → rtc pstep (newPsys n) s → tasks_ (shared s) ≠ [] →
  attentive (workers s) ∨
  ((0 < notifies s ∨ dtor s = DNotify) ∧ ∃ s', pstep s s' ∧ shared s' = shared s ∧ attentive (workers s')).
Proof.
  intros Hn Hr Hne. pose proof (pool_inv_reachable n s Hn Hr) as Hinv.
  destruct (pi_wake _ Hinv Hne) as [Ha|Hw]; [by left|right]. split; [done|].
  assert (Hgone : WExited ∉ workers s) by (intros He; by destruct (pi_exited _ Hinv He)).
  destruct s as [p ws k d su st fi]. simpl in *. destruct Hw as [Hk| ->].
  - destruct k as [|k]; [lia|]. destruct (asleep_dec ws) as [(i & Hi)%list_elem_of_lookup_1|Hno].
    + eexists. split; [apply p_notify; by apply (wake_some _ i)|]. split; [done|]. by eapply attentive_insert.
    + eexists. split; [apply p_notify; by apply wake_nobody|]. split; [done|].
      apply attentive_all; [apply (pi_some _ Hinv)|done|done].
  - eexists. split; [apply p_notify_all|]. split; [done|].
    apply attentive_all; simpl.
    + intros Hn'%fmap_nil_inv. by apply (pi_some _ Hinv).
    + intros (w & Hw & _)%list_elem_of_fmap. by destruct w.
    + intros (w & Hw & Hin)%list_elem_of_fmap. by destruct w.
Qed.

(** ** Shutdown *)
Definition weight (w : wstate Task) : nat := match w with WAsleep => 2 | WCheck => 1 | WRun _ => 2 | WExited => 0 end.
Definition dweight (d : dstate) : nat := match d with DIdle => 3 | DNotify => 2 | DJoin => 1 | DDone => 0 end.

Definition measure s : nat :=
  3 * length (tasks_ (shared s)) + sum_list (weight <$> workers s) + notifies s + dweight (dtor s).

Lemma weight_insert ws i (w y : wstate Task) :
  ws !! i = Some y → sum_list (weight <$> <[i:=w]> ws) + weight y = sum_list (weight <$> ws) + weight w.
Proof.
  intros (l1 & l2 & -> & ->)%list_elem_of_split_length. rewrite insert_app_r_alt, Nat.sub_diag by lia. simpl.
  rewrite !fmap_app, !sum_list_with_app. simpl. lia.
Qed.

Lemma weight_wake ws : sum_list (weight <$> (wake <$> ws)) ≤ sum_list (weight <$> ws).
Proof. induction ws as [|[] ws IH]; csimpl; simpl; lia. Qed.

(** Once the flag is set every step comes closer to the end. *)
Lemma measure_step s s' : stopping_ (shared s) = true → pstep s s' → measure s' < measure s.
Proof.
  intros Hstop Hs. unfold measure.
  destruct Hs as [t p p' ws k d su st fi Hsub|p ws ws' k d su st fi Hw|i p ws k d su st fi Hi Hp
    |i t p p' ws k d su st fi Hi Hp Ht|i p p' ws k d su st fi Hi Hp Ht|i t p ws k d su st fi Hi
    |i p ws k d su st fi Hi|p ws k su st fi|p ws k su st fi|p ws k su st fi Hall]; cbn [shared workers notifies dtor] in *.
  - unfold submit in Hsub. by rewrite Hstop in Hsub.
  - destruct Hw as [ws Hno|ws i Hi]; [lia|]. pose proof (weight_insert ws i WCheck _ Hi) as Hw. simpl in Hw. lia.
  - apply workPred_false in Hp as [? _]. congruence.
  - unfold take in Ht. destruct (tasks_ p) as [|t' rest] eqn:Htasks; [done|]. injection Ht as <- <-. simpl.
    pose proof (weight_insert ws i (WRun t') _ Hi) as Hw. simpl in Hw. lia.
  - unfold take in Ht. destruct (tasks_ p) as [|t' rest] eqn:Htasks; [|done]. injection Ht as <-. rewrite Htasks.
    pose proof (weight_insert ws i WExited _ Hi) as Hw. simpl in Hw. lia.
  - pose proof (weight_insert ws i WCheck _ Hi) as Hw. simpl in Hw. lia.
  - pose proof (weight_insert ws i WCheck _ Hi) as Hw. simpl in Hw. lia.
  - simpl. lia.
  - pose proof (weight_wake ws). simpl. lia.
  - simpl. lia.
Qed.

Lemma all_exited ws : Forall (eq WExited) ws ∨ ∃ i w, ws !! i = Some w ∧ w ≠ WExited.
Proof.
  induction ws as [|w ws [IH|(i & w' & Hi & Hw)]]; [by left| |right; by exists (S i), w'].
  destruct w; [right; by exists 0, WCheck|right; by exists 0, WAsleep|right; by exists 0, (WRun task)|].
  left. by constructor.
Qed.

(** Shutdown ends and runs everything: from the moment the destructor has set
    the flag, no run is infinite (every step lowers a measure, as tasks return),
    no state before the end is stuck, and at the end every submitted task has
    been run and every worker has exited. *)
Theorem pool_shutdown (n : nat) s :
  0 < n → rtc pstep (newPsys n) s → dtor s ≠ DIdle →
  (∀ s', pstep s s' → measure s' < measure s) ∧
  (dtor s ≠ DDone → ∃ s', pstep s s') ∧
  (dtor s = DDone → finished s ≡ₚ submitted s ∧ Forall (eq WExited) (workers s)).
Proof.
  intros Hn Hr Hd. pose proof (pool_inv_reachable n s Hn Hr) as Hinv.
  assert (Hstop : stopping_ (shared s) = true) by (by apply (pi_dtor _ Hinv)).
  split; [intros s'; by apply measure_step|]. split.
  - destruct s as [p ws k d su st fi]. simpl in *. intros Hnd. destruct d; [done| | |done].
    { eexists. apply p_notify_all. }
    destruct (all_exited ws) as [Hall|(i & w & Hi & Hw)]; [eexists; by apply p_join|].
    assert (Hp : workPred p = true) by (unfold workPred; by rewrite Hstop). destruct w as [| |t|].
    + destruct (take p) as [p' [t|]] eqn:Ht; eexists; [by eapply p_take|by eapply p_exit].
    + destruct (pi_join _ Hinv (or_introl eq_refl)). by eapply list_elem_of_lookup_2.
    + eexists. by eapply p_return.
    + done.
  - intros Hdone. pose proof (pi_done _ Hinv Hdone) as Hall. split; [|done].
    assert (Hex : WExited ∈ workers s).
    { pose proof (pi_some _ Hinv). destruct Hall; [done|]. subst. by left. }
    destruct (pi_exited _ Hinv Hex) as [Htasks _]. rewrite (pi_queue _ Hinv), Htasks, app_nil_r.
    rewrite (pi_started _ Hinv). assert (running (workers s) = []) as ->; [|by rewrite app_nil_r].
    clear -Hall. induction Hall as [|w ws <- _ IH]; [done|]. by csimpl.
Qed.

(** After shutdown has begun [submit] throws and changes nothing; before, it
    puts the task at the end of the queue. *)
Theorem pool_submit (n : nat) s (t : Task) :
  0 < n → rtc pstep (newPsys n) s →
  if bool_decide (dtor s = DIdle)
  then submit (shared s) t = Val (mkPool (tasks_ (shared s) ++ [t]) false)
  else submit (shared s) t = Throw (RuntimeError "ThreadPool: submit after shutdown").
Proof.
  intros Hn Hr. pose proof (pi_dtor _ (pool_inv_reachable n s Hn Hr)) as Hd. unfold submit.
  case_bool_decide as H; destruct (stopping_ (shared s)); try done.
  - by destruct Hd as [Hd _]; destruct Hd.
  - by apply Hd in H.
Qed.
End Main.

Lemma demo_pool_run :
  ∃ s : psys nat, rtc pstep (newPsys 2) s ∧ dtor s = DNotify ∧ tasks_ (shared s) = [9] ∧ started s = [8].
Proof.
  eexists. split; [|split; [|split]].
  - eapply rtc_l; [eapply (p_sleep 0); reflexivity|].
    eapply rtc_l; [eapply (p_sleep 1); reflexivity|].
    eapply rtc_l; [eapply (p_submit 8); reflexivity|].
    eapply rtc_l; [eapply p_notify, (wake_some _ 1); reflexivity|].
    eapply rtc_l; [eapply (p_submit 9); reflexivity|].
    eapply rtc_l; [eapply (p_take 1 8); reflexivity|].
    eapply rtc_l; [eapply p_stop|].
    apply rtc_refl.
  - reflexivity.
  - reflexivity.
  - reflexivity.
Qed.

Lemma pool_exactly_once_witness :
  ∃ s : psys nat, started s = [8] ∧ submitted s = started s ++ tasks_ (shared s) ∧
    started s ≡ₚ finished s ++ running (workers s).
Proof.
  destruct demo_pool_run as (s & Hr & _ & _ & Hst). exists s. split; [done|]. apply (pool_exactly_once 2); [lia|exact Hr].
Defined.

Lemma pool_no_lost_wakeup_witness :
  ∃ s : psys nat, attentive (workers s) ∨
    ((0 < notifies s ∨ dtor s = DNotify) ∧ ∃ s', pstep s s' ∧ shared s' = shared s ∧ attentive (workers s')).
Proof.
  destruct demo_pool_run as (s & Hr & _ & Ht & _). exists s.
  apply (pool_no_lost_wakeup 2); [lia|exact Hr|]. rewrite Ht. discriminate.
Defined.

Lemma pool_shutdown_witness : ∃ s s' : psys nat, pstep s s' ∧ measure s' < measure s.
Proof.
  destruct demo_pool_run as (s & Hr & Hd & _). exists s.
  destruct (pool_shutdown 2 s) as (Hm & Hex & _); [lia|exact Hr|rewrite Hd; discriminate|].
  destruct Hex as (s' & Hs); [rewrite Hd; discriminate|]. exists s'. split; [exact Hs|]. apply Hm. exact Hs.
Defined.

Lemma pool_submit_witness :
  ∃ s : psys nat, dtor s = DNotify ∧
    if bool_decide (dtor s = DIdle)
    then submit (shared s) 5 = Val (mkPool (tasks_ (shared s) ++ [5]) false)
    else submit (shared s) 5 = Throw (RuntimeError "ThreadPool: submit after shutdown").
Proof.
  destruct demo_pool_run as (s & Hr & Hd & _). exists s. split; [exact Hd|]. apply (pool_submit 2); [lia|exact Hr].
Defined.
