(* ===== verification/TCPServer.v ===== *)
(** * TCP server (include/network/TCPServer.hpp, src/network/tcp_server.cpp)

    The event loop, the connections and the worker tasks.  A step is a critical
    section of a connection's mutex, a system call or a piece of code that only
    one thread touches, so that workers and the loop interleave as they do in the
    program.  Descriptors are numbers that the kernel reuses once closed.  The
    bytes that arrive, the outcome of writes and the order of steps are arbitrary.
    Ghost fields (received, accepted, executed, ...) record what happened. *)

From S2P Require Import Prelude.

Definition newlineChar : Ascii.ascii := Ascii.ascii_of_N 10.
Definition returnChar : Ascii.ascii := Ascii.ascii_of_N 13.

Definition kMaxLineBytes : N := 64 * 1024.
Definition kMaxPendingQueries : N := 1024.

(** ** Splitting lines *)

(** [inbox.find('\n')]: the line and what follows the newline. *)
Fixpoint takeLine (inbox : string) : option (string * string) :=
  match inbox with
  | EmptyString => None
  | String c rest =>
    if bool_decide (c = newlineChar) then Some (EmptyString, rest)
    else match takeLine rest with
         | Some (line, after) => Some (String c line, after)
         | None => None
         end
  end.

(** [if (!line.empty() && line.back() == '\r') line.pop_back()] *)
Fixpoint stripReturn (line : string) : string :=
  match line with
  | EmptyString => EmptyString
  | String c EmptyString => if bool_decide (c = returnChar) then EmptyString else line
  | String c rest => String c (stripReturn rest)
  end.

Definition sizeN (s : string) : N := N.of_nat (String.length s).

(** ** Connections *)
Inductive tphase := TQueued | TLoop | TExec (query : string) | TFailed.

Record conn := mkConn {
  fd : nat;
  inbox : string;
  pending : list string;
  busy : bool;
  closed : bool;
  tasks : list tphase;       (* its tasks in the pool *)
  received : string;         (* all bytes read *)
  accepted : list string;    (* all queries queued *)
  executed : list string;    (* queries answered, in order *)
  overran : bool;            (* a limit was exceeded *)
  unwritten : bool;          (* a reply could not be written *)
  closes : nat;              (* how often the descriptor was closed *)
}.

Definition newConn (descriptor : nat) : conn :=
  mkConn descriptor "" [] false false [] "" [] [] false false 0.

Inductive passResult := PNoLine | PContinue | PLimit | PPushed (dispatch : bool).

(** One pass of the loop of [handleReadable] over complete lines. *)
Definition splitPass (k : conn) : conn * passResult :=
  match takeLine (inbox k) with
  | None => (k, PNoLine)
  | Some (raw, rest) =>
    let line := stripReturn raw in
    let k1 := mkConn (fd k) rest (pending k) (busy k) (closed k) (tasks k) (received k) (accepted k) (executed k)
                (overran k) (unwritten k) (closes k) in
    let over := mkConn (fd k) rest (pending k) (busy k) (closed k) (tasks k) (received k) (accepted k) (executed k)
                true (unwritten k) (closes k) in
    if bool_decide (line = "") then (k1, PContinue)
    else if (kMaxLineBytes <? sizeN line)%N then (over, PLimit)
    else if (kMaxPendingQueries <=? N.of_nat (length (pending k)))%N then (over, PLimit)
    else (mkConn (fd k) rest (pending k ++ [line]) true (closed k) (tasks k) (received k) (accepted k ++ [line])
            (executed k) (overran k) (unwritten k) (closes k), PPushed (negb (busy k)))
  end.

(** ** Pieces of code on a connection *)
Definition receive (k : conn) (data : string) : conn :=
  mkConn (fd k) (inbox k +:+ data) (pending k) (busy k) (closed k) (tasks k) (received k +:+ data) (accepted k)
    (executed k) (overran k) (unwritten k) (closes k).

(** [if (inbox.size() > kMaxLineBytes) overLimit = true] *)
Definition inboxOver (k : conn) : bool := (kMaxLineBytes <? sizeN (inbox k))%N.

(** [pool_->submit(...)] *)
Definition submitTask (k : conn) : conn :=
  mkConn (fd k) (inbox k) (pending k) (busy k) (closed k) (tasks k ++ [TQueued]) (received k) (accepted k)
    (executed k) (overran k) (unwritten k) (closes k).

Definition setTask (k : conn) (i : nat) (t : tphase) : conn :=
  mkConn (fd k) (inbox k) (pending k) (busy k) (closed k) (<[i:=t]> (tasks k)) (received k) (accepted k)
    (executed k) (overran k) (unwritten k) (closes k).

(** The critical section at the head of the task's loop: [inl] the query taken,
    [inr] whether the task ends by closing the descriptor. *)
Definition taskTake (k : conn) (i : nat) : conn * (string + bool) :=
  match pending k with
  | [] =>
    (mkConn (fd k) (inbox k) [] false (closed k) (delete i (tasks k)) (received k) (accepted k) (executed k)
       (overran k) (unwritten k) (if closed k then S (closes k) else closes k), inr (closed k))
  | query :: rest =>
    (mkConn (fd k) (inbox k) rest (busy k) (closed k) (<[i:=TExec query]> (tasks k)) (received k) (accepted k)
       (executed k) (overran k) (unwritten k) (closes k), inl query)
  end.

(** The reply of the query is written, or the write fails. *)
Definition taskReplied (k : conn) (i : nat) (query : string) : conn :=
  mkConn (fd k) (inbox k) (pending k) (busy k) (closed k) (<[i:=TLoop]> (tasks k)) (received k) (accepted k)
    (executed k ++ [query]) (overran k) (unwritten k) (closes k).
Definition taskUnwritten (k : conn) (i : nat) : conn :=
  mkConn (fd k) (inbox k) (pending k) (busy k) (closed k) (<[i:=TFailed]> (tasks k)) (received k) (accepted k)
    (executed k) (overran k) true (closes k).

(** The critical section after a failed write; whether it closes. *)
Definition taskFail (k : conn) (i : nat) : conn * bool :=
  (mkConn (fd k) (inbox k) [] false (closed k) (delete i (tasks k)) (received k) (accepted k) (executed k)
     (overran k) (unwritten k) (if closed k then S (closes k) else closes k), closed k).

(** The critical section of [dropConnection]; whether it closes. *)
Definition dropLocked (k : conn) : conn * bool :=
  (mkConn (fd k) (inbox k) (pending k) (busy k) true (tasks k) (received k) (accepted k) (executed k)
     (overran k) (unwritten k) (if busy k then closes k else S (closes k)), negb (busy k)).

(** ** The server *)
Inductive lphase :=
  | LIdle
  | LLines (c : nat) (peerClosed shouldDispatch overLimit : bool)  (* in the loop over lines *)
  | LAfter (c : nat) (peerClosed shouldDispatch overLimit : bool)  (* behind it *)
  | LEnd (c : nat) (drop : bool)                                  (* dispatched *)
  | LDrop (c : nat).                                              (* erased, to be closed *)

Record server := mkServer {
  connections_ : gmap nat nat;   (* by descriptor, to connection objects *)
  conns : gmap nat conn;         (* the objects *)
  opened : gmap nat nat;         (* the kernel: open descriptors and whose they are *)
  phase : lphase;
}.

Definition newServer : server := mkServer ∅ ∅ ∅ LIdle.

Definition closeIf (b : bool) (f : nat) (o : gmap nat nat) : gmap nat nat := if b then delete f o else o.

(** [connections_.emplace]: no effect when the key is there. *)
Definition emplace (f c : nat) (m : gmap nat nat) : gmap nat nat :=
  if m !! f is Some _ then m else <[f:=c]> m.

(** The event loop. *)
Inductive lstep : server → server → Prop :=
  | s_accept f c m cs o :
      cs !! c = None → o !! f = None →
      lstep (mkServer m cs o LIdle) (mkServer (emplace f c m) (<[c:=newConn f]> cs) (<[f:=c]> o) LIdle)
  | s_read f c k data peerClosed m cs o :
      m !! f = Some c → cs !! c = Some k →
      lstep (mkServer m cs o LIdle) (mkServer m (<[c:=receive k data]> cs) o (LLines c peerClosed false false))
  | s_pass c k k' r pc sd ol m cs o :
      cs !! c = Some k → splitPass k = (k', r) →
      lstep (mkServer m cs o (LLines c pc sd ol))
        (mkServer m (<[c:=k']> cs) o
           (match r with
            | PNoLine => LAfter c pc sd ol
            | PContinue => LLines c pc sd ol
            | PLimit => LAfter c pc sd true
            | PPushed d => LLines c pc (sd || d) ol
            end))
  | s_after c k pc sd ol m cs o :
      cs !! c = Some k →
      lstep (mkServer m cs o (LAfter c pc sd ol))
        (mkServer m (<[c:=if sd : bool then submitTask k else k]> cs) o (LEnd c (pc || (ol || inboxOver k))))
  | s_keep c m cs o : lstep (mkServer m cs o (LEnd c false)) (mkServer m cs o LIdle)
  | s_gone c k m cs o :
      cs !! c = Some k → m !! fd k = None → lstep (mkServer m cs o (LEnd c true)) (mkServer m cs o LIdle)
  | s_erase c k c' m cs o :
      cs !! c = Some k → m !! fd k = Some c' →
      lstep (mkServer m cs o (LEnd c true)) (mkServer (delete (fd k) m) cs o (LDrop c'))
  | s_drop c k k' b m cs o :
      cs !! c = Some k → dropLocked k = (k', b) →
      lstep (mkServer m cs o (LDrop c)) (mkServer m (<[c:=k']> cs) (closeIf b (fd k) o) LIdle).

(** The workers: the parts of a task of connection [c], and the answers of queries
    in execution. *)
Inductive taskPart := KStart | KTake | KEnd.

Inductive kstep (c : nat) : taskPart → server → server → Prop :=
  | s_start k i m cs o p :
      cs !! c = Some k → tasks k !! i = Some TQueued →
      kstep c KStart (mkServer m cs o p) (mkServer m (<[c:=setTask k i TLoop]> cs) o p)
  | s_take k k' i q m cs o p :
      cs !! c = Some k → tasks k !! i = Some TLoop → taskTake k i = (k', inl q) →
      kstep c KTake (mkServer m cs o p) (mkServer m (<[c:=k']> cs) o p)
  | s_finish k k' i b m cs o p :
      cs !! c = Some k → tasks k !! i = Some TLoop → taskTake k i = (k', inr b) →
      kstep c KEnd (mkServer m cs o p) (mkServer m (<[c:=k']> cs) (closeIf b (fd k) o) p)
  | s_fail k k' i b m cs o p :
      cs !! c = Some k → tasks k !! i = Some TFailed → taskFail k i = (k', b) →
      kstep c KEnd (mkServer m cs o p) (mkServer m (<[c:=k']> cs) (closeIf b (fd k) o) p).

Definition tstep (s s' : server) : Prop := ∃ c a, kstep c a s s'.

(** Connection [c]'s query [q] is answered; whether the reply is written. *)
Inductive astep (c : nat) (q : string) : bool → server → server → Prop :=
  | s_reply k i m cs o p :
      cs !! c = Some k → tasks k !! i = Some (TExec q) →
      astep c q true (mkServer m cs o p) (mkServer m (<[c:=taskReplied k i q]> cs) o p)
  | s_unwritten k i m cs o p :
      cs !! c = Some k → tasks k !! i = Some (TExec q) →
      astep c q false (mkServer m cs o p) (mkServer m (<[c:=taskUnwritten k i]> cs) o p).

Definition wstep (s s' : server) : Prop := tstep s s' ∨ ∃ c q b, astep c q b s s'.

Definition sstep (s s' : server) : Prop := lstep s s' ∨ wstep s s'.

(** [~TCPServer]: the pool has drained; the loop closes what is registered. *)
Definition drained (s : server) : Prop := phase s = LIdle ∧ map_Forall (λ _ k, tasks k = []) (conns s).
Definition closeAll (m o : gmap nat nat) : gmap nat nat := foldr (λ e, delete e.1) o (map_to_list m).
Definition destroyServer (s : server) : server := mkServer ∅ (conns s) (closeAll (connections_ s) (opened s)) LIdle.
