(* ===== verification/TCPServerSpec.v ===== *)
(** * TCP server: invariants

    [queries_of bytes] are the queries that a byte stream spells: its complete
    lines, without a trailing carriage return, empty ones left out.  It does not
    depend on how the bytes are cut into reads. *)

From S2P Require Import Prelude TCPServer.

(** ** Byte streams and lines *)

(** The complete lines of [acc ++ s] and what is left, where [acc] has no newline. *)
Fixpoint linesFrom (acc s : string) : list string * string :=
  match s with
  | EmptyString => ([], acc)
  | String c s' =>
    if bool_decide (c = newlineChar)
    then let '(ls, r) := linesFrom "" s' in (acc :: ls, r)
    else linesFrom (acc +:+ String c "") s'
  end.

Definition keepLines (ls : list string) : list string := base.filter (λ l, l ≠ "") (stripReturn <$> ls).
Definition queries_of (bytes : string) : list string := keepLines (linesFrom "" bytes).1.
Definition residue (bytes : string) : string := (linesFrom "" bytes).2.

Lemma linesFrom_app acc a b :
  linesFrom acc (a +:+ b) =
    ((linesFrom acc a).1 ++ (linesFrom (linesFrom acc a).2 b).1, (linesFrom (linesFrom acc a).2 b).2).
Proof.
  revert acc. induction a as [|c a IH]; intros acc.
  { change ("" +:+ b) with b. cbn [linesFrom fst snd app]. apply surjective_pairing. }
  rewrite string_app_cons. cbn [linesFrom]. case_bool_decide; [|by apply IH].
  rewrite IH. by destruct (linesFrom "" a).
Qed.

(** [takeLine] finds the first of them. *)
Lemma takeLine_lines acc s :
  match takeLine s with
  | Some (line, rest) =>
    linesFrom acc s = ((acc +:+ line) :: (linesFrom "" rest).1, (linesFrom "" rest).2)
  | None => linesFrom acc s = ([], acc +:+ s)
  end.
Proof.
  revert acc. induction s as [|c s IH]; intros acc; cbn [takeLine linesFrom].
  { by rewrite string_append_nil. }
  case_bool_decide; [rewrite string_append_nil; by destruct (linesFrom "" s)|].
  specialize (IH (acc +:+ String c "")). destruct (takeLine s) as [[line rest]|].
  - by rewrite IH, string_append_assoc.
  - by rewrite IH, string_append_assoc.
Qed.

Lemma queries_of_take s line rest :
  takeLine s = Some (line, rest) →
  queries_of s = (if bool_decide (stripReturn line = "") then [] else [stripReturn line]) ++ queries_of rest ∧
  residue s = residue rest.
Proof.
  intros Ht. pose proof (takeLine_lines "" s) as Hl. rewrite Ht in Hl. unfold queries_of, residue. rewrite Hl.
  split; [|done]. cbn [fst]. unfold keepLines. rewrite fmap_cons, filter_cons.
  change ("" +:+ line) with line. case_decide as Hn; case_bool_decide; naive_solver.
Qed.

Lemma queries_of_none s : takeLine s = None → queries_of s = [] ∧ residue s = s.
Proof.
  intros Ht. pose proof (takeLine_lines "" s) as Hl. rewrite Ht in Hl. unfold queries_of, residue. by rewrite Hl.
Qed.

(** More bytes arrive: the lines of what is left grow by what the stream grows by. *)
Lemma queries_of_app s s' data :
  residue s = residue s' →
  ∃ more, queries_of (s +:+ data) = queries_of s ++ more ∧ queries_of (s' +:+ data) = queries_of s' ++ more ∧
    residue (s +:+ data) = residue (s' +:+ data).
Proof.
  intros Hr. unfold residue, queries_of in *. rewrite !linesFrom_app, <- Hr. cbn [fst snd].
  exists (keepLines (linesFrom (linesFrom "" s).2 data).1). unfold keepLines. by rewrite !fmap_app, !filter_app.
Qed.

(** ** The data of a connection *)
Definition current (k : conn) : list string :=
  omap (λ t, match t with TExec q => Some q | _ => None end) (tasks k).

Definition query_ok (q : string) : Prop := q ≠ "" ∧ (sizeN q ≤ kMaxLineBytes)%N.

Record conn_data (k : conn) : Prop := {
  cd_lines : overran k = false → queries_of (received k) = accepted k ++ queries_of (inbox k) ∧
    residue (received k) = residue (inbox k);
  cd_prefix : accepted k `prefix_of` queries_of (received k);
  cd_order : executed k ++ current k ++ pending k `sublist_of` accepted k;
  cd_exact : unwritten k = false → executed k ++ current k ++ pending k = accepted k ∧ TFailed ∉ tasks k;
  cd_pending : (N.of_nat (length (pending k)) ≤ kMaxPendingQueries)%N;
  cd_queries : Forall query_ok (accepted k);
}.

Lemma conn_data_new f : conn_data (newConn f).
Proof. split; simpl; try done. intros _. split; [done|apply not_elem_of_nil]. Qed.

Lemma receive_data k data : conn_data k → conn_data (receive k data).
Proof.
  intros [H1 Hp H2 H3 H4 H5]. split; simpl; try done.
  - intros Ho. destruct (H1 Ho) as [Hq Hr].
    destruct (queries_of_app (received k) (inbox k) data Hr) as (more & -> & -> & ?). split; [|done].
    by rewrite Hq, (assoc_L (++)).
  - destruct (queries_of_app (received k) (received k) data eq_refl) as (more & -> & _). by apply prefix_app_r.
Qed.

Lemma splitPass_data k k' r : conn_data k → overran k = false → splitPass k = (k', r) → conn_data k'.
Proof.
  intros [H1 Hp H2 H3 H4 H5] Hov. destruct (H1 Hov) as [Hq' Hr']. unfold splitPass.
  destruct (takeLine (inbox k)) as [[raw rest]|] eqn:Ht; [|by intros [= <- <-]].
  destruct (queries_of_take _ _ _ Ht) as [Hq Hr]. case_bool_decide as Hne.
  { intros [= <- <-]. split; simpl; try done. intros Ho. by rewrite Hq', Hr', Hq, Hr. }
  destruct (N.ltb_spec kMaxLineBytes (sizeN (stripReturn raw))) as [Hlong|Hlong]; [by intros [= <- <-]|].
  destruct (N.leb_spec kMaxPendingQueries (N.of_nat (length (pending k)))) as [Hfull|Hfull]; [by intros [= <- <-]|].
  rewrite Hq in Hq'. intros [= <- <-]. split; simpl.
  - intros Ho. rewrite Hq', Hr', Hr. by rewrite <- !(assoc_L (++)).
  - rewrite Hq', (assoc_L (++)). by apply prefix_app_r.
  - rewrite !(assoc_L (++)). apply sublist_app; [|done]. by rewrite <- (assoc_L (++)).
  - intros Hu. destruct (H3 Hu) as [<- ?]. split; [|done]. unfold current. by rewrite <- !(assoc_L (++)).
  - rewrite length_app. simpl. lia.
  - apply Forall_app_2; [done|]. by repeat constructor.
Qed.

(** ** The pieces of a task, when it is the connection's only one *)
Lemma only_task (k : conn) i t : length (tasks k) ≤ 1 → tasks k !! i = Some t → i = 0 ∧ tasks k = [t].
Proof.
  intros Hl Hi. pose proof (lookup_lt_Some _ _ _ Hi). destruct (tasks k) as [|t' [|? ?]] eqn:E; simpl in *; [lia| |lia].
  destruct i; [|lia]. by simplify_eq/=.
Qed.

Ltac sole_task Hl Hi :=
  let E := fresh "Htasks" in
  destruct (only_task _ _ _ Hl Hi) as [-> E]; unfold current in *; rewrite ?E in *; simpl in *.

Lemma submitTask_data k : conn_data k → conn_data (submitTask k).
Proof.
  intros [H1 Hp H2 H3 H4 H5].
  assert (Hc : current (submitTask k) = current k) by (unfold current; simpl; by rewrite omap_app, app_nil_r).
  split; rewrite ?Hc; simpl; try done. intros Hu. destruct (H3 Hu) as [? Hn]. split; [done|].
  rewrite elem_of_app, list_elem_of_singleton. by intros [?|?].
Qed.

Lemma start_data k i :
  conn_data k → length (tasks k) ≤ 1 → tasks k !! i = Some TQueued → conn_data (setTask k i TLoop).
Proof.
  intros [H1 Hp H2 H3 H4 H5] Hl Hi. sole_task Hl Hi. split; unfold current; simpl; rewrite ?Htasks; simpl; try done.
  intros Hu. split; [by apply H3|]. rewrite list_elem_of_singleton. done.
Qed.

Lemma taskTake_data k k' i r :
  conn_data k → length (tasks k) ≤ 1 → tasks k !! i = Some TLoop → taskTake k i = (k', r) → conn_data k'.
Proof.
  intros [H1 Hp H2 H3 H4 H5] Hl Hi Ht. sole_task Hl Hi. unfold taskTake in Ht.
  destruct (pending k) as [|q rest] eqn:Hpe; injection Ht as <- <-; split; unfold current; simpl; rewrite ?Htasks; simpl; try done.
  - intros Hu. split; [by apply H3|]. apply not_elem_of_nil.
  - intros Hu. split; [by apply H3|]. rewrite list_elem_of_singleton. done.
  - simpl in H4. lia.
Qed.

Lemma taskReplied_data k i q :
  conn_data k → length (tasks k) ≤ 1 → tasks k !! i = Some (TExec q) → conn_data (taskReplied k i q).
Proof.
  intros [H1 Hp H2 H3 H4 H5] Hl Hi. sole_task Hl Hi. split; unfold current; simpl; rewrite ?Htasks; simpl; try done.
  - by rewrite <- (assoc_L (++)).
  - intros Hu. rewrite <- (assoc_L (++)). split; [by apply H3|]. rewrite list_elem_of_singleton. done.
Qed.

Lemma taskUnwritten_data k i q :
  conn_data k → length (tasks k) ≤ 1 → tasks k !! i = Some (TExec q) → conn_data (taskUnwritten k i).
Proof.
  intros [H1 Hp H2 H3 H4 H5] Hl Hi. sole_task Hl Hi. split; unfold current; simpl; rewrite ?Htasks; simpl; try done.
  etrans; [|exact H2]. apply sublist_app; [done|]. by apply sublist_cons.
Qed.

Lemma taskFail_data k k' i b :
  conn_data k → length (tasks k) ≤ 1 → tasks k !! i = Some TFailed → taskFail k i = (k', b) → conn_data k'.
Proof.
  intros [H1 Hp H2 H3 H4 H5] Hl Hi [= <- <-]. sole_task Hl Hi. split; unfold current; simpl; rewrite ?Htasks; simpl; try done.
  - etrans; [|exact H2]. apply sublist_app; [done|]. apply sublist_nil_l.
  - intros Hu. destruct (H3 Hu) as [_ []]. by left.
Qed.

Lemma dropLocked_data k k' b : conn_data k → dropLocked k = (k', b) → conn_data k'.
Proof. by intros [H1 Hp H2 H3 H4 H5] [= <- <-]. Qed.

(** ** The invariant of a connection *)

(** What the loop is doing, as one connection sees it. *)
Inductive cview :=
  | VAway
  | VLines (owes overLimit : bool)
  | VAfter (owes overLimit : bool)
  | VEnd (drop : bool)
  | VDrop.

Definition view (p : lphase) (c : nat) : cview :=
  match p with
  | LIdle => VAway
  | LLines c' _ sd ol => if decide (c' = c) then VLines sd ol else VAway
  | LAfter c' _ sd ol => if decide (c' = c) then VAfter sd ol else VAway
  | LEnd c' d => if decide (c' = c) then VEnd d else VAway
  | LDrop c' => if decide (c' = c) then VDrop else VAway
  end.

Definition owes (v : cview) : bool := match v with VLines b _ | VAfter b _ => b | _ => false end.

(** No complete line waits in the inbox, and no limit is exceeded. *)
Definition quiet (k : conn) : Prop := takeLine (inbox k) = None ∧ overran k = false.
Definition settled (k : conn) : Prop := quiet k ∧ (sizeN (inbox k) ≤ kMaxLineBytes)%N.

Definition inbox_ok (v : cview) (k : conn) : Prop :=
  match v with
  | VAway => settled k
  | VLines _ ol => ol = false ∧ overran k = false
  | VAfter _ ol => ol = false → quiet k
  | VEnd d => d = false → settled k
  | VDrop => True
  end.

Definition one (b : bool) : nat := if b then 1 else 0.

Record conn_inv (v : cview) (registered isOpen : Prop) (k : conn) : Prop := {
  ci_data : conn_data k;
  ci_task : length (tasks k) + one (owes v) = one (busy k);
  ci_idle : busy k = false → pending k = [];
  ci_open : isOpen ↔ closed k = false ∨ busy k = true;
  ci_registered : registered ↔ closed k = false ∧ v ≠ VDrop;
  ci_work : v ≠ VAway → closed k = false;
  ci_closes : closes k = one (closed k && negb (busy k));
  ci_inbox : closed k = false → inbox_ok v k;
}.

Lemma conn_frame v (r r' o o' : Prop) k : conn_inv v r o k → (r' ↔ r) → (o' ↔ o) → conn_inv v r' o' k.
Proof. intros [] Hr Ho. split; try done; [by rewrite Ho|by rewrite Hr]. Qed.

Lemma one_task v r o k : conn_inv v r o k → length (tasks k) ≤ 1.
Proof. intros H. pose proof (ci_task _ _ _ _ H). destruct (busy k); simpl in *; lia. Qed.

(** The connection has a task: it is busy, and the loop does not owe one. *)
Lemma task_busy v r o k i t :
  conn_inv v r o k → tasks k !! i = Some t → busy k = true ∧ owes v = false ∧ closes k = 0 ∧ i = 0 ∧ tasks k = [t].
Proof.
  intros H Hi. destruct (only_task _ _ _ (one_task _ _ _ _ H) Hi) as [-> E].
  pose proof (ci_task _ _ _ _ H) as Ht. pose proof (ci_closes _ _ _ _ H) as Hc. rewrite E in Ht. simpl in Ht.
  destruct (busy k), (owes v); simpl in *; try lia. rewrite andb_false_r in Hc. done.
Qed.

(** ** Every piece of code keeps the invariant of its connection *)
Ltac conn_auto := solve [simpl in *; intuition (try congruence)].
Lemma new_inv f (r o : Prop) : r → o → conn_inv VAway r o (newConn f).
Proof.
  intros Hr Ho. split; simpl; try done; try conn_auto. apply conn_data_new.
Qed.

Lemma receive_inv r o k data :
  conn_inv VAway r o k → r → conn_inv (VLines false false) r o (receive k data).
Proof.
  intros [H1 H2 H3 H4 H5 H6 H7 H8] Hr. destruct (proj1 H5 Hr) as [Hc _].
  split; simpl; try done; try conn_auto; [by apply receive_data|]. intros _. by destruct (H8 Hc) as [[??]?].
Qed.

Lemma splitPass_inv sd ol r o k k' res :
  conn_inv (VLines sd ol) r o k → splitPass k = (k', res) →
  conn_inv (match res with
            | PNoLine => VAfter sd ol
            | PContinue => VLines sd ol
            | PLimit => VAfter sd true
            | PPushed d => VLines (sd || d) ol
            end) r o k' ∧ fd k' = fd k.
Proof.
  intros [H1 H2 H3 H4 H5 H6 H7 H8] Hs. assert (Hc : closed k = false) by by apply H6.
  destruct (H8 Hc) as [-> Hover]. pose proof (splitPass_data _ _ _ H1 Hover Hs) as Hd. revert Hd. unfold splitPass in Hs.
  destruct (takeLine (inbox k)) as [[raw rest]|] eqn:Ht;
    repeat match type of Hs with context [if ?b then _ else _] => destruct b end; injection Hs as <- <-; intros Hd;
    (split; [|done]); split; simpl in *; try done; rewrite ?Hc in *; try conn_auto.
  destruct (busy k) eqn:Hb, sd; simpl in *; lia.
Qed.

Lemma after_inv (pc sd ol : bool) r o k :
  conn_inv (VAfter sd ol) r o k →
  conn_inv (VEnd (pc || (ol || inboxOver k))) r o (if sd then submitTask k else k).
Proof.
  intros [H1 H2 H3 H4 H5 H6 H7 H8]. assert (Hc : closed k = false) by by apply H6.
  assert (Hin : pc || (ol || inboxOver k) = false → settled k).
  { unfold inboxOver. destruct pc, ol; simpl; try done. intros Hl%N.ltb_ge. split; [by apply H8|done]. }
  destruct sd; split; simpl in *; try done; try conn_auto.
  - by apply submitTask_data.
  - rewrite length_app. simpl. lia.
Qed.

Lemma keep_inv r o k : conn_inv (VEnd false) r o k → conn_inv VAway r o k.
Proof. intros [H1 H2 H3 H4 H5 H6 H7 H8]. split; simpl in *; conn_auto. Qed.

Lemma erase_inv (r r' o : Prop) k : conn_inv (VEnd true) r o k → ¬ r' → conn_inv VDrop r' o k.
Proof. intros [H1 H2 H3 H4 H5 H6 H7 H8] Hr. split; simpl in *; conn_auto. Qed.

Lemma drop_inv (r o o' : Prop) k k' b :
  conn_inv VDrop r o k → dropLocked k = (k', b) → (o' ↔ o ∧ b = false) →
  conn_inv VAway r o' k' ∧ fd k' = fd k.
Proof.
  intros [H1 H2 H3 H4 H5 H6 H7 H8] Hd Ho. assert (Hc : closed k = false) by by apply H6.
  pose proof (dropLocked_data _ _ _ H1 Hd). injection Hd as <- <-. split; [|done].
  rewrite Hc in *. split; simpl in *; try done; [|conn_auto|].
  - rewrite Ho, H4. destruct (busy k); conn_auto.
  - rewrite H7. by destruct (busy k).
Qed.

Lemma start_inv v r o k i :
  conn_inv v r o k → tasks k !! i = Some TQueued → conn_inv v r o (setTask k i TLoop).
Proof.
  intros H Hi. pose proof (one_task _ _ _ _ H). destruct H. split; simpl; try done; [by apply start_data|].
  by rewrite length_insert.
Qed.

Lemma take_inv v r o k k' i q :
  conn_inv v r o k → tasks k !! i = Some TLoop → taskTake k i = (k', inl q) → conn_inv v r o k' ∧ fd k' = fd k.
Proof.
  intros H Hi Ht. destruct (task_busy _ _ _ _ _ _ H Hi) as (Hb & _ & _ & _). pose proof (one_task _ _ _ _ H).
  destruct H. assert (conn_data k') by by eapply taskTake_data. unfold taskTake in Ht.
  destruct (pending k); simplify_eq. split; [|done]. split; simpl in *; try done; [by rewrite length_insert|congruence].
Qed.

(** A task ends: the descriptor is closed with it exactly when the loop has
    dropped the connection. *)
Lemma ended_inv v (r o o' : Prop) k k' i t :
  conn_inv v r o k → tasks k !! i = Some t → conn_data k' →
  k' = mkConn (fd k) (inbox k) [] false (closed k) (delete i (tasks k)) (received k) (accepted k) (executed k)
         (overran k) (unwritten k) (if closed k then S (closes k) else closes k) →
  (o' ↔ o ∧ closed k = false) → conn_inv v r o' k'.
Proof.
  intros H Hi Hd -> Ho. destruct (task_busy _ _ _ _ _ _ H Hi) as (Hb & Hw & Hz & -> & Et).
  destruct H as [H1 H2 H3 H4 H5 H6 H7 H8]. split; simpl; try done.
  - rewrite Hw, Et. done.
  - rewrite Ho, H4. conn_auto.
  - rewrite Hz. by destruct (closed k).
Qed.

Lemma finish_inv v (r o o' : Prop) k k' i b :
  conn_inv v r o k → tasks k !! i = Some TLoop → taskTake k i = (k', inr b) → (o' ↔ o ∧ b = false) →
  conn_inv v r o' k' ∧ fd k' = fd k.
Proof.
  intros H Hi Ht Ho. pose proof (one_task _ _ _ _ H). assert (conn_data k') by (eapply taskTake_data; eauto using ci_data).
  unfold taskTake in Ht. destruct (pending k); simplify_eq. split; [|done]. by eapply ended_inv.
Qed.

Lemma fail_inv v (r o o' : Prop) k k' i b :
  conn_inv v r o k → tasks k !! i = Some TFailed → taskFail k i = (k', b) → (o' ↔ o ∧ b = false) →
  conn_inv v r o' k' ∧ fd k' = fd k.
Proof.
  intros H Hi Ht Ho. pose proof (one_task _ _ _ _ H). assert (conn_data k') by (eapply taskFail_data; eauto using ci_data).
  injection Ht as <- <-. split; [|done]. by eapply ended_inv.
Qed.

Lemma reply_inv v r o k i q :
  conn_inv v r o k → tasks k !! i = Some (TExec q) →
  conn_inv v r o (taskReplied k i q) ∧ conn_inv v r o (taskUnwritten k i).
Proof.
  intros H Hi. pose proof (one_task _ _ _ _ H). destruct H.
  split; split; simpl; rewrite ?length_insert; try done; [by apply taskReplied_data|by eapply taskUnwritten_data].
Qed.

(** ** The invariant of the server *)
Definition loop_conn (p : lphase) : option nat :=
  match p with LIdle => None | LLines c _ _ _ | LAfter c _ _ _ | LEnd c _ | LDrop c => Some c end.

Definition named (cs : gmap nat conn) (m : gmap nat nat) : Prop :=
  ∀ f c, m !! f = Some c → ∃ k, cs !! c = Some k ∧ fd k = f.

Record sinv (s : server) : Prop := {
  si_conn : ∀ c k, conns s !! c = Some k →
    conn_inv (view (phase s) c) (connections_ s !! fd k = Some c) (opened s !! fd k = Some c) k;
  si_registered : named (conns s) (connections_ s);
  si_opened : named (conns s) (opened s);
  si_loop : ∀ c, loop_conn (phase s) = Some c → is_Some (conns s !! c);
}.

Lemma view_away p c : loop_conn p ≠ Some c → view p c = VAway.
Proof. destruct p; simpl; try done; intros; by rewrite decide_False by congruence. Qed.

Lemma view_at p c : loop_conn p = Some c → view p c ≠ VAway.
Proof. destruct p; simpl; try done; intros [= ->]; by rewrite decide_True by done. Qed.

(** Only the connection [c] sees the difference of two tables. *)
Definition only_at (c : nat) (m m' : gmap nat nat) : Prop := ∀ f c', c' ≠ c → m' !! f = Some c' ↔ m !! f = Some c'.

Lemma only_at_refl c m : only_at c m m.
Proof. done. Qed.

Lemma only_at_delete c f m : m !! f = Some c → only_at c m (delete f m).
Proof. intros Hf f' c' Hne. rewrite lookup_delete_Some. naive_solver. Qed.

Lemma only_at_insert c f m : m !! f = None → only_at c m (<[f:=c]> m).
Proof. intros Hf f' c' Hne. rewrite lookup_insert_Some. naive_solver. Qed.

Lemma only_at_closeIf b c f m : (b = true → m !! f = Some c) → only_at c m (closeIf b f m).
Proof. destruct b; simpl; [intros H; apply only_at_delete; naive_solver|done]. Qed.

Lemma named_update cs m m' c k' :
  named cs m → only_at c m m' → (∀ f, m' !! f = Some c → fd k' = f) → named (<[c:=k']> cs) m'.
Proof.
  intros Hn Ho Hc f c' Hf. destruct (decide (c' = c)) as [->|Hne].
  { exists k'. rewrite lookup_insert_eq. auto. }
  destruct (Hn f c') as (k & ? & ?); [by apply Ho|]. exists k. by rewrite lookup_insert_ne.
Qed.

Lemma named_fd cs m c k f : named cs m → cs !! c = Some k → m !! f = Some c → fd k = f.
Proof. intros Hn Hk Hf. destruct (Hn f c Hf) as (k0 & ? & ?). congruence. Qed.

(** Only [c] sees the loop move. *)
Definition moves (c : nat) (p p' : lphase) : Prop :=
  p' = p ∨ ((loop_conn p = None ∨ loop_conn p = Some c) ∧ (loop_conn p' = None ∨ loop_conn p' = Some c)).

Lemma moves_view c c' p p' : moves c p p' → c' ≠ c → view p' c' = view p c'.
Proof. intros [->|[H1 H2]] Hne; [done|]. rewrite !view_away; naive_solver congruence. Qed.

(** A step that changes the connection [c] and what concerns it. *)
Lemma sinv_update m cs o p m' o' p' c k' :
  sinv (mkServer m cs o p) →
  moves c p p' →
  only_at c m m' → only_at c o o' →
  (∀ f, m' !! f = Some c → fd k' = f) → (∀ f, o' !! f = Some c → fd k' = f) →
  conn_inv (view p' c) (m' !! fd k' = Some c) (o' !! fd k' = Some c) k' →
  sinv (mkServer m' (<[c:=k']> cs) o' p').
Proof.
  intros [Hc Hr Ho Hl] Hp Hm Hop Hmc Hoc Hk. split; simpl in *.
  - intros c' k [[<- <-]|[Hne Hk']]%lookup_insert_Some; [done|].
    rewrite (moves_view _ _ _ _ Hp) by done.
    eapply conn_frame; [by apply Hc|by apply Hm|by apply Hop].
  - exact (named_update _ _ _ _ _ Hr Hm Hmc).
  - exact (named_update _ _ _ _ _ Ho Hop Hoc).
  - intros c' Hc'. destruct (decide (c' = c)) as [->|Hne]; [rewrite lookup_insert_eq; eauto|].
    rewrite lookup_insert_ne by done. apply Hl. destruct Hp as [->|[_ [?|?]]]; congruence.
Qed.

(** The same, where the tables stay. *)
Lemma sinv_local m cs o p p' c k k' :
  sinv (mkServer m cs o p) → cs !! c = Some k → fd k' = fd k →
  moves c p p' →
  conn_inv (view p' c) (m !! fd k = Some c) (o !! fd k = Some c) k' →
  sinv (mkServer m (<[c:=k']> cs) o p').
Proof.
  intros H Hk Hfd Hp Hk'. eapply sinv_update; eauto using only_at_refl; rewrite Hfd; try done.
  - intros f. exact (named_fd _ _ _ _ _ (si_registered _ H) Hk).
  - intros f. exact (named_fd _ _ _ _ _ (si_opened _ H) Hk).
Qed.

(** The same, where the descriptor may be closed. *)
Lemma sinv_close m cs o p p' c k k' b :
  sinv (mkServer m cs o p) → cs !! c = Some k → fd k' = fd k →
  moves c p p' →
  (b = true → o !! fd k = Some c) →
  (closeIf b (fd k) o !! fd k = Some c ↔ o !! fd k = Some c ∧ b = false →
   conn_inv (view p' c) (m !! fd k = Some c) (closeIf b (fd k) o !! fd k = Some c) k') →
  sinv (mkServer m (<[c:=k']> cs) (closeIf b (fd k) o) p').
Proof.
  intros H Hk Hfd Hp Hb Hk'. assert (Hiff : closeIf b (fd k) o !! fd k = Some c ↔ o !! fd k = Some c ∧ b = false).
  { destruct b; simpl; [rewrite lookup_delete_eq|]; naive_solver. }
  eapply sinv_update; eauto using only_at_refl, only_at_closeIf; rewrite ?Hfd; auto.
  - intros f. exact (named_fd _ _ _ _ _ (si_registered _ H) Hk).
  - intros f Hf. apply (named_fd _ _ _ _ _ (si_opened _ H) Hk).
    destruct b; simpl in Hf; [by apply lookup_delete_Some in Hf as [_ ?]|done].
Qed.

Lemma sinv_new : sinv newServer.
Proof. by split. Qed.

(** Descriptors that the kernel hands out are not in [connections_]. *)
Lemma fresh_fd m cs o p f : sinv (mkServer m cs o p) → p = LIdle → o !! f = None → m !! f = None.
Proof.
  intros H -> Hf. destruct (m !! f) as [c|] eqn:E; [|done].
  destruct (si_registered _ H _ _ E) as (k & Hk & <-). simpl in Hk. pose proof (si_conn _ H _ _ Hk) as Hi. simpl in Hi.
  destruct (proj1 (ci_registered _ _ _ _ Hi) E) as [Hc _]. rewrite (proj2 (ci_open _ _ _ _ Hi)) in Hf; naive_solver.
Qed.

Lemma view_self (c : nat) A (x y : A) : (if decide (c = c) then x else y) = x.
Proof. by rewrite decide_True. Qed.

(** A registered connection: what the loop does with it finds it open. *)
Lemma loop_registered m cs o p c k :
  sinv (mkServer m cs o p) → cs !! c = Some k → loop_conn p = Some c → (∀ c', p ≠ LDrop c') → m !! fd k = Some c.
Proof.
  intros H Hk Hp Hd. pose proof (si_conn _ H _ _ Hk) as Hi. apply (ci_registered _ _ _ _ Hi).
  split; [apply (ci_work _ _ _ _ Hi); by apply view_at|]. simpl. destruct p; simpl in *; simplify_eq; rewrite ?view_self; naive_solver.
Qed.


Ltac conn_of H Hk Hi :=
  pose proof (si_conn _ H _ _ Hk) as Hi; cbn [phase connections_ opened view] in Hi; rewrite ?view_self in Hi.

Lemma lstep_inv s s' : sinv s → lstep s s' → sinv s'.
Proof.
  intros H Hs. destruct Hs as [f c m cs o Hc Hf|f c k data pc m cs o Hf Hk|c k k' r pc sd ol m cs o Hk Hp
    |c k pc sd ol m cs o Hk|c m cs o|c k m cs o Hk Hm|c k c' m cs o Hk Hm|c k k' b m cs o Hk Hd].
  - assert (Hm : m !! f = None) by by eapply fresh_fd. unfold emplace. rewrite Hm.
    eapply sinv_update; eauto using only_at_insert; [by right; auto| | |]; simpl.
    + intros f' [[-> _]|[_ Hf']]%lookup_insert_Some; [done|]. destruct (si_registered _ H _ _ Hf') as (k & Hk & _). simpl in Hk. congruence.
    + intros f' [[-> _]|[_ Hf']]%lookup_insert_Some; [done|]. destruct (si_opened _ H _ _ Hf') as (k & Hk & _). simpl in Hk. congruence.
    + apply new_inv; by rewrite lookup_insert_eq.
  - assert (fd k = f) as <- by exact (named_fd _ _ _ _ _ (si_registered _ H) Hk Hf). conn_of H Hk Hi.
    eapply sinv_local; eauto; [by right; auto|]. simpl. rewrite view_self. by apply receive_inv.
  - conn_of H Hk Hi. destruct (splitPass_inv _ _ _ _ _ _ _ Hi Hp) as [Hi' Hfd].
    eapply sinv_local; eauto; [right; destruct r; auto|]. destruct r; simpl; rewrite view_self; done.
  - conn_of H Hk Hi. eapply sinv_local; eauto; [by destruct sd|by right; auto|]. simpl. rewrite view_self. by apply after_inv.
  - destruct (si_loop _ H c eq_refl) as [k Hk]. simpl in Hk. conn_of H Hk Hi.
    rewrite <- (insert_id cs c k Hk). eapply sinv_local; eauto; [by right; auto|]. by apply keep_inv.
  - assert (m !! fd k = Some c) by by eapply loop_registered. congruence.
  - assert (Hm' : m !! fd k = Some c) by by eapply loop_registered. assert (c' = c) as -> by congruence. conn_of H Hk Hi.
    rewrite <- (insert_id cs c k Hk). eapply sinv_update; eauto using only_at_refl, only_at_delete; [by right; auto| | |].
    + intros f [_ Hf]%lookup_delete_Some. exact (named_fd _ _ _ _ _ (si_registered _ H) Hk Hf).
    + intros f. exact (named_fd _ _ _ _ _ (si_opened _ H) Hk).
    + simpl. rewrite view_self. eapply erase_inv; [done|]. by rewrite lookup_delete_eq.
  - conn_of H Hk Hi. assert (Ho : o !! fd k = Some c).
    { apply (ci_open _ _ _ _ Hi). left. by apply (ci_work _ _ _ _ Hi). }
    eapply sinv_close; eauto; [by injection Hd as <- _|by right; auto|]. intros Hiff. simpl. by eapply drop_inv.
Qed.

Lemma tstep_inv s s' : sinv s → tstep s s' → sinv s'.
Proof.
  intros H (c & a & Hs). destruct Hs as [k i m cs o p Hk Hi|k k' i q m cs o p Hk Hi Ht|k k' i b m cs o p Hk Hi Ht
    |k k' i b m cs o p Hk Hi Ht]; conn_of H Hk Hc.
  - eapply sinv_local; eauto; [by left|]. by apply start_inv.
  - destruct (take_inv _ _ _ _ _ _ _ Hc Hi Ht). eapply sinv_local; eauto; by left.
  - eapply sinv_close; eauto; [|by left|..].
    + unfold taskTake in Ht. destruct (pending k); by simplify_eq.
    + intros _. apply (ci_open _ _ _ _ Hc). right. by apply (task_busy _ _ _ _ _ _ Hc Hi).
    + intros Hiff. by eapply finish_inv.
  - eapply sinv_close; eauto; [by injection Ht as <- _|by left|..].
    + intros _. apply (ci_open _ _ _ _ Hc). right. by apply (task_busy _ _ _ _ _ _ Hc Hi).
    + intros Hiff. by eapply fail_inv.
Qed.

Lemma astep_inv c q b s s' : sinv s → astep c q b s s' → sinv s'.
Proof.
  intros H Hs. destruct Hs as [k i m cs o p Hk Hi|k i m cs o p Hk Hi]; conn_of H Hk Hc.
  - eapply sinv_local; eauto; [by left|]. by apply reply_inv.
  - eapply sinv_local; eauto; [by left|]. by eapply reply_inv.
Qed.

Lemma sstep_inv s s' : sinv s → sstep s s' → sinv s'.
Proof. intros H [Hs|[Hs|(c & q & b & Hs)]]; eauto using lstep_inv, tstep_inv, astep_inv. Qed.

Lemma sinv_reachable s : rtc sstep newServer s → sinv s.
Proof. intros Hr. pose proof sinv_new as H. induction Hr; eauto using sstep_inv. Qed.
