(* ===== verification/TCPServerLive.v ===== *)
(** * TCP server: quiescence

    Every step of the server that is not caused from outside (a new client,
    bytes that arrive) decreases [effort], so that the server comes to rest;
    at rest, every query that was accepted has been answered. *)

From S2P Require Import Prelude TCPServer TCPServerSpec.

(** ** Steps that need nothing from outside *)
Definition istep (s s' : server) : Prop := wstep s s' ∨ (lstep s s' ∧ phase s ≠ LIdle).

Definition taskWork (t : tphase) : nat := match t with TQueued => 2 | TLoop => 1 | TExec _ => 2 | TFailed => 1 end.
Definition connWork (k : conn) : nat := sum_list (taskWork <$> tasks k) + 2 * length (pending k).
Definition totalWork (cs : gmap nat conn) : nat := map_fold (λ _ k n, connWork k + n) 0 cs.

Definition loopWork (cs : gmap nat conn) (p : lphase) : nat :=
  match p with
  | LIdle => 0
  | LLines c _ sd _ => 5 * (if cs !! c is Some k then String.length (inbox k) else 0) + 2 * one sd + 4
  | LAfter c _ sd _ => 2 * one sd + 3
  | LEnd _ _ => 2
  | LDrop _ => 1
  end.

Definition effort (s : server) : nat := totalWork (conns s) + loopWork (conns s) (phase s).

Lemma totalWork_lookup cs c k : cs !! c = Some k → totalWork cs = connWork k + totalWork (delete c cs).
Proof. intros Hk. unfold totalWork. apply (map_fold_delete_L (λ _ k n, connWork k + n)); [intros; lia|done]. Qed.

Lemma totalWork_insert cs c k k' :
  cs !! c = Some k → totalWork (<[c:=k']> cs) + connWork k = totalWork cs + connWork k'.
Proof.
  intros Hk. rewrite (totalWork_lookup cs c k) by done.
  rewrite (totalWork_lookup (<[c:=k']> cs) c k') by by rewrite lookup_insert_eq.
  rewrite delete_insert_eq. lia.
Qed.

(** Workers leave inboxes alone. *)
Lemma loopWork_insert cs p c k k' :
  cs !! c = Some k → inbox k' = inbox k → loopWork (<[c:=k']> cs) p = loopWork cs p.
Proof.
  intros Hk Hi. destruct p as [|c' pc sd ol| | |]; simpl; try done.
  destruct (decide (c' = c)) as [->|]; [by rewrite lookup_insert_eq, Hk, Hi|by rewrite lookup_insert_ne].
Qed.

Lemma work_insert (l : list tphase) i t t' :
  l !! i = Some t → sum_list (taskWork <$> <[i:=t']> l) + taskWork t = sum_list (taskWork <$> l) + taskWork t'.
Proof.
  revert i. induction l as [|x l IH]; intros [|i]; csimpl; try done; [intros [= ->]; lia|].
  intros Hi. specialize (IH _ Hi). lia.
Qed.

Lemma work_delete (l : list tphase) i t :
  l !! i = Some t → sum_list (taskWork <$> delete i l) + taskWork t = sum_list (taskWork <$> l).
Proof.
  revert i. induction l as [|x l IH]; intros [|i]; csimpl; try done; [intros [= ->]; lia|].
  intros Hi. specialize (IH _ Hi). lia.
Qed.

(** A worker's step takes work off its connection. *)
Lemma wstep_conn s s' :
  wstep s s' → ∃ c k k', conns s !! c = Some k ∧ conns s' = <[c:=k']> (conns s) ∧ phase s' = phase s ∧
    inbox k' = inbox k ∧ connWork k' < connWork k.
Proof.
  intros [(c & a & Hs)|(c & q & b & Hs)]; [destruct Hs as [k i m cs o p Hk Hi|k k' i q m cs o p Hk Hi Ht|k k' i b m cs o p Hk Hi Ht
    |k k' i b m cs o p Hk Hi Ht]|destruct Hs as [k i m cs o p Hk Hi|k i m cs o p Hk Hi]]; simpl;
    (eexists c, k, _; split_and!; [exact Hk|reflexivity|reflexivity|..]); try done; unfold connWork; simpl.
  - pose proof (work_insert _ _ _ TLoop Hi). simpl in *. lia.
  - unfold taskTake in Ht. destruct (pending k); by simplify_eq.
  - unfold taskTake in Ht. destruct (pending k) eqn:Hp; simplify_eq. simpl.
    pose proof (work_insert _ _ _ (TExec q) Hi). simpl in *. lia.
  - unfold taskTake in Ht. destruct (pending k); by simplify_eq.
  - unfold taskTake in Ht. destruct (pending k) eqn:Hp; simplify_eq. simpl. pose proof (work_delete _ _ _ Hi). simpl in *. lia.
  - by injection Ht as <- _.
  - injection Ht as <- _. simpl. pose proof (work_delete _ _ _ Hi). simpl in *. lia.
  - pose proof (work_insert _ _ _ TLoop Hi). simpl in *. lia.
  - pose proof (work_insert _ _ _ TFailed Hi). simpl in *. lia.
Qed.

Lemma wstep_effort s s' : wstep s s' → effort s' < effort s.
Proof.
  intros (c & k & k' & Hk & Hc & Hp & Hin & Hlt)%wstep_conn. unfold effort. rewrite Hc, Hp.
  rewrite (loopWork_insert _ _ _ _ _ Hk Hin). pose proof (totalWork_insert _ _ _ k' Hk). lia.
Qed.

Lemma takeLine_shorter s line rest : takeLine s = Some (line, rest) → String.length rest < String.length s.
Proof.
  revert line. induction s as [|c s IH]; intros line; cbn [takeLine]; [done|].
  case_bool_decide; [intros [= <- <-]; simpl; lia|].
  destruct (takeLine s) as [[l r]|]; [|done]. intros [= <- <-]. specialize (IH _ eq_refl). simpl. lia.
Qed.

(** A pass of the loop over lines: what it queues is paid by the bytes it takes. *)
Lemma splitPass_effort k k' r :
  splitPass k = (k', r) →
  match r with
  | PNoLine | PLimit => connWork k' = connWork k
  | PContinue => connWork k' = connWork k ∧ String.length (inbox k') < String.length (inbox k)
  | PPushed d => connWork k' = 2 + connWork k ∧ String.length (inbox k') < String.length (inbox k)
  end.
Proof.
  unfold splitPass. destruct (takeLine (inbox k)) as [[raw rest]|] eqn:Ht; [|by intros [= <- <-]].
  apply takeLine_shorter in Ht.
  repeat match goal with |- context [if ?b then _ else _] => destruct b end; intros [= <- <-]; simpl; try done.
  split; [|done]. unfold connWork. simpl. rewrite length_app. simpl. lia.
Qed.

Lemma lstep_effort s s' : lstep s s' → phase s ≠ LIdle → effort s' < effort s.
Proof.
  intros Hs. destruct Hs as [|f c k data pc m cs o Hf Hk|c k k' r pc sd ol m cs o Hk Hp
    |c k pc sd ol m cs o Hk|c m cs o|c k m cs o Hk Hm|c k c' m cs o Hk Hm|c k k' b m cs o Hk Hd];
    simpl; try done; intros _; unfold effort; simpl; try lia.
  - pose proof (splitPass_effort _ _ _ Hp) as He. pose proof (totalWork_insert _ _ _ k' Hk) as Ht.
    destruct r as [| | |d]; simpl; rewrite ?lookup_insert_eq, ?Hk; [lia|lia|destruct sd; simpl; lia|].
    destruct sd, d; simpl; lia.
  - pose proof (totalWork_insert _ _ _ (if sd then submitTask k else k) Hk). destruct sd; simpl; [|lia].
    unfold connWork, submitTask in *. simpl in *. rewrite fmap_app, sum_list_with_app in *. simpl in *. lia.
  - pose proof (totalWork_insert _ _ _ k' Hk). injection Hd as <- _. unfold connWork in *. simpl in *. lia.
Qed.

Lemma istep_effort s s' : istep s s' → effort s' < effort s.
Proof. intros [Hs|[Hs Hp]]; eauto using wstep_effort, lstep_effort. Qed.

Lemma nsteps_effort n s s' : nsteps istep n s s' → n + effort s' ≤ effort s.
Proof. induction 1 as [|n s1 s2 s3 Hs%istep_effort _ IH]; lia. Qed.

(** ** Progress *)
Lemma loop_progress m cs o p : sinv (mkServer m cs o p) → p ≠ LIdle → ∃ s', lstep (mkServer m cs o p) s'.
Proof.
  intros H Hp. assert (∃ c, loop_conn p = Some c) as [c Hc] by (destruct p; simpl; eauto; done).
  destruct (si_loop _ H c Hc) as [k Hk]. simpl in Hk. destruct p as [|? pc sd ol|? pc sd ol|? [|]|?]; simplify_eq/=.
  - destruct (splitPass k) as [k' r] eqn:Hs. eexists. by eapply s_pass.
  - eexists. by eapply s_after.
  - destruct (m !! fd k) as [c'|] eqn:Hm; eexists; [by eapply s_erase|by eapply s_gone].
  - eexists. by eapply s_keep.
  - destruct (dropLocked k) as [k' b] eqn:Hd. eexists. by eapply s_drop.
Qed.

(** A task outside [execute] takes its next step. *)
Lemma other_task_progress m cs o p c k i t :
  cs !! c = Some k → tasks k !! i = Some t → (∀ q, t ≠ TExec q) → ∃ s', tstep (mkServer m cs o p) s'.
Proof.
  intros Hk Hi Hq. destruct t as [| |q|]; [| |by destruct (Hq q)|].
  - eexists _, c, _. by eapply s_start.
  - destruct (taskTake k i) as [k' [q|b]] eqn:Ht; eexists _, c, _; [by eapply s_take|by eapply s_finish].
  - destruct (taskFail k i) as [k' b] eqn:Ht. eexists _, c, _. by eapply s_fail.
Qed.

Lemma task_progress m cs o p c k i t :
  cs !! c = Some k → tasks k !! i = Some t → ∃ s', wstep (mkServer m cs o p) s'.
Proof.
  intros Hk Hi. destruct t as [| |q|]; [| |eexists; right; exists c, q, true; by eapply s_reply|];
    destruct (other_task_progress m cs o p c k i _ Hk Hi) as [s' Hs]; try done; exists s'; by left.
Qed.

(** At rest: the loop waits for events and no task is left. *)
Lemma rest_drained s : sinv s → (∀ s', ¬ istep s s') → drained s.
Proof.
  intros H Hn. destruct s as [m cs o p]. split; simpl.
  - destruct (decide (loop_conn p = None)) as [|Hp]; [by destruct p|].
    destruct (loop_progress m cs o p H) as [s' Hs]; [by intros ->|]. destruct (Hn s'). right. split; [done|]. simpl. by intros ->.
  - intros c k Hk. destruct (tasks k) as [|t l] eqn:Ht; [done|].
    destruct (task_progress m cs o p c k 0 t) as [s' Hs]; [done|by rewrite Ht|]. destruct (Hn s'). by left.
Qed.

(** What being drained means for a connection. *)
Lemma drained_conn s c k :
  sinv s → drained s → conns s !! c = Some k →
  busy k = false ∧ pending k = [] ∧ (unwritten k = false → executed k = accepted k) ∧ (closed k = false → settled k).
Proof.
  intros H [Hp Ht] Hk. pose proof (si_conn _ H _ _ Hk) as Hi. rewrite Hp in Hi. simpl in Hi.
  specialize (Ht _ _ Hk). simpl in Ht. pose proof (ci_task _ _ _ _ Hi) as Hb. rewrite Ht in Hb. simpl in Hb.
  destruct (busy k) eqn:Eb; [simpl in Hb; lia|]. pose proof (ci_idle _ _ _ _ Hi Eb) as Hpe. split_and!; try done.
  - intros Hu. destruct (cd_exact _ (ci_data _ _ _ _ Hi) Hu) as [<- _]. unfold current. by rewrite Ht, Hpe, app_nil_r.
  - apply (ci_inbox _ _ _ _ Hi).
Qed.

(** ** Shutting down *)

(** Drained, the kernel's table of the clients' descriptors is [connections_]. *)
Lemma drained_tables s : sinv s → drained s → opened s = connections_ s.
Proof.
  intros H Hd. apply map_eq. intros f. apply option_eq. intros c. split; intros Hf.
  - destruct (si_opened _ H _ _ Hf) as (k & Hk & <-). destruct (drained_conn _ _ _ H Hd Hk) as (Hb & _ & _ & _).
    pose proof (si_conn _ H _ _ Hk) as Hi. apply (ci_registered _ _ _ _ Hi). destruct Hd as [Hp _]. rewrite Hp in *.
    split; [|done]. apply (ci_open _ _ _ _ Hi) in Hf as [?|?]; [done|congruence].
  - destruct (si_registered _ H _ _ Hf) as (k & Hk & <-). pose proof (si_conn _ H _ _ Hk) as Hi.
    apply (ci_open _ _ _ _ Hi). left. by apply (ci_registered _ _ _ _ Hi).
Qed.

Lemma closeAll_lookup m o f : closeAll m o !! f = if decide (is_Some (m !! f)) then None else o !! f.
Proof.
  unfold closeAll. assert (H : ∀ l : list (nat * nat), foldr (λ e, delete e.1) o l !! f = if decide (f ∈ l.*1) then None else o !! f).
  { induction l as [|[f' c] l IH]; rewrite ?fmap_nil, ?fmap_cons; cbn [foldr fst].
    { rewrite decide_False; [done|]. by apply not_elem_of_nil. }
    destruct (decide (f' = f)) as [->|Hne].
    - rewrite lookup_delete_eq, decide_True; [done|]. by left.
    - rewrite lookup_delete_ne, IH by done. apply decide_ext. rewrite elem_of_cons. naive_solver. }
  rewrite H. apply decide_ext. split.
  - intros ([f' c] & -> & Hm%elem_of_map_to_list)%list_elem_of_fmap. by exists c.
  - intros [c Hc%elem_of_map_to_list]. apply list_elem_of_fmap. by exists (f, c).
Qed.

Lemma destroyServer_closes s : sinv s → drained s → opened (destroyServer s) = ∅.
Proof.
  intros H Hd. apply map_eq. intros f. simpl. rewrite closeAll_lookup, (drained_tables s), lookup_empty by done.
  case_decide as Hn; [done|]. by apply eq_None_not_Some.
Qed.
