(* ===== verification/TCPRun.v ===== *)
(** * TCP server: [run], [stop] and [writeAll] (src/network/tcp_server.cpp)

    [run] waits for events until [running_] is false; [stop], from any thread or
    a signal handler, clears the flag and then writes a byte to the wake pipe.
    The two writes of [stop] are separate steps.  What the handlers of client
    events do is the subject of [TCPServer]; they touch neither the flag nor
    the pipe. *)

From S2P Require Import Prelude.

(** ** The loop of [run] *)
Inductive event := EWake | EListen | EClient (fd : nat).

(** [events.size()] *)
Definition kMaxEvents : nat := 64.

Inductive rphase :=
  | ROutside                     (* run is not called, or has returned or thrown *)
  | RCheck                       (* at the loop condition *)
  | RWait                        (* in kevent *)
  | REvents (events : list event).

Record runState := mkRun {
  running_ : bool;
  wakePipe_ : nat;      (* bytes in the pipe *)
  runner : rphase;
  stopping : nat;       (* stop calls between their two writes *)
  stops : nat;          (* stop calls completed *)
}.

Definition newRun : runState := mkRun false 0 ROutside 0 0.

(** What kevent may report: at least one event, at most what fits in the array,
    the pipe only when it holds a byte. *)
Definition reported (s : runState) (events : list event) : Prop :=
  events ≠ [] ∧ length events ≤ kMaxEvents ∧ (EWake ∈ events → 0 < wakePipe_ s).

(** The thread that runs the loop. *)
Inductive rstep : runState → runState → Prop :=
  | r_check s :
      runner s = RCheck →
      rstep s (mkRun (running_ s) (wakePipe_ s) (if running_ s then RWait else ROutside) (stopping s) (stops s))
  | r_events s events :
      runner s = RWait → reported s events →
      rstep s (mkRun (running_ s) (wakePipe_ s) (REvents events) (stopping s) (stops s))
  | r_interrupted s :
      runner s = RWait → rstep s (mkRun (running_ s) (wakePipe_ s) RCheck (stopping s) (stops s))
  | r_throw s :
      runner s = RWait → rstep s (mkRun (running_ s) (wakePipe_ s) ROutside (stopping s) (stops s))
  | r_drain s rest :
      runner s = REvents (EWake :: rest) →
      rstep s (mkRun (running_ s) 0 (REvents rest) (stopping s) (stops s))
  | r_handle s e rest :
      runner s = REvents (e :: rest) → e ≠ EWake →
      rstep s (mkRun (running_ s) (wakePipe_ s) (REvents rest) (stopping s) (stops s))
  | r_again s :
      runner s = REvents [] → rstep s (mkRun (running_ s) (wakePipe_ s) RCheck (stopping s) (stops s)).

(** Callers: of [run], and of [stop]. *)
Inductive cstep : runState → runState → Prop :=
  | c_run s : runner s = ROutside → cstep s (mkRun true (wakePipe_ s) RCheck (stopping s) (stops s))
  | c_stop_store s : cstep s (mkRun false (wakePipe_ s) (runner s) (S (stopping s)) (stops s))
  | c_stop_write s n :
      stopping s = S n → cstep s (mkRun (running_ s) (S (wakePipe_ s)) (runner s) n (S (stops s))).

Definition runstep (s s' : runState) : Prop := rstep s s' ∨ cstep s s'.

(** A loop that waits with the flag cleared has a byte, or is about to get one. *)
Definition wakes (s : runState) : Prop := runner s = RWait → running_ s = false → 0 < wakePipe_ s + stopping s.

Lemma wakes_step s s' : wakes s → runstep s s' → wakes s'.
Proof.
  unfold wakes. intros H [Hs|Hs]; destruct Hs; simpl in *; try done; try congruence; try lia.
  by destruct (running_ s).
Qed.

Lemma wakes_reachable s : rtc runstep newRun s → wakes s.
Proof.
  intros Hr. assert (H : wakes newRun) by done. induction Hr as [|s1 s2 s3 Hs _ IH]; eauto using wakes_step.
Qed.

(** Steps the loop still makes once the flag is cleared. *)
Definition rank (p : rphase) : nat :=
  match p with ROutside => 0 | RCheck => 1 | REvents events => 2 + length events | RWait => 3 + kMaxEvents end.

Lemma rstep_rank s s' : rstep s s' → running_ s = false → rank (runner s') < rank (runner s) ∧ running_ s' = false.
Proof.
  intros Hs Hf. destruct Hs as [s Hr|s events Hr (_ & Hl & _)|s Hr|s Hr|s rest Hr|s e rest Hr|s Hr]; simpl; rewrite Hr, ?Hf; simpl; split; try done; lia.
Qed.

Lemma nsteps_rank n s s' : nsteps rstep n s s' → running_ s = false → n + rank (runner s') ≤ rank (runner s) ∧ running_ s' = false.
Proof.
  induction 1 as [|n s1 s2 s3 Hs _ IH]; intros Hf; [split; [lia|done]|].
  destruct (rstep_rank _ _ Hs Hf) as [? Hf2]. destruct (IH Hf2) as [? ?]. split; [lia|done].
Qed.

Lemma rank_bound p : (∀ events, p = REvents events → length events ≤ kMaxEvents) → rank p ≤ 3 + kMaxEvents.
Proof. intros H. destruct p; simpl; try lia. specialize (H _ eq_refl). lia. Qed.

Definition batch_ok (s : runState) : Prop := ∀ events, runner s = REvents events → length events ≤ kMaxEvents.

Lemma batch_reachable s : rtc runstep newRun s → batch_ok s.
Proof.
  intros Hr. assert (H : batch_ok newRun) by done. induction Hr as [|s1 s2 s3 Hs _ IH]; [done|]. apply IH. clear IH.
  unfold batch_ok in *. intros evs. destruct Hs as [Hs|Hs].
  - destruct Hs as [s Hr|s events Hr (_ & Hl & _)|s Hr|s Hr|s rest Hr|s e rest Hr|s Hr]; simpl;
      [by destruct (running_ s)|congruence|done|done| | |done]; intros [= <-]; specialize (H _ Hr); simpl in H; lia.
  - destruct Hs; simpl; [done|apply H|apply H].
Qed.

(** The loop can always move, except while it waits for an event. *)
Lemma rstep_progress s : runner s ≠ ROutside → runner s ≠ RWait → ∃ s', rstep s s'.
Proof.
  intros Ho Hw. destruct (runner s) as [| | |[|[| |f] rest]] eqn:Hr; try done; eexists;
    [by apply r_check|by apply r_again|by eapply r_drain|by eapply r_handle|by eapply r_handle].
Qed.

(** ** [writeAll]

    The kernel's answers to the calls of [send] are a list: some bytes taken, or
    the socket is full and [poll] then reports it writable or not in time, or the
    call is interrupted, or it fails. *)
Inductive sendResult := Sent (n : nat) | WouldBlock (writable : bool) | Interrupted | SendError.

Fixpoint takeBytes (n : nat) (s : string) : string :=
  match n, s with
  | S n', String c s' => String c (takeBytes n' s')
  | _, _ => EmptyString
  end.

Fixpoint dropBytes (n : nat) (s : string) : string :=
  match n, s with
  | S n', String _ s' => dropBytes n' s'
  | _, _ => s
  end.

(** The result, none while the answers do not decide it, and the bytes sent;
    [data] is what is left to send. *)
Fixpoint writeAll (data written : string) (kernel : list sendResult) : option bool * string :=
  match data with
  | EmptyString => (Some true, written)
  | _ =>
    match kernel with
    | [] => (None, written)
    | Sent 0 :: _ => (Some false, written)
    | Sent n :: kernel' => writeAll (dropBytes n data) (written +:+ takeBytes n data) kernel'
    | WouldBlock writable :: kernel' => if writable then writeAll data written kernel' else (Some false, written)
    | Interrupted :: kernel' => writeAll data written kernel'
    | SendError :: _ => (Some false, written)
    end
  end.

Lemma take_drop_bytes n s : takeBytes n s +:+ dropBytes n s = s.
Proof. revert s. induction n as [|n IH]; intros [|c s]; simpl; try done. rewrite string_app_cons. by rewrite IH. Qed.

Lemma dropBytes_length n s : String.length (dropBytes n s) = String.length s - n.
Proof. revert s. induction n as [|n IH]; intros [|c s]; simpl; try done. Qed.

(** What is sent is a beginning of the data, all of it exactly on success. *)
Lemma writeAll_spec kernel data written :
  let '(r, w) := writeAll data written kernel in
  ∃ rest, w +:+ rest = written +:+ data ∧ (r = Some true ↔ rest = "").
Proof.
  revert data written. induction kernel as [|a kernel IH]; intros [|c data] written; cbn [writeAll].
  1,3: by exists "".
  - by exists (String c data).
  - destruct a as [[|n]|[|]| |]; try (by exists (String c data)); try apply IH.
    specialize (IH (dropBytes (S n) (String c data)) (written +:+ takeBytes (S n) (String c data))).
    destruct (writeAll _ _ _) as [r w]. destruct IH as (rest & Hw & Hr). exists rest. split; [|done].
    by rewrite Hw, string_append_assoc, take_drop_bytes.
Qed.

(** An answer that lets the call go on, and whether bytes were taken. *)
Definition goesOn (a : sendResult) : bool :=
  match a with Sent 0 | SendError | WouldBlock false => false | _ => true end.
Definition takesBytes (a : sendResult) : bool := match a with Sent (S _) => true | _ => false end.

(** With as many answers that take bytes as there are bytes, the call succeeds. *)
Lemma writeAll_finishes kernel data written :
  Forall (λ a, goesOn a = true) kernel →
  String.length data ≤ length (base.filter (λ a, takesBytes a = true) kernel) →
  writeAll data written kernel = (Some true, written +:+ data).
Proof.
  revert data written. induction kernel as [|a kernel IH]; intros [|c data] written Hg Hl; cbn [writeAll].
  1,3: by rewrite string_append_nil.
  { simpl in Hl. lia. }
  apply Forall_cons in Hg as [Ha Hg]. rewrite filter_cons in Hl.
  destruct a as [[|n]|[|]| |]; try done; simpl takesBytes in Hl;
    [rewrite decide_True in Hl by done|rewrite decide_False in Hl by done|rewrite decide_False in Hl by done]; try by apply IH.
  rewrite IH; [by rewrite string_append_assoc, take_drop_bytes|done|].
  rewrite dropBytes_length. simpl in Hl |- *. lia.
Qed.
