(* ===== verification/TCPLoop.v ===== *)
(** * TCP server: the code of the event loop (src/network/tcp_server.cpp)

    [acceptClients], [handleReadable], [dropConnection] and the body of [run] as
    functions of the kernel's answers, and that each is a run of the steps of
    [TCPServer].  (There the steps are apart so that workers can run in between.)
    Where a list of answers ends, the kernel has nothing more ([EWOULDBLOCK]). *)

From S2P Require Import Prelude TCPServer TCPServerSpec TCPServerLive.

(** ** [acceptClients] *)

(** What [accept] answers; for a new client, whether [kevent] registers it. *)
Inductive acceptAnswer := Accepted (clientFd : nat) (registered : bool) | NoClient | AcceptInterrupted | AcceptError.

(** A new object for a connection. *)
Definition newObject (s : server) : nat := fresh (dom (conns s)).

Definition acceptOne (f : nat) (s : server) : server :=
  let c := newObject s in
  mkServer (emplace f c (connections_ s)) (<[c:=newConn f]> (conns s)) (<[f:=c]> (opened s)) (phase s).

Fixpoint acceptClients (answers : list acceptAnswer) (s : server) : server :=
  match answers with
  | [] => s
  | Accepted f true :: rest => acceptClients rest (acceptOne f s)
  | Accepted _ false :: rest => acceptClients rest s   (* closed at once *)
  | AcceptInterrupted :: rest => acceptClients rest s
  | NoClient :: _ | AcceptError :: _ => s
  end.

(** The kernel hands out free numbers. *)
Fixpoint accept_ok (answers : list acceptAnswer) (s : server) : Prop :=
  match answers with
  | [] => True
  | Accepted f true :: rest => opened s !! f = None ∧ accept_ok rest (acceptOne f s)
  | Accepted _ false :: rest | AcceptInterrupted :: rest => accept_ok rest s
  | NoClient :: _ | AcceptError :: _ => True
  end.

Lemma acceptOne_step f s : phase s = LIdle → opened s !! f = None → lstep s (acceptOne f s).
Proof.
  destruct s as [m cs o p]. simpl. intros -> Hf. unfold acceptOne, newObject. simpl. apply s_accept; [|done].
  apply not_elem_of_dom, is_fresh.
Qed.

Lemma acceptClients_steps answers s :
  phase s = LIdle → accept_ok answers s →
  rtc lstep s (acceptClients answers s) ∧ phase (acceptClients answers s) = LIdle.
Proof.
  revert s. induction answers as [|[f [|]| | |] answers IH]; intros s Hp Hok; simpl in *; try done; try by apply IH.
  destruct Hok as [Hf Hok]. destruct (IH (acceptOne f s) Hp Hok) as [Hr Hp']. split; [|done].
  eapply rtc_l; [by apply acceptOne_step|done].
Qed.

(** ** [handleReadable] *)
Inductive readAnswer := Bytes (data : string) | Eof | ReadAgain | ReadInterrupted | ReadError.

(** The read loop: the bytes, and whether the peer is gone. *)
Fixpoint readAll (answers : list readAnswer) : string * bool :=
  match answers with
  | [] => ("", false)
  | Bytes data :: rest => let '(more, peerClosed) := readAll rest in (data +:+ more, peerClosed)
  | ReadInterrupted :: rest => readAll rest
  | ReadAgain :: _ => ("", false)
  | Eof :: _ | ReadError :: _ => ("", true)
  end.

(** The loop over complete lines: the connection, [shouldDispatch], [overLimit]. *)
Fixpoint splitLoop (fuel : nat) (k : conn) (sd : bool) : result (conn * bool * bool) :=
  match fuel with
  | 0 => Undef
  | S fuel' =>
    match splitPass k with
    | (k', PNoLine) => Val (k', sd, false)
    | (k', PContinue) => splitLoop fuel' k' sd
    | (k', PLimit) => Val (k', sd, true)
    | (k', PPushed d) => splitLoop fuel' k' (sd || d)
    end
  end.

(** [dropConnection(fd)] *)
Definition dropConnection (f : nat) (s : server) : server :=
  match connections_ s !! f with
  | None => s
  | Some c =>
    match conns s !! c with
    | None => s
    | Some k =>
      let '(k', b) := dropLocked k in
      mkServer (delete f (connections_ s)) (<[c:=k']> (conns s)) (closeIf b (fd k) (opened s)) (phase s)
    end
  end.

Definition handleReadable (c : nat) (answers : list readAnswer) (s : server) : result server :=
  let '(data, peerClosed) := readAll answers in
  k ← deref (conns s !! c);
  let k1 := receive k data in
  '(k2, shouldDispatch, overLimit) ← splitLoop (S (String.length (inbox k1))) k1 false;
  let k3 := if shouldDispatch : bool then submitTask k2 else k2 in
  let s' := mkServer (connections_ s) (<[c:=k3]> (conns s)) (opened s) (phase s) in
  Val (if peerClosed || (overLimit || inboxOver k2) then dropConnection (fd k) s' else s').

(** Every pass of the loop takes bytes off the inbox. *)
Lemma splitLoop_total fuel k sd :
  String.length (inbox k) < fuel → ∃ k' sd' ol, splitLoop fuel k sd = Val (k', sd', ol) ∧ fd k' = fd k.
Proof.
  revert k sd. induction fuel as [|fuel IH]; intros k sd Hf; [lia|]. simpl.
  destruct (splitPass k) as [k' r] eqn:Hp. pose proof (splitPass_effort _ _ _ Hp) as He.
  assert (Hfd : fd k' = fd k) by (unfold splitPass in Hp; repeat (case_match; simplify_eq; try done)).
  rewrite <- Hfd. destruct r as [| | |d]; [by eexists _, _, _|destruct He as [_ He]; apply IH; lia|by eexists _, _, _|].
  destruct He as [_ He]. apply IH. lia.
Qed.

Lemma splitLoop_steps fuel c k sd pc m cs o k' sd' ol :
  cs !! c = Some k → splitLoop fuel k sd = Val (k', sd', ol) →
  rtc lstep (mkServer m cs o (LLines c pc sd false)) (mkServer m (<[c:=k']> cs) o (LAfter c pc sd' ol)).
Proof.
  revert k sd cs. induction fuel as [|fuel IH]; intros k sd cs Hk; [done|]. simpl.
  destruct (splitPass k) as [k1 r] eqn:Hp. intros Hl. eapply rtc_l; [by eapply s_pass|].
  destruct r as [| | |d]; [by simplify_eq/=| |by simplify_eq/=|];
    (rewrite <- (insert_insert_eq cs c k' k1); apply (IH k1); [by rewrite lookup_insert_eq|done]).
Qed.

Lemma dropConnection_steps c k m cs o :
  sinv (mkServer m cs o (LEnd c true)) → cs !! c = Some k →
  rtc lstep (mkServer m cs o (LEnd c true)) (dropConnection (fd k) (mkServer m cs o LIdle)).
Proof.
  intros H Hk. assert (Hm : m !! fd k = Some c) by by eapply loop_registered.
  unfold dropConnection. simpl. rewrite Hm, Hk.
  eapply rtc_l; [by eapply s_erase|]. apply rtc_once. by apply s_drop.
Qed.

(** ** Functions are runs of steps *)
Lemma handleReadable_steps f c answers s :
  sinv s → phase s = LIdle → connections_ s !! f = Some c →
  ∃ s', handleReadable c answers s = Val s' ∧ rtc lstep s s' ∧ phase s' = LIdle.
Proof.
  intros H Hp Hc. destruct s as [m cs o p]. simpl in *. subst p.
  destruct (si_registered _ H _ _ Hc) as (k & Hk & <-). simpl in Hk. unfold handleReadable.
  destruct (readAll answers) as [data pc]. cbn [conns]. rewrite Hk. cbn [deref mbind result_bind inbox receive].
  destruct (splitLoop_total (S (String.length (inbox k +:+ data))) (receive k data) false) as (k2 & sd & ol & Hl & Hfd); [simpl; lia|].
  rewrite Hl. cbn [mbind result_bind]. eexists. split; [done|].
  assert (Hsteps : rtc lstep (mkServer m cs o LIdle)
    (mkServer m (<[c:=if sd then submitTask k2 else k2]> cs) o (LEnd c (pc || (ol || inboxOver k2))))).
  { eapply rtc_l; [by eapply (s_read _ _ _ data pc)|]. etrans; [eapply splitLoop_steps; [by rewrite lookup_insert_eq|done]|].
    rewrite insert_insert_eq. apply rtc_once.
    pose proof (s_after c k2 pc sd ol m (<[c:=k2]> cs) o) as Ha. rewrite lookup_insert_eq, insert_insert_eq in Ha. by apply Ha. }
  assert (Hs' : sinv (mkServer m (<[c:=if sd then submitTask k2 else k2]> cs) o (LEnd c (pc || (ol || inboxOver k2))))).
  { clear -H Hsteps. induction Hsteps; eauto using lstep_inv. }
  destruct (pc || (ol || inboxOver k2)).
  - assert (fd (if sd then submitTask k2 else k2) = fd k) as Hfd' by by destruct sd.
    split; [etrans; [exact Hsteps|]; rewrite <- Hfd'; apply dropConnection_steps; [done|by rewrite lookup_insert_eq]|].
    unfold dropConnection. simpl. by repeat (case_match; simpl).
  - split; [|done]. etrans; [exact Hsteps|]. apply rtc_once, s_keep.
Qed.

(** ** A batch of events *)
Inductive loopEvent := OnListen (answers : list acceptAnswer) | OnWake | OnClient (f : nat) (answers : list readAnswer).

(** The body of the [for] in [run]. *)
Definition handleEvent (e : loopEvent) (s : server) : result server :=
  match e with
  | OnWake => Val s
  | OnListen answers => Val (acceptClients answers s)
  | OnClient f answers =>
    match connections_ s !! f with
    | None => Val s
    | Some c => handleReadable c answers s
    end
  end.

Fixpoint handleEvents (events : list loopEvent) (s : server) : result server :=
  match events with
  | [] => Val s
  | e :: rest => s' ← handleEvent e s; handleEvents rest s'
  end.

Fixpoint events_ok (events : list loopEvent) (s : server) : Prop :=
  match events with
  | [] => True
  | e :: rest =>
    (if e is OnListen answers then accept_ok answers s else True) ∧
    ∀ s', handleEvent e s = Val s' → events_ok rest s'
  end.

Lemma handleEvents_steps events s :
  sinv s → phase s = LIdle → events_ok events s →
  ∃ s', handleEvents events s = Val s' ∧ rtc lstep s s' ∧ phase s' = LIdle.
Proof.
  revert s. induction events as [|e events IH]; intros s H Hp Hok; [by exists s|]. destruct Hok as [He Hrest]. simpl.
  assert (∃ s1, handleEvent e s = Val s1 ∧ rtc lstep s s1 ∧ phase s1 = LIdle) as (s1 & Hs1 & Hr1 & Hp1).
  { destruct e as [answers| |f answers]; simpl.
    - eexists. split; [done|]. by apply acceptClients_steps.
    - by exists s.
    - destruct (connections_ s !! f) as [c|] eqn:Hf; [by eapply handleReadable_steps|by exists s]. }
  rewrite Hs1. simpl. destruct (IH s1) as (s2 & Hs2 & Hr2 & Hp2); [|done|by apply Hrest|].
  { clear -H Hr1. induction Hr1; eauto using lstep_inv. }
  exists s2. split; [done|]. split; [by etrans|done].
Qed.

(** ** [run]: the waits for events, until [running_] is false or a wait fails *)
Inductive waitAnswer := WaitEvents (events : list loopEvent) | WaitInterrupted | WaitError (text : string).

(** The state of the server, and the exception that [run] throws if any. *)
Fixpoint run (waits : list waitAnswer) (s : server) : result (server * option exn) :=
  match waits with
  | [] => Val (s, None)
  | WaitInterrupted :: rest => run rest s
  | WaitError text :: _ => Val (s, Some (RuntimeError ("TCPServer: kevent wait: " +:+ text)))
  | WaitEvents events :: rest => s' ← handleEvents events s; run rest s'
  end.

Fixpoint waits_ok (waits : list waitAnswer) (s : server) : Prop :=
  match waits with
  | [] | WaitError _ :: _ => True
  | WaitInterrupted :: rest => waits_ok rest s
  | WaitEvents events :: rest => events_ok events s ∧ ∀ s', handleEvents events s = Val s' → waits_ok rest s'
  end.

Lemma run_steps waits s :
  sinv s → phase s = LIdle → waits_ok waits s →
  ∃ s' e, run waits s = Val (s', e) ∧ rtc lstep s s' ∧ phase s' = LIdle.
Proof.
  revert s. induction waits as [|[events| |text] waits IH]; intros s H Hp Hok; simpl in *; [by exists s, None| |by apply IH|by eexists s, _].
  destruct Hok as [He Hok]. destruct (handleEvents_steps events s H Hp He) as (s1 & Hs1 & Hr1 & Hp1). rewrite Hs1. simpl.
  destruct (IH s1) as (s2 & e & Hs2 & Hr2 & Hp2); [|done|by apply Hok|].
  { clear -H Hr1. induction Hr1; eauto using lstep_inv. }
  exists s2, e. split; [done|]. split; [by etrans|done].
Qed.

Lemma run_throws waits s s' e :
  run waits s = Val (s', e) → is_Some e ↔ Exists (λ w, if w is WaitError _ then True else False) waits.
Proof.
  revert s. induction waits as [|[events| |text] waits IH]; intros s; simpl; rewrite ?Exists_nil, ?Exists_cons.
  - intros [= _ <-]. by split; [intros [? ?]|].
  - destruct (handleEvents events s) as [s1| |]; simpl; try done. intros ->%IH. naive_solver.
  - intros ->%IH. naive_solver.
  - intros [= _ <-]. naive_solver.
Qed.
