(* ===== verification/TCPServerMain.v ===== *)
(** * TCP server: theorems

    A client's queries run one at a time and in order, descriptors are used and
    closed by their owners only, the limits bound what a client can make the
    server hold, the server comes to rest, and [stop] ends [run]. *)

From S2P Require Import Prelude TCPServer TCPServerSpec TCPServerLive TCPRun TCPLoop.

(** C7: The strand of a connection.  However the event loop and the workers
    interleave, and however the bytes arrive in pieces: a connection has at most
    one task at a time, and the queries answered, the one in execution and those
    that wait are, in this order, queries that the client's bytes spell; as long
    as no reply failed to be written they are exactly the first of them, none
    left out, repeated or reordered. *)
Theorem server_strand s c k :
  rtc sstep newServer s → conns s !! c = Some k →
  length (tasks k) ≤ 1 ∧
  executed k ++ current k ++ pending k `sublist_of` queries_of (received k) ∧
  (unwritten k = false → executed k ++ current k ++ pending k `prefix_of` queries_of (received k)).
Proof.
  intros Hr%sinv_reachable Hk. pose proof (si_conn _ Hr _ _ Hk) as Hi. pose proof (ci_data _ _ _ _ Hi) as Hd.
  split_and!; [by eapply one_task| |].
  - destruct (cd_prefix _ Hd) as [more ->]. apply sublist_inserts_r, (cd_order _ Hd).
  - intros Hu. destruct (cd_exact _ Hd Hu) as [-> _]. apply (cd_prefix _ Hd).
Qed.

(** C17: Descriptors.  A task only ever runs while its client's descriptor is
    open and still that client's, although the kernel reuses numbers and the
    loop may have dropped the connection; the same holds for every descriptor in
    [connections_]; and a descriptor is closed at most once, exactly when the
    connection is dropped and has no task. *)
Theorem server_descriptors s c k :
  rtc sstep newServer s → conns s !! c = Some k →
  (tasks k ≠ [] → opened s !! fd k = Some c) ∧
  (connections_ s !! fd k = Some c → opened s !! fd k = Some c) ∧
  closes k ≤ 1 ∧ (closes k = 1 ↔ closed k = true ∧ busy k = false) ∧
  (closes k = 1 → opened s !! fd k ≠ Some c).
Proof.
  intros Hr%sinv_reachable Hk. pose proof (si_conn _ Hr _ _ Hk) as Hi.
  pose proof (ci_closes _ _ _ _ Hi) as Hc. pose proof (ci_open _ _ _ _ Hi) as Ho. rewrite Hc, Ho. split_and!.
  - intros Ht. destruct (tasks k) as [|t l] eqn:E; [done|]. right. apply (task_busy _ _ _ _ 0 t Hi). by rewrite E.
  - intros [? _]%(ci_registered _ _ _ _ Hi). by left.
  - destruct (closed k && negb (busy k)); simpl; lia.
  - destruct (closed k), (busy k); simpl; naive_solver.
  - destruct (closed k), (busy k); simpl; naive_solver.
Qed.

(** C37: Limits.  No connection ever queues more than 1024 queries, and no
    query is empty or longer than 64 KiB.  When the loop waits for events, the
    inbox of a connection that was not dropped holds less than a line and at
    most 64 KiB; a connection that exceeded a limit has been dropped. *)
Theorem server_limits s c k :
  rtc sstep newServer s → conns s !! c = Some k →
  (N.of_nat (length (pending k)) ≤ kMaxPendingQueries)%N ∧
  Forall query_ok (accepted k) ∧
  (phase s = LIdle → closed k = false → takeLine (inbox k) = None ∧ (sizeN (inbox k) ≤ kMaxLineBytes)%N) ∧
  (phase s = LIdle → overran k = true → closed k = true).
Proof.
  intros Hr%sinv_reachable Hk. pose proof (si_conn _ Hr _ _ Hk) as Hi. pose proof (ci_data _ _ _ _ Hi) as Hd.
  assert (Hs : phase s = LIdle → closed k = false → settled k).
  { intros Hp. rewrite Hp in Hi. apply (ci_inbox _ _ _ _ Hi). }
  split_and!; [apply (cd_pending _ Hd)|apply (cd_queries _ Hd)| |].
  - intros Hp Hc. by destruct (Hs Hp Hc) as [[? _] ?].
  - intros Hp Ho. destruct (closed k) eqn:Hc; [done|]. destruct (Hs Hp eq_refl) as [[_ ?] _]. congruence.
Qed.

(** Quiescence.  From every state the server makes only boundedly many
    steps unless clients connect or send, in whatever order the loop and the
    workers take them.  When no step is left, the loop waits for events and every
    connection is idle: no task, nothing queued, and every query it accepted has
    been answered, unless a reply could not be written. *)
Theorem server_quiesces s :
  rtc sstep newServer s →
  (∀ n s', nsteps istep n s s' → n ≤ effort s) ∧
  (∀ s', rtc istep s s' → (∀ s'', ¬ istep s' s'') →
   phase s' = LIdle ∧
   ∀ c k, conns s' !! c = Some k →
     tasks k = [] ∧ busy k = false ∧ pending k = [] ∧ (unwritten k = false → executed k = accepted k)).
Proof.
  intros Hr. split; [intros n s' Hn%nsteps_effort; lia|]. intros s' Hs Hn.
  assert (Hi : sinv s').
  { apply sinv_reachable. etrans; [exact Hr|]. eapply rtc_subrel; [|exact Hs]. intros x y [?|[? _]]; [by right|by left]. }
  pose proof (rest_drained _ Hi Hn) as Hd. split; [apply Hd|]. intros c k Hk. split; [by apply Hd in Hk|].
  destruct (drained_conn _ _ _ Hi Hd Hk) as (? & ? & ? & _). done.
Qed.

(** C21: The loop's code takes the loop's steps.  From any reachable state of the
    server between two waits, whatever the kernel answers to the waits, accepts
    and reads of [run] (as long as it hands out free descriptors): [run] returns,
    or throws when a wait failed; nothing it dereferences is missing; and what it
    did is a run of the atomic steps, so that everything proved of these holds of
    the code. *)
Theorem loop_code (waits : list waitAnswer) s :
  rtc sstep newServer s → phase s = LIdle → waits_ok waits s →
  ∃ s' e, run waits s = Val (s', e) ∧ rtc lstep s s' ∧ phase s' = LIdle ∧ sinv s' ∧
    (is_Some e ↔ Exists (λ w, if w is WaitError _ then True else False) waits).
Proof.
  intros Hr%sinv_reachable Hp Hok. destruct (run_steps waits s Hr Hp Hok) as (s' & e & Hrun & Hs & Hp').
  exists s', e. split_and!; [done..|clear -Hr Hs; induction Hs; eauto using lstep_inv|by eapply run_throws].
Qed.

(** C36: Stopping.  Once a [stop] has cleared the flag while the loop runs, the
    loop makes at most 67 more steps (it never starts another wait after the
    one it may be in); and it is never left asleep: when no [stop] call is
    between its two writes, kevent has the wake pipe to report, and everywhere
    else in the loop the next step is possible. *)
Theorem stop_ends_run s :
  rtc runstep newRun s → running_ s = false →
  (∀ n s', nsteps rstep n s s' → n ≤ 3 + kMaxEvents) ∧
  (runner s = RWait → stopping s = 0 → reported s [EWake]) ∧
  (runner s ≠ ROutside → runner s ≠ RWait → ∃ s', rstep s s').
Proof.
  intros Hr Hf. split_and!; [| |apply rstep_progress].
  - intros n s' Hn. destruct (nsteps_rank _ _ _ Hn Hf) as [Hle _].
    pose proof (rank_bound _ (batch_reachable _ Hr)). lia.
  - intros Hw Hz. pose proof (wakes_reachable _ Hr Hw Hf) as Hp. rewrite Hz in Hp.
    split_and!; [done|unfold kMaxEvents; simpl; lia|lia].
Qed.

(** A [stop] that comes before [run] is lost: [run] sets the flag whatever
    it was and drains the byte that [stop] wrote, so that the loop ends up
    waiting with the flag set and nothing in the pipe, although a [stop] call
    has completed and no other is under way. *)
Theorem early_stop_lost :
  ∃ s, rtc runstep newRun s ∧ stops s = 1 ∧ stopping s = 0 ∧
    runner s = RWait ∧ running_ s = true ∧ wakePipe_ s = 0.
Proof.
  eexists. split.
  { eapply rtc_l; [right; apply c_stop_store|]. eapply rtc_l; [right; by eapply c_stop_write|].
    eapply rtc_l; [right; by apply c_run|]. eapply rtc_l; [left; by apply r_check|].
    eapply rtc_l; [left; apply (r_events _ [EWake]); [done|]|].
    { split_and!; [done|unfold kMaxEvents; simpl; lia|simpl; lia]. }
    eapply rtc_l; [left; by eapply r_drain|]. eapply rtc_l; [left; by apply r_again|].
    eapply rtc_l; [left; by apply r_check|]. apply rtc_refl. }
  done.
Qed.

(** C38: Writing a reply.  Whatever the kernel answers, the bytes sent are the
    beginning of the reply, all of it exactly when [writeAll] returns true; and
    as long as no call fails, it returns true once bytes have been taken as
    often as the reply has bytes. *)
Theorem write_all data kernel :
  (∃ rest, (writeAll data "" kernel).2 +:+ rest = data ∧ ((writeAll data "" kernel).1 = Some true ↔ rest = "")) ∧
  (Forall (λ a, goesOn a = true) kernel →
   String.length data ≤ length (base.filter (λ a, takesBytes a = true) kernel) →
   writeAll data "" kernel = (Some true, data)).
Proof.
  split; [|intros Hg Hl; by apply writeAll_finishes]. pose proof (writeAll_spec kernel data "") as H.
  by destruct (writeAll data "" kernel).
Qed.

(** ** Witnesses *)

(** A client connects, sends two lines in two pieces, and the first is answered. *)
Definition piece1 : string := "CREATE T" +:+ String newlineChar "SEL".
Definition piece2 : string := "ECT" +:+ String returnChar (String newlineChar "").

Ltac next t :=
  eapply rtc_l; [t; by vm_compute|];
  match goal with |- rtc sstep ?a ?b => let a' := eval vm_compute in a in change (rtc sstep a' b) end.

Lemma demo_server :
  ∃ s k, rtc sstep newServer s ∧ conns s !! 0 = Some k ∧ executed k = ["CREATE T"] ∧ tasks k = [TExec "SELECT"].
Proof.
  eexists _, _. split.
  { next ltac:(left; apply (s_accept 7 0)). next ltac:(left; eapply (s_read 7 0 _ piece1 false)).
    do 2 next ltac:(left; eapply s_pass). next ltac:(left; eapply s_after). next ltac:(left; apply s_keep).
    next ltac:(right; left; eexists _, _; eapply (s_start 0 _ 0)). next ltac:(right; left; eexists _, _; eapply (s_take 0 _ _ 0)).
    next ltac:(right; right; eexists 0, _, true; eapply (s_reply _ _ _ 0)). next ltac:(left; eapply (s_read 7 0 _ piece2 false)).
    do 2 next ltac:(left; eapply s_pass). next ltac:(left; eapply s_after). next ltac:(left; apply s_keep).
    next ltac:(right; left; eexists _, _; eapply (s_take 0 _ _ 0)). apply rtc_refl. }
  done.
Qed.

Lemma server_strand_witness :
  ∃ s k, conns s !! 0 = Some k ∧ executed k = ["CREATE T"] ∧ executed k ++ current k ++ pending k `sublist_of` queries_of (received k).
Proof.
  destruct demo_server as (s & k & Hr & Hk & He & _). exists s, k. split_and!; [done|done|].
  apply (server_strand s 0 k Hr Hk).
Defined.

Lemma server_descriptors_witness : ∃ s k, conns s !! 0 = Some k ∧ opened s !! fd k = Some 0.
Proof.
  destruct demo_server as (s & k & Hr & Hk & _ & Ht). exists s, k. split; [done|].
  refine (proj1 (server_descriptors s 0 k Hr Hk) _). by rewrite Ht.
Defined.

Lemma server_limits_witness : ∃ s k, conns s !! 0 = Some k ∧ Forall query_ok (accepted k).
Proof.
  destruct demo_server as (s & k & Hr & Hk & _). exists s, k. split; [done|]. apply (server_limits s 0 k Hr Hk).
Defined.

Lemma server_quiesces_witness : ∃ s k, conns s !! 0 = Some k ∧ ∀ n s', nsteps istep n s s' → n ≤ effort s.
Proof.
  destruct demo_server as (s & k & Hr & Hk & _). exists s, k. split; [done|]. apply (server_quiesces s Hr).
Defined.

(** A loop that waits when [stop] comes. *)
Lemma demo_stop : rtc runstep newRun (mkRun false 1 RWait 0 1).
Proof.
  eapply rtc_l; [right; by apply c_run|]. eapply rtc_l; [left; by apply r_check|].
  eapply rtc_l; [right; apply c_stop_store|]. eapply rtc_l; [right; by eapply c_stop_write|]. apply rtc_refl.
Qed.

Lemma stop_ends_run_witness : reported (mkRun false 1 RWait 0 1) [EWake].
Proof. apply (stop_ends_run (mkRun false 1 RWait 0 1) demo_stop); reflexivity. Defined.

Lemma write_all_witness : writeAll "ok" "" [Interrupted; Sent 1; WouldBlock true; Sent 1] = (Some true, "ok").
Proof. apply (write_all "ok" [Interrupted; Sent 1; WouldBlock true; Sent 1]); [decides|decides]. Defined.

(** A client connects and sends a query and a half; then a wait fails. *)
Definition demo_waits : list waitAnswer :=
  [WaitEvents [OnListen [AcceptInterrupted; Accepted 7 true]]; WaitInterrupted;
   WaitEvents [OnClient 7 [Bytes piece1; ReadAgain]; OnClient 9 []]; WaitError "Bad file descriptor"].

Lemma loop_code_witness :
  ∃ s', run demo_waits newServer = Val (s', Some (RuntimeError "TCPServer: kevent wait: Bad file descriptor")) ∧ sinv s'.
Proof.
  destruct (loop_code demo_waits newServer) as (s' & e & Hrun & _ & _ & Hi & _); [apply rtc_refl|done| |].
  - split; [by split|]. intros s1 [= <-]. split; [|by intros]. by repeat split.
  - exists s'. split; [|done]. rewrite Hrun. vm_compute in Hrun. by injection Hrun as _ <-.
Defined.
