(* ===== verification/UniquePtr.v ===== *)
(** * Owning pointers (include/memory/UniquePtr.hpp)

    A handle is its [ptr_]; the heap holds the objects, and deleting an address
    that is not allocated is stuck.  [owns hs raws h]: the handles [hs] and the
    raw pointers [raws] that clients got from [release] are each the only owner
    of a different object, and together they own everything on the heap. *)

From S2P Require Import Prelude.

Section UniquePtr.
Context {T : Type}.

Record UHeap := mkUHeap { uobjects : gmap nat T; unext : nat }.

Definition UniquePtr : Type := option nat.
Definition nullUnique : UniquePtr := None.

(** ** [new] and [delete] *)
Definition unew (x : T) : M UHeap nat :=
  h ← get_state;
  put_state (mkUHeap (<[unext h:=x]> (uobjects h)) (S (unext h)));;
  mret (unext h).

Definition udelete (ptr : UniquePtr) : M UHeap unit :=
  match ptr with
  | None => mret ()
  | Some a =>
    h ← get_state;
    _ ← lift (deref (uobjects h !! a));
    put_state (mkUHeap (delete a (uobjects h)) (unext h))
  end.

(** ** The class *)
Definition fromPtr (ptr : option nat) : UniquePtr := ptr.
Definition destructor (this : UniquePtr) : M UHeap unit := udelete this.

(** The pointer given up and the handle afterwards. *)
Definition release (this : UniquePtr) : option nat * UniquePtr := (this, None).

(** The new handle and what is left of the other. *)
Definition moveUnique (other : UniquePtr) : UniquePtr * UniquePtr :=
  let '(ptr, other') := release other in (fromPtr ptr, other').

Definition reset (this : UniquePtr) (ptr : option nat) : M UHeap UniquePtr :=
  let '(old, this') := (this, ptr) in
  udelete old;;
  mret this'.

Definition moveAssign (self : bool) (this other : UniquePtr) : M UHeap (UniquePtr * UniquePtr) :=
  if negb self then
    let '(ptr, other') := release other in
    this' ← reset this ptr;
    mret (this', other')
  else mret (this, this).

Definition swap (this other : UniquePtr) : UniquePtr * UniquePtr := (other, this).
Definition isSet (this : UniquePtr) : bool := bool_decide (this ≠ None).
(** [operator==(lhs, nullptr)] *)
Definition isNull (lhs : UniquePtr) : bool := bool_decide (lhs = None).
(** [get] and [operator->]; [operator*] *)
Definition getUnique (this : UniquePtr) : option nat := this.
Definition derefUnique (this : UniquePtr) : M UHeap T :=
  h ← get_state;
  a ← lift (deref this);
  lift (deref (uobjects h !! a)).
Definition makeUnique (x : T) : M UHeap UniquePtr := p ← unew x; mret (fromPtr (Some p)).

(** ** Ownership *)
Definition held (hs : list UniquePtr) : list nat := omap id hs.

Record owns (hs : list UniquePtr) (raws : list nat) (h : UHeap) : Prop := {
  un_once : NoDup (held hs ++ raws);
  un_all : ∀ a, is_Some (uobjects h !! a) ↔ a ∈ held hs ++ raws;
  un_fresh : ∀ a, a ∈ held hs ++ raws → a < unext h;
}.

Lemma owns_perm hs raws hs' raws' h : held hs ++ raws ≡ₚ held hs' ++ raws' → owns hs raws h → owns hs' raws' h.
Proof.
  intros Hp [H1 H2 H3]. split.
  - by rewrite <- Hp.
  - intros a. by rewrite <- Hp.
  - intros a. rewrite <- Hp. apply H3.
Qed.

Definition ptr_of (u : UniquePtr) : list nat := match u with Some a => [a] | None => [] end.

Lemma held_insert hs i u u' :
  hs !! i = Some u → ∃ r, held hs ≡ₚ ptr_of u ++ r ∧ held (<[i:=u']> hs) ≡ₚ ptr_of u' ++ r.
Proof.
  intros (l1 & l2 & -> & ->)%list_elem_of_split_length. exists (held l1 ++ held l2).
  rewrite insert_app_r_alt, Nat.sub_diag by lia. simpl. unfold held. rewrite !omap_app. split.
  - destruct u; csimpl; rewrite ?Permutation_middle; done.
  - destruct u'; csimpl; rewrite ?Permutation_middle; done.
Qed.

(** Deleting what a handle owns. *)
Lemma udelete_spec u rest h :
  NoDup (ptr_of u ++ rest) → (∀ a, is_Some (uobjects h !! a) ↔ a ∈ ptr_of u ++ rest) →
  (∀ a, a ∈ ptr_of u ++ rest → a < unext h) →
  ∃ h', udelete u h = Ret h' () ∧ NoDup rest ∧ (∀ a, is_Some (uobjects h' !! a) ↔ a ∈ rest) ∧
    (∀ a, a ∈ rest → a < unext h').
Proof.
  intros Hnd Hdom Hf. destruct u as [p|]; [|by exists h]. simpl in *. apply NoDup_cons in Hnd as [Hp Hnd].
  mrun. destruct (proj2 (Hdom p)) as [x Hx]; [by left|]. rewrite Hx. simpl. mrun. eexists. split; [done|].
  split; [done|]. simpl. split.
  - intros a. rewrite lookup_delete_is_Some, Hdom, elem_of_cons. split; [naive_solver|]. intros Ha.
    split; [by intros ->|by right].
  - intros a Ha. apply Hf. by right.
Qed.

Lemma makeUnique_spec hs raws h x :
  owns hs raws h →
  ∃ h' p, makeUnique x h = Ret h' (Some p) ∧ owns (hs ++ [Some p]) raws h' ∧ uobjects h !! p = None ∧
    uobjects h' = <[p:=x]> (uobjects h).
Proof.
  intros [H1 H2 H3]. unfold makeUnique, unew. mrun. eexists _, (unext h). split; [done|].
  assert (Hf : unext h ∉ held hs ++ raws) by (intros Hin%H3; lia).
  assert (Hp : held (hs ++ [Some (unext h)]) ++ raws ≡ₚ unext h :: held hs ++ raws).
  { unfold held. rewrite omap_app. simpl. by rewrite <- (assoc_L (++)), Permutation_middle. }
  split; [split; simpl|].
  - rewrite Hp. by constructor.
  - intros a. rewrite Hp, elem_of_cons, lookup_insert_is_Some', H2. naive_solver.
  - intros a. rewrite Hp, elem_of_cons. intros [->|Ha%H3]; lia.
  - split; [|done]. apply eq_None_not_Some. by rewrite H2.
Qed.
End UniquePtr.

Arguments UHeap : clear implicits.
