(* ===== verification/UniquePtrMain.v ===== *)
(** * Owning pointers: main theorem *)

From S2P Require Import Prelude UniquePtr.

Section History.
Context {T : Type}.

(** A program with handles by number and raw pointers from [release]. *)
Inductive unique_op :=
  | UMake (x : T)
  | UMove (i : nat)
  | UMoveAssign (i j : nat)
  | URelease (i : nat)
  | UReset (i : nat)
  | UAdopt (i k : nat)      (* [reset] with the raw pointer number [k] *)
  | USwap (i j : nat).

Definition unique_call (hs : list UniquePtr) (raws : list nat) (o : unique_op)
    : M (UHeap T) (list UniquePtr * list nat) :=
  match o with
  | UMake x => u ← makeUnique x; mret (hs ++ [u], raws)
  | UMove i => u ← lift (at_ hs i); let '(u', old) := moveUnique u in mret (<[i:=old]> hs ++ [u'], raws)
  | UMoveAssign i j =>
    this ← lift (at_ hs i); other ← lift (at_ hs j);
    '(this', other') ← moveAssign (bool_decide (i = j)) this other;
    mret (<[i:=this']> (<[j:=other']> hs), raws)
  | URelease i =>
    u ← lift (at_ hs i); let '(ptr, u') := release u in
    mret (<[i:=u']> hs, ptr_of ptr ++ raws)
  | UReset i => u ← lift (at_ hs i); u' ← reset u None; mret (<[i:=u']> hs, raws)
  | UAdopt i k =>
    u ← lift (at_ hs i); p ← lift (at_ raws k); u' ← reset u (Some p);
    mret (<[i:=u']> hs, delete k raws)
  | USwap i j =>
    a ← lift (at_ hs i); b ← lift (at_ hs j);
    let '(a', b') := swap a b in mret (<[j:=b']> (<[i:=a']> hs), raws)
  end.

(** The call names handles and raw pointers that exist. *)
Definition in_range (n m : nat) (o : unique_op) : bool :=
  match o with
  | UMake _ => true
  | UMove i | URelease i | UReset i => bool_decide (i < n)
  | UAdopt i k => bool_decide (i < n) && bool_decide (k < m)
  | UMoveAssign i j | USwap i j => bool_decide (i < n) && bool_decide (j < n)
  end.

(** Calls on handles that do not exist are not part of a program. *)
Fixpoint unique_calls (hs : list UniquePtr) (raws : list nat) (ops : list unique_op)
    : M (UHeap T) (list UniquePtr * list nat) :=
  match ops with
  | [] => mret (hs, raws)
  | o :: ops' =>
    if in_range (length hs) (length raws) o
    then '(hs', raws') ← unique_call hs raws o; unique_calls hs' raws' ops'
    else unique_calls hs raws ops'
  end.

(** A handle is replaced by one that owns [p], and its object is deleted. *)
Lemma reset_spec hs raws raws' (h : UHeap T) i u u' :
  hs !! i = Some u → owns hs raws h → raws ≡ₚ ptr_of u' ++ raws' →
  ∃ h', reset u u' h = Ret h' u' ∧ owns (<[i:=u']> hs) raws' h'.
Proof.
  intros Hi [H1 H2 H3] Hr. destruct (held_insert hs i u u' Hi) as (r & Hp & Hp').
  assert (Hall : held hs ++ raws ≡ₚ ptr_of u ++ (held (<[i:=u']> hs) ++ raws')).
  { rewrite Hp, Hp', Hr. rewrite <- !(assoc_L (++)). f_equiv. rewrite !(assoc_L (++)). f_equiv. apply Permutation_app_comm. }
  destruct (udelete_spec u (held (<[i:=u']> hs) ++ raws') h) as (h' & Hd & Hn & Hdom & Hf).
  - by rewrite <- Hall.
  - intros a. by rewrite <- Hall.
  - intros a. rewrite <- Hall. apply H3.
  - exists h'. unfold reset. erewrite M_bind_run by done. by split.
Qed.

Lemma swap_held hs i j u u' : hs !! i = Some u → hs !! j = Some u' → held (<[j:=u]> (<[i:=u']> hs)) ≡ₚ held hs.
Proof.
  intros Hi Hj. destruct (decide (i = j)) as [->|Hne].
  { assert (u = u') as -> by congruence. by rewrite list_insert_id; rewrite list_insert_id. }
  destruct (held_insert hs i u u' Hi) as (r & Hp & Hp').
  destruct (held_insert (<[i:=u']> hs) j u' u) as (r' & Hq & Hq'); [by rewrite list_lookup_insert_ne|].
  rewrite Hq', Hp. rewrite Hp' in Hq. apply Permutation_app_inv_l in Hq. by rewrite Hq.
Qed.

Lemma unique_call_spec hs raws (h : UHeap T) o :
  owns hs raws h → in_range (length hs) (length raws) o = true →
  ∃ h' hs' raws', unique_call hs raws o h = Ret h' (hs', raws') ∧ owns hs' raws' h'.
Proof.
  intros Hw Hin.
  assert (Hat : ∀ {A} (l : list A) i, i < length l → ∃ u, l !! i = Some u ∧ at_ l i = Val u).
  { intros A l i (u & ? & ?)%at_lt. eauto. }
  destruct o as [x|i|i j|i|i|i k|i j]; simpl in Hin; unfold unique_call.
  - destruct (makeUnique_spec hs raws h x Hw) as (h' & p & Hrun & Hw' & _). erewrite M_bind_run by done. mrun. eauto 10.
  - apply bool_decide_eq_true in Hin. destruct (Hat _ hs i Hin) as (u & Hu & ->). mrun. simpl. mrun.
    eexists _, _, _. split; [done|]. eapply owns_perm; [|done].
    destruct (held_insert hs i u None Hu) as (r & Hp & Hp'). unfold held in *. rewrite omap_app, Hp, Hp'. simpl.
    f_equiv. rewrite (Permutation_app_comm _ r). by destruct u.
  - apply andb_true_iff in Hin as [Hi%bool_decide_eq_true Hj%bool_decide_eq_true].
    destruct (Hat _ hs i Hi) as (u & Hu & ->). destruct (Hat _ hs j Hj) as (v & Hv & ->). mrun.
    case_bool_decide as Hij.
    + subst j. assert (u = v) as -> by congruence. simpl. mrun. eexists _, _, _. split; [done|].
      rewrite list_insert_insert_eq, list_insert_id by done. done.
    + unfold moveAssign. simpl. mrun.
      destruct (reset_spec (<[j:=None]> hs) (ptr_of v ++ raws) raws h i u v) as (h' & Hrun & Hw').
      * by rewrite list_lookup_insert_ne.
      * eapply owns_perm; [|done]. destruct (held_insert hs j v None Hv) as (r & -> & ->). simpl.
        by rewrite (Permutation_app_comm r), <- !(assoc_L (++)), (Permutation_app_comm raws).
      * done.
      * erewrite M_bind_run by done. mrun. eauto 10.
  - apply bool_decide_eq_true in Hin. destruct (Hat _ hs i Hin) as (u & Hu & ->). mrun. simpl. mrun.
    eexists _, _, _. split; [done|]. eapply owns_perm; [|done].
    destruct (held_insert hs i u None Hu) as (r & -> & ->). simpl.
    by rewrite (assoc_L (++)), (Permutation_app_comm r).
  - apply bool_decide_eq_true in Hin. destruct (Hat _ hs i Hin) as (u & Hu & ->). mrun.
    destruct (reset_spec hs raws raws h i u None Hu Hw) as (h' & Hrun & Hw'); [done|].
    erewrite M_bind_run by done. mrun. eauto 10.
  - apply andb_true_iff in Hin as [Hi%bool_decide_eq_true Hk%bool_decide_eq_true].
    destruct (Hat _ hs i Hi) as (u & Hu & ->). destruct (Hat _ raws k Hk) as (p & Hp & ->). mrun.
    destruct (reset_spec hs raws (delete k raws) h i u (Some p) Hu Hw) as (h' & Hrun & Hw'); [by apply delete_Permutation|].
    erewrite M_bind_run by done. mrun. eauto 10.
  - apply andb_true_iff in Hin as [Hi%bool_decide_eq_true Hj%bool_decide_eq_true].
    destruct (Hat _ hs i Hi) as (u & Hu & ->). destruct (Hat _ hs j Hj) as (v & Hv & ->). mrun. simpl. mrun.
    eexists _, _, _. split; [done|]. eapply owns_perm; [|done]. by rewrite swap_held.
Qed.

Lemma unique_calls_spec ops hs raws (h : UHeap T) :
  owns hs raws h → ∃ h' hs' raws', unique_calls hs raws ops h = Ret h' (hs', raws') ∧ owns hs' raws' h'.
Proof.
  revert hs raws h. induction ops as [|o ops IH]; intros hs raws h Hw; [by exists h, hs, raws|]. cbn [unique_calls].
  destruct (in_range _ _ o) eqn:Hin; [|by apply IH].
  destruct (unique_call_spec hs raws h o Hw Hin) as (h1 & hs1 & raws1 & Hrun & Hw1). erewrite M_bind_run by done. by apply IH.
Qed.

Lemma destroy_all hs raws (h : UHeap T) :
  owns hs raws h → ∃ h', forM hs destructor h = Ret h' () ∧ owns [] raws h'.
Proof.
  revert h. induction hs as [|u hs IH]; intros h Hw; [by exists h|]. cbn [forM].
  assert (Hheld : held (u :: hs) ++ raws = ptr_of u ++ (held hs ++ raws)) by (by destruct u).
  destruct Hw as [H1 H2 H3]. rewrite Hheld in *.
  destruct (udelete_spec u (held hs ++ raws) h H1 H2 H3) as (h1 & Hrun & Hn & Hdom & Hf).
  erewrite M_bind_run by done. apply IH. by split.
Qed.

Lemma unique_deref hs raws h u :
  owns hs raws h → u ∈ hs → isNull u = negb (isSet u) ∧
    (isSet u = true → ∃ a (x : T), getUnique u = Some a ∧ uobjects h !! a = Some x ∧ derefUnique u h = Ret h x).
Proof.
  intros Hw Hu. destruct u as [a|]; [|by split]. split; [done|]. intros _.
  destruct (proj2 (un_all _ _ _ Hw a)) as [x Hx]; [apply elem_of_app; left; apply list_elem_of_omap; by exists (Some a)|].
  exists a, x. split_and!; [done|done|]. unfold derefUnique. mrun. simpl. mrun. by rewrite Hx.
Qed.

(** C35: Any program that makes, moves, assigns (to itself too), releases, resets
    and swaps owning pointers never deletes an object twice or reads a deleted
    one; at every end each object has exactly one owner, a handle compares equal
    to null exactly when it tests false and else can be dereferenced, and when
    the handles are destroyed exactly the objects whose raw pointers were released and not given
    back are left. *)
Theorem unique_ptr_history (ops : list unique_op) :
  ∃ h hs raws h', unique_calls [] [] ops (mkUHeap ∅ 0) = Ret h (hs, raws) ∧ owns hs raws h ∧
    (∀ u, u ∈ hs → isNull u = negb (isSet u) ∧
       (isSet u = true → ∃ a x, getUnique u = Some a ∧ uobjects h !! a = Some x ∧ derefUnique u h = Ret h x)) ∧
    forM hs destructor h = Ret h' () ∧ NoDup raws ∧ ∀ a, is_Some (uobjects h' !! a) ↔ a ∈ raws.
Proof.
  destruct (unique_calls_spec ops [] [] (mkUHeap ∅ 0)) as (h & hs & raws & Hrun & Hw).
  { split; simpl; [apply NoDup_nil_2| |by intros a ?%elem_of_nil].
    intros a. rewrite lookup_empty, elem_of_nil. split; [by intros []|done]. }
  destruct (destroy_all hs raws h Hw) as (h' & Hd & Hw'). exists h, hs, raws, h'. split; [done|]. split; [done|].
  split; [intros u; by apply (unique_deref hs raws)|]. split; [done|]. split; apply Hw'.
Qed.
End History.
