(* ===== verification/PoolAllocator.v ===== *)
(** * Pool allocator (include/storage/PoolAllocator.hpp)

    One arena of equal blocks; a free block holds the link of the free list, a
    live one an object.  Pointers are addresses; sizes are 64-bit and wrap.  A
    write outside the arena, a use of a free block as an object or of a live one
    as a free node is [Undef].  [sizeT] and [alignT] are the size and the
    alignment of the element type; a [FreeNode] is one pointer of 8 bytes. *)

From S2P Require Import Prelude.

Section Pool.
Context {T : Type} (sizeT alignT : N).
#[local] Open Scope N_scope.

Definition wrap (n : N) : N := n mod 2 ^ 64.

Definition maxOf (a b : N) : N := if b <? a then a else b.
Definition roundUp (value multiple : N) : N := (value + multiple - 1) / multiple * multiple.

Definition sizeFreeNode : N := 8.
Definition alignFreeNode : N := 8.
Definition kBlockAlign : N := maxOf alignT alignFreeNode.
Definition kBlockSize : N := roundUp (maxOf sizeT sizeFreeNode) kBlockAlign.

Inductive block := Free (next : option N) | Live (object : T).

(** Memory that [operator new] gave: where it starts, how long it is, and what
    has been written at block addresses. *)
Record Arena := mkArena { base : N; bytes : N; mem : gmap N block }.

Record PoolAllocator := mkPool {
  arena_ : option Arena;
  freeHead_ : option N;
  capacity_ : N;
  inUse_ : N;
}.

(** A write of one block at [addr]. *)
Definition writeBlock (a : Arena) (addr : N) (b : block) : result Arena :=
  if bool_decide (base a ≤ addr ∧ addr + kBlockSize ≤ base a + bytes a)
  then Val (mkArena (base a) (bytes a) (<[addr := b]> (mem a)))
  else Undef.

(** The loop body of [buildFreeList] for [i], then the ones below it. *)
Fixpoint buildFreeList (i : nat) (a : Arena) (freeHead : option N) : result (Arena * option N) :=
  match i with
  | O => Val (a, freeHead)
  | S i' =>
    let block := base a + wrap (N.of_nat i' * kBlockSize) in
    a' ← writeBlock a block (Free freeHead);
    buildFreeList i' a' (Some block)
  end.

(** [newAt]: where [operator new] puts the bytes it is asked for. *)
Definition makePool (newAt : N) (capacity : N) : result PoolAllocator :=
  if bool_decide (capacity = 0) then Throw (InvalidArgument "PoolAllocator: capacity must be > 0")
  else
    '(a, freeHead) ← buildFreeList (N.to_nat capacity) (mkArena newAt (wrap (capacity * kBlockSize)) ∅) None;
    Val (mkPool (Some a) freeHead capacity 0).

(** Move construction: the new pool and what is left. *)
Definition movedFrom : PoolAllocator := mkPool None None 0 0.
Definition movePool (other : PoolAllocator) : PoolAllocator * PoolAllocator := (other, movedFrom).

(** [releaseArena] with its assertion *)
Definition releaseArena (p : PoolAllocator) : result PoolAllocator :=
  if bool_decide (inUse_ p = 0) then Val (mkPool None (freeHead_ p) (capacity_ p) (inUse_ p)) else Undef.

Definition moveAssign (self : bool) (this other : PoolAllocator) : result (PoolAllocator * PoolAllocator) :=
  if self then Val (this, this)
  else _ ← releaseArena this; Val (other, movedFrom).

(** The constructor of the object is [construct]: it gives the object or throws. *)
Definition allocate (construct : result T) : M PoolAllocator N :=
  p ← get_state;
  match freeHead_ p with
  | None => throw BadAlloc
  | Some node =>
    a ← lift (deref (arena_ p));
    b ← lift (deref (mem a !! node));
    match b with
    | Live _ => lift Undef
    | Free next =>
      match construct with
      | Val object =>
        a' ← lift (writeBlock a node (Live object));
        put_state (mkPool (Some a') next (capacity_ p) (wrap (inUse_ p + 1)));;
        mret node
      | Throw e =>
        a' ← lift (writeBlock a node (Free next));
        put_state (mkPool (Some a') (freeHead_ p) (capacity_ p) (inUse_ p));;
        throw e
      | Undef => lift Undef
      end
    end
  end.

Definition owns (p : PoolAllocator) (ptr : N) : bool :=
  match arena_ p with
  | None => false
  | Some a =>
    (base a <=? ptr) && (ptr <? base a + wrap (capacity_ p * kBlockSize)) &&
    ((ptr - base a) mod kBlockSize =? 0)
  end.

Definition deallocate (ptr : option N) : M PoolAllocator unit :=
  match ptr with
  | None => mret ()
  | Some addr =>
    p ← get_state;
    if negb (owns p addr) then lift Undef
    else
      a ← lift (deref (arena_ p));
      b ← lift (deref (mem a !! addr));
      match b with
      | Free _ => lift Undef
      | Live _ =>
        a' ← lift (writeBlock a addr (Free (freeHead_ p)));
        put_state (mkPool (Some a') (Some addr) (capacity_ p) (wrap (inUse_ p + (2 ^ 64 - 1))))
      end
  end.

Definition capacity (p : PoolAllocator) : N := capacity_ p.
Definition inUse (p : PoolAllocator) : N := inUse_ p.
Definition available (p : PoolAllocator) : N := wrap (capacity_ p + (2 ^ 64 - inUse_ p)).

(** ** Layout *)
Lemma maxOf_spec a b : maxOf a b = N.max a b.
Proof. unfold maxOf. destruct (N.ltb_spec b a); lia. Qed.

Lemma roundUp_spec v m : 0 < m → (m | roundUp v m) ∧ v ≤ roundUp v m.
Proof.
  intros Hm. unfold roundUp. split; [by apply N.divide_factor_r|].
  pose proof (N.div_mod (v + m - 1) m ltac:(lia)). pose proof (N.mod_lt (v + m - 1) m ltac:(lia)). lia.
Qed.

(** ** The invariant *)
Definition blockAt (a : Arena) (i : nat) : N := base a + N.of_nat i * kBlockSize.

Fixpoint free_chain (m : gmap N block) (fl : list N) : Prop :=
  match fl with
  | [] => True
  | f :: r => m !! f = Some (Free (head r)) ∧ free_chain m r
  end.

Record pool_ok (p : PoolAllocator) (a : Arena) (fl : list N) (live : gmap N T) : Prop := {
  po_arena : arena_ p = Some a;
  po_size : capacity_ p * kBlockSize < 2 ^ 64;
  po_bytes : bytes a = capacity_ p * kBlockSize;
  po_head : freeHead_ p = head fl;
  po_chain : free_chain (mem a) fl;
  po_live : ∀ addr x, live !! addr = Some x ↔ mem a !! addr = Some (Live x);
  po_nodup : NoDup fl;
  po_blocks : ∀ addr, (addr ∈ fl ∨ is_Some (live !! addr)) ↔ ∃ i, (i < N.to_nat (capacity_ p))%nat ∧ addr = blockAt a i;
  po_count : capacity_ p = N.of_nat (length fl) + inUse_ p;
  po_inUse : inUse_ p = N.of_nat (base.size live);
}.

Hypothesis align_pos : 0 < alignT.

Lemma kBlockAlign_pos : 0 < kBlockAlign.
Proof. unfold kBlockAlign. rewrite maxOf_spec. unfold alignFreeNode. lia. Qed.
Lemma kBlockSize_pos : 0 < kBlockSize.
Proof.
  unfold kBlockSize. destruct (roundUp_spec (maxOf sizeT sizeFreeNode) kBlockAlign kBlockAlign_pos) as [_ Hle].
  rewrite maxOf_spec in Hle. unfold sizeFreeNode in *. rewrite maxOf_spec. lia.
Qed.

Lemma blockAt_inj a i j : blockAt a i = blockAt a j → i = j.
Proof. pose proof kBlockSize_pos. unfold blockAt. nia. Qed.

(** A chain is not disturbed by writes elsewhere. *)
Lemma free_chain_write m fl addr b : addr ∉ fl → free_chain m fl → free_chain (<[addr:=b]> m) fl.
Proof.
  induction fl as [|f fl IH]; [done|]. rewrite not_elem_of_cons. intros [Hne Hni] [Hf Hc]. split; [|by apply IH].
  by rewrite lookup_insert_ne.
Qed.

Lemma free_chain_elem m fl f : free_chain m fl → f ∈ fl → ∃ n, m !! f = Some (Free n).
Proof. induction fl as [|g fl IH]; [by intros _ ?%elem_of_nil|]. intros [Hg Hc] [->|Hf]%elem_of_cons; eauto. Qed.

(** ** Construction *)
Definition addrs (b : N) (lo n : nat) : list N := (λ i, b + N.of_nat i * kBlockSize) <$> seq lo n.

Lemma addrs_elem b lo n addr : addr ∈ addrs b lo n ↔ ∃ i, (lo ≤ i < lo + n)%nat ∧ addr = b + N.of_nat i * kBlockSize.
Proof.
  unfold addrs. rewrite list_elem_of_fmap. setoid_rewrite elem_of_seq. naive_solver.
Qed.

Lemma buildFreeList_spec i cap (a : Arena) :
  (i ≤ cap)%nat → bytes a = N.of_nat cap * kBlockSize → bytes a < 2 ^ 64 →
  free_chain (mem a) (addrs (base a) i (cap - i)) →
  (∀ addr, is_Some (mem a !! addr) → addr ∈ addrs (base a) i (cap - i)) →
  ∃ a', buildFreeList i a (head (addrs (base a) i (cap - i))) = Val (a', head (addrs (base a) 0 cap)) ∧
    base a' = base a ∧ bytes a' = bytes a ∧ free_chain (mem a') (addrs (base a) 0 cap) ∧
    (∀ addr, is_Some (mem a' !! addr) → addr ∈ addrs (base a) 0 cap).
Proof.
  pose proof kBlockSize_pos as Hpos. revert a. induction i as [|i IH]; intros a Hi Hb Hlt Hc Hm.
  { rewrite Nat.sub_0_r in *. by exists a. }
  cbn [buildFreeList]. assert (Hw : wrap (N.of_nat i * kBlockSize) = N.of_nat i * kBlockSize).
  { unfold wrap. apply N.mod_small. nia. }
  rewrite Hw. unfold writeBlock. rewrite bool_decide_eq_true_2 by (split; nia). cbn [mbind result_bind].
  set (new := base a + N.of_nat i * kBlockSize).
  assert (Hnew : addrs (base a) i (cap - i) = new :: addrs (base a) (S i) (cap - S i)).
  { unfold addrs. replace (cap - i)%nat with (S (cap - S i)) by lia. done. }
  assert (Hni : new ∉ addrs (base a) (S i) (cap - S i)).
  { rewrite addrs_elem. intros (j & Hj & Heq). unfold new in Heq. nia. }
  destruct (IH (mkArena (base a) (bytes a) (<[new:=Free (head (addrs (base a) (S i) (cap - S i)))]> (mem a))))
    as (a' & Hrun & Hres); cbn [base bytes mem]; try done; [lia| | |].
  - rewrite Hnew. split; [by rewrite lookup_insert_eq|]. by apply free_chain_write.
  - intros addr. rewrite Hnew, elem_of_cons, lookup_insert_is_Some'. intros [->|Ha]; [by left|right; by apply Hm].
  - exists a'. cbn [base bytes mem] in *. rewrite Hnew in Hrun. done.
Qed.

Lemma addrs_nodup b lo n : NoDup (addrs b lo n).
Proof.
  pose proof kBlockSize_pos. apply NoDup_fmap_2_strong; [|apply NoDup_seq]. intros i j _ _. nia.
Qed.

Lemma makePool_spec newAt cap :
  0 < cap → cap * kBlockSize < 2 ^ 64 →
  ∃ p a, makePool newAt cap = Val p ∧ pool_ok p a (addrs newAt 0 (N.to_nat cap)) ∅ ∧
    base a = newAt ∧ capacity_ p = cap.
Proof.
  intros Hcap Hlt. unfold makePool. rewrite bool_decide_eq_false_2 by lia.
  set (a0 := mkArena newAt (wrap (cap * kBlockSize)) ∅).
  assert (Hw : wrap (cap * kBlockSize) = cap * kBlockSize) by (unfold wrap; by apply N.mod_small).
  destruct (buildFreeList_spec (N.to_nat cap) (N.to_nat cap) a0) as (a & Hrun & Hbase & Hbytes & Hc & Hm).
  - lia.
  - unfold a0. cbn [bytes]. rewrite Hw. by rewrite N2Nat.id.
  - unfold a0. cbn [bytes]. by rewrite Hw.
  - by rewrite Nat.sub_diag.
  - intros addr [x Hx]. unfold a0 in Hx. cbn [mem] in Hx. by rewrite lookup_empty in Hx.
  - rewrite Nat.sub_diag in Hrun. simpl in Hrun. rewrite Hrun. cbn [mbind result_bind].
    eexists _, a. split; [done|]. split; [|done]. unfold a0 in *. cbn [base bytes] in *.
    split; simpl; try done.
    + by rewrite Hbytes, Hw.
    + intros addr x. rewrite lookup_empty. split; [done|]. intros Hx.
      destruct (free_chain_elem _ _ addr Hc) as [n Hn]; [apply Hm; by eexists|]. congruence.
    + apply addrs_nodup.
    + intros addr. rewrite lookup_empty, addrs_elem. unfold blockAt. rewrite Hbase. split.
      * intros [(i & Hi & ->)|[? ?]]; [|done]. exists i. split; [lia|done].
      * intros (i & Hi & ->). left. exists i. split; [lia|done].
    + unfold addrs. rewrite length_fmap, length_seq. lia.
Qed.

(** Too many blocks for 64 bits: the size wraps, the arena is too small, and the
    list is built beyond its end. *)
Lemma buildFreeList_overrun i (a : Arena) fh q d :
  1 ≤ q → N.of_nat i * kBlockSize = q * 2 ^ 64 + d → d ≤ bytes a → bytes a < 2 ^ 64 → kBlockSize < 2 ^ 64 →
  buildFreeList i a fh = Undef.
Proof.
  intros Hq. pose proof kBlockSize_pos as Hpos. revert a fh d. induction i as [|i IH]; intros a fh d Hi Hd Hb Hbs; [lia|].
  cbn [buildFreeList]. rewrite Nat2N.inj_succ, N.mul_succ_l in Hi. unfold writeBlock, wrap.
  destruct (N.le_gt_cases kBlockSize d) as [Hle|Hgt].
  - assert ((N.of_nat i * kBlockSize) mod 2 ^ 64 = d - kBlockSize) as ->.
    { symmetry. apply (N.mod_unique _ _ q); lia. }
    rewrite bool_decide_eq_true_2 by lia. cbn [mbind result_bind]. apply (IH _ _ (d - kBlockSize)); simpl; lia.
  - assert ((N.of_nat i * kBlockSize) mod 2 ^ 64 = 2 ^ 64 + d - kBlockSize) as ->.
    { symmetry. apply (N.mod_unique _ _ (q - 1)); lia. }
    by rewrite bool_decide_eq_false_2 by lia.
Qed.

Lemma makePool_overrun newAt cap :
  kBlockSize < 2 ^ 64 → 2 ^ 64 ≤ cap * kBlockSize → makePool newAt cap = Undef.
Proof.
  intros Hbs Hcap. unfold makePool. rewrite bool_decide_eq_false_2 by (intros ->; lia).
  pose proof (N.div_mod (cap * kBlockSize) (2 ^ 64) ltac:(lia)) as Hdm.
  pose proof (N.mod_lt (cap * kBlockSize) (2 ^ 64) ltac:(lia)) as Hlt.
  rewrite (buildFreeList_overrun _ _ None (cap * kBlockSize / 2 ^ 64) ((cap * kBlockSize) mod 2 ^ 64)); try done.
  - apply N.div_le_lower_bound; lia.
  - rewrite N2Nat.id. lia.
Qed.

(** ** Allocation *)
Lemma block_in_arena p a fl live addr :
  pool_ok p a fl live → addr ∈ fl ∨ is_Some (live !! addr) →
  base a ≤ addr ∧ addr + kBlockSize ≤ base a + bytes a ∧ owns p addr = true.
Proof.
  intros Hp Hin. pose proof kBlockSize_pos as Hpos. apply (po_blocks _ _ _ _ Hp) in Hin as (i & Hi & ->).
  pose proof (po_size _ _ _ _ Hp) as Hsz. rewrite (po_bytes _ _ _ _ Hp). unfold blockAt.
  assert (N.of_nat (S i) * kBlockSize ≤ capacity_ p * kBlockSize) as Hle by (apply N.mul_le_mono_r; lia).
  rewrite Nat2N.inj_succ, N.mul_succ_l in Hle. split; [lia|]. split; [lia|].
  unfold owns. rewrite (po_arena _ _ _ _ Hp). unfold wrap. rewrite N.mod_small by done.
  rewrite !andb_true_iff, N.leb_le, N.ltb_lt, N.eqb_eq. split; [split; lia|].
  replace (base a + N.of_nat i * kBlockSize - base a) with (N.of_nat i * kBlockSize) by lia. apply N.Div0.mod_mul.
Qed.

Lemma allocate_spec p a fl live construct :
  pool_ok p a fl live →
  match fl, construct with
  | [], _ => allocate construct p = Exn p BadAlloc
  | node :: fl', Val x => ∃ p' a', allocate (Val x) p = Ret p' node ∧ pool_ok p' a' fl' (<[node:=x]> live) ∧
      live !! node = None ∧ base a' = base a ∧ capacity_ p' = capacity_ p
  | _, Throw e => allocate (Throw e) p = Exn p e
  | _, Undef => True
  end.
Proof.
  intros Hp. pose proof Hp as [H1 H2 H3 H4 H5 H6 H7 H8 H9 H10]. unfold allocate.
  destruct fl as [|node fl]; [mrun; by rewrite H4|]. destruct H5 as [Hnode Hc].
  assert (Hin : node ∈ node :: fl) by (by left).
  destruct (block_in_arena p a _ live node Hp (or_introl Hin)) as (Hlo & Hhi & _).
  assert (Hnl : live !! node = None).
  { destruct (live !! node) as [x|] eqn:Hx; [|done]. apply H6 in Hx. congruence. }
  pose proof kBlockSize_pos as Hpos.
  destruct construct as [x|e|]; [| |done]; mrun; rewrite H4; simpl; rewrite H1; simpl; mrun; rewrite Hnode; simpl; mrun;
    unfold writeBlock; rewrite bool_decide_eq_true_2 by done; mrun.
  - apply NoDup_cons in H7 as [Hni Hnd].
    eexists _, (mkArena (base a) (bytes a) (<[node:=Live x]> (mem a))). split; [done|]. split; [|done].
    assert (Hsize : base.size (<[node:=x]> live) = S (base.size live)) by (by apply map_size_insert_None).
    simpl in H9. split; simpl; try done.
    + by apply free_chain_write.
    + intros addr y. rewrite !lookup_insert_Some, H6. naive_solver.
    + intros addr. rewrite lookup_insert_is_Some'. rewrite <- H8, elem_of_cons. naive_solver.
    + unfold wrap. rewrite N.mod_small by nia. lia.
    + unfold wrap. rewrite N.mod_small by nia. lia.
  - f_equal. destruct p as [ar fh cap iu]. simpl in *. subst. destruct a as [b by' m]. simpl in *.
    by rewrite insert_id.
Qed.

(** ** Deallocation *)
Lemma deallocate_spec p a fl live addr x :
  pool_ok p a fl live → live !! addr = Some x →
  ∃ p' a', deallocate (Some addr) p = Ret p' () ∧ pool_ok p' a' (addr :: fl) (delete addr live) ∧
    base a' = base a ∧ capacity_ p' = capacity_ p.
Proof.
  intros Hp Hx. pose proof Hp as [H1 H2 H3 H4 H5 H6 H7 H8 H9 H10].
  destruct (block_in_arena p a fl live addr Hp) as (Hlo & Hhi & Hown); [right; by eexists|].
  pose proof Hx as Hm. apply H6 in Hm. unfold deallocate. mrun. rewrite Hown. simpl. rewrite H1. simpl. mrun.
  rewrite Hm. simpl. mrun. unfold writeBlock. rewrite bool_decide_eq_true_2 by done. mrun.
  eexists _, (mkArena (base a) (bytes a) (<[addr:=Free (freeHead_ p)]> (mem a))). split; [done|]. split; [|done].
  assert (Hni : addr ∉ fl).
  { intros Hin. destruct (free_chain_elem _ _ _ H5 Hin) as [n Hn]. congruence. }
  assert (Hsize : base.size (delete addr live) = pred (base.size live)) by (apply map_size_delete_Some; by eexists).
  assert (Hne : base.size live ≠ O) by (intros Hz%map_size_empty_inv; subst; by rewrite lookup_empty in Hx).
  pose proof kBlockSize_pos as Hpos.
  assert (Hwrap : wrap (inUse_ p + (2 ^ 64 - 1)) = inUse_ p - 1).
  { unfold wrap. symmetry. apply (N.mod_unique _ _ 1); nia. }
  split; simpl; try done.
  - rewrite H4. split; [by rewrite lookup_insert_eq|]. by apply free_chain_write.
  - intros addr' y. rewrite lookup_delete_Some, lookup_insert_Some, H6. naive_solver.
  - constructor; done.
  - intros addr'. rewrite <- H8, elem_of_cons, lookup_delete_is_Some. destruct (decide (addr = addr')) as [<-|Hd].
    + split; [intros _; right; by eexists|]. by left; left.
    + naive_solver.
  - rewrite Hwrap. lia.
  - rewrite Hwrap, Hsize. lia.
Qed.
End Pool.
