(* ===== verification/PoolAllocatorMain.v ===== *)
(** * Pool allocator: main theorems *)

From S2P Require Import Prelude PoolAllocator.

Section History.
Context {T : Type} (sizeT alignT : N).
#[local] Open Scope N_scope.

Inductive alloc_op := OAllocate (construct : result T) | ODeallocate (ptr : option N).
Inductive alloc_out := OAddress (addr : N) | OBadAlloc | OThrow (e : exn) | OUnit.

(** A call, its exception caught. *)
Definition alloc_call (o : alloc_op) : M PoolAllocator alloc_out := λ p,
  match o with
  | OAllocate c =>
    match allocate sizeT alignT c p with
    | Ret p' addr => Ret p' (OAddress addr)
    | Exn p' BadAlloc => Ret p' OBadAlloc
    | Exn p' e => Ret p' (OThrow e)
    | Stuck => Stuck
    end
  | ODeallocate ptr => (deallocate sizeT alignT ptr;; mret OUnit) p
  end.

Fixpoint alloc_calls (ops : list alloc_op) : M PoolAllocator (list alloc_out) :=
  match ops with
  | [] => mret []
  | o :: ops' => r ← alloc_call o; rs ← alloc_calls ops'; mret (r :: rs)
  end.

(** The reference: a stack of free addresses and the objects by address. *)
Definition ref_state : Type := list N * gmap N T.

Definition ref_call (st : ref_state) (o : alloc_op) : ref_state * alloc_out :=
  match o, st with
  | OAllocate _, ([], live) => (st, OBadAlloc)
  | OAllocate (Val x), (addr :: fl, live) => ((fl, <[addr:=x]> live), OAddress addr)
  | OAllocate (Throw BadAlloc), _ => (st, OBadAlloc)
  | OAllocate (Throw e), _ => (st, OThrow e)
  | OAllocate Undef, _ => (st, OUnit)
  | ODeallocate None, _ => (st, OUnit)
  | ODeallocate (Some addr), (fl, live) => ((addr :: fl, delete addr live), OUnit)
  end.

Fixpoint ref_calls (st : ref_state) (ops : list alloc_op) : ref_state * list alloc_out :=
  match ops with
  | [] => (st, [])
  | o :: ops' => let '(st1, r) := ref_call st o in let '(st2, rs) := ref_calls st1 ops' in (st2, r :: rs)
  end.

(** Clients free only what is allocated; constructors return or throw. *)
Fixpoint valid_calls (st : ref_state) (ops : list alloc_op) : Prop :=
  match ops with
  | [] => True
  | o :: ops' =>
    match o with
    | OAllocate c => c ≠ Undef
    | ODeallocate (Some addr) => is_Some (st.2 !! addr)
    | ODeallocate None => True
    end ∧ valid_calls (ref_call st o).1 ops'
  end.

Hypothesis align_pos : 0 < alignT.

Lemma alloc_calls_spec ops p a fl live :
  pool_ok sizeT alignT p a fl live → valid_calls (fl, live) ops →
  ∃ p' a', alloc_calls ops p = Ret p' (ref_calls (fl, live) ops).2 ∧
    pool_ok sizeT alignT p' a' (ref_calls (fl, live) ops).1.1 (ref_calls (fl, live) ops).1.2 ∧
    base a' = base a ∧ capacity_ p' = capacity_ p.
Proof.
  revert p a fl live. induction ops as [|o ops IH]; intros p a fl live Hp Hv; [by exists p, a|].
  destruct Hv as [Ho Hv]. cbn [alloc_calls ref_calls].
  assert (∃ p1 a1, alloc_call o p = Ret p1 (ref_call (fl, live) o).2 ∧
    pool_ok sizeT alignT p1 a1 (ref_call (fl, live) o).1.1 (ref_call (fl, live) o).1.2 ∧
    base a1 = base a ∧ capacity_ p1 = capacity_ p) as (p1 & a1 & Hrun & Hp1 & Hb1 & Hc1).
  { destruct o as [c|[addr|]]; unfold alloc_call.
    - pose proof (allocate_spec sizeT alignT align_pos p a fl live c Hp) as Ha. destruct fl as [|node fl].
      + rewrite Ha. exists p, a. by destruct c as [|[]|].
      + destruct c as [x|e|]; [| |done].
        * destruct Ha as (p' & a' & -> & ? & _ & ? & ?). by exists p', a'.
        * rewrite Ha. exists p, a. by destruct e.
    - destruct Ho as [x Hx]. destruct (deallocate_spec sizeT alignT align_pos p a fl live addr x Hp Hx)
        as (p' & a' & Hrun & ? & ? & ?). erewrite M_bind_run by done. by exists p', a'.
    - by exists p, a. }
  erewrite M_bind_run by done. destruct (ref_call (fl, live) o) as [[fl1 live1] r]. simpl in *.
  destruct (IH p1 a1 fl1 live1 Hp1 Hv) as (p2 & a2 & Hrun2 & Hp2 & ? & ?). erewrite M_bind_run by done.
  destruct (ref_calls (fl1, live1) ops) as [st2 rs]. mrun. exists p2, a2. split_and!; try done; congruence.
Qed.

(** C34: For every capacity from 1 on whose product with the block size is below
    2^64, so that the size of the arena does not wrap, every address at which the
    arena was allocated, and every sequence of allocations (whose constructors may
    throw) and deallocations of live objects, the pool hands out the most recently
    freed block, or the next of the arena; of itself it throws [bad_alloc] exactly
    when no block is free; what a constructor throws passes through and leaves the
    pool as it was; blocks lie inside the arena and an object keeps its value until
    it is freed; [inUse] and [available] count. *)
Theorem pool_allocator_history (newAt cap : N) (ops : list alloc_op) :
  0 < cap → cap * kBlockSize sizeT alignT < 2 ^ 64 →
  valid_calls (addrs sizeT alignT newAt 0 (N.to_nat cap), ∅) ops →
  ∃ p0 p a, makePool sizeT alignT newAt cap = Val p0 ∧
    alloc_calls ops p0 = Ret p (ref_calls (addrs sizeT alignT newAt 0 (N.to_nat cap), ∅) ops).2 ∧
    let '(fl, live) := (ref_calls (addrs sizeT alignT newAt 0 (N.to_nat cap), ∅) ops).1 in
    pool_ok sizeT alignT p a fl live ∧ base a = newAt ∧
    inUse p = N.of_nat (base.size live) ∧ available p = N.of_nat (length fl).
Proof.
  intros Hcap Hlt Hv. destruct (makePool_spec (T := T) sizeT alignT align_pos newAt cap Hcap Hlt) as (p0 & a0 & Hm & Hp0 & Hb0 & Hc0).
  destruct (alloc_calls_spec ops p0 a0 _ _ Hp0 Hv) as (p & a & Hrun & Hp & Hb & Hc).
  exists p0, p, a. split; [done|]. split; [done|]. destruct (ref_calls _ ops) as [[fl live] outs]. simpl in *.
  split; [done|]. split; [congruence|]. split; [apply Hp|].
  unfold available, wrap. pose proof (po_count _ _ _ _ _ _ Hp) as Hcount. pose proof (po_size _ _ _ _ _ _ Hp).
  pose proof (kBlockSize_pos sizeT alignT align_pos). symmetry. apply (N.mod_unique _ _ 1); nia.
Qed.

(** The block layout is right for every element type whose alignment is a
    power of two: a block holds an object or a free node, block addresses have
    the alignment of both, and different blocks do not overlap. *)
Theorem pool_block_layout (k : N) (newAt : N) (i j : nat) :
  alignT = 2 ^ k → (kBlockAlign alignT | newAt) →
  let addr i := newAt + N.of_nat i * kBlockSize sizeT alignT in
  sizeT ≤ kBlockSize sizeT alignT ∧ sizeFreeNode ≤ kBlockSize sizeT alignT ∧
  (alignT | addr i) ∧ (alignFreeNode | addr i) ∧
  (i ≠ j → addr i + kBlockSize sizeT alignT ≤ addr j ∨ addr j + kBlockSize sizeT alignT ≤ addr i).
Proof.
  intros Hk Hbase addr.
  destruct (roundUp_spec (maxOf sizeT sizeFreeNode) (kBlockAlign alignT) (kBlockAlign_pos alignT align_pos)) as [Hdiv Hle].
  fold (kBlockSize sizeT alignT) in Hdiv, Hle. rewrite maxOf_spec in Hle.
  assert (Hal : (kBlockAlign alignT | addr i)).
  { unfold addr. apply N.divide_add_r; [done|]. by apply N.divide_mul_r. }
  assert (Hmax : (alignT | kBlockAlign alignT) ∧ (alignFreeNode | kBlockAlign alignT)).
  { unfold kBlockAlign. rewrite maxOf_spec. unfold alignFreeNode. rewrite Hk. change 8 with (2 ^ 3).
    destruct (N.le_ge_cases k 3) as [Hle3|Hle3].
    - rewrite N.max_r by (by apply N.pow_le_mono_r). split; [|done]. exists (2 ^ (3 - k)). rewrite <- N.pow_add_r. f_equal. lia.
    - rewrite N.max_l by (by apply N.pow_le_mono_r). split; [done|]. exists (2 ^ (k - 3)). rewrite <- N.pow_add_r. f_equal. lia. }
  destruct Hmax as [Hm1 Hm2]. split; [lia|]. split; [lia|]. split; [by etrans|]. split; [by etrans|].
  unfold addr. nia.
Qed.

(** A capacity whose arena does not fit 64 bits is not refused: the size of
    the arena wraps around, and building the free list writes outside of it. *)
Theorem pool_construct_overrun (newAt cap : N) :
  kBlockSize sizeT alignT < 2 ^ 64 → 2 ^ 64 ≤ cap * kBlockSize sizeT alignT →
  makePool (T := T) sizeT alignT newAt cap = Undef.
Proof. by apply makePool_overrun. Qed.
End History.

Definition demo_allocs : list (alloc_op (T := nat)) :=
  [OAllocate (Val 5); OAllocate (Throw (RuntimeError "ctor")); OAllocate (Val 6); OAllocate (Val 7);
   ODeallocate (Some 1000%N); OAllocate (Val 8)].

Lemma pool_allocator_history_witness :
  ∃ p0 p a, makePool 4 4 1000 2 = Val p0 ∧
    alloc_calls 4 4 demo_allocs p0 = Ret p (ref_calls (addrs 4 4 1000 0 2, ∅) demo_allocs).2 ∧
    let '(fl, live) := (ref_calls (addrs 4 4 1000 0 2, ∅) demo_allocs).1 in
    pool_ok 4 4 p a fl live ∧ base a = 1000%N ∧
    inUse p = N.of_nat (base.size live) ∧ available p = N.of_nat (length fl).
Proof.
  apply (pool_allocator_history 4 4 ltac:(lia) 1000 2 demo_allocs); [lia|vm_compute; reflexivity|].
  simpl. repeat split; try discriminate. eexists. reflexivity.
Defined.

Lemma pool_block_layout_witness :
  let addr i := (64 + N.of_nat i * kBlockSize 24 16)%N in
  (24 ≤ kBlockSize 24 16 ∧ sizeFreeNode ≤ kBlockSize 24 16 ∧ (16 | addr 3%nat) ∧ (alignFreeNode | addr 3%nat) ∧
  (3 ≠ 4 → addr 3%nat + kBlockSize 24 16 ≤ addr 4%nat ∨ addr 4%nat + kBlockSize 24 16 ≤ addr 3%nat))%N.
Proof.
  destruct (pool_block_layout 24 16 ltac:(lia) 4 64 3 4) as (H1 & H2 & H3 & H4 & H5); [reflexivity|by exists 4%N|].
  split; [exact H1|]. split; [exact H2|]. split; [exact H3|]. split; [exact H4|]. intros _. apply H5. discriminate.
Defined.

Lemma pool_construct_overrun_witness : makePool (T := nat) 8 8 4096 (2 ^ 61) = Undef.
Proof. apply (pool_construct_overrun 8 8); [lia|vm_compute; reflexivity|vm_compute; discriminate]. Defined.
