(* ===== verification/CxxStd.v ===== *)
(** * The C++ standard library functions that the code calls

    Strings are sequences of bytes; [std::from_chars] and [std::to_string] on
    [std::int64_t]; the C-locale character classes of [<cctype>]; [operator<] of
    [std::string].  The main result is that parsing inverts printing. *)

From S2P Require Import Prelude.
From Stdlib Require Import Ascii.

(** ** Machine integers *)
Definition INT64_MIN : Z := - 2 ^ 63.
Definition INT64_MAX : Z := 2 ^ 63 - 1.
Definition is_int64 (z : Z) : Prop := (INT64_MIN ≤ z ≤ INT64_MAX)%Z.

#[export] Instance is_int64_dec z : Decision (is_int64 z).
Proof. unfold is_int64. apply _. Defined.

(** ** Characters *)
Definition code (c : ascii) : N := N_of_ascii c.
Definition between (lo hi c : ascii) : bool := ((code lo <=? code c) && (code c <=? code hi))%N.

Definition isdigit (c : ascii) : bool := between "0" "9" c.
Definition isupper (c : ascii) : bool := between "A" "Z" c.
Definition islower (c : ascii) : bool := between "a" "z" c.
Definition isalpha (c : ascii) : bool := isupper c || islower c.
Definition isalnum (c : ascii) : bool := isalpha c || isdigit c.
(** space, \t, \n, \v, \f, \r *)
Definition isspace (c : ascii) : bool :=
  (code c =? 32)%N || ((9 <=? code c) && (code c <=? 13))%N.
Definition toupper (c : ascii) : ascii :=
  if islower c then ascii_of_N (code c - 32) else c.

(** ** Strings *)
Fixpoint string_map (f : ascii → ascii) (s : string) : string :=
  match s with "" => "" | String c s' => String (f c) (string_map f s') end.

Fixpoint string_forallb (f : ascii → bool) (s : string) : bool :=
  match s with "" => true | String c s' => f c && string_forallb f s' end.

(** [a < b], byte by byte, a proper prefix being smaller *)
Fixpoint string_ltb (a b : string) : bool :=
  match a, b with
  | _, "" => false
  | "", String _ _ => true
  | String c a', String d b' =>
    (code c <? code d)%N || ((code c =? code d)%N && string_ltb a' b')
  end.

(** ** [std::from_chars(first, last, std::int64_t&)]

    The value parsed, the unconsumed rest and the error.  A sequence that
    overflows is consumed whole; a range without a number is not consumed. *)
Inductive errc := errc_ok | errc_invalid_argument | errc_result_out_of_range.

#[export] Instance errc_eq_dec : EqDecision errc.
Proof. solve_decision. Defined.

Definition digitValue (c : ascii) : Z := Z.of_N (code c) - 48.

Fixpoint scanDigits (acc : Z) (s : string) : Z * string :=
  match s with
  | String c s' => if isdigit c then scanDigits (acc * 10 + digitValue c) s' else (acc, s)
  | "" => (acc, s)
  end.

Definition startsWithDigit (s : string) : bool :=
  match s with String c _ => isdigit c | "" => false end.

Definition from_chars (s : string) : Z * string * errc :=
  let '(negative, digits) :=
    match s with
    | String c s' => if bool_decide (c = "-"%char) then (true, s') else (false, s)
    | "" => (false, s)
    end in
  if startsWithDigit digits then
    let '(magnitude, rest) := scanDigits 0 digits in
    let z := if negative : bool then (- magnitude)%Z else magnitude in
    if decide (is_int64 z) then (z, rest, errc_ok) else (0%Z, rest, errc_result_out_of_range)
  else (0%Z, s, errc_invalid_argument).

(** ** [std::to_string(std::int64_t)] *)
Definition digitChar (d : N) : ascii := ascii_of_N (48 + d).

Fixpoint decimal (fuel : nat) (n : N) (acc : string) : string :=
  match fuel with
  | 0 => acc
  | S fuel' =>
    let acc' := String (digitChar (n mod 10)) acc in
    if (n <? 10)%N then acc' else decimal fuel' (n / 10) acc'
  end.

(** A number of [b] bits has at most [b] digits. *)
Definition to_string_N (n : N) : string := decimal (S (N.to_nat (N.log2 n))) n "".

Definition to_string (z : Z) : string :=
  if (z <? 0)%Z then String "-" (to_string_N (Z.to_N (- z))) else to_string_N (Z.to_N z).

(** ** Printing and parsing *)
Lemma digitChar_digit d : (d < 10)%N → isdigit (digitChar d) = true ∧ digitValue (digitChar d) = Z.of_N d.
Proof.
  intros Hd. unfold isdigit, between, digitValue, digitChar, code.
  rewrite N_ascii_embedding by lia. split; [|lia].
  change (N_of_ascii "0") with 48%N. change (N_of_ascii "9") with 57%N.
  apply andb_true_intro. split; apply N.leb_le; lia.
Qed.

Lemma scan_decimal fuel n rest :
  (n < 2 ^ N.of_nat fuel)%N →
  (∃ k : nat, ∀ acc,
     scanDigits acc (decimal fuel n rest) = scanDigits (acc * 10 ^ Z.of_nat k + Z.of_N n) rest) ∧
  (1 ≤ fuel → startsWithDigit (decimal fuel n rest) = true).
Proof.
  revert n rest. induction fuel as [|fuel IH]; intros n rest Hn.
  - assert (n = 0%N) as -> by (simpl in Hn; lia). split; [|lia]. exists 0. intros acc. simpl.
    f_equal. lia.
  - cbn [decimal]. set (rest' := String (digitChar (n mod 10)) rest).
    destruct (digitChar_digit (n mod 10)) as [Hd Hv]; [apply N.mod_lt; lia|].
    assert (Hone : ∀ acc, scanDigits acc rest' = scanDigits (acc * 10 + Z.of_N (n mod 10)) rest).
    { intros acc. unfold rest'. cbn [scanDigits]. by rewrite Hd, Hv. }
    destruct (N.ltb_spec n 10) as [Hlt|Hlt].
    + split; [|intros _; exact Hd]. exists 1. intros acc. rewrite Hone. f_equal.
      rewrite N.mod_small by lia. lia.
    + assert (Hpow : (2 ^ N.of_nat (S fuel) = 2 * 2 ^ N.of_nat fuel)%N).
      { replace (N.of_nat (S fuel)) with (N.succ (N.of_nat fuel)) by lia. apply N.pow_succ_r'. }
      assert (Hq : (n / 10 < 2 ^ N.of_nat fuel)%N) by (apply N.Div0.div_lt_upper_bound; lia).
      destruct (IH (n / 10)%N rest' Hq) as [[k Hk] Hs]. split.
      * exists (S k). intros acc. rewrite Hk, Hone. f_equal.
        pose proof (N.div_mod n 10). rewrite Nat2Z.inj_succ, Z.pow_succ_r by lia. lia.
      * intros _. apply Hs. destruct fuel; [|lia]. exfalso. simpl in Hq.
        assert (n / 10 ≠ 0)%N; [|lia]. intros ?%N.div_small_iff; lia.
Qed.

Lemma log2_fuel n : (n < 2 ^ N.of_nat (S (N.to_nat (N.log2 n))))%N.
Proof.
  replace (N.of_nat (S (N.to_nat (N.log2 n)))) with (N.succ (N.log2 n)) by lia.
  destruct (decide (n = 0)%N) as [->|]; [done|]. apply N.log2_spec. lia.
Qed.

Lemma to_string_N_scan n :
  startsWithDigit (to_string_N n) = true ∧ scanDigits 0 (to_string_N n) = (Z.of_N n, "").
Proof.
  unfold to_string_N. destruct (scan_decimal _ n "" (log2_fuel n)) as [[k Hk] Hs].
  split; [apply Hs; lia|]. by rewrite Hk.
Qed.

Lemma from_to_string z : is_int64 z → from_chars (to_string z) = (z, "", errc_ok).
Proof.
  intros Hz. unfold from_chars, to_string. destruct (z <? 0)%Z eqn:Hneg.
  - destruct (to_string_N_scan (Z.to_N (- z))) as [Hs Hd].
    rewrite bool_decide_eq_true_2 by done. rewrite Hs, Hd.
    replace (- Z.of_N (Z.to_N (- z)))%Z with z by lia. by rewrite decide_True.
  - destruct (to_string_N_scan (Z.to_N z)) as [Hs Hd].
    destruct (to_string_N (Z.to_N z)) as [|c s'] eqn:Heq; [done|].
    rewrite bool_decide_eq_false_2 by (intros ->; done). rewrite Hs, Hd.
    replace (Z.of_N (Z.to_N z)) with z by lia. by rewrite decide_True.
Qed.

Lemma from_chars_int64 s z rest : from_chars s = (z, rest, errc_ok) → is_int64 z.
Proof.
  unfold from_chars. destruct s as [|c s]; simpl; [done|].
  case_bool_decide; (case_match; [|done]); destruct (scanDigits _ _) as [m r];
    case_decide; intros; by simplify_eq.
Qed.

(** ** The order of strings *)
Lemma code_inj a b : code a = code b → a = b.
Proof. intros Heq. rewrite <- (ascii_N_embedding a), <- (ascii_N_embedding b). by f_equal. Qed.

Lemma string_ltb_cons c a d b :
  string_ltb (String c a) (String d b) = true ↔ (code c < code d)%N ∨ (c = d ∧ string_ltb a b = true).
Proof.
  cbn [string_ltb]. rewrite orb_true_iff, andb_true_iff, N.ltb_lt, N.eqb_eq. split.
  - intros [?|[?%code_inj ?]]; [by left|by right].
  - intros [?|[-> ?]]; [by left|by right].
Qed.

Lemma string_ltb_irrefl a : string_ltb a a = false.
Proof.
  induction a as [|c a IH]; [done|]. apply not_true_is_false. rewrite string_ltb_cons.
  intros [?|[_ ?]]; [lia|congruence].
Qed.

Lemma string_ltb_trans a b c : string_ltb a b = true → string_ltb b c = true → string_ltb a c = true.
Proof.
  revert b c. induction a as [|x a IH]; intros [|y b] [|z c] Hab Hbc; try done.
  rewrite string_ltb_cons in *. destruct Hab as [Hab|[-> Hab]], Hbc as [Hbc|[-> Hbc]].
  - left. lia.
  - by left.
  - by left.
  - right. split; [done|]. by eapply IH.
Qed.

Lemma string_ltb_total a b : string_ltb a b = true ∨ a = b ∨ string_ltb b a = true.
Proof.
  revert b. induction a as [|x a IH]; intros [|y b]; [by right; left|by left|by right; right|].
  rewrite !string_ltb_cons. destruct (N.lt_trichotomy (code x) (code y)) as [?|[->%code_inj|?]]; [by left; left| |by right; right; left].
  destruct (IH b) as [?|[->|?]]; [left; right; done|right; left; done|right; right; right; done].
Qed.
