(* ===== verification/TCPSetup.v ===== *)
(** * TCP server: set-up and tear-down (include/network/TCPServer.hpp, src/network/tcp_server.cpp)

    The constructor and the destructor as sequences of system calls.  The kernel
    is its tables (open descriptors, their flags, what is bound and what the
    queue watches) and the results of the calls to come; which free descriptor
    number it hands out, and which port it gives to a socket that asks for port 0,
    are parameters. *)

From S2P Require Import Prelude CxxStd ThreadPool.

(** ** The kernel *)
Record os := mkOs {
  os_open : gset nat;
  os_nonblocking : gset nat;
  os_bound : gmap nat (Z * Z);         (* address and port *)
  os_listening : gset nat;
  os_watched : gset nat;               (* for reads, by the queue *)
  os_results : list (option string);   (* of the next calls: an error has a text *)
}.

(** [INADDR_LOOPBACK]: 127.0.0.1 *)
Definition INADDR_LOOPBACK : Z := 127 * 2 ^ 24 + 1.

Section Setup.
Context (pick : gset nat → nat) (ephemeral : Z).

(** [throw std::runtime_error("TCPServer: " + what + ": " + std::strerror(errno))] *)
Definition throwErrno {S A} (what text : string) : M S A :=
  throw (RuntimeError ("TCPServer: " +:+ what +:+ ": " +:+ text)).

(** The result of the next call that may fail; calls succeed when none is given. *)
Definition nextResult : M os (option string) :=
  k ← get_state;
  match os_results k with
  | [] => mret None
  | r :: rs =>
    put_state (mkOs (os_open k) (os_nonblocking k) (os_bound k) (os_listening k) (os_watched k) rs);;
    mret r
  end.

(** [if (call < 0) throwErrno(what)] *)
Definition attempt {A} (what : string) (call : M os A) : M os A :=
  r ← nextResult;
  match r with
  | None => call
  | Some text => throwErrno what text
  end.

Definition newFd : M os nat :=
  k ← get_state;
  let f := pick (os_open k) in
  put_state (mkOs ({[f]} ∪ os_open k) (os_nonblocking k) (os_bound k) (os_listening k) (os_watched k) (os_results k));;
  mret f.

(** [pipe]: the read end and the write end *)
Definition newPipe : M os (nat * nat) := r ← newFd; w ← newFd; mret (r, w).

Definition setNonBlocking (f : nat) : M os unit :=
  k ← get_state;
  put_state (mkOs (os_open k) ({[f]} ∪ os_nonblocking k) (os_bound k) (os_listening k) (os_watched k) (os_results k)).

(** [bind]: a socket that asks for port 0 gets a port of the kernel's. *)
Definition bindTo (f : nat) (address port : Z) : M os unit :=
  k ← get_state;
  let given := if bool_decide (port = 0%Z) then ephemeral else port in
  put_state (mkOs (os_open k) (os_nonblocking k) (<[f:=(address, given)]> (os_bound k)) (os_listening k) (os_watched k) (os_results k)).

(** [getsockname]: the port *)
Definition boundPort (f : nat) : M os Z :=
  k ← get_state; b ← lift (deref (os_bound k !! f)); mret b.2.

Definition listenOn (f : nat) : M os unit :=
  k ← get_state;
  put_state (mkOs (os_open k) (os_nonblocking k) (os_bound k) ({[f]} ∪ os_listening k) (os_watched k) (os_results k)).

(** [EV_SET(..., EVFILT_READ, EV_ADD, ...)] and [kevent] *)
Definition watch (fs : gset nat) : M os unit :=
  k ← get_state;
  put_state (mkOs (os_open k) (os_nonblocking k) (os_bound k) (os_listening k) (fs ∪ os_watched k) (os_results k)).

(** [close]: the number is free again, and nothing refers to the descriptor. *)
Definition closeFd (f : nat) : M os unit :=
  k ← get_state;
  put_state (mkOs (os_open k ∖ {[f]}) (os_nonblocking k ∖ {[f]}) (delete f (os_bound k)) (os_listening k ∖ {[f]})
    (os_watched k ∖ {[f]}) (os_results k)).

(** ** The constructor *)
Record fds := mkFds {
  listenFd_ : nat;
  kqueueFd_ : nat;
  wakeRead : nat;    (* wakePipe_[0] *)
  wakeWrite : nat;   (* wakePipe_[1] *)
  port_ : Z;
}.

Definition openServer (port : Z) (workerCount : nat) : M os fds :=
  _ ← lift (makePool (Task := nat) workerCount);
  listenFd ← attempt "socket" newFd;
  attempt ("bind to port " +:+ to_string port) (bindTo listenFd INADDR_LOOPBACK port);;
  actual ← boundPort listenFd;
  attempt "listen" (listenOn listenFd);;
  setNonBlocking listenFd;;
  '(r, w) ← attempt "pipe" newPipe;
  setNonBlocking r;;
  kq ← attempt "kqueue" newFd;
  attempt "kevent register" (watch {[listenFd; r]});;
  mret (mkFds listenFd kq r w actual).

(** ** The destructor, behind the drained pool *)
Definition closeServer (clients : list nat) (f : fds) : M os unit :=
  forM clients closeFd;;
  closeFd (listenFd_ f);;
  closeFd (kqueueFd_ f);;
  closeFd (wakeRead f);;
  closeFd (wakeWrite f).

(** ** What they do *)
Definition withResults (k : os) (rs : list (option string)) : os :=
  mkOs (os_open k) (os_nonblocking k) (os_bound k) (os_listening k) (os_watched k) rs.

Lemma nextResult_run k : nextResult k = Ret (withResults k (tail (os_results k))) (mjoin (head (os_results k))).
Proof. unfold nextResult. mrun. by destruct k as [? ? ? ? ? [|r rs]]. Qed.

Lemma attempt_run {A} what (call : M os A) k :
  attempt what call k =
    match mjoin (head (os_results k)) with
    | None => call (withResults k (tail (os_results k)))
    | Some text => throwErrno what text (withResults k (tail (os_results k)))
    end.
Proof. unfold attempt. erewrite M_bind_run by apply nextResult_run. by destruct (mjoin _). Qed.

Lemma attempt_bind {A B} what (call : M os A) (f : A → M os B) k :
  (attempt what call ≫= f) k =
    match mjoin (head (os_results k)) with
    | None => (call ≫= f) (withResults k (tail (os_results k)))
    | Some text => throwErrno what text (withResults k (tail (os_results k)))
    end.
Proof. unfold mbind at 1, M_bind at 1. rewrite attempt_run. by destruct (mjoin _). Qed.

Lemma newFd_run k :
  newFd k = Ret (mkOs ({[pick (os_open k)]} ∪ os_open k) (os_nonblocking k) (os_bound k) (os_listening k) (os_watched k) (os_results k))
    (pick (os_open k)).
Proof. done. Qed.

Lemma newPipe_run k :
  let r := pick (os_open k) in let w := pick ({[r]} ∪ os_open k) in
  newPipe k = Ret (mkOs ({[w]} ∪ ({[r]} ∪ os_open k)) (os_nonblocking k) (os_bound k) (os_listening k) (os_watched k) (os_results k)) (r, w).
Proof. done. Qed.

Lemma bindTo_run f a port k :
  bindTo f a port k =
    Ret (mkOs (os_open k) (os_nonblocking k) (<[f:=(a, if bool_decide (port = 0%Z) then ephemeral else port)]> (os_bound k))
      (os_listening k) (os_watched k) (os_results k)) ().
Proof. done. Qed.

Lemma boundPort_run f b k : os_bound k !! f = Some b → boundPort f k = Ret k b.2.
Proof. intros Hb. unfold boundPort. rewrite M_get_bind, Hb. done. Qed.

Lemma listenOn_run f k :
  listenOn f k = Ret (mkOs (os_open k) (os_nonblocking k) (os_bound k) ({[f]} ∪ os_listening k) (os_watched k) (os_results k)) ().
Proof. done. Qed.

Lemma setNonBlocking_run f k :
  setNonBlocking f k = Ret (mkOs (os_open k) ({[f]} ∪ os_nonblocking k) (os_bound k) (os_listening k) (os_watched k) (os_results k)) ().
Proof. done. Qed.

Lemma watch_run fs k :
  watch fs k = Ret (mkOs (os_open k) (os_nonblocking k) (os_bound k) (os_listening k) (fs ∪ os_watched k) (os_results k)) ().
Proof. done. Qed.

Definition fdsOf (f : fds) : list nat := [kqueueFd_ f; wakeWrite f; wakeRead f; listenFd_ f].

(** The calls that can fail, and how many descriptors are open by then. *)
Definition stages (port : Z) : list (string * nat) :=
  [("socket", 0); ("bind to port " +:+ to_string port, 1); ("listen", 1); ("pipe", 1); ("kqueue", 3); ("kevent register", 4)].

Record setUp (port : Z) (k k' : os) (f : fds) : Prop := {
  su_fresh : NoDup (fdsOf f) ∧ ∀ x, x ∈ fdsOf f → x ∉ os_open k;
  su_open : os_open k' = list_to_set (fdsOf f) ∪ os_open k;
  su_nonblocking : os_nonblocking k' = {[wakeRead f; listenFd_ f]} ∪ os_nonblocking k;
  su_watched : os_watched k' = {[listenFd_ f; wakeRead f]} ∪ os_watched k;
  su_bound : os_bound k' = <[listenFd_ f:=(INADDR_LOOPBACK, port_ f)]> (os_bound k);
  su_listening : os_listening k' = {[listenFd_ f]} ∪ os_listening k;
  su_port : port_ f = if bool_decide (port = 0%Z) then ephemeral else port;
}.

Definition failed (port : Z) (k k' : os) (e : exn) : Prop :=
  ∃ what i text, (what, i) ∈ stages port ∧ e = RuntimeError ("TCPServer: " +:+ what +:+ ": " +:+ text) ∧
    os_open k ⊆ os_open k' ∧ base.size (os_open k') = i + base.size (os_open k).

Hypothesis pick_fresh : ∀ o, pick o ∉ o.

Lemma size_add x (o : gset nat) : x ∉ o → base.size ({[x]} ∪ o) = S (base.size o).
Proof. intros Hx. rewrite size_union by set_solver. by rewrite size_singleton. Qed.

Lemma failed_at port k k' what i text :
  (what, i) ∈ stages port → os_open k ⊆ os_open k' → base.size (os_open k') = i + base.size (os_open k) →
  failed port k k' (RuntimeError ("TCPServer: " +:+ what +:+ ": " +:+ text)).
Proof. intros. by exists what, i, text. Qed.

(** A call that may fail with [i] descriptors open, a call that does not, and a
    name for a new descriptor. *)
Ltac tidy := cbn [os_open os_nonblocking os_bound os_listening os_watched os_results withResults fst snd].
Ltac stage i :=
  rewrite attempt_bind; destruct (mjoin _) as [?|];
  [apply (failed_at _ _ _ _ i); tidy; [by repeat constructor|set_solver|by rewrite ?size_add]|tidy].
Ltac call lem := erewrite M_bind_run by (apply lem); cbn beta iota zeta; tidy.
Ltac name_fd x H :=
  match goal with |- context [pick ?o] => pose proof (pick_fresh o) as H; generalize dependent (pick o); intros x H end.

Lemma openServer_spec port workerCount k :
  0 < workerCount →
  match openServer port workerCount k with
  | Ret k' f => setUp port k k' f
  | Exn k' e => failed port k k' e
  | Stuck => False
  end.
Proof.
  intros Hn. unfold openServer, makePool. rewrite bool_decide_eq_false_2 by lia. mrun.
  stage 0. call newFd_run. name_fd l H1.
  stage 1. call bindTo_run. erewrite M_bind_run by apply boundPort_run, lookup_insert_eq. tidy.
  stage 1. call listenOn_run. call setNonBlocking_run.
  stage 1. call newPipe_run. name_fd r H2. name_fd w H3. call setNonBlocking_run.
  stage 3. call newFd_run. name_fd q H4.
  stage 4. call watch_run. rewrite M_ret_run. tidy.
  apply not_elem_of_union in H2 as [H21%not_elem_of_singleton H22].
  apply not_elem_of_union in H3 as [H31%not_elem_of_singleton [H32%not_elem_of_singleton H33]%not_elem_of_union].
  apply not_elem_of_union in H4 as [H41%not_elem_of_singleton
    [H42%not_elem_of_singleton [H43%not_elem_of_singleton H44]%not_elem_of_union]%not_elem_of_union].
  split; unfold fdsOf; simpl; try done; [|clear; set_solver..].
  rewrite !NoDup_cons, !not_elem_of_cons. split.
  - pose proof (@NoDup_nil_2 nat). pose proof (@not_elem_of_nil nat). naive_solver.
  - intros x. rewrite !elem_of_cons. intros [->|[->|[->|[->|?%elem_of_nil]]]]; done.
Qed.

End Setup.

(** Closing takes descriptors off every table. *)
Definition without (X : gset nat) (k : os) : os :=
  mkOs (os_open k ∖ X) (os_nonblocking k ∖ X) (base.filter (λ b, b.1 ∉ X) (os_bound k)) (os_listening k ∖ X)
    (os_watched k ∖ X) (os_results k).

Lemma without_union X X' k : without X' (without X k) = without (X ∪ X') k.
Proof.
  unfold without. simpl. f_equal; try set_solver. rewrite map_filter_filter. apply map_filter_ext. simpl. set_solver.
Qed.

Lemma closeFd_run f k : closeFd f k = Ret (without {[f]} k) ().
Proof.
  unfold closeFd, without. mrun. repeat f_equal. apply map_eq. intros f'. apply option_eq. intros b.
  rewrite lookup_delete_Some, map_lookup_filter_Some. simpl. set_solver.
Qed.

Lemma closeFds_run l k : forM l closeFd k = Ret (without (list_to_set l) k) ().
Proof.
  revert k. induction l as [|f l IH]; intros k; simpl.
  - unfold without. destruct k as [o nb b li wa rs]. simpl. mrun. repeat f_equal; try set_solver.
    symmetry. apply map_filter_id. set_solver.
  - erewrite M_bind_run by apply closeFd_run. by rewrite IH, without_union.
Qed.

Lemma closeServer_run clients f k : closeServer clients f k = Ret (without (list_to_set clients ∪ list_to_set (fdsOf f)) k) ().
Proof.
  unfold closeServer. erewrite M_bind_run by apply closeFds_run. do 3 (erewrite M_bind_run by apply closeFd_run).
  rewrite closeFd_run, !without_union. do 2 f_equal. unfold fdsOf. simpl. set_solver.
Qed.


(** Descriptors 0, 1 and 2 are in use; the port is left to the kernel. *)
Definition demo_os (rs : list (option string)) : os := mkOs {[0; 1; 2]} ∅ ∅ ∅ ∅ rs.

