(* ===== verification/Schema.v ===== *)
(** * Schemas (include/core/Schema.hpp, src/core/schema.cpp)

    Column types, typed cells and the ordered set of column definitions of one
    table.  [Schema::validate] reads a row and is in [Row]. *)

From S2P Require Import Prelude CxxStd.

Inductive DataType := INT | TEXT.

#[export] Instance DataType_eq_dec : EqDecision DataType.
Proof. solve_decision. Defined.

(** [std::variant<std::int64_t, std::string>] *)
Inductive Value := IntV (z : Z) | TextV (s : string).

#[export] Instance Value_eq_dec : EqDecision Value.
Proof. solve_decision. Defined.

Definition toStringType (type : DataType) : string :=
  match type with INT => "INT" | TEXT => "TEXT" end.

Definition toStringValue (value : Value) : string :=
  match value with IntV number => to_string number | TextV s => s end.

Definition dataTypeFromString (name : string) : option DataType :=
  if bool_decide (name = "INT") then Some INT
  else if bool_decide (name = "TEXT") then Some TEXT
  else None.

Definition isValidValueFor (type : DataType) (value : string) : bool :=
  match type with
  | INT =>
    let '(_, rest, ec) := from_chars value in
    bool_decide (ec = errc_ok) && bool_decide (rest = "")
  | TEXT => true
  end.

Record Column := mkColumn { name : string; type : DataType }.

#[export] Instance Column_eq_dec : EqDecision Column.
Proof. solve_decision. Defined.

(** The class has one member, [columns_]. *)
Record Schema := mkSchema { columns_ : list Column }.

#[export] Instance Schema_eq_dec : EqDecision Schema.
Proof. solve_decision. Defined.

Definition columns (s : Schema) : list Column := columns_ s.
Definition columnCount (s : Schema) : nat := length (columns_ s).

(** [std::find_if] from the front *)
Fixpoint findByName (columnName : string) (cs : list Column) : option Column :=
  match cs with
  | [] => None
  | c :: cs' => if bool_decide (name c = columnName) then Some c else findByName columnName cs'
  end.

Definition findColumn (s : Schema) (columnName : string) : option Column :=
  findByName columnName (columns_ s).

Definition hasColumn (s : Schema) (columnName : string) : bool :=
  if findColumn s columnName is Some _ then true else false.

Fixpoint indexByName (columnName : string) (cs : list Column) (i : nat) : option nat :=
  match cs with
  | [] => None
  | c :: cs' =>
    if bool_decide (name c = columnName) then Some i else indexByName columnName cs' (S i)
  end.

Definition columnIndex (s : Schema) (columnName : string) : option nat :=
  indexByName columnName (columns_ s) 0.

Definition addColumn (s : Schema) (columnName : string) (t : DataType) : result Schema :=
  if bool_decide (columnName = "") then
    Throw (InvalidArgument "Schema: column name must not be empty")
  else if hasColumn s columnName then
    Throw (InvalidArgument ("Schema: duplicate column '" +:+ columnName +:+ "'"))
  else Val (mkSchema (columns_ s ++ [mkColumn columnName t])).

(** ** Column names are unique and not empty *)
Definition schema_ok (s : Schema) : Prop :=
  NoDup (name <$> columns_ s) ∧ "" ∉ name <$> columns_ s.

#[export] Instance schema_ok_dec s : Decision (schema_ok s).
Proof. unfold schema_ok. apply _. Defined.

Lemma findByName_spec cn cs : findByName cn cs = None ↔ cn ∉ name <$> cs.
Proof.
  induction cs as [|c cs IH]; csimpl; [split; [by intros _ ?%elem_of_nil|done]|].
  case_bool_decide as Hc; rewrite not_elem_of_cons; [|rewrite IH; naive_solver].
  split; [done|]. intros [? _]. congruence.
Qed.

(** The two lookups agree. *)
Lemma indexByName_spec cn cs i :
  match indexByName cn cs i with
  | Some j => ∃ c, i ≤ j < i + length cs ∧ cs !! (j - i) = Some c ∧ name c = cn ∧
      findByName cn cs = Some c
  | None => findByName cn cs = None
  end.
Proof.
  revert i. induction cs as [|c cs IH]; intros i; csimpl; [done|].
  case_bool_decide as Hc.
  - exists c. rewrite Nat.sub_diag. split; [lia|done].
  - specialize (IH (S i)). destruct (indexByName cn cs (S i)) as [j|]; [|done].
    destruct IH as (c' & Hj & Hl & Hn & Hf). exists c'. split; [lia|].
    replace (j - i) with (S (j - S i)) by lia. done.
Qed.

Lemma columnIndex_spec s cn :
  match columnIndex s cn with
  | Some j => ∃ c, columns_ s !! j = Some c ∧ name c = cn ∧ findColumn s cn = Some c
  | None => findColumn s cn = None
  end.
Proof.
  unfold columnIndex, findColumn. pose proof (indexByName_spec cn (columns_ s) 0) as Hi.
  destruct (indexByName cn (columns_ s) 0) as [j|]; [|done].
  destruct Hi as (c & Hj & Hl & Hn & Hf). exists c. by rewrite Nat.sub_0_r in Hl.
Qed.

Lemma findColumn_name s cn c : findColumn s cn = Some c → name c = cn.
Proof.
  intros Hf. pose proof (columnIndex_spec s cn) as Hi.
  destruct (columnIndex s cn) as [j|]; [|congruence].
  destruct Hi as (c' & _ & Hn & Hf'). congruence.
Qed.

(** With unique names the index of a column is its position. *)
Lemma columnIndex_at s j c : schema_ok s → columns_ s !! j = Some c → columnIndex s (name c) = Some j.
Proof.
  intros [Hn _] Hj. pose proof (columnIndex_spec s (name c)) as Hi.
  destruct (columnIndex s (name c)) as [j'|].
  - destruct Hi as (c' & Hj' & Hc' & _). f_equal.
    apply (NoDup_lookup _ _ _ (name c) Hn); rewrite list_lookup_fmap; [by rewrite Hj', <- Hc'|by rewrite Hj].
  - unfold findColumn in Hi. apply findByName_spec in Hi. destruct Hi.
    apply list_elem_of_fmap_2. by apply list_elem_of_lookup_2 in Hj.
Qed.

Lemma addColumn_spec s cn t :
  schema_ok s →
  match addColumn s cn t with
  | Val s' => schema_ok s' ∧ columns_ s' = columns_ s ++ [mkColumn cn t] ∧ findColumn s cn = None
  | Throw (InvalidArgument _) => cn = "" ∨ is_Some (findColumn s cn)
  | _ => False
  end.
Proof.
  intros [Hn He]. unfold addColumn, hasColumn. case_bool_decide as Hcn; [by left|].
  destruct (findColumn s cn) as [c|] eqn:Hf; [right; by eexists|].
  apply findByName_spec in Hf. split; [|done]. unfold schema_ok. simpl. rewrite fmap_app. csimpl.
  rewrite NoDup_app, elem_of_app, list_elem_of_singleton. split; [|by intros [?|?]].
  split; [done|]. split; [by intros x Hx ->%list_elem_of_singleton|apply NoDup_singleton].
Qed.

Lemma isValid_int v :
  isValidValueFor INT v = true ↔ ∃ z, from_chars v = (z, "", errc_ok).
Proof.
  unfold isValidValueFor. destruct (from_chars v) as [[z rest] ec].
  rewrite andb_true_iff, !bool_decide_eq_true. split.
  - intros [-> ->]. by exists z.
  - by intros (z' & [= _ -> ->]).
Qed.
