(* ===== verification/Row.v ===== *)
(** * Rows (include/core/Row.hpp, src/core/row.cpp)

    A record bound to a schema; cells are typed values in column order, NULL
    until set.  The schema pointer is an option because a moved-from row has a
    null one; using such a row is undefined behaviour. *)

From S2P Require Import Prelude CxxStd Schema.

Record Row := mkRow {
  schema_ : option Schema;
  values_ : list (option Value);
}.

#[export] Instance Row_eq_dec : EqDecision Row.
Proof. solve_decision. Defined.

(** [explicit Row(std::shared_ptr<const Schema>)] *)
Definition makeRow (ptr : option Schema) : result Row :=
  match ptr with
  | None => Throw (InvalidArgument "Row: schema must not be null")
  | Some s => Val (mkRow ptr (replicate (columnCount s) None))
  end.

(** Copy and move construction; a move returns the new row and what is left. *)
Definition copyRow (other : Row) : Row := mkRow (schema_ other) (values_ other).
Definition moveRow (other : Row) : Row * Row := (mkRow (schema_ other) (values_ other), mkRow None []).

(** Assignment; [self] tells whether both names are the same object. *)
Definition copyAssign (self : bool) (this other : Row) : Row :=
  if negb self then mkRow (schema_ other) (values_ other) else this.
Definition moveAssign (self : bool) (this other : Row) : Row * Row :=
  if negb self then moveRow other else (this, this).

Definition schema (r : Row) : result Schema := deref (schema_ r).

(** [values_.resize(n)] *)
Definition resizeValues (n : nat) (vs : list (option Value)) : list (option Value) :=
  take n vs ++ replicate (n - length vs) None.

Definition set (r : Row) (column value : string) : result Row :=
  s ← schema r;
  match columnIndex s column with
  | None => Throw (InvalidArgument ("Row: unknown column '" +:+ column +:+ "'"))
  | Some index =>
    c ← at_ (columns s) index;
    let t := type c in
    if negb (isValidValueFor t value) then
      Throw (InvalidArgument ("Row: value '" +:+ value +:+ "' is not a valid " +:+
        toStringType t +:+ " for column '" +:+ column +:+ "'"))
    else
      let vs := if bool_decide (length (values_ r) ≤ index)
                then resizeValues (columnCount s) (values_ r) else values_ r in
      let cell := match t with
        | INT => let '(parsed, _, _) := from_chars value in IntV parsed
        | TEXT => TextV value
        end in
      vs' ← vec_set index (Some cell) vs;
      Val (mkRow (schema_ r) vs')
  end.

Definition unset (column : string) : exn :=
  OutOfRange ("Row: column '" +:+ column +:+ "' is not set").

Definition value (r : Row) (column : string) : result Value :=
  s ← schema r;
  match columnIndex s column with
  | None => Throw (unset column)
  | Some index =>
    if bool_decide (length (values_ r) ≤ index) then Throw (unset column)
    else
      cell ← at_ (values_ r) index;
      match cell with None => Throw (unset column) | Some v => Val v end
  end.

Definition get (r : Row) (column : string) : result string :=
  v ← value r column; Val (toStringValue v).

(** [std::get<std::int64_t>] *)
Definition get_int64 (v : Value) : result Z :=
  match v with IntV z => Val z | TextV _ => Throw BadVariantAccess end.

Definition getInt (r : Row) (column : string) : result Z :=
  s ← schema r;
  if (if findColumn s column is Some col then bool_decide (type col ≠ INT) else false) then
    Throw (InvalidArgument ("Row: column '" +:+ column +:+ "' is not INT"))
  else v ← value r column; get_int64 v.

Definition has (r : Row) (column : string) : result bool :=
  s ← schema r;
  match columnIndex s column with
  | None => Val false
  | Some index =>
    if bool_decide (index < length (values_ r))
    then cell ← at_ (values_ r) index; Val (bool_decide (is_Some cell))
    else Val false
  end.

Definition isComplete (r : Row) : result bool :=
  s ← schema r;
  Val (bool_decide (length (values_ r) = columnCount s) &&
       forallb (λ v, bool_decide (is_Some v)) (values_ r)).

Definition rowEq (lhs rhs : Row) : result bool :=
  sl ← schema lhs;
  sr ← schema rhs;
  Val (bool_decide (columns sl = columns sr) && bool_decide (values_ lhs = values_ rhs)).

(** The text that [operator<<] writes. *)
Fixpoint printCells (r : Row) (i : nat) (cs : list Column) : string :=
  match cs with
  | [] => ""
  | c :: cs' =>
    (if bool_decide (0 < i) then ", " else "") +:+ name c +:+ "=" +:+
    match values_ r !! i with
    | Some (Some v) => toStringValue v
    | _ => "NULL"
    end +:+ printCells r (S i) cs'
  end.

Definition print (r : Row) : result string :=
  s ← schema r; Val (printCells r 0 (columns s)).

(** [Schema::validate] *)
Fixpoint validateColumns (r : Row) (cs : list Column) : result bool :=
  match cs with
  | [] => Val true
  | c :: cs' =>
    h ← has r (name c);
    if negb h then Val false else validateColumns r cs'
  end.

Definition validate (s : Schema) (r : Row) : result bool := validateColumns r (columns_ s).

(** ** The row invariant

    The row is bound to [s], has one cell per column, and every cell that is set
    has the type of its column. *)
Definition typed (t : DataType) (v : Value) : Prop :=
  match t, v with
  | INT, IntV z => is_int64 z
  | TEXT, TextV _ => True
  | _, _ => False
  end.

Definition cell_ok (c : Column) (v : option Value) : Prop :=
  match v with Some v => typed (type c) v | None => True end.

Record row_ok (s : Schema) (r : Row) : Prop := {
  rk_schema : schema_ r = Some s;
  rk_cells : Forall2 cell_ok (columns_ s) (values_ r);
}.

(** Every cell is set. *)
Definition full (r : Row) : Prop := Forall is_Some (values_ r).

Lemma makeRow_ok s : ∃ r, makeRow (Some s) = Val r ∧ row_ok s r.
Proof.
  eexists. split; [done|]. split; [done|]. apply Forall2_same_length_lookup.
  unfold columnCount. simpl. rewrite length_replicate. split; [done|].
  by intros i c v _ [-> _]%lookup_replicate.
Qed.

(** The cell that a literal denotes. *)
Definition cellOf (t : DataType) (v : string) : Value :=
  match t with INT => IntV (from_chars v).1.1 | TEXT => TextV v end.

Lemma cellOf_typed t v : isValidValueFor t v = true → typed t (cellOf t v).
Proof.
  destruct t; [|done]. rewrite isValid_int. intros (z & Hz). simpl. rewrite Hz.
  by eapply from_chars_int64.
Qed.

Lemma set_spec s r cn v :
  row_ok s r →
  set r cn v =
    match columnIndex s cn, findColumn s cn with
    | Some j, Some c =>
      if isValidValueFor (type c) v
      then Val (mkRow (schema_ r) (<[j:=Some (cellOf (type c) v)]> (values_ r)))
      else Throw (InvalidArgument ("Row: value '" +:+ v +:+ "' is not a valid " +:+
             toStringType (type c) +:+ " for column '" +:+ cn +:+ "'"))
    | _, _ => Throw (InvalidArgument ("Row: unknown column '" +:+ cn +:+ "'"))
    end.
Proof.
  intros [Hs Hc]. unfold set, schema. rewrite Hs. cbn [deref mbind result_bind].
  pose proof (columnIndex_spec s cn) as Hi. destruct (columnIndex s cn) as [j|]; [|done].
  destruct Hi as (c & Hj & Hn & ->). unfold columns. rewrite (at_Some _ _ _ Hj). cbn [mbind result_bind].
  destruct (isValidValueFor (type c) v); [|done]. simpl.
  pose proof (Forall2_length _ _ _ Hc) as Hlen. pose proof (lookup_lt_Some _ _ _ Hj) as Hlt.
  rewrite bool_decide_eq_false_2 by lia. unfold vec_set. rewrite decide_True by lia.
  cbn [mbind result_bind]. do 4 f_equal. unfold cellOf.
  destruct (type c); [|done]. by destruct (from_chars v) as [[??]?].
Qed.

Lemma set_ok s r cn v r' : row_ok s r → set r cn v = Val r' → row_ok s r'.
Proof.
  intros Hr. rewrite (set_spec s) by done. pose proof (columnIndex_spec s cn) as Hi.
  destruct (columnIndex s cn) as [j|]; [|done]. destruct Hi as (c & Hj & Hn & ->).
  destruct (isValidValueFor (type c) v) eqn:Hv; [|done]. intros [= <-]. split; [apply Hr|]. simpl.
  rewrite <- (list_insert_id (columns_ s) j c Hj). apply Forall2_insert; [apply Hr|].
  by apply cellOf_typed.
Qed.

Lemma value_spec s r cn :
  row_ok s r →
  value r cn =
    match columnIndex s cn with
    | Some j => match values_ r !! j with Some (Some v) => Val v | _ => Throw (unset cn) end
    | None => Throw (unset cn)
    end.
Proof.
  intros [Hs Hc]. unfold value, schema. rewrite Hs. cbn [deref mbind result_bind].
  destruct (columnIndex s cn) as [j|]; [|done]. case_bool_decide as Hlt.
  - by rewrite lookup_ge_None_2.
  - destruct (at_lt (values_ r) j) as (v & Hv & Hl); [lia|]. rewrite Hv, Hl. cbn [mbind result_bind].
    by destruct v.
Qed.

(** A cell read back: what was set, and nothing else changed. *)
Lemma value_set s r cn v r' cn' :
  row_ok s r → schema_ok s → set r cn v = Val r' →
  value r' cn' = (if decide (cn' = cn)
                  then Val (cellOf (from_option type INT (findColumn s cn)) v) else value r cn').
Proof.
  intros Hr Hok Hset. pose proof (set_ok _ _ _ _ _ Hr Hset) as Hr'.
  rewrite (value_spec s r'), (value_spec s r) by done. rewrite (set_spec s) in Hset by done.
  pose proof (columnIndex_spec s cn) as Hi. destruct (columnIndex s cn) as [j|] eqn:Hcn; [|done].
  destruct Hi as (c & Hj & Hn & Hf). rewrite Hf in Hset |- *.
  destruct (isValidValueFor (type c) v); [|done]. injection Hset as <-. simpl.
  pose proof (Forall2_length _ _ _ (rk_cells _ _ Hr)) as Hlen. pose proof (lookup_lt_Some _ _ _ Hj) as Hlt.
  case_decide as Heq.
  - subst cn'. rewrite Hcn, list_lookup_insert_eq by lia. done.
  - pose proof (columnIndex_spec s cn') as Hi'. destruct (columnIndex s cn') as [j'|] eqn:Hcn'; [|done].
    destruct Hi' as (c' & Hj' & Hn' & _). rewrite list_lookup_insert_ne; [done|]. intros <-. congruence.
Qed.

Lemma has_spec s r cn :
  row_ok s r →
  has r cn = Val (match columnIndex s cn with
                  | Some j => if values_ r !! j is Some (Some _) then true else false
                  | None => false end).
Proof.
  intros [Hs Hc]. unfold has, schema. rewrite Hs. cbn [deref mbind result_bind].
  destruct (columnIndex s cn) as [j|]; [|done]. case_bool_decide as Hlt.
  - destruct (at_lt (values_ r) j) as (v & Hv & Hl); [lia|]. rewrite Hv, Hl. cbn [mbind result_bind].
    by destruct v.
  - rewrite lookup_ge_None_2 by lia. done.
Qed.

(** [validate] accepts exactly the rows with no NULL. *)
Lemma validate_spec s r :
  row_ok s r → schema_ok s → ∃ b, validate s r = Val b ∧ (b = true ↔ full r).
Proof.
  intros Hr Hok. unfold validate, full.
  assert (Hgen : ∀ l2 l1, columns_ s = l1 ++ l2 → ∃ b, validateColumns r l2 = Val b ∧
    (b = true ↔ Forall is_Some (drop (length l1) (values_ r)))).
  { pose proof (Forall2_length _ _ _ (rk_cells _ _ Hr)) as Hlen.
    induction l2 as [|c l2 IH]; intros l1 Hl.
    - exists true. split; [done|]. rewrite drop_ge; [done|]. rewrite <- Hlen, Hl, length_app. simpl. lia.
    - cbn [validateColumns]. rewrite (has_spec s r (name c)) by done. cbn [mbind result_bind].
      assert (Hj : columns_ s !! length l1 = Some c) by (rewrite Hl; by apply list_lookup_middle).
      rewrite (columnIndex_at s _ c Hok Hj).
      destruct (values_ r !! length l1) as [v|] eqn:Hv.
      2: { apply lookup_ge_None in Hv. apply lookup_lt_Some in Hj. lia. }
      rewrite (drop_S _ _ _ Hv). setoid_rewrite Forall_cons. destruct v as [v|]; simpl.
      + destruct (IH (l1 ++ [c])) as (b & -> & Hb); [by rewrite Hl, <- (assoc_L (++))|].
        exists b. split; [done|]. rewrite length_app in Hb. simpl in Hb.
        replace (length l1 + 1) with (S (length l1)) in Hb by lia. rewrite Hb.
        split; [|tauto]. intros ?. split; [by eexists|done].
      + exists false. split; [done|]. split; [done|]. by intros [[? [=]] _]. }
  exact (Hgen (columns_ s) [] eq_refl).
Qed.

Lemma isComplete_spec s r : row_ok s r → ∃ b, isComplete r = Val b ∧ (b = true ↔ full r).
Proof.
  intros [Hs Hc]. unfold isComplete, schema. rewrite Hs. eexists. split; [done|].
  apply Forall2_length in Hc. rewrite andb_true_iff, bool_decide_eq_true.
  unfold full. split.
  - intros [_ Hf]. apply Forall_forall. intros v Hv. rewrite forallb_forall in Hf.
    specialize (Hf v). rewrite bool_decide_eq_true in Hf. apply Hf. by apply list_elem_of_In.
  - intros Hf. split; [done|]. apply forallb_forall. intros v Hv%list_elem_of_In.
    apply bool_decide_eq_true. by eapply Forall_forall in Hf.
Qed.

(** A complete row has an INT value in every INT column. *)
Lemma getInt_spec s r cn c :
  row_ok s r → full r → findColumn s cn = Some c → type c = INT →
  ∃ z, getInt r cn = Val z ∧ value r cn = Val (IntV z) ∧ is_int64 z.
Proof.
  intros Hr Hf Hc Ht. unfold getInt, schema. rewrite (rk_schema _ _ Hr). cbn [deref mbind result_bind].
  rewrite Hc, bool_decide_eq_false_2 by (rewrite Ht; tauto).
  rewrite (value_spec s) by done. pose proof (columnIndex_spec s cn) as Hi.
  destruct (columnIndex s cn) as [j|]; [|congruence]. destruct Hi as (c' & Hj & _ & Hc').
  assert (c' = c) as -> by congruence.
  destruct (Forall2_lookup_l _ _ _ _ _ (rk_cells _ _ Hr) Hj) as (v & Hv & Hty). rewrite Hv.
  destruct (Forall_lookup_1 _ _ _ _ Hf Hv) as [v' ->]. simpl in Hty. rewrite Ht in Hty.
  destruct v' as [z|]; [|done]. by exists z.
Qed.
