(* ===== verification/Table.v ===== *)
(** * Tables (include/core/Table.hpp, src/core/table.cpp)

    A table owns its schema, a B-tree of rows clustered on the INT column "id"
    and an LRU cache of hot rows.  Operations run in [M Table]: an exception
    leaves the table as it was at that point.  Each public call holds the table
    lock throughout, so one call is one atomic step; the lock itself is
    [RWLock], and the readers that share it are in [TableReaders].

    A predicate is a caller's [std::function], which may throw. *)

From S2P Require Import Prelude AssocList CxxStd Schema Row BTree KeyIndex LRUCache.

Section Table.
Context {Ix : Type} `{!KeyIndex Z nat Ix}.

Record Table := mkTable {
  schema_ : Schema;
  rows_ : BTree Z Row;
  cache_ : LRUCache Z Row Ix;
}.

Definition kIdColumn : string := "id".
Definition kDefaultCacheCapacity : N := 128.

Definition setRows (rows : BTree Z Row) : M Table unit :=
  t ← get_state; put_state (mkTable (schema_ t) rows (cache_ t)).
Definition setCache (cache : LRUCache Z Row Ix) : M Table unit :=
  t ← get_state; put_state (mkTable (schema_ t) (rows_ t) cache).

Definition makeTable (schema : Schema) (cacheCapacity : N) : result Table :=
  rows ← makeBTree 16;
  cache ← makeLRUCache cacheCapacity;
  if (if findColumn schema kIdColumn is Some idColumn then bool_decide (type idColumn ≠ INT) else true)
  then Throw (InvalidArgument "Table: schema requires an INT primary-key column named 'id'")
  else Val (mkTable schema rows cache).

Definition makeRow (t : Table) : result Row := Row.makeRow (Some (schema_ t)).

Definition insert (row : Row) : M Table bool :=
  t ← get_state;
  rs ← lift (Row.schema row);
  if bool_decide (columns rs ≠ columns (schema_ t)) then
    throw (InvalidArgument "Table: row schema does not match table schema")
  else
    valid ← lift (validate (schema_ t) row);
    if negb valid then throw (InvalidArgument "Table: row is incomplete or fails type checks")
    else
      id ← lift (getInt row kIdColumn);
      '(rows, inserted) ← lift (BTree.insert (rows_ t) id row);
      setRows rows;;
      mret inserted.

Definition findById (id : Z) : M Table (option Row) :=
  t ← get_state;
  '(cache, hit) ← lift (LRUCache.get (cache_ t) id);
  setCache cache;;
  match hit with
  | Some row => mret (Some row)
  | None =>
    row ← lift (BTree.search (rows_ t) id);
    match row with
    | None => mret None
    | Some row =>
      cache' ← lift (LRUCache.put cache id row);
      setCache cache';;
      mret (Some row)
    end
  end.

Definition deleteById (id : Z) : M Table bool :=
  t ← get_state;
  '(rows, removed) ← lift (BTree.remove (rows_ t) id);
  setRows rows;;
  if removed : bool then
    '(cache, _) ← lift (LRUCache.erase (cache_ t) id);
    setCache cache;;
    mret true
  else mret false.

Definition rowCount : M Table nat := t ← get_state; mret (BTree.size (rows_ t)).

Definition selectWhere (predicate : Row → result bool) : M Table (list Row) :=
  t ← get_state;
  lift (forEachInOrder (λ result e,
    b ← predicate e.2; Val (if b : bool then result ++ [e.2] else result)) (rows_ t) []).

Definition selectAll : M Table (list Row) := selectWhere (λ _, Val true).

(** The ids of the rows that satisfy the predicate. *)
Definition matching (predicate : Row → result bool) : M Table (list Z) :=
  t ← get_state;
  lift (forEachInOrder (λ ids e,
    b ← predicate e.2; Val (if b : bool then ids ++ [e.1] else ids)) (rows_ t) []).

Definition deleteWhere (predicate : Row → result bool) : M Table nat :=
  doomed ← matching predicate;
  forM doomed (λ id,
    t ← get_state;
    '(rows, _) ← lift (BTree.remove (rows_ t) id);
    setRows rows;;
    '(cache, _) ← lift (LRUCache.erase (cache_ t) id);
    setCache cache);;
  mret (length doomed).

Definition cacheHits : M Table N := t ← get_state; mret (LRUCache.hits (cache_ t)).
Definition cacheMisses : M Table N := t ← get_state; mret (LRUCache.misses (cache_ t)).

(** The checks that [updateWhere] makes before it takes the lock. *)
Definition checkAssignment (s : Schema) (a : string * string) : result unit :=
  let '(column, value) := a in
  if bool_decide (column = kIdColumn) then
    Throw (InvalidArgument "Table: the primary key cannot be updated")
  else
    match findColumn s column with
    | None => Throw (InvalidArgument ("Table: unknown column '" +:+ column +:+ "'"))
    | Some def =>
      if negb (isValidValueFor (type def) value) then
        Throw (InvalidArgument ("Table: value '" +:+ value +:+ "' is not a valid " +:+
          toStringType (type def) +:+ " for column '" +:+ column +:+ "'"))
      else Val ()
    end.

(** [row->set(column, value)] through the pointer that [rows_.search(id)] gave. *)
Definition setCell (id : Z) (a : string * string) : M Table unit :=
  t ← get_state;
  r ← lift (BTree.update (rows_ t) id (λ row, Row.set row a.1 a.2));
  rows ← lift (deref r);
  setRows rows.

Definition updateWhere (predicate : Row → result bool) (assignments : list (string * string))
    : M Table nat :=
  t ← get_state;
  forM assignments (λ a, lift (checkAssignment (schema_ t) a));;
  matched ← matching predicate;
  forM matched (λ id, forM assignments (setCell id));;
  forM matched (λ id,
    t ← get_state;
    '(cache, _) ← lift (LRUCache.erase (cache_ t) id);
    setCache cache);;
  mret (length matched).

Definition selectIdRange (lo hi : Z) : M Table (list Row) :=
  t ← get_state;
  lift (forEachRange (λ result e, Val (result ++ [e.2])) (rows_ t) lo hi []).
End Table.

Arguments Table : clear implicits.
