(* ===== verification/TableSpec.v ===== *)
(** * Tables: specification

    [table_ok t l]: the table [t] stands for the rows [l], an association list in
    ascending id order.  Every stored row is complete and typed, is filed under
    its own id, and every cached row is the stored one.  Each operation returns
    or throws as the code says and acts on [l] as the list operation. *)

From S2P Require Import Prelude AssocList CxxStd Schema Row BTree BTreeShape BTreeInsert BTreeRemove BTreeQuery KeyIndex LRUCache Table.

(** Runs the code of a table operation. *)
Ltac trun := unfold setRows, setCache; mrun; cbn [schema_ rows_ cache_ negb].

Section Spec.
Context {Ix : Type} `{!KeyIndex Z nat Ix} `{!KeyIndexLaws Z nat Ix}.
Implicit Types (t : Table Ix) (l : list (Z * Row)) (id : Z) (r : Row).

Record stored (s : Schema) id r : Prop := {
  st_row : row_ok s r;
  st_full : full r;
  st_id : value r kIdColumn = Val (IntV id);
}.

(** The cache agrees with the rows, except on the keys [D] that an update has
    changed and not yet dropped. *)
Definition coherent (D : list Z) (cl : list (Z * Row)) l : Prop :=
  ∀ k r, k ∉ D → cached cl !! k = Some r → al_lookup k l = Some r.

Record table_upto (D : list Z) t l : Prop := {
  to_rows : represents (rows_ t) l;
  to_degree : degree_fits (t_ (rows_ t));
  to_schema : schema_ok (schema_ t);
  to_id : ∃ c, findColumn (schema_ t) kIdColumn = Some c ∧ type c = INT;
  to_stored : ∀ id r, (id, r) ∈ l → stored (schema_ t) id r;
  to_cache : ∃ cl, lru_repr (cache_ t) cl ∧ coherent D cl l;
}.
Definition table_ok := table_upto [].

Lemma to_sorted D t l : table_upto D t l → ksorted l.
Proof. intros Ht. apply (to_rows _ _ _ Ht). Qed.

(** The tables an operation leads to differ in rows and cache only. *)
Lemma table_step D D' t l rows cache l' cl :
  table_upto D t l → represents rows l' → t_ rows = t_ (rows_ t) →
  (∀ id r, (id, r) ∈ l' → stored (schema_ t) id r) →
  lru_repr cache cl → coherent D' cl l' → table_upto D' (mkTable (schema_ t) rows cache) l'.
Proof.
  intros Ht Hr Hdeg Hst Hc Hco. split; simpl; rewrite ?Hdeg; try done; try apply Ht. by exists cl.
Qed.

Lemma makeTable_spec s cap :
  schema_ok s → (0 < cap)%N →
  match findColumn s kIdColumn with
  | Some c => if decide (type c = INT)
      then ∃ t, makeTable s cap = Val t ∧ table_ok t [] ∧ schema_ t = s
      else ∃ w, makeTable (Ix := Ix) s cap = Throw (InvalidArgument w)
  | None => ∃ w, makeTable (Ix := Ix) s cap = Throw (InvalidArgument w)
  end.
Proof.
  intros Hs Hcap. unfold makeTable. destruct (makeLRUCache_spec (V := Row) cap Hcap) as (c & -> & Hc & _).
  destruct (findColumn s kIdColumn) as [col|] eqn:Hf; [|by eexists]. case_decide as Ht.
  - simpl. rewrite Ht. simpl. eexists. split; [done|]. split; [|done]. split; simpl; try done.
    + split; [simpl; lia|]. split; [constructor|done].
    + by exists col.
    + by intros id r ?%elem_of_nil.
    + by exists [].
  - simpl. rewrite bool_decide_eq_true_2 by done. by eexists.
Qed.

Lemma table_upto_any D t l : table_ok t l → table_upto D t l.
Proof.
  intros Ht. split; try apply Ht. destruct (to_cache _ _ _ Ht) as (cl & Hcl & Hco). exists cl.
  split; [done|]. intros k r _ Hk. apply Hco; [by intros ?%elem_of_nil|done].
Qed.

(** ** Insertion *)
Lemma insert_row_spec t l r s :
  table_ok t l → row_ok s r →
  if decide (columns s = columns (schema_ t)) then
    (full r → ∃ id t', getInt r kIdColumn = Val id ∧ is_int64 id ∧ stored (schema_ t) id r ∧
        insert r t = Ret t' (bool_decide (al_lookup id l = None)) ∧
        table_ok t' (al_insert id r l) ∧ schema_ t' = schema_ t) ∧
    (¬ full r → insert r t = Exn t (InvalidArgument "Table: row is incomplete or fails type checks"))
  else insert r t = Exn t (InvalidArgument "Table: row schema does not match table schema").
Proof.
  intros Ht Hr. unfold insert, Row.schema. rewrite (rk_schema _ _ Hr). cbn [deref]. trun.
  case_decide as Hcols; [|by rewrite bool_decide_eq_true_2].
  rewrite bool_decide_eq_false_2 by tauto.
  assert (s = schema_ t) as -> by (destruct s, (schema_ t); simpl in *; congruence).
  destruct (validate_spec _ r Hr (to_schema _ _ _ Ht)) as (b & -> & Hb). trun. split; intros Hf.
  2: { destruct b; [by destruct Hf; apply Hb|]. done. }
  apply Hb in Hf as Hb'. subst b. trun. destruct (to_id _ _ _ Ht) as (c & Hc & Hty).
  destruct (getInt_spec _ r kIdColumn c Hr Hf Hc Hty) as (id & Hid & Hval & Hint). rewrite Hid. trun.
  destruct (insert_spec (rows_ t) l id r (to_rows _ _ _ Ht) (to_degree _ _ _ Ht)) as (b' & -> & Hb1 & Hdeg). trun.
  assert (Hst : stored (schema_ t) id r) by (by split).
  exists id. eexists. split; [done|]. split; [done|]. split; [done|]. split; [done|]. split; [|done].
  destruct (to_cache _ _ _ Ht) as (cl & Hcl & Hco). eapply table_step; try done.
  - intros id' r' [Heq|Hin]%al_insert_elem; [by simplify_eq|by apply Ht].
  - intros k r' HD Hk. apply al_lookup_insert_stays; [by eapply to_sorted|by apply Hco].
Qed.

(** ** Point reads and deletes *)
Lemma findById_spec t l id :
  table_ok t l →
  ∃ t', findById id t = Ret t' (al_lookup id l) ∧ table_ok t' l ∧
    schema_ t' = schema_ t ∧ rows_ t' = rows_ t.
Proof.
  intros Ht. unfold findById. trun. destruct (to_cache _ _ _ Ht) as (cl & Hcl & Hco).
  pose proof (lr_keys _ _ Hcl) as Hnd.
  destruct (lru_get_spec (cache_ t) cl id Hcl) as (c' & -> & Hc' & _). trun.
  assert (Hco' : coherent [] (ref_get id cl).2 l).
  { intros k r Hk. rewrite ref_get_cached by done. by apply Hco. }
  destruct (cached cl !! id) as [r|] eqn:Hhit; unfold ref_get in *; rewrite Hhit in *; simpl in *; trun.
  - assert (al_lookup id l = Some r) as -> by (apply Hco; [by intros ?%elem_of_nil|done]).
    eexists. split; [done|]. split; [|done]. eapply table_step; try done; apply Ht.
  - rewrite (search_spec (rows_ t) l) by apply Ht. trun.
    destruct (al_lookup id l) as [r|] eqn:Hl; trun.
    + destruct (lru_put_spec c' cl id r Hc') as (c2 & -> & Hc2 & _). trun.
      eexists. split; [done|]. split; [|done]. eapply table_step; try done; [apply Ht|apply Ht|].
      intros k r' Hk [[-> ->]|[_ Hk']]%ref_put_sub; [done|by apply Hco|done].
    + eexists. split; [done|]. split; [|done]. eapply table_step; try done; apply Ht.
Qed.

Lemma al_delete_elem id l e : e ∈ al_delete id l → e ∈ l.
Proof. unfold al_delete. by intros [_ ?]%list_elem_of_filter. Qed.

(** Dropping a row from the tree and from the cache. *)
Lemma coherent_erase D cl l id :
  NoDup cl.*1 → coherent D cl l → coherent D (forget id cl) (al_delete id l).
Proof.
  intros Hn Hco k r HD. rewrite forget_cached, lookup_delete_Some, al_lookup_delete by done.
  intros [Hne Hk]. destruct (keqb id k) eqn:He; [by apply keqb_eq in He|by apply Hco].
Qed.

Lemma deleteById_spec t l id :
  table_ok t l →
  ∃ t', deleteById id t = Ret t' (bool_decide (is_Some (al_lookup id l))) ∧
    table_ok t' (al_delete id l) ∧ schema_ t' = schema_ t.
Proof.
  intros Ht. unfold deleteById. trun. destruct (to_cache _ _ _ Ht) as (cl & Hcl & Hco).
  destruct (remove_spec (rows_ t) l id (to_rows _ _ _ Ht)) as (b' & -> & Hb & Hdeg). trun.
  assert (Hst : ∀ k r, (k, r) ∈ al_delete id l → stored (schema_ t) k r).
  { intros k r Hin%al_delete_elem. by apply Ht. }
  case_bool_decide as Hl; trun.
  - destruct (lru_erase_spec (cache_ t) cl id Hcl) as (c' & -> & Hc' & _). trun.
    eexists. split; [done|]. split; [|done]. eapply table_step; try done.
    apply coherent_erase; [apply Hcl|done].
  - eexists. split; [done|]. split; [|done]. eapply table_step; try done.
    rewrite al_delete_absent; [done|]. by apply eq_None_not_Some.
Qed.

Lemma rowCount_spec t l : table_ok t l → rowCount t = Ret t (length l).
Proof.
  intros Ht. unfold rowCount. trun. unfold BTree.size. by destruct (to_rows _ _ _ Ht) as (_ & _ & -> & _).
Qed.

(** ** Scans *)
Section scans.
Context (pred : Row → result bool) (p : Row → bool).

Lemma selectWhere_spec t l :
  table_ok t l → (∀ e, e ∈ l → pred e.2 = Val (p e.2)) →
  selectWhere pred t = Ret t (base.filter (λ e, p e.2 = true) l).*2.
Proof.
  intros Ht Hp. unfold selectWhere. trun.
  rewrite (forEachInOrder_spec _ _ l) by apply Ht.
  by rewrite (foldR_collect (λ e, pred e.2) (λ e, p e.2) snd).
Qed.

Lemma matching_spec D t l :
  table_upto D t l → (∀ e, e ∈ l → pred e.2 = Val (p e.2)) →
  matching pred t = Ret t (base.filter (λ e, p e.2 = true) l).*1.
Proof.
  intros Ht Hp. unfold matching. trun.
  rewrite (forEachInOrder_spec _ _ l) by apply Ht.
  by rewrite (foldR_collect (λ e, pred e.2) (λ e, p e.2) fst).
Qed.

Lemma deleteWhere_spec t l :
  table_ok t l → (∀ e, e ∈ l → pred e.2 = Val (p e.2)) →
  ∃ t', deleteWhere pred t = Ret t' (length (base.filter (λ e, p e.2 = true) l)) ∧
    table_ok t' (base.filter (λ e, p e.2 = false) l) ∧ schema_ t' = schema_ t.
Proof.
  intros Ht Hp. unfold deleteWhere. erewrite M_bind_run by (by eapply matching_spec).
  rewrite <- (al_delete_where p l) by (by eapply to_sorted).
  set (ids := (base.filter (λ e, p e.2 = true) l).*1).
  assert (length (base.filter (λ e, p e.2 = true) l) = length ids) as -> by (unfold ids; by rewrite length_fmap).
  clearbody ids. clear Hp.
  enough (∃ t', forM ids (λ id,
      t ← get_state;
      '(rows, _) ← lift (BTree.remove (rows_ t) id);
      setRows rows;;
      '(cache, _) ← lift (LRUCache.erase (cache_ t) id);
      setCache cache) t = Ret t' () ∧
      table_ok t' (foldl (λ l id, al_delete id l) l ids) ∧ schema_ t' = schema_ t)
    as (t' & Heq & Ht' & Hs).
  { exists t'. by erewrite M_bind_run by done. }
  revert t l Ht. induction ids as [|id ids IH]; intros t l Ht; [by exists t|]. cbn [forM foldl]. trun.
  destruct (to_cache _ _ _ Ht) as (cl & Hcl & Hco).
  destruct (remove_spec (rows_ t) l id (to_rows _ _ _ Ht)) as (b' & -> & Hb & Hdeg). trun.
  destruct (lru_erase_spec (cache_ t) cl id Hcl) as (c' & -> & Hc' & _). trun.
  apply (IH (mkTable (schema_ t) b' c')). eapply table_step; try done.
  - intros k r Hin%al_delete_elem. by apply Ht.
  - apply coherent_erase; [apply Hcl|done].
Qed.
End scans.

Lemma selectAll_spec t l : table_ok t l → selectAll t = Ret t l.*2.
Proof.
  intros Ht. unfold selectAll. rewrite (selectWhere_spec _ (λ _, true) t l) by done.
  by rewrite filter_all.
Qed.

Lemma selectIdRange_spec t l lo hi :
  table_ok t l → selectIdRange lo hi t = Ret t (al_range lo hi l).*2.
Proof.
  intros Ht. unfold selectIdRange. trun. rewrite (forEachRange_spec _ _ l) by apply Ht.
  generalize (al_range lo hi l). intros l'.
  assert (Hgen : ∀ acc, foldR (λ (result : list Row) (e : Z * Row), Val (result ++ [e.2])) acc l' = Val (acc ++ l'.*2)).
  { induction l' as [|e l' IH]; intros acc; csimpl; [by rewrite app_nil_r|].
    simpl. rewrite IH. by rewrite <- (assoc_L (++)). }
  by rewrite Hgen.
Qed.

(** ** Updates *)
Definition applySet (s : Schema) (r : Row) (a : string * string) : Row :=
  match columnIndex s a.1, findColumn s a.1 with
  | Some j, Some c => mkRow (Row.schema_ r) (<[j:=Some (cellOf (type c) a.2)]> (values_ r))
  | _, _ => r
  end.

Definition applySets (s : Schema) (r : Row) (l : list (string * string)) : Row :=
  foldl (applySet s) r l.

Definition valid_assignment (s : Schema) (a : string * string) : Prop :=
  a.1 ≠ kIdColumn ∧ ∃ c, findColumn s a.1 = Some c ∧ isValidValueFor (type c) a.2 = true.

Lemma checkAssignment_spec s a :
  match checkAssignment s a with
  | Val _ => valid_assignment s a
  | Throw (InvalidArgument _) => ¬ valid_assignment s a
  | _ => False
  end.
Proof.
  destruct a as [cn v]. unfold checkAssignment, valid_assignment. simpl.
  case_bool_decide as Hid; [by intros [? _]|].
  destruct (findColumn s cn) as [c|]; [|by intros (_ & c & ? & _)].
  destruct (isValidValueFor (type c) v) eqn:Hv; simpl; [by eauto|].
  intros (_ & c' & [= <-] & Hv'). congruence.
Qed.

Lemma applySet_spec s id r a :
  schema_ok s → stored s id r → valid_assignment s a →
  Row.set r a.1 a.2 = Val (applySet s r a) ∧ stored s id (applySet s r a).
Proof.
  intros Hs [Hr Hf Hid] (Hne & c & Hc & Hv).
  assert (Hset : Row.set r a.1 a.2 = Val (applySet s r a)).
  { rewrite (set_spec s) by done. unfold applySet. pose proof (columnIndex_spec s a.1) as Hi.
    destruct (columnIndex s a.1) as [j|]; [|congruence]. by rewrite Hc, Hv. }
  split; [done|]. split.
  - by eapply set_ok.
  - unfold applySet, full. destruct (columnIndex s a.1); [|done]. rewrite Hc. simpl.
    apply Forall_insert; [done|by eexists].
  - rewrite (value_set s r a.1 a.2) by done. by rewrite decide_False.
Qed.

Lemma setCells_spec D t l id r assignments :
  table_upto D t l → id ∈ D → al_lookup id l = Some r →
  Forall (valid_assignment (schema_ t)) assignments →
  ∃ t', forM assignments (setCell id) t = Ret t' () ∧
    table_upto D t' (al_alter (λ r, applySets (schema_ t) r assignments) id l) ∧
    schema_ t' = schema_ t ∧ cache_ t' = cache_ t.
Proof.
  intros Ht HD Hl Hva. revert t l r Ht Hl Hva.
  induction assignments as [|a assignments IH]; intros t l r Ht Hl Hva.
  { exists t. split; [done|]. split; [|done]. unfold al_alter, applySets. simpl.
    replace (_ <$> l) with l; [done|]. rewrite <- (list_fmap_id l) at 1. apply list_fmap_ext.
    intros i [k v] _. simpl. by destruct (k =? id)%Z. }
  apply Forall_cons in Hva as [Ha Hva]. cbn [forM].
  set (s := schema_ t) in *. assert (Hs : schema_ok s) by apply Ht.
  destruct (applySet_spec s id r a Hs) as [Hset Hst]; [|done|].
  { apply Ht. by apply al_lookup_elem. }
  destruct (update_spec (rows_ t) l id (λ row, Row.set row a.1 a.2) (λ r, applySet s r a) r
              (to_rows _ _ _ Ht) Hl Hset) as (b' & Hupd & Hb & Hdeg).
  assert (Hone : setCell id a t = Ret (mkTable s b' (cache_ t)) ()).
  { unfold setCell. trun. rewrite Hupd. by trun. }
  erewrite M_bind_run by done.
  destruct (to_cache _ _ _ Ht) as (cl & Hcl & Hco).
  destruct (IH (mkTable s b' (cache_ t)) (al_alter (λ r, applySet s r a) id l) (applySet s r a))
    as (t' & -> & Ht' & Hs' & Hc').
  - eapply table_step; try done.
    + intros k r'. rewrite <- al_lookup_Some by (apply al_alter_ksorted; by eapply to_sorted).
      rewrite al_lookup_alter. destruct (keqb id k) eqn:He.
      * apply keqb_eq in He as <-. rewrite Hl. by intros [= <-].
      * intros Hk. apply Ht. by apply al_lookup_elem.
    + intros k r' Hk Hkr. rewrite al_lookup_alter. destruct (keqb id k) eqn:He; [|by apply Hco].
      apply keqb_eq in He as <-. done.
  - rewrite al_lookup_alter, keqb_refl, Hl. done.
  - done.
  - exists t'. split; [done|]. split; [|done]. simpl in Ht'. revert Ht'.
    unfold al_alter. rewrite <- list_fmap_compose. intros Ht'.
    erewrite list_fmap_ext; [exact Ht'|]. intros i [k v] _. simpl.
    destruct (k =? id)%Z eqn:He; simpl; rewrite He; done.
Qed.

Lemma eraseAll_spec ids D t l :
  table_upto (ids ++ D) t l →
  ∃ t', forM ids (λ id,
      t ← get_state;
      '(cache, _) ← lift (LRUCache.erase (cache_ t) id);
      setCache cache) t = Ret t' () ∧
    table_upto D t' l ∧ schema_ t' = schema_ t.
Proof.
  revert t. induction ids as [|id ids IH]; intros t Ht; [by exists t|]. cbn [forM]. trun.
  destruct (to_cache _ _ _ Ht) as (cl & Hcl & Hco).
  destruct (lru_erase_spec (cache_ t) cl id Hcl) as (c' & -> & Hc' & _). trun.
  apply (IH (mkTable (schema_ t) (rows_ t) c')). eapply table_step; try done; [apply Ht|apply Ht|].
  intros k r HD. rewrite forget_cached, lookup_delete_Some by apply Hcl. intros [Hne Hk].
  apply Hco; [|done]. simpl. rewrite not_elem_of_cons. split; [done|done].
Qed.

Lemma setAll_spec ids D t l assignments :
  table_upto D t l → (∀ id, id ∈ ids → id ∈ D ∧ is_Some (al_lookup id l)) →
  Forall (valid_assignment (schema_ t)) assignments →
  ∃ t', forM ids (λ id, forM assignments (setCell id)) t = Ret t' () ∧
    table_upto D t' (foldl (λ l id, al_alter (λ r, applySets (schema_ t) r assignments) id l) l ids) ∧
    schema_ t' = schema_ t.
Proof.
  revert t l. induction ids as [|id ids IH]; intros t l Ht Hids Hva; [by exists t|]. cbn [forM foldl].
  destruct (Hids id) as [HD [r Hr]]; [by left|].
  destruct (setCells_spec D t l id r assignments Ht HD Hr Hva) as (t1 & Heq & Ht1 & Hs1 & _).
  erewrite M_bind_run by done. rewrite <- Hs1 in Hva |- *. rewrite <- Hs1 in Ht1. apply IH; [done| |done].
  intros id' Hid'. destruct (Hids id') as [HD' Hl']; [by right|]. split; [done|].
  rewrite al_lookup_alter. case_match; [by apply fmap_is_Some|done].
Qed.

Lemma updateWhere_spec pred p t l assignments :
  table_ok t l → (∀ e, e ∈ l → pred e.2 = Val (p e.2)) →
  Forall (valid_assignment (schema_ t)) assignments →
  ∃ t', updateWhere pred assignments t =
      Ret t' (length (base.filter (λ e, p e.2 = true) l)) ∧
    table_ok t' ((λ e, if p e.2 then (e.1, applySets (schema_ t) e.2 assignments) else e) <$> l) ∧
    schema_ t' = schema_ t.
Proof.
  intros Ht Hp Hva. unfold updateWhere. mrun.
  assert (Hck : forM assignments (λ a, lift (checkAssignment (schema_ t) a)) t = Ret t ()).
  { clear Hp. induction Hva as [|a assignments Ha Hva IH]; [done|]. cbn [forM].
    pose proof (checkAssignment_spec (schema_ t) a) as Hc.
    destruct (checkAssignment (schema_ t) a) as [[]|[]|]; try done. }
  erewrite M_bind_run by done. erewrite M_bind_run by (by eapply matching_spec).
  rewrite <- (al_alter_where (λ r, applySets (schema_ t) r assignments) p l) by (by eapply to_sorted).
  set (ids := (base.filter (λ e, p e.2 = true) l).*1).
  assert (length (base.filter (λ e, p e.2 = true) l) = length ids) as -> by (unfold ids; by rewrite length_fmap).
  destruct (setAll_spec ids (ids ++ []) t l assignments) as (t1 & Heq & Ht1 & Hs1).
  - by apply table_upto_any.
  - intros id Hid. rewrite app_nil_r. split; [done|]. unfold ids in Hid.
    apply list_elem_of_fmap in Hid as ([k r] & -> & [_ Hin]%list_elem_of_filter).
    exists r. apply al_lookup_Some; [by eapply to_sorted|done].
  - done.
  - erewrite M_bind_run by done.
    destruct (eraseAll_spec ids [] t1 _ Ht1) as (t2 & Heq2 & Ht2 & Hs2).
    erewrite M_bind_run by done. exists t2. split; [done|]. split; [done|]. congruence.
Qed.

(** A bad assignment is reported before anything is touched. *)
Lemma updateWhere_invalid pred t l assignments :
  table_ok t l → ¬ Forall (valid_assignment (schema_ t)) assignments →
  ∃ w, updateWhere pred assignments t = Exn t (InvalidArgument w).
Proof.
  intros Ht Hva. unfold updateWhere. mrun.
  enough (∃ w, forM assignments (λ a, lift (checkAssignment (schema_ t) a)) t = Exn t (InvalidArgument w))
    as [w Hw] by (exists w; by erewrite M_bind_exn).
  induction assignments as [|a assignments IH]; [by destruct Hva|]. cbn [forM].
  pose proof (checkAssignment_spec (schema_ t) a) as Hc.
  destruct (checkAssignment (schema_ t) a) as [[]|[]|]; try done.
  - trun. apply IH. intros Hva'. apply Hva. by constructor.
  - trun. by eexists.
Qed.
End Spec.

(** ** Rows built cell by cell *)
(** The column exists and the literal has its type. *)
Definition literal_fits (s : Schema) (column literal : string) : bool :=
  match findColumn s column with Some c => isValidValueFor (type c) literal | None => false end.

Definition blank (s : Schema) : Row := mkRow (Some s) (replicate (columnCount s) None).

Definition is_full (r : Row) : bool := forallb (λ v, bool_decide (is_Some v)) (values_ r).

Lemma applySet_fits s r a :
  row_ok s r →
  if literal_fits s a.1 a.2
  then Row.set r a.1 a.2 = Val (applySet s r a) ∧ row_ok s (applySet s r a)
  else ∃ w, Row.set r a.1 a.2 = Throw (InvalidArgument w).
Proof.
  intros Hr. unfold literal_fits. pose proof (set_spec s r a.1 a.2 Hr) as Hset.
  pose proof (columnIndex_spec s a.1) as Hi. unfold applySet. destruct (columnIndex s a.1) as [j|] eqn:Hj.
  - destruct Hi as (c & _ & _ & Hc). rewrite Hc in *. destruct (isValidValueFor (type c) a.2); [|by eexists].
    split; [done|]. by eapply set_ok.
  - rewrite Hi in *. by eexists.
Qed.

Lemma is_full_spec r : is_full r = true ↔ full r.
Proof.
  unfold is_full, full. rewrite forallb_forall, Forall_forall. setoid_rewrite <- list_elem_of_In.
  by setoid_rewrite bool_decide_eq_true.
Qed.

(** ** Assignments, decided *)
Definition assignment_ok (s : Schema) (a : string * string) : bool :=
  bool_decide (a.1 ≠ kIdColumn) && literal_fits s a.1 a.2.

Lemma assignment_ok_spec s a : assignment_ok s a = true ↔ valid_assignment s a.
Proof.
  unfold assignment_ok, valid_assignment, literal_fits. rewrite andb_true_iff, bool_decide_eq_true.
  destruct (findColumn s a.1) as [c|]; naive_solver.
Qed.

Lemma assignments_ok_spec s l : forallb (assignment_ok s) l = true ↔ Forall (valid_assignment s) l.
Proof.
  rewrite forallb_forall, Forall_forall. setoid_rewrite <- list_elem_of_In.
  by setoid_rewrite assignment_ok_spec.
Qed.
