(* ===== verification/RowMain.v ===== *)
(** * Rows: main theorems *)

From S2P Require Import Prelude CxxStd Schema Row Table TableSpec.

(** A row built for the schema [s]. *)
Definition buildRow (s : Schema) (cells : list (string * string)) : result Row :=
  r ← Row.makeRow (Some s); foldR (λ r a, Row.set r a.1 a.2) r cells.

Lemma buildRow_spec s cells :
  if forallb (λ a, literal_fits s a.1 a.2) cells
  then buildRow s cells = Val (applySets s (blank s) cells) ∧ row_ok s (applySets s (blank s) cells)
  else ∃ w, buildRow s cells = Throw (InvalidArgument w).
Proof.
  unfold buildRow. destruct (makeRow_ok s) as (r & Heq & Hr). rewrite Heq. injection Heq as <-.
  cbn [mbind result_bind]. fold (blank s) in *. revert Hr. generalize (blank s). clear.
  induction cells as [|a cells IH]; intros r Hr; [done|]. cbn [forallb foldR].
  pose proof (applySet_fits s r a Hr) as Ha. destruct (literal_fits s a.1 a.2); cbn [andb].
  - destruct Ha as [-> Hr']. cbn [mbind result_bind]. by apply IH.
  - destruct Ha as (w & ->). by exists w.
Qed.

Lemma buildRow_ok s cells r : buildRow s cells = Val r → row_ok s r.
Proof.
  intros Hb. pose proof (buildRow_spec s cells) as Hspec.
  destruct (forallb _ cells); [|destruct Hspec as (? & ?); congruence].
  destruct Hspec as [Hb' Hr]. by rewrite Hb in Hb'; injection Hb' as ->.
Qed.

(** ** Theorems *)

(** A row built cell by cell stores typed values: after [set(c, v)] returns,
    [get(c)] gives [v] back where the column is TEXT and the canonical decimal
    text of the number where it is INT (so [v] itself where [v] is canonical),
    and every other column reads as before. *)
Theorem row_set_get (s : Schema) (cells : list (string * string)) (r r' : Row) (cn v : string) :
  schema_ok s → buildRow s cells = Val r → Row.set r cn v = Val r' →
  (∀ c, findColumn s cn = Some c →
    Row.get r' cn = Val (match type c with TEXT => v | INT => to_string (from_chars v).1.1 end)) ∧
  (∀ z, is_int64 z → v = to_string z → Row.get r' cn = Val v) ∧
  (∀ cn', cn' ≠ cn → Row.get r' cn' = Row.get r cn').
Proof.
  intros Hs Hb Hset. pose proof (buildRow_ok s cells r Hb) as Hr.
  assert (Hget : ∀ c, findColumn s cn = Some c →
    Row.get r' cn = Val (match type c with TEXT => v | INT => to_string (from_chars v).1.1 end)).
  { intros c Hc. unfold Row.get. rewrite (value_set s r cn v r' cn Hr Hs Hset), decide_True, Hc by done.
    simpl. by destruct (type c). }
  split; [done|]. split.
  - intros z Hz ->. rewrite (set_spec s) in Hset by done. pose proof (columnIndex_spec s cn) as Hi.
    destruct (columnIndex s cn); [|done]. destruct Hi as (c & _ & _ & Hc). rewrite (Hget c Hc), from_to_string by done.
    by destruct (type c).
  - intros cn' Hne. unfold Row.get. by rewrite (value_set s r cn v r' cn' Hr Hs Hset), decide_False.
Qed.

(** For a row of the schema, [isComplete] and [Schema::validate] agree, and
    both hold exactly when every column of the schema has a value. *)
Theorem row_complete_valid (s : Schema) (cells : list (string * string)) (r : Row) :
  schema_ok s → buildRow s cells = Val r →
  ∃ b, isComplete r = Val b ∧ validate s r = Val b ∧
    (b = true ↔ ∀ c, c ∈ columns s → Row.has r (name c) = Val true).
Proof.
  intros Hs Hb. pose proof (buildRow_ok s cells r Hb) as Hr.
  destruct (isComplete_spec s r Hr) as (b & Hc & Hbc). destruct (validate_spec s r Hr Hs) as (b' & Hv & Hbv).
  exists b. split; [done|]. split; [rewrite Hv; f_equal; apply eq_true_iff_eq; tauto|].
  rewrite Hbc. unfold full. rewrite Forall_lookup. split.
  - intros Hf c (j & Hj)%list_elem_of_lookup_1. rewrite (has_spec s) by done. rewrite (columnIndex_at s j c) by done.
    destruct (Forall2_lookup_l _ _ _ _ _ (rk_cells _ _ Hr) Hj) as (x & Hx & _). rewrite Hx.
    by destruct (Hf j x Hx) as [? ->].
  - intros Hall j x Hx. destruct (Forall2_lookup_r _ _ _ _ _ (rk_cells _ _ Hr) Hx) as (c & Hj & _).
    specialize (Hall c). rewrite (has_spec s), (columnIndex_at s j c), Hx in Hall by done.
    destruct x; [by eexists|]. discriminate Hall. by eapply list_elem_of_lookup_2.
Qed.

Lemma row_set_get_witness :
  let s := mkSchema [mkColumn "id" INT; mkColumn "name" TEXT] in
  let r := mkRow (Some s) [None; Some (TextV "Ann")] in
  let r' := mkRow (Some s) [Some (IntV 7); Some (TextV "Ann")] in
  Row.get r' "id" = Val "7" ∧ Row.get r' "name" = Row.get r "name".
Proof.
  intros s r r'. destruct (row_set_get s [("name", "Ann")] r r' "id" "007") as (H1 & _ & H3);
    [decides|vm_compute; reflexivity|vm_compute; reflexivity|].
  split; [exact (H1 (mkColumn "id" INT) eq_refl)|]. apply H3. discriminate.
Defined.

Lemma row_complete_valid_witness :
  ∃ r, buildRow (mkSchema [mkColumn "id" INT]) [("id", "1")] = Val r ∧
    ∃ b, isComplete r = Val b ∧ validate (mkSchema [mkColumn "id" INT]) r = Val b ∧
      (b = true ↔ ∀ c, c ∈ columns (mkSchema [mkColumn "id" INT]) → Row.has r (name c) = Val true).
Proof.
  eexists. split; [vm_compute; reflexivity|].
  apply (row_complete_valid (mkSchema [mkColumn "id" INT]) [("id", "1")]); [decides|vm_compute; reflexivity].
Defined.
