(* ===== verification/TableMain.v ===== *)
(** * Table: main theorems

    A table over the hash map, for every hash function, against its reference:
    the rows sorted by id.  Rows are built as clients build them, cell by cell. *)

From S2P Require Import Prelude AssocList CxxStd Schema Row BTree HashMap KeyIndex HashMapSpec LRUCache Table TableSpec RowMain.

Inductive table_op :=
  | TInsert (s : Schema) (cells : list (string * string))
  | TFind (id : Z)
  | TDelete (id : Z)
  | TDeleteWhere (p : Row → bool)
  | TUpdateWhere (p : Row → bool) (assignments : list (string * string))
  | TSelectWhere (p : Row → bool)
  | TSelectAll
  | TRange (lo hi : Z)
  | TCount.
Inductive table_out := TBool (b : bool) | TRow (r : option Row) | TRows (rs : list Row) | TNat (n : nat) | TError.

(** ** The reference *)
Section Reference.
Context (s : Schema).

Definition rows_insert (l : list (Z * Row)) (s' : Schema) (cells : list (string * string)) : list (Z * Row) * table_out :=
  let r := applySets s' (blank s') cells in
  if forallb (λ a, literal_fits s' a.1 a.2) cells && bool_decide (columns s' = columns s) && is_full r then
    match getInt r kIdColumn with
    | Val id => (al_insert id r l, TBool (bool_decide (al_lookup id l = None)))
    | _ => (l, TError)
    end
  else (l, TError).

Definition rows_call (l : list (Z * Row)) (o : table_op) : list (Z * Row) * table_out :=
  match o with
  | TInsert s' cells => rows_insert l s' cells
  | TFind id => (l, TRow (al_lookup id l))
  | TDelete id => (al_delete id l, TBool (bool_decide (is_Some (al_lookup id l))))
  | TDeleteWhere p => (base.filter (λ e, p e.2 = false) l, TNat (length (base.filter (λ e, p e.2 = true) l)))
  | TUpdateWhere p assignments =>
    if forallb (assignment_ok s) assignments
    then ((λ e, if p e.2 then (e.1, applySets s e.2 assignments) else e) <$> l,
          TNat (length (base.filter (λ e, p e.2 = true) l)))
    else (l, TError)
  | TSelectWhere p => (l, TRows (base.filter (λ e, p e.2 = true) l).*2)
  | TSelectAll => (l, TRows l.*2)
  | TRange lo hi => (l, TRows (al_range lo hi l).*2)
  | TCount => (l, TNat (length l))
  end.

Fixpoint rows_calls (l : list (Z * Row)) (ops : list table_op) : list (Z * Row) * list table_out :=
  match ops with
  | [] => (l, [])
  | o :: ops' => let '(l1, r) := rows_call l o in let '(l2, rs) := rows_calls l1 ops' in (l2, r :: rs)
  end.
End Reference.

(** ** The code *)
Section History.
Context (hash : Z → N).
#[local] Instance index : KeyIndex Z nat (HashMap Z nat) := HashMap_index hash.
#[local] Instance index_laws : KeyIndexLaws Z nat (HashMap Z nat) := HashMap_index_laws hash.
Abbreviation T := (Table (HashMap Z nat)).

Definition table_call (o : table_op) : M T table_out :=
  match o with
  | TInsert s cells => r ← lift (buildRow s cells); b ← insert r; mret (TBool b)
  | TFind id => r ← findById id; mret (TRow r)
  | TDelete id => b ← deleteById id; mret (TBool b)
  | TDeleteWhere p => n ← deleteWhere (λ r, Val (p r)); mret (TNat n)
  | TUpdateWhere p assignments => n ← updateWhere (λ r, Val (p r)) assignments; mret (TNat n)
  | TSelectWhere p => rs ← selectWhere (λ r, Val (p r)); mret (TRows rs)
  | TSelectAll => rs ← selectAll; mret (TRows rs)
  | TRange lo hi => rs ← selectIdRange lo hi; mret (TRows rs)
  | TCount => n ← rowCount; mret (TNat n)
  end.

(** A call whose exception the client catches. *)
Definition try_call (o : table_op) : M T table_out := λ t,
  match table_call o t with Exn t' _ => Ret t' TError | r => r end.

Fixpoint table_calls (ops : list table_op) : M T (list table_out) :=
  match ops with
  | [] => mret []
  | o :: ops' => r ← try_call o; rs ← table_calls ops'; mret (r :: rs)
  end.

Lemma try_insert_spec t l s' cells :
  table_ok t l →
  ∃ t', try_call (TInsert s' cells) t = Ret t' (rows_insert (schema_ t) l s' cells).2 ∧
    table_ok t' (rows_insert (schema_ t) l s' cells).1 ∧ schema_ t' = schema_ t.
Proof.
  intros Ht. unfold try_call, rows_insert. cbn [table_call]. pose proof (buildRow_spec s' cells) as Hb.
  destruct (forallb (λ a, literal_fits s' a.1 a.2) cells); cbn [andb].
  2: { destruct Hb as (w & ->). mrun. by exists t. }
  destruct Hb as [-> Hr]. mrun. set (r := applySets s' (blank s') cells) in *. clearbody r.
  pose proof (insert_row_spec t l r s' Ht Hr) as Hi. case_bool_decide as Hcol.
  2: { rewrite decide_False in Hi by done. erewrite M_bind_exn by done. by exists t. }
  rewrite decide_True in Hi by done. destruct Hi as [Hfull Hnot]. cbn [andb].
  destruct (is_full r) eqn:Hf.
  - apply is_full_spec in Hf. destruct (Hfull Hf) as (id & t' & -> & _ & _ & Hrun & Ht' & Hs).
    erewrite M_bind_run by done. mrun. by exists t'.
  - rewrite <- is_full_spec, Hf in Hnot. erewrite M_bind_exn by (by apply Hnot). by exists t.
Qed.

Lemma try_call_spec t l o :
  table_ok t l →
  ∃ t', try_call o t = Ret t' (rows_call (schema_ t) l o).2 ∧
    table_ok t' (rows_call (schema_ t) l o).1 ∧ schema_ t' = schema_ t.
Proof.
  intros Ht. destruct o as [s' cells|id|id|p|p assignments|p| |lo hi|]; cbn [rows_call].
  - by apply try_insert_spec.
  - destruct (findById_spec t l id Ht) as (t' & Hrun & ? & ? & _). unfold try_call. cbn [table_call].
    erewrite M_bind_run by done. by exists t'.
  - destruct (deleteById_spec t l id Ht) as (t' & Hrun & ? & ?). unfold try_call. cbn [table_call].
    erewrite M_bind_run by done. by exists t'.
  - destruct (deleteWhere_spec (λ r, Val (p r)) p t l Ht) as (t' & Hrun & ? & ?); [done|].
    unfold try_call. cbn [table_call]. erewrite M_bind_run by done. by exists t'.
  - unfold try_call. cbn [table_call]. destruct (forallb (assignment_ok (schema_ t)) assignments) eqn:Ha.
    + apply assignments_ok_spec in Ha.
      destruct (updateWhere_spec (λ r, Val (p r)) p t l assignments Ht) as (t' & Hrun & ? & ?); [done|done|].
      erewrite M_bind_run by done. by exists t'.
    + destruct (updateWhere_invalid (λ r, Val (p r)) t l assignments Ht) as (w & Hrun).
      { rewrite <- assignments_ok_spec. congruence. }
      erewrite M_bind_exn by done. by exists t.
  - unfold try_call. cbn [table_call]. erewrite M_bind_run by (by apply (selectWhere_spec _ p)). by exists t.
  - unfold try_call. cbn [table_call]. erewrite M_bind_run by (by apply selectAll_spec). by exists t.
  - unfold try_call. cbn [table_call]. erewrite M_bind_run by (by apply selectIdRange_spec). by exists t.
  - unfold try_call. cbn [table_call]. erewrite M_bind_run by (by apply rowCount_spec). by exists t.
Qed.

Lemma table_calls_spec t l ops :
  table_ok t l →
  ∃ t', table_calls ops t = Ret t' (rows_calls (schema_ t) l ops).2 ∧
    table_ok t' (rows_calls (schema_ t) l ops).1 ∧ schema_ t' = schema_ t.
Proof.
  revert t l. induction ops as [|o ops IH]; intros t l Ht; [by exists t|]. cbn [table_calls].
  destruct (try_call_spec t l o Ht) as (t1 & Hrun & Ht1 & Hs1). erewrite M_bind_run by done.
  cbn [rows_calls]. destruct (rows_call (schema_ t) l o) as [l1 r]. simpl in *.
  destruct (IH t1 _ Ht1) as (t2 & Hrun2 & Ht2 & Hs2). erewrite M_bind_run by done.
  rewrite Hs1 in *. destruct (rows_calls (schema_ t) l1 ops) as [l2 rs]. mrun. by exists t2.
Qed.

Lemma makeTable_inv s cap (t : T) :
  schema_ok s → makeTable s cap = Val t → table_ok t [] ∧ schema_ t = s.
Proof.
  intros Hs Hm. destruct (decide (0 < cap)%N) as [Hcap|Hcap].
  - pose proof (makeTable_spec (Ix := HashMap Z nat) s cap Hs Hcap) as Hspec.
    destruct (findColumn s kIdColumn) as [c|]; [case_decide|];
      destruct Hspec as (x & Hx & Hrest) || destruct Hspec as (x & Hx); rewrite Hx in Hm; simplify_eq. done.
  - assert (cap = 0%N) as -> by lia. done.
Qed.

(** ** Theorems *)

(** C6: For every hash function, schema and cache capacity, and every sequence of
    insert, findById, deleteById, deleteWhere, updateWhere, selectWhere, selectAll,
    selectIdRange and rowCount calls on a new table, each call returns what the
    list of rows sorted by id returns (an error where that has one), through
    B-tree and cache, and the final table stands for the final list. *)
Theorem table_history (s : Schema) (cap : N) (t : T) (ops : list table_op) :
  schema_ok s → makeTable s cap = Val t →
  ∃ t', table_calls ops t = Ret t' (rows_calls s [] ops).2 ∧ table_ok t' (rows_calls s [] ops).1.
Proof.
  intros Hs Hm. destruct (makeTable_inv s cap t Hs Hm) as [Ht <-].
  destruct (table_calls_spec t [] ops Ht) as (t' & ? & ? & _). by exists t'.
Qed.

(** The row cache is invisible: two tables of one schema with caches of any
    two capacities answer every sequence of calls alike. *)
Theorem table_cache_transparent (s : Schema) (cap1 cap2 : N) (t1 t2 : T) (ops : list table_op) :
  schema_ok s → makeTable s cap1 = Val t1 → makeTable s cap2 = Val t2 →
  ∃ t1' t2' outs, table_calls ops t1 = Ret t1' outs ∧ table_calls ops t2 = Ret t2' outs.
Proof.
  intros Hs Hm1 Hm2. destruct (makeTable_inv _ _ _ Hs Hm1) as [Ht1 Hs1].
  destruct (makeTable_inv _ _ _ Hs Hm2) as [Ht2 Hs2].
  destruct (table_calls_spec t1 [] ops Ht1) as (t1' & H1 & _). destruct (table_calls_spec t2 [] ops Ht2) as (t2' & H2 & _).
  rewrite Hs1 in H1. rewrite Hs2 in H2. eauto.
Qed.

(** C19: An update with an assignment to the id, to an unknown column or of a
    literal of the wrong type throws before any row is touched, whatever the
    predicate does: the table is the very table it was. *)
Theorem table_update_all_or_nothing (s : Schema) (cap : N) (t t' : T) (ops : list table_op) (outs : list table_out)
    (pred : Row → result bool) (assignments : list (string * string)) :
  schema_ok s → makeTable s cap = Val t → table_calls ops t = Ret t' outs →
  forallb (assignment_ok s) assignments = false →
  ∃ w, updateWhere pred assignments t' = Exn t' (InvalidArgument w).
Proof.
  intros Hs Hm Hops Ha. destruct (makeTable_inv _ _ _ Hs Hm) as [Ht Hst].
  destruct (table_calls_spec t [] ops Ht) as (t'' & Hrun & Ht' & Hst'). rewrite Hops in Hrun.
  injection Hrun as <- _. eapply updateWhere_invalid; [done|]. rewrite <- assignments_ok_spec, Hst', Hst. congruence.
Qed.
End History.

Definition users : Schema := mkSchema [mkColumn "id" INT; mkColumn "name" TEXT].
Definition demo_ops : list table_op :=
  [TInsert users [("id", "7"); ("name", "Ann")]; TInsert users [("name", "Bob"); ("id", "3")]; TFind 7;
   TInsert users [("id", "7"); ("name", "Eve")]; TUpdateWhere (λ _, true) [("name", "Zoe")]; TFind 7; TSelectAll;
   TInsert users [("id", "x")]; TDelete 3; TCount].

#[local] Instance demo_index : KeyIndex Z nat (HashMap Z nat) := HashMap_index Z.to_N.
#[local] Instance demo_laws : KeyIndexLaws Z nat (HashMap Z nat) := HashMap_index_laws Z.to_N.
Definition demo_table (cap : N) : Table (HashMap Z nat) :=
  match makeTable users cap with Val t => t | _ => mkTable users (mkBTree None 16 0) (mkLRUCache 0 [] ix_new 0 0 0) end.

Lemma table_history_witness :
  ∃ t', table_calls Z.to_N demo_ops (demo_table 2) = Ret t' (rows_calls users [] demo_ops).2 ∧
    table_ok t' (rows_calls users [] demo_ops).1.
Proof. apply (table_history Z.to_N users 2); [decides|vm_compute; reflexivity]. Defined.

Lemma table_cache_transparent_witness :
  ∃ t1 t2 outs, table_calls Z.to_N demo_ops (demo_table 1) = Ret t1 outs ∧
    table_calls Z.to_N demo_ops (demo_table 128) = Ret t2 outs.
Proof.
  apply (table_cache_transparent Z.to_N users 1 128); [decides|vm_compute; reflexivity|vm_compute; reflexivity].
Defined.

Definition demo_after : Table (HashMap Z nat) :=
  match table_calls Z.to_N demo_ops (demo_table 2) with Ret t _ => t | _ => demo_table 2 end.

Lemma table_update_all_or_nothing_witness :
  ∃ w, updateWhere (λ _, Val true) [("name", "Max"); ("id", "5")] demo_after = Exn demo_after (InvalidArgument w).
Proof.
  apply (table_update_all_or_nothing Z.to_N users 2 (demo_table 2) demo_after demo_ops
    (rows_calls users [] demo_ops).2); [decides|vm_compute; reflexivity..].
Defined.
