(* ===== verification/TableReaders.v ===== *)
(** * Tables under concurrency (src/core/table.cpp)

    Any number of threads call one table.  A call runs under the table's
    [RWLock]; [findById] holds it for reading and takes [cacheMutex_] twice, for
    the cache probe and for the fill, so that other readers run in between.
    The other read calls touch only the tree, which no reader changes, and are
    one step; so are the write calls, which are alone. *)

From S2P Require Import Prelude AssocList CxxStd Schema Row BTree HashMap KeyIndex HashMapSpec LRUCache BTreeQuery.
From S2P Require Import RWLock Table TableSpec RowMain TableMain.

Section Readers.
Context (hash : Z → N).
#[local] Instance readers_index : KeyIndex Z nat (HashMap Z nat) := HashMap_index hash.
#[local] Instance readers_laws : KeyIndexLaws Z nat (HashMap Z nat) := HashMap_index_laws hash.
Abbreviation T := (Table (HashMap Z nat)).
Implicit Types (t : T) (l : list (Z * Row)).

(** ** The steps of [findById] *)
Definition find_probe (id : Z) : M T (option Row) :=
  t ← get_state;
  '(cache, hit) ← lift (LRUCache.get (cache_ t) id);
  setCache cache;;
  mret hit.

Definition find_search (id : Z) : M T (option Row) := t ← get_state; lift (BTree.search (rows_ t) id).

Definition find_fill (id : Z) (row : Row) : M T unit :=
  t ← get_state;
  cache ← lift (LRUCache.put (cache_ t) id row);
  setCache cache.

(** Run one after the other they are the call. *)
Lemma findById_steps id t :
  findById id t =
    (hit ← find_probe id;
     match hit with
     | Some row => mret (Some row)
     | None =>
       row ← find_search id;
       match row with
       | Some row => find_fill id row;; mret (Some row)
       | None => mret None
       end
     end) t.
Proof.
  unfold findById, find_probe, find_search, find_fill, setCache. mrun.
  destruct (LRUCache.get (cache_ t) id) as [[cache hit]| |]; mrun; [|done|done].
  destruct hit as [row|]; mrun; [done|]. cbn [rows_ cache_ schema_].
  destruct (BTree.search (rows_ t) id) as [[row|]| |]; by mrun.
Qed.

Lemma find_probe_spec t l id :
  table_ok t l →
  ∃ t' hit, find_probe id t = Ret t' hit ∧ table_ok t' l ∧ schema_ t' = schema_ t ∧
    (∀ row, hit = Some row → al_lookup id l = Some row).
Proof.
  intros Ht. unfold find_probe. trun. destruct (to_cache _ _ _ Ht) as (cl & Hcl & Hco).
  pose proof (lr_keys _ _ Hcl) as Hnd.
  destruct (lru_get_spec (cache_ t) cl id Hcl) as (c' & -> & Hc' & _). trun.
  eexists _, _. split; [done|]. split; [|split; [done|]].
  - eapply table_step; try done; [apply Ht|apply Ht|]. intros k r Hk. rewrite ref_get_cached by done. by apply Hco.
  - intros row Hrow. apply Hco; [by intros ?%elem_of_nil|]. unfold ref_get in Hrow. by destruct (cached cl !! id).
Qed.

Lemma find_search_spec t l id : table_ok t l → find_search id t = Ret t (al_lookup id l).
Proof. intros Ht. unfold find_search. trun. rewrite (search_spec (rows_ t) l) by apply Ht. by trun. Qed.

Lemma find_fill_spec t l id row :
  table_ok t l → al_lookup id l = Some row →
  ∃ t', find_fill id row t = Ret t' () ∧ table_ok t' l ∧ schema_ t' = schema_ t.
Proof.
  intros Ht Hl. unfold find_fill. trun. destruct (to_cache _ _ _ Ht) as (cl & Hcl & Hco).
  pose proof (lr_keys _ _ Hcl) as Hnd.
  destruct (lru_put_spec (cache_ t) cl id row Hcl) as (c2 & -> & Hc2 & _). trun.
  eexists. split; [done|]. split; [|done]. eapply table_step; try done; [apply Ht|apply Ht|].
  intros k r' Hk [[-> ->]|[_ Hk']]%ref_put_sub; [done|by apply Hco|done].
Qed.

(** ** The system *)
Inductive progress := PMiss (id : Z) | PFound (id : Z) (row : Row).

Record csys := mkCsys {
  c_lock : sys;
  c_table : T;
  c_find : gmap nat progress;             (* lookups under way, by thread *)
  c_trace : list (table_op * table_out);  (* calls in the order they completed *)
}.

Definition read_only (o : table_op) : bool :=
  match o with TSelectWhere _ | TSelectAll | TRange _ _ | TCount => true | _ => false end.

Inductive cstep : csys → csys → Prop :=
  | cs_lock i a k k' t f tr :
      step i a k k' → (a = AReadUnlock ∨ a = AWriteUnlock → f !! i = None) →
      cstep (mkCsys k t f tr) (mkCsys k' t f tr)
  | cs_hit i id row k t t' f tr :
      threads k !! i = Some Reading → f !! i = None → find_probe id t = Ret t' (Some row) →
      cstep (mkCsys k t f tr) (mkCsys k t' f (tr ++ [(TFind id, TRow (Some row))]))
  | cs_miss i id k t t' f tr :
      threads k !! i = Some Reading → f !! i = None → find_probe id t = Ret t' None →
      cstep (mkCsys k t f tr) (mkCsys k t' (<[i:=PMiss id]> f) tr)
  | cs_absent i id k t t' f tr :
      f !! i = Some (PMiss id) → find_search id t = Ret t' None →
      cstep (mkCsys k t f tr) (mkCsys k t' (delete i f) (tr ++ [(TFind id, TRow None)]))
  | cs_found i id row k t t' f tr :
      f !! i = Some (PMiss id) → find_search id t = Ret t' (Some row) →
      cstep (mkCsys k t f tr) (mkCsys k t' (<[i:=PFound id row]> f) tr)
  | cs_fill i id row k t t' f tr :
      f !! i = Some (PFound id row) → find_fill id row t = Ret t' () →
      cstep (mkCsys k t f tr) (mkCsys k t' (delete i f) (tr ++ [(TFind id, TRow (Some row))]))
  | cs_read i o r k t t' f tr :
      threads k !! i = Some Reading → f !! i = None → read_only o = true → try_call hash o t = Ret t' r →
      cstep (mkCsys k t f tr) (mkCsys k t' f (tr ++ [(o, r)]))
  | cs_write i o r k t t' f tr :
      threads k !! i = Some Writing → try_call hash o t = Ret t' r →
      cstep (mkCsys k t f tr) (mkCsys k t' f (tr ++ [(o, r)])).

Definition start (n : nat) (t : T) : csys := mkCsys (newSys n) t ∅ [].

(** ** The invariant *)
Record cinv (n : nat) (s : Schema) (c : csys) (l : list (Z * Row)) : Prop := {
  ci_lock : reachable n (c_lock c);
  ci_table : table_ok (c_table c) l;
  ci_schema : schema_ (c_table c) = s;
  ci_trace : rows_calls s [] (c_trace c).*1 = (l, (c_trace c).*2);
  ci_find : ∀ i p, c_find c !! i = Some p → threads (c_lock c) !! i = Some Reading ∧
    match p with PFound id row => al_lookup id l = Some row | PMiss _ => True end;
}.

Lemma rows_calls_snoc s l ops o :
  rows_calls s l (ops ++ [o]) =
    ((rows_call s (rows_calls s l ops).1 o).1, (rows_calls s l ops).2 ++ [(rows_call s (rows_calls s l ops).1 o).2]).
Proof.
  revert l. induction ops as [|o' ops IH]; intros l; simpl; [by destruct (rows_call s l o)|].
  destruct (rows_call s l o') as [l1 r]. rewrite IH. by destruct (rows_calls s l1 ops).
Qed.

(** A call completes: the trace grows by it. *)
Lemma trace_snoc s l tr o l' r :
  rows_calls s [] tr.*1 = (l, tr.*2) → rows_call s l o = (l', r) →
  rows_calls s [] (tr ++ [(o, r)]).*1 = (l', (tr ++ [(o, r)]).*2).
Proof. intros Htr Ho. rewrite !fmap_app. csimpl. rewrite rows_calls_snoc, Htr. simpl. by rewrite Ho. Qed.

Lemma cinv_step n s c c' l : cinv n s c l → cstep c c' → ∃ l', cinv n s c' l'.
Proof.
  intros [Hk Ht Hs Htr Hf] Hstep.
  destruct Hstep as [i a k k' t f tr Hst Hrel|i id row k t t' f tr Hi Hfi Hp|i id k t t' f tr Hi Hfi Hp
    |i id k t t' f tr Hfi Hp|i id row k t t' f tr Hfi Hp|i id row k t t' f tr Hfi Hp
    |i o r k t t' f tr Hi Hfi Ho Hp|i o r k t t' f tr Hi Hp]; simpl in *.
  - exists l. split; simpl; try done.
    + eapply rtc_r; [done|]. by exists i, a.
    + intros j p Hj. destruct (Hf j p Hj) as [Hr Hp]. split; [|done]. eapply step_keeps_reading; [done|done|].
      intros -> ->. rewrite Hrel in Hj by auto. done.
  - destruct (find_probe_spec t l id Ht) as (t1 & hit & Hp' & Ht1 & Hs1 & Hhit). rewrite Hp in Hp'.
    injection Hp' as <- <-. exists l. split; simpl; try done; [congruence|].
    eapply trace_snoc; [done|]. simpl. by rewrite (Hhit row).
  - destruct (find_probe_spec t l id Ht) as (t1 & hit & Hp' & Ht1 & Hs1 & Hhit). rewrite Hp in Hp'.
    injection Hp' as <- <-. exists l. split; simpl; try done; [congruence|].
    intros j p [[<- <-]|[_ Hj]]%lookup_insert_Some; [done|by apply Hf].
  - rewrite (find_search_spec t l) in Hp by done. injection Hp as <- Hl. exists l. split; simpl; try done.
    + eapply trace_snoc; [done|]. simpl. by rewrite Hl.
    + intros j p [_ Hj]%lookup_delete_Some. by apply Hf.
  - rewrite (find_search_spec t l) in Hp by done. injection Hp as <- Hl. exists l. split; simpl; try done.
    intros j p [[<- <-]|[_ Hj]]%lookup_insert_Some; [|by apply Hf]. split; [by eapply Hf|done].
  - destruct (Hf i _ Hfi) as [_ Hl]. destruct (find_fill_spec t l id row Ht Hl) as (t1 & Hp' & Ht1 & Hs1).
    rewrite Hp in Hp'. injection Hp' as <-. exists l. split; simpl; try done; [congruence| |].
    + eapply trace_snoc; [done|]. simpl. by rewrite Hl.
    + intros j p [_ Hj]%lookup_delete_Some. by apply Hf.
  - destruct (try_call_spec hash t l o Ht) as (t1 & Hp' & Ht1 & Hs1). rewrite Hp in Hp'. injection Hp' as <- ->.
    rewrite Hs in *. assert (Hl : (rows_call s l o).1 = l) by (by destruct o). rewrite Hl in Ht1.
    exists l. split; simpl; try done. eapply trace_snoc; [done|]. rewrite <- Hl at 2. by destruct (rows_call s l o).
  - destruct (try_call_spec hash t l o Ht) as (t1 & Hp' & Ht1 & Hs1). rewrite Hp in Hp'. injection Hp' as <- ->.
    rewrite Hs in *. exists (rows_call s l o).1. split; simpl; try done.
    + eapply trace_snoc; [done|]. by destruct (rows_call s l o).
    + intros j p Hj. destruct (Hf j p Hj) as [Hr _]. by destruct (writing_excludes n k i j Hk Hi).
Qed.

Lemma cinv_reachable n s cap t c :
  schema_ok s → makeTable s cap = Val t → rtc cstep (start n t) c → ∃ l, cinv n s c l.
Proof.
  intros Hs Hm Hc. destruct (makeTable_inv hash s cap t Hs Hm) as [Ht Hst].
  assert (H0 : ∃ l, cinv n s (start n t) l).
  { exists []. split; simpl; try done. apply rtc_refl. }
  revert H0. induction Hc as [|c1 c2 c3 H12 _ IH]; [done|]. intros (l & Hl). apply IH. by eapply cinv_step.
Qed.

(** ** Theorem *)

(** C8: Concurrent use of a table is linearizable, with calls ordered by when
    they complete: for any number of threads and any interleaving of their steps
    (readers share the lock and interleave inside [findById], at the cache probe,
    the tree search and the cache fill), the results of all completed calls are
    those of the same calls made one after the other on the sorted list of rows,
    and the table, its cache included, stands for the resulting list.  No thread
    is stuck inside a call: every lookup under way has a next step. *)
Theorem table_linearizable (n : nat) (s : Schema) (cap : N) (t : T) (c : csys) :
  schema_ok s → makeTable s cap = Val t → rtc cstep (start n t) c →
  (∃ l, rows_calls s [] (c_trace c).*1 = (l, (c_trace c).*2) ∧ table_ok (c_table c) l) ∧
  (∀ i p, c_find c !! i = Some p → ∃ c', cstep c c' ∧ c_find c' !! i ≠ Some p).
Proof.
  intros Hs Hm Hc. destruct (cinv_reachable n s cap t c Hs Hm Hc) as (l & [Hk Ht Hsch Htr Hf]).
  split; [by exists l|]. intros i p Hi. destruct c as [k tb f tr]. simpl in *. destruct (Hf i p Hi) as [_ Hp].
  destruct p as [id|id row].
  - pose proof (find_search_spec tb l id Ht) as Hsearch. destruct (al_lookup id l) as [row|].
    + eexists. split; [by eapply cs_found|]. simpl. by rewrite lookup_insert_eq.
    + eexists. split; [by eapply cs_absent|]. simpl. by rewrite lookup_delete_eq.
  - destruct (find_fill_spec tb l id row Ht Hp) as (t' & Hfill & _).
    eexists. split; [by eapply cs_fill|]. simpl. by rewrite lookup_delete_eq.
Qed.
End Readers.

(** Thread 0 inserts a row; then threads 0 and 1 look it up at the same time. *)
Definition demo_insert_op : table_op := TInsert users [("id", "7"); ("name", "Ann")].
Definition run_or {A} (t : Table (HashMap Z nat)) (o : outcome (Table (HashMap Z nat)) A) : Table (HashMap Z nat) :=
  match o with Ret t' _ => t' | _ => t end.
Definition demo_row : Row := mkRow (Some users) [Some (IntV 7); Some (TextV "Ann")].
Definition demo_t1 := run_or (demo_table 2) (try_call Z.to_N demo_insert_op (demo_table 2)).
Definition demo_t2 := run_or demo_t1 (find_probe Z.to_N 7 demo_t1).
Definition demo_t3 := run_or demo_t2 (find_probe Z.to_N 7 demo_t2).
Definition demo_t4 := run_or demo_t3 (find_fill Z.to_N 7 demo_row demo_t3).
Definition demo_t5 := run_or demo_t4 (find_fill Z.to_N 7 demo_row demo_t4).

Lemma demo_run :
  ∃ c, rtc (cstep Z.to_N) (start 2 (demo_table 2)) c ∧
    c_trace c = [(demo_insert_op, TBool true); (TFind 7, TRow (Some demo_row)); (TFind 7, TRow (Some demo_row))].
Proof.
  eexists. split.
  - eapply rtc_l; [eapply (cs_lock _ 0 AWriteLock); [eapply (step_write 0 newRWLock [Idle; Idle] Idle); [done|by left|done]|naive_solver]|].
    eapply rtc_l; [eapply (cs_write _ 0 demo_insert_op _ _ _ demo_t1); [done|vm_compute; reflexivity]|].
    eapply rtc_l; [eapply (cs_lock _ 0 AWriteUnlock); [eapply (step_write_unlock 0 _ [Writing; Idle]); [done|apply deliver_all]|done]|].
    eapply rtc_l; [eapply (cs_lock _ 0 AReadLock); [eapply (step_read 0 _ [Idle; Idle] Idle); [done|by left|done]|naive_solver]|].
    eapply rtc_l; [eapply (cs_lock _ 1 AReadLock); [eapply (step_read 1 _ [Reading; Idle] Idle); [done|by left|done]|naive_solver]|].
    eapply rtc_l; [eapply (cs_miss _ 0 7 _ _ demo_t2); [done|done|vm_compute; reflexivity]|].
    eapply rtc_l; [eapply (cs_miss _ 1 7 _ _ demo_t3); [done|done|vm_compute; reflexivity]|].
    eapply rtc_l; [eapply (cs_found _ 0 7 demo_row _ _ demo_t3); [done|vm_compute; reflexivity]|].
    eapply rtc_l; [eapply (cs_found _ 1 7 demo_row _ _ demo_t3); [done|vm_compute; reflexivity]|].
    eapply rtc_l; [eapply (cs_fill _ 1 7 demo_row _ _ demo_t4); [done|vm_compute; reflexivity]|].
    eapply rtc_l; [eapply (cs_fill _ 0 7 demo_row _ _ demo_t5); [done|vm_compute; reflexivity]|].
    apply rtc_refl.
  - reflexivity.
Qed.

Lemma table_linearizable_witness :
  ∃ c : csys, length (c_trace c) = 3 ∧
    (∃ l, rows_calls users [] (c_trace c).*1 = (l, (c_trace c).*2) ∧
      table_upto (Ix := HashMap Z nat) (KeyIndexLaws0 := HashMap_index_laws Z.to_N) [] (c_table c) l).
Proof.
  destruct demo_run as (c & Hc & Htr). exists c. split; [by rewrite Htr|].
  apply (table_linearizable Z.to_N 2 users 2 (demo_table 2) c); [decides|vm_compute; reflexivity|exact Hc].
Defined.
