(* ===== verification/Lexer.v ===== *)
(** * Lexer (include/query/Token.hpp, include/query/Lexer.hpp, src/query/lexer.cpp)

    [tokenize] walks the input once; the model carries the input from index [i]
    on together with [i].  Every round of the loop consumes at least one
    character, so the length of the input is enough fuel.

    Proved here: the tokens are well formed, in order, and end with the END
    sentinel; and the text of a list of well-formed tokens lexes back to them. *)

From S2P Require Import Prelude CxxStd.
From Stdlib Require Import Ascii.

Inductive TokenType := KEYWORD | IDENTIFIER | NUMBER | STRING | OPERATOR | PUNCTUATION | END.

#[export] Instance TokenType_eq_dec : EqDecision TokenType.
Proof. solve_decision. Defined.

Record Token := mkToken {
  tok_type : TokenType;
  tok_value : string;
  tok_position : nat;
}.

Definition kKeywords : list string :=
  ["SELECT"; "FROM"; "WHERE"; "INSERT"; "INTO"; "VALUES"; "DELETE"; "CREATE"; "DROP"; "TABLE";
   "INT"; "TEXT"; "AND"; "UPDATE"; "SET"].

Definition isKeyword (upper : string) : bool := existsb (λ keyword, bool_decide (upper = keyword)) kKeywords.

Definition isIdentStart (c : ascii) : bool := isalpha c || bool_decide (c = "_"%char).
Definition isIdentChar (c : ascii) : bool := isalnum c || bool_decide (c = "_"%char).
Definition isDigit (c : ascii) : bool := isdigit c.

Definition squote : ascii := "'".
Definition dquote : ascii := ascii_of_N 34.

(** [while (i < n && f(input_[i])) ++i;]: what is passed over and what is left *)
Fixpoint span (f : ascii → bool) (s : string) : string * string :=
  match s with
  | "" => ("", "")
  | String c s' => if f c then let '(w, rest) := span f s' in (String c w, rest) else ("", s)
  end.

(** The rest of a string literal: its content and what follows the closing
    quote; [None] when it is unterminated.  A doubled quote stands for itself. *)
Fixpoint scanString (quote : ascii) (s : string) : option (string * string) :=
  match s with
  | "" => None
  | String c s' =>
    if bool_decide (c = quote) then
      match s' with
      | String d s'' =>
        if bool_decide (d = quote)
        then '(content, rest) ← scanString quote s''; Some (String quote content, rest)
        else Some ("", s')
      | "" => Some ("", s')
      end
    else '(content, rest) ← scanString quote s'; Some (String c content, rest)
  end.

Definition startsWith (c : ascii) (s : string) : bool :=
  match s with String d _ => bool_decide (d = c) | "" => false end.

Definition to_string_pos (i : nat) : string := to_string_N (N.of_nat i).

Fixpoint tokenizeLoop (fuel : nat) (s : string) (i : nat) (tokens : list Token) : result (list Token) :=
  match s with
  | "" => Val (tokens ++ [mkToken END "" i])
  | String c s' =>
    match fuel with
    | 0 => Undef
    | S fuel =>
      let push type value rest :=
        tokenizeLoop fuel rest (i + (String.length s - String.length rest))
          (tokens ++ [mkToken type value i]) in
      if isspace c then tokenizeLoop fuel s' (i + 1) tokens
      else if isIdentStart c then
        let '(word, rest) := span isIdentChar s in
        let upper := string_map toupper word in
        if isKeyword upper then push KEYWORD upper rest else push IDENTIFIER word rest
      else if isDigit c || (bool_decide (c = "-"%char) && startsWithDigit s') then
        let '(ds, rest) := span isDigit s' in push NUMBER (String c ds) rest
      else if bool_decide (c = squote) || bool_decide (c = dquote) then
        match scanString c s' with
        | None => Throw (QueryError ("unterminated string literal at position " +:+ to_string_pos i))
        | Some (content, rest) => push STRING content rest
        end
      else if bool_decide (c = "="%char) then push OPERATOR "=" s'
      else if bool_decide (c = "<"%char) || bool_decide (c = ">"%char) then
        match s' with
        | String d s'' =>
          if bool_decide (d = "="%char) then push OPERATOR (String c "=") s''
          else push OPERATOR (String c "") s'
        | "" => push OPERATOR (String c "") s'
        end
      else if bool_decide (c = "!"%char) then
        match s' with
        | String d s'' =>
          if bool_decide (d = "="%char) then push OPERATOR "!=" s''
          else Throw (QueryError ("unexpected '!' at position " +:+ to_string_pos i))
        | "" => Throw (QueryError ("unexpected '!' at position " +:+ to_string_pos i))
        end
      else if bool_decide (c = "("%char) || bool_decide (c = ")"%char) || bool_decide (c = ","%char)
              || bool_decide (c = "*"%char)
      then push PUNCTUATION (String c "") s'
      else Throw (QueryError ("unexpected character '" +:+ String c "" +:+ "' at position " +:+
             to_string_pos i))
    end
  end.

Definition tokenize (input : string) : result (list Token) :=
  tokenizeLoop (String.length input) input 0 [].

(** ** Well-formed tokens *)
Definition is_identifier (s : string) : bool :=
  match s with String c _ => isIdentStart c && string_forallb isIdentChar s | "" => false end.

Definition is_number (s : string) : bool :=
  match s with
  | String c s' =>
    string_forallb isDigit s' && (isDigit c || (bool_decide (c = "-"%char) && startsWithDigit s'))
  | "" => false
  end.

Definition operators : list string := ["="; "!="; "<"; "<="; ">"; ">="].
Definition punctuation : list string := ["("; ")"; ","; "*"].

(** A type and a value that the lexer can produce. *)
Definition lexeme_ok (t : TokenType * string) : Prop :=
  match t.1 with
  | KEYWORD => t.2 ∈ kKeywords
  | IDENTIFIER => is_identifier t.2 = true ∧ isKeyword (string_map toupper t.2) = false
  | NUMBER => is_number t.2 = true
  | STRING => True
  | OPERATOR => t.2 ∈ operators
  | PUNCTUATION => t.2 ∈ punctuation
  | END => False
  end.

Definition lexeme (t : Token) : TokenType * string := (tok_type t, tok_value t).

(** The tokens of an input of [n] bytes: each within the input, in strictly
    ascending order, then the sentinel. *)
Definition tokens_ok (n : nat) (ts : list Token) : Prop :=
  ∃ body, ts = body ++ [mkToken END "" n] ∧ Forall (λ t, lexeme_ok (lexeme t)) body ∧
    Forall (λ t, tok_position t < n) body ∧
    StronglySorted (λ a b, tok_position a < tok_position b) body.

(** ** Characters *)
Ltac by_chars := let c := fresh in intros c; destruct c as [[] [] [] [] [] [] [] []]; done.

Lemma identStart_char : ∀ c, isIdentStart c = true → isIdentChar c = true.
Proof. by_chars. Qed.
Lemma identStart_nospace : ∀ c, isIdentStart c = true → isspace c = false.
Proof. by_chars. Qed.
Lemma digit_dispatch : ∀ c, isDigit c = true → isspace c = false ∧ isIdentStart c = false.
Proof. by_chars. Qed.
Lemma toupper_ident : ∀ c, isIdentChar c = true → isIdentChar (toupper c) = true.
Proof. by_chars. Qed.

(** ** Scanning *)
Lemma span_spec f s :
  s = (span f s).1 +:+ (span f s).2 ∧ string_forallb f (span f s).1 = true.
Proof.
  induction s as [|c s [IH1 IH2]]; simpl; [done|]. destruct (f c) eqn:Hc; [|done].
  destruct (span f s) as [w rest]. simpl in *. rewrite Hc, IH2. by rewrite IH1 at 1.
Qed.

Definition stops (f : ascii → bool) (s : string) : Prop :=
  match s with String c _ => f c = false | "" => True end.

Lemma span_app f w rest : string_forallb f w = true → stops f rest → span f (w +:+ rest) = (w, rest).
Proof.
  intros Hw Hr. induction w as [|c w IH]; simpl in *.
  - destruct rest as [|c rest]; simpl in *; [done|]. by rewrite Hr.
  - apply andb_true_iff in Hw as [-> Hw]. by rewrite IH.
Qed.

Lemma scanString_length q s content rest :
  scanString q s = Some (content, rest) → String.length rest < String.length s.
Proof.
  remember (String.length s) as n eqn:Hn. revert s content rest Hn.
  induction n as [n IH] using lt_wf_ind; intros s content rest -> Hs.
  destruct s as [|c s]; simpl in *; [done|]. case_bool_decide.
  - destruct s as [|d s]; simpl in *; [simplify_eq; simpl; lia|]. case_bool_decide; [|simplify_eq; simpl; lia].
    destruct (scanString q s) as [[content' rest']|] eqn:Hs'; simpl in Hs; [|done]. simplify_eq.
    assert (String.length rest < String.length s); [|lia]. eapply (IH (String.length s)); [lia|done|done].
  - destruct (scanString q s) as [[content' rest']|] eqn:Hs'; simpl in Hs; [|done]. simplify_eq.
    assert (String.length rest < String.length s); [|lia]. eapply (IH (String.length s)); [lia|done|done].
Qed.

(** ** The tokens are well formed *)
Definition good (i : nat) (acc : list Token) : Prop :=
  Forall (λ t, lexeme_ok (lexeme t)) acc ∧ Forall (λ t, tok_position t < i) acc ∧
  StronglySorted (λ a b, tok_position a < tok_position b) acc.

Lemma good_mono i i' acc : good i acc → i ≤ i' → good i' acc.
Proof.
  intros (Hl & Hp & Hs) Hi. split; [done|]. split; [|done].
  eapply Forall_impl; [done|]. simpl. lia.
Qed.

Lemma good_push i i' acc ty v :
  good i acc → lexeme_ok (ty, v) → i < i' → good i' (acc ++ [mkToken ty v i]).
Proof.
  intros (Hl & Hp & Hs) Hok Hi. split; [by apply Forall_app_2; [|constructor]|]. split.
  - apply Forall_app_2; [eapply Forall_impl; [done|simpl; lia]|by constructor].
  - apply StronglySorted_app. split; [|split; [done|by repeat constructor]].
    intros a b Ha ->%list_elem_of_singleton. simpl. by eapply Forall_forall in Hp.
Qed.

Lemma isKeyword_elem s : isKeyword s = true ↔ s ∈ kKeywords.
Proof.
  unfold isKeyword. rewrite existsb_exists. setoid_rewrite bool_decide_eq_true.
  setoid_rewrite <- list_elem_of_In. split; [by intros (k & Hk & ->)|by exists s].
Qed.

Definition lexed (n : nat) (r : result (list Token)) : Prop :=
  match r with
  | Val ts => tokens_ok n ts
  | Throw (QueryError _) => True
  | _ => False
  end.

Lemma span_ident c s :
  isIdentStart c = true → let '(w, rest) := span isIdentChar (String c s) in
  is_identifier w = true ∧ String.length rest < String.length (String c s).
Proof.
  intros Hc. destruct (span_spec isIdentChar (String c s)) as [Heq Hall].
  cbn [span] in *. rewrite (identStart_char _ Hc) in *.
  destruct (span isIdentChar s) as [w rest]. cbn [fst snd] in *. split.
  - unfold is_identifier. by rewrite Hc, Hall.
  - rewrite Heq, string_length_app. simpl. lia.
Qed.

Lemma tokenizeLoop_ok n fuel s i acc :
  String.length s ≤ fuel → i + String.length s = n → good i acc → lexed n (tokenizeLoop fuel s i acc).
Proof.
  revert s i acc. induction fuel as [|fuel IH]; intros [|c s] i acc Hf Hn Hg; cbn [tokenizeLoop].
  1, 3: simpl in Hn; rewrite Nat.add_0_r in Hn; subst; exists acc; split; [done|apply Hg].
  { simpl in Hf. lia. }
  assert (Hpush : ∀ ty v rest, lexeme_ok (ty, v) → String.length rest < String.length (String c s) →
    lexed n (tokenizeLoop fuel rest (i + (String.length (String c s) - String.length rest))
               (acc ++ [mkToken ty v i]))).
  { intros ty v rest Hok Hlen. apply IH; [lia|lia|]. apply good_push; [done|done|lia]. }
  assert (Hs : String.length s < String.length (String c s)) by (simpl; lia).
  destruct (isspace c).
  { apply IH; [simpl in Hf; lia|simpl in Hn; lia|]. eapply good_mono; [done|lia]. }
  destruct (isIdentStart c) eqn:Hid.
  { pose proof (span_ident c s Hid) as Hsp. destruct (span isIdentChar (String c s)) as [w rest].
    destruct Hsp as [Hw Hr]. destruct (isKeyword (string_map toupper w)) eqn:Hk; apply Hpush; try done.
    by apply isKeyword_elem. }
  destruct (isDigit c || (bool_decide (c = "-"%char) && startsWithDigit s)) eqn:Hd.
  { destruct (span_spec isDigit s) as [Heq Hall]. destruct (span isDigit s) as [ds rest] eqn:Hsp.
    cbn [fst snd] in *. apply Hpush.
    - unfold lexeme_ok, is_number. cbn [fst snd]. rewrite Hall. simpl.
      destruct (isDigit c); [done|]. simpl in Hd |- *. apply andb_true_iff in Hd as [-> Hd]. simpl.
      destruct s as [|d s]; [done|]. simpl in Hd, Hsp. change (isdigit d) with (isDigit d) in Hd.
      rewrite Hd in Hsp. destruct (span isDigit s). by simplify_eq.
    - simpl. rewrite Heq at 1. rewrite string_length_app. lia. }
  destruct (bool_decide (c = squote) || bool_decide (c = dquote)).
  { destruct (scanString c s) as [[content rest]|] eqn:Hsc; [|done].
    apply scanString_length in Hsc. apply Hpush; [done|lia]. }
  clear Hd. case_bool_decide as Heq. { apply Hpush; [|done]. by left. }
  destruct (bool_decide (c = "<"%char) || bool_decide (c = ">"%char)) eqn:Hlt.
  { assert (c = "<"%char ∨ c = ">"%char) as Hc.
    { apply orb_true_iff in Hlt. by rewrite !bool_decide_eq_true in Hlt. }
    assert (Hops : String c "" ∈ operators ∧ String c "=" ∈ operators).
    { destruct Hc as [-> | ->]; split; unfold operators; rewrite !elem_of_cons; tauto. }
    clear Hlt. destruct s as [|d s]; [apply Hpush; [apply Hops|done]|]. case_bool_decide; apply Hpush; try apply Hops; simpl; lia. }
  clear Hlt.
  case_bool_decide as Hbang.
  { destruct s as [|d s]; [done|]. case_bool_decide; [|done]. apply Hpush; [|simpl; lia].
    unfold lexeme_ok, operators. simpl. rewrite !elem_of_cons. tauto. }
  destruct (bool_decide (c = "("%char) || bool_decide (c = ")"%char) || bool_decide (c = ","%char)
              || bool_decide (c = "*"%char)) eqn:Hp; [|done].
  apply Hpush; [|done]. unfold lexeme_ok, punctuation. cbn [fst snd]. rewrite !elem_of_cons.
  rewrite !orb_true_iff, !bool_decide_eq_true in Hp. destruct Hp as [[[-> | ->]| ->]| ->]; tauto.
Qed.

Lemma tokenize_ok input : lexed (String.length input) (tokenize input).
Proof. apply tokenizeLoop_ok; [done|done|]. split; [done|]. split; [done|constructor]. Qed.

(** ** Printing tokens and lexing them back *)
Fixpoint escape (q : ascii) (s : string) : string :=
  match s with
  | "" => ""
  | String c s' => if bool_decide (c = q) then String q (String q (escape q s')) else String c (escape q s')
  end.

Definition show_lexeme (t : TokenType * string) : string :=
  match t.1 with
  | STRING => String squote (escape squote t.2 +:+ String squote "")
  | _ => t.2
  end.

Fixpoint show_lexemes (ts : list (TokenType * string)) : string :=
  match ts with [] => "" | t :: ts' => show_lexeme t +:+ String " " (show_lexemes ts') end.

Lemma scanString_escape q v rest :
  stops (λ c, bool_decide (c = q)) rest → scanString q (escape q v +:+ String q rest) = Some (v, rest).
Proof.
  intros Hr. induction v as [|c v IH]; simpl.
  - rewrite bool_decide_eq_true_2 by done. destruct rest as [|d rest]; [done|]. simpl in Hr. by rewrite Hr.
  - destruct (decide (c = q)) as [->|Hne].
    + rewrite (bool_decide_eq_true_2 (q = q)) by done. simpl. rewrite (bool_decide_eq_true_2 (q = q)) by done.
      by rewrite IH.
    + rewrite (bool_decide_eq_false_2 (c = q)) by done. simpl. rewrite (bool_decide_eq_false_2 (c = q)) by done.
      by rewrite IH.
Qed.

(** One token followed by a blank. *)
Lemma lex_word fuel w rest i acc :
  is_identifier w = true →
  tokenizeLoop (S fuel) (w +:+ String " " rest) i acc =
  tokenizeLoop fuel (String " " rest) (i + String.length w)
    (acc ++ [mkToken (if isKeyword (string_map toupper w) then KEYWORD else IDENTIFIER)
               (if isKeyword (string_map toupper w) then string_map toupper w else w) i]).
Proof.
  intros Hw. destruct w as [|c w]; [done|]. pose proof Hw as Hw'. unfold is_identifier in Hw'.
  apply andb_true_iff in Hw' as [Hc Hall].
  rewrite string_app_cons. cbn [tokenizeLoop]. rewrite (identStart_nospace _ Hc), Hc.
  rewrite <- string_app_cons, span_app by done.
  rewrite string_length_app, Nat.add_sub. by destruct (isKeyword _).
Qed.

Lemma keyword_word v :
  v ∈ kKeywords → is_identifier v = true ∧ string_map toupper v = v ∧ isKeyword v = true.
Proof.
  intros Hv. split_and!; [| |by apply isKeyword_elem].
  all: revert v Hv; apply Forall_forall; unfold kKeywords; by repeat constructor.
Qed.

Lemma lex_number fuel v rest i acc :
  is_number v = true →
  tokenizeLoop (S fuel) (v +:+ String " " rest) i acc =
  tokenizeLoop fuel (String " " rest) (i + String.length v) (acc ++ [mkToken NUMBER v i]).
Proof.
  intros Hv. destruct v as [|c ds]; [done|]. simpl in Hv. apply andb_true_iff in Hv as [Hds Hc].
  rewrite string_app_cons. cbn [tokenizeLoop].
  assert (isspace c = false ∧ isIdentStart c = false) as [-> ->].
  { destruct (isDigit c) eqn:Hd; [by apply digit_dispatch|]. simpl in Hc.
    apply andb_true_iff in Hc as [->%bool_decide_eq_true _]. done. }
  assert (isDigit c || bool_decide (c = "-"%char) && startsWithDigit (ds +:+ String " " rest) = true) as ->.
  { destruct (isDigit c); [done|]. simpl in Hc |- *. by destruct ds. }
  rewrite span_app by done. rewrite <- string_app_cons, string_length_app, Nat.add_sub. done.
Qed.

Lemma lex_string fuel v rest i acc :
  tokenizeLoop (S fuel) (show_lexeme (STRING, v) +:+ String " " rest) i acc =
  tokenizeLoop fuel (String " " rest) (i + String.length (show_lexeme (STRING, v)))
    (acc ++ [mkToken STRING v i]).
Proof.
  unfold show_lexeme. cbn [fst snd]. rewrite string_app_cons. cbn [tokenizeLoop].
  change (isspace squote) with false. change (isIdentStart squote) with false.
  change (isDigit squote) with false. cbn [orb].
  rewrite (bool_decide_eq_false_2 (squote = "-"%char)), (bool_decide_eq_true_2 (squote = squote)) by done.
  cbn [andb orb]. rewrite string_append_assoc, string_app_cons. change ("" +:+ ?s) with s.
  rewrite scanString_escape by done.
  f_equal. simpl. rewrite !string_length_app. simpl. lia.
Qed.

Lemma lex_lexeme fuel t rest i acc :
  lexeme_ok t →
  tokenizeLoop (S fuel) (show_lexeme t +:+ String " " rest) i acc =
  tokenizeLoop fuel (String " " rest) (i + String.length (show_lexeme t)) (acc ++ [mkToken t.1 t.2 i]).
Proof.
  destruct t as [ty v]. intros Hok. destruct ty; unfold show_lexeme; unfold lexeme_ok in Hok; cbn [fst snd] in *.
  - destruct (keyword_word v Hok) as (Hid & Hup & Hk). rewrite lex_word by done. by rewrite Hup, Hk.
  - destruct Hok as [Hid Hk]. rewrite lex_word by done. by rewrite Hk.
  - by apply lex_number.
  - apply lex_string.
  - unfold operators in Hok. rewrite !elem_of_cons, elem_of_nil in Hok.
    destruct Hok as [->|[->|[->|[->|[->|[->|[]]]]]]]; cbn -[tokenizeLoop String.length Nat.sub];
      cbn [tokenizeLoop]; cbn -[tokenizeLoop String.length Nat.sub]; f_equal; simpl; lia.
  - unfold punctuation in Hok. rewrite !elem_of_cons, elem_of_nil in Hok.
    destruct Hok as [->|[->|[->|[->|[]]]]]; cbn -[tokenizeLoop String.length Nat.sub];
      cbn [tokenizeLoop]; cbn -[tokenizeLoop String.length Nat.sub]; f_equal; simpl; lia.
  - done.
Qed.

Lemma show_lexeme_pos t : lexeme_ok t → 0 < String.length (show_lexeme t).
Proof.
  destruct t as [ty v]. intros Hok. destruct (decide (v = "")) as [->|Hv].
  - destruct ty; unfold lexeme_ok in Hok; cbn [fst snd] in Hok; try done; simpl; try lia.
    + by destruct (keyword_word _ Hok).
    + by destruct Hok.
    + unfold operators in Hok. rewrite !elem_of_cons, elem_of_nil in Hok. intuition discriminate.
    + unfold punctuation in Hok. rewrite !elem_of_cons, elem_of_nil in Hok. intuition discriminate.
  - destruct v as [|c v]; [done|]. destruct ty; simpl; lia.
Qed.

Lemma tokenize_show ts :
  Forall lexeme_ok ts →
  ∃ toks, tokenize (show_lexemes ts) = Val toks ∧ lexeme <$> toks = ts ++ [(END, "")].
Proof.
  intros Hts. unfold tokenize.
  enough (∀ fuel i acc, String.length (show_lexemes ts) ≤ fuel → ∃ toks,
      tokenizeLoop fuel (show_lexemes ts) i acc = Val toks ∧
      lexeme <$> toks = (lexeme <$> acc) ++ ts ++ [(END, "")]) as Hgen by (by apply (Hgen _ 0 [])).
  induction Hts as [|t ts Ht Hts IH]; intros fuel i acc Hf.
  { eexists. split; [by destruct fuel|]. by rewrite fmap_app. }
  cbn [show_lexemes] in *. rewrite string_length_app in Hf. simpl in Hf.
  pose proof (show_lexeme_pos t Ht).
  destruct fuel as [|[|fuel]]; [lia|lia|]. rewrite lex_lexeme by done. cbn [tokenizeLoop].
  change (isspace " ") with true. cbn iota.
  destruct (IH fuel (i + String.length (show_lexeme t) + 1) (acc ++ [mkToken t.1 t.2 i])) as (toks & -> & Heq);
    [lia|].
  exists toks. split; [done|]. rewrite Heq, fmap_app. csimpl. rewrite <- !(assoc_L (++)).
  by destruct t.
Qed.
