(* ===== verification/Ast.v ===== *)
(** * Statements (include/query/Ast.hpp)

    The syntax tree that the parser builds and the executor runs. *)

From S2P Require Import Prelude Schema.

Inductive CompareOp := EQ | NE | LT | LE | GT | GE.

#[export] Instance CompareOp_eq_dec : EqDecision CompareOp.
Proof. solve_decision. Defined.

Definition toStringOp (op : CompareOp) : string :=
  match op with EQ => "=" | NE => "!=" | LT => "<" | LE => "<=" | GT => ">" | GE => ">=" end.

Record WhereClause := mkWhere { wc_column : string; wc_op : CompareOp; wc_value : string }.
Definition WhereList : Type := list WhereClause.

Record ColumnDef := mkColumnDef { cd_name : string; cd_type : DataType }.

Record CreateTableStatement := mkCreate { cr_table : string; cr_columns : list ColumnDef }.
Record DropTableStatement := mkDrop { dr_table : string }.
Record InsertStatement := mkInsert {
  in_table : string; in_columns : list string; in_values : list string }.
(** No columns means all of them. *)
Record SelectStatement := mkSelect {
  se_table : string; se_columns : list string; se_where : WhereList }.
Record UpdateStatement := mkUpdate {
  up_table : string; up_assignments : list (string * string); up_where : WhereList }.
Record DeleteStatement := mkDelete { de_table : string; de_where : WhereList }.

Inductive Statement :=
  | SCreate (s : CreateTableStatement)
  | SDrop (s : DropTableStatement)
  | SInsert (s : InsertStatement)
  | SSelect (s : SelectStatement)
  | SUpdate (s : UpdateStatement)
  | SDelete (s : DeleteStatement).
