(* ===== verification/Parser.v ===== *)
(** * Parser (include/query/Parser.hpp, src/query/parser.cpp)

    Recursive descent over the token vector, with the current index as state.
    The loops read a comma- or AND-separated list; every round consumes a token,
    so the number of tokens is enough fuel. *)

From S2P Require Import Prelude CxxStd Schema Lexer Ast.

Record Parser := mkParser {
  tokens_ : list Token;
  pos_ : nat;
}.

Definition peek : M Parser Token := p ← get_state; lift (at_ (tokens_ p) (pos_ p)).

Definition advance : M Parser Token :=
  token ← peek;
  p ← get_state;
  (if bool_decide (tok_type token ≠ END)
   then put_state (mkParser (tokens_ p) (pos_ p + 1)) else mret ());;
  mret token.

Definition fail {A} (message : string) : M Parser A :=
  token ← peek;
  throw (QueryError (message +:+ " at position " +:+ to_string_pos (tok_position token) +:+
    (if bool_decide (tok_type token = END) then " (end of query)"
     else ", got '" +:+ tok_value token +:+ "'"))).

(** [peek().type == type && peek().value == value] *)
Definition peekIs (type : TokenType) (value : string) : M Parser bool :=
  token ← peek;
  mret (bool_decide (tok_type token = type) && bool_decide (tok_value token = value)).

Definition peekIsKeyword (keyword : string) : M Parser bool := peekIs KEYWORD keyword.

Definition expect (type : TokenType) (what : string) : M Parser Token :=
  token ← peek;
  if bool_decide (tok_type token ≠ type) then fail ("expected " +:+ what) else advance.

Definition expectKeyword (keyword : string) : M Parser unit :=
  b ← peekIsKeyword keyword;
  if negb b then fail ("expected " +:+ keyword) else advance;; mret ().

Definition expectPunctuation (c : string) : M Parser unit :=
  token ← peek;
  if bool_decide (tok_type token ≠ PUNCTUATION) || bool_decide (tok_value token ≠ c)
  then fail ("expected '" +:+ c +:+ "'") else advance;; mret ().

Definition expectEnd : M Parser unit :=
  token ← peek;
  if bool_decide (tok_type token ≠ END)
  then fail ("unexpected trailing input '" +:+ tok_value token +:+ "'") else mret ().

Definition compareOpFromToken (token : Token) : result CompareOp :=
  let v := tok_value token in
  if bool_decide (v = "=") then Val EQ
  else if bool_decide (v = "!=") then Val NE
  else if bool_decide (v = "<") then Val LT
  else if bool_decide (v = "<=") then Val LE
  else if bool_decide (v = ">") then Val GT
  else if bool_decide (v = ">=") then Val GE
  else Throw (QueryError ("unknown operator '" +:+ v +:+ "' at position " +:+
         to_string_pos (tok_position token))).

Definition parseLiteral : M Parser string :=
  token ← peek;
  if bool_decide (tok_type token ≠ NUMBER) && bool_decide (tok_type token ≠ STRING)
  then fail "expected a literal value"
  else t ← advance; mret (tok_value t).

(** The fuel of a loop: the number of tokens. *)
Definition loopFuel : M Parser nat := p ← get_state; mret (length (tokens_ p)).

(** [item (, item)*]: one round reads an item and goes on after a comma. *)
Fixpoint commaLoop {A} (fuel : nat) (item : M Parser A) (acc : list A) : M Parser (list A) :=
  match fuel with
  | 0 => λ _, Stuck
  | S fuel' =>
    a ← item;
    more ← peekIs PUNCTUATION ",";
    if more : bool then advance;; commaLoop fuel' item (acc ++ [a]) else mret (acc ++ [a])
  end.

Definition parseIdentifierList : M Parser (list string) :=
  fuel ← loopFuel;
  commaLoop fuel (t ← expect IDENTIFIER "column name"; mret (tok_value t)) [].

Definition parseClause : M Parser WhereClause :=
  column ← expect IDENTIFIER "column name";
  opToken ← expect OPERATOR "comparison operator";
  op ← lift (compareOpFromToken opToken);
  value ← parseLiteral;
  mret (mkWhere (tok_value column) op value).

Fixpoint whereLoop (fuel : nat) (conditions : WhereList) : M Parser WhereList :=
  match fuel with
  | 0 => λ _, Stuck
  | S fuel' =>
    where_ ← parseClause;
    more ← peekIsKeyword "AND";
    if negb more then mret (conditions ++ [where_])
    else advance;; whereLoop fuel' (conditions ++ [where_])
  end.

Definition parseOptionalWhere : M Parser WhereList :=
  b ← peekIsKeyword "WHERE";
  if negb b then mret []
  else
    advance;;
    fuel ← loopFuel;
    whereLoop fuel [].

Definition parseColumnDef : M Parser ColumnDef :=
  n ← expect IDENTIFIER "column name";
  typeToken ← expect KEYWORD "column type";
  match dataTypeFromString (tok_value typeToken) with
  | None => fail ("unknown column type '" +:+ tok_value typeToken +:+ "'")
  | Some t => mret (mkColumnDef (tok_value n) t)
  end.

Definition parseCreate : M Parser CreateTableStatement :=
  expectKeyword "CREATE";;
  expectKeyword "TABLE";;
  table ← expect IDENTIFIER "table name";
  expectPunctuation "(";;
  fuel ← loopFuel;
  cols ← commaLoop fuel parseColumnDef [];
  expectPunctuation ")";;
  expectEnd;;
  mret (mkCreate (tok_value table) cols).

Definition parseDrop : M Parser DropTableStatement :=
  expectKeyword "DROP";;
  expectKeyword "TABLE";;
  table ← expect IDENTIFIER "table name";
  expectEnd;;
  mret (mkDrop (tok_value table)).

Definition parseInsert : M Parser InsertStatement :=
  expectKeyword "INSERT";;
  expectKeyword "INTO";;
  table ← expect IDENTIFIER "table name";
  expectPunctuation "(";;
  cols ← parseIdentifierList;
  expectPunctuation ")";;
  expectKeyword "VALUES";;
  expectPunctuation "(";;
  fuel ← loopFuel;
  values ← commaLoop fuel parseLiteral [];
  expectPunctuation ")";;
  expectEnd;;
  if bool_decide (length cols ≠ length values) then
    throw (QueryError ("INSERT has " +:+ to_string_pos (length cols) +:+ " columns but " +:+
      to_string_pos (length values) +:+ " values"))
  else mret (mkInsert (tok_value table) cols values).

Definition parseSelect : M Parser SelectStatement :=
  expectKeyword "SELECT";;
  star ← peekIs PUNCTUATION "*";
  cols ← (if star : bool then advance;; mret [] else parseIdentifierList);
  expectKeyword "FROM";;
  table ← expect IDENTIFIER "table name";
  where_ ← parseOptionalWhere;
  expectEnd;;
  mret (mkSelect (tok_value table) cols where_).

Definition parseAssignment : M Parser (string * string) :=
  column ← expect IDENTIFIER "column name";
  eq ← expect OPERATOR "'='";
  if bool_decide (tok_value eq ≠ "=") then fail "expected '=' in SET assignment"
  else value ← parseLiteral; mret (tok_value column, value).

Definition parseUpdate : M Parser UpdateStatement :=
  expectKeyword "UPDATE";;
  table ← expect IDENTIFIER "table name";
  expectKeyword "SET";;
  fuel ← loopFuel;
  assignments ← commaLoop fuel parseAssignment [];
  where_ ← parseOptionalWhere;
  expectEnd;;
  mret (mkUpdate (tok_value table) assignments where_).

Definition parseDelete : M Parser DeleteStatement :=
  expectKeyword "DELETE";;
  expectKeyword "FROM";;
  table ← expect IDENTIFIER "table name";
  where_ ← parseOptionalWhere;
  expectEnd;;
  mret (mkDelete (tok_value table) where_).

Definition parse : M Parser Statement :=
  first ← peek;
  if bool_decide (tok_type first ≠ KEYWORD) then
    fail "expected a statement (SELECT, INSERT, DELETE, CREATE, DROP)"
  else if bool_decide (tok_value first = "CREATE") then s ← parseCreate; mret (SCreate s)
  else if bool_decide (tok_value first = "DROP") then s ← parseDrop; mret (SDrop s)
  else if bool_decide (tok_value first = "INSERT") then s ← parseInsert; mret (SInsert s)
  else if bool_decide (tok_value first = "SELECT") then s ← parseSelect; mret (SSelect s)
  else if bool_decide (tok_value first = "UPDATE") then s ← parseUpdate; mret (SUpdate s)
  else if bool_decide (tok_value first = "DELETE") then s ← parseDelete; mret (SDelete s)
  else fail ("unsupported statement '" +:+ tok_value first +:+ "'").

(** Lexing and parsing, as the executor composes them. *)
Definition parseQuery (query : string) : result Statement :=
  tokens ← tokenize query;
  match parse (mkParser tokens 0) with
  | Ret _ s => Val s
  | Exn _ e => Throw e
  | Stuck => Undef
  end.
