(* ===== verification/ParserSpec.v ===== *)
(** * Parser: specification

    [derives s ts] is the grammar: the token sequences that spell the statement
    [s].  The parser accepts exactly these, followed by the end of the query, and
    on everything else it throws a [QueryError]; in particular it always stops
    and never reads past the sentinel. *)

From S2P Require Import Prelude CxxStd Schema Lexer Ast Parser.

Abbreviation lex := (TokenType * string)%type.

(** ** Grammar *)
Definition literal (v : string) (t : lex) : Prop := t = (NUMBER, v) ∨ t = (STRING, v).

Fixpoint separated (sep : lex) (items : list (list lex)) : list lex :=
  match items with
  | [] => []
  | [x] => x
  | x :: items' => x ++ sep :: separated sep items'
  end.
Definition commas := separated (PUNCTUATION, ",").

Definition g_clause (w : WhereClause) (c : list lex) : Prop :=
  ∃ t, literal (wc_value w) t ∧ c = [(IDENTIFIER, wc_column w); (OPERATOR, toStringOp (wc_op w)); t].

Definition g_where (ws : WhereList) (c : list lex) : Prop :=
  match ws with
  | [] => c = []
  | _ => ∃ cs, Forall2 g_clause ws cs ∧ c = (KEYWORD, "WHERE") :: separated (KEYWORD, "AND") cs
  end.

Definition g_assignment (a : string * string) (c : list lex) : Prop :=
  ∃ t, literal a.2 t ∧ c = [(IDENTIFIER, a.1); (OPERATOR, "="); t].

Definition g_column (d : ColumnDef) (c : list lex) : Prop :=
  c = [(IDENTIFIER, cd_name d); (KEYWORD, toStringType (cd_type d))].

Definition g_ident (x : string) (c : list lex) : Prop := c = [(IDENTIFIER, x)].
Definition g_literal (v : string) (c : list lex) : Prop := ∃ t, literal v t ∧ c = [t].

(** A non-empty list of items between commas. *)
Definition g_list {A} (g : A → list lex → Prop) (l : list A) (c : list lex) : Prop :=
  l ≠ [] ∧ ∃ cs, Forall2 g l cs ∧ c = commas cs.

Inductive derives : Statement → list lex → Prop :=
  | derives_create t cols c :
      g_list g_column cols c →
      derives (SCreate (mkCreate t cols))
        ([(KEYWORD, "CREATE"); (KEYWORD, "TABLE"); (IDENTIFIER, t); (PUNCTUATION, "(")] ++ c ++
         [(PUNCTUATION, ")")])
  | derives_drop t :
      derives (SDrop (mkDrop t)) [(KEYWORD, "DROP"); (KEYWORD, "TABLE"); (IDENTIFIER, t)]
  | derives_insert t cols values c1 c2 :
      g_list g_ident cols c1 → g_list g_literal values c2 → length cols = length values →
      derives (SInsert (mkInsert t cols values))
        ([(KEYWORD, "INSERT"); (KEYWORD, "INTO"); (IDENTIFIER, t); (PUNCTUATION, "(")] ++ c1 ++
         [(PUNCTUATION, ")"); (KEYWORD, "VALUES"); (PUNCTUATION, "(")] ++ c2 ++ [(PUNCTUATION, ")")])
  | derives_select t cols ws c1 c2 :
      (if cols is [] then c1 = [(PUNCTUATION, "*")] else g_list g_ident cols c1) → g_where ws c2 →
      derives (SSelect (mkSelect t cols ws))
        ((KEYWORD, "SELECT") :: c1 ++ [(KEYWORD, "FROM"); (IDENTIFIER, t)] ++ c2)
  | derives_update t assignments ws c1 c2 :
      g_list g_assignment assignments c1 → g_where ws c2 →
      derives (SUpdate (mkUpdate t assignments ws))
        ([(KEYWORD, "UPDATE"); (IDENTIFIER, t); (KEYWORD, "SET")] ++ c1 ++ c2)
  | derives_delete t ws c :
      g_where ws c →
      derives (SDelete (mkDelete t ws)) ([(KEYWORD, "DELETE"); (KEYWORD, "FROM"); (IDENTIFIER, t)] ++ c).

(** ** Running the parser at a position *)
Definition mk (pre rest : list Token) : Parser := mkParser (pre ++ rest) (length pre).

Lemma peek_at pre t rest : peek (mk pre (t :: rest)) = Ret (mk pre (t :: rest)) t.
Proof. unfold peek, mk. mrun. simpl. by rewrite at_app. Qed.

Lemma mk_snoc pre t rest : mkParser (pre ++ t :: rest) (length pre + 1) = mk (pre ++ [t]) rest.
Proof. unfold mk. rewrite length_app, <- (assoc_L (++)). done. Qed.

Lemma advance_at pre t rest :
  tok_type t ≠ END → advance (mk pre (t :: rest)) = Ret (mk (pre ++ [t]) rest) t.
Proof.
  intros Ht. unfold advance. erewrite M_bind_run by apply peek_at. mrun.
  rewrite bool_decide_eq_true_2 by done. mrun. simpl. by rewrite mk_snoc.
Qed.

Lemma peekIs_at ty v pre t rest :
  peekIs ty v (mk pre (t :: rest)) = Ret (mk pre (t :: rest)) (bool_decide (lexeme t = (ty, v))).
Proof.
  unfold peekIs. erewrite M_bind_run by apply peek_at. mrun. f_equal. unfold lexeme.
  destruct (decide (tok_type t = ty)), (decide (tok_value t = v)); subst;
    repeat (first [rewrite bool_decide_eq_true_2 by done | rewrite bool_decide_eq_false_2 by congruence]);
    done.
Qed.

Lemma fail_at {A} msg pre t rest : ∃ w, fail (A := A) msg (mk pre (t :: rest)) = Exn (mk pre (t :: rest)) (QueryError w).
Proof. unfold fail. erewrite M_bind_run by apply peek_at. mrun. by eexists. Qed.

(** ** Soundness: what is consumed spells what is returned *)
Definition ends (rest : list Token) : Prop :=
  ∃ body e, rest = body ++ [e] ∧ tok_type e = END ∧ Forall (λ t, tok_type t ≠ END) body.

(** [R] is what is left afterwards: a stream that ends, or just the sentinel. *)
Definition sound {A} (n : nat) (m : M Parser A) (R : list Token → Prop) (G : A → list lex → Prop) : Prop :=
  ∀ pre rest, ends rest → length rest ≤ n →
    match m (mk pre rest) with
    | Ret p a => ∃ c rest', rest = c ++ rest' ∧ p = mk (pre ++ c) rest' ∧ R rest' ∧ G a (lexeme <$> c)
    | Exn _ (QueryError _) => True
    | _ => False
    end.

Definition at_end (rest : list Token) : Prop := ∃ e, rest = [e] ∧ tok_type e = END.

Lemma ends_cons rest : ends rest → ∃ t rest', rest = t :: rest' ∧ (tok_type t ≠ END → ends rest').
Proof.
  intros (body & e & -> & He & Hb). destruct body as [|t body]; simpl.
  - by exists e, [].
  - apply Forall_cons in Hb as [Ht Hb]. exists t, (body ++ [e]). split; [done|]. intros _. by exists body, e.
Qed.

Lemma sound_bind {A B} n (m : M Parser A) (f : A → M Parser B) R G H :
  sound n m ends G → (∀ a c, G a c → sound (n - length c) (f a) R (H a)) →
  sound n (m ≫= f) R (λ b c, ∃ a c1 c2, c = c1 ++ c2 ∧ G a c1 ∧ H a b c2).
Proof.
  intros Hm Hf pre rest He Hn. specialize (Hm pre rest He Hn).
  unfold mbind, M_bind. destruct (m (mk pre rest)) as [p a|p e|]; [|done|done].
  destruct Hm as (c & rest' & -> & -> & He' & HG).
  specialize (Hf a _ HG (pre ++ c) rest' He'). rewrite length_fmap in Hf. rewrite length_app in Hn.
  specialize (Hf ltac:(lia)). destruct (f a (mk (pre ++ c) rest')) as [p b|p e|]; [|done|done].
  destruct Hf as (c' & rest'' & -> & -> & He'' & HH). exists (c ++ c'), rest''.
  rewrite <- !(assoc_L (++)). split; [done|]. split; [done|]. split; [done|].
  exists a, (lexeme <$> c), (lexeme <$> c'). rewrite fmap_app. done.
Qed.

Lemma sound_weaken {A} n (m : M Parser A) R (G G' : A → list lex → Prop) :
  sound n m R G → (∀ a c, G a c → G' a c) → sound n m R G'.
Proof.
  intros Hm HG pre rest He Hn. specialize (Hm pre rest He Hn).
  destruct (m (mk pre rest)); [|done|done]. destruct Hm as (c & rest' & ? & ? & ? & ?).
  exists c, rest'. eauto.
Qed.

Lemma sound_ret {A} n (a : A) : sound n (mret a) ends (λ b c, b = a ∧ c = []).
Proof.
  intros pre rest He Hn. rewrite M_ret_run. exists [], rest. rewrite app_nil_r. done.
Qed.

Lemma sound_fail {A} n msg R (G : A → list lex → Prop) : sound n (fail msg) R G.
Proof.
  intros pre rest He Hn. destruct (ends_cons _ He) as (t & rest' & -> & _).
  by destruct (fail_at (A := A) msg pre t rest') as [w ->].
Qed.

Lemma sound_throw {A} n w R (G : A → list lex → Prop) : sound n (throw (QueryError w)) R G.
Proof. intros pre rest He Hn. by rewrite M_throw_run. Qed.

Lemma sound_expect n ty what :
  ty ≠ END → sound n (expect ty what) ends (λ t c, c = [(ty, tok_value t)] ∧ tok_type t = ty).
Proof.
  intros Hty pre rest He Hn. destruct (ends_cons _ He) as (t & rest' & -> & Hends).
  unfold expect. erewrite M_bind_run by apply peek_at. case_bool_decide as Ht.
  - by destruct (fail_at (A := Token) ("expected " +:+ what) pre t rest') as [w ->].
  - rewrite advance_at by congruence. exists [t], rest'.
    split; [done|]. split; [done|]. split; [apply Hends; congruence|]. csimpl.
    unfold lexeme. by rewrite Ht.
Qed.

(** A step that looks one token ahead and takes it if it is the right one. *)
Lemma sound_take {A} n ty v (f : bool → M Parser A) (m1 : M Parser A) R (G : A → list lex → Prop) :
  ty ≠ END → f true = (advance;; m1) →
  sound (n - 1) m1 R (λ a c, G a ((ty, v) :: c)) → sound n (f false) R G →
  sound n (peekIs ty v ≫= f) R G.
Proof.
  intros Hty Hf H1 H2 pre rest He Hn. destruct (ends_cons _ He) as (t & rest' & -> & Hends).
  erewrite M_bind_run by apply peekIs_at. case_bool_decide as Ht; [|by apply H2].
  assert (tok_type t = ty) by (unfold lexeme in Ht; congruence).
  rewrite Hf. erewrite M_bind_run by (apply advance_at; congruence).
  simpl in Hn. specialize (H1 (pre ++ [t]) rest' ltac:(apply Hends; congruence) ltac:(lia)).
  destruct (m1 (mk (pre ++ [t]) rest')) as [p a|p e|]; [|done|done].
  destruct H1 as (c & rest'' & -> & -> & He' & HG). exists (t :: c), rest''.
  rewrite <- (assoc_L (++)). split; [done|]. split; [done|]. split; [done|]. csimpl. by rewrite Ht.
Qed.

Lemma sound_fuel {A} n (f : nat → M Parser A) R (G : A → list lex → Prop) :
  (∀ k fuel, k ≤ fuel → sound k (f fuel) R G) → sound n (loopFuel ≫= f) R G.
Proof.
  intros Hf pre rest He Hn. unfold loopFuel. mrun. apply (Hf (length rest)); [|done|done].
  unfold mk. simpl. rewrite length_app. lia.
Qed.

Lemma sound_keyword n k : sound n (expectKeyword k) ends (λ _ c, c = [(KEYWORD, k)]).
Proof.
  intros pre rest He Hn. destruct (ends_cons _ He) as (t & rest' & -> & Hends).
  unfold expectKeyword, peekIsKeyword. erewrite M_bind_run by apply peekIs_at.
  case_bool_decide as Ht; simpl.
  - assert (tok_type t = KEYWORD) by (unfold lexeme in Ht; congruence).
    erewrite M_bind_run by (apply advance_at; congruence). mrun. exists [t], rest'.
    split; [done|]. split; [done|]. split; [apply Hends; congruence|]. csimpl. by rewrite Ht.
  - by destruct (fail_at (A := unit) ("expected " +:+ k) pre t rest') as [w ->].
Qed.

Lemma sound_punctuation n ch : sound n (expectPunctuation ch) ends (λ _ c, c = [(PUNCTUATION, ch)]).
Proof.
  intros pre rest He Hn. destruct (ends_cons _ He) as (t & rest' & -> & Hends).
  unfold expectPunctuation. erewrite M_bind_run by apply peek_at.
  destruct (bool_decide (tok_type t ≠ PUNCTUATION) || bool_decide (tok_value t ≠ ch)) eqn:Hb.
  - by destruct (fail_at (A := unit) ("expected '" +:+ ch +:+ "'") pre t rest') as [w ->].
  - apply orb_false_iff in Hb as [H1%bool_decide_eq_false_1%dec_stable H2%bool_decide_eq_false_1%dec_stable].
    erewrite M_bind_run by (apply advance_at; congruence). mrun. exists [t], rest'.
    split; [done|]. split; [done|]. split; [apply Hends; congruence|]. csimpl. unfold lexeme. congruence.
Qed.

(** At the end of the statement only the sentinel is left. *)
Lemma expectEnd_sound pre rest :
  ends rest →
  match expectEnd (mk pre rest) with
  | Ret p _ => p = mk pre rest ∧ ∃ e, rest = [e]
  | Exn _ (QueryError _) => True
  | _ => False
  end.
Proof.
  intros (body & e & -> & He & Hb). unfold expectEnd. destruct body as [|t body]; simpl.
  - erewrite M_bind_run by apply peek_at. rewrite bool_decide_eq_false_2 by tauto. mrun. eauto.
  - erewrite M_bind_run by apply peek_at. apply Forall_cons in Hb as [Ht _].
    rewrite bool_decide_eq_true_2 by done.
    by destruct (fail_at (A := unit) ("unexpected trailing input '" +:+ tok_value t +:+ "'") pre t (body ++ [e]))
      as [w ->].
Qed.

Lemma sound_end {A} n (m : M Parser A) (G : A → list lex → Prop) :
  (∀ p, match m p with Ret p' a => p' = p ∧ G a [] | Exn _ (QueryError _) => True | _ => False end) →
  sound n (expectEnd;; m) at_end G.
Proof.
  intros Hm pre rest He Hn. pose proof (expectEnd_sound pre rest He) as Hs. unfold mbind, M_bind.
  destruct (expectEnd (mk pre rest)) as [p a|p e|]; [|done|done]. destruct Hs as [-> [e ->]].
  specialize (Hm (mk pre [e])). destruct (m (mk pre [e])) as [p b|p e'|]; [|done|done].
  destruct Hm as [-> HG]. exists [], [e]. rewrite app_nil_r. split; [done|]. split; [done|]. split; [|done].
  exists e. split; [done|]. destruct He as ([|? body] & e' & Heq & He' & _); simplify_eq/=; [done|].
  by destruct body.
Qed.

Lemma sound_literal n : sound n parseLiteral ends g_literal.
Proof.
  intros pre rest He Hn. destruct (ends_cons _ He) as (t & rest' & -> & Hends).
  unfold parseLiteral. erewrite M_bind_run by apply peek_at.
  destruct (bool_decide (tok_type t ≠ NUMBER) && bool_decide (tok_type t ≠ STRING)) eqn:Hb.
  - by destruct (fail_at (A := string) "expected a literal value" pre t rest') as [w ->].
  - assert (Hty : tok_type t = NUMBER ∨ tok_type t = STRING).
    { apply andb_false_iff in Hb. rewrite !bool_decide_eq_false in Hb.
      destruct Hb as [Hb|Hb]; apply dec_stable in Hb; auto. }
    assert (tok_type t ≠ END) by (destruct Hty; congruence).
    erewrite M_bind_run by (by apply advance_at). mrun. exists [t], rest'.
    split; [done|]. split; [done|]. split; [by apply Hends|]. exists (lexeme t). split; [|done].
    unfold literal, lexeme. destruct Hty as [-> | ->]; auto.
Qed.

Lemma compareOp_sound t :
  match compareOpFromToken t with
  | Val op => tok_value t = toStringOp op
  | Throw (QueryError _) => True
  | _ => False
  end.
Proof. unfold compareOpFromToken. by repeat case_bool_decide. Qed.

Lemma sound_lift {A} n (r : result A) (Q : A → Prop) :
  match r with Val a => Q a | Throw (QueryError _) => True | _ => False end →
  sound n (lift r) ends (λ a c, Q a ∧ c = []).
Proof.
  intros Hr pre rest He Hn. destruct r as [a|[]|]; try done. rewrite M_lift_run.
  exists [], rest. by rewrite app_nil_r.
Qed.

(** Chains the soundness lemmas of a sequence of calls. *)
Ltac sound_one := first
  [ apply sound_ret | apply sound_expect; done | apply sound_keyword | apply sound_punctuation
  | apply sound_literal | apply sound_fail | apply sound_throw | apply sound_lift; apply compareOp_sound ].
Ltac sound_seq :=
  repeat (first [ sound_one
    | eapply sound_bind; [sound_one|let a := fresh "a" in let c := fresh "c" in let H := fresh "H" in
        intros a c H; cbv beta in H] ]).

Lemma sound_clause n : sound n parseClause ends g_clause.
Proof.
  eapply sound_weaken; [unfold parseClause; sound_seq|]. cbv beta. intros w c Hc. destr.
  match goal with H : g_literal _ _ |- _ => destruct H as (t & Ht & ->) end.
  exists t. simpl. split; [done|congruence].
Qed.

Lemma sound_assignment n : sound n parseAssignment ends g_assignment.
Proof.
  eapply sound_weaken.
  - unfold parseAssignment. sound_seq.
    apply (sound_weaken _ _ _ (λ b c, tok_value a0 = "=" ∧ ∃ t, literal b.2 t ∧ b.1 = tok_value a ∧ c = [t])).
    + case_bool_decide as Heq; [apply sound_fail|].
      eapply sound_weaken; [sound_seq|]. cbv beta. intros b c' Hc. destr.
      match goal with H : g_literal _ _ |- _ => destruct H as (t & Ht & ->) end. split; [done|]. by exists t.
    + intros b c' Hc. exact Hc.
  - cbv beta. intros [x v] c Hc. destr. simpl in *. subst. eexists. split; [done|]. simpl. congruence.
Qed.

Lemma dataType_sound n t : dataTypeFromString n = Some t → n = toStringType t.
Proof. unfold dataTypeFromString. repeat case_bool_decide; intros; by simplify_eq. Qed.

Lemma sound_columnDef n : sound n parseColumnDef ends g_column.
Proof.
  eapply sound_weaken.
  - unfold parseColumnDef. sound_seq.
    apply (sound_weaken _ _ _ (λ d c, c = [] ∧ cd_name d = tok_value a ∧ tok_value a0 = toStringType (cd_type d))).
    + destruct (dataTypeFromString (tok_value a0)) as [ty|] eqn:Hty; [|apply sound_fail].
      eapply sound_weaken; [apply sound_ret|]. cbv beta. intros d c' [-> ->]. simpl.
      split_and!; [done|done|by apply dataType_sound].
    + intros b c' Hc. exact Hc.
  - cbv beta. intros [x ty] c Hc. destr. simpl in *. subst. unfold g_column. simpl. congruence.
Qed.

Lemma sound_ident n :
  sound n (t ← expect IDENTIFIER "column name"; mret (tok_value t)) ends g_ident.
Proof. eapply sound_weaken; [sound_seq|]. cbv beta. intros x c Hc. by destr. Qed.

(** ** Lists *)
Lemma separated_cons sep x cs :
  separated sep (x :: cs) = x ++ match cs with [] => [] | _ => sep :: separated sep cs end.
Proof. destruct cs; [by rewrite app_nil_r|done]. Qed.

Lemma sound_commas {A} (item : M Parser A) (g : A → list lex → Prop) fuel n acc :
  (∀ n, sound n item ends g) → (∀ a c, g a c → c ≠ []) → n ≤ fuel →
  sound n (commaLoop fuel item acc) ends (λ l c, ∃ l2, l = acc ++ l2 ∧ g_list g l2 c).
Proof.
  intros Hitem Hne. revert n acc. induction fuel as [|fuel IH]; intros n acc Hn.
  { intros pre rest (body & e & -> & _) Hl. rewrite length_app in Hl. simpl in Hl. lia. }
  cbn [commaLoop]. eapply sound_weaken; [eapply sound_bind; [apply Hitem|]|].
  - intros a c Hg. apply (sound_take _ _ _ _ (commaLoop fuel item (acc ++ [a])) _
      (λ l c, ∃ l2 cs, l = acc ++ a :: l2 ∧ Forall2 g l2 cs ∧
         c = match cs with [] => [] | _ => (PUNCTUATION, ",") :: commas cs end)); [done|done| |].
    + assert (length c ≠ 0) by (destruct c; [by apply Hne in Hg|done]).
      eapply sound_weaken; [apply IH; lia|]. cbv beta. intros l c' (l2 & -> & Hl2 & cs & Hcs & ->).
      exists l2, cs. rewrite <- (assoc_L (++)). split; [done|]. split; [done|].
      destruct Hcs; [by destruct Hl2|done].
    + eapply sound_weaken; [apply sound_ret|]. cbv beta. intros l c' [-> ->]. by exists [], [].
  - cbv beta. intros l c (a & c1 & c2 & -> & Hg & l2 & cs & -> & Hcs & ->). exists (a :: l2).
    split; [done|]. split; [done|]. exists (c1 :: cs). split; [by constructor|].
    unfold commas. by rewrite separated_cons.
Qed.

Lemma sound_where_loop fuel n acc :
  n ≤ fuel →
  sound n (whereLoop fuel acc) ends (λ l c, ∃ l2 cs, l = acc ++ l2 ∧ l2 ≠ [] ∧ Forall2 g_clause l2 cs ∧
    c = separated (KEYWORD, "AND") cs).
Proof.
  revert n acc. induction fuel as [|fuel IH]; intros n acc Hn.
  { intros pre rest (body & e & -> & _) Hl. rewrite length_app in Hl. simpl in Hl. lia. }
  cbn [whereLoop]. eapply sound_weaken; [eapply sound_bind; [apply sound_clause|]|].
  - intros w c Hg. apply (sound_take _ _ _ _ (whereLoop fuel (acc ++ [w])) _
      (λ l c, ∃ l2 cs, l = acc ++ w :: l2 ∧ Forall2 g_clause l2 cs ∧
         c = match cs with [] => [] | _ => (KEYWORD, "AND") :: separated (KEYWORD, "AND") cs end));
      [done|done| |].
    + assert (length c ≠ 0) by (by destruct Hg as (t & _ & ->)).
      eapply sound_weaken; [apply IH; lia|]. cbv beta. intros l c' (l2 & cs & -> & Hl2 & Hcs & ->).
      exists l2, cs. rewrite <- (assoc_L (++)). split; [done|]. split; [done|].
      destruct Hcs; [by destruct Hl2|done].
    + eapply sound_weaken; [apply sound_ret|]. cbv beta. intros l c' [-> ->]. by exists [], [].
  - cbv beta. intros l c (w & c1 & c2 & -> & Hg & l2 & cs & -> & Hcs & ->). exists (w :: l2), (c1 :: cs).
    split; [done|]. split; [done|]. split; [by constructor|]. by rewrite separated_cons.
Qed.

Lemma sound_where n : sound n parseOptionalWhere ends g_where.
Proof.
  unfold parseOptionalWhere, peekIsKeyword. eapply sound_take; [done|reflexivity| |].
  - apply sound_fuel. intros k fuel Hk. eapply sound_weaken; [by apply sound_where_loop|].
    cbv beta. intros ws c (l2 & cs & -> & Hne & Hcs & ->). simpl. destruct l2; [done|]. by exists cs.
  - eapply sound_weaken; [apply sound_ret|]. by intros ws c [-> ->].
Qed.

Lemma sound_comma_list {A} (item : M Parser A) (g : A → list lex → Prop) n :
  (∀ n, sound n item ends g) → (∀ a c, g a c → c ≠ []) →
  sound n (fuel ← loopFuel; commaLoop fuel item []) ends (g_list g).
Proof.
  intros Hitem Hne. apply sound_fuel. intros k fuel Hk.
  eapply sound_weaken; [by apply sound_commas|]. cbv beta. by intros l c (l2 & -> & Hl).
Qed.

Lemma sound_idents n : sound n parseIdentifierList ends (g_list g_ident).
Proof. apply sound_comma_list; [apply sound_ident|]. by intros a c ->. Qed.

(** ** Statements *)
Lemma sound_assoc {A B C} n (m : M Parser A) (f : A → M Parser B) (g : B → M Parser C) R G :
  sound n ((m ≫= f) ≫= g) R G → sound n (m ≫= (λ a, f a ≫= g)) R G.
Proof. intros Hs pre rest He Hn. rewrite <- M_assoc. by apply Hs. Qed.

Lemma sound_map {A B} n (m : M Parser A) (h : A → B) R G :
  sound n m R G → sound n (a ← m; mret (h a)) R (λ b c, ∃ a, b = h a ∧ G a c).
Proof.
  intros Hs pre rest He Hn. specialize (Hs pre rest He Hn). unfold mbind, M_bind.
  destruct (m (mk pre rest)) as [p a|p e|]; [|done|done]. destruct Hs as (c & rest' & ? & ? & ? & ?).
  rewrite M_ret_run. exists c, rest'. split; [done|]. split; [done|]. split; [done|]. by exists a.
Qed.

Ltac sound_bind_list :=
  apply sound_assoc; eapply sound_bind;
  [apply sound_comma_list; [first [apply sound_columnDef | apply sound_assignment | apply sound_literal]
                           |let H := fresh in intros ?? H; unfold g_column, g_assignment, g_literal in H; by destr]
  |let a := fresh "l" in let c := fresh "c" in let H := fresh "H" in intros a c H; cbv beta in H].

Lemma sound_create n : sound n parseCreate at_end (λ s c, derives (SCreate s) c).
Proof.
  eapply sound_weaken.
  - unfold parseCreate. sound_seq. sound_bind_list. sound_seq.
    apply (sound_end _ _ (λ s c, s = mkCreate (tok_value a1) l ∧ c = [])). by intros p.
  - cbv beta. intros s c Hc. destr. by apply derives_create.
Qed.

Lemma sound_drop n : sound n parseDrop at_end (λ s c, derives (SDrop s) c).
Proof.
  eapply sound_weaken.
  - unfold parseDrop. sound_seq. apply (sound_end _ _ (λ s c, s = mkDrop (tok_value a1) ∧ c = [])). by intros p.
  - cbv beta. intros s c Hc. destr. apply derives_drop.
Qed.

Lemma sound_insert n : sound n parseInsert at_end (λ s c, derives (SInsert s) c).
Proof.
  eapply sound_weaken.
  - unfold parseInsert. sound_seq.
    eapply sound_bind; [apply sound_idents|]. intros cols ? Hcols. sound_seq. sound_bind_list. sound_seq.
    apply (sound_end _ _ (λ s c, s = mkInsert (tok_value a1) cols l ∧ length cols = length l ∧ c = [])).
    intros p. case_bool_decide; mrun; [done|]. by split_and!.
  - cbv beta. intros s c Hc. destr. rewrite app_nil_r. by apply derives_insert.
Qed.

Lemma sound_select n : sound n parseSelect at_end (λ s c, derives (SSelect s) c).
Proof.
  eapply sound_weaken.
  - unfold parseSelect. eapply sound_bind; [apply sound_keyword|]. intros a c Hc. cbv beta in Hc.
    apply sound_assoc. eapply sound_bind.
    + apply (sound_take _ _ _ _ (mret []) _
        (λ cols c, if cols is [] then c = [(PUNCTUATION, "*")] else g_list g_ident cols c)); [done|done| |].
      * eapply sound_weaken; [apply sound_ret|]. by intros x y [-> ->].
      * eapply sound_weaken; [apply sound_idents|]. intros x y Hx. destruct x; [by destruct Hx|done].
    + intros cols c' Hcols. cbv beta in Hcols. sound_seq. eapply sound_bind; [apply sound_where|].
      intros w ? Hw. apply (sound_end _ _ (λ s c, s = mkSelect (tok_value a1) cols w ∧ c = [])). by intros p.
  - cbv beta. intros s c Hc. destr. rewrite app_nil_r. by apply derives_select.
Qed.

Lemma sound_update n : sound n parseUpdate at_end (λ s c, derives (SUpdate s) c).
Proof.
  eapply sound_weaken.
  - unfold parseUpdate. sound_seq. sound_bind_list. eapply sound_bind; [apply sound_where|].
    intros w c' Hw. apply (sound_end _ _ (λ s c, s = mkUpdate (tok_value a0) l w ∧ c = [])). by intros p.
  - cbv beta. intros s c Hc. destr. rewrite app_nil_r. by apply derives_update.
Qed.

Lemma sound_delete n : sound n parseDelete at_end (λ s c, derives (SDelete s) c).
Proof.
  eapply sound_weaken.
  - unfold parseDelete. sound_seq. eapply sound_bind; [apply sound_where|].
    intros w ? Hw. apply (sound_end _ _ (λ s c, s = mkDelete (tok_value a1) w ∧ c = [])). by intros p.
  - cbv beta. intros s c Hc. destr. rewrite app_nil_r. by apply derives_delete.
Qed.

Lemma sound_peek {A} n (f : Token → M Parser A) R G :
  (∀ t, sound n (f t) R G) → sound n (peek ≫= f) R G.
Proof.
  intros Hf pre rest He Hn. destruct (ends_cons _ He) as (t & rest' & -> & _).
  erewrite M_bind_run by apply peek_at. by apply Hf.
Qed.

Lemma sound_parse n : sound n parse at_end derives.
Proof.
  unfold parse. apply sound_peek. intros t.
  repeat (case_bool_decide; [first [apply sound_fail
    | eapply sound_weaken; [apply sound_map;
        first [apply sound_create | apply sound_drop | apply sound_insert | apply sound_select
              | apply sound_update | apply sound_delete]|by intros s c (s' & -> & Hd)]]|]).
  apply sound_fail.
Qed.

(** ** Completeness: every derivation is parsed *)
Definition parses {A} (m : M Parser A) (c rest : list Token) (a : A) : Prop :=
  ∀ pre, m (mk pre (c ++ rest)) = Ret (mk (pre ++ c) rest) a.

Lemma parses_bind {A B} (m : M Parser A) (f : A → M Parser B) c1 c2 rest a b :
  parses m c1 (c2 ++ rest) a → parses (f a) c2 rest b → parses (m ≫= f) (c1 ++ c2) rest b.
Proof.
  intros Hm Hf pre. rewrite <- (assoc_L (++)). erewrite M_bind_run by apply Hm.
  rewrite Hf. by rewrite (assoc_L (++)).
Qed.

Lemma parses_cons {A B} (m : M Parser A) (f : A → M Parser B) t c2 rest a b :
  parses m [t] (c2 ++ rest) a → parses (f a) c2 rest b → parses (m ≫= f) (t :: c2) rest b.
Proof. apply (parses_bind m f [t] c2). Qed.

Lemma parses_nil {A B} (m : M Parser A) (f : A → M Parser B) c2 rest a b :
  parses m [] (c2 ++ rest) a → parses (f a) c2 rest b → parses (m ≫= f) c2 rest b.
Proof. apply (parses_bind m f [] c2). Qed.

Lemma parses_ret {A} (a : A) rest : parses (mret a) [] rest a.
Proof. intros pre. rewrite M_ret_run, app_nil_r. done. Qed.

Lemma parses_advance t rest : tok_type t ≠ END → parses advance [t] rest t.
Proof. intros Ht pre. by apply advance_at. Qed.

Lemma parses_expect ty v what t rest :
  lexeme t = (ty, v) → ty ≠ END → parses (expect ty what) [t] rest t.
Proof.
  intros Ht Hty pre. unfold expect. cbn [app]. unfold lexeme in Ht. simplify_eq.
  erewrite M_bind_run by apply peek_at. rewrite bool_decide_eq_false_2 by tauto. by apply advance_at.
Qed.

Lemma parses_keyword k t rest : lexeme t = (KEYWORD, k) → parses (expectKeyword k) [t] rest ().
Proof.
  intros Ht pre. unfold expectKeyword, peekIsKeyword. cbn [app]. erewrite M_bind_run by apply peekIs_at.
  rewrite bool_decide_eq_true_2 by done. simpl.
  erewrite M_bind_run by (apply advance_at; unfold lexeme in Ht; congruence). done.
Qed.

Lemma parses_punctuation ch t rest :
  lexeme t = (PUNCTUATION, ch) → parses (expectPunctuation ch) [t] rest ().
Proof.
  intros Ht pre. unfold expectPunctuation. cbn [app]. unfold lexeme in Ht. injection Ht as Hty Hv.
  erewrite M_bind_run by apply peek_at. rewrite !bool_decide_eq_false_2 by tauto. simpl.
  erewrite M_bind_run by (apply advance_at; congruence). done.
Qed.

Lemma parses_look_yes ty v t c rest :
  lexeme t = (ty, v) → parses (peekIs ty v) [] (t :: c ++ rest) true.
Proof. intros Ht pre. rewrite app_nil_r. simpl. rewrite peekIs_at. by rewrite bool_decide_eq_true_2. Qed.

Lemma parses_look_no ty v t rest : lexeme t ≠ (ty, v) → parses (peekIs ty v) [] (t :: rest) false.
Proof. intros Ht pre. rewrite app_nil_r. simpl. rewrite peekIs_at. by rewrite bool_decide_eq_false_2. Qed.

Lemma parses_end e rest : tok_type e = END → parses expectEnd [] (e :: rest) ().
Proof.
  intros He pre. unfold expectEnd. simpl. erewrite M_bind_run by apply peek_at.
  rewrite bool_decide_eq_false_2 by tauto. by rewrite M_ret_run, app_nil_r.
Qed.

Lemma parses_literal v t rest : literal v (lexeme t) → parses parseLiteral [t] rest v.
Proof.
  intros Ht pre. unfold parseLiteral. cbn [app]. erewrite M_bind_run by apply peek_at.
  assert (Hv : tok_value t = v ∧ (tok_type t = NUMBER ∨ tok_type t = STRING)).
  { unfold literal, lexeme in Ht. destruct Ht; simplify_eq; auto. }
  destruct Hv as [<- Hty].
  assert (bool_decide (tok_type t ≠ NUMBER) && bool_decide (tok_type t ≠ STRING) = false) as ->.
  { apply andb_false_iff. rewrite !bool_decide_eq_false. tauto. }
  erewrite M_bind_run by (apply advance_at; destruct Hty; congruence). done.
Qed.

Lemma parses_fuel {A} (f : nat → M Parser A) c rest a :
  (∀ fuel, length c ≤ fuel → parses (f fuel) c rest a) → parses (loopFuel ≫= f) c rest a.
Proof.
  intros Hf pre. unfold loopFuel. mrun. apply Hf. simpl. rewrite !length_app. lia.
Qed.

(** Splitting a token list along its lexemes. *)
Lemma lexeme_cons_inv (c : list Token) x l :
  lexeme <$> c = x :: l → ∃ t c', c = t :: c' ∧ lexeme t = x ∧ lexeme <$> c' = l.
Proof. intros (t & c' & -> & -> & ->)%fmap_cons_inv. eauto. Qed.
Lemma lexeme_app_inv (c : list Token) l1 l2 :
  lexeme <$> c = l1 ++ l2 → ∃ c1 c2, c = c1 ++ c2 ∧ lexeme <$> c1 = l1 ∧ lexeme <$> c2 = l2.
Proof. intros (c1 & c2 & -> & -> & ->)%fmap_app_inv. eauto. Qed.

Ltac split_lexemes :=
  repeat match goal with
  | H : lexeme <$> _ = _ :: _ |- _ => apply lexeme_cons_inv in H as (? & ? & -> & ? & ?)
  | H : lexeme <$> _ = _ ++ _ |- _ => apply lexeme_app_inv in H as (? & ? & -> & ? & ?)
  | H : lexeme <$> _ = [] |- _ => apply fmap_nil_inv in H as ->
  end.

(** ** Items and lists *)
Definition complete {A} (m : M Parser A) (g : A → list lex → Prop) : Prop :=
  ∀ a c rest, g a (lexeme <$> c) → parses m c rest a.

Lemma complete_ident : complete (t ← expect IDENTIFIER "column name"; mret (tok_value t)) g_ident.
Proof.
  intros x c rest Hc. unfold g_ident in Hc. split_lexemes.
  eapply parses_cons; [by eapply parses_expect|]. unfold lexeme in *. simplify_eq. apply parses_ret.
Qed.

Lemma complete_literal : complete parseLiteral g_literal.
Proof. intros v c rest (t & Ht & Hc). split_lexemes. subst. by apply parses_literal. Qed.

Lemma compareOp_complete t op : tok_value t = toStringOp op → compareOpFromToken t = Val op.
Proof. unfold compareOpFromToken. intros ->. by destruct op. Qed.

Lemma complete_clause : complete parseClause g_clause.
Proof.
  intros [x op v] c rest (t & Ht & Hc). simpl in *. split_lexemes. subst. unfold parseClause.
  eapply parses_cons; [by eapply parses_expect|]. eapply parses_cons; [by eapply parses_expect|].
  unfold lexeme in *. simplify_eq. eapply parses_nil.
  { rewrite (compareOp_complete _ op) by done. apply parses_ret. }
  eapply parses_cons; [by apply parses_literal|]. apply parses_ret.
Qed.

Lemma complete_assignment : complete parseAssignment g_assignment.
Proof.
  intros [x v] c rest (t & Ht & Hc). simpl in *. split_lexemes. subst. unfold parseAssignment.
  eapply parses_cons; [by eapply parses_expect|]. eapply parses_cons; [by eapply parses_expect|].
  unfold lexeme in *. simplify_eq. rewrite bool_decide_eq_false_2 by tauto.
  eapply parses_cons; [by apply parses_literal|]. apply parses_ret.
Qed.

Lemma dataType_complete t : dataTypeFromString (toStringType t) = Some t.
Proof. by destruct t. Qed.

Lemma complete_columnDef : complete parseColumnDef g_column.
Proof.
  intros [x ty] c rest Hc. unfold g_column in Hc. simpl in *. split_lexemes. unfold parseColumnDef.
  eapply parses_cons; [by eapply parses_expect|]. eapply parses_cons; [by eapply parses_expect|].
  unfold lexeme in *. simplify_eq.
  match goal with H : tok_value _ = toStringType _ |- _ => rewrite H end.
  rewrite dataType_complete. apply parses_ret.
Qed.

Lemma complete_commas {A} (item : M Parser A) (g : A → list lex → Prop) l cs fuel acc c next rest :
  complete item g → l ≠ [] → Forall2 g l cs → lexeme <$> c = commas cs → length l ≤ fuel →
  lexeme next ≠ (PUNCTUATION, ",") →
  parses (commaLoop fuel item acc) c (next :: rest) (acc ++ l).
Proof.
  intros Hitem Hne Hcs. revert fuel acc c Hne. induction Hcs as [|a c0 l cs Hg Hcs IH]; intros fuel acc c Hne Hc Hf Hn;
    [done|]. destruct fuel as [|fuel]; [simpl in Hf; lia|]. cbn [commaLoop].
  unfold commas in Hc. rewrite separated_cons in Hc. apply lexeme_app_inv in Hc as (c1 & c2 & -> & Hc1 & Hc2).
  eapply parses_bind; [apply Hitem; by rewrite Hc1|].
  destruct Hcs as [|a' c0' l cs Hg' Hcs].
  - split_lexemes. eapply (parses_nil _ _ []); [by apply parses_look_no|]. apply parses_ret.
  - apply lexeme_cons_inv in Hc2 as (t & c2' & -> & Ht & Hc2).
    eapply parses_nil; [by apply parses_look_yes|]. cbn iota.
    eapply parses_cons; [apply parses_advance; unfold lexeme in Ht; congruence|].
    replace (acc ++ a :: a' :: l) with ((acc ++ [a]) ++ a' :: l) by (by rewrite <- (assoc_L (++))).
    apply IH; [done|done|simpl in *; lia|done].
Qed.

Lemma g_list_length {A} (g : A → list lex → Prop) l c :
  (∀ a c, g a c → c ≠ []) → g_list g l c → length l ≤ length c.
Proof.
  intros Hg (_ & cs & Hcs & ->). unfold commas.
  induction Hcs as [|a c l cs Hac Hcs IH]; [done|]. rewrite separated_cons, length_app.
  assert (length c ≠ 0) by (apply Hg in Hac; by destruct c). simpl.
  destruct Hcs; simpl in *; lia.
Qed.

Lemma complete_comma_list {A} (item : M Parser A) (g : A → list lex → Prop) l c next rest :
  complete item g → (∀ a c, g a c → c ≠ []) → g_list g l (lexeme <$> c) →
  lexeme next ≠ (PUNCTUATION, ",") →
  parses (fuel ← loopFuel; commaLoop fuel item []) c (next :: rest) l.
Proof.
  intros Hitem Hg Hl Hn. apply parses_fuel. intros fuel Hf.
  pose proof (g_list_length _ _ _ Hg Hl) as Hlen. rewrite length_fmap in Hlen.
  destruct Hl as (Hne & cs & Hcs & Hc). eapply (complete_commas _ _ _ _ _ []); try done. lia.
Qed.

Lemma complete_where_loop ws cs fuel acc c next rest :
  ws ≠ [] → Forall2 g_clause ws cs → lexeme <$> c = separated (KEYWORD, "AND") cs → length ws ≤ fuel →
  lexeme next ≠ (KEYWORD, "AND") →
  parses (whereLoop fuel acc) c (next :: rest) (acc ++ ws).
Proof.
  intros Hne Hcs. revert fuel acc c Hne. induction Hcs as [|a c0 l cs Hg Hcs IH]; intros fuel acc c Hne Hc Hf Hn;
    [done|]. destruct fuel as [|fuel]; [simpl in Hf; lia|]. cbn [whereLoop]. unfold peekIsKeyword.
  rewrite separated_cons in Hc. apply lexeme_app_inv in Hc as (c1 & c2 & -> & Hc1 & Hc2).
  eapply parses_bind; [apply complete_clause; by rewrite Hc1|].
  destruct Hcs as [|a' c0' l cs Hg' Hcs].
  - split_lexemes. eapply (parses_nil _ _ []); [by apply parses_look_no|]. apply parses_ret.
  - apply lexeme_cons_inv in Hc2 as (t & c2' & -> & Ht & Hc2).
    eapply parses_nil; [by apply parses_look_yes|]. cbn [negb].
    eapply parses_cons; [apply parses_advance; unfold lexeme in Ht; congruence|].
    replace (acc ++ a :: a' :: l) with ((acc ++ [a]) ++ a' :: l) by (by rewrite <- (assoc_L (++))).
    apply IH; [done|done|simpl in *; lia|done].
Qed.

Lemma complete_where ws c e rest :
  g_where ws (lexeme <$> c) → tok_type e = END → parses parseOptionalWhere c (e :: rest) ws.
Proof.
  intros Hw He. unfold parseOptionalWhere, peekIsKeyword.
  assert (Hend : ∀ k, lexeme e ≠ (KEYWORD, k)) by (unfold lexeme; congruence).
  destruct ws as [|w ws]; simpl in Hw.
  - split_lexemes. eapply (parses_nil _ _ []); [by apply parses_look_no|]. apply parses_ret.
  - destruct Hw as (cs & Hcs & Hc). apply lexeme_cons_inv in Hc as (t & c' & -> & Ht & Hc).
    eapply parses_nil; [by apply parses_look_yes|]. cbn [negb].
    eapply parses_cons; [apply parses_advance; unfold lexeme in Ht; congruence|].
    apply parses_fuel. intros fuel Hf. eapply (complete_where_loop _ _ _ []); try done.
    assert (length (w :: ws) ≤ length c'); [|lia]. rewrite <- (length_fmap lexeme c'), Hc.
    clear -Hcs. induction Hcs as [|a c l cs Hac Hcs IH]; [done|]. rewrite separated_cons, length_app.
    destruct Hac as (t & _ & ->). simpl. destruct Hcs; simpl in *; lia.
Qed.

Lemma parses_assoc {A B C} (m : M Parser A) (f : A → M Parser B) (g : B → M Parser C) c rest a :
  parses ((m ≫= f) ≫= g) c rest a → parses (m ≫= (λ a, f a ≫= g)) c rest a.
Proof. intros Hp pre. rewrite <- M_assoc. by apply Hp. Qed.

(** The end of a statement. *)
Lemma parses_finish {A} (m : M Parser A) e rest a :
  tok_type e = END → (∀ p, m p = Ret p a) → parses (expectEnd;; m) [] (e :: rest) a.
Proof.
  intros He Hm. eapply (parses_nil _ _ []); [by apply parses_end|]. intros pre. by rewrite Hm, app_nil_r.
Qed.

Ltac parses_word :=
  eapply parses_cons;
  [first [by apply parses_keyword | by eapply parses_expect | by apply parses_punctuation]|].

(** The tokens of a list, then a token that is not a comma. *)
Ltac parses_list lem :=
  apply parses_assoc; eapply parses_bind;
  [cbn [app]; eapply complete_comma_list;
     [exact lem|by (unfold g_column, g_ident, g_literal, g_assignment; intros; destr)|eassumption
     |unfold lexeme in *; congruence]|].

Lemma g_where_next ws c (e : Token) :
  g_where ws (lexeme <$> c) → tok_type e = END →
  ∃ next rest, c ++ [e] = next :: rest ∧ lexeme next ≠ (PUNCTUATION, ",").
Proof.
  intros Hw He. destruct ws as [|w ws]; simpl in Hw.
  - split_lexemes. exists e, []. split; [done|]. unfold lexeme. congruence.
  - destruct Hw as (cs & _ & Hc). apply lexeme_cons_inv in Hc as (t & c' & -> & Ht & _).
    exists t, (c' ++ [e]). split; [done|]. congruence.
Qed.

Lemma complete_create s c e :
  derives (SCreate s) (lexeme <$> c) → tok_type e = END → parses parseCreate c [e] s.
Proof.
  intros Hd He. inversion Hd as [t cols cl Hcols Heq Hc| | | | |]; subst. symmetry in Hc. split_lexemes.
  subst. unfold parseCreate. cbn [app] in *. do 4 parses_word. parses_list complete_columnDef.
  parses_word. unfold lexeme in *. simplify_eq. by apply parses_finish.
Qed.

Lemma complete_drop s c e :
  derives (SDrop s) (lexeme <$> c) → tok_type e = END → parses parseDrop c [e] s.
Proof.
  intros Hd He. inversion Hd as [|t Heq Hc| | | |]; subst. symmetry in Hc. split_lexemes.
  unfold parseDrop. do 3 parses_word. unfold lexeme in *. simplify_eq. by apply parses_finish.
Qed.

Lemma complete_insert s c e :
  derives (SInsert s) (lexeme <$> c) → tok_type e = END → parses parseInsert c [e] s.
Proof.
  intros Hd He. inversion Hd as [| |t cols values c1 c2 Hcols Hvals Hlen Heq Hc| | |]; subst.
  symmetry in Hc. split_lexemes. subst. unfold parseInsert. cbn [app] in *. do 4 parses_word.
  unfold parseIdentifierList. eapply parses_bind.
  { cbn [app]. eapply complete_comma_list; [exact complete_ident| |eassumption|unfold lexeme in *; congruence].
    unfold g_ident. intros; by subst. }
  do 3 parses_word. parses_list complete_literal. parses_word. unfold lexeme in *. simplify_eq.
  apply parses_finish; [done|]. intros p. rewrite bool_decide_eq_false_2 by tauto. done.
Qed.

(** The list of columns of a SELECT starts with a name. *)
Lemma g_idents_head cols c :
  g_list g_ident cols (lexeme <$> c) → ∃ t c', c = t :: c' ∧ tok_type t = IDENTIFIER.
Proof.
  intros (Hne & cs & Hcs & Hc). inversion Hcs as [|x y l ys Hy Hys]; subst; [done|].
  unfold g_ident in Hy. subst y. unfold commas in Hc.
  rewrite separated_cons in Hc. cbn [app] in Hc. apply lexeme_cons_inv in Hc as (t & c' & -> & Ht & _).
  exists t, c'. split; [done|]. unfold lexeme in Ht. congruence.
Qed.

Lemma parses_last {A B} (m : M Parser A) (f : A → M Parser B) c rest a b :
  parses m c rest a → parses (f a) [] rest b → parses (m ≫= f) c rest b.
Proof. intros Hm Hf. rewrite <- (app_nil_r c). by eapply parses_bind. Qed.

Lemma complete_select s c e :
  derives (SSelect s) (lexeme <$> c) → tok_type e = END → parses parseSelect c [e] s.
Proof.
  intros Hd He. inversion Hd as [| | |t cols ws c1 c2 Hcols Hw Heq Hc| |]; subst.
  symmetry in Hc. apply lexeme_cons_inv in Hc as (t1 & r1 & -> & Ht1 & Hc).
  apply lexeme_app_inv in Hc as (d1 & r2 & -> & Hd1 & Hc). cbn [app] in Hc.
  apply lexeme_cons_inv in Hc as (t2 & r3 & -> & Ht2 & Hc).
  apply lexeme_cons_inv in Hc as (t3 & d2 & -> & Ht3 & Hd2). subst c1 c2.
  unfold parseSelect. parses_word. apply parses_assoc. eapply (parses_bind _ _ _ _ _ cols).
  - destruct cols as [|x cols].
    + split_lexemes. cbn [app]. eapply parses_nil; [by apply (parses_look_yes _ _ _ [])|]. cbn iota.
      eapply parses_cons; [apply parses_advance; unfold lexeme in *; congruence|]. apply parses_ret.
    + destruct (g_idents_head _ _ Hcols) as (t0 & c0 & -> & Ht0).
      eapply parses_nil; [apply parses_look_no; unfold lexeme; congruence|]. cbn iota.
      unfold parseIdentifierList. cbn [app].
      eapply complete_comma_list; [exact complete_ident| |done|unfold lexeme in *; congruence].
      unfold g_ident. intros; by subst.
  - do 2 parses_word. unfold lexeme in Ht3. simplify_eq.
    eapply parses_last; [by apply complete_where|]. by apply parses_finish.
Qed.

Lemma complete_update s c e :
  derives (SUpdate s) (lexeme <$> c) → tok_type e = END → parses parseUpdate c [e] s.
Proof.
  intros Hd He. inversion Hd as [| | | |t assigns ws c1 c2 Has Hw Heq Hc|]; subst.
  symmetry in Hc. cbn [app] in Hc. apply lexeme_cons_inv in Hc as (t1 & r1 & -> & Ht1 & Hc).
  apply lexeme_cons_inv in Hc as (t2 & r2 & -> & Ht2 & Hc).
  apply lexeme_cons_inv in Hc as (t3 & r3 & -> & Ht3 & Hc).
  apply lexeme_app_inv in Hc as (d1 & d2 & -> & <- & <-).
  unfold parseUpdate. do 3 parses_word. apply parses_assoc. eapply parses_bind.
  - destruct (g_where_next _ _ _ Hw He) as (next & rest & -> & Hn).
    eapply complete_comma_list; [exact complete_assignment| |done|done].
    unfold g_assignment. intros; by destr.
  - unfold lexeme in Ht2. simplify_eq. eapply parses_last; [by apply complete_where|]. by apply parses_finish.
Qed.

Lemma complete_delete s c e :
  derives (SDelete s) (lexeme <$> c) → tok_type e = END → parses parseDelete c [e] s.
Proof.
  intros Hd He. inversion Hd as [| | | | |t ws c2 Hw Heq Hc]; subst.
  symmetry in Hc. cbn [app] in Hc. apply lexeme_cons_inv in Hc as (t1 & r1 & -> & Ht1 & Hc).
  apply lexeme_cons_inv in Hc as (t2 & r2 & -> & Ht2 & Hc).
  apply lexeme_cons_inv in Hc as (t3 & d2 & -> & Ht3 & <-).
  unfold parseDelete. do 3 parses_word. unfold lexeme in Ht3. simplify_eq.
  eapply parses_last; [by apply complete_where|]. by apply parses_finish.
Qed.

(** The first keyword selects the statement. *)
Lemma parses_map {A B} (m : M Parser A) (h : A → B) c rest a :
  parses m c rest a → parses (a ← m; mret (h a)) c rest (h a).
Proof. intros Hm. eapply parses_last; [done|]. apply parses_ret. Qed.

Lemma parse_dispatch s c e k m :
  (∃ t c', c = t :: c' ∧ lexeme t = (KEYWORD, k)) →
  (∀ t, lexeme t = (KEYWORD, k) →
    (if bool_decide (tok_type t ≠ KEYWORD) then
       fail "expected a statement (SELECT, INSERT, DELETE, CREATE, DROP)"
     else if bool_decide (tok_value t = "CREATE") then s ← parseCreate; mret (SCreate s)
     else if bool_decide (tok_value t = "DROP") then s ← parseDrop; mret (SDrop s)
     else if bool_decide (tok_value t = "INSERT") then s ← parseInsert; mret (SInsert s)
     else if bool_decide (tok_value t = "SELECT") then s ← parseSelect; mret (SSelect s)
     else if bool_decide (tok_value t = "UPDATE") then s ← parseUpdate; mret (SUpdate s)
     else if bool_decide (tok_value t = "DELETE") then s ← parseDelete; mret (SDelete s)
     else fail ("unsupported statement '" +:+ tok_value t +:+ "'")) = m) →
  parses m c [e] s → parses parse c [e] s.
Proof.
  intros (t & c' & -> & Ht) Hm Hp pre. unfold parse. cbn [app]. erewrite M_bind_run by apply peek_at.
  rewrite (Hm t Ht). apply Hp.
Qed.

Lemma complete_parse s c e :
  derives s (lexeme <$> c) → tok_type e = END → parses parse c [e] s.
Proof.
  intros Hd He.
  assert (Hhead : ∀ k l, lexeme <$> c = (KEYWORD, k) :: l → ∃ t c', c = t :: c' ∧ lexeme t = (KEYWORD, k)).
  { intros k l (t & c' & -> & Ht & _)%lexeme_cons_inv. eauto. }
  pose proof Hd as Hd'. inversion Hd'; subst; eapply parse_dispatch;
    try (by eapply Hhead; symmetry); try (intros [ty v pos] Ht; unfold lexeme in Ht; simpl in Ht; simplify_eq; cbn [tok_type tok_value];
         repeat (first [rewrite bool_decide_eq_true_2 by done | rewrite bool_decide_eq_false_2 by (done || tauto)]);
         reflexivity);
    apply parses_map.
  - by apply complete_create.
  - by apply complete_drop.
  - by apply complete_insert.
  - by apply complete_select.
  - by apply complete_update.
  - by apply complete_delete.
Qed.

(** ** From the text *)
Lemma lexed_ends n ts :
  tokens_ok n ts → ∃ body e, ts = body ++ [e] ∧ tok_type e = END ∧ Forall (λ t, tok_type t ≠ END) body.
Proof.
  intros (body & -> & Hl & _). exists body, (mkToken END "" n). split; [done|]. split; [done|].
  eapply Forall_impl; [done|]. intros [ty v pos]. unfold lexeme_ok, lexeme. simpl. intros Hok ->. done.
Qed.

Lemma parseQuery_spec query :
  match parseQuery query with
  | Val s => ∃ c, derives s c
  | Throw (QueryError _) => True
  | _ => False
  end.
Proof.
  unfold parseQuery. pose proof (tokenize_ok query) as Hl.
  destruct (tokenize query) as [ts|[]|]; simpl in *; try done.
  destruct (lexed_ends _ _ Hl) as (body & e & -> & He & Hb).
  assert (Hends : ends (body ++ [e])) by (by exists body, e).
  pose proof (sound_parse (length (body ++ [e])) [] (body ++ [e]) Hends (Nat.le_refl _)) as Hs.
  change (mkParser (body ++ [e]) 0) with (mk [] (body ++ [e])).
  destruct (parse (mk [] (body ++ [e]))) as [p s|p [w|w|w|w| | |]|]; try done.
  destruct Hs as (c & _ & _ & _ & _ & Hd). eauto.
Qed.
