(* ===== verification/ParserMain.v ===== *)
(** * Lexer and parser: main theorems *)

From S2P Require Import Prelude CxxStd Schema Lexer Ast Parser ParserSpec.

(** ** Printing statements, literals quoted *)
Definition print_clause (w : WhereClause) : list lex :=
  [(IDENTIFIER, wc_column w); (OPERATOR, toStringOp (wc_op w)); (STRING, wc_value w)].
Definition print_where (ws : WhereList) : list lex :=
  match ws with [] => [] | _ => (KEYWORD, "WHERE") :: separated (KEYWORD, "AND") (print_clause <$> ws) end.
Definition print_column (d : ColumnDef) : list lex :=
  [(IDENTIFIER, cd_name d); (KEYWORD, toStringType (cd_type d))].
Definition print_assignment (a : string * string) : list lex :=
  [(IDENTIFIER, a.1); (OPERATOR, "="); (STRING, a.2)].
Definition print_name (x : string) : list lex := [(IDENTIFIER, x)].
Definition print_literal (v : string) : list lex := [(STRING, v)].

Definition print_statement (s : Statement) : list lex :=
  match s with
  | SCreate (mkCreate t cols) =>
    [(KEYWORD, "CREATE"); (KEYWORD, "TABLE"); (IDENTIFIER, t); (PUNCTUATION, "(")] ++
    commas (print_column <$> cols) ++ [(PUNCTUATION, ")")]
  | SDrop (mkDrop t) => [(KEYWORD, "DROP"); (KEYWORD, "TABLE"); (IDENTIFIER, t)]
  | SInsert (mkInsert t cols values) =>
    [(KEYWORD, "INSERT"); (KEYWORD, "INTO"); (IDENTIFIER, t); (PUNCTUATION, "(")] ++
    commas (print_name <$> cols) ++
    [(PUNCTUATION, ")"); (KEYWORD, "VALUES"); (PUNCTUATION, "(")] ++
    commas (print_literal <$> values) ++ [(PUNCTUATION, ")")]
  | SSelect (mkSelect t cols ws) =>
    (KEYWORD, "SELECT") ::
    (if cols is [] then [(PUNCTUATION, "*")] else commas (print_name <$> cols)) ++
    [(KEYWORD, "FROM"); (IDENTIFIER, t)] ++ print_where ws
  | SUpdate (mkUpdate t assignments ws) =>
    [(KEYWORD, "UPDATE"); (IDENTIFIER, t); (KEYWORD, "SET")] ++
    commas (print_assignment <$> assignments) ++ print_where ws
  | SDelete (mkDelete t ws) =>
    [(KEYWORD, "DELETE"); (KEYWORD, "FROM"); (IDENTIFIER, t)] ++ print_where ws
  end.

(** The query text of a statement. *)
Definition show_statement (s : Statement) : string := show_lexemes (print_statement s).

(** A name that the lexer reads as one identifier. *)
Definition name_ok (x : string) : Prop :=
  is_identifier x = true ∧ isKeyword (string_map toupper x) = false.

Definition statement_ok (s : Statement) : Prop :=
  match s with
  | SCreate (mkCreate t cols) => name_ok t ∧ cols ≠ [] ∧ Forall (λ d, name_ok (cd_name d)) cols
  | SDrop (mkDrop t) => name_ok t
  | SInsert (mkInsert t cols values) =>
    name_ok t ∧ cols ≠ [] ∧ Forall name_ok cols ∧ length cols = length values
  | SSelect (mkSelect t cols ws) => name_ok t ∧ Forall name_ok cols ∧ Forall (λ w, name_ok (wc_column w)) ws
  | SUpdate (mkUpdate t assignments ws) =>
    name_ok t ∧ assignments ≠ [] ∧ Forall (λ a, name_ok a.1) assignments ∧
    Forall (λ w, name_ok (wc_column w)) ws
  | SDelete (mkDelete t ws) => name_ok t ∧ Forall (λ w, name_ok (wc_column w)) ws
  end.

Lemma print_list_ok {A} (g : A → list lex → Prop) (pr : A → list lex) l :
  (∀ a, g a (pr a)) → l ≠ [] → g_list g l (commas (pr <$> l)).
Proof.
  intros Hg Hl. split; [done|]. exists (pr <$> l). split; [|done].
  apply Forall2_fmap_r. apply Forall_Forall2_diag. apply Forall_forall. eauto.
Qed.

Lemma print_where_ok ws : g_where ws (print_where ws).
Proof.
  destruct ws as [|w ws]; [done|]. exists (print_clause <$> w :: ws). split; [|done].
  apply Forall2_fmap_r. apply Forall_Forall2_diag. apply Forall_forall. intros x _.
  exists (STRING, wc_value x). split; [by right|done].
Qed.

Lemma print_derives s : statement_ok s → derives s (print_statement s).
Proof.
  destruct s as [[t cols]|[t]|[t cols values]|[t cols ws]|[t assignments ws]|[t ws]]; simpl; intros Hok.
  - apply derives_create. apply print_list_ok; [done|apply Hok].
  - apply derives_drop.
  - destruct Hok as (_ & Hne & _ & Hlen). apply derives_insert; [by apply print_list_ok| |done].
    apply print_list_ok; [|by destruct values, cols].
    intros v. exists (STRING, v). split; [by right|done].
  - apply derives_select; [|apply print_where_ok]. destruct cols; [done|by apply print_list_ok].
  - apply derives_update; [|apply print_where_ok]. apply print_list_ok; [|apply Hok].
    intros a. exists (STRING, a.2). split; [by right|done].
  - apply derives_delete. apply print_where_ok.
Qed.

Lemma separated_lexemes (sep : lex) items :
  lexeme_ok sep → Forall (Forall lexeme_ok) items → Forall lexeme_ok (separated sep items).
Proof.
  intros Hs Hi. induction Hi as [|x items Hx Hi IH]; [constructor|]. rewrite separated_cons.
  apply Forall_app_2; [done|]. destruct Hi; [constructor|]. constructor; done.
Qed.

(** Keywords, operators and punctuation that the grammar writes are lexemes. *)
Ltac lexeme_const := unfold lexeme_ok, kKeywords, operators, punctuation; cbn [fst snd]; rewrite !elem_of_cons; tauto.

Lemma print_where_lexemes ws : Forall (λ w, name_ok (wc_column w)) ws → Forall lexeme_ok (print_where ws).
Proof.
  intros Hw. destruct Hw as [|w ws Hw Hws]; [constructor|]. constructor; [lexeme_const|].
  apply separated_lexemes; [lexeme_const|]. apply Forall_fmap.
  assert (Hone : ∀ w, name_ok (wc_column w) → Forall lexeme_ok (print_clause w)).
  { intros x Hx. unfold print_clause. constructor; [exact Hx|]. constructor; [|by repeat constructor].
    destruct (wc_op x); lexeme_const. }
  constructor; [by apply Hone|]. eapply Forall_impl; [done|]. apply Hone.
Qed.

Lemma print_list_lexemes {A} (pr : A → list lex) l :
  Forall (λ a, Forall lexeme_ok (pr a)) l → Forall lexeme_ok (commas (pr <$> l)).
Proof. intros Hl. apply separated_lexemes; [lexeme_const|]. by apply Forall_fmap. Qed.

Lemma print_lexemes s : statement_ok s → Forall lexeme_ok (print_statement s).
Proof.
  assert (Hnames : ∀ cols, Forall name_ok cols → Forall lexeme_ok (commas (print_name <$> cols))).
  { intros cols Hc. apply print_list_lexemes. eapply Forall_impl; [done|]. intros x Hx. by constructor. }
  destruct s as [[t cols]|[t]|[t cols values]|[t cols ws]|[t assignments ws]|[t ws]]; simpl; intros Hok.
  - destruct Hok as (Ht & _ & Hc). constructor; [lexeme_const|]. constructor; [lexeme_const|].
    constructor; [done|]. constructor; [lexeme_const|]. apply Forall_app_2; [|constructor; [lexeme_const|done]].
    apply print_list_lexemes. eapply Forall_impl; [done|]. intros [x ty] Hx. constructor; [done|].
    constructor; [|done]. destruct ty; lexeme_const.
  - constructor; [lexeme_const|]. constructor; [lexeme_const|]. by constructor.
  - destruct Hok as (Ht & _ & Hc & _). constructor; [lexeme_const|]. constructor; [lexeme_const|].
    constructor; [done|]. constructor; [lexeme_const|]. apply Forall_app_2; [by apply Hnames|].
    constructor; [lexeme_const|]. constructor; [lexeme_const|]. constructor; [lexeme_const|].
    apply Forall_app_2; [|constructor; [lexeme_const|done]]. apply print_list_lexemes.
    apply Forall_forall. intros v _. by repeat constructor.
  - destruct Hok as (Ht & Hc & Hw). constructor; [lexeme_const|]. apply Forall_app_2.
    { destruct cols; [constructor; [lexeme_const|done]|by apply Hnames]. }
    constructor; [lexeme_const|]. constructor; [done|]. by apply print_where_lexemes.
  - destruct Hok as (Ht & _ & Ha & Hw). constructor; [lexeme_const|]. constructor; [done|].
    constructor; [lexeme_const|]. apply Forall_app_2; [|by apply print_where_lexemes].
    apply print_list_lexemes. eapply Forall_impl; [done|]. intros [x v] Hx. constructor; [done|].
    constructor; [lexeme_const|by repeat constructor].
  - destruct Hok as (Ht & Hw). constructor; [lexeme_const|]. constructor; [lexeme_const|].
    constructor; [done|]. by apply print_where_lexemes.
Qed.

Lemma parse_show s : statement_ok s → parseQuery (show_statement s) = Val s.
Proof.
  intros Hok. unfold parseQuery, show_statement.
  destruct (tokenize_show _ (print_lexemes s Hok)) as (toks & -> & Hl). cbn [mbind result_bind].
  apply lexeme_app_inv in Hl as (body & r & -> & Hb & Hr).
  apply lexeme_cons_inv in Hr as (e & r' & -> & He & Hr). apply fmap_nil_inv in Hr as ->.
  pose proof (print_derives s Hok) as Hd. rewrite <- Hb in Hd.
  change (mkParser (body ++ [e]) 0) with (mk [] (body ++ [e])).
  rewrite (complete_parse s body e Hd) by (unfold lexeme in He; congruence). done.
Qed.

(** ** Theorems *)

(** Every input lexes to a token list or to a [QueryError], without reading
    out of range; the tokens are well formed, lie inside the input in strictly
    ascending order and end with the END sentinel at the length of the input. *)
Theorem lexer_total (input : string) :
  match tokenize input with
  | Val ts => tokens_ok (String.length input) ts
  | Throw (QueryError _) => True
  | _ => False
  end.
Proof. exact (tokenize_ok input). Qed.

(** C5: On a token stream that ends with the sentinel the parser always stops;
    it returns a statement exactly when the stream spells it by the grammar, that
    statement is the only one the stream spells, and otherwise it throws a
    [QueryError]. *)
Theorem parser_decides_grammar (body : list Token) (e : Token) :
  tok_type e = END → Forall (λ t, tok_type t ≠ END) body →
  match parse (mkParser (body ++ [e]) 0) with
  | Ret _ s => derives s (lexeme <$> body) ∧ ∀ s', derives s' (lexeme <$> body) → s' = s
  | Exn _ (QueryError _) => ∀ s, ¬ derives s (lexeme <$> body)
  | _ => False
  end.
Proof.
  intros He Hb.
  assert (Hends : ends (body ++ [e])) by (by exists body, e).
  pose proof (sound_parse (length (body ++ [e])) [] (body ++ [e]) Hends (Nat.le_refl _)) as Hs.
  change (mkParser (body ++ [e]) 0) with (mk [] (body ++ [e])).
  assert (Hc : ∀ s, derives s (lexeme <$> body) → parse (mk [] (body ++ [e])) = Ret (mk body [e]) s).
  { intros s Hd. by apply (complete_parse s body e). }
  destruct (parse (mk [] (body ++ [e]))) as [p s|p [w|w|w|w| | |]|]; try done.
  - destruct Hs as (c & rest' & Heq & _ & (e' & -> & _) & Hd).
    apply app_inj_tail in Heq as [-> _]. split; [done|]. intros s' Hd'. apply Hc in Hd'. congruence.
  - intros s Hd. apply Hc in Hd. congruence.
Qed.

(** C30: Every query string is answered by the lexer and the parser with a
    statement or a [QueryError]: no input makes them loop, read out of range or
    throw anything else.  A statement that is returned is one that the grammar
    spells; an INSERT so has as many values as columns. *)
Theorem query_parse_total (query : string) :
  match parseQuery query with
  | Val s => ∃ c, derives s c
  | Throw (QueryError _) => True
  | _ => False
  end.
Proof. exact (parseQuery_spec query). Qed.

(** C29: Printing a statement and parsing the text gives the statement back, for
    every statement whose names are identifiers, with literals of any content
    (quotes included). *)
Theorem statement_roundtrip (s : Statement) : statement_ok s → parseQuery (show_statement s) = Val s.
Proof. exact (parse_show s). Qed.

Lemma parser_decides_grammar_witness :
  match parse (mkParser ([mkToken KEYWORD "DROP" 0; mkToken KEYWORD "TABLE" 5; mkToken IDENTIFIER "t" 11] ++
                [mkToken END "" 12]) 0) with
  | Ret _ s => derives s [(KEYWORD, "DROP"); (KEYWORD, "TABLE"); (IDENTIFIER, "t")] ∧
      ∀ s', derives s' [(KEYWORD, "DROP"); (KEYWORD, "TABLE"); (IDENTIFIER, "t")] → s' = s
  | Exn _ (QueryError _) => ∀ s, ¬ derives s [(KEYWORD, "DROP"); (KEYWORD, "TABLE"); (IDENTIFIER, "t")]
  | _ => False
  end.
Proof.
  apply (parser_decides_grammar [mkToken KEYWORD "DROP" 0; mkToken KEYWORD "TABLE" 5; mkToken IDENTIFIER "t" 11]
    (mkToken END "" 12)); [reflexivity|]. repeat constructor; discriminate.
Defined.

Lemma statement_roundtrip_witness :
  let s := SSelect (mkSelect "users" ["id"; "name"] [mkWhere "name" NE "O'Brien"; mkWhere "id" GE "7"]) in
  parseQuery (show_statement s) = Val s.
Proof. apply statement_roundtrip. repeat constructor. Defined.
