(* ===== verification/SharedPtr.v ===== *)
(** * Reference-counted pointers (include/memory/SharedPtr.hpp)

    The heap holds objects and control blocks; using a freed address is stuck.
    [owned hs h]: [hs] are all the live handles on the heap [h]; every control
    block counts exactly its handles, and what is allocated is owned.  Counts are
    unbounded here (the code has a [long]). *)

From S2P Require Import Prelude.

Section SharedPtr.
Context {T : Type}.

Record Heap := mkHeap {
  objects : gmap nat T;
  counts : gmap nat Z;   (* control blocks: [strong] *)
  nextAddr : nat;
}.

Record SharedPtr := mkSharedPtr {
  ptr_ : option nat;
  control_ : option nat;
}.

#[export] Instance SharedPtr_eq_dec : EqDecision SharedPtr.
Proof. solve_decision. Defined.

Definition nullPtr : SharedPtr := mkSharedPtr None None.

(** ** [new] and [delete] *)
Definition newObject (x : T) : M Heap nat :=
  h ← get_state;
  put_state (mkHeap (<[nextAddr h:=x]> (objects h)) (counts h) (S (nextAddr h)));;
  mret (nextAddr h).

Definition newControl : M Heap nat :=
  h ← get_state;
  put_state (mkHeap (objects h) (<[nextAddr h:=1%Z]> (counts h)) (S (nextAddr h)));;
  mret (nextAddr h).

(** [delete nullptr] does nothing. *)
Definition deleteObject (p : option nat) : M Heap unit :=
  match p with
  | None => mret ()
  | Some a =>
    h ← get_state;
    _ ← lift (deref (objects h !! a));
    put_state (mkHeap (delete a (objects h)) (counts h) (nextAddr h))
  end.

Definition deleteControl (c : nat) : M Heap unit :=
  h ← get_state;
  _ ← lift (deref (counts h !! c));
  put_state (mkHeap (objects h) (delete c (counts h)) (nextAddr h)).

(** [strong.fetch_add(d)]: the old value *)
Definition fetchAdd (c : nat) (d : Z) : M Heap Z :=
  h ← get_state;
  n ← lift (deref (counts h !! c));
  put_state (mkHeap (objects h) (<[c:=(n + d)%Z]> (counts h)) (nextAddr h));;
  mret n.

(** ** The class *)
Definition fromRaw (ptr : option nat) : M Heap SharedPtr :=
  match ptr with
  | None => mret nullPtr
  | Some _ => c ← newControl; mret (mkSharedPtr ptr (Some c))
  end.

Definition copyPtr (other : SharedPtr) : M Heap SharedPtr :=
  match control_ other with
  | None => mret other
  | Some c => fetchAdd c 1;; mret other
  end.

(** The new handle and what is left of the old one. *)
Definition movePtr (other : SharedPtr) : SharedPtr * SharedPtr := (other, nullPtr).

Definition release (s : SharedPtr) : M Heap unit :=
  match control_ s with
  | None => mret ()
  | Some c =>
    n ← fetchAdd c (-1);
    if bool_decide (n = 1%Z) then deleteObject (ptr_ s);; deleteControl c else mret ()
  end.

Definition swapPtr (a b : SharedPtr) : SharedPtr * SharedPtr := (b, a).

Definition copyAssign (this other : SharedPtr) : M Heap SharedPtr :=
  copy ← copyPtr other;
  let '(this', copy') := swapPtr this copy in
  release copy';;
  mret this'.

(** Both handles afterwards; [self]: they are the same object, which the move
    into [stolen] empties before the swap. *)
Definition moveAssign (self : bool) (this other : SharedPtr) : M Heap (SharedPtr * SharedPtr) :=
  let '(stolen, other') := movePtr other in
  let this1 := if self then other' else this in
  let '(this', stolen') := swapPtr this1 stolen in
  release stolen';;
  mret (this', if self then this' else other').

Definition reset (s : SharedPtr) : M Heap SharedPtr := release s;; mret nullPtr.

Definition resetTo (s : SharedPtr) (ptr : option nat) : M Heap SharedPtr :=
  fresh ← fromRaw ptr;
  let '(s', fresh') := swapPtr s fresh in
  release fresh';;
  mret s'.

Definition useCount (s : SharedPtr) : M Heap Z :=
  match control_ s with
  | None => mret 0%Z
  | Some c => h ← get_state; lift (deref (counts h !! c))
  end.

Definition makeShared (x : T) : M Heap SharedPtr := p ← newObject x; fromRaw (Some p).

(** [~SharedPtr] *)
Definition destroyPtr (s : SharedPtr) : M Heap unit := release s.

(** [get] and [operator->]; [operator*]; [operator bool] *)
Definition getPtr (s : SharedPtr) : option nat := ptr_ s.
Definition derefPtr (s : SharedPtr) : M Heap T :=
  h ← get_state;
  a ← lift (deref (ptr_ s));
  lift (deref (objects h !! a)).
Definition isSetPtr (s : SharedPtr) : bool := bool_decide (ptr_ s ≠ None).

(** ** Ownership *)
Definition uses (c : nat) (hs : list SharedPtr) : nat :=
  length (base.filter (λ s, control_ s = Some c) hs).

Record owned (hs : list SharedPtr) (h : Heap) : Prop := {
  ow_count : ∀ c, counts h !! c = if decide (uses c hs = 0) then None else Some (Z.of_nat (uses c hs));
  ow_handle : ∀ s, s ∈ hs → s = nullPtr ∨
    ∃ p c, s = mkSharedPtr (Some p) (Some c) ∧ is_Some (objects h !! p);
  ow_pair : ∀ s s', s ∈ hs → s' ∈ hs → s ≠ nullPtr → (control_ s = control_ s' ↔ ptr_ s = ptr_ s');
  ow_object : ∀ p, is_Some (objects h !! p) → ∃ s, s ∈ hs ∧ ptr_ s = Some p;
  ow_fresh : ∀ a, nextAddr h ≤ a → objects h !! a = None ∧ counts h !! a = None;
}.

#[export] Instance uses_proper c : Proper ((≡ₚ) ==> eq) (uses c).
Proof. intros hs hs' Hp. unfold uses. by rewrite Hp. Qed.

Lemma owned_perm hs hs' h : hs ≡ₚ hs' → owned hs h → owned hs' h.
Proof.
  intros Hp [Hc Hh Hpair Ho Hf]. split.
  - intros c. rewrite <- (uses_proper c hs hs' Hp). apply Hc.
  - intros s Hs. rewrite <- Hp in Hs. by apply Hh.
  - intros s s' Hs Hs'. rewrite <- Hp in Hs, Hs'. by apply Hpair.
  - intros p Hop. destruct (Ho p Hop) as (s & Hs & ?). exists s. by rewrite <- Hp.
  - done.
Qed.

#[export] Instance owned_proper : Proper ((≡ₚ) ==> eq ==> iff) owned.
Proof. intros hs hs' Hp h ? <-. split; apply owned_perm; [done|by symmetry]. Qed.

Lemma uses_cons c s hs : uses c (s :: hs) = (if decide (control_ s = Some c) then 1 else 0) + uses c hs.
Proof. unfold uses. rewrite filter_cons. by case_decide. Qed.

Lemma uses_elem c s hs : s ∈ hs → control_ s = Some c → uses c hs ≠ 0.
Proof.
  intros Hin Hc. unfold uses. intros Hz%nil_length_inv.
  assert (s ∈ base.filter (λ s, control_ s = Some c) hs) as Hf by (by apply list_elem_of_filter).
  rewrite Hz in Hf. by apply elem_of_nil in Hf.
Qed.

Lemma uses_zero c hs : (∀ s, s ∈ hs → control_ s ≠ Some c) → uses c hs = 0.
Proof.
  intros Hall. unfold uses. apply length_zero_iff_nil.
  induction hs as [|s hs IH]; [done|]. rewrite filter_cons_False by (apply Hall; by left).
  apply IH. intros s' Hs'. apply Hall. by right.
Qed.

Lemma uses_pos c hs : uses c hs ≠ 0 → ∃ s, s ∈ hs ∧ control_ s = Some c.
Proof.
  intros Hn. destruct (decide (Exists (λ s, control_ s = Some c) hs)) as [He|He].
  - apply Exists_exists in He as (s & ? & ?). eauto.
  - destruct Hn. apply uses_zero. intros s Hs Hc. apply He. apply Exists_exists. eauto.
Qed.

Lemma owned_empty : owned [] (mkHeap ∅ ∅ 0).
Proof.
  split; simpl.
  - intros c. by rewrite lookup_empty.
  - by intros s ?%elem_of_nil.
  - by intros s s' ?%elem_of_nil.
  - intros p [? Hp]. by rewrite lookup_empty in Hp.
  - done.
Qed.

(** Null handles do not count. *)
Lemma owned_null hs h : owned (nullPtr :: hs) h ↔ owned hs h.
Proof.
  split; intros [Hc Hh Hp Ho Hf]; (split; [done| | | |done]).
  - intros s Hs. apply Hh. by right.
  - intros s s' Hs Hs'. apply Hp; by right.
  - intros p Hop. destruct (Ho p Hop) as (s & [->|Hs]%elem_of_cons & ?); [done|by exists s].
  - intros s [->|Hs]%elem_of_cons; [by left|by apply Hh].
  - intros s s' [->|Hs]%elem_of_cons Hs' Hn; [done|].
    apply elem_of_cons in Hs' as [->|Hs']; [|by apply Hp].
    destruct (Hh s Hs) as [->|(p & c & -> & _)]; [done|]. simpl. split; congruence.
  - intros p Hop. destruct (Ho p Hop) as (s & Hs & ?). exists s. split; [by right|done].
Qed.

Lemma copyPtr_spec hs h s :
  owned hs h → s ∈ hs →
  ∃ h', copyPtr s h = Ret h' s ∧ owned (s :: hs) h' ∧ objects h' = objects h.
Proof.
  intros Hw Hs. destruct (ow_handle _ _ Hw s Hs) as [->|(p & c & -> & Hp)].
  { exists h. split; [done|]. split; [by apply owned_null|done]. }
  pose proof (uses_elem c _ _ Hs eq_refl) as Hu.
  unfold copyPtr, fetchAdd. simpl. mrun. rewrite (ow_count _ _ Hw c), decide_False by done.
  cbn [deref]. mrun. eexists. split; [done|]. split; [|done]. split; simpl.
  - intros c'. rewrite uses_cons. simpl. destruct (decide (Some c = Some c')) as [[= <-]|Hne].
    + rewrite lookup_insert_eq, decide_False by lia. f_equal. lia.
    + rewrite lookup_insert_ne by congruence. apply Hw.
  - intros s' [->|Hs']%elem_of_cons; [|by apply Hw]. right. by exists p, c.
  - intros s1 s2 H1 H2 Hn. apply (ow_pair _ _ Hw); [| |done].
    + by apply elem_of_cons in H1 as [->|].
    + by apply elem_of_cons in H2 as [->|].
  - intros p' Hp'. destruct (ow_object _ _ Hw p' Hp') as (s' & ? & ?). exists s'. split; [by right|done].
  - intros a Ha. destruct (ow_fresh _ _ Hw a Ha) as [? Hcn]. split; [done|]. rewrite lookup_insert_ne; [done|].
    intros <-. rewrite (ow_count _ _ Hw c), decide_False in Hcn; done.
Qed.

Lemma makeShared_spec hs h x :
  owned hs h →
  ∃ h' p c, makeShared x h = Ret h' (mkSharedPtr (Some p) (Some c)) ∧
    owned (mkSharedPtr (Some p) (Some c) :: hs) h' ∧ objects h !! p = None ∧
    objects h' = <[p:=x]> (objects h).
Proof.
  intros Hw. set (n := nextAddr h).
  destruct (ow_fresh _ _ Hw n (Nat.le_refl _)) as [Hno Hnc].
  destruct (ow_fresh _ _ Hw (S n) (Nat.le_succ_diag_r _)) as [Hso Hsc].
  assert (Hfresh : ∀ s, s ∈ hs → control_ s ≠ Some (S n) ∧ ptr_ s ≠ Some n).
  { intros s Hs. destruct (ow_handle _ _ Hw s Hs) as [->|(p & c & -> & Hp)]; [done|]. simpl. split.
    - intros [= ->]. pose proof (uses_elem (S n) _ _ Hs eq_refl).
      rewrite (ow_count _ _ Hw), decide_False in Hsc; done.
    - intros [= ->]. rewrite Hno in Hp. by destruct Hp. }
  exists (mkHeap (<[n:=x]> (objects h)) (<[S n:=1%Z]> (counts h)) (S (S n))), n, (S n).
  split; [done|]. split; [|done]. split; simpl.
  - intros c. rewrite uses_cons. simpl. destruct (decide (Some (S n) = Some c)) as [[= <-]|Hne].
    + rewrite lookup_insert_eq, (uses_zero (S n)) by (intros s Hs; by apply Hfresh). done.
    + rewrite lookup_insert_ne by congruence. apply Hw.
  - intros s [->|Hs]%elem_of_cons.
    + right. exists n, (S n). rewrite lookup_insert_eq. eauto.
    + destruct (ow_handle _ _ Hw s Hs) as [->|(p & c & -> & Hp)]; [by left|]. right. exists p, c.
      split; [done|]. rewrite lookup_insert_is_Some. destruct (decide (n = p)); auto.
  - intros s s' Hs Hs' Hn. apply elem_of_cons in Hs as [->|Hs]; apply elem_of_cons in Hs' as [->|Hs']; simpl.
    + done.
    + destruct (Hfresh _ Hs'). split; intros; congruence.
    + destruct (Hfresh _ Hs). split; intros; congruence.
    + by apply (ow_pair _ _ Hw).
  - intros p [<-|[_ Hp]]%lookup_insert_is_Some.
    + eexists. split; [by left|done].
    + destruct (ow_object _ _ Hw p Hp) as (s & ? & ?). exists s. split; [by right|done].
  - intros a Ha. rewrite !lookup_insert_ne by lia. apply Hw. lia.
Qed.

(** Giving up a handle frees the object exactly when it was the last one. *)
Lemma release_spec hs h p c :
  owned (mkSharedPtr (Some p) (Some c) :: hs) h →
  ∃ h', release (mkSharedPtr (Some p) (Some c)) h = Ret h' () ∧ owned hs h' ∧
    objects h' = if decide (uses c hs = 0) then delete p (objects h) else objects h.
Proof.
  intros Hw. set (s := mkSharedPtr (Some p) (Some c)) in *.
  assert (Hin : s ∈ s :: hs) by (by left).
  destruct (ow_handle _ _ Hw s Hin) as [?|(p' & c' & [= <- <-] & [x Hx])]; [done|].
  pose proof (ow_count _ _ Hw c) as Hcnt. rewrite uses_cons in Hcnt.
  rewrite (decide_True (P := control_ s = Some c)) in Hcnt by done. rewrite decide_False in Hcnt by lia.
  assert (Hother : ∀ c', c' ≠ c → counts h !! c' = if decide (uses c' hs = 0) then None else Some (Z.of_nat (uses c' hs))).
  { intros c' Hne. rewrite (ow_count _ _ Hw c'), uses_cons, (decide_False (P := control_ s = Some c')); [done|].
    simpl. congruence. }
  assert (Hpair : ∀ s1 s2, s1 ∈ hs → s2 ∈ hs → s1 ≠ nullPtr → (control_ s1 = control_ s2 ↔ ptr_ s1 = ptr_ s2)).
  { intros s1 s2 H1 H2. apply (ow_pair _ _ Hw); by right. }
  unfold release, fetchAdd. simpl. mrun. rewrite Hcnt. cbn [deref]. mrun.
  destruct (decide (uses c hs = 0)) as [Hu|Hu].
  - rewrite bool_decide_eq_true_2 by lia. unfold deleteObject, deleteControl. mrun. simpl. rewrite Hx. cbn [deref]. mrun.
    simpl. rewrite lookup_insert_eq. cbn [deref]. mrun. eexists. split; [done|]. split; [|done].
    assert (Hp : ∀ s', s' ∈ hs → ptr_ s' ≠ Some p).
    { intros s' Hs' Hptr. eapply (uses_elem c s'); [done| |done].
      symmetry. apply (ow_pair _ _ Hw s s'); [done|by right|done|done]. }
    split; simpl.
    + intros c'. destruct (decide (c' = c)) as [->|Hne].
      * by rewrite lookup_delete_eq, decide_True.
      * rewrite lookup_delete_ne, lookup_insert_ne by done. by apply Hother.
    + intros s' Hs'. destruct (ow_handle _ _ Hw s') as [->|(p1 & c1 & -> & Hp1)]; [by right|by left|].
      right. exists p1, c1. split; [done|]. rewrite lookup_delete_ne; [done|].
      intros <-. by apply (Hp _ Hs').
    + done.
    + intros p1 Hp1. rewrite lookup_delete_is_Some in Hp1. destruct Hp1 as [Hne Hp1].
      destruct (ow_object _ _ Hw p1 Hp1) as (s' & [->|Hs']%elem_of_cons & Heq); [|by exists s'].
      by injection Heq as <-.
    + intros a Ha. destruct (ow_fresh _ _ Hw a Ha) as [? ?]. rewrite !lookup_delete_None. split; [by right|].
      destruct (decide (c = a)) as [->|]; [by left|]. right. by rewrite lookup_insert_ne.
  - rewrite bool_decide_eq_false_2 by lia. mrun. eexists. split; [done|]. split; [|done].
    destruct (uses_pos _ _ Hu) as (s0 & Hs0 & Hc0). split; simpl.
    + intros c'. destruct (decide (c' = c)) as [->|Hne].
      * rewrite lookup_insert_eq, decide_False by done. f_equal. lia.
      * rewrite lookup_insert_ne by done. by apply Hother.
    + intros s' Hs'. apply (ow_handle _ _ Hw). by right.
    + done.
    + intros p1 Hp1. destruct (ow_object _ _ Hw p1 Hp1) as (s' & [->|Hs']%elem_of_cons & Heq); [|by exists s'].
      exists s0. split; [done|]. injection Heq as <-. symmetry.
      apply (ow_pair _ _ Hw s s0); [done|by right|done|done].
    + intros a Ha. destruct (ow_fresh _ _ Hw a Ha) as [? ?]. split; [done|].
      rewrite lookup_insert_ne; [done|]. congruence.
Qed.

Lemma release_any hs h s :
  owned (s :: hs) h → ∃ h', release s h = Ret h' () ∧ owned hs h'.
Proof.
  intros Hw. destruct (ow_handle _ _ Hw s) as [->|(p & c & -> & _)]; [by left| |].
  - exists h. split; [done|]. by apply owned_null.
  - destruct (release_spec hs h p c Hw) as (h' & ? & ? & _). eauto.
Qed.

(** ** Pools of handles

    A program that makes, copies, moves, assigns, resets and drops handles,
    each kept at an index of a pool. *)
Inductive handle_op :=
  | HMake (x : T)
  | HCopy (i : nat)
  | HMove (i : nat)
  | HCopyAssign (i j : nat)
  | HMoveAssign (i j : nat)
  | HReset (i : nat)
  | HResetTo (i : nat) (x : T)
  | HSwap (i j : nat).

Definition handle_call (hs : list SharedPtr) (o : handle_op) : M Heap (list SharedPtr) :=
  match o with
  | HMake x => s ← makeShared x; mret (hs ++ [s])
  | HCopy i => s ← lift (at_ hs i); s' ← copyPtr s; mret (hs ++ [s'])
  | HMove i => s ← lift (at_ hs i); let '(s', old) := movePtr s in mret (<[i:=old]> hs ++ [s'])
  | HCopyAssign i j =>
    this ← lift (at_ hs i); other ← lift (at_ hs j); this' ← copyAssign this other; mret (<[i:=this']> hs)
  | HMoveAssign i j =>
    this ← lift (at_ hs i); other ← lift (at_ hs j);
    '(this', other') ← moveAssign (bool_decide (i = j)) this other;
    mret (<[i:=this']> (<[j:=other']> hs))
  | HReset i => s ← lift (at_ hs i); s' ← reset s; mret (<[i:=s']> hs)
  | HResetTo i x =>
    s ← lift (at_ hs i); p ← newObject x; s' ← resetTo s (Some p); mret (<[i:=s']> hs)
  | HSwap i j =>
    a ← lift (at_ hs i); b ← lift (at_ hs j);
    let '(a', b') := swapPtr a b in mret (<[j:=b']> (<[i:=a']> hs))
  end.

(** The call names handles of the pool. *)
Definition in_pool (n : nat) (o : handle_op) : Prop :=
  match o with
  | HMake _ => True
  | HCopy i | HMove i | HReset i | HResetTo i _ => i < n
  | HCopyAssign i j | HMoveAssign i j | HSwap i j => i < n ∧ j < n
  end.

Lemma insert_perm (hs : list SharedPtr) i s s' :
  hs !! i = Some s → ∃ r, hs ≡ₚ s :: r ∧ <[i:=s']> hs ≡ₚ s' :: r.
Proof.
  intros (l1 & l2 & -> & ->)%list_elem_of_split_length. exists (l1 ++ l2).
  rewrite insert_app_r_alt, Nat.sub_diag by lia. simpl. by rewrite !Permutation_middle.
Qed.

Lemma swap_perm (hs : list SharedPtr) i j s s' :
  hs !! i = Some s → hs !! j = Some s' → <[j:=s]> (<[i:=s']> hs) ≡ₚ hs.
Proof.
  intros Hi Hj. destruct (decide (i = j)) as [->|Hne].
  { assert (s = s') as -> by congruence. by rewrite !list_insert_id; rewrite ?list_insert_id. }
  destruct (insert_perm hs i s s' Hi) as (r & Hp & Hp').
  destruct (insert_perm (<[i:=s']> hs) j s' s) as (r' & Hq & ->); [by rewrite list_lookup_insert_ne|].
  rewrite Hp. rewrite Hp' in Hq. apply Permutation_cons_inv in Hq. by rewrite Hq.
Qed.

(** A handle replaced by another that has been counted. *)
Lemma owned_replace hs h i s s' :
  hs !! i = Some s → owned (s' :: hs) h → ∃ h', release s h = Ret h' () ∧ owned (<[i:=s']> hs) h'.
Proof.
  intros Hi Hw. destruct (insert_perm hs i s s' Hi) as (r & Hp & Hp').
  rewrite Hp, Permutation_swap in Hw. destruct (release_any _ _ _ Hw) as (h' & Hr & Hw').
  exists h'. split; [done|]. by rewrite Hp'.
Qed.

Lemma moveAssign_spec hs h i j this other :
  i ≠ j → hs !! i = Some this → hs !! j = Some other → owned hs h →
  ∃ h', moveAssign false this other h = Ret h' (other, nullPtr) ∧
    owned (<[i:=other]> (<[j:=nullPtr]> hs)) h'.
Proof.
  intros Hne Hi Hj Hw. unfold moveAssign. simpl.
  destruct (insert_perm hs j other nullPtr Hj) as (r & Hp & Hp').
  rewrite Hp in Hw.
  destruct (owned_replace (<[j:=nullPtr]> hs) h i this other) as (h' & Hr & Hw').
  - by rewrite list_lookup_insert_ne.
  - rewrite Hp'. rewrite Permutation_swap. by apply owned_null.
  - erewrite M_bind_run by done. by exists h'.
Qed.

Lemma handle_call_spec hs h o :
  owned hs h → in_pool (length hs) o →
  ∃ h' hs', handle_call hs o h = Ret h' hs' ∧ owned hs' h' ∧
    length hs' = length hs + match o with HMake _ | HCopy _ | HMove _ => 1 | _ => 0 end.
Proof.
  intros Hw Hin.
  assert (Hat : ∀ i, i < length hs → ∃ s, hs !! i = Some s ∧ at_ hs i = Val s).
  { intros i (s & ? & ?)%at_lt. eauto. }
  destruct o as [x|i|i|i j|i j|i|i x|i j]; simpl in Hin; unfold handle_call.
  - destruct (makeShared_spec hs h x Hw) as (h' & p & c & Heq & Hw' & _).
    erewrite M_bind_run by done. mrun. eexists _, _. split; [done|]. rewrite length_app.
    split; [|done]. by rewrite <- Permutation_cons_append.
  - destruct (Hat i Hin) as (s & Hs & ->). mrun.
    destruct (copyPtr_spec hs h s Hw) as (h' & Heq & Hw' & _); [by eapply list_elem_of_lookup_2|].
    erewrite M_bind_run by done. mrun. eexists _, _. split; [done|]. rewrite length_app.
    split; [|done]. by rewrite <- Permutation_cons_append.
  - destruct (Hat i Hin) as (s & Hs & ->). mrun. simpl. mrun. eexists _, _. split; [done|].
    rewrite length_app, length_insert. split; [|done]. rewrite <- Permutation_cons_append.
    destruct (insert_perm hs i s nullPtr Hs) as (r & Hp & ->). rewrite Hp in Hw.
    rewrite Permutation_swap. by apply owned_null.
  - destruct Hin as [Hi Hj]. destruct (Hat i Hi) as (s & Hs & ->). destruct (Hat j Hj) as (s' & Hs' & ->). mrun.
    destruct (copyPtr_spec hs h s' Hw) as (h1 & Heq & Hw1 & _); [by eapply list_elem_of_lookup_2|].
    destruct (owned_replace hs h1 i s s' Hs Hw1) as (h2 & Hr & Hw2).
    unfold copyAssign. mrun. erewrite M_bind_run by done. simpl. mrun. erewrite M_bind_run by done. mrun.
    eexists _, _. split; [done|]. by rewrite length_insert, Nat.add_0_r.
  - destruct Hin as [Hi Hj]. destruct (Hat i Hi) as (s & Hs & ->). destruct (Hat j Hj) as (s' & Hs' & ->). mrun.
    case_bool_decide as Hij.
    + subst j. unfold moveAssign. simpl. mrun. eexists _, _. split; [done|].
      rewrite !length_insert, Nat.add_0_r. split; [|done]. rewrite list_insert_insert_eq, list_insert_id; done.
    + destruct (moveAssign_spec hs h i j s s' Hij Hs Hs' Hw) as (h' & Heq & Hw').
      erewrite M_bind_run by done. cbn iota beta. mrun. eexists _, _. split; [done|].
      by rewrite !length_insert, Nat.add_0_r.
  - destruct (Hat i Hin) as (s & Hs & ->). unfold reset. mrun.
    destruct (owned_replace hs h i s nullPtr Hs) as (h' & Hr & Hw'); [by apply owned_null|].
    erewrite M_bind_run by done. mrun. eexists _, _. split; [done|]. by rewrite length_insert, Nat.add_0_r.
  - destruct (Hat i Hin) as (s & Hs & ->). mrun.
    destruct (makeShared_spec hs h x Hw) as (h1 & p & c & Heq & Hw1 & _).
    destruct (owned_replace hs h1 i s _ Hs Hw1) as (h2 & Hr & Hw2).
    assert (∃ h0, newObject x h = Ret h0 p ∧ fromRaw (Some p) h0 = Ret h1 (mkSharedPtr (Some p) (Some c))) as (h0 & Hn & Hf).
    { unfold makeShared in Heq. revert Heq. unfold newObject. mrun. intros Heq. pose proof Heq as Heq'.
      unfold fromRaw, newControl in Heq'. revert Heq'. mrun. intros [= _ <- _]. eexists. split; [done|]. exact Heq. }
    erewrite M_bind_run by done. unfold resetTo. mrun. erewrite M_bind_run by done. simpl. mrun.
    erewrite M_bind_run by done. mrun. eexists _, _. split; [done|]. by rewrite length_insert, Nat.add_0_r.
  - destruct Hin as [Hi Hj]. destruct (Hat i Hi) as (s & Hs & ->). destruct (Hat j Hj) as (s' & Hs' & ->). mrun.
    simpl. mrun. eexists _, _. split; [done|]. rewrite !length_insert, Nat.add_0_r. split; [|done].
    by rewrite swap_perm.
Qed.

(** With no handle left nothing is allocated. *)
Lemma owned_nothing hs h : owned hs h → Forall (eq nullPtr) hs → objects h = ∅ ∧ counts h = ∅.
Proof.
  intros Hw Hn. rewrite Forall_forall in Hn. split; apply map_eq; intros a; rewrite lookup_empty.
  - destruct (objects h !! a) eqn:Ha; [|done]. destruct (ow_object _ _ Hw a) as (s & Hs & Hp); [by eexists|].
    apply Hn in Hs. by subst.
  - rewrite (ow_count _ _ Hw), decide_True; [done|]. apply uses_zero. intros s Hs%Hn. by subst.
Qed.
End SharedPtr.

Arguments Heap : clear implicits.
