(* ===== verification/SharedPtrMain.v ===== *)
(** * SharedPtr: main theorem *)

From S2P Require Import Prelude SharedPtr.

Section History.
Context {T : Type}.

(** The pool after each call; a program starts without handles. *)
Fixpoint pool_run (hs : list SharedPtr) (ops : list (handle_op (T := T))) : M (Heap T) (list SharedPtr) :=
  match ops with
  | [] => mret hs
  | o :: ops' => hs' ← handle_call hs o; pool_run hs' ops'
  end.

Definition grows (o : handle_op (T := T)) : nat :=
  match o with HMake _ | HCopy _ | HMove _ => 1 | _ => 0 end.

(** Every call names handles that exist. *)
Fixpoint pool_ok (n : nat) (ops : list (handle_op (T := T))) : Prop :=
  match ops with
  | [] => True
  | o :: ops' => in_pool n o ∧ pool_ok (n + grows o) ops'
  end.

Lemma pool_run_spec hs h ops :
  owned hs h → pool_ok (length hs) ops → ∃ h' hs', pool_run hs ops h = Ret h' hs' ∧ owned hs' h'.
Proof.
  revert hs h. induction ops as [|o ops IH]; intros hs h Hw Hok; [by exists h, hs|]. destruct Hok as [Ho Hok].
  cbn [pool_run]. destruct (handle_call_spec hs h o Hw Ho) as (h1 & hs1 & Hrun & Hw1 & Hlen).
  erewrite M_bind_run by done. apply IH; [done|]. by rewrite Hlen.
Qed.

Lemma release_all hs h : owned hs h → ∃ h' : Heap T, forM hs destroyPtr h = Ret h' () ∧ owned [] h'.
Proof.
  revert h. induction hs as [|s hs IH]; intros h Hw; [by exists h|]. cbn [forM].
  destruct (release_any hs h s Hw) as (h1 & Hrun & Hw1). erewrite M_bind_run by done. by apply IH.
Qed.

Lemma handle_deref hs h s :
  owned hs h → s ∈ hs → isSetPtr s = true → ∃ a (x : T), getPtr s = Some a ∧ objects h !! a = Some x ∧ derefPtr s h = Ret h x.
Proof.
  intros Hw Hs Hset%bool_decide_eq_true. destruct (ow_handle _ _ Hw s Hs) as [->|(a & c & -> & x & Hx)]; [done|].
  exists a, x. split_and!; [done|done|]. unfold derefPtr. mrun. simpl. mrun. by rewrite Hx.
Qed.

(** C13: Any program that makes, copies, moves, swaps, assigns (to itself too) and resets
    shared handles runs without touching freed memory or freeing twice; at every
    end the count of each control block is the number of handles on it and every
    object that is alive has one, and a handle that tests true can be
    dereferenced; when the remaining handles are destroyed nothing is left
    allocated. *)
Theorem shared_ptr_history (ops : list (handle_op (T := T))) :
  pool_ok 0 ops →
  ∃ h hs h', pool_run [] ops (mkHeap ∅ ∅ 0) = Ret h hs ∧ owned hs h ∧
    (∀ s c, s ∈ hs → control_ s = Some c → useCount s h = Ret h (Z.of_nat (uses c hs))) ∧
    (∀ s, s ∈ hs → isSetPtr s = true → ∃ a x, getPtr s = Some a ∧ objects h !! a = Some x ∧ derefPtr s h = Ret h x) ∧
    forM hs destroyPtr h = Ret h' () ∧ objects h' = ∅ ∧ counts h' = ∅.
Proof.
  intros Hok. destruct (pool_run_spec [] (mkHeap ∅ ∅ 0) ops owned_empty Hok) as (h & hs & Hrun & Hw).
  destruct (release_all hs h Hw) as (h' & Hrel & Hw'). exists h, hs, h'. split; [done|]. split; [done|].
  split; [|split; [intros s; by apply handle_deref|split; [done|by apply (owned_nothing [])]]].
  intros s c Hs Hc. unfold useCount. rewrite Hc. mrun. rewrite (ow_count _ _ Hw c), decide_False; [by mrun|].
  by apply (uses_elem c s).
Qed.
End History.

Definition demo_pool : list (handle_op (T := nat)) :=
  [HMake 5; HCopy 0; HMove 1; HCopyAssign 0 0; HMoveAssign 2 2; HMake 6; HMoveAssign 0 3; HReset 2; HResetTo 1 9; HSwap 0 1].

Lemma shared_ptr_history_witness :
  ∃ h hs h', pool_run [] demo_pool (mkHeap ∅ ∅ 0) = Ret h hs ∧ owned hs h ∧
    (∀ s c, s ∈ hs → control_ s = Some c → useCount s h = Ret h (Z.of_nat (uses c hs))) ∧
    (∀ s, s ∈ hs → isSetPtr s = true → ∃ a x, getPtr s = Some a ∧ objects h !! a = Some x ∧ derefPtr s h = Ret h x) ∧
    forM hs destroyPtr h = Ret h' () ∧ objects h' = ∅ ∧ counts h' = ∅.
Proof. apply (shared_ptr_history demo_pool). repeat split; simpl; lia. Defined.
