(* ===== verification/SharedPtrThreads.v ===== *)
(** * Reference counts of many threads (include/memory/SharedPtr.hpp)

    [SharedPtr] access by access, with the memory orders of the code: copies count
    with a relaxed [fetch_add], [release] with an [acq_rel] [fetch_sub], and the
    thread that takes the count to zero deletes the object and then the control
    block, while others go on.  A handle belongs to a thread; that a thread may
    copy or take over the handle of another one they have to see to (a lock, a
    queue), which makes the one know what the other knew.  A control block and
    its object have one number here. *)

From S2P Require Import Prelude HappensBefore.

(** One occurrence less. *)
Fixpoint takeOut {A} `{EqDecision A} (x : A) (l : list A) : option (list A) :=
  match l with
  | [] => None
  | y :: l' => if decide (x = y) then Some l' else (y ::.) <$> takeOut x l'
  end.

Lemma takeOut_Some {A} `{EqDecision A} (x : A) l k : takeOut x l = Some k → l ≡ₚ x :: k.
Proof.
  revert k. induction l as [|y l IH]; intros k; simpl; [done|]. case_decide; [by intros [= <-]; subst|].
  intros (k' & Hk & ->)%fmap_Some_1. rewrite (IH k' Hk) at 1. apply Permutation_swap.
Qed.

Lemma takeOut_elem {A} `{EqDecision A} (x : A) l : x ∈ l → ∃ k, takeOut x l = Some k.
Proof.
  induction l as [|y l IH]; simpl; [by intros ?%not_elem_of_nil|]. intros [->|Hin]%elem_of_cons; [rewrite decide_True by done; eauto|].
  case_decide; [eauto|]. destruct (IH Hin) as [k ->]. simpl. eauto.
Qed.

(** The storage of an object, and the atomic count.  A use of the object reads its
    storage, so to say, which its creation and its deletion write. *)
Inductive cell := CObject (c : nat) | CControl (c : nat).

#[global] Instance cell_eq_dec : EqDecision cell.
Proof. solve_decision. Defined.

Definition number (l : cell) : nat := match l with CObject c | CControl c => c end.

Record block := mkBlock {
  strong : Z;
  view : gset nat;              (* what is published with the count *)
  changes : list (Z * nat);     (* its values, the latest first, with their accesses *)
}.

Record world := mkWorld {
  blocks : gmap nat block;
  objects : gset nat;
  handles : list (nat * nat);     (* thread and number *)
  deleting : list (nat * cell);   (* in [release], behind the last [fetch_sub] *)
  knows : gmap nat (gset nat);
  log : list (event cell);
  nextNumber : nat;
}.

Definition newWorld : world := mkWorld ∅ ∅ [] [] ∅ [] 0.

Definition knowledge (w : world) (u : nat) : gset nat := default ∅ (knows w !! u).

(** A synchronization of the threads' own: [u] gets to know what [o] knows. *)
Definition syncFrom (o u : nat) (w : world) : world :=
  mkWorld (blocks w) (objects w) (handles w) (deleting w)
    (<[u:=knowledge w o ∪ knowledge w u]> (knows w)) (log w) (nextNumber w).

(** [makeShared]: [new T], [new ControlBlock{}] *)
Definition makeShared (u : nat) (w : world) : world :=
  let c := nextNumber w in
  let '(log1, K1) := perform (CObject c) NaWrite (knowledge w u) (log w) in
  let '(log2, K2) := perform (CControl c) NaWrite K1 log1 in
  mkWorld (<[c:=mkBlock 1 ∅ [(1%Z, length log1)]]> (blocks w)) ({[c]} ∪ objects w) ((u, c) :: handles w) (deleting w)
    (<[u:=K2]> (knows w)) log2 (S c).

(** [*p], [p->...] *)
Definition useObject (u c : nat) (w : world) : result world :=
  if decide (c ∈ objects w) then
    let '(log', K') := perform (CObject c) NaRead (knowledge w u) (log w) in
    Val (mkWorld (blocks w) (objects w) (handles w) (deleting w) (<[u:=K']> (knows w)) log' (nextNumber w))
  else Undef.

(** The copy constructor, in thread [u] on a handle of [o]. *)
Definition copyHandle (o u c : nat) (w0 : world) : result world :=
  let w := syncFrom o u w0 in
  b ← deref (blocks w !! c);
  let '(log', K', view') := rmw Relaxed (CControl c) (view b) (knowledge w u) (log w) in
  let strong' := (strong b + 1)%Z in
  Val (mkWorld (<[c:=mkBlock strong' view' ((strong', length (log w)) :: changes b)]> (blocks w)) (objects w)
    ((u, c) :: handles w) (deleting w) (<[u:=K']> (knows w)) log' (nextNumber w)).

(** The move constructor. *)
Definition moveHandle (o u c : nat) (w0 : world) : result world :=
  let w := syncFrom o u w0 in
  hs ← deref (takeOut (o, c) (handles w));
  Val (mkWorld (blocks w) (objects w) ((u, c) :: hs) (deleting w) (knows w) (log w) (nextNumber w)).

(** [release], the [fetch_sub] *)
Definition release (u c : nat) (w : world) : result world :=
  hs ← deref (takeOut (u, c) (handles w));
  b ← deref (blocks w !! c);
  let '(log', K', view') := rmw AcqRel (CControl c) (view b) (knowledge w u) (log w) in
  let strong' := (strong b - 1)%Z in
  Val (mkWorld (<[c:=mkBlock strong' view' ((strong', length (log w)) :: changes b)]> (blocks w)) (objects w)
    hs (if bool_decide (strong b = 1%Z) then (u, CObject c) :: deleting w else deleting w)
    (<[u:=K']> (knows w)) log' (nextNumber w)).

(** [delete ptr_], then [delete control_] *)
Definition deleteCell (u : nat) (l : cell) (w : world) : result world :=
  ds ← deref (takeOut (u, l) (deleting w));
  let '(log', K') := perform l NaWrite (knowledge w u) (log w) in
  match l with
  | CObject c =>
    if decide (c ∈ objects w) then
      Val (mkWorld (blocks w) (objects w ∖ {[c]}) (handles w) ((u, CControl c) :: ds) (<[u:=K']> (knows w)) log' (nextNumber w))
    else Undef
  | CControl c =>
    _ ← deref (blocks w !! c);
    Val (mkWorld (delete c (blocks w)) (objects w) (handles w) ds (<[u:=K']> (knows w)) log' (nextNumber w))
  end.

(** [useCount]: a relaxed load may read an old value, as long as the thread knows
    of no newer one. *)
Definition readable (b : block) (K : gset nat) (v : Z) : Prop :=
  ∃ newer e older, changes b = newer ++ (v, e) :: older ∧ Forall (λ x, x.2 ∉ K) newer.

Definition useCount (u c : nat) (w : world) : result world :=
  b ← deref (blocks w !! c);
  let '(log', K') := load Relaxed (CControl c) (view b) (knowledge w u) (log w) in
  Val (mkWorld (blocks w) (objects w) (handles w) (deleting w) (<[u:=K']> (knows w)) log' (nextNumber w)).

Inductive wstep : world → world → Prop :=
  | w_sync o u w : wstep w (syncFrom o u w)
  | w_make u w : wstep w (makeShared u w)
  | w_use u c w w' : (u, c) ∈ handles w → useObject u c w = Val w' → wstep w w'
  | w_copy o u c w w' : (o, c) ∈ handles w → copyHandle o u c w = Val w' → wstep w w'
  | w_move o u c w w' : (o, c) ∈ handles w → moveHandle o u c w = Val w' → wstep w w'
  | w_release u c w w' : (u, c) ∈ handles w → release u c w = Val w' → wstep w w'
  | w_delete u l w w' : (u, l) ∈ deleting w → deleteCell u l w = Val w' → wstep w w'
  | w_count u c w w' : (u, c) ∈ handles w → useCount u c w = Val w' → wstep w w'.

(** ** Counting *)
Definition refs (c : nat) (hs : list (nat * nat)) : nat := length (filter (λ h, h.2 = c) hs).

#[global] Instance refs_perm c : Proper ((≡ₚ) ==> eq) (refs c).
Proof. intros hs hs' Hp. unfold refs. by rewrite Hp. Qed.

Lemma refs_cons c u d hs : refs c ((u, d) :: hs) = (if decide (d = c) then 1 else 0) + refs c hs.
Proof. unfold refs. rewrite filter_cons. simpl. by case_decide. Qed.

Lemma refs_pos c hs : 0 < refs c hs ↔ ∃ u, (u, c) ∈ hs.
Proof.
  unfold refs. split.
  - intros H. destruct (filter _ hs) as [|[u d] r] eqn:E; [simpl in H; lia|].
    assert (Hin : (u, d) ∈ filter (λ h, h.2 = c) hs) by (rewrite E; by left).
    apply list_elem_of_filter in Hin as [Hd Hin]. simpl in Hd. subst. by exists u.
  - intros [u Hu]. assert (Hin : (u, c) ∈ filter (λ h, h.2 = c) hs) by (by apply list_elem_of_filter).
    destruct (filter _ hs); [by apply not_elem_of_nil in Hin|simpl; lia].
Qed.

(** ** The invariant *)
Definition holds (w : world) (u c : nat) : Prop := (u, c) ∈ handles w ∨ ∃ l, (u, l) ∈ deleting w ∧ number l = c.

(** Who owns what. *)
Record owned (w : world) : Prop := {
  o_next : ∀ c, (c ∈ objects w ∨ is_Some (blocks w !! c) ∨ 0 < refs c (handles w)) → c < nextNumber w;
  o_count : ∀ c b, blocks w !! c = Some b → strong b = Z.of_nat (refs c (handles w));
  o_object : ∀ c, c ∈ objects w ↔ 0 < refs c (handles w) ∨ ∃ u, (u, CObject c) ∈ deleting w;
  o_block : ∀ c, is_Some (blocks w !! c) ↔ ∃ u, holds w u c;
  o_once : NoDup (number ∘ snd <$> deleting w);
  o_last : ∀ u l, (u, l) ∈ deleting w → refs (number l) (handles w) = 0;
  o_values : ∀ c b, blocks w !! c = Some b → 0 < refs c (handles w) →
    (∃ e r, changes b = (strong b, e) :: r) ∧ Forall (λ x, 1 ≤ x.1)%Z (changes b);
}.

(** Who knows what: who holds an object knows of its creation; all accesses to it
    and to its count are known to someone who holds it, or published with the
    count; and who deletes it knows of all. *)
Definition at_ (c : nat) (e : event cell) : Prop := number (e_loc e) = c.
Definition written (c : nat) (e : event cell) : Prop := at_ c e ∧ e_access e = NaWrite.

Record informed (w : world) : Prop := {
  k_race : race_free (log w);
  k_next : ∀ i e, log w !! i = Some e → number (e_loc e) < nextNumber w;
  k_kind : ∀ i e, log w !! i = Some e →
    match e_loc e with CObject _ => isAtomic (e_access e) = false | CControl _ => e_access e ≠ NaRead end;
  k_holder : ∀ u c, holds w u c → known (log w) (written c) (knowledge w u);
  k_all : ∀ c i e b, blocks w !! c = Some b → log w !! i = Some e → at_ c e →
    i ∈ view b ∨ ∃ u, holds w u c ∧ i ∈ knowledge w u;
  k_last : ∀ u l, (u, l) ∈ deleting w → known (log w) (at_ (number l)) (knowledge w u);
}.

Lemma knowledge_insert w u K v bs os hs ds lg n :
  knowledge (mkWorld bs os hs ds (<[u:=K]> (knows w)) lg n) v = if decide (u = v) then K else knowledge w v.
Proof. unfold knowledge. simpl. case_decide as E; [subst; by rewrite lookup_insert_eq|by rewrite lookup_insert_ne]. Qed.

(** One access of thread [u] to [l]. *)
Lemma informed_event w w' u l a K :
  informed w → log w' = log w ++ [mkEvent l a K] → knows w' = <[u:={[length (log w)]} ∪ K]> (knows w) →
  knowledge w u ⊆ K → nextNumber w ≤ nextNumber w' → number l < nextNumber w' →
  match l with CObject _ => isAtomic a = false | CControl _ => a ≠ NaRead end →
  known (log w) (λ e, e_loc e = l ∧ conflict (e_access e) a = true) K →
  (∀ v c, c ≠ number l → holds w' v c ↔ holds w v c) →
  (∀ v, holds w' v (number l) → holds w v (number l) ∨ v = u) →
  (holds w' u (number l) → known (log w) (written (number l)) K) →
  (a = NaWrite → ∀ v, holds w' v (number l) → v = u) →
  (∀ c b, c ≠ number l → blocks w' !! c = Some b → blocks w !! c = Some b) →
  (∀ b, blocks w' !! number l = Some b →
    (length (log w) ∈ view b ∨ holds w' u (number l)) ∧
    ∀ i e, log w !! i = Some e → at_ (number l) e → i ∈ view b ∨ ∃ v, holds w' v (number l) ∧ i ∈ knowledge w' v) →
  (∀ v l', (v, l') ∈ deleting w' → if decide (number l' = number l) then v = u ∧ known (log w) (at_ (number l)) K else (v, l') ∈ deleting w) →
  informed w'.
Proof.
  intros H Hlog Hkn HK Hn Hl Hkind Hc Hother Hhold Hnew Hna Hbl Hall Hdel.
  assert (HKu : ∀ v, knowledge w' v = if decide (u = v) then {[length (log w)]} ∪ K else knowledge w v).
  { intros v. unfold knowledge. rewrite Hkn. case_decide as E; [subst; by rewrite lookup_insert_eq|by rewrite lookup_insert_ne]. }
  assert (Hmono : ∀ v, knowledge w v ⊆ knowledge w' v).
  { intros v. rewrite HKu. case_decide; [subst; set_solver|done]. }
  split; rewrite ?Hlog.
  - by apply race_free_snoc; [apply (k_race _ H)|].
  - intros i e [Hi|[_ Hi]]%lookup_app_Some; [apply (k_next _ H) in Hi; lia|]. by apply list_lookup_singleton_Some in Hi as [_ <-].
  - intros i e [Hi|[_ Hi]]%lookup_app_Some; [by eapply (k_kind _ H)|]. by apply list_lookup_singleton_Some in Hi as [_ <-].
  - intros v c Hv. destruct (decide (c = number l)) as [->|Hne].
    + apply known_snoc.
      * destruct (decide (u = v)) as [<-|Huv].
        -- apply known_mono with (written (number l)) K; [by apply Hnew|done|]. rewrite HKu, decide_True by done. set_solver.
        -- destruct (Hhold _ Hv) as [Hv'|]; [|by subst]. eapply known_mono; [by apply (k_holder _ H)|done|apply Hmono].
      * intros [_ Ha]. rewrite (Hna Ha _ Hv), HKu, decide_True by done. set_solver.
    + apply Hother in Hv; [|done]. apply known_snoc; [eapply known_mono; [by apply (k_holder _ H)|done|apply Hmono]|].
      intros [Hat _]. by destruct Hne.
  - intros c i e b Hb Hi Hat. destruct (decide (c = number l)) as [->|Hne].
    + destruct (Hall b Hb) as [Hid Hold]. apply lookup_app_Some in Hi as [Hi|[Hge Hi]]; [by eapply Hold|].
      apply list_lookup_singleton_Some in Hi as [Hi _]. assert (i = length (log w)) as -> by lia.
      destruct Hid as [?|Hu]; [by left|right]. exists u. split; [done|]. rewrite HKu, decide_True by done. set_solver.
    + apply lookup_app_Some in Hi as [Hi|[_ Hi]].
      2: { apply list_lookup_singleton_Some in Hi as [_ <-]. by destruct Hne. }
      destruct (k_all _ H c i e b (Hbl _ _ Hne Hb) Hi Hat) as [?|(v & Hv & ?)]; [by left|right]. exists v.
      split; [by apply Hother|by apply Hmono].
  - intros v l' Hv. pose proof (Hdel _ _ Hv) as Hd. case_decide as E.
    + destruct Hd as [-> Hd]. rewrite E. apply known_snoc; [eapply known_mono; [done|done|]|intros _]; rewrite HKu, decide_True by done; set_solver.
    + apply known_snoc; [eapply known_mono; [by apply (k_last _ H)|done|apply Hmono]|]. intros Hat. by destruct E.
Qed.

(** ** Owning is kept *)
Lemma held_refs w u c : (u, c) ∈ handles w → 0 < refs c (handles w).
Proof. intros H. apply refs_pos. eauto. Qed.

Lemma held_object w u c : owned w → (u, c) ∈ handles w → c ∈ objects w.
Proof. intros H Hu. apply (o_object _ H). left. by eapply held_refs. Qed.

Lemma held_block w u c : owned w → holds w u c → ∃ b, blocks w !! c = Some b.
Proof. intros H Hu. apply (o_block _ H). eauto. Qed.

Lemma held_alive w u c v l : owned w → (u, c) ∈ handles w → (v, l) ∈ deleting w → number l ≠ c.
Proof. intros H Hu Hv <-. pose proof (held_refs _ _ _ Hu). pose proof (o_last _ H _ _ Hv) as Hz. lia. Qed.

Lemma owned_sync o u w : owned w → owned (syncFrom o u w).
Proof. intros [H1 H2 H3 H4 H5 H6 H7]. by split. Qed.

Lemma fresh_unused w : owned w → blocks w !! nextNumber w = None ∧ refs (nextNumber w) (handles w) = 0 ∧
  nextNumber w ∉ objects w ∧ ∀ u l, (u, l) ∈ deleting w → number l ≠ nextNumber w.
Proof.
  intros H. assert (Hb : blocks w !! nextNumber w = None).
  { apply eq_None_not_Some. intros Hb. specialize (o_next _ H (nextNumber w)). naive_solver lia. }
  split_and!; [done| | |].
  - destruct (refs _ _) eqn:E; [done|]. specialize (o_next _ H (nextNumber w)). rewrite E. intros Hx. assert (nextNumber w < nextNumber w) by (apply Hx; right; right; lia). lia.
  - intros Ho. specialize (o_next _ H (nextNumber w)). naive_solver lia.
  - intros u l Hu Hl. assert (is_Some (blocks w !! nextNumber w)) as [? ?]; [|congruence]. apply (o_block _ H). exists u. right. eauto.
Qed.

Lemma owned_make u w : owned w → owned (makeShared u w).
Proof.
  intros H. destruct (fresh_unused w H) as (Hb & Hr & Ho & Hd). unfold makeShared, perform. set (c := nextNumber w) in *. split; simpl.
  - intros d. rewrite elem_of_union, elem_of_singleton, lookup_insert_is_Some', refs_cons. pose proof (o_next _ H d).
    fold c in H0. case_decide; [lia|]. intros [[->|?]|[[?|?]|?]]; try lia; assert (d < c) by (apply H0; naive_solver); lia.
  - intros d b. rewrite refs_cons. intros [[<- <-]|[Hne Hd']]%lookup_insert_Some; [rewrite decide_True, Hr by done; done|].
    rewrite decide_False by done. by apply (o_count _ H).
  - intros d. rewrite elem_of_union, elem_of_singleton, refs_cons, (o_object _ H). case_decide; [naive_solver lia|]. naive_solver lia.
  - intros d. rewrite lookup_insert_is_Some', (o_block _ H). unfold holds. simpl. setoid_rewrite elem_of_cons. naive_solver.
  - apply (o_once _ H).
  - intros v l Hv. rewrite refs_cons. rewrite decide_False by (intros E; by apply (Hd _ _ Hv)). by apply (o_last _ H _ _ Hv).
  - intros d b [[<- <-]|[Hne Hd']]%lookup_insert_Some.
    + intros _. split; [by eexists _, _|]. repeat constructor; simpl; lia.
    + rewrite refs_cons, decide_False by done. by apply (o_values _ H).
Qed.

(** Only the log and the knowledge change. *)
Lemma owned_log w kn lg : owned w → owned (mkWorld (blocks w) (objects w) (handles w) (deleting w) kn lg (nextNumber w)).
Proof. intros [H1 H2 H3 H4 H5 H6 H7]. by split. Qed.

Lemma owned_copy o u c w w' : owned w → (o, c) ∈ handles w → copyHandle o u c w = Val w' → owned w'.
Proof.
  intros H Ho. pose proof (held_refs _ _ _ Ho) as Hr. destruct (held_block w o c H (or_introl Ho)) as [b Hb].
  unfold copyHandle, rmw, perform. simpl. rewrite Hb. simpl. intros [= <-].
  destruct (o_values _ H c b Hb Hr) as ((e & r & Hch) & Hpos). pose proof (o_count _ H c b Hb) as Hcount. split; simpl.
  - intros d. rewrite lookup_insert_is_Some', refs_cons. pose proof (o_next _ H d) as Hn. case_decide; [subst|naive_solver lia].
    intros _. apply (o_next _ H). eauto.
  - intros d b' [[<- <-]|[Hne Hd]]%lookup_insert_Some; rewrite refs_cons; [rewrite decide_True by done; simpl; lia|].
    rewrite decide_False by done. by apply (o_count _ H).
  - intros d. rewrite refs_cons, (o_object _ H). case_decide; [subst; naive_solver lia|done].
  - intros d. rewrite lookup_insert_is_Some', (o_block _ H). unfold holds. simpl. setoid_rewrite elem_of_cons. split.
    + intros [->|(v & Hv)]; [exists u; naive_solver|exists v; naive_solver].
    + intros (v & [[[= -> ->]|Hv]|Hv]); [by left|right; exists v; by left|right; exists v; by right].
  - apply (o_once _ H).
  - intros v l Hv. rewrite refs_cons. rewrite decide_False; [by apply (o_last _ H _ _ Hv)|]. intros E. by eapply (held_alive w o c v l).
  - intros d b' [[<- <-]|[Hne Hd]]%lookup_insert_Some.
    + intros _. simpl. split; [by eexists _, _|]. constructor; [simpl; lia|done].
    + rewrite refs_cons, decide_False by done. by apply (o_values _ H).
Qed.

Lemma owned_move o u c w w' : owned w → (o, c) ∈ handles w → moveHandle o u c w = Val w' → owned w'.
Proof.
  intros H Ho. destruct (takeOut_elem _ _ Ho) as [hs Hhs]. unfold moveHandle. simpl. rewrite Hhs. simpl. intros [= <-].
  apply takeOut_Some in Hhs. assert (Hr : ∀ d, refs d ((u, c) :: hs) = refs d (handles w)) by (intros d; by rewrite Hhs, !refs_cons).
  assert (Hh : ∀ d, (∃ v, (v, d) ∈ (u, c) :: hs) ↔ ∃ v, (v, d) ∈ handles w) by (intros d; by rewrite <- !refs_pos, Hr).
  split; simpl; try setoid_rewrite Hr; try apply H.
  intros d. rewrite (o_block _ H). unfold holds. simpl. pose proof (Hh d) as Hd. clear -Hd. naive_solver.
Qed.

Lemma owned_release u c w w' : owned w → (u, c) ∈ handles w → release u c w = Val w' → owned w'.
Proof.
  intros H Hu. pose proof (held_refs _ _ _ Hu) as Hpos. destruct (held_block w u c H (or_introl Hu)) as [b Hb].
  destruct (takeOut_elem _ _ Hu) as [hs Hhs]. unfold release, rmw, perform. simpl. rewrite Hhs, Hb. simpl. intros [= <-].
  apply takeOut_Some in Hhs. pose proof (o_count _ H c b Hb) as Hcount. destruct (o_values _ H c b Hb Hpos) as (_ & Hval).
  assert (Hr : ∀ d, refs d (handles w) = (if decide (c = d) then 1 else 0) + refs d hs) by (intros d; by rewrite Hhs, refs_cons).
  assert (Hdel : ∀ v l, (v, l) ∈ (if bool_decide (strong b = 1%Z) then (u, CObject c) :: deleting w else deleting w) ↔
    (v, l) ∈ deleting w ∨ (v = u ∧ l = CObject c ∧ refs c hs = 0)).
  { intros v l. specialize (Hr c). rewrite decide_True in Hr by done. case_bool_decide as E; [rewrite elem_of_cons|].
    - split; [intros [[= -> ->]|?]; [right; split_and!; [done..|lia]|by left]|intros [?|(-> & -> & _)]; [by right|by left]].
    - split; [by left|]. intros [?|(_ & _ & Hz)]; [done|lia]. }
  split; simpl.
  - intros d. rewrite lookup_insert_is_Some'. intros [Hd|[[<-|Hd]|Hd]]; apply (o_next _ H);
      [by left|by right; left; eauto|by right; left|]. right. right. rewrite Hr. lia.
  - intros d b' [[<- <-]|[Hne Hd]]%lookup_insert_Some; [specialize (Hr c); rewrite decide_True in Hr by done; simpl; lia|].
    rewrite (o_count _ H d b' Hd), Hr, decide_False by done. done.
  - intros d. rewrite (o_object _ H), Hr. setoid_rewrite Hdel. destruct (decide (c = d)) as [<-|E].
    2: { simpl. split; [intros [?|(v & Hv)]; [left; lia|right; eauto]|]. intros [?|(v & [Hv|(_ & [= ->] & _)])]; [left; lia|right; eauto|done]. }
    split; [|intros _; left; lia]. intros _. destruct (decide (refs c hs = 0)); [|left; lia]. right. exists u. right. done.
  - intros d. rewrite lookup_insert_is_Some', (o_block _ H). unfold holds. simpl. setoid_rewrite Hdel. setoid_rewrite Hhs. setoid_rewrite elem_of_cons.
    split.
    + intros Hd. assert (Hd' : c = d ∨ ∃ v, (v, d) ∈ hs ∨ ∃ l, (v, l) ∈ deleting w ∧ number l = d) by naive_solver.
      destruct Hd' as [<-|?]; [|naive_solver]. destruct (decide (refs c hs = 0)) as [Hz|Hz]; [exists u; right; exists (CObject c); naive_solver|].
      assert (0 < refs c hs) as [v Hv]%refs_pos by lia. naive_solver.
    + intros (v & [Hv|(l & [Hv|(-> & -> & _)] & Hl)]); [naive_solver..|]. by left.
  - case_bool_decide; [|apply (o_once _ H)]. csimpl. constructor; [|apply (o_once _ H)].
    intros ([v l] & E & Hv)%list_elem_of_fmap. symmetry in E. by eapply (held_alive w u c v l).
  - intros v l [Hv|(-> & -> & Hz)]%Hdel; [|done]. pose proof (o_last _ H _ _ Hv) as Hz. rewrite Hr in Hz. lia.
  - intros d b' [[<- <-]|[Hne Hd]]%lookup_insert_Some.
    + intros Hp. simpl. split; [by eexists _, _|]. specialize (Hr c). rewrite decide_True in Hr by done. constructor; [simpl; lia|done].
    + specialize (Hr d). rewrite decide_False in Hr by done. simpl in Hr. rewrite <- Hr. by apply (o_values _ H).
Qed.

Lemma deleting_split w u l ds :
  owned w → deleting w ≡ₚ (u, l) :: ds →
  refs (number l) (handles w) = 0 ∧ NoDup (number ∘ snd <$> ds) ∧ ∀ v l', (v, l') ∈ ds → number l' ≠ number l.
Proof.
  intros H Hds. split; [apply (o_last _ H u); rewrite Hds; by left|].
  pose proof (o_once _ H) as Hn. rewrite Hds in Hn. csimpl in Hn. apply NoDup_cons in Hn as [Hin Hn]. split; [done|].
  intros v l' Hv E. apply Hin. unfold compose. simpl. rewrite <- E. apply list_elem_of_fmap. by exists (v, l').
Qed.

Lemma owned_delete u l w w' : owned w → (u, l) ∈ deleting w → deleteCell u l w = Val w' → owned w'.
Proof.
  intros H Hu. destruct (takeOut_elem _ _ Hu) as [ds Hds]. unfold deleteCell, perform. rewrite Hds. simpl. apply takeOut_Some in Hds.
  destruct (deleting_split _ _ _ _ H Hds) as (Hz & Hn & Hne). assert (Hdel : ∀ x, x ∈ deleting w ↔ x = (u, l) ∨ x ∈ ds).
  { intros x. by rewrite Hds, elem_of_cons. }
  destruct l as [c|c]; simpl in *.
  - case_decide as Hc; [|done]. intros [= <-]. split; simpl; try apply H.
    + intros d Hd. apply (o_next _ H). set_solver.
    + intros d. rewrite elem_of_difference, elem_of_singleton, (o_object _ H). setoid_rewrite Hdel. setoid_rewrite elem_of_cons.
      destruct (decide (d = c)) as [->|Hd].
      * split; [by intros [_ []]|]. intros [?|(v & [?|Hv])]; [lia|done|]. by destruct (Hne _ _ Hv).
      * split; [intros [[?|(v & [[= -> ->]|?])] _]; naive_solver|]. intros [?|(v & [?|?])]; naive_solver.
    + intros d. rewrite (o_block _ H). unfold holds. simpl. setoid_rewrite Hdel. setoid_rewrite elem_of_cons. split.
      * intros (v & [?|(l & [[= -> ->]|?] & <-)]); [eauto| |eauto 6]. exists u. right. exists (CControl c). eauto.
      * intros (v & [?|(l & [[= -> ->]|?] & <-)]); [eauto| |eauto 6]. exists u. right. exists (CObject c). eauto.
    + csimpl. constructor; [|done]. intros ([v l] & E & Hv)%list_elem_of_fmap. by destruct (Hne _ _ Hv).
    + intros v l [[= -> ->]|Hv]%elem_of_cons; [done|]. apply (o_last _ H v). apply Hdel. by right.
  - destruct (blocks w !! c) as [b|] eqn:Hb; [|done]. intros [= <-]. split; simpl; try apply H.
    + intros d. rewrite lookup_delete_is_Some. intros Hd. apply (o_next _ H). naive_solver.
    + intros d b' [_ Hd]%lookup_delete_Some. by apply (o_count _ H).
    + intros d. rewrite (o_object _ H). setoid_rewrite Hdel. naive_solver.
    + intros d. rewrite lookup_delete_is_Some, (o_block _ H). unfold holds. simpl. setoid_rewrite Hdel. split.
      * intros [Hd (v & [?|(l & [[= -> ->]|?] & <-)])]; [eauto|done|eauto 6].
      * intros (v & [Hv|(l & Hv & <-)]); [|split; [intros E; by apply (Hne _ _ Hv)|eauto 6]].
        split; [intros <-; assert (0 < refs c (handles w)) by (apply refs_pos; eauto); lia|eauto].
    + done.
    + intros v l Hv. apply (o_last _ H v). apply Hdel. by right.
    + intros d b' [_ Hd]%lookup_delete_Some. by apply (o_values _ H).
Qed.

(** ** Knowing is kept *)
Lemma informed_sync o u w : informed w → informed (syncFrom o u w).
Proof.
  intros H. assert (Hmono : ∀ v, knowledge w v ⊆ knowledge (syncFrom o u w) v).
  { intros v. unfold syncFrom. rewrite knowledge_insert. case_decide; [subst; set_solver|done]. }
  split; try apply H.
  - intros v c Hv. eapply known_mono; [by apply (k_holder _ H v)|done|apply Hmono].
  - intros c i e b Hb Hi Hat. destruct (k_all _ H c i e b Hb Hi Hat) as [?|(v & Hv & ?)]; [by left|right]. exists v. split; [done|by apply Hmono].
  - intros v l Hv. eapply known_mono; [by apply (k_last _ H v l)|done|apply Hmono].
Qed.

Lemma sync_knows o u w : knowledge w o ⊆ knowledge (syncFrom o u w) u.
Proof. unfold syncFrom. rewrite knowledge_insert, decide_True by done. set_solver. Qed.

(** Nothing is known of a number that is not in use. *)
Lemma informed_fresh w : informed w → known (log w) (at_ (nextNumber w)) ∅.
Proof. intros H i e Hi Hat. apply (k_next _ H) in Hi. unfold at_ in Hat. lia. Qed.

Lemma informed_make u w : owned w → informed w → informed (makeShared u w).
Proof.
  intros Ho H. destruct (fresh_unused w Ho) as (Hb & Hr & _ & Hd). unfold makeShared. set (c := nextNumber w) in *.
  assert (Hno : ∀ v, ¬ holds w v c).
  { intros v [Hv|(l & Hv & Hl)]; [pose proof (held_refs _ _ _ Hv); lia|by apply (Hd _ _ Hv)]. }
  pose proof (informed_fresh w H) as Hf. fold c in Hf. unfold perform. cbv beta iota zeta.
  set (K1 := {[length (log w)]} ∪ knowledge w u). set (lg := log w ++ [mkEvent (CObject c) NaWrite (knowledge w u)]).
  set (w1 := mkWorld (blocks w) (objects w) (handles w) (deleting w) (<[u:=K1]> (knows w)) lg (S c)).
  assert (H1 : informed w1).
  { apply (informed_event w w1 u (CObject c) NaWrite (knowledge w u)); simpl; try done; try lia.
    - apply (known_mono _ (at_ c) _ ∅); [done|intros e [He _]; unfold at_; by rewrite He|set_solver].
    - intros v Hv. by destruct (Hno v).
    - intros Hv. by destruct (Hno u).
    - intros _ v Hv. by destruct (Hno v).
    - intros b Hb'. congruence.
    - intros v l Hv. rewrite decide_False by (by apply (Hd v)). done. }
  eapply (informed_event w1 _ u (CControl c) NaWrite K1); simpl; try done; try lia.
  - by rewrite insert_insert_eq.
  - unfold w1. by rewrite knowledge_insert, decide_True by done.
  - apply known_snoc; [|by intros [? _]]. apply (known_mono _ (at_ c) _ ∅); [done|intros e [He _]; unfold at_; by rewrite He|set_solver].
  - intros v d Hne. unfold holds. simpl. rewrite elem_of_cons. naive_solver.
  - intros v [[[= ->]|Hv]%elem_of_cons|Hv]; [by right|by left; left|by left; right].
  - intros _. apply known_snoc; [|intros _; set_solver]. apply (known_mono _ (at_ c) _ ∅); [done|by intros e [? _]|set_solver].
  - intros _ v [[[= ->]|Hv]%elem_of_cons|Hv]; [done|by destruct (Hno v); left|by destruct (Hno v); right].
  - intros d b Hne. by rewrite lookup_insert_ne.
  - intros b. rewrite lookup_insert_eq. intros [= <-]. assert (Hu : holds (makeShared u w) u c) by (left; by left).
    split; [by right|]. intros i e Hi Hat. right. exists u. split; [done|]. rewrite knowledge_insert, decide_True by done.
    apply elem_of_union_r. revert i e Hi Hat. change (known lg (at_ c) K1).
    apply known_snoc; [|intros _; set_solver]. apply (known_mono _ (at_ c) _ ∅); [done|done|set_solver].
  - intros v l Hv. rewrite decide_False by (by apply (Hd v)). done.
Qed.

(** Who knows of the creation may use the object and the count. *)
Lemma knows_conflicts w K l a :
  informed w → known (log w) (written (number l)) K → a ≠ NaWrite →
  match l with CObject _ => isAtomic a = false | CControl _ => isAtomic a = true end →
  known (log w) (λ e, e_loc e = l ∧ conflict (e_access e) a = true) K.
Proof.
  intros H Hk Ha Hl i e Hi [He Hc]. apply (Hk i e Hi). split; [unfold at_; by rewrite He|].
  pose proof (k_kind _ H i e Hi) as Hkind. rewrite He in Hkind. destruct l, a, (e_access e); done.
Qed.

Lemma informed_use u c w w' : owned w → informed w → (u, c) ∈ handles w → useObject u c w = Val w' → informed w'.
Proof.
  intros Ho H Hu. unfold useObject, perform. rewrite decide_True by (by eapply held_object). intros [= <-].
  assert (Hh : holds w u c) by (by left). pose proof (k_holder _ H _ _ Hh) as Hk.
  eapply (informed_event w _ u (CObject c) NaRead (knowledge w u)); simpl; try done.
  - apply (o_next _ Ho). left. by eapply held_object.
  - by apply knows_conflicts.
  - intros v Hv. by left.
  - intros b Hb. split; [by right|]. intros i e Hi Hat. destruct (k_all _ H c i e b Hb Hi Hat) as [?|(v & Hv & Hiv)]; [by left|right].
    exists v. split; [done|]. rewrite knowledge_insert. case_decide; [subst; set_solver|done].
  - intros v l Hv. rewrite decide_False by (by eapply (held_alive w u c)). done.
Qed.

Lemma informed_count u c w w' : owned w → informed w → (u, c) ∈ handles w → useCount u c w = Val w' → informed w'.
Proof.
  intros Ho H Hu. assert (Hh : holds w u c) by (by left). destruct (held_block w u c Ho Hh) as [b Hb].
  unfold useCount, load, perform. rewrite Hb. simpl. intros [= <-]. pose proof (k_holder _ H _ _ Hh) as Hk.
  eapply (informed_event w _ u (CControl c) AtRead (knowledge w u)); simpl; try done.
  - apply (o_next _ Ho). right. left. eauto.
  - by apply knows_conflicts.
  - intros v Hv. by left.
  - intros b' Hb'. split; [by right|]. intros i e Hi Hat. destruct (k_all _ H c i e b' Hb' Hi Hat) as [?|(v & Hv & Hiv)]; [by left|right].
    exists v. split; [done|]. rewrite knowledge_insert. case_decide; [subst; set_solver|done].
  - intros v l Hv. rewrite decide_False by (by eapply (held_alive w u c)). done.
Qed.

Lemma informed_copy o u c w w' : owned w → informed w → (o, c) ∈ handles w → copyHandle o u c w = Val w' → informed w'.
Proof.
  intros Ho H Hu. pose proof (owned_sync o u w Ho) as Ho1. pose proof (informed_sync o u w H) as H1. unfold copyHandle.
  assert (Hk : known (log w) (written c) (knowledge (syncFrom o u w) u)).
  { eapply known_mono; [by apply (k_holder _ H o c); left|done|apply sync_knows]. }
  assert (Hu1 : (o, c) ∈ handles (syncFrom o u w)) by done. revert Ho1 H1 Hk Hu1. clear Ho H Hu. change (log w) with (log (syncFrom o u w)).
  generalize (syncFrom o u w). clear w. intros w Ho H Hk Hu. destruct (held_block w o c Ho (or_introl Hu)) as [b Hb].
  unfold rmw, perform. rewrite Hb. simpl. intros [= <-].
  eapply (informed_event w _ u (CControl c) AtWrite (knowledge w u)); simpl; try done.
  - apply (o_next _ Ho). right. left. eauto.
  - by apply knows_conflicts.
  - intros v d Hne. unfold holds. simpl. rewrite elem_of_cons. naive_solver.
  - intros v [[[= ->]|Hv]%elem_of_cons|Hv]; [by right|by left; left|by left; right].
  - intros d b' Hne. by rewrite lookup_insert_ne.
  - intros b'. rewrite lookup_insert_eq. intros [= <-]. simpl. split; [right; left; by left|]. intros i e Hi Hat.
    destruct (k_all _ H c i e b Hb Hi Hat) as [?|(v & Hv & Hiv)]; [by left|right]. exists v. split.
    + destruct Hv as [?|?]; [left; by right|by right].
    + rewrite knowledge_insert. case_decide; [subst; set_solver|done].
  - intros v l Hv. rewrite decide_False by (by eapply (held_alive w o c)). done.
Qed.

Lemma informed_move o u c w w' : owned w → informed w → (o, c) ∈ handles w → moveHandle o u c w = Val w' → informed w'.
Proof.
  intros Ho H Hu. destruct (takeOut_elem _ _ Hu) as [hs Hhs]. unfold moveHandle. simpl. rewrite Hhs. simpl. intros [= <-].
  apply takeOut_Some in Hhs. pose proof (informed_sync o u w H) as H1. set (w1 := syncFrom o u w) in *.
  assert (Hback : ∀ v d, holds (mkWorld (blocks w) (objects w) ((u, c) :: hs) (deleting w) (knows w1) (log w) (nextNumber w)) v d →
    holds w v d ∨ (v = u ∧ d = c)).
  { intros v d [[[= -> ->]|Hv]%elem_of_cons|Hv]; [by right| |by left; right]. left. left. rewrite Hhs. by right. }
  split; try apply H1.
  - intros v d [Hv|[-> ->]]%Hback; [by apply (k_holder _ H1)|].
    eapply known_mono; [by apply (k_holder _ H o c); left|done|apply sync_knows].
  - intros d i e b Hb Hi Hat. destruct (k_all _ H1 d i e b Hb Hi Hat) as [?|(v & Hv & Hiv)]; [by left|right].
    destruct Hv as [Hv|?]; [|exists v; split; [by right|done]]. change (handles w1) with (handles w) in Hv.
    rewrite Hhs in Hv. apply elem_of_cons in Hv as [[= -> ->]|Hv]; [|exists v; split; [left; by right|done]].
    exists u. split; [left; by left|]. revert Hiv. change (i ∈ knowledge w1 o → i ∈ knowledge w1 u). unfold w1, syncFrom. rewrite !knowledge_insert.
    rewrite (decide_True _ _ (eq_refl u)). case_decide; [done|]. set_solver.
Qed.

Lemma informed_release u c w w' : owned w → informed w → (u, c) ∈ handles w → release u c w = Val w' → informed w'.
Proof.
  intros Ho H Hu. assert (Hh : holds w u c) by (by left). destruct (held_block w u c Ho Hh) as [b Hb].
  destruct (takeOut_elem _ _ Hu) as [hs Hhs]. unfold release, rmw, perform. rewrite Hhs, Hb. simpl. intros [= <-].
  apply takeOut_Some in Hhs. pose proof (o_count _ Ho c b Hb) as Hcount. rewrite Hhs, refs_cons, decide_True in Hcount by done.
  assert (Hdel : ∀ v l, (v, l) ∈ (if bool_decide (strong b = 1%Z) then (u, CObject c) :: deleting w else deleting w) →
    (v, l) ∈ deleting w ∨ (v = u ∧ l = CObject c ∧ refs c hs = 0)).
  { intros v l. case_bool_decide; [|by left]. intros [[= -> ->]|?]%elem_of_cons; [right; split_and!; [done..|lia]|by left]. }
  assert (Hsub : deleting w ⊆ if bool_decide (strong b = 1%Z) then (u, CObject c) :: deleting w else deleting w).
  { case_bool_decide; [|done]. intros x Hx. by right. }
  assert (Hin : ∀ v d, (v, d) ∈ handles w → (v = u ∧ d = c) ∨ (v, d) ∈ hs).
  { intros v d. rewrite Hhs, elem_of_cons. naive_solver. }
  assert (Hin' : ∀ x, x ∈ hs → x ∈ handles w) by (intros x Hx; rewrite Hhs; by right).
  assert (Hold : ∀ i e, log w !! i = Some e → at_ c e → i ∈ view b ∨ i ∈ knowledge w u ∨ ∃ v, (v, c) ∈ hs ∧ v ≠ u ∧ i ∈ knowledge w v).
  { intros i e Hi Hat. destruct (k_all _ H c i e b Hb Hi Hat) as [?|(v & Hv & Hiv)]; [by left|right].
    destruct (decide (v = u)) as [->|Hne]; [by left|right]. exists v. split; [|done].
    destruct Hv as [[[? _]|?]%Hin|(l & Hv & Hl)]; [done|done|]. by destruct (held_alive w u c v l). }
  eapply (informed_event w _ u (CControl c) AtWrite (view b ∪ knowledge w u)); simpl; try done.
  - set_solver.
  - apply (o_next _ Ho). right. left. eauto.
  - apply knows_conflicts; try done. eapply known_mono; [by apply (k_holder _ H u c)|done|set_solver].
  - intros v d Hne. unfold holds. simpl. split.
    + intros [Hv|(l & [Hv|(-> & -> & _)]%Hdel & <-)]; [left; by apply Hin'|right; eauto|done].
    + intros [[[_ ?]|Hv]%Hin|(l & Hv & <-)]; [done|by left|right]. exists l. split; [by apply Hsub|done].
  - intros v [Hv|(l & [Hv|(-> & _)]%Hdel & Hl)]; [left; left; by apply Hin'|left; right; eauto|by right].
  - intros _. eapply known_mono; [by apply (k_holder _ H u c)|done|set_solver].
  - intros d b' Hne. by rewrite lookup_insert_ne.
  - intros b'. rewrite lookup_insert_eq. intros [= <-]. simpl. split; [left; set_solver|]. intros i e Hi Hat.
    destruct (Hold i e Hi Hat) as [?|[?|(v & Hv & Hne & ?)]]; [left; set_solver|left; set_solver|right].
    exists v. split; [by left|]. by rewrite knowledge_insert, decide_False by done.
  - intros v l [Hv|(-> & -> & Hz)]%Hdel; [rewrite decide_False by (by eapply (held_alive w u c)); done|].
    rewrite decide_True by done. split; [done|]. intros i e Hi Hat.
    destruct (Hold i e Hi Hat) as [?|[?|(v & Hv & _)]]; [set_solver|set_solver|].
    assert (0 < refs c hs) by (apply refs_pos; eauto). lia.
Qed.

Lemma informed_delete u l w w' : owned w → informed w → (u, l) ∈ deleting w → deleteCell u l w = Val w' → informed w'.
Proof.
  intros Ho H Hu. destruct (takeOut_elem _ _ Hu) as [ds Hds]. unfold deleteCell, perform. rewrite Hds. simpl. apply takeOut_Some in Hds.
  destruct (deleting_split _ _ _ _ Ho Hds) as (Hz & _ & Hne). assert (Hdel : ∀ x, x ∈ deleting w ↔ x = (u, l) ∨ x ∈ ds).
  { intros x. by rewrite Hds, elem_of_cons. }
  pose proof (k_last _ H u l Hu) as Hall. assert (Hh : holds w u (number l)) by (right; eauto).
  assert (Hn : number l < nextNumber w) by (apply (o_next _ Ho); right; left; apply (o_block _ Ho); eauto).
  assert (Honly : ∀ v, holds w v (number l) → v = u).
  { intros v [Hv|(l' & [[= -> _]|Hv]%Hdel & Hl)]; [pose proof (held_refs _ _ _ Hv); lia|done|by destruct (Hne _ _ Hv)]. }
  assert (Hw : known (log w) (written (number l)) (knowledge w u)) by (by apply (k_holder _ H)).
  assert (Hc : known (log w) (λ e, e_loc e = l ∧ conflict (e_access e) NaWrite = true) (knowledge w u)).
  { eapply known_mono; [exact Hall| |done]. intros e [He _]. unfold at_. by rewrite He. }
  assert (Hds' : ∀ v l', (v, l') ∈ ds → if decide (number l' = number l) then v = u ∧ known (log w) (at_ (number l)) (knowledge w u) else (v, l') ∈ deleting w).
  { intros v l' Hv. rewrite decide_False by (by apply (Hne v)). apply Hdel. by right. }
  destruct l as [c|c]; simpl in *.
  - case_decide as Hobj; [|done]. intros [= <-]. eapply (informed_event w _ u (CObject c) NaWrite (knowledge w u)); simpl; try done.
    + intros v d Hd. unfold holds. simpl. setoid_rewrite Hdel. setoid_rewrite elem_of_cons. naive_solver.
    + intros v [Hv|(l & [[= -> ->]|Hv]%elem_of_cons & Hl)]; [by left; left|by right|by destruct (Hne _ _ Hv)].
    + intros _ v [Hv|(l & [[= -> ->]|Hv]%elem_of_cons & Hl)]; [pose proof (held_refs _ _ _ Hv); simpl in *; lia|done|by destruct (Hne _ _ Hv)].
    + intros b Hb. assert (Hu' : ∀ lg, holds (mkWorld (blocks w) (objects w ∖ {[c]}) (handles w) ((u, CControl c) :: ds) lg (log w) (nextNumber w)) u c).
      { intros lg. right. exists (CControl c). split; [by left|done]. }
      split; [right; apply (Hu' (knows w))|]. intros i e Hi Hat. right. exists u. split; [apply (Hu' (knows w))|].
      rewrite knowledge_insert, decide_True by done. apply elem_of_union_r. by apply (Hall i e).
    + intros v l [[= -> ->]|Hv]%elem_of_cons; [by rewrite decide_True|]. by apply Hds'.
  - destruct (blocks w !! c) as [b|] eqn:Hb; [|done]. intros [= <-].
    eapply (informed_event w _ u (CControl c) NaWrite (knowledge w u)); simpl; try done.
    + intros v d Hd. unfold holds. simpl. setoid_rewrite Hdel. naive_solver.
    + intros v [Hv|(l & Hv & Hl)]; [by left; left|]. by destruct (Hne _ _ Hv).
    + intros _ v [Hv|(l & Hv & Hl)]; [pose proof (held_refs _ _ _ Hv); simpl in *; lia|]. by destruct (Hne _ _ Hv).
    + intros d b' Hd. by rewrite lookup_delete_ne.
    + intros b'. by rewrite lookup_delete_eq.
Qed.

(** ** All runs *)
Lemma wstep_keeps w w' : wstep w w' → owned w ∧ informed w → owned w' ∧ informed w'.
Proof.
  intros Hs [Ho H]. destruct Hs.
  - split; [by apply owned_sync|by apply informed_sync].
  - split; [by apply owned_make|by apply informed_make].
  - split; [|by eapply informed_use]. unfold useObject, perform in *. case_decide; simplify_eq. by apply owned_log.
  - split; [by eapply owned_copy|by eapply informed_copy].
  - split; [by eapply owned_move|by eapply informed_move].
  - split; [by eapply owned_release|by eapply informed_release].
  - split; [by eapply owned_delete|by eapply informed_delete].
  - split; [|by eapply informed_count]. unfold useCount, load, perform in *. destruct (blocks w !! c); simplify_eq/=. by apply owned_log.
Qed.

Lemma reachable_inv w : rtc wstep newWorld w → owned w ∧ informed w.
Proof.
  revert w. apply rtc_ind_r; [|intros w w' _ Hs; by apply wstep_keeps]. split; split; simpl; try done.
  - intros c. unfold refs. simpl. intros [?|[[? ?]|?]]; [set_solver|done|lia].
  - intros c. split; [set_solver|]. unfold refs. simpl. intros [?|[u ?%not_elem_of_nil]]; [lia|done].
  - intros c. split; [by intros []|]. intros (u & [?%not_elem_of_nil|(l & ?%not_elem_of_nil & _)]); done.
  - by constructor.
Qed.

Lemma deletes w u l : owned w → (u, l) ∈ deleting w → ∃ w', deleteCell u l w = Val w'.
Proof.
  intros Ho Hu. destruct (takeOut_elem _ _ Hu) as [ds Hds]. unfold deleteCell, perform. rewrite Hds. simpl. destruct l as [c|c].
  - rewrite decide_True by (apply (o_object _ Ho); right; eauto). eauto.
  - destruct (held_block w u c Ho) as [b ->]; [right; eauto|]. simpl. eauto.
Qed.

(** C23: Reference counts of many threads, with the memory orders of the code.
    However threads copy, move, use and drop handles, and whatever old values
    relaxed loads return: no two accesses race, the deletions of an object and of
    its count included.  No operation on a handle touches freed memory, the count
    is the number of handles, and [useCount] gives at least 1, and the number of
    handles to a thread that knows of its last change.  Nothing is deleted twice,
    an object lives exactly as long as it has handles (and until the thread that
    dropped the last one has deleted it), and without handles nothing is left. *)
Theorem shared_ptr_threads w :
  rtc wstep newWorld w →
  race_free (log w) ∧
  (∀ u c, (u, c) ∈ handles w →
    (∃ w', useObject u c w = Val w') ∧ (∀ v, ∃ w', copyHandle u v c w = Val w') ∧
    (∀ v, ∃ w', moveHandle u v c w = Val w') ∧ (∃ w', release u c w = Val w') ∧
    ∃ b w', useCount u c w = Val w' ∧ blocks w !! c = Some b ∧ strong b = Z.of_nat (refs c (handles w)) ∧
      (∀ v, readable b (knowledge w u) v → (1 ≤ v)%Z) ∧
      ∃ e r, changes b = (strong b, e) :: r ∧ (e ∈ knowledge w u → ∀ v, readable b (knowledge w u) v → v = strong b)) ∧
  (∀ u l, (u, l) ∈ deleting w → ∃ w', deleteCell u l w = Val w') ∧
  (∀ c, c ∈ objects w ↔ (∃ u, (u, c) ∈ handles w) ∨ ∃ u, (u, CObject c) ∈ deleting w) ∧
  (handles w = [] → deleting w = [] → objects w = ∅ ∧ blocks w = ∅).
Proof.
  intros [Ho H]%reachable_inv. split_and!.
  - apply (k_race _ H).
  - intros u c Hu. destruct (held_block w u c Ho (or_introl Hu)) as [b Hb]. destruct (takeOut_elem _ _ Hu) as [hs Hhs].
    destruct (o_values _ Ho c b Hb (held_refs _ _ _ Hu)) as [(e & r & Hch) Hpos]. split_and!.
    + unfold useObject, perform. rewrite decide_True by (by eapply held_object). eauto.
    + intros v. unfold copyHandle, rmw, perform. simpl. rewrite Hb. simpl. eauto.
    + intros v. unfold moveHandle. simpl. rewrite Hhs. simpl. eauto.
    + unfold release, rmw, perform. rewrite Hhs, Hb. simpl. eauto.
    + exists b. unfold useCount, load, perform. rewrite Hb. simpl. eexists. split_and!; [done..|by apply (o_count _ Ho)| |].
      * intros v (newer & e' & older & Heq & _). rewrite Heq, Forall_app, Forall_cons in Hpos. by apply Hpos.
      * exists e, r. split; [done|]. intros He v (newer & e' & older & Heq & Hnew). rewrite Hch in Heq.
        destruct newer as [|x newer]; [by injection Heq as -> _|]. injection Heq as <- _. apply Forall_cons in Hnew as [Hx _]. done.
  - intros u l. by apply deletes.
  - intros c. rewrite (o_object _ Ho), refs_pos. done.
  - intros Hh Hd. split.
    + apply set_eq. intros c. rewrite (o_object _ Ho), Hh, Hd. split; [|set_solver]. unfold refs. simpl.
      intros [?|[u ?%not_elem_of_nil]]; [lia|done].
    + apply map_empty. intros c. apply eq_None_not_Some. rewrite (o_block _ Ho). unfold holds. rewrite Hh, Hd.
      intros (u & [?%not_elem_of_nil|(l & ?%not_elem_of_nil & _)]); done.
Qed.

(** Thread 0 makes an object, thread 1 copies the handle; both use the object and
    drop their handles; thread 1, the last one, deletes. *)
Definition demo_threads : result world :=
  w1 ← copyHandle 0 1 0 (makeShared 0 newWorld);
  w2 ← useObject 0 0 w1;
  w3 ← release 0 0 w2;
  w4 ← useObject 1 0 w3;
  w5 ← release 1 0 w4;
  w6 ← deleteCell 1 (CObject 0) w5;
  deleteCell 1 (CControl 0) w6.

Lemma demo_reaches : ∃ w, demo_threads = Val w ∧ rtc wstep newWorld w.
Proof.
  unfold demo_threads. eexists. split; [vm_compute; reflexivity|]. eapply rtc_l; [apply (w_make 0)|].
  eapply rtc_l; [apply (w_copy 0 1 0); [decides|vm_compute; reflexivity]|]. eapply rtc_l; [apply (w_use 0 0); [decides|vm_compute; reflexivity]|].
  eapply rtc_l; [apply (w_release 0 0); [decides|vm_compute; reflexivity]|]. eapply rtc_l; [apply (w_use 1 0); [decides|vm_compute; reflexivity]|].
  eapply rtc_l; [apply (w_release 1 0); [decides|vm_compute; reflexivity]|]. eapply rtc_l; [apply (w_delete 1 (CObject 0)); [decides|vm_compute; reflexivity]|].
  eapply rtc_l; [apply (w_delete 1 (CControl 0)); [decides|vm_compute; reflexivity]|]. apply rtc_refl.
Qed.

Lemma shared_ptr_threads_witness :
  ∃ w, demo_threads = Val w ∧ race_free (log w) ∧ length (log w) = 9 ∧ objects w = ∅ ∧ blocks w = ∅.
Proof.
  destruct demo_reaches as (w & Hw & Hr). exists w. destruct (shared_ptr_threads w Hr) as (Hrace & _ & _ & _ & Hend).
  split; [exact Hw|]. split; [exact Hrace|]. vm_compute in Hw. injection Hw as <-. split; [reflexivity|]. by apply Hend.
Defined.
