(* ===== verification/Database.v ===== *)
(** * Database (include/core/Database.hpp, src/core/database.cpp)

    The tables by name, each held by a [SharedPtr] on the heap of tables.  Each
    call holds the map lock throughout and is one atomic step.  Where the code
    destroys a handle implicitly (a value erased from the map, an argument that
    was not inserted) the model calls [release]. *)

From S2P Require Import Prelude CxxStd Schema Row KeyIndex LRUCache Table SharedPtr.

Section Database.
Context {Ix Dx : Type} `{!KeyIndex Z nat Ix} `{!KeyIndex string SharedPtr Dx}.

Record Database := mkDatabase {
  tables_ : Dx;
  heap_ : Heap (Table Ix);
}.

Definition newDatabase : Database := mkDatabase ix_new (mkHeap ∅ ∅ 0).

(** Code that only touches the heap. *)
Definition onHeap {A} (m : M (Heap (Table Ix)) A) : M Database A := λ db,
  match m (heap_ db) with
  | Ret h a => Ret (mkDatabase (tables_ db) h) a
  | Exn h e => Exn (mkDatabase (tables_ db) h) e
  | Stuck => Stuck
  end.

Definition setTables (tables : Dx) : M Database unit :=
  db ← get_state; put_state (mkDatabase tables (heap_ db)).

Definition createTable (name : string) (schema : Schema) : M Database bool :=
  if bool_decide (name = "") then
    throw (InvalidArgument "Database: table name must not be empty")
  else
    t ← lift (makeTable schema kDefaultCacheCapacity);
    table ← onHeap (makeShared t);
    db ← get_state;
    '(tables, inserted) ← lift (ix_insert (tables_ db) name table);
    setTables tables;;
    (if inserted : bool then mret () else onHeap (release table));;
    mret inserted.

Definition getTable (name : string) : M Database SharedPtr :=
  db ← get_state;
  table ← lift (ix_find (tables_ db) name);
  match table with
  | None => mret nullPtr
  | Some t => onHeap (copyPtr t)
  end.

Definition dropTable (name : string) : M Database bool :=
  db ← get_state;
  table ← lift (ix_find (tables_ db) name);
  '(tables, erased) ← lift (ix_erase (tables_ db) name);
  setTables tables;;
  match table with
  | Some t => onHeap (release t)
  | None => mret ()
  end;;
  mret erased.

Definition tableCount : M Database nat := db ← get_state; mret (ix_size (tables_ db)).

(** [operator<=] of [std::string], by which [std::sort] orders *)
Definition string_le (a b : string) : Prop := string_ltb b a = false.

#[export] Instance string_le_dec : RelDecision string_le.
Proof. intros a b. unfold string_le. apply _. Defined.

Definition tableNames : M Database (list string) :=
  db ← get_state;
  names ← lift (ix_forEach (λ names e, Val (names ++ [e.1])) (tables_ db) []);
  mret (merge_sort string_le names).
End Database.

Arguments Database : clear implicits.
