(* ===== verification/DatabaseSpec.v ===== *)
(** * Database: specification

    [stands ls db m A]: the database [db] has the name index [m] and the tables
    [A] by address, while [ls] are the handles that clients hold.  Every handle
    reaches a live table, every named table is its own object, what is allocated
    is reachable, and each table, named or dropped but still held, satisfies the
    table invariant for its contents in [A].  [db_ok ls db D]: the named tables
    are [D]. *)

From S2P Require Import Prelude AssocList CxxStd Schema Row KeyIndex LRUCache Table TableSpec SharedPtr Database.

(** What a table stands for, and what a database does: schema and rows. *)
Abbreviation Contents := (Schema * list (Z * Row))%type.
Abbreviation Abs := (gmap string (Schema * list (Z * Row))).

Section Spec.
Context {Ix Dx : Type} `{!KeyIndex Z nat Ix} `{!KeyIndexLaws Z nat Ix}.
Context `{!KeyIndex string SharedPtr Dx} `{!KeyIndexLaws string SharedPtr Dx}.
Implicit Types (db : Database Ix Dx) (D : Abs) (m : gmap string SharedPtr) (n : string) (A : gmap nat Contents).

Definition table_is (t : Table Ix) (x : Contents) : Prop := table_ok t x.2 ∧ schema_ t = x.1.

Definition contents (h : Heap (Table Ix)) A : Prop :=
  ∀ p, match objects h !! p, A !! p with
       | Some t, Some x => table_is t x
       | None, None => True
       | _, _ => False
       end.

Definition distinct m : Prop :=
  ∀ n n' sp sp', m !! n = Some sp → m !! n' = Some sp' → ptr_ sp = ptr_ sp' → n = n'.

(** All the handles: the clients' and those of the map. *)
Definition handles (ls : list SharedPtr) m : list SharedPtr := ls ++ (map_to_list m).*2.

Record stands (ls : list SharedPtr) db m A : Prop := {
  st_index : ix_repr (tables_ db) m;
  st_owned : owned (handles ls m) (heap_ db);
  st_named : ∀ n sp, m !! n = Some sp → sp ≠ nullPtr;
  st_distinct : distinct m;
  st_contents : contents (heap_ db) A;
}.

Definition view m A : Abs := omap (λ sp, match ptr_ sp with Some p => A !! p | None => None end) m.

Definition db_ok ls db D : Prop := ∃ m A, stands ls db m A ∧ D = view m A.

(** [A'] agrees with [A] on the tables that handles reach. *)
Definition keeps (ls : list SharedPtr) m A A' : Prop :=
  ∀ sp p, sp ∈ handles ls m → ptr_ sp = Some p → A' !! p = A !! p.

Lemma newDatabase_stands : stands [] newDatabase ∅ ∅.
Proof.
  split; simpl.
  - apply ix_new_ok.
  - unfold handles. rewrite map_to_list_empty. apply owned_empty.
  - intros n sp. by rewrite lookup_empty.
  - intros n n' sp sp' Hn. by rewrite lookup_empty in Hn.
  - intros p. by rewrite !lookup_empty.
Qed.

Lemma newDatabase_ok : db_ok [] newDatabase ∅.
Proof. exists ∅, ∅. split; [apply newDatabase_stands|]. symmetry. apply omap_empty. Qed.

Lemma onHeap_run {B} (c : M (Heap (Table Ix)) B) db h a :
  c (heap_ db) = Ret h a → onHeap c db = Ret (mkDatabase (tables_ db) h) a.
Proof. intros Hc. unfold onHeap. by rewrite Hc. Qed.

(** ** Handles *)
Lemma map_values_elem m sp : sp ∈ (map_to_list m).*2 → ∃ n, m !! n = Some sp.
Proof. intros ([n sp'] & -> & Hin%elem_of_map_to_list)%list_elem_of_fmap. by exists n. Qed.

Lemma handles_named ls m n sp : m !! n = Some sp → sp ∈ handles ls m.
Proof.
  intros Hn. apply elem_of_app. right. apply (list_elem_of_fmap_2 snd (map_to_list _) (n, sp)). by apply elem_of_map_to_list.
Qed.

Lemma handles_held ls m sp : sp ∈ ls → sp ∈ handles ls m.
Proof. intros Hin. apply elem_of_app. by left. Qed.

Lemma handles_insert ls m n sp : m !! n = None → handles ls (<[n:=sp]> m) ≡ₚ sp :: handles ls m.
Proof. intros Hn. unfold handles. rewrite map_to_list_insert by done. csimpl. by rewrite <- Permutation_middle. Qed.

Lemma handles_delete ls m n sp : m !! n = Some sp → handles ls m ≡ₚ sp :: handles ls (delete n m).
Proof. intros Hn. unfold handles. rewrite <- (map_to_list_delete m n sp) by done. csimpl. by rewrite <- Permutation_middle. Qed.

Lemma handles_delete_sub ls m n sp : sp ∈ handles ls (delete n m) → sp ∈ handles ls m.
Proof.
  intros [?|(n' & Hn')%map_values_elem]%elem_of_app; [by apply handles_held|].
  apply lookup_delete_Some in Hn' as [_ ?]. by eapply handles_named.
Qed.

(** A handle that is not null reaches a table. *)
Lemma handle_table ls db m A sp :
  stands ls db m A → sp ∈ handles ls m → sp ≠ nullPtr →
  ∃ p c t x, sp = mkSharedPtr (Some p) (Some c) ∧ objects (heap_ db) !! p = Some t ∧ A !! p = Some x ∧ table_is t x.
Proof.
  intros Hst Hin Hn. destruct (ow_handle _ _ (st_owned _ _ _ _ Hst) sp Hin) as [?|(p & c & -> & t & Ht)]; [done|].
  pose proof (st_contents _ _ _ _ Hst p) as Hc. rewrite Ht in Hc. destruct (A !! p) as [x|] eqn:Hx; [|done].
  by exists p, c, t, x.
Qed.

Lemma named_table ls db m A n sp :
  stands ls db m A → m !! n = Some sp →
  ∃ p c t x, sp = mkSharedPtr (Some p) (Some c) ∧ objects (heap_ db) !! p = Some t ∧ A !! p = Some x ∧ table_is t x.
Proof. intros Hst Hn. eapply handle_table; [done|by eapply handles_named|by eapply st_named]. Qed.

Lemma view_lookup m A n : view m A !! n = match m !! n with Some sp => match ptr_ sp with Some p => A !! p | None => None end | None => None end.
Proof. unfold view. rewrite lookup_omap. by destruct (m !! n). Qed.

Lemma view_none ls db m A n : stands ls db m A → view m A !! n = None ↔ m !! n = None.
Proof.
  intros Hst. rewrite view_lookup. destruct (m !! n) as [sp|] eqn:Hn; [|done].
  destruct (named_table _ _ _ _ _ _ Hst Hn) as (p & c & t & x & -> & _ & Hx & _). simpl. by rewrite Hx.
Qed.

Lemma view_keeps ls m A A' : keeps ls m A A' → view m A' = view m A.
Proof.
  intros Hk. apply map_eq. intros n. rewrite !view_lookup. destruct (m !! n) as [sp|] eqn:Hn; [|done].
  destruct (ptr_ sp) as [p|] eqn:Hp; [|done]. apply (Hk sp p); [by eapply handles_named|done].
Qed.

Lemma view_delete m A n : view (delete n m) A = delete n (view m A).
Proof. apply omap_delete. Qed.

(** The table at [p] changes: the named table that it is, or none. *)
Lemma view_set m A n sp p x :
  distinct m → m !! n = Some sp → ptr_ sp = Some p → view m (<[p:=x]> A) = <[n:=x]> (view m A).
Proof.
  intros Hd Hn Hp. apply map_eq. intros n'. rewrite view_lookup. destruct (decide (n = n')) as [<-|Hne].
  { by rewrite Hn, Hp, !lookup_insert_eq. }
  rewrite lookup_insert_ne, view_lookup by done. destruct (m !! n') as [sp'|] eqn:Hn'; [|done].
  destruct (ptr_ sp') as [p'|] eqn:Hp'; [|done]. rewrite lookup_insert_ne; [done|].
  intros <-. apply Hne. apply (Hd n n' sp sp'); congruence.
Qed.

Lemma view_set_other m A p x :
  (∀ n sp, m !! n = Some sp → ptr_ sp ≠ Some p) → view m (<[p:=x]> A) = view m A.
Proof.
  intros Hno. apply map_eq. intros n. rewrite !view_lookup. destruct (m !! n) as [sp|] eqn:Hn; [|done].
  destruct (ptr_ sp) as [p'|] eqn:Hp'; [|done]. rewrite lookup_insert_ne; [done|]. intros <-. by apply (Hno n sp).
Qed.

(** ** The heap of tables *)
Lemma contents_set h A p t x :
  contents h A → table_is t x → contents (mkHeap (<[p:=t]> (objects h)) (counts h) (nextAddr h)) (<[p:=x]> A).
Proof.
  intros Hc Ht p'. simpl. destruct (decide (p = p')) as [<-|Hne]; [by rewrite !lookup_insert_eq|].
  rewrite !lookup_insert_ne by done. apply Hc.
Qed.

Lemma contents_same h h' A : contents h A → objects h' = objects h → contents h' A.
Proof. intros Hc Ho p. rewrite Ho. apply Hc. Qed.

Lemma contents_new h h' A p t x :
  contents h A → objects h' = <[p:=t]> (objects h) → table_is t x → contents h' (<[p:=x]> A).
Proof.
  intros Hc Ho Ht p'. rewrite Ho. destruct (decide (p = p')) as [<-|Hne]; [by rewrite !lookup_insert_eq|].
  rewrite !lookup_insert_ne by done. apply Hc.
Qed.

(** Giving up a handle: the tables that the others reach stay. *)
Lemma release_contents hs h A p c :
  owned (mkSharedPtr (Some p) (Some c) :: hs) h → contents h A →
  ∃ h' A', release (mkSharedPtr (Some p) (Some c)) h = Ret h' () ∧ owned hs h' ∧ contents h' A' ∧
    (∀ sp p', sp ∈ hs → ptr_ sp = Some p' → objects h' !! p' = objects h !! p' ∧ A' !! p' = A !! p').
Proof.
  intros Hw Hc. destruct (release_spec _ _ _ _ Hw) as (h' & Hrel & Hw' & Hobj). destruct (decide (uses c hs = 0)) as [Hu|Hu].
  - exists h', (delete p A). split; [done|]. split; [done|]. split.
    + intros p'. rewrite Hobj. destruct (decide (p = p')) as [<-|Hne]; [by rewrite !lookup_delete_eq|].
      rewrite !lookup_delete_ne by done. apply Hc.
    + intros sp p' Hin Hp'. rewrite Hobj. assert (p ≠ p').
      { intros <-. apply (uses_elem c sp) in Hu; [done|done|].
        symmetry. apply (ow_pair _ _ Hw (mkSharedPtr (Some p) (Some c)) sp); [by left|by right|done|done]. }
      by rewrite !lookup_delete_ne.
  - exists h', A. split; [done|]. split; [done|]. split; [by eapply contents_same|]. intros. by rewrite Hobj.
Qed.

(** ** Creating and dropping *)
Definition has_int_id (s : Schema) : bool :=
  if findColumn s kIdColumn is Some c then bool_decide (type c = INT) else false.

Lemma makeTable_cases s :
  schema_ok s →
  if has_int_id s then ∃ t, makeTable (Ix := Ix) s kDefaultCacheCapacity = Val t ∧ table_is t (s, [])
  else ∃ w, makeTable (Ix := Ix) s kDefaultCacheCapacity = Throw (InvalidArgument w).
Proof.
  intros Hs. pose proof (makeTable_spec (Ix := Ix) s kDefaultCacheCapacity Hs ltac:(vm_compute; reflexivity)) as Hm.
  unfold has_int_id. destruct (findColumn s kIdColumn) as [c|]; [|done].
  case_decide; [rewrite bool_decide_eq_true_2 by done|rewrite bool_decide_eq_false_2 by done]; done.
Qed.

(** A new object under a new name. *)
Lemma stands_add ls db m A n p c t x h tables :
  stands ls db m A → m !! n = None → A !! p = None →
  ix_repr tables (<[n:=mkSharedPtr (Some p) (Some c)]> m) →
  owned (mkSharedPtr (Some p) (Some c) :: handles ls m) h →
  objects h = <[p:=t]> (objects (heap_ db)) → table_is t x →
  stands ls (mkDatabase tables h) (<[n:=mkSharedPtr (Some p) (Some c)]> m) (<[p:=x]> A).
Proof.
  intros Hst Hn Hp Hix Hw Hobj Ht.
  assert (Hne : ∀ n' sp, m !! n' = Some sp → ptr_ sp ≠ Some p).
  { intros n' sp Hn' Hsp. destruct (named_table _ _ _ _ _ _ Hst Hn') as (p' & c' & t' & x' & -> & _ & Hx' & _).
    simpl in Hsp. congruence. }
  split; simpl; [done| | | |].
  - by rewrite handles_insert.
  - intros n' sp [[<- <-]|[_ Hn']]%lookup_insert_Some; [done|by eapply st_named].
  - intros n1 n2 sp1 sp2 [[<- <-]|[_ H1]]%lookup_insert_Some [[<- <-]|[_ H2]]%lookup_insert_Some Heq.
    + done.
    + by destruct (Hne n2 sp2 H2).
    + by destruct (Hne n1 sp1 H1).
    + by apply (st_distinct _ _ _ _ Hst n1 n2 sp1 sp2).
  - eapply contents_new; [apply Hst|done|done].
Qed.

(** A new table that got no name goes away again. *)
Lemma stands_same ls db m A tables h :
  stands ls db m A → ix_repr tables m → owned (handles ls m) h → contents h A → stands ls (mkDatabase tables h) m A.
Proof. intros [H1 H2 H3 H4 H5] ???. by split. Qed.

Lemma createTable_stands ls db m A n s :
  stands ls db m A → schema_ok s →
  if bool_decide (n = "") || negb (has_int_id s)
  then ∃ w, createTable n s db = Exn db (InvalidArgument w)
  else match m !! n with
       | Some _ => ∃ db' A', createTable n s db = Ret db' false ∧ stands ls db' m A' ∧ keeps ls m A A'
       | None => ∃ db' p c, createTable n s db = Ret db' true ∧ A !! p = None ∧
           stands ls db' (<[n:=mkSharedPtr (Some p) (Some c)]> m) (<[p:=(s, [])]> A)
       end.
Proof.
  intros Hst Hs. unfold createTable. case_bool_decide as Hn; simpl; [mrun; by eexists|].
  pose proof (makeTable_cases s Hs) as Hmk. destruct (has_int_id s); simpl.
  2: { destruct Hmk as [w ->]. mrun. by eexists. }
  destruct Hmk as (t & -> & Ht). mrun.
  destruct (makeShared_spec _ _ t (st_owned _ _ _ _ Hst)) as (h & p & c & Hmk & Hw & Hp & Hobj).
  erewrite M_bind_run by (by apply onHeap_run). mrun. simpl.
  assert (HA : A !! p = None).
  { pose proof (st_contents _ _ _ _ Hst p) as Hc. rewrite Hp in Hc. by destruct (A !! p). }
  destruct (ix_insert_ok (tables_ db) m n (mkSharedPtr (Some p) (Some c)) (st_index _ _ _ _ Hst))
    as (tables & -> & Hix). mrun. unfold setTables. mrun. destruct (m !! n) as [sp|] eqn:Hmn.
  - rewrite bool_decide_eq_false_2 by done.
    destruct (release_contents _ h (<[p:=(s, [])]> A) _ _ Hw) as (h' & A' & Hrel & Hw' & Hc' & Hk).
    { eapply contents_new; [apply Hst|done|done]. }
    erewrite M_bind_run by (by apply onHeap_run). mrun. eexists _, A'. split; [done|]. split.
    + destruct Hst. by split.
    + intros sp' p' Hin Hp'. destruct (Hk sp' p' Hin Hp') as [_ ->]. rewrite lookup_insert_ne; [done|]. intros <-.
      destruct (handle_table _ _ _ _ sp' Hst Hin) as (p1 & c1 & t1 & x1 & -> & _ & Hx1 & _); [by intros ->|].
      simpl in Hp'. congruence.
  - rewrite bool_decide_eq_true_2 by done. mrun. eexists _, p, c. split; [done|]. split; [done|]. by eapply stands_add.
Qed.

(** Dropping a table takes its name; whoever holds it keeps it. *)
Lemma dropTable_stands ls db m A n :
  stands ls db m A →
  ∃ db' A', dropTable n db = Ret db' (bool_decide (is_Some (m !! n))) ∧
    stands ls db' (delete n m) A' ∧ keeps ls (delete n m) A A' ∧
    ∀ sp p, sp ∈ ls → ptr_ sp = Some p → objects (heap_ db') !! p = objects (heap_ db) !! p.
Proof.
  intros Hst. unfold dropTable. mrun. rewrite (ix_find_ok _ _ _ (st_index _ _ _ _ Hst)). mrun.
  destruct (ix_erase_ok _ _ n (st_index _ _ _ _ Hst)) as (tables & -> & Hix). mrun. unfold setTables. mrun.
  assert (Hd : distinct (delete n m)).
  { intros n1 n2 sp1 sp2 [_ H1]%lookup_delete_Some [_ H2]%lookup_delete_Some. by apply (st_distinct _ _ _ _ Hst). }
  assert (Hnamed : ∀ n' sp, delete n m !! n' = Some sp → sp ≠ nullPtr).
  { intros n' sp [_ H']%lookup_delete_Some. by eapply st_named. }
  destruct (m !! n) as [sp|] eqn:Hmn.
  - destruct (named_table _ _ _ _ _ _ Hst Hmn) as (p & c & t & x & -> & Hp & Hx & Ht).
    pose proof (st_owned _ _ _ _ Hst) as Hw. rewrite (handles_delete _ _ _ _ Hmn) in Hw.
    destruct (release_contents _ _ A _ _ Hw (st_contents _ _ _ _ Hst)) as (h' & A' & Hrel & Hw' & Hc' & Hk).
    erewrite M_bind_run by (by apply onHeap_run). mrun. rewrite !bool_decide_eq_true_2 by done.
    eexists _, A'. split; [done|]. split; [by split|]. split; [intros sp' p' Hin Hp'; by apply (Hk sp')|].
    intros sp' p' Hin Hp'. simpl. apply (Hk sp' p'); [by apply handles_held|done].
  - mrun. rewrite !bool_decide_eq_false_2 by (by intros [? ?]). eexists _, A. split; [done|].
    rewrite delete_id in * by done. split; [|done]. apply stands_same with db; [done|done|apply Hst|apply Hst].
Qed.

(** ** Handles on tables *)
Lemma getTable_stands ls db m A n :
  stands ls db m A →
  match m !! n with
  | None => getTable n db = Ret db nullPtr
  | Some sp => ∃ db', getTable n db = Ret db' sp ∧ stands (sp :: ls) db' m A
  end.
Proof.
  intros Hst. unfold getTable. mrun. rewrite (ix_find_ok _ _ _ (st_index _ _ _ _ Hst)). mrun.
  destruct (m !! n) as [sp|] eqn:Hmn; [|done].
  destruct (copyPtr_spec _ _ sp (st_owned _ _ _ _ Hst)) as (h' & Hcp & Hw & Hobj); [by eapply handles_named|].
  eexists. split; [by apply onHeap_run|]. destruct Hst. split; simpl; try done. by eapply contents_same.
Qed.

(** Letting go of a handle, on a table of the map or on one that was dropped. *)
Lemma release_stands ls db m A sp :
  stands (sp :: ls) db m A →
  ∃ db' A', onHeap (release sp) db = Ret db' () ∧ stands ls db' m A' ∧ keeps ls m A A'.
Proof.
  intros Hst. pose proof (st_owned _ _ _ _ Hst) as Hw. unfold handles in Hw. simpl in Hw.
  destruct (ow_handle _ _ Hw sp) as [->|(p & c & -> & _)]; [by left| |].
  - exists db, A. split; [by destruct db|]. split; [|done]. destruct Hst as [H1 H2 H3 H4 H5]. split; try done.
    exact (proj1 (owned_null _ _) Hw).
  - destruct (release_contents _ _ A _ _ Hw (st_contents _ _ _ _ Hst)) as (h' & A' & Hrel & Hw' & Hc' & Hk).
    eexists _, A'. split; [by apply onHeap_run|]. split; [destruct Hst; by split|]. intros sp' p' Hin Hp'. by apply (Hk sp').
Qed.

Lemma owned_set hs (h : Heap (Table Ix)) p t :
  owned hs h → is_Some (objects h !! p) →
  owned hs (mkHeap (<[p:=t]> (objects h)) (counts h) (nextAddr h)).
Proof.
  intros [Hc Hh Hp Ho Hf] Hs. split; simpl; try done.
  - intros sp Hin. destruct (Hh sp Hin) as [->|(p' & c' & -> & Hp')]; [by left|]. right. exists p', c'.
    split; [done|]. rewrite lookup_insert_is_Some'. by right.
  - intros p' Hp'. apply Ho. rewrite lookup_insert_is_Some' in Hp'. by destruct Hp' as [<-|].
  - intros a Ha. destruct (Hf a Ha) as [Hoa ?]. split; [|done]. rewrite lookup_insert_ne; [done|].
    intros <-. rewrite Hoa in Hs. by destruct Hs.
Qed.

(** The table at [p] becomes [t']. *)
Lemma stands_set ls db m A p t' x' :
  stands ls db m A → is_Some (A !! p) → table_is t' x' →
  stands ls (mkDatabase (tables_ db) (mkHeap (<[p:=t']> (objects (heap_ db))) (counts (heap_ db)) (nextAddr (heap_ db))))
    m (<[p:=x']> A).
Proof.
  intros [H1 H2 H3 H4 H5] [x Hx] Ht. split; simpl; try done; [|by apply contents_set].
  apply owned_set; [done|]. specialize (H5 p). rewrite Hx in H5. by destruct (objects (heap_ db) !! p).
Qed.

(** ** Listing *)
#[local] Instance string_le_total : Total string_le.
Proof.
  intros a b. unfold string_le. destruct (string_ltb b a) eqn:Hba; [right|by left].
  apply not_true_is_false. intros Hab. pose proof (string_ltb_trans _ _ _ Hab Hba) as Haa.
  by rewrite string_ltb_irrefl in Haa.
Qed.

#[local] Instance string_le_trans : Transitive string_le.
Proof.
  intros a b c Hab Hbc. unfold string_le in *. apply not_true_is_false. intros Hca.
  destruct (string_ltb_total a b) as [?|[->|?]]; [|congruence|congruence].
  rewrite (string_ltb_trans c a b) in Hbc by done. done.
Qed.

Lemma view_dom ls db m A : stands ls db m A → dom (view m A) = dom m.
Proof.
  intros Hst. apply set_eq. intros n. rewrite !elem_of_dom. pose proof (view_none _ _ _ _ n Hst) as Hn.
  rewrite <- !not_eq_None_Some. tauto.
Qed.

Lemma tableCount_spec ls db D : db_ok ls db D → tableCount db = Ret db (base.size D).
Proof.
  intros (m & A & Hst & ->). unfold tableCount. mrun. rewrite (ix_size_ok _ _ (st_index _ _ _ _ Hst)).
  rewrite <- !size_dom, (view_dom _ _ _ _ Hst). done.
Qed.

Lemma keys_elem {X} (k : gmap string X) n : n ∈ (map_to_list k).*1 ↔ is_Some (k !! n).
Proof.
  rewrite list_elem_of_fmap. split.
  - intros ([n' x] & -> & Hx%elem_of_map_to_list). by exists x.
  - intros [x Hx]. exists (n, x). split; [done|]. by apply elem_of_map_to_list.
Qed.

Lemma tableNames_spec ls db D :
  db_ok ls db D → ∃ l, tableNames db = Ret db l ∧ l ≡ₚ (map_to_list D).*1 ∧ StronglySorted string_le l.
Proof.
  intros (m & A & Hst & ->). unfold tableNames. mrun. destruct (ix_forEach_ok _ _ (st_index _ _ _ _ Hst)) as (l & Hl & ->).
  assert (Hfold : ∀ l acc, foldR (λ names (e : string * SharedPtr), Val (names ++ [e.1])) acc l = Val (acc ++ l.*1)).
  { clear. induction l as [|e l IH]; intros acc; csimpl; [by rewrite app_nil_r|]. simpl. rewrite IH.
    by rewrite <- (assoc_L (++)). }
  rewrite Hfold. mrun. eexists. split; [done|]. split; [|apply StronglySorted_merge_sort; apply _].
  rewrite merge_sort_Permutation. simpl. rewrite Hl. apply NoDup_Permutation.
  - apply NoDup_fst_map_to_list.
  - apply NoDup_fst_map_to_list.
  - intros n. rewrite !keys_elem, <- !elem_of_dom. by rewrite (view_dom _ _ _ _ Hst).
Qed.

(** ** What is allocated is the tables *)
Lemma image_size {X} (M : gmap nat X) m (f : SharedPtr → option nat) :
  (∀ n n' sp sp', m !! n = Some sp → m !! n' = Some sp' → f sp = f sp' → n = n') →
  (∀ n sp, m !! n = Some sp → is_Some (f sp)) →
  (∀ a, is_Some (M !! a) ↔ ∃ n sp, m !! n = Some sp ∧ f sp = Some a) → base.size M = base.size m.
Proof.
  intros Hinj Hdef Himg. set (l := (λ e, default 0 (f e.2)) <$> map_to_list m).
  assert (Hl : ∀ a, a ∈ l ↔ ∃ n sp, m !! n = Some sp ∧ f sp = Some a).
  { intros a. unfold l. rewrite list_elem_of_fmap. split.
    - intros ([n sp] & -> & Hn%elem_of_map_to_list). exists n, sp. split; [done|].
      by destruct (Hdef n sp Hn) as [b Hb]; simpl; rewrite Hb.
    - intros (n & sp & Hn & Ha). exists (n, sp). simpl. rewrite Ha. split; [done|]. by apply elem_of_map_to_list. }
  rewrite <- size_dom. assert (dom M = list_to_set l) as ->.
  { apply set_eq. intros a. by rewrite elem_of_dom, elem_of_list_to_set, Hl. }
  rewrite size_list_to_set; [unfold l; by rewrite length_fmap, length_map_to_list|].
  apply NoDup_fmap_2_strong; [|apply NoDup_map_to_list].
  intros [n sp] [n' sp'] Hn%elem_of_map_to_list Hn'%elem_of_map_to_list. simpl.
  destruct (Hdef n sp Hn) as [a Ha]. destruct (Hdef n' sp' Hn') as [a' Ha']. rewrite Ha, Ha'. simpl. intros ->.
  assert (n = n') as -> by (eapply Hinj; [done|done|congruence]). congruence.
Qed.

Lemma db_ok_objects db D :
  db_ok [] db D →
  base.size (objects (heap_ db)) = base.size D ∧ base.size (counts (heap_ db)) = base.size D.
Proof.
  intros (m & A & Hst & ->). pose proof (st_owned _ _ _ _ Hst) as Hw. unfold handles in Hw. simpl in Hw.
  assert (base.size (view m A) = base.size m) as -> by (by rewrite <- !size_dom, (view_dom _ _ _ _ Hst)).
  assert (Hval : ∀ n sp, m !! n = Some sp → sp ∈ (map_to_list m).*2 ∧ sp ≠ nullPtr ∧
    ∃ p c, sp = mkSharedPtr (Some p) (Some c) ∧ is_Some (objects (heap_ db) !! p)).
  { intros n sp Hn. pose proof (handles_named [] _ _ _ Hn) as Hin.
    destruct (named_table _ _ _ _ _ _ Hst Hn) as (p & c & t & x & -> & Hp & _). split; [done|]. split; [done|]. eauto 10. }
  split; [apply (image_size _ m ptr_)|apply (image_size _ m control_)].
  - apply Hst.
  - intros n sp (_ & _ & p & c & -> & _)%Hval. by eexists.
  - intros a. split.
    + intros (sp & (n & Hn)%map_values_elem & Hp)%(ow_object _ _ Hw). eauto.
    + intros (n & sp & (_ & _ & p & c & -> & Hp)%Hval & [= <-]). done.
  - intros n n' sp sp' Hn Hn' Hc. apply (st_distinct _ _ _ _ Hst n n' sp sp'); [done|done|].
    apply (ow_pair _ _ Hw sp sp'); [by eapply Hval|by eapply Hval|by eapply Hval|done].
  - intros n sp (_ & _ & p & c & -> & _)%Hval. by eexists.
  - intros a. rewrite (ow_count _ _ Hw). split.
    + intros Ha. destruct (decide (uses a (map_to_list m).*2 = 0)) as [|Hu]; [by destruct Ha|].
      destruct (base.filter (λ s, control_ s = Some a) (map_to_list m).*2) as [|sp r] eqn:Hf.
      { unfold uses in Hu. by rewrite Hf in Hu. }
      assert (sp ∈ base.filter (λ s, control_ s = Some a) (map_to_list m).*2) as [Hc Hin]%list_elem_of_filter
        by (rewrite Hf; by left).
      apply map_values_elem in Hin as (n & Hn). eauto.
    + intros (n & sp & Hn & Hc). rewrite decide_False; [by eexists|]. eapply uses_elem; [by eapply Hval|done].
Qed.
End Spec.
