(* ===== verification/QueryExecutor.v ===== *)
(** * Query execution (include/query/QueryExecutor.hpp, src/query/query_executor.cpp)

    Lex, parse and run one query against the database.  The handle on the table
    that a statement works on is released when its function ends, normally or by
    an exception. *)

From S2P Require Import Prelude CxxStd Schema Row KeyIndex LRUCache Table SharedPtr Database Lexer Ast Parser.

(** ** WHERE clauses *)
Definition parseInt (raw : string) : Z := (from_chars raw).1.1.

Definition applyOp (op : CompareOp) (cmp : Z) : bool :=
  match op with
  | EQ => (cmp =? 0)%Z
  | NE => negb (cmp =? 0)%Z
  | LT => (cmp <? 0)%Z
  | LE => (cmp <=? 0)%Z
  | GT => (cmp >? 0)%Z
  | GE => (cmp >=? 0)%Z
  end.

(** The sign of [a.compare(b)] *)
Definition compareStrings (a b : string) : Z :=
  if string_ltb a b then -1 else if string_ltb b a then 1 else 0.

Definition predicate : Type := Row → result bool.

Definition makePredicate (schema : Schema) (w : WhereClause) : result predicate :=
  match findColumn schema (wc_column w) with
  | None => Throw (QueryError ("no such column '" +:+ wc_column w +:+ "'"))
  | Some column =>
    if negb (isValidValueFor (type column) (wc_value w)) then
      Throw (QueryError ("column '" +:+ wc_column w +:+ "' is " +:+ toStringType (type column) +:+
        ", got '" +:+ wc_value w +:+ "'"))
    else
      match type column with
      | INT =>
        let expected := parseInt (wc_value w) in
        Val (λ row,
          actual ← getInt row (wc_column w);
          Val (applyOp (wc_op w)
            (if (actual <? expected)%Z then -1 else if (actual >? expected)%Z then 1 else 0)))
      | TEXT =>
        Val (λ row,
          cell ← Row.get row (wc_column w);
          let raw := compareStrings cell (wc_value w) in
          Val (applyOp (wc_op w) (if (raw <? 0)%Z then -1 else if (raw >? 0)%Z then 1 else 0)))
      end
  end.

Fixpoint makePredicates (schema : Schema) (conditions : WhereList) : result (list predicate) :=
  match conditions with
  | [] => Val []
  | clause :: rest =>
    p ← makePredicate schema clause;
    ps ← makePredicates schema rest;
    Val (p :: ps)
  end.

(** The loop of the combined predicate *)
Fixpoint allHold (predicates : list predicate) (row : Row) : result bool :=
  match predicates with
  | [] => Val true
  | p :: rest => b ← p row; if negb b then Val false else allHold rest row
  end.

Definition makeConjunction (schema : Schema) (conditions : WhereList) : result predicate :=
  ps ← makePredicates schema conditions; Val (allHold ps).

Definition isIndexableIdClause (clause : WhereClause) : bool :=
  bool_decide (wc_column clause = kIdColumn) && bool_decide (wc_op clause ≠ NE).

Section QueryExecutor.
Context {Ix Dx : Type} `{!KeyIndex Z nat Ix} `{!KeyIndex string SharedPtr Dx}.

(** ** Fetching rows *)
Definition rowsByIdClause (clause : WhereClause) : M (Table Ix) (list Row) :=
  if negb (isValidValueFor INT (wc_value clause)) then
    throw (QueryError ("column 'id' is INT, got '" +:+ wc_value clause +:+ "'"))
  else
    let v := parseInt (wc_value clause) in
    match wc_op clause with
    | EQ => row ← findById v; mret (if row is Some r then [r] else [])
    | LT => if bool_decide (v = INT64_MIN) then mret [] else selectIdRange INT64_MIN (v - 1)
    | LE => selectIdRange INT64_MIN v
    | GT => if bool_decide (v = INT64_MAX) then mret [] else selectIdRange (v + 1) INT64_MAX
    | GE => selectIdRange v INT64_MAX
    | NE => throw (QueryError "internal: unindexable id clause")
    end.

(** [std::find_if] with the clauses other than the one found *)
Fixpoint findIndexable (conditions : WhereList) : option (WhereClause * WhereList) :=
  match conditions with
  | [] => None
  | c :: rest =>
    if isIndexableIdClause c then Some (c, rest)
    else match findIndexable rest with
         | None => None
         | Some (x, others) => Some (x, c :: others)
         end
  end.

(** [for (Row& row : candidates) if (predicate(row)) result.push_back(...)] *)
Definition filterRows (p : predicate) (rows : list Row) : result (list Row) :=
  foldR (λ result row, b ← p row; Val (if b : bool then result ++ [row] else result)) [] rows.

Definition fetchRows (conditions : WhereList) : M (Table Ix) (list Row) :=
  match conditions with
  | [] => selectAll
  | _ =>
    t ← get_state;
    match findIndexable conditions with
    | None => p ← lift (makeConjunction (schema_ t) conditions); selectWhere p
    | Some (indexable, rest) =>
      candidates ← rowsByIdClause indexable;
      match rest with
      | [] => mret candidates
      | _ =>
        p ← lift (makeConjunction (schema_ t) rest);
        lift (filterRows p candidates)
      end
    end
  end.

(** ** Replies *)
Fixpoint formatCells (row : Row) (i : nat) (columns : list string) : result string :=
  match columns with
  | [] => Val ""
  | c :: rest =>
    v ← Row.get row c;
    s ← formatCells row (S i) rest;
    Val ((if bool_decide (0 < i) then ", " else "") +:+ c +:+ "=" +:+ v +:+ s)
  end.

Definition formatRow (row : Row) (columns : list string) : result string :=
  match columns with
  | [] => Row.print row
  | _ => formatCells row 0 columns
  end.

Definition newline : string := String (Ascii.ascii_of_N 10) "".

Fixpoint formatRows (rows : list Row) (columns : list string) : result string :=
  match rows with
  | [] => Val ""
  | r :: rest =>
    line ← formatRow r columns;
    s ← formatRows rest columns;
    Val (line +:+ newline +:+ s)
  end.

Definition rowsSuffix (n : nat) : string :=
  to_string_pos n +:+ (if bool_decide (n = 1) then " row" else " rows").

(** ** Statements *)
Abbreviation DB := (Database Ix Dx).

(** A call on the table behind a handle. *)
Definition atTable {A} (table : SharedPtr) (m : M (Table Ix) A) : M DB A := λ db,
  match ptr_ table with
  | None => Stuck
  | Some p =>
    let set t := mkDatabase (tables_ db)
      (mkHeap (<[p:=t]> (objects (heap_ db))) (counts (heap_ db)) (nextAddr (heap_ db))) in
    match objects (heap_ db) !! p with
    | None => Stuck
    | Some t =>
      match m t with
      | Ret t' a => Ret (set t') a
      | Exn t' e => Exn (set t') e
      | Stuck => Stuck
      end
    end
  end.

(** The scope of a local handle. *)
Definition scoped {A} (table : SharedPtr) (body : M DB A) : M DB A := λ db,
  match body db with
  | Ret db' a => (onHeap (release table);; mret a) db'
  | Exn db' e => (onHeap (release table);; throw e) db'
  | Stuck => Stuck
  end.

Definition tableOrThrow (name : string) : M DB SharedPtr :=
  table ← getTable name;
  if bool_decide (ptr_ table = None) then throw (QueryError ("no such table '" +:+ name +:+ "'"))
  else mret table.

Definition buildSchema (defs : list ColumnDef) : result Schema :=
  foldR (λ s d, addColumn s (cd_name d) (cd_type d)) (mkSchema []) defs.

Definition runCreate (stmt : CreateTableStatement) : M DB string :=
  schema ← lift (buildSchema (cr_columns stmt));
  created ← createTable (cr_table stmt) schema;
  if negb created then throw (QueryError ("table '" +:+ cr_table stmt +:+ "' already exists"))
  else mret "OK".

Definition runDrop (stmt : DropTableStatement) : M DB string :=
  dropped ← dropTable (dr_table stmt);
  if negb dropped then throw (QueryError ("no such table '" +:+ dr_table stmt +:+ "'"))
  else mret "OK".

(** [row.set(columns[i], values[i])] for every column *)
Fixpoint setColumns (row : Row) (columns values : list string) : result Row :=
  match columns with
  | [] => Val row
  | c :: columns' =>
    match values with
    | [] => Undef
    | v :: values' => row' ← Row.set row c v; setColumns row' columns' values'
    end
  end.

(** The part of [run] behind [tableOrThrow], with the table as its state: one
    locked call of the table, and code that only reads its immutable schema. *)
Definition insertInto (stmt : InsertStatement) : M (Table Ix) string :=
  t ← get_state;
  row ← lift (Table.makeRow t);
  row ← lift (setColumns row (in_columns stmt) (in_values stmt));
  id ← lift (getInt row kIdColumn);
  inserted ← Table.insert row;
  if negb inserted then
    throw (QueryError ("duplicate id " +:+ to_string id +:+ " in table '" +:+ in_table stmt +:+ "'"))
  else mret "OK".

Definition checkColumn (s : Schema) (column : string) : result unit :=
  if negb (hasColumn s column) then Throw (QueryError ("no such column '" +:+ column +:+ "'"))
  else Val ().

Definition selectFrom (stmt : SelectStatement) : M (Table Ix) string :=
  t ← get_state;
  forM (se_columns stmt) (λ c, lift (checkColumn (schema_ t) c));;
  rows ← fetchRows (se_where stmt);
  match rows with
  | [] => mret "(0 rows)"
  | _ =>
    s ← lift (formatRows rows (se_columns stmt));
    mret (s +:+ "(" +:+ rowsSuffix (length rows) +:+ ")")
  end.

(** [catch (const std::invalid_argument& e) { throw QueryError(e.what()); }] *)
Definition catchInvalid {S A} (m : M S A) : M S A := λ st,
  match m st with
  | Exn st' (InvalidArgument w) => Exn st' (QueryError w)
  | r => r
  end.

Definition updateIn (stmt : UpdateStatement) : M (Table Ix) string :=
  t ← get_state;
  p ← lift (match up_where stmt with
            | [] => Val (λ _, Val true)
            | ws => makeConjunction (schema_ t) ws
            end);
  updated ← catchInvalid (updateWhere p (up_assignments stmt));
  mret ("OK (" +:+ rowsSuffix updated +:+ " updated)").

Definition deleteFrom (stmt : DeleteStatement) : M (Table Ix) string :=
  t ← get_state;
  let byConjunction ws :=
    match ws with
    | [] => deleteWhere (λ _, Val true)
    | _ => p ← lift (makeConjunction (schema_ t) ws); deleteWhere p
    end in
  deleted ←
    (match de_where stmt with
     | [w] =>
       if bool_decide (wc_column w = kIdColumn) && bool_decide (wc_op w = EQ) &&
          isValidValueFor INT (wc_value w)
       then b ← deleteById (parseInt (wc_value w)); mret (if b : bool then 1 else 0)
       else byConjunction [w]
     | ws => byConjunction ws
     end);
  mret ("OK (" +:+ rowsSuffix deleted +:+ " deleted)").

(** [SharedPtr<Table> table = tableOrThrow(name); ...] *)
Definition onTable (name : string) (body : M (Table Ix) string) : M DB string :=
  table ← tableOrThrow name; scoped table (atTable table body).

Definition runInsert (stmt : InsertStatement) : M DB string := onTable (in_table stmt) (insertInto stmt).
Definition runSelect (stmt : SelectStatement) : M DB string := onTable (se_table stmt) (selectFrom stmt).
Definition runUpdate (stmt : UpdateStatement) : M DB string := onTable (up_table stmt) (updateIn stmt).
Definition runDelete (stmt : DeleteStatement) : M DB string := onTable (de_table stmt) (deleteFrom stmt).

Definition run (s : Statement) : M DB string :=
  match s with
  | SCreate s => runCreate s
  | SDrop s => runDrop s
  | SInsert s => runInsert s
  | SSelect s => runSelect s
  | SUpdate s => runUpdate s
  | SDelete s => runDelete s
  end.

(** [e.what()]; the texts of the last three are the library's. *)
Definition what (e : exn) : string :=
  match e with
  | QueryError w | InvalidArgument w | OutOfRange w | RuntimeError w => w
  | LengthError => "vector::_M_default_append"
  | BadAlloc => "std::bad_alloc"
  | BadVariantAccess => "std::get: wrong index for variant"
  end.

Definition execute (query : string) : M DB string := λ db,
  match (statement ← lift (parseQuery query); run statement) db with
  | Ret db' reply => Ret db' reply
  | Exn db' e => Ret db' ("ERROR: " +:+ what e)
  | Stuck => Stuck
  end.
End QueryExecutor.
