(* ===== verification/QueryConcurrent.v ===== *)
(** * Concurrent queries (src/query/query_executor.cpp, src/core/database.cpp)

    Any number of threads run [QueryExecutor::execute] on one database, as the
    workers of the server do.  The steps of a query are those between which other
    threads run: parsing (which touches nothing shared), CREATE or DROP (one call
    under the lock of the map), taking the handle of a table (one call under that
    lock), the work on the table (one call under the table's lock, and code that
    only reads its immutable schema), and letting the handle go (an atomic
    decrement).  A history records the calls and returns.

    A table may be dropped while queries hold its handle; they go on with it. *)

From S2P Require Import Prelude KeyIndex LRUCache Table SharedPtr Database Lexer Ast Parser QueryExecutor.

Section Concurrent.
Context {Ix Dx : Type} `{!KeyIndex Z nat Ix} `{!KeyIndex string SharedPtr Dx}.
Abbreviation DB := (Database Ix Dx).

(** The table that a statement works on, and the code that does. *)
Definition target (s : Statement) : option string :=
  match s with
  | SCreate _ | SDrop _ => None
  | SInsert s => Some (in_table s)
  | SSelect s => Some (se_table s)
  | SUpdate s => Some (up_table s)
  | SDelete s => Some (de_table s)
  end.

Definition bodyOf (s : Statement) : M (Table Ix) string :=
  match s with
  | SInsert s => insertInto s
  | SSelect s => selectFrom s
  | SUpdate s => updateIn s
  | SDelete s => deleteFrom s
  | _ => mret ""
  end.

(** Where a query is; at the end it has its reply. *)
Inductive qphase :=
  | QWant (query : string) (s : Statement)
  | QHave (query : string) (s : Statement) (table : SharedPtr)
  | QLeave (table : SharedPtr) (reply : string)
  | QDone (reply : string).

Inductive event := ECall (id : nat) (query : string) | EReturn (id : nat) (reply : string).

Record qworld := mkWorld {
  w_db : DB;
  w_ops : gmap nat qphase;   (* the queries in flight *)
  w_next : nat;
  w_hist : list event;
}.

Definition newWorld : qworld := mkWorld newDatabase ∅ 0 [].

(** [catch (const std::exception& e) { return "ERROR: " + ...; }] *)
Definition errorReply (e : exn) : string := "ERROR: " +:+ what e.

(** The state and the reply of a call that returns or throws. *)
Definition ended {S} (o : outcome S string) : option (S * string) :=
  match o with
  | Ret st r => Some (st, r)
  | Exn st e => Some (st, errorReply e)
  | Stuck => None
  end.

Inductive qstep : qworld → qworld → Prop :=
  | q_call query s db ops i h :
      parseQuery query = Val s →
      qstep (mkWorld db ops i h) (mkWorld db (<[i:=QWant query s]> ops) (S i) (h ++ [ECall i query]))
  | q_call_bad query e db ops i h :
      parseQuery query = Throw e →
      qstep (mkWorld db ops i h) (mkWorld db (<[i:=QDone (errorReply e)]> ops) (S i) (h ++ [ECall i query]))
  | q_whole id query s db db' r ops i h :
      ops !! id = Some (QWant query s) → target s = None → ended (run s db) = Some (db', r) →
      qstep (mkWorld db ops i h) (mkWorld db' (<[id:=QDone r]> ops) i h)
  | q_get id query s n db db' sp ops i h :
      ops !! id = Some (QWant query s) → target s = Some n → tableOrThrow n db = Ret db' sp →
      qstep (mkWorld db ops i h) (mkWorld db' (<[id:=QHave query s sp]> ops) i h)
  | q_missing id query s n db db' e ops i h :
      ops !! id = Some (QWant query s) → target s = Some n → tableOrThrow n db = Exn db' e →
      qstep (mkWorld db ops i h) (mkWorld db' (<[id:=QDone (errorReply e)]> ops) i h)
  | q_body id query s sp db db' r ops i h :
      ops !! id = Some (QHave query s sp) → ended (atTable sp (bodyOf s) db) = Some (db', r) →
      qstep (mkWorld db ops i h) (mkWorld db' (<[id:=QLeave sp r]> ops) i h)
  | q_leave id sp r db db' ops i h :
      ops !! id = Some (QLeave sp r) → onHeap (release sp) db = Ret db' () →
      qstep (mkWorld db ops i h) (mkWorld db' (<[id:=QDone r]> ops) i h)
  | q_return id r db ops i h :
      ops !! id = Some (QDone r) →
      qstep (mkWorld db ops i h) (mkWorld db (delete id ops) i (h ++ [EReturn id r])).
End Concurrent.

Arguments qworld : clear implicits.
