(* ===== verification/QueryRef.v ===== *)
(** * Queries: reference semantics

    What a statement means on tables seen as sorted lists of rows: no index, no
    cache, no tree.  [ref_exec D s] is the new state and the reply, or [None]
    where the reply is an error and nothing changes. *)

From S2P Require Import Prelude AssocList CxxStd Schema Row Table TableSpec DatabaseSpec Lexer Ast Parser QueryExecutor.

(** ** Conditions *)
Definition op_holds (op : CompareOp) (c : comparison) : bool :=
  match op, c with
  | EQ, Eq | LT, Lt | GT, Gt => true
  | NE, Lt | NE, Gt | LE, Lt | LE, Eq | GE, Gt | GE, Eq => true
  | _, _ => false
  end.

Definition string_order (a b : string) : comparison :=
  if string_ltb a b then Lt else if bool_decide (a = b) then Eq else Gt.

(** The order of a cell and a literal of its type. *)
Definition literal_order (v : Value) (literal : string) : comparison :=
  match v with
  | IntV z => Z.compare z (from_chars literal).1.1
  | TextV t => string_order t literal
  end.

Definition clause_holds (r : Row) (w : WhereClause) : bool :=
  match value r (wc_column w) with
  | Val v => op_holds (wc_op w) (literal_order v (wc_value w))
  | _ => false
  end.

Definition where_holds (ws : WhereList) (r : Row) : bool := forallb (clause_holds r) ws.

Definition clause_ok (s : Schema) (w : WhereClause) : bool := literal_fits s (wc_column w) (wc_value w).
Definition where_ok (s : Schema) (ws : WhereList) : bool := forallb (clause_ok s) ws.

(** ** Replies *)
Definition cell_text (r : Row) (c : string) : string :=
  match value r c with Val v => toStringValue v | _ => "" end.

Definition row_text (s : Schema) (r : Row) (cols : list string) : string :=
  String.concat ", " ((λ c, c +:+ "=" +:+ cell_text r c) <$>
    match cols with [] => name <$> columns_ s | _ => cols end).

Definition select_text (s : Schema) (rows : list Row) (cols : list string) : string :=
  match rows with
  | [] => "(0 rows)"
  | _ => String.concat "" ((λ r, row_text s r cols +:+ newline) <$> rows) +:+
         "(" +:+ rowsSuffix (length rows) +:+ ")"
  end.

(** ** Statements *)
Definition ref_create (D : Abs) (stmt : CreateTableStatement) : option (Abs * string) :=
  let s := mkSchema ((λ d, mkColumn (cd_name d) (cd_type d)) <$> cr_columns stmt) in
  if bool_decide (schema_ok s ∧ has_int_id s = true ∧ cr_table stmt ≠ "" ∧ D !! cr_table stmt = None)
  then Some (<[cr_table stmt:=(s, [])]> D, "OK") else None.

Definition ref_drop (D : Abs) (stmt : DropTableStatement) : option (Abs * string) :=
  if D !! dr_table stmt is Some _ then Some (delete (dr_table stmt) D, "OK") else None.

(** A statement on the rows [l] of a table with the schema [s]: the new rows and
    the reply. *)
Abbreviation Rows := (list (Z * Row)).

Definition rows_insert (stmt : InsertStatement) (s : Schema) (l : Rows) : option (Rows * string) :=
  let assignments := zip (in_columns stmt) (in_values stmt) in
  let r := applySets s (blank s) assignments in
  if forallb (λ a, literal_fits s a.1 a.2) assignments && is_full r then
    match value r kIdColumn with
    | Val (IntV id) => if bool_decide (al_lookup id l = None) then Some (al_insert id r l, "OK") else None
    | _ => None
    end
  else None.

Definition rows_select (stmt : SelectStatement) (s : Schema) (l : Rows) : option (Rows * string) :=
  if forallb (hasColumn s) (se_columns stmt) && where_ok s (se_where stmt)
  then Some (l, select_text s (base.filter (λ e, where_holds (se_where stmt) e.2 = true) l).*2 (se_columns stmt))
  else None.

Definition rows_update (stmt : UpdateStatement) (s : Schema) (l : Rows) : option (Rows * string) :=
  if where_ok s (up_where stmt) && forallb (assignment_ok s) (up_assignments stmt) then
    let matches r := where_holds (up_where stmt) r in
    Some ((λ e, if matches e.2 then (e.1, applySets s e.2 (up_assignments stmt)) else e) <$> l,
          "OK (" +:+ rowsSuffix (length (base.filter (λ e, matches e.2 = true) l)) +:+ " updated)")
  else None.

Definition rows_delete (stmt : DeleteStatement) (s : Schema) (l : Rows) : option (Rows * string) :=
  if where_ok s (de_where stmt) then
    let matches r := where_holds (de_where stmt) r in
    Some (base.filter (λ e, matches e.2 = false) l,
          "OK (" +:+ rowsSuffix (length (base.filter (λ e, matches e.2 = true) l)) +:+ " deleted)")
  else None.

(** A statement on the table [n]. *)
Definition at_rows (D : Abs) (n : string) (f : Schema → Rows → option (Rows * string)) : option (Abs * string) :=
  match D !! n with
  | None => None
  | Some (s, l) => match f s l with Some (l', reply) => Some (<[n:=(s, l')]> D, reply) | None => None end
  end.

Definition ref_exec (D : Abs) (s : Statement) : option (Abs * string) :=
  match s with
  | SCreate s => ref_create D s
  | SDrop s => ref_drop D s
  | SInsert s => at_rows D (in_table s) (rows_insert s)
  | SSelect s => at_rows D (se_table s) (rows_select s)
  | SUpdate s => at_rows D (up_table s) (rows_update s)
  | SDelete s => at_rows D (de_table s) (rows_delete s)
  end.

(** The reply to a query text: the reference's, or an error message and no change. *)
Definition ref_query (D : Abs) (query : string) : option (Abs * string) :=
  match parseQuery query with Val s => ref_exec D s | _ => None end.

Definition ref_next (D : Abs) (query : string) : Abs :=
  match ref_query D query with Some (D', _) => D' | None => D end.

Definition answer (D : Abs) (query reply : string) : Prop :=
  match ref_query D query with
  | Some (_, r) => reply = r
  | None => ∃ w, reply = "ERROR: " +:+ w
  end.

Fixpoint answers (D : Abs) (queries replies : list string) : Prop :=
  match queries, replies with
  | [], [] => True
  | q :: qs, r :: rs => answer D q r ∧ answers (ref_next D q) qs rs
  | _, _ => False
  end.
