(* ===== verification/QueryRows.v ===== *)
(** * Queries: conditions, row fetching and replies against the reference

    A WHERE condition compiles exactly when it is well typed, and then it means
    what the reference says; the index paths of [fetchRows] return the same rows
    in the same order as a scan. *)

From S2P Require Import Prelude AssocList CxxStd Schema Row KeyIndex LRUCache Table TableSpec DatabaseSpec Lexer Ast QueryExecutor QueryRef.

(** ** Predicates *)
Lemma value_full s r cn c :
  row_ok s r → full r → findColumn s cn = Some c → ∃ v, value r cn = Val v ∧ typed (type c) v.
Proof.
  intros Hr Hf Hc. rewrite (value_spec s) by done. pose proof (columnIndex_spec s cn) as Hi.
  destruct (columnIndex s cn) as [j|]; [|congruence]. destruct Hi as (c' & Hj & _ & Hc').
  assert (c' = c) as -> by congruence.
  destruct (Forall2_lookup_l _ _ _ _ _ (rk_cells _ _ Hr) Hj) as (v & Hv & Hty). rewrite Hv.
  destruct (Forall_lookup_1 _ _ _ _ Hf Hv) as [v' ->]. by exists v'.
Qed.

Lemma applyOp_compare op (c : comparison) :
  applyOp op (match c with Lt => -1 | Eq => 0 | Gt => 1 end) = op_holds op c.
Proof. by destruct op, c. Qed.

Lemma compare_ints a b :
  (if (a <? b)%Z then -1 else if (a >? b)%Z then 1 else 0)%Z =
  match (a ?= b)%Z with Lt => -1 | Eq => 0 | Gt => 1 end%Z.
Proof. unfold Z.ltb, Z.gtb. by destruct (a ?= b)%Z. Qed.

Lemma compare_strings a b :
  (let raw := compareStrings a b in if (raw <? 0)%Z then -1 else if (raw >? 0)%Z then 1 else 0)%Z =
  match string_order a b with Lt => -1 | Eq => 0 | Gt => 1 end%Z.
Proof.
  unfold compareStrings, string_order. destruct (string_ltb_total a b) as [Hlt|[->|Hgt]].
  - by rewrite Hlt.
  - by rewrite string_ltb_irrefl, bool_decide_eq_true_2.
  - rewrite Hgt. assert (string_ltb a b = false) as ->.
    { apply not_true_is_false. intros Hlt. pose proof (string_ltb_trans _ _ _ Hlt Hgt) as Haa.
      by rewrite string_ltb_irrefl in Haa. }
    rewrite bool_decide_eq_false_2; [done|]. intros ->. by rewrite string_ltb_irrefl in Hgt.
Qed.

Lemma makePredicate_spec s w :
  if clause_ok s w
  then ∃ p, makePredicate s w = Val p ∧ ∀ r, row_ok s r → full r → p r = Val (clause_holds r w)
  else ∃ e, makePredicate s w = Throw (QueryError e).
Proof.
  unfold clause_ok, literal_fits, makePredicate. destruct (findColumn s (wc_column w)) as [c|] eqn:Hc; [|by eexists].
  destruct (isValidValueFor (type c) (wc_value w)) eqn:Hv; simpl; [|by eexists].
  destruct (type c) eqn:Hty; eexists; (split; [done|]); intros r Hr Hf; unfold clause_holds.
  - destruct (getInt_spec s r _ c Hr Hf Hc Hty) as (z & -> & -> & _). simpl.
    unfold parseInt. by rewrite compare_ints, applyOp_compare.
  - destruct (value_full s r _ c Hr Hf Hc) as (v & Hval & Htv). unfold Row.get. rewrite Hval.
    rewrite Hty in Htv. destruct v as [|t]; [done|]. cbn [mbind result_bind toStringValue].
    rewrite compare_strings, applyOp_compare. done.
Qed.

Lemma makeConjunction_spec s ws :
  if where_ok s ws
  then ∃ p, makeConjunction s ws = Val p ∧ ∀ r, row_ok s r → full r → p r = Val (where_holds ws r)
  else ∃ e, makeConjunction s ws = Throw (QueryError e).
Proof.
  unfold where_ok, makeConjunction.
  enough (if forallb (clause_ok s) ws
    then ∃ ps, makePredicates s ws = Val ps ∧ ∀ r, row_ok s r → full r → allHold ps r = Val (where_holds ws r)
    else ∃ e, makePredicates s ws = Throw (QueryError e)) as Hgen.
  { destruct (forallb (clause_ok s) ws); destruct Hgen as (x & -> & Hx) || destruct Hgen as (x & ->); by eexists. }
  induction ws as [|w ws IH]; simpl; [by exists []|].
  pose proof (makePredicate_spec s w) as Hp. destruct (clause_ok s w); simpl.
  - destruct Hp as (p & -> & Hp). cbn [mbind result_bind]. destruct (forallb (clause_ok s) ws).
    + destruct IH as (ps & -> & Hps). cbn [mbind result_bind]. eexists. split; [done|]. intros r Hr Hf. simpl.
      rewrite Hp by done. cbn [mbind result_bind]. destruct (clause_holds r w) eqn:Hw; simpl; [|done].
      rewrite Hps by done. done.
    + destruct IH as (e & ->). by exists e.
  - destruct Hp as (e & ->). by exists e.
Qed.

(** ** Fetching rows *)
Section Fetch.
Context {Ix : Type} `{!KeyIndex Z nat Ix} `{!KeyIndexLaws Z nat Ix}.
Implicit Types (t : Table Ix) (l : list (Z * Row)).

Lemma stored_int64 s id r : (∃ c, findColumn s kIdColumn = Some c ∧ type c = INT) → stored s id r → is_int64 id.
Proof.
  intros (c & Hc & Hty) [Hr Hf Hid]. destruct (value_full s r _ c Hr Hf Hc) as (v & Hv & Htv).
  rewrite Hty in Htv. rewrite Hid in Hv. injection Hv as <-. done.
Qed.

(** On stored rows a condition on the key is a condition on the id. *)
Lemma id_clause_holds s id r w :
  stored s id r → wc_column w = kIdColumn →
  clause_holds r w = op_holds (wc_op w) (id ?= parseInt (wc_value w))%Z.
Proof. intros Hst Hc. unfold clause_holds. rewrite Hc, (st_id _ _ _ Hst). done. Qed.

Lemma lookup_filter (p : Row → bool) k l :
  ksorted l → (∀ e, e ∈ l → p e.2 = true ↔ e.1 = k) →
  (if al_lookup k l is Some r then [r] else []) = (base.filter (λ e, p e.2 = true) l).*2.
Proof.
  intros Hs Hp. destruct (al_lookup k l) as [r|] eqn:Hk.
  - apply al_lookup_elem, list_elem_of_split in Hk as (l1 & l2 & ->).
    apply ksorted_mid in Hs as (Hb & Ha & _). rewrite filter_app, filter_cons_True.
    2: { apply (Hp (k, r)); [|done]. apply elem_of_app. right. by left. }
    assert (Hnil : ∀ l', (∀ e, e ∈ l' → e ∈ l1 ++ (k, r) :: l2) → (∀ e, e ∈ l' → e.1 ≠ k) →
      base.filter (λ e, p e.2 = true) l' = []).
    { clear -Hp. induction l' as [|e l' IH]; intros Hin Hne; [done|]. rewrite filter_cons_False.
      - apply IH; intros e' He'; [apply Hin|apply Hne]; by right.
      - rewrite Hp by (apply Hin; by left). apply Hne. by left. }
    rewrite (Hnil l1), (Hnil l2); [done| | | |].
    + intros e He. apply elem_of_app. right. by right.
    + intros e He Heq. eapply Forall_forall in Ha; [|done]. simpl in Ha. lia.
    + intros e He. apply elem_of_app. by left.
    + intros e He Heq. eapply Forall_forall in Hb; [|done]. simpl in Hb. lia.
  - symmetry. apply al_lookup_None in Hk.
    assert (base.filter (λ e, p e.2 = true) l = []) as ->; [|done].
    assert (Hne : ∀ e, e ∈ l → p e.2 ≠ true).
    { intros e He Hpe. apply Hp in Hpe; [|done]. apply Hk. rewrite <- Hpe. by apply list_elem_of_fmap_2. }
    clear -Hne. induction l as [|e l IH]; [done|]. rewrite filter_cons_False by (apply Hne; by left).
    apply IH. intros e' He'. apply Hne. by right.
Qed.

Lemma range_filter (p : Row → bool) lo hi l :
  (∀ e, e ∈ l → p e.2 = true ↔ (lo ≤ e.1 ≤ hi)%Z) → al_range lo hi l = base.filter (λ e, p e.2 = true) l.
Proof.
  intros Hp. unfold al_range. apply filter_ext_in. intros e He. rewrite Hp by done.
  unfold in_range. simpl. rewrite andb_true_iff, !negb_true_iff, !Z.ltb_ge. lia.
Qed.

Lemma empty_filter (p : Row → bool) l :
  (∀ e, e ∈ l → p e.2 = false) → (base.filter (λ e, p e.2 = true) l).*2 = [].
Proof.
  intros Hp. induction l as [|e l IH]; [done|]. rewrite filter_cons_False; [|rewrite Hp by (by left); done].
  apply IH. intros e' He'. apply Hp. by right.
Qed.

Lemma rowsByIdClause_spec t l w :
  table_ok t l → isIndexableIdClause w = true →
  if clause_ok (schema_ t) w
  then ∃ t', rowsByIdClause w t = Ret t' (base.filter (λ e, clause_holds e.2 w = true) l).*2 ∧
    table_ok t' l ∧ schema_ t' = schema_ t
  else ∃ e, rowsByIdClause w t = Exn t (QueryError e).
Proof.
  intros Ht [Hcol Hop]%andb_true_iff. apply bool_decide_eq_true in Hcol, Hop.
  destruct (to_id _ _ _ Ht) as (c & Hc & Hty). unfold clause_ok, literal_fits, rowsByIdClause.
  rewrite Hcol, Hc, Hty. destruct (isValidValueFor INT (wc_value w)) eqn:Hv; simpl; [|mrun; by eexists].
  set (v := parseInt (wc_value w)).
  assert (Hvi : is_int64 v).
  { apply isValid_int in Hv as (z & Hz). unfold v, parseInt. rewrite Hz. by eapply from_chars_int64. }
  assert (Hcl : ∀ e, e ∈ l → clause_holds e.2 w = op_holds (wc_op w) (e.1 ?= v)%Z).
  { intros [id r] He. eapply id_clause_holds; [by apply Ht|done]. }
  assert (Hid : ∀ e, e ∈ l → is_int64 e.1).
  { intros [id r] He. eapply stored_int64; [apply (to_id _ _ _ Ht)|by apply Ht]. }
  assert (Hiff : ∀ lo hi, (∀ z, is_int64 z → op_holds (wc_op w) (z ?= v)%Z = true ↔ (lo ≤ z ≤ hi)%Z) →
    ∃ t', selectIdRange lo hi t = Ret t' (base.filter (λ e, clause_holds e.2 w = true) l).*2 ∧
      table_ok t' l ∧ schema_ t' = schema_ t).
  { intros lo hi Hz. exists t. split; [|done]. rewrite (selectIdRange_spec t l) by done.
    rewrite (range_filter (λ r, clause_holds r w)); [done|]. intros e He. rewrite Hcl by done. apply Hz, Hid, He. }
  unfold is_int64, INT64_MIN, INT64_MAX in *.
  destruct (wc_op w) eqn:Hw; try done.
  - destruct (findById_spec t l v Ht) as (t' & Hf & Ht' & Hs' & _). erewrite M_bind_run by done. mrun.
    exists t'. split; [|done]. f_equal. apply (lookup_filter (λ r, clause_holds r w)); [by eapply to_sorted|].
    intros e He. rewrite Hcl by done. destruct (Z.compare_spec e.1 v); simpl; split; intros; (lia || done).
  - case_bool_decide as Hmin.
    + mrun. exists t. split; [|done]. f_equal. symmetry. apply (empty_filter (λ r, clause_holds r w)).
      intros e He. rewrite Hcl by done. pose proof (Hid e He). destruct (Z.compare_spec e.1 v); [done|lia|done].
    + apply Hiff. intros z Hz. destruct (Z.compare_spec z v); simpl; split; intros; (lia || done).
  - apply Hiff. intros z Hz. destruct (Z.compare_spec z v); simpl; split; intros; (lia || done).
  - case_bool_decide as Hmax.
    + mrun. exists t. split; [|done]. f_equal. symmetry. apply (empty_filter (λ r, clause_holds r w)).
      intros e He. rewrite Hcl by done. pose proof (Hid e He). destruct (Z.compare_spec e.1 v); [done|done|lia].
    + apply Hiff. intros z Hz. destruct (Z.compare_spec z v); simpl; split; intros; (lia || done).
  - apply Hiff. intros z Hz. destruct (Z.compare_spec z v); simpl; split; intros; (lia || done).
Qed.

(** The index condition and the others make up the whole list. *)
Lemma findIndexable_Some ws w rest :
  findIndexable ws = Some (w, rest) → isIndexableIdClause w = true ∧ ws ≡ₚ w :: rest.
Proof.
  revert rest. induction ws as [|w0 ws IH]; intros rest; simpl; [done|].
  destruct (isIndexableIdClause w0) eqn:Hi; [by intros [= <- <-]|].
  destruct (findIndexable ws) as [[x others]|] eqn:Hf; [|done]. intros [= -> <-].
  destruct (IH others eq_refl) as [Hx Hp]. split; [done|]. rewrite Hp. apply Permutation_swap.
Qed.

Lemma forallb_perm {A} (f : A → bool) (l1 l2 : list A) : l1 ≡ₚ l2 → forallb f l1 = forallb f l2.
Proof.
  induction 1 as [|x l1 l2 Hp IH|x y l|l1 l2 l3 H1 IH1 H2 IH2]; simpl; [done|by rewrite IH| |congruence].
  by destruct (f x), (f y).
Qed.

Lemma filterRows_spec p (q : Row → bool) rows :
  (∀ r, r ∈ rows → p r = Val (q r)) → filterRows p rows = Val (base.filter (λ r, q r = true) rows).
Proof.
  intros Hp. unfold filterRows. rewrite (foldR_collect p q id) by done. by rewrite list_fmap_id.
Qed.

Lemma filter_snd (q : Row → bool) l :
  base.filter (λ r, q r = true) l.*2 = (base.filter (λ e, q e.2 = true) l).*2.
Proof.
  induction l as [|e l IH]; [done|]. csimpl. rewrite !filter_cons. destruct (decide (q e.2 = true)); csimpl; by rewrite IH.
Qed.

Lemma fetchRows_spec t l ws :
  table_ok t l →
  if where_ok (schema_ t) ws
  then ∃ t', fetchRows ws t = Ret t' (base.filter (λ e, where_holds ws e.2 = true) l).*2 ∧
    table_ok t' l ∧ schema_ t' = schema_ t
  else ∃ t' e, fetchRows ws t = Exn t' (QueryError e) ∧ table_ok t' l ∧ schema_ t' = schema_ t.
Proof.
  intros Ht. unfold where_ok, fetchRows. destruct ws as [|w0 ws0]; cbn [forallb].
  { exists t. split; [|done]. rewrite (selectAll_spec t l) by done. by rewrite filter_all. }
  mrun. change (clause_ok (schema_ t) w0 && forallb (clause_ok (schema_ t)) ws0)
    with (forallb (clause_ok (schema_ t)) (w0 :: ws0)). set (ws := w0 :: ws0). clearbody ws.
  fold (where_ok (schema_ t) ws).
  destruct (findIndexable ws) as [[w rest]|] eqn:Hfi.
  - apply findIndexable_Some in Hfi as [Hi Hp].
    assert (Hok : where_ok (schema_ t) ws = clause_ok (schema_ t) w && where_ok (schema_ t) rest)
      by (unfold where_ok; by rewrite (forallb_perm _ _ _ Hp)).
    assert (Hholds : ∀ r, where_holds ws r = clause_holds r w && where_holds rest r)
      by (intros r; unfold where_holds; by rewrite (forallb_perm _ _ _ Hp)).
    rewrite Hok. pose proof (rowsByIdClause_spec t l w Ht Hi) as Hrows.
    destruct (clause_ok (schema_ t) w); cbn [andb].
    2: { destruct Hrows as (e & Hex). exists t, e. erewrite M_bind_exn by done. done. }
    destruct Hrows as (t1 & Hrun & Ht1 & Hs1). erewrite M_bind_run by done.
    assert (Hfilter : base.filter (λ e, where_holds ws e.2 = true) l =
      base.filter (λ e, where_holds rest e.2 = true) (base.filter (λ e, clause_holds e.2 w = true) l)).
    { rewrite list_filter_filter. apply filter_ext_in. intros e _. rewrite Hholds, andb_true_iff. tauto. }
    destruct rest as [|w' rest'].
    + cbn [where_ok forallb]. mrun. exists t1. split; [|done]. f_equal. rewrite Hfilter. f_equal. symmetry. by apply filter_all.
    + pose proof (makeConjunction_spec (schema_ t) (w' :: rest')) as Hmk.
      destruct (where_ok (schema_ t) (w' :: rest')).
      * destruct Hmk as (p & -> & Hpr). mrun.
        rewrite (filterRows_spec p (where_holds (w' :: rest'))).
        -- mrun. exists t1. split; [|done]. f_equal. by rewrite Hfilter, filter_snd.
        -- intros r ([id r'] & -> & [_ Hin]%list_elem_of_filter)%list_elem_of_fmap. simpl.
           destruct (to_stored _ _ _ Ht id r' Hin) as [? ? _]. by apply Hpr.
      * destruct Hmk as (e & ->). mrun. exists t1, e. done.
  - pose proof (makeConjunction_spec (schema_ t) ws) as Hmk. destruct (where_ok (schema_ t) ws).
    + destruct Hmk as (p & -> & Hpr). mrun. exists t. split; [|done].
      apply (selectWhere_spec _ (where_holds ws)); [done|]. intros [id r] Hin. simpl.
      destruct (to_stored _ _ _ Ht id r Hin) as [? ? _]. by apply Hpr.
    + destruct Hmk as (e & ->). mrun. exists t, e. done.
Qed.
End Fetch.

(** ** Replies *)
Lemma concat_cons sep x l :
  String.concat sep (x :: l) = x +:+ match l with [] => "" | _ => sep +:+ String.concat sep l end.
Proof. destruct l; [by rewrite string_append_nil|done]. Qed.

Lemma formatCells_spec s r i cols :
  row_ok s r → full r → forallb (hasColumn s) cols = true →
  formatCells r i cols = Val ((if bool_decide (0 < i) then match cols with [] => "" | _ => ", " end else "") +:+
    String.concat ", " ((λ c, c +:+ "=" +:+ cell_text r c) <$> cols)).
Proof.
  intros Hr Hf. revert i. induction cols as [|c cols IH]; intros i Hc.
  { simpl. by destruct (bool_decide (0 < i)). }
  simpl in Hc. apply andb_true_iff in Hc as [Hh Hc]. cbn [formatCells].
  unfold hasColumn in Hh. destruct (findColumn s c) as [col|] eqn:Hcol; [|done].
  destruct (value_full s r c col Hr Hf Hcol) as (v & Hv & _). unfold Row.get. rewrite Hv. cbn [mbind result_bind].
  rewrite IH by done. cbn [mbind result_bind]. f_equal. rewrite !fmap_cons, concat_cons.
  assert (cell_text r c = toStringValue v) as -> by (unfold cell_text; by rewrite Hv).
  rewrite !string_append_assoc. f_equal. f_equal. f_equal. f_equal.
  rewrite bool_decide_eq_true_2 by lia. by destruct cols.
Qed.

Lemma printCells_spec s r l1 l2 :
  row_ok s r → schema_ok s → columns_ s = l1 ++ l2 → full r →
  printCells r (length l1) l2 =
    (if bool_decide (0 < length l1) then match l2 with [] => "" | _ => ", " end else "") +:+
    String.concat ", " ((λ c, c +:+ "=" +:+ cell_text r c) <$> (name <$> l2)).
Proof.
  intros Hr Hok Hl Hf. revert l1 Hl. induction l2 as [|c l2 IH]; intros l1 Hl.
  { simpl. by destruct (bool_decide (0 < length l1)). }
  cbn [printCells]. assert (Hj : columns_ s !! length l1 = Some c) by (rewrite Hl; by apply list_lookup_middle).
  destruct (Forall2_lookup_l _ _ _ _ _ (rk_cells _ _ Hr) Hj) as (v & Hv & _).
  destruct (Forall_lookup_1 _ _ _ _ Hf Hv) as [v' ->]. rewrite Hv.
  pose proof (IH (l1 ++ [c])) as IH'. rewrite length_app in IH'. simpl in IH'.
  replace (length l1 + 1) with (S (length l1)) in IH' by lia.
  rewrite IH' by (by rewrite Hl, <- (assoc_L (++))). rewrite !fmap_cons, concat_cons.
  assert (cell_text r (name c) = toStringValue v') as ->.
  { unfold cell_text. rewrite (value_spec s) by done. by rewrite (columnIndex_at s _ c Hok Hj), Hv. }
  rewrite !string_append_assoc. f_equal. f_equal. f_equal. f_equal.
  rewrite (bool_decide_eq_true_2 (0 < S _)) by lia. by destruct l2.
Qed.

Lemma formatRow_spec s r cols :
  row_ok s r → schema_ok s → full r → forallb (hasColumn s) cols = true →
  formatRow r cols = Val (row_text s r cols).
Proof.
  intros Hr Hok Hf Hc. unfold formatRow, row_text. destruct cols as [|c cols].
  - unfold Row.print, Row.schema. rewrite (rk_schema _ _ Hr). cbn [deref mbind result_bind].
    f_equal. by apply (printCells_spec s r [] (columns_ s)).
  - by rewrite (formatCells_spec s).
Qed.

Lemma formatRows_spec s rows cols :
  schema_ok s → Forall (λ r, row_ok s r ∧ full r) rows → forallb (hasColumn s) cols = true →
  formatRows rows cols = Val (String.concat "" ((λ r, row_text s r cols +:+ newline) <$> rows)).
Proof.
  intros Hok Hrows Hc. induction Hrows as [|r rows [Hr Hf] Hrows IH]; [done|]. cbn [formatRows].
  rewrite (formatRow_spec s) by done. cbn [mbind result_bind]. rewrite IH. cbn [mbind result_bind].
  f_equal. rewrite !fmap_cons, concat_cons, string_append_assoc. do 2 f_equal. by destruct rows.
Qed.
