(* ===== verification/QueryBodies.v ===== *)
(** * Queries: statements on one table against the reference

    [body_refines]: the part of a statement behind [tableOrThrow], run on a table
    that stands for the rows [l], gives the reference's rows and reply; where the
    reference has none it throws and the table stands for [l] still. *)

From S2P Require Import Prelude AssocList CxxStd Schema Row KeyIndex LRUCache Table TableSpec DatabaseSpec.
From S2P Require Import Lexer Ast Parser ParserSpec QueryExecutor QueryRef QueryRows.

Section Bodies.
Context {Ix : Type} `{!KeyIndex Z nat Ix} `{!KeyIndexLaws Z nat Ix}.
Implicit Types (t : Table Ix) (s : Schema) (l : Rows).

Definition body_refines (o : outcome (Table Ix) string) s l (res : option (Rows * string)) : Prop :=
  match o, res with
  | Ret t reply, Some (l', r) => reply = r ∧ table_ok t l' ∧ schema_ t = s
  | Exn t _, None => table_ok t l ∧ schema_ t = s
  | _, _ => False
  end.

(** ** INSERT *)
Lemma setColumns_spec s r cols vals :
  row_ok s r → length cols = length vals →
  if forallb (λ a, literal_fits s a.1 a.2) (zip cols vals)
  then setColumns r cols vals = Val (applySets s r (zip cols vals)) ∧ row_ok s (applySets s r (zip cols vals))
  else ∃ w, setColumns r cols vals = Throw (InvalidArgument w).
Proof.
  revert r vals. induction cols as [|c cols IH]; intros r [|v vals] Hr Hlen; try done.
  cbn [setColumns zip_with forallb]. pose proof (applySet_fits s r (c, v) Hr) as Ha. simpl in Ha.
  cbn [fst snd]. destruct (literal_fits s c v); cbn [andb].
  - destruct Ha as [-> Hr']. cbn [mbind result_bind]. apply IH; [done|by injection Hlen].
  - destruct Ha as (w & ->). by exists w.
Qed.

Lemma getInt_defined s r cn c :
  row_ok s r → findColumn s cn = Some c → type c = INT →
  (∃ z, getInt r cn = Val z) ∨ ∃ e, getInt r cn = Throw e.
Proof.
  intros Hr Hc Hty. unfold getInt, Row.schema. rewrite (rk_schema _ _ Hr). cbn [deref mbind result_bind].
  rewrite Hc, bool_decide_eq_false_2 by (rewrite Hty; tauto). rewrite (value_spec s) by done.
  pose proof (columnIndex_spec s cn) as Hi. destruct (columnIndex s cn) as [j|]; [|by right; eexists].
  destruct (values_ r !! j) as [[[z|]|]|]; simpl; eauto.
Qed.

Lemma insertInto_spec t l stmt :
  table_ok t l → length (in_columns stmt) = length (in_values stmt) →
  body_refines (insertInto stmt t) (schema_ t) l (rows_insert stmt (schema_ t) l).
Proof.
  intros Ht Hlen. unfold insertInto, rows_insert. mrun. unfold Table.makeRow, Row.makeRow. mrun.
  set (s := schema_ t) in *. change (mkRow (Some s) (replicate (columnCount s) None)) with (blank s).
  assert (Hblank : row_ok s (blank s)) by (destruct (makeRow_ok s) as (r & [= <-] & Hr); done).
  pose proof (setColumns_spec s _ _ _ Hblank Hlen) as Hset.
  set (zipped := zip (in_columns stmt) (in_values stmt)) in *. set (r := applySets s (blank s) zipped) in *.
  destruct (forallb (λ a, literal_fits s a.1 a.2) zipped); cbn [andb].
  2: { destruct Hset as (w & ->). mrun. done. }
  destruct Hset as [-> Hr]. mrun. clearbody r. clear zipped Hlen Hblank.
  destruct (to_id _ _ _ Ht) as (idc & Hidc & Hty). fold s in Hidc.
  pose proof (insert_row_spec t l r s Ht Hr) as Hins. rewrite decide_True in Hins by done. destruct Hins as [Hok Hbad].
  destruct (is_full r) eqn:Hfull.
  - apply is_full_spec in Hfull. destruct (getInt_spec s r _ idc Hr Hfull Hidc Hty) as (id & Hid & Hval & _).
    rewrite Hid, Hval. mrun. destruct (Hok Hfull) as (id' & t2 & Hid' & _ & _ & Hrun & Ht2 & Hs2).
    assert (id' = id) as -> by congruence. erewrite M_bind_run by done. case_bool_decide as Hl; simpl; mrun; [done|].
    rewrite al_insert_present in Ht2; [done|by eapply to_sorted|by apply not_eq_None_Some].
  - assert (Hnf : ¬ full r) by (rewrite <- is_full_spec; congruence).
    destruct (getInt_defined s r _ idc Hr Hidc Hty) as [(z & ->)|(e & ->)]; mrun; [|done].
    erewrite M_bind_exn by (by apply Hbad). done.
Qed.

(** ** SELECT *)
Lemma checkColumns_spec {S} s cols (st : S) :
  if forallb (hasColumn s) cols
  then forM cols (λ c, lift (checkColumn s c)) st = Ret st ()
  else ∃ e, forM cols (λ c, lift (checkColumn s c)) st = Exn st e.
Proof.
  induction cols as [|c cols IH]; [done|]. cbn [forM forallb].
  assert (checkColumn s c = if hasColumn s c then Val () else Throw (QueryError ("no such column '" +:+ c +:+ "'"))) as ->
    by (unfold checkColumn; by destruct (hasColumn s c)).
  destruct (hasColumn s c); cbn [negb andb]; mrun; [exact IH|by eexists].
Qed.

Lemma filtered_rows_ok s l (q : Row → bool) :
  (∀ id r, (id, r) ∈ l → stored s id r) →
  Forall (λ r, row_ok s r ∧ full r) (base.filter (λ e, q e.2 = true) l).*2.
Proof.
  intros Hst. apply Forall_fmap, Forall_forall. intros [id r] [_ Hin]%list_elem_of_filter. simpl.
  by destruct (Hst id r Hin).
Qed.

Lemma selectFrom_spec t l stmt :
  table_ok t l → body_refines (selectFrom stmt t) (schema_ t) l (rows_select stmt (schema_ t) l).
Proof.
  intros Ht. unfold selectFrom, rows_select. mrun.
  pose proof (checkColumns_spec (schema_ t) (se_columns stmt) t) as Hck.
  destruct (forallb (hasColumn (schema_ t)) (se_columns stmt)) eqn:Hcols; cbn [andb].
  2: { destruct Hck as (e & Hck). erewrite M_bind_exn by done. done. }
  erewrite M_bind_run by done. pose proof (fetchRows_spec t l (se_where stmt) Ht) as Hf.
  destruct (where_ok (schema_ t) (se_where stmt)) eqn:Hw.
  - destruct Hf as (t' & Hf & Ht' & Hs'). erewrite M_bind_run by done.
    assert (Hrows : Forall (λ r, row_ok (schema_ t) r ∧ full r) (base.filter (λ e, where_holds (se_where stmt) e.2 = true) l).*2).
    { apply filtered_rows_ok. apply Ht. }
    set (rows := (base.filter (λ e, where_holds (se_where stmt) e.2 = true) l).*2) in *. clearbody rows.
    unfold select_text. destruct rows as [|r rows]; [mrun; done|].
    rewrite (formatRows_spec (schema_ t)) by (done || apply Ht). mrun. done.
  - destruct Hf as (t' & e & Hf & Ht' & Hs'). erewrite M_bind_exn by done. done.
Qed.

(** ** UPDATE *)
Definition wherePredicate (s : Schema) (ws : WhereList) : result predicate :=
  match ws with [] => Val (λ _, Val true) | w :: ws' => makeConjunction s (w :: ws') end.

Lemma wherePredicate_spec s ws :
  if where_ok s ws
  then ∃ p, wherePredicate s ws = Val p ∧ ∀ r, row_ok s r → full r → p r = Val (where_holds ws r)
  else ∃ e, wherePredicate s ws = Throw (QueryError e).
Proof. destruct ws as [|w ws]; [by eexists|]. apply makeConjunction_spec. Qed.

(** A condition that holds of rows as [ws] does, on the rows of a table. *)
Lemma on_rows t l (p : predicate) ws :
  table_ok t l → (∀ r, row_ok (Table.schema_ t) r → full r → p r = Val (where_holds ws r)) →
  ∀ e, e ∈ l → p e.2 = Val (where_holds ws e.2).
Proof. intros Ht Hp [id r] Hin. destruct (to_stored _ _ _ Ht id r Hin) as [Hr Hf _]. by apply Hp. Qed.

Lemma updateIn_spec t l stmt :
  table_ok t l → body_refines (updateIn stmt t) (schema_ t) l (rows_update stmt (schema_ t) l).
Proof.
  intros Ht. unfold updateIn, rows_update. mrun.
  match goal with |- context [lift ?x] => change x with (wherePredicate (schema_ t) (up_where stmt)) end.
  pose proof (wherePredicate_spec (schema_ t) (up_where stmt)) as Hw. destruct (where_ok (schema_ t) (up_where stmt)); cbn [andb].
  2: { destruct Hw as (e & ->). mrun. done. }
  destruct Hw as (p & -> & Hp). mrun. unfold catchInvalid.
  destruct (forallb (assignment_ok (schema_ t)) (up_assignments stmt)) eqn:Ha.
  - apply assignments_ok_spec in Ha as Hva.
    destruct (updateWhere_spec p (where_holds (up_where stmt)) t l (up_assignments stmt)) as (t' & Hrun & Ht' & Hs'); [done|by apply (on_rows t)|done|].
    erewrite M_bind_run by (by rewrite Hrun). mrun. done.
  - destruct (updateWhere_invalid p t l (up_assignments stmt) Ht) as (w & Hrun); [rewrite <- assignments_ok_spec; congruence|].
    erewrite M_bind_exn by (by rewrite Hrun). done.
Qed.

(** ** DELETE *)
Lemma deleteFrom_where t l ws :
  table_ok t l →
  let m := (match ws with
      | [] => deleteWhere (λ _, Val true)
      | _ => p ← lift (makeConjunction (schema_ t) ws); deleteWhere p
      end : M (Table Ix) nat) in
  if where_ok (schema_ t) ws
  then ∃ t', m t = Ret t' (length (base.filter (λ e, where_holds ws e.2 = true) l)) ∧
    table_ok t' (base.filter (λ e, where_holds ws e.2 = false) l) ∧ schema_ t' = schema_ t
  else ∃ e, m t = Exn t (QueryError e).
Proof.
  intros Ht m.
  assert (m t = (p ← lift (wherePredicate (schema_ t) ws); deleteWhere p) t) as -> by (by destruct ws).
  pose proof (wherePredicate_spec (schema_ t) ws) as Hw. destruct (where_ok (schema_ t) ws).
  2: { destruct Hw as (e & ->). mrun. by exists e. }
  destruct Hw as (p & -> & Hp). mrun. apply (deleteWhere_spec p (where_holds ws)); [done|]. by apply (on_rows t).
Qed.

(** Deletion through the key index removes what the condition selects. *)
Lemma deleteFrom_byId t l w :
  table_ok t l → wc_column w = kIdColumn → wc_op w = EQ → isValidValueFor INT (wc_value w) = true →
  where_ok (schema_ t) [w] = true ∧
  ∃ t', (b ← deleteById (parseInt (wc_value w)); mret (if b : bool then 1 else 0)) t =
      Ret t' (length (base.filter (λ e, where_holds [w] e.2 = true) l)) ∧
    table_ok t' (base.filter (λ e, where_holds [w] e.2 = false) l) ∧ schema_ t' = schema_ t.
Proof.
  intros Ht Hc Hop Hv. set (id := parseInt (wc_value w)).
  assert (Hiff : ∀ e, e ∈ l → where_holds [w] e.2 = true ↔ e.1 = id).
  { intros [k r] Hin. unfold where_holds. cbn [forallb fst snd]. rewrite andb_true_r.
    rewrite (id_clause_holds (schema_ t) k r) by (done || by apply Ht).
    rewrite Hop. fold id. destruct (Z.compare_spec k id); simpl; split; (done || lia). }
  split.
  { unfold where_ok, clause_ok, literal_fits. simpl. rewrite Hc. destruct (to_id _ _ _ Ht) as (c & Hf & Hty).
    by rewrite Hf, Hty, Hv. }
  assert (Hdel : base.filter (λ e, where_holds [w] e.2 = false) l = al_delete id l).
  { unfold al_delete. apply filter_ext_in. intros e He. rewrite keqb_false, <- not_true_iff_false, Hiff by done. done. }
  assert (Hcount : length (base.filter (λ e, where_holds [w] e.2 = true) l) =
    if bool_decide (is_Some (al_lookup id l)) then 1 else 0).
  { rewrite <- (length_fmap snd), <- (lookup_filter (where_holds [w]) id l); [|by eapply to_sorted|done].
    destruct (al_lookup id l); [by rewrite bool_decide_eq_true_2|done]. }
  rewrite Hdel, Hcount. destruct (deleteById_spec t l id Ht) as (t' & Hrun & Ht' & Hs').
  exists t'. erewrite M_bind_run by done. done.
Qed.

Lemma deleteFrom_spec t l stmt :
  table_ok t l → body_refines (deleteFrom stmt t) (schema_ t) l (rows_delete stmt (schema_ t) l).
Proof.
  intros Ht. unfold deleteFrom, rows_delete. mrun. cbv zeta.
  match goal with |- body_refines ((?mm ≫= _) _) _ _ _ => set (m := mm) end.
  assert (Hm : if where_ok (schema_ t) (de_where stmt)
    then ∃ t', m t = Ret t' (length (base.filter (λ e, where_holds (de_where stmt) e.2 = true) l)) ∧
      table_ok t' (base.filter (λ e, where_holds (de_where stmt) e.2 = false) l) ∧ schema_ t' = schema_ t
    else ∃ e, m t = Exn t (QueryError e)).
  { pose proof (deleteFrom_where t l (de_where stmt) Ht) as Hall. unfold m.
    destruct (de_where stmt) as [|w [|w2 ws]]; try exact Hall.
    destruct (bool_decide _ && _ && _) eqn:Hid; [|exact Hall].
    apply andb_true_iff in Hid as [[Hc%bool_decide_eq_true Hop%bool_decide_eq_true]%andb_true_iff Hv].
    destruct (deleteFrom_byId t l w Ht Hc Hop Hv) as (-> & Hx). exact Hx. }
  clearbody m. destruct (where_ok (schema_ t) (de_where stmt)).
  - destruct Hm as (t' & Hrun & Ht' & Hs'). erewrite M_bind_run by done. mrun. done.
  - destruct Hm as (e & Hrun). erewrite M_bind_exn by done. done.
Qed.
End Bodies.
