(* ===== verification/QuerySpec.v ===== *)
(** * Queries: every statement against the reference

    The pieces of a statement on a database in any state of its clients: CREATE
    and DROP, taking a handle, working on its table, letting it go.  [refines]: a
    statement that runs gives the reference's state and reply; where the reference
    has none it throws and the state stands for what it did. *)

From S2P Require Import Prelude AssocList CxxStd Schema Row KeyIndex LRUCache Table TableSpec SharedPtr Database DatabaseSpec.
From S2P Require Import Lexer Ast Parser ParserSpec QueryExecutor QueryConcurrent QueryRef QueryRows QueryBodies.

Section Spec.
Context {Ix Dx : Type} `{!KeyIndex Z nat Ix} `{!KeyIndexLaws Z nat Ix}.
Context `{!KeyIndex string SharedPtr Dx} `{!KeyIndexLaws string SharedPtr Dx}.
Abbreviation DB := (Database Ix Dx).
Implicit Types (db : DB) (D : Abs) (n : string) (sp : SharedPtr) (ls : list SharedPtr).

(** ** CREATE and DROP *)
Lemma buildSchema_spec defs :
  let s := mkSchema ((λ d, mkColumn (cd_name d) (cd_type d)) <$> defs) in
  if decide (schema_ok s) then buildSchema defs = Val s else ∃ w, buildSchema defs = Throw (InvalidArgument w).
Proof.
  intros s. unfold buildSchema.
  set (col := λ d, mkColumn (cd_name d) (cd_type d)) in *.
  enough (∀ l0, schema_ok (mkSchema l0) →
    if decide (schema_ok (mkSchema (l0 ++ (col <$> defs))))
    then foldR (λ s d, addColumn s (cd_name d) (cd_type d)) (mkSchema l0) defs = Val (mkSchema (l0 ++ (col <$> defs)))
    else ∃ w, foldR (λ s d, addColumn s (cd_name d) (cd_type d)) (mkSchema l0) defs = Throw (InvalidArgument w)) as Hgen.
  { apply (Hgen []). split; [apply NoDup_nil_2|by intros ?%elem_of_nil]. }
  clear s. induction defs as [|d defs IH]; intros l0 Hl0.
  { csimpl. rewrite app_nil_r, decide_True by done. done. }
  cbn [foldR]. pose proof (addColumn_spec (mkSchema l0) (cd_name d) (cd_type d) Hl0) as Ha.
  rewrite fmap_cons, cons_middle, (assoc_L (++)).
  assert (Hsub : schema_ok (mkSchema ((l0 ++ [col d]) ++ (col <$> defs))) → schema_ok (mkSchema (l0 ++ [col d]))).
  { unfold schema_ok. simpl. rewrite (fmap_app name (l0 ++ _)), NoDup_app, elem_of_app. intros [(? & _ & _) ?]. tauto. }
  destruct (addColumn (mkSchema l0) (cd_name d) (cd_type d)) as [s'|[]|]; try done; cbn [mbind result_bind].
  - destruct Ha as (Hok & Hcols & _). destruct s' as [cols]. simpl in Hcols. subst cols. by apply IH.
  - rewrite decide_False; [by eexists|]. intros Hok%Hsub. destruct Hok as [Hn He]. simpl in *.
    rewrite fmap_app in Hn, He. csimpl in *. destruct Ha as [Hemp|[c Hc]].
    + apply He. rewrite Hemp. apply elem_of_app. right. by left.
    + apply findColumn_name in Hc as Hname. unfold findColumn in Hc. simpl in Hc.
      rewrite NoDup_app in Hn. destruct Hn as (_ & Hd & _). apply (Hd (cd_name d)); [|by left].
      destruct (decide (cd_name d ∈ name <$> l0)) as [|Hni]; [done|]. apply findByName_spec in Hni. congruence.
Qed.

Lemma view_new ls db m A n p c x :
  stands ls db m A → A !! p = None →
  view (<[n:=mkSharedPtr (Some p) (Some c)]> m) (<[p:=x]> A) = <[n:=x]> (view m A).
Proof.
  intros Hst Hp. apply map_eq. intros n'. rewrite view_lookup. destruct (decide (n = n')) as [<-|Hne].
  { by rewrite !lookup_insert_eq; simpl; rewrite lookup_insert_eq. }
  rewrite !lookup_insert_ne, view_lookup by done. destruct (m !! n') as [sp|] eqn:Hn'; [|done].
  destruct (named_table _ _ _ _ _ _ Hst Hn') as (p' & c' & t & y & -> & _ & Hy & _). simpl.
  rewrite lookup_insert_ne; [done|]. congruence.
Qed.

Lemma runCreate_stands ls db m A stmt :
  stands ls db m A →
  match ref_create (view m A) stmt with
  | Some (D', r) => ∃ db' p c s, runCreate stmt db = Ret db' r ∧ A !! p = None ∧ m !! cr_table stmt = None ∧
      stands ls db' (<[cr_table stmt:=mkSharedPtr (Some p) (Some c)]> m) (<[p:=(s, [])]> A) ∧
      D' = <[cr_table stmt:=(s, [])]> (view m A)
  | None => ∃ db' e A', runCreate stmt db = Exn db' e ∧ stands ls db' m A' ∧ keeps ls m A A'
  end.
Proof.
  intros Hst. unfold runCreate, ref_create. pose proof (buildSchema_spec (cr_columns stmt)) as Hb.
  set (s := mkSchema ((λ d, mkColumn (cd_name d) (cd_type d)) <$> cr_columns stmt)) in *. cbv zeta in Hb.
  destruct (decide (schema_ok s)) as [Hs|Hs].
  2: { destruct Hb as (w & ->). mrun. rewrite bool_decide_eq_false_2 by tauto. by exists db, (InvalidArgument w), A. }
  rewrite Hb. mrun. pose proof (createTable_stands ls db m A (cr_table stmt) s Hst Hs) as Hc.
  case_bool_decide as Hname; simpl in Hc.
  { destruct Hc as (w & Hx). erewrite M_bind_exn by done. rewrite bool_decide_eq_false_2 by tauto. by exists db, (InvalidArgument w), A. }
  destruct (has_int_id s); simpl in Hc.
  2: { destruct Hc as (w & Hx). erewrite M_bind_exn by done. rewrite bool_decide_eq_false_2 by (intros (_ & ? & _); done).
       by exists db, (InvalidArgument w), A. }
  pose proof (view_none _ _ _ _ (cr_table stmt) Hst) as Hv. destruct (m !! cr_table stmt) as [sp|] eqn:Hm.
  - destruct Hc as (db' & A' & Hrun & Hst' & Hk). erewrite M_bind_run by done. simpl. mrun.
    rewrite bool_decide_eq_false_2 by (intros (_ & _ & _ & Hx); by apply Hv in Hx). eauto 10.
  - destruct Hc as (db' & q & c & Hrun & Hq & Hst'). erewrite M_bind_run by done. simpl. mrun.
    rewrite bool_decide_eq_true_2 by (split_and!; try done; by apply Hv). by exists db', q, c, s.
Qed.

Lemma runDrop_stands ls db m A stmt :
  stands ls db m A →
  match ref_drop (view m A) stmt with
  | Some (D', r) => ∃ db' A', runDrop stmt db = Ret db' r ∧ is_Some (m !! dr_table stmt) ∧
      stands ls db' (delete (dr_table stmt) m) A' ∧ keeps ls (delete (dr_table stmt) m) A A' ∧
      D' = delete (dr_table stmt) (view m A)
  | None => ∃ db' e A', runDrop stmt db = Exn db' e ∧ stands ls db' m A' ∧ keeps ls m A A'
  end.
Proof.
  intros Hst. unfold runDrop, ref_drop. pose proof (view_none _ _ _ _ (dr_table stmt) Hst) as Hv.
  destruct (dropTable_stands ls db m A (dr_table stmt) Hst) as (db' & A' & Hrun & Hst' & Hk & _).
  erewrite M_bind_run by done. destruct (m !! dr_table stmt) as [sp|] eqn:Hm.
  - destruct (view m A !! dr_table stmt) eqn:HD; [|by pose proof (proj1 Hv eq_refl)].
    rewrite bool_decide_eq_true_2 by done. simpl. mrun. by exists db', A'.
  - rewrite (proj2 Hv eq_refl). rewrite bool_decide_eq_false_2 by (by intros [? ?]). simpl. mrun.
    rewrite delete_id in * by done. eauto 10.
Qed.

(** ** Statements on a table *)
Definition body_ok (body : M (Table Ix) string) (f : Schema → Rows → option (Rows * string)) : Prop :=
  ∀ t l, table_ok t l → body_refines (body t) (schema_ t) l (f (schema_ t) l).

Lemma atTable_stands ls db m A p c s l body f :
  stands ls db m A → body_ok body f → A !! p = Some (s, l) →
  match f s l with
  | Some (l', r) => ∃ db', atTable (mkSharedPtr (Some p) (Some c)) body db = Ret db' r ∧ stands ls db' m (<[p:=(s, l')]> A)
  | None => ∃ db' e, atTable (mkSharedPtr (Some p) (Some c)) body db = Exn db' e ∧ stands ls db' m A
  end.
Proof.
  intros Hst Hb Hp. pose proof (st_contents _ _ _ _ Hst p) as Hc. rewrite Hp in Hc.
  unfold atTable. simpl. destruct (objects (heap_ db) !! p) as [t|] eqn:Ht; [|done]. destruct Hc as [Hok Hs]. simpl in Hok, Hs. subst s.
  specialize (Hb t l Hok). unfold body_refines in Hb. destruct (body t) as [t' r|t' e|].
  - destruct (f (schema_ t) l) as [[l' r']|]; [|done]. destruct Hb as (-> & Ht' & Hs'). eexists. split; [done|].
    by apply stands_set.
  - destruct (f (schema_ t) l); [done|]. destruct Hb as (Ht' & Hs'). eexists _, e. split; [done|].
    rewrite <- (insert_id A p (schema_ t, l)) by done. by apply stands_set.
  - by destruct (f (schema_ t) l) as [[??]|].
Qed.

Lemma tableOrThrow_stands ls db m A n :
  stands ls db m A →
  match m !! n with
  | None => ∃ e, tableOrThrow n db = Exn db e
  | Some sp => ∃ db', tableOrThrow n db = Ret db' sp ∧ stands (sp :: ls) db' m A
  end.
Proof.
  intros Hst. pose proof (getTable_stands ls db m A n Hst) as Hg. unfold tableOrThrow. mrun.
  destruct (m !! n) as [sp|] eqn:Hn.
  - destruct Hg as (db' & Hrun & Hst'). destruct (named_table _ _ _ _ _ _ Hst Hn) as (p & c & t & x & -> & _).
    erewrite M_bind_run by done. rewrite bool_decide_eq_false_2 by done. mrun. eauto.
  - erewrite M_bind_run by done. rewrite bool_decide_eq_true_2 by done. mrun. eauto.
Qed.

(** ** Whole statements *)
Definition refines ls (o : outcome DB string) D (res : option (Abs * string)) : Prop :=
  match o, res with
  | Ret db reply, Some (D', r) => reply = r ∧ db_ok ls db D'
  | Exn db _, None => db_ok ls db D
  | _, _ => False
  end.

Lemma runCreate_spec ls db D stmt : db_ok ls db D → refines ls (runCreate stmt db) D (ref_create D stmt).
Proof.
  intros (m & A & Hst & ->). pose proof (runCreate_stands ls db m A stmt Hst) as Hr.
  destruct (ref_create (view m A) stmt) as [[D' r]|].
  - destruct Hr as (db' & p & c & s & -> & Hp & Hm & Hst' & ->). split; [done|]. eexists _, _. split; [done|]. by rewrite (view_new ls db).
  - destruct Hr as (db' & e & A' & -> & Hst' & Hk). exists m, A'. split; [done|]. symmetry. by eapply view_keeps.
Qed.

Lemma runDrop_spec ls db D stmt : db_ok ls db D → refines ls (runDrop stmt db) D (ref_drop D stmt).
Proof.
  intros (m & A & Hst & ->). pose proof (runDrop_stands ls db m A stmt Hst) as Hr.
  destruct (ref_drop (view m A) stmt) as [[D' r]|].
  - destruct Hr as (db' & A' & -> & Hm & Hst' & Hk & ->). split; [done|]. eexists _, _. split; [done|].
    by rewrite <- view_delete, (view_keeps _ _ _ _ Hk).
  - destruct Hr as (db' & e & A' & -> & Hst' & Hk). exists m, A'. split; [done|]. symmetry. by eapply view_keeps.
Qed.

Lemma release_ok ls db m A sp :
  stands (sp :: ls) db m A → ∃ db', onHeap (release sp) db = Ret db' () ∧ db_ok ls db' (view m A).
Proof.
  intros Hst. destruct (release_stands ls db m A sp Hst) as (db' & A' & Hrel & Hst' & Hk). exists db'. split; [done|].
  exists m, A'. split; [done|]. symmetry. by eapply view_keeps.
Qed.

Lemma onTable_spec ls db D n body f :
  db_ok ls db D → body_ok body f → refines ls (onTable n body db) D (at_rows D n f).
Proof.
  intros (m & A & Hst & ->) Hb. unfold onTable, at_rows. rewrite view_lookup.
  pose proof (tableOrThrow_stands ls db m A n Hst) as Hg. destruct (m !! n) as [sp|] eqn:Hn.
  2: { destruct Hg as (e & Hrun). erewrite M_bind_exn by done. by exists m, A. }
  destruct Hg as (db1 & Hrun & Hst1). erewrite M_bind_run by done.
  destruct (named_table _ _ _ _ _ _ Hst Hn) as (p & c & t & [s l] & -> & _ & Hp & _). simpl. rewrite Hp.
  pose proof (atTable_stands _ db1 m A p c s l body f Hst1 Hb Hp) as Hr. unfold scoped.
  destruct (f s l) as [[l' r]|].
  - destruct Hr as (db2 & -> & Hst2). destruct (release_ok _ _ _ _ _ Hst2) as (db3 & Hrel & Hok).
    erewrite M_bind_run by done. mrun. split; [done|]. by rewrite <- (view_set m A n (mkSharedPtr (Some p) (Some c)) p) by (done || apply Hst).
  - destruct Hr as (db2 & e & -> & Hst2). destruct (release_ok _ _ _ _ _ Hst2) as (db3 & Hrel & Hok).
    erewrite M_bind_run by done. mrun. done.
Qed.

(** The meaning of a statement on its table. *)
Definition rowsOf (s : Statement) : Schema → Rows → option (Rows * string) :=
  match s with
  | SInsert s => rows_insert s
  | SSelect s => rows_select s
  | SUpdate s => rows_update s
  | SDelete s => rows_delete s
  | _ => λ _ l, Some (l, "")
  end.

Lemma bodyOf_ok s c : derives s c → body_ok (bodyOf s) (rowsOf s).
Proof.
  intros Hd t l Ht. destruct s; simpl; [done|done| |by apply selectFrom_spec|by apply updateIn_spec|by apply deleteFrom_spec].
  apply insertInto_spec; [done|]. by inversion Hd.
Qed.

Lemma run_target s n db : target s = Some n → run (Ix := Ix) (Dx := Dx) s db = onTable n (bodyOf s) db.
Proof. by destruct s; intros [= <-]. Qed.

Lemma ref_target s n D : target s = Some n → ref_exec D s = at_rows D n (rowsOf s).
Proof. by destruct s; intros [= <-]. Qed.

Lemma run_spec ls db D s c : db_ok ls db D → derives s c → refines ls (run s db) D (ref_exec D s).
Proof.
  intros Hdb Hd. destruct (target s) as [n|] eqn:Ht.
  - rewrite (run_target _ _ _ Ht), (ref_target _ _ _ Ht). apply onTable_spec; [done|]. by eapply bodyOf_ok.
  - destruct s; try done; [by apply runCreate_spec|by apply runDrop_spec].
Qed.

Lemma execute_spec db D query :
  db_ok [] db D →
  ∃ db' reply, execute query db = Ret db' reply ∧ answer D query reply ∧ db_ok [] db' (ref_next D query).
Proof.
  intros Hdb. unfold execute, answer, ref_next, ref_query. pose proof (parseQuery_spec query) as Hq.
  destruct (parseQuery query) as [s|[]|]; try done.
  - destruct Hq as (c & Hd). mrun. pose proof (run_spec [] db D s c Hdb Hd) as Hr.
    destruct (run s db) as [db1 r|db1 e|], (ref_exec D s) as [[D' r']|]; try done.
    + destruct Hr as [-> Hdb']. by exists db1, r'.
    + exists db1, ("ERROR: " +:+ what e). eauto.
  - mrun. eexists db, _. eauto.
Qed.

(** A session: queries one after the other. *)
Fixpoint executeAll (queries : list string) : M DB (list string) :=
  match queries with
  | [] => mret []
  | q :: qs => r ← execute q; rs ← executeAll qs; mret (r :: rs)
  end.

Lemma executeAll_spec db D queries :
  db_ok [] db D →
  ∃ db' replies, executeAll queries db = Ret db' replies ∧ answers D queries replies ∧
    db_ok [] db' (foldl ref_next D queries).
Proof.
  revert db D. induction queries as [|q qs IH]; intros db D Hdb; [by exists db, []|]. cbn [executeAll].
  destruct (execute_spec db D q Hdb) as (db1 & r & Hrun & Ha & Hdb1). erewrite M_bind_run by done.
  destruct (IH db1 _ Hdb1) as (db2 & rs & Hrun2 & Has & Hdb2). erewrite M_bind_run by done. mrun.
  by exists db2, (r :: rs).
Qed.
End Spec.
