(* ===== verification/QueryLinear.v ===== *)
(** * Concurrent queries: linearization

    A linearization is a list of queries with their replies, in an order in which
    they could have run one after the other.  A query takes its place when it
    works on its table: at the end, or, when its table has been dropped in the
    meantime, right before that DROP.  The invariant keeps, for every dropped
    table that is still held, its contents as the state before its DROP. *)

From S2P Require Import Prelude AssocList CxxStd Schema Row KeyIndex LRUCache Table TableSpec SharedPtr Database DatabaseSpec.
From S2P Require Import Lexer Ast Parser ParserSpec QueryExecutor QueryConcurrent QueryRef QueryRows QueryBodies QuerySpec.

(** ** Linearizations *)
Record entry := mkEntry { e_id : nat; e_query : string; e_reply : string }.

Implicit Types (lin pre post : list entry) (x e : entry) (D : Abs).

Definition ids lin : list nat := e_id <$> lin.
Definition state_of lin : Abs := foldl ref_next ∅ (e_query <$> lin).
Definition explained lin : Prop := answers ∅ (e_query <$> lin) (e_reply <$> lin).
Definition precedes (a b : nat) lin : Prop := [a; b] `sublist_of` ids lin.

Fixpoint upto (d : nat) lin : list entry :=
  match lin with
  | [] => []
  | e :: lin' => if decide (e_id e = d) then [] else e :: upto d lin'
  end.

Fixpoint insertBefore (d : nat) (x : entry) lin : list entry :=
  match lin with
  | [] => [x]
  | e :: lin' => if decide (e_id e = d) then x :: e :: lin' else e :: insertBefore d x lin'
  end.

(** The entry [d], at which a linearization is cut. *)
Lemma upto_split d lin : d ∈ ids lin → ∃ e post, lin = upto d lin ++ e :: post ∧ e_id e = d.
Proof.
  induction lin as [|e lin IH]; csimpl; [by intros ?%elem_of_nil|]. intros Hin. case_decide as He; [by exists e, lin|].
  apply elem_of_cons in Hin as [?|Hin]; [done|]. destruct (IH Hin) as (e' & post & Heq & Hid). exists e', post.
  split; [|done]. simpl. by rewrite <- Heq.
Qed.

Lemma upto_app d pre e post : d ∉ ids pre → e_id e = d → upto d (pre ++ e :: post) = pre.
Proof.
  intros Hn He. induction pre as [|a pre IH]; csimpl; [by rewrite decide_True|].
  apply not_elem_of_cons in Hn as [Hne Hn]. rewrite decide_False by done. by rewrite IH.
Qed.

Lemma upto_notin d lin : d ∉ ids (upto d lin).
Proof.
  induction lin as [|e lin IH]; csimpl; [apply not_elem_of_nil|]. case_decide; csimpl; [apply not_elem_of_nil|].
  apply not_elem_of_cons. by split.
Qed.

Lemma upto_snoc d lin x : d ∈ ids lin → upto d (lin ++ [x]) = upto d lin.
Proof.
  intros Hin. destruct (upto_split d lin Hin) as (e & post & Heq & He). rewrite Heq at 1. rewrite <- (assoc_L (++)). simpl.
  by apply upto_app; [apply upto_notin|].
Qed.

Lemma insertBefore_split d x pre e post :
  d ∉ ids pre → e_id e = d → insertBefore d x (pre ++ e :: post) = pre ++ x :: e :: post.
Proof.
  intros Hn He. induction pre as [|a pre IH]; csimpl; [by rewrite decide_True|].
  apply not_elem_of_cons in Hn as [Hne Hn]. rewrite decide_False by done. by rewrite IH.
Qed.

Lemma insertBefore_at d x lin :
  d ∈ ids lin → e_id x ≠ d →
  ∃ e post, lin = upto d lin ++ e :: post ∧ e_id e = d ∧ insertBefore d x lin = upto d lin ++ x :: e :: post ∧
    upto d (insertBefore d x lin) = upto d lin ++ [x].
Proof.
  intros Hin Hx. destruct (upto_split d lin Hin) as (e & post & Heq & He). exists e, post.
  assert (Hins : insertBefore d x lin = upto d lin ++ x :: e :: post).
  { rewrite Heq at 1. by apply insertBefore_split; [apply upto_notin|]. }
  split_and!; [done|done|done|]. rewrite Hins, cons_middle, (assoc_L (++)). apply upto_app; [|done].
  unfold ids. rewrite fmap_app, not_elem_of_app. split; [apply upto_notin|]. csimpl. by intros ?%list_elem_of_singleton.
Qed.

(** Another cut: before the insertion, or behind it. *)
Lemma upto_insertBefore d d' x lin :
  d ∈ ids lin → d' ∈ ids lin → d' ≠ d → e_id x ≠ d' →
  upto d' (insertBefore d x lin) = upto d' lin ∨
  ∃ e k, e_id e = d ∧ upto d' lin = upto d lin ++ e :: k ∧ upto d' (insertBefore d x lin) = upto d lin ++ x :: e :: k.
Proof.
  intros Hd Hd' Hne Hx. induction lin as [|a lin IH]; [by apply elem_of_nil in Hd|]. csimpl in *.
  destruct (decide (e_id a = d)) as [Ha|Ha].
  - right. exists a, (upto d' lin). csimpl. rewrite !decide_False by congruence. done.
  - csimpl. apply elem_of_cons in Hd as [?|Hd]; [congruence|]. destruct (decide (e_id a = d')) as [Ha'|Ha']; [by left|].
    apply elem_of_cons in Hd' as [?|Hd']; [congruence|]. destruct (IH Hd Hd') as [->|(e & k & He & H1 & H2)]; [by left|].
    right. exists e, k. by rewrite H1, H2.
Qed.

Lemma insertBefore_sublist d x lin : lin `sublist_of` insertBefore d x lin.
Proof.
  induction lin as [|e lin IH]; simpl; [by apply sublist_cons|]. case_decide; [by apply sublist_cons|by apply sublist_skip].
Qed.

Lemma insertBefore_perm d x lin : insertBefore d x lin ≡ₚ x :: lin.
Proof. induction lin as [|e lin IH]; simpl; [done|]. case_decide; [done|]. rewrite IH. constructor. Qed.

Lemma precedes_mono a b lin lin' : lin `sublist_of` lin' → precedes a b lin → precedes a b lin'.
Proof. intros Hs Hp. unfold precedes in *. etrans; [exact Hp|]. by apply fmap_sublist. Qed.

Lemma precedes_app a pre x post : a ∈ ids pre → precedes a (e_id x) (pre ++ x :: post).
Proof.
  intros Ha. unfold precedes, ids. rewrite fmap_app. csimpl. change [a; e_id x] with ([a] ++ [e_id x]). apply sublist_app.
  - by apply singleton_sublist_l.
  - apply sublist_skip, sublist_nil_l.
Qed.

(** ** States and replies of linearizations *)
Lemma state_app pre post : state_of (pre ++ post) = foldl ref_next (state_of pre) (e_query <$> post).
Proof. unfold state_of. by rewrite fmap_app, foldl_app. Qed.

Lemma answers_app D qs1 qs2 rs1 rs2 :
  length qs1 = length rs1 → answers D (qs1 ++ qs2) (rs1 ++ rs2) ↔ answers D qs1 rs1 ∧ answers (foldl ref_next D qs1) qs2 rs2.
Proof.
  revert D rs1. induction qs1 as [|q qs1 IH]; intros D [|r rs1]; simpl; try done; [tauto|]. intros [= Hl]. rewrite IH by done. tauto.
Qed.

Lemma explained_app pre post :
  explained (pre ++ post) ↔ explained pre ∧ answers (state_of pre) (e_query <$> post) (e_reply <$> post).
Proof. unfold explained. rewrite !fmap_app. apply answers_app. by rewrite !length_fmap. Qed.

Lemma explained_snoc lin x : explained lin → answer (state_of lin) (e_query x) (e_reply x) → explained (lin ++ [x]).
Proof. intros Hl Hx. apply explained_app. split; [done|]. simpl. done. Qed.

Lemma state_snoc lin x : state_of (lin ++ [x]) = ref_next (state_of lin) (e_query x).
Proof. by rewrite state_app. Qed.

(** The entry [e] dropped the table [n]. *)
Definition drops (e : entry) (n : string) : Prop := parseQuery (e_query e) = Val (SDrop (mkDrop n)) ∧ e_reply e = "OK".

Lemma drops_next D e n : drops e n → ref_next D (e_query e) = delete n D.
Proof.
  intros [He _]. unfold ref_next, ref_query. rewrite He. simpl. unfold ref_drop. simpl.
  destruct (D !! n) eqn:Hn; [done|]. by rewrite delete_id.
Qed.

Lemma drops_answer D e n : drops e n → is_Some (D !! n) → answer D (e_query e) (e_reply e).
Proof.
  intros [He Hr] [x Hx]. unfold answer, ref_query. rewrite He. simpl. unfold ref_drop. simpl. by rewrite Hx.
Qed.

(** A query on the table [n], placed right before its DROP: nothing behind sees it. *)
Lemma insert_drop pre x e post n s :
  parseQuery (e_query x) = Val s → target s = Some n → drops e n → is_Some (state_of pre !! n) →
  answer (state_of pre) (e_query x) (e_reply x) → explained (pre ++ e :: post) →
  (∀ k, state_of (pre ++ x :: e :: k) = state_of (pre ++ e :: k)) ∧ explained (pre ++ x :: e :: post).
Proof.
  intros Hx Ht He [y Hy] Ha Hex.
  assert (Hd : ∃ D', ref_next (state_of pre) (e_query x) = D' ∧ delete n D' = delete n (state_of pre) ∧ is_Some (D' !! n)).
  { eexists. split; [done|]. unfold ref_next, ref_query. rewrite Hx, (ref_target _ _ _ Ht). unfold at_rows.
    rewrite Hy. destruct y as [sc l]. destruct (rowsOf s sc l) as [[l' r]|]; [|by rewrite Hy].
    by rewrite delete_insert_eq, lookup_insert_eq. }
  destruct Hd as (D' & HD' & Hdel & Hsome).
  assert (Hsame : foldl ref_next (state_of pre) (e_query <$> [x; e]) = foldl ref_next (state_of pre) (e_query <$> [e])).
  { csimpl. rewrite HD', !(drops_next _ e n) by done. done. }
  split.
  - intros k. rewrite !state_app. change (x :: e :: k) with ([x; e] ++ k). change (e :: k) with ([e] ++ k).
    rewrite !fmap_app, !foldl_app. by rewrite Hsame.
  - apply explained_app in Hex as [Hpre Hpost]. apply explained_app. split; [done|]. csimpl. split; [done|].
    rewrite HD'. split; [by apply (drops_answer _ e n)|]. rewrite (drops_next _ e n), Hdel by done.
    destruct Hpost as [_ Hpost]. by rewrite (drops_next _ e n) in Hpost.
Qed.

(** ** Histories *)
Implicit Types (h : list event).

(** The call [a] returned before [b] was called. *)
Definition returned_before h (b a : nat) : Prop := ∃ h1 h2 q r, h = h1 ++ ECall b q :: h2 ∧ EReturn a r ∈ h1.

Lemma returned_before_snoc h ev b a :
  (∀ q, ev ≠ ECall b q) → returned_before (h ++ [ev]) b a → returned_before h b a.
Proof.
  intros Hev (h1 & h2 & q & r & Heq & Hin). destruct h2 as [|ev' h2' _] using rev_ind; simplify_list_eq; [naive_solver|].
  by exists h1, h2', q, r.
Qed.

Lemma returned_before_new h b q a :
  (∀ q, ECall b q ∉ h) → returned_before (h ++ [ECall b q]) b a → ∃ r, EReturn a r ∈ h.
Proof.
  intros Hn (h1 & h2 & q' & r & Heq & Hin). destruct h2 as [|ev' h2' _] using rev_ind; simplify_list_eq; [by exists r|].
  destruct (Hn q'). apply elem_of_app. right. by left.
Qed.

(** A linearization of a history. *)
Record linearizes h lin : Prop := {
  lz_explained : explained lin;
  lz_nodup : NoDup (ids lin);
  lz_calls : ∀ e, e ∈ lin → ECall (e_id e) (e_query e) ∈ h;
  lz_returns : ∀ a r, EReturn a r ∈ h → ∃ q, mkEntry a q r ∈ lin;
  lz_time : ∀ a b, b ∈ ids lin → returned_before h b a → precedes a b lin;
}.

Lemma ids_elem e lin : e ∈ lin → e_id e ∈ ids lin.
Proof. apply list_elem_of_fmap_2. Qed.

Lemma returned_in h lin b a : linearizes h lin → returned_before h b a → a ∈ ids lin.
Proof.
  intros Hl (h1 & h2 & q & r & -> & Hin). destruct (lz_returns _ _ Hl a r) as [q' Hx].
  - apply elem_of_app. by left.
  - by apply ids_elem in Hx.
Qed.

Lemma linearizes_snoc h lin id q r :
  linearizes h lin → id ∉ ids lin → ECall id q ∈ h → answer (state_of lin) q r → linearizes h (lin ++ [mkEntry id q r]).
Proof.
  intros Hl Hn Hc Ha. split.
  - apply explained_snoc; [apply Hl|done].
  - unfold ids. rewrite fmap_app. apply NoDup_app. split; [apply Hl|]. split; [|apply NoDup_singleton].
    intros a Ha' Hx%list_elem_of_singleton. by subst.
  - intros e [He|He%list_elem_of_singleton]%elem_of_app; [by apply (lz_calls _ _ Hl)|by subst].
  - intros a r' Hr. destruct (lz_returns _ _ Hl a r' Hr) as [q' Hq]. exists q'. apply elem_of_app. by left.
  - intros a b Hb Ht. destruct (decide (b = id)) as [->|Hne].
    + apply (precedes_app _ _ (mkEntry id q r)). by eapply returned_in.
    + apply (precedes_mono _ _ lin); [by apply sublist_inserts_r|]. apply (lz_time _ _ Hl); [|done].
      unfold ids in *. rewrite fmap_app in Hb. apply elem_of_app in Hb as [?|?%list_elem_of_singleton]; done.
Qed.

Lemma linearizes_insert h lin d id q r n s :
  linearizes h lin → id ∉ ids lin → ECall id q ∈ h → d ∈ ids lin →
  parseQuery q = Val s → target s = Some n → (∀ e post, lin = upto d lin ++ e :: post → drops e n) →
  is_Some (state_of (upto d lin) !! n) → answer (state_of (upto d lin)) q r →
  (∀ a, returned_before h id a → a ∈ ids (upto d lin)) →
  linearizes h (insertBefore d (mkEntry id q r) lin) ∧
  (∀ e post k, lin = upto d lin ++ e :: post →
     state_of (upto d lin ++ mkEntry id q r :: e :: k) = state_of (upto d lin ++ e :: k)).
Proof.
  intros Hl Hn Hc Hd Hq Ht Hdr Hs Ha Htime. assert (Hne : id ≠ d) by (by intros ->).
  destruct (insertBefore_at d (mkEntry id q r) lin Hd Hne) as (e & post & Heq & He & Hins & _).
  pose proof (lz_explained _ _ Hl) as Hex. rewrite Heq in Hex.
  destruct (insert_drop (upto d lin) (mkEntry id q r) e post n s) as [Hst Hex']; [done|done|by eapply Hdr|done|done|done|].
  split.
  - split.
    + by rewrite Hins.
    + unfold ids. rewrite insertBefore_perm. csimpl. apply NoDup_cons. split; [done|apply Hl].
    + intros e'. rewrite insertBefore_perm. intros [->|He']%elem_of_cons; [done|by apply (lz_calls _ _ Hl)].
    + intros a r' Hr. destruct (lz_returns _ _ Hl a r' Hr) as [q' Hq']. exists q'. rewrite insertBefore_perm. by right.
    + intros a b Hb Htb. destruct (decide (b = id)) as [->|Hnb].
      * rewrite Hins. apply (precedes_app _ _ (mkEntry id q r)). by apply Htime.
      * apply (precedes_mono _ _ lin); [apply insertBefore_sublist|]. apply (lz_time _ _ Hl); [|done].
        unfold ids in *. rewrite insertBefore_perm in Hb. csimpl in Hb. by apply elem_of_cons in Hb as [?|?].
  - intros e' post' k Heq'. rewrite Heq in Heq' at 1. apply app_inv_head in Heq' as [= <- <-]. apply Hst.
Qed.

Lemma elem_snoc {B} (l : list B) (u v : B) : u ∈ l ++ [v] → u ∈ l ∨ u = v.
Proof. intros [?|?%list_elem_of_singleton]%elem_of_app; auto. Qed.

(** A history goes on: a call, the return of a query that has taken effect. *)
Lemma linearizes_call h lin i q :
  linearizes h lin → i ∉ ids lin → linearizes (h ++ [ECall i q]) lin.
Proof.
  intros [H1 H2 H3 H4 H5] Hi. split; [done|done| | |].
  - intros e He. apply elem_of_app. left. by apply H3.
  - intros a r [Hr|?]%elem_snoc; [by apply H4|done].
  - intros a b Hb Ht. apply H5; [done|]. eapply returned_before_snoc; [|done]. by intros q' [= -> _].
Qed.

Lemma linearizes_return h lin id q r :
  linearizes h lin → mkEntry id q r ∈ lin → linearizes (h ++ [EReturn id r]) lin.
Proof.
  intros [H1 H2 H3 H4 H5] Hin. split; [done|done| | |].
  - intros e He. apply elem_of_app. left. by apply H3.
  - intros a r' [Hr|[= -> ->]]%elem_snoc; [by apply H4|by exists q].
  - intros a b Hb Ht. apply H5; [done|]. eapply returned_before_snoc; [|done]. done.
Qed.
