(* ===== verification/QueryLinearSpec.v ===== *)
(** * Concurrent queries: the invariant

    Every reachable world has a linearization; every step keeps it or extends it
    by the query that takes effect. *)

From S2P Require Import Prelude AssocList CxxStd Schema Row KeyIndex LRUCache Table TableSpec SharedPtr Database DatabaseSpec.
From S2P Require Import Lexer Ast Parser ParserSpec QueryExecutor QueryConcurrent QueryRef QueryRows QueryBodies QuerySpec QueryLinear.

Section Linear.
Context {Ix Dx : Type} `{!KeyIndex Z nat Ix} `{!KeyIndexLaws Z nat Ix}.
Context `{!KeyIndex string SharedPtr Dx} `{!KeyIndexLaws string SharedPtr Dx}.
Abbreviation W := (qworld Ix Dx).
Abbreviation DB := (Database Ix Dx).
Implicit Types (w : W) (db : DB) (ops : gmap nat qphase) (m : gmap string SharedPtr) (A : gmap nat Contents).
Implicit Types (dr : gmap nat (nat * string)) (lin : list entry) (h : list event).

(** ** The handles of the queries in flight *)
Definition handleOf (ph : qphase) : option SharedPtr :=
  match ph with QHave _ _ sp | QLeave sp _ => Some sp | _ => None end.

Definition held ops : list SharedPtr := omap (λ e, handleOf e.2) (map_to_list ops).

Lemma held_new ops id ph : ops !! id = None → held (<[id:=ph]> ops) ≡ₚ option_list (handleOf ph) ++ held ops.
Proof.
  intros Hn. unfold held. rewrite map_to_list_insert by done. csimpl. by destruct (handleOf ph).
Qed.

Lemma held_take ops id ph : ops !! id = Some ph → held ops ≡ₚ option_list (handleOf ph) ++ held (delete id ops).
Proof. intros Hid. rewrite <- (insert_delete_id ops id ph) at 1 by done. apply held_new. by rewrite lookup_delete_eq. Qed.

Lemma held_set ops id ph : held (<[id:=ph]> ops) ≡ₚ option_list (handleOf ph) ++ held (delete id ops).
Proof. rewrite <- insert_delete_eq. apply held_new. by rewrite lookup_delete_eq. Qed.

Lemma held_elem ops id ph sp : ops !! id = Some ph → handleOf ph = Some sp → sp ∈ held ops.
Proof. intros Hid Hsp. rewrite (held_take _ _ _ Hid), Hsp. by left. Qed.

(** A phase that keeps its handle. *)
Lemma held_same ops id ph ph' : ops !! id = Some ph → handleOf ph' = handleOf ph → held (<[id:=ph']> ops) ≡ₚ held ops.
Proof. intros Hid Hsame. by rewrite held_set, Hsame, <- held_take. Qed.

Lemma handles_perm ls ls' m : ls ≡ₚ ls' → handles ls m ≡ₚ handles ls' m.
Proof. intros Hp. unfold handles. by rewrite Hp. Qed.

Lemma stands_perm ls ls' db m A : ls ≡ₚ ls' → stands ls db m A → stands ls' db m A.
Proof. intros Hp [H1 H2 H3 H4 H5]. split; try done. by rewrite <- (handles_perm _ _ _ Hp). Qed.

Lemma stands_reached ls db m A p x : stands ls db m A → A !! p = Some x → ∃ sp, sp ∈ handles ls m ∧ ptr_ sp = Some p.
Proof.
  intros Hst Hp. pose proof (st_contents _ _ _ _ Hst p) as Hc. rewrite Hp in Hc.
  apply (ow_object _ _ (st_owned _ _ _ _ Hst)). by destruct (objects (heap_ db) !! p).
Qed.

Lemma keeps_back ls db m A A' p x : stands ls db m A' → keeps ls m A A' → A' !! p = Some x → A !! p = Some x.
Proof. intros Hst Hk Hp. destruct (stands_reached _ _ _ _ _ _ Hst Hp) as (sp & Hin & Hsp). by rewrite <- (Hk sp p). Qed.

(** ** Dropped tables that are still held *)
Definition unnamed m (p : nat) : Prop := ∀ n sp, m !! n = Some sp → ptr_ sp ≠ Some p.

(** The table at [p] was [n] until the entry [d] dropped it. *)
Record dropped lin m (p d : nat) (n : string) (x : Contents) : Prop := {
  dp_drops : ∀ e, e ∈ lin → e_id e = d → drops e n;
  dp_contents : state_of (upto d lin) !! n = Some x;
  dp_unnamed : unnamed m p;
}.

Record dropped_ok lin m A dr : Prop := {
  do_in : ∀ p d n, dr !! p = Some (d, n) → d ∈ ids lin;
  do_each : ∀ p d n x, dr !! p = Some (d, n) → A !! p = Some x → dropped lin m p d n x;
  do_inj : ∀ p p' d n n', dr !! p = Some (d, n) → dr !! p' = Some (d, n') → p = p';
}.

Lemma ids_snoc lin e d : d ∈ ids lin → d ∈ ids (lin ++ [e]).
Proof. intros Hd. unfold ids. rewrite fmap_app. apply elem_of_app. by left. Qed.

Lemma dropped_ok_snoc lin m A dr e : dropped_ok lin m A dr → e_id e ∉ ids lin → dropped_ok (lin ++ [e]) m A dr.
Proof.
  intros [H0 H1 H2] He. split; [|intros p d n x Hp Hx|done].
  - intros p d n Hp. by eapply ids_snoc, H0.
  - destruct (H1 p d n x Hp Hx) as [Hd Hs Hu]. pose proof (H0 p d n Hp) as Hin. split; [|by rewrite upto_snoc|done].
    intros e' [He'|He'%list_elem_of_singleton]%elem_of_app Hid; [by apply Hd|]. subst. done.
Qed.

(** Tables may go, and names. *)
Lemma dropped_ok_sub lin m m' A A' dr :
  dropped_ok lin m A dr → (∀ p x, A' !! p = Some x → A !! p = Some x) → (∀ n sp, m' !! n = Some sp → m !! n = Some sp) →
  dropped_ok lin m' A' dr.
Proof.
  intros [H0 H1 H2] HA Hm. split; [done| |done]. intros p d n x Hp Hx. destruct (H1 p d n x Hp (HA _ _ Hx)) as [? ? Hu].
  split; [done..|]. intros n' sp Hn. eauto.
Qed.

(** A table with a name changes. *)
Lemma dropped_ok_set lin m A dr n sp p x y :
  dropped_ok lin m A dr → m !! n = Some sp → ptr_ sp = Some p → A !! p = Some x → dropped_ok lin m (<[p:=y]> A) dr.
Proof.
  intros [H0 H1 H2] Hn Hsp Hx. split; [done| |done]. intros p' d n' x' Hp [[<- <-]|[_ Hx']]%lookup_insert_Some; [|by apply H1].
  destruct (H1 p d n' x Hp Hx) as [_ _ Hu]. by destruct (Hu n sp).
Qed.

(** A new table gets a name. *)
Lemma dropped_ok_new lin m A dr n p c y :
  dropped_ok lin m A dr → dropped_ok lin (<[n:=mkSharedPtr (Some p) (Some c)]> m) (<[p:=y]> A) (delete p dr).
Proof.
  intros [H0 H1 H2]. split.
  - intros p' d n' [_ Hp]%lookup_delete_Some. by eapply H0.
  - intros p' d n' x [Hne Hp]%lookup_delete_Some Hx. rewrite lookup_insert_ne in Hx by done.
    destruct (H1 p' d n' x Hp Hx) as [? ? Hu]. split; [done..|].
    intros n1 sp [[_ <-]|[_ Hn1]]%lookup_insert_Some; [simpl; congruence|by apply (Hu n1)].
  - intros p1 p2 d n1 n2 [_ Hp1]%lookup_delete_Some [_ Hp2]%lookup_delete_Some. by eapply H2.
Qed.

(** The table [n], at [p], is dropped. *)
Lemma dropped_ok_drop lin m A A' dr n p c e :
  dropped_ok lin m A dr → m !! n = Some (mkSharedPtr (Some p) (Some c)) → distinct m → view m A = state_of lin →
  (∀ p x, A' !! p = Some x → A !! p = Some x) → drops e n → e_id e ∉ ids lin →
  dropped_ok (lin ++ [e]) (delete n m) A' (<[p:=(e_id e, n)]> dr).
Proof.
  intros Hok Hn Hd Hv HA He Hid. pose proof (do_in _ _ _ _ Hok) as Hin.
  assert (Hsub : dropped_ok (lin ++ [e]) (delete n m) A' dr).
  { apply dropped_ok_snoc; [|done]. eapply dropped_ok_sub; [done|done|]. intros n' sp [_ ?]%lookup_delete_Some. done. }
  destruct Hsub as [H0 H1 H2]. split.
  - intros p' d n' [[_ [= <- <-]]|[_ Hp]]%lookup_insert_Some; [|by eapply H0].
    unfold ids. rewrite fmap_app. apply elem_of_app. right. by left.
  - intros p' d n' x [[<- [= <- <-]]|[_ Hp]]%lookup_insert_Some Hx; [|by apply H1].
    assert (Hup : upto (e_id e) (lin ++ [e]) = lin) by (by apply upto_app).
    split; rewrite ?Hup.
    + intros e' [He'|He'%list_elem_of_singleton]%elem_of_app Hid'; [|by subst]. destruct Hid. rewrite <- Hid'. by apply ids_elem.
    + rewrite <- Hv, view_lookup, Hn. simpl. by apply HA.
    + intros n' sp [Hne Hn']%lookup_delete_Some Hsp. apply Hne. by apply (Hd n n' _ sp Hn Hn').
  - intros p1 p2 d n1 n2 [[<- [= <- <-]]|[_ Hp1]]%lookup_insert_Some [[<- [= <-]]|[_ Hp2]]%lookup_insert_Some; [done| | |by eapply H2].
    + by apply Hin in Hp2.
    + by apply Hin in Hp1.
Qed.

(** A query works on the dropped table at [p]. *)
Lemma dropped_ok_insert lin m A dr p d n e y :
  dropped_ok lin m A dr → dr !! p = Some (d, n) → unnamed m p → e_id e ∉ ids lin →
  (∀ e0 post k, lin = upto d lin ++ e0 :: post → state_of (upto d lin ++ e :: e0 :: k) = state_of (upto d lin ++ e0 :: k)) →
  (∀ e0, e0 ∈ lin → e_id e0 = d → drops e0 n) →
  ref_next (state_of (upto d lin)) (e_query e) !! n = Some y →
  dropped_ok (insertBefore d e lin) m (<[p:=y]> A) dr.
Proof.
  intros [H0 H1 H2] Hp Hun He Hsame Hdr Hy. pose proof (H0 p d n Hp) as Hin.
  assert (Hid : ∀ d', d' ∈ ids lin → e_id e ≠ d') by (by intros d' ? <-).
  assert (Hkeep : ∀ e0 d' n', d' ∈ ids lin → (∀ e1, e1 ∈ lin → e_id e1 = d' → drops e1 n') →
    e0 ∈ insertBefore d e lin → e_id e0 = d' → drops e0 n').
  { intros e0 d' n' Hd' Hall. rewrite insertBefore_perm. intros [->|He0]%elem_of_cons; [intros He'; by destruct (Hid d' Hd')|by apply Hall]. }
  split; [|intros p' d' n' x Hp' Hx|done].
  - intros p' d' n' Hp'. unfold ids. rewrite insertBefore_perm. right. by eapply H0.
  - pose proof (H0 p' d' n' Hp') as Hin'. apply lookup_insert_Some in Hx as [[<- <-]|[Hne Hx]].
    + rewrite Hp in Hp'. injection Hp' as <- <-. split; [by intros e0; apply Hkeep| |done].
      destruct (insertBefore_at d e lin Hin (Hid d Hin)) as (e0 & post & _ & _ & _ & ->). by rewrite state_snoc.
    + destruct (H1 p' d' n' x Hp' Hx) as [Hd Hs Hu]. split; [by intros e0; apply Hkeep| |done].
      assert (Hdd : d' ≠ d) by (intros ->; by destruct (Hne (H2 _ _ _ _ _ Hp Hp'))).
      destruct (upto_insertBefore d d' e lin Hin Hin' Hdd (Hid d' Hin')) as [->|(e0 & k & He0 & Hk & ->)]; [done|].
      destruct (upto_split d' lin Hin') as (e1 & post & Hsplit & _).
      rewrite (Hsame e0 (k ++ e1 :: post)), <- Hk; [done|].
      transitivity (upto d' lin ++ e1 :: post); [done|]. rewrite Hk. by rewrite <- (assoc_L (++)).
Qed.

(** ** The queries in flight *)
Definition op_ok h lin m dr (id : nat) (ph : qphase) : Prop :=
  match ph with
  | QWant q s => parseQuery q = Val s ∧ (id ∉ ids lin) ∧ ECall id q ∈ h
  | QHave q s sp => parseQuery q = Val s ∧ (id ∉ ids lin) ∧ ECall id q ∈ h ∧
      ∃ n p c, target s = Some n ∧ sp = mkSharedPtr (Some p) (Some c) ∧
        (m !! n = Some sp ∨ ∃ d, dr !! p = Some (d, n) ∧ ∀ a, returned_before h id a → a ∈ ids (upto d lin))
  | QLeave _ r | QDone r => ∃ q, mkEntry id q r ∈ lin
  end.

Record linear w lin m A dr : Prop := {
  ln_stands : stands (held (w_ops w)) (w_db w) m A;
  ln_view : view m A = state_of lin;
  ln_lin : linearizes (w_hist w) lin;
  ln_dropped : dropped_ok lin m A dr;
  ln_ops : ∀ id ph, w_ops w !! id = Some ph → op_ok (w_hist w) lin m dr id ph;
  ln_fresh : ∀ id q, ECall id q ∈ w_hist w → id < w_next w;
}.

(** What the other queries need when one takes a step. *)
Lemma op_frame h h' lin lin' m m' dr dr' id ph :
  op_ok h lin m dr id ph →
  (∀ e, e ∈ lin → e ∈ lin') → (id ∉ ids lin → id ∉ ids lin') →
  (∀ ev, ev ∈ h → ev ∈ h') → (∀ a, returned_before h' id a → returned_before h id a) →
  (∀ p d n a, dr !! p = Some (d, n) → a ∈ ids (upto d lin) → a ∈ ids (upto d lin')) →
  (∀ sp p x, handleOf ph = Some sp → ptr_ sp = Some p → dr !! p = Some x → dr' !! p = Some x) →
  (∀ sp p n, handleOf ph = Some sp → ptr_ sp = Some p → m !! n = Some sp →
     m' !! n = Some sp ∨ ∃ d, dr' !! p = Some (d, n) ∧ ∀ a, returned_before h' id a → a ∈ ids (upto d lin')) →
  op_ok h' lin' m' dr' id ph.
Proof.
  intros Hop Hlin Hid Hh Hrb Hup Hdr Hm. destruct ph as [q s|q s sp|sp r|r]; simpl in *.
  - destruct Hop as (? & ? & ?). eauto.
  - destruct Hop as (? & ? & ? & n & p & c & ? & -> & Hcase). split_and!; eauto. exists n, p, c. split_and!; [done|done|].
    destruct Hcase as [Hn|(d & Hd & Ht)]; [by apply (Hm _ p n)|]. right. exists d. split; [by apply (Hdr _ p (d, n) eq_refl)|].
    intros a Ha. by eapply Hup, Ht, Hrb.
  - destruct Hop as [q Hq]. eauto.
  - destruct Hop as [q Hq]. eauto.
Qed.

(** The same when nothing but the linearization grows at its end. *)
Lemma op_snoc h lin m dr id ph e A :
  dropped_ok lin m A dr → op_ok h lin m dr id ph → id ≠ e_id e → op_ok h (lin ++ [e]) m dr id ph.
Proof.
  intros Hd Hop Hne. eapply op_frame; eauto.
  - intros e' He'. apply elem_of_app. by left.
  - unfold ids. rewrite fmap_app, not_elem_of_app. intros Hn. split; [done|]. by intros ?%list_elem_of_singleton.
  - intros p d n a Hp Ha. rewrite upto_snoc; [done|]. by eapply (do_in _ _ _ _ Hd).
Qed.

Lemma op_known w lin m A dr id ph : linear w lin m A dr → w_ops w !! id = Some ph → id < w_next w.
Proof.
  intros H Hid. pose proof (ln_ops _ _ _ _ _ H _ _ Hid) as Hop.
  assert (∃ q, ECall id q ∈ w_hist w) as [q Hq]; [|by eapply ln_fresh].
  destruct ph as [q s|q s sp|sp r|r]; simpl in Hop; try (exists q; tauto); destruct Hop as [q Hq]; exists q;
    apply (lz_calls _ _ (ln_lin _ _ _ _ _ H) _ Hq).
Qed.

Lemma new_unknown w lin m A dr : linear w lin m A dr → w_ops w !! w_next w = None ∧ (w_next w ∉ ids lin) ∧ ∀ q, ECall (w_next w) q ∉ w_hist w.
Proof.
  intros H. split_and!.
  - destruct (w_ops w !! w_next w) eqn:E; [|done]. apply (op_known _ _ _ _ _ _ _ H) in E. lia.
  - intros (e & He & Hin)%list_elem_of_fmap. pose proof (ln_fresh _ _ _ _ _ H _ _ (lz_calls _ _ (ln_lin _ _ _ _ _ H) _ Hin)). lia.
  - intros q Hq%(ln_fresh _ _ _ _ _ H). lia.
Qed.

(** A query in flight that has not taken effect. *)
Lemma want_ok w lin m A dr id q s :
  linear w lin m A dr → w_ops w !! id = Some (QWant q s) →
  parseQuery q = Val s ∧ (id ∉ ids lin) ∧ ECall id q ∈ w_hist w ∧ ∃ c, derives s c.
Proof.
  intros H Hid. destruct (ln_ops _ _ _ _ _ H _ _ Hid) as (Hq & ? & ?). split_and!; try done.
  pose proof (parseQuery_spec q) as Hs. by rewrite Hq in Hs.
Qed.

(** ** Taking effect at the end *)
Definition effective (r : string) (ph : qphase) : Prop :=
  match ph with QLeave _ r' | QDone r' => r' = r | _ => False end.

Lemma op_effective h lin m dr id q r ph : effective r ph → mkEntry id q r ∈ lin → op_ok h lin m dr id ph.
Proof. destruct ph; simpl; try done; intros ->; eauto. Qed.

Lemma linear_take_effect db db' ops i h lin m m' A A' dr dr' id q r ph :
  linear (mkWorld db ops i h) lin m A dr → id ∉ ids lin → ECall id q ∈ h → effective r ph →
  stands (held (<[id:=ph]> ops)) db' m' A' → view m' A' = ref_next (state_of lin) q → answer (state_of lin) q r →
  dropped_ok (lin ++ [mkEntry id q r]) m' A' dr' →
  (∀ id' ph', id' ≠ id → ops !! id' = Some ph' → op_ok h (lin ++ [mkEntry id q r]) m' dr' id' ph') →
  linear (mkWorld db' (<[id:=ph]> ops) i h) (lin ++ [mkEntry id q r]) m' A' dr'.
Proof.
  intros H Hid Hc He Hst Hv Ha Hd Hops. split; simpl; [done| |by apply linearizes_snoc; [apply H| | |]|done| |apply H].
  - by rewrite state_snoc.
  - intros id' ph' [[<- <-]|[Hne Hid']]%lookup_insert_Some; [|by apply Hops].
    eapply op_effective; [done|]. apply elem_of_app. right. by left.
Qed.

(** The map of names stays. *)
Lemma linear_append db db' ops i h lin m A A' dr id q r ph :
  linear (mkWorld db ops i h) lin m A dr → id ∉ ids lin → ECall id q ∈ h → effective r ph →
  stands (held (<[id:=ph]> ops)) db' m A' → view m A' = ref_next (state_of lin) q → answer (state_of lin) q r →
  dropped_ok lin m A' dr →
  linear (mkWorld db' (<[id:=ph]> ops) i h) (lin ++ [mkEntry id q r]) m A' dr.
Proof.
  intros H Hid Hc He Hst Hv Ha Hd. eapply linear_take_effect; eauto.
  - by apply dropped_ok_snoc.
  - intros id' ph' Hne Hid'. eapply op_snoc; [by apply H| |done]. by apply (ln_ops _ _ _ _ _ H).
Qed.

(** An error reply that changes nothing. *)
Lemma error_answer D q e : ref_query D q = None → answer D q (errorReply e) ∧ ref_next D q = D.
Proof. intros Hq. unfold answer, ref_next. rewrite Hq. split; [|done]. by exists (what e). Qed.

Lemma parsed_query D q s : parseQuery q = Val s → ref_query D q = ref_exec D s.
Proof. intros Hq. unfold ref_query. by rewrite Hq. Qed.

Lemma linear_fail db db' ops i h lin m A A' dr id q s e :
  linear (mkWorld db ops i h) lin m A dr → ops !! id = Some (QWant q s) → ref_exec (view m A) s = None →
  stands (held ops) db' m A' → keeps (held ops) m A A' →
  linear (mkWorld db' (<[id:=QDone (errorReply e)]> ops) i h) (lin ++ [mkEntry id q (errorReply e)]) m A' dr.
Proof.
  intros H Hid Href Hst Hk. destruct (want_ok _ _ _ _ _ _ _ _ H Hid) as (Hq & Hn & Hc & _).
  rewrite (ln_view _ _ _ _ _ H), <- (parsed_query _ q) in Href by done.
  destruct (error_answer _ _ e Href) as [Ha Hnext]. eapply linear_append; eauto; [done| | |].
  - eapply stands_perm; [|done]. symmetry. by eapply held_same.
  - rewrite Hnext, (view_keeps _ _ _ _ Hk). apply H.
  - eapply dropped_ok_sub; [by apply H| |done]. intros p x. by eapply keeps_back.
Qed.

(** ** The steps *)
Lemma step_call db ops i h lin m A dr q s :
  linear (mkWorld db ops i h) lin m A dr → parseQuery q = Val s →
  linear (mkWorld db (<[i:=QWant q s]> ops) (S i) (h ++ [ECall i q])) lin m A dr.
Proof.
  intros H Hq. destruct (new_unknown _ _ _ _ _ H) as (Hops & Hids & Hcalls). simpl in *. split; simpl.
  - eapply stands_perm; [|by apply H]. symmetry. by apply held_new.
  - apply H.
  - apply linearizes_call; [by apply H|done].
  - apply H.
  - intros id ph [[<- <-]|[Hne Hid]]%lookup_insert_Some.
    + simpl. split_and!; [done|done|]. apply elem_of_app. right. by left.
    + eapply op_frame; [by apply (ln_ops _ _ _ _ _ H)|done|done| | |done|done|by eauto].
      * intros ev Hev. apply elem_of_app. by left.
      * intros a. apply returned_before_snoc. by intros q' [= -> _].
  - intros id q' [Hin|[= -> ->]]%elem_snoc; [|lia]. apply (ln_fresh _ _ _ _ _ H) in Hin. simpl in Hin. lia.
Qed.

Lemma step_call_bad db ops i h lin m A dr q e :
  linear (mkWorld db ops i h) lin m A dr → parseQuery q = Throw e →
  linear (mkWorld db (<[i:=QDone (errorReply e)]> ops) (S i) (h ++ [ECall i q])) (lin ++ [mkEntry i q (errorReply e)]) m A dr.
Proof.
  intros H Hq. destruct (new_unknown _ _ _ _ _ H) as (Hops & Hids & Hcalls). simpl in *.
  destruct (error_answer (state_of lin) q e) as [Ha Hnext]; [unfold ref_query; by rewrite Hq|].
  assert (H1 : linear (mkWorld db ops (S i) (h ++ [ECall i q])) lin m A dr).
  { destruct H as [H1 H2 H3 H4 H5 H6]. split; simpl in *; [done|done|by apply linearizes_call|done| |].
    - intros id ph Hid. eapply op_frame; [by apply H5|done|done| | |done|done|by eauto].
      + intros ev Hev. apply elem_of_app. by left.
      + intros a. apply returned_before_snoc. intros q' [= -> _]. congruence.
    - intros id q' [Hin|[= -> ->]]%elem_snoc; [|lia]. apply H6 in Hin. lia. }
  eapply linear_append; eauto; [apply elem_of_app; right; by left|done| | |by apply H].
  - eapply stands_perm; [|by apply H]. symmetry. by apply held_new.
  - rewrite Hnext. apply H.
Qed.

Lemma step_return db ops i h lin m A dr id r :
  linear (mkWorld db ops i h) lin m A dr → ops !! id = Some (QDone r) →
  linear (mkWorld db (delete id ops) i (h ++ [EReturn id r])) lin m A dr.
Proof.
  intros H Hid. destruct (ln_ops _ _ _ _ _ H _ _ Hid) as [q Hq]. simpl in Hq. split; simpl.
  - eapply stands_perm; [|by apply H]. simpl. by rewrite (held_take _ _ _ Hid).
  - apply H.
  - eapply linearizes_return; [by apply H|done].
  - apply H.
  - intros id' ph' [Hne Hid']%lookup_delete_Some. eapply op_frame; [by apply (ln_ops _ _ _ _ _ H)|done|done| | |done|done|by eauto].
    + intros ev Hev. apply elem_of_app. by left.
    + intros a. by apply returned_before_snoc.
  - intros id' q' [Hin|?]%elem_snoc; [|done]. by apply (ln_fresh _ _ _ _ _ H) in Hin.
Qed.

Lemma step_get db db' ops i h lin m A dr id q s n sp :
  linear (mkWorld db ops i h) lin m A dr → ops !! id = Some (QWant q s) → target s = Some n →
  tableOrThrow n db = Ret db' sp → linear (mkWorld db' (<[id:=QHave q s sp]> ops) i h) lin m A dr.
Proof.
  intros H Hid Ht Hrun. pose proof (tableOrThrow_stands _ _ _ _ n (ln_stands _ _ _ _ _ H)) as Hg. simpl in Hg.
  destruct (m !! n) as [sp'|] eqn:Hn; [|destruct Hg as [e Hg]; congruence]. destruct Hg as (db1 & Hrun' & Hst).
  rewrite Hrun in Hrun'. injection Hrun' as <- <-. destruct (want_ok _ _ _ _ _ _ _ _ H Hid) as (Hq & Hni & Hc & _).
  split; simpl; [|apply H|apply H|apply H| |apply H].
  - eapply stands_perm; [|done]. rewrite held_set, (held_take _ _ _ Hid). done.
  - intros id' ph' [[<- <-]|[Hne Hid']]%lookup_insert_Some; [|by apply (ln_ops _ _ _ _ _ H)]. simpl. split_and!; [done..|].
    destruct (named_table _ _ _ _ _ _ (ln_stands _ _ _ _ _ H) Hn) as (p & c & _ & _ & -> & _). exists n, p, c. eauto.
Qed.

Lemma step_leave db db' ops i h lin m A dr id sp r :
  linear (mkWorld db ops i h) lin m A dr → ops !! id = Some (QLeave sp r) → onHeap (release sp) db = Ret db' () →
  ∃ A', linear (mkWorld db' (<[id:=QDone r]> ops) i h) lin m A' dr.
Proof.
  intros H Hid Hrun. pose proof (ln_stands _ _ _ _ _ H) as Hst. simpl in Hst.
  apply (stands_perm _ (sp :: held (delete id ops))) in Hst; [|by rewrite (held_take _ _ _ Hid)].
  destruct (release_stands _ _ _ _ _ Hst) as (db1 & A' & Hrun' & Hst' & Hk). rewrite Hrun in Hrun'. injection Hrun' as <-.
  exists A'. split; simpl; [|rewrite (view_keeps _ _ _ _ Hk); apply H|apply H| | |apply H].
  - eapply stands_perm; [|done]. by rewrite held_set.
  - eapply dropped_ok_sub; [by apply H| |done]. intros p x. by eapply keeps_back.
  - intros id' ph' [[<- <-]|[Hne Hid']]%lookup_insert_Some; [|by apply (ln_ops _ _ _ _ _ H)]. apply (ln_ops _ _ _ _ _ H _ _ Hid).
Qed.

Lemma step_missing db db' ops i h lin m A dr id q s n e :
  linear (mkWorld db ops i h) lin m A dr → ops !! id = Some (QWant q s) → target s = Some n →
  tableOrThrow n db = Exn db' e →
  linear (mkWorld db' (<[id:=QDone (errorReply e)]> ops) i h) (lin ++ [mkEntry id q (errorReply e)]) m A dr.
Proof.
  intros H Hid Ht Hrun. pose proof (ln_stands _ _ _ _ _ H) as Hst. simpl in Hst.
  pose proof (tableOrThrow_stands _ _ _ _ n Hst) as Hg. destruct (m !! n) as [sp|] eqn:Hn; [by destruct Hg as (? & ? & _); congruence|].
  destruct Hg as [e' Hg]. rewrite Hrun in Hg. injection Hg as -> _. eapply linear_fail; eauto; [|done].
  rewrite (ref_target _ _ _ Ht). unfold at_rows. by rewrite view_lookup, Hn.
Qed.

Lemma step_create db db' ops i h lin m A dr id q stmt r :
  linear (mkWorld db ops i h) lin m A dr → ops !! id = Some (QWant q (SCreate stmt)) →
  ended (runCreate stmt db) = Some (db', r) →
  ∃ m' A' dr', linear (mkWorld db' (<[id:=QDone r]> ops) i h) (lin ++ [mkEntry id q r]) m' A' dr'.
Proof.
  intros H Hid Hrun. pose proof (ln_stands _ _ _ _ _ H) as Hst. simpl in Hst.
  pose proof (runCreate_stands _ _ _ _ stmt Hst) as Hr. destruct (ref_create (view m A) stmt) as [[D' r']|] eqn:Href.
  - destruct Hr as (db1 & p & c & sc & Hret & Hp & Hm & Hst' & HD'). rewrite Hret in Hrun. injection Hrun as <- <-.
    destruct (want_ok _ _ _ _ _ _ _ _ H Hid) as (Hq & Hn & Hc & _).
    assert (Hrq : ref_query (state_of lin) q = Some (D', r')).
    { rewrite (parsed_query _ _ _ Hq). simpl. rewrite <- (ln_view _ _ _ _ _ H). done. }
    eexists _, _, (delete p dr). eapply linear_take_effect; [done|done|done|done| | | | |].
    + eapply stands_perm; [|done]. symmetry. by eapply held_same.
    + unfold ref_next. rewrite Hrq, HD'. by eapply view_new.
    + unfold answer. by rewrite Hrq.
    + apply dropped_ok_snoc; [|done]. apply dropped_ok_new. apply H.
    + intros id' ph' Hne Hid'. pose proof (ln_ops _ _ _ _ _ H _ _ Hid') as Hop. simpl in Hop.
      eapply op_frame; [by apply (op_snoc _ _ _ _ _ _ (mkEntry id q r') A (ln_dropped _ _ _ _ _ H) Hop Hne)|done|done|done|done|done| |].
      * intros sp p' x Hsp Hp' Hx. rewrite lookup_delete_ne; [done|]. intros <-.
        destruct (handle_table _ _ _ _ sp Hst) as (p1 & c1 & t1 & y & -> & _ & Hy & _).
        { apply handles_held. by eapply held_elem. }
        { by intros ->. }
        simpl in Hp'. congruence.
      * intros sp p' n' Hsp Hp' Hn'. left. rewrite lookup_insert_ne; [done|]. congruence.
  - destruct Hr as (db1 & e & A' & Hret & Hst' & Hk). rewrite Hret in Hrun. injection Hrun as <- <-.
    exists m, A', dr. by eapply linear_fail.
Qed.

Lemma step_drop db db' ops i h lin m A dr id q stmt r :
  linear (mkWorld db ops i h) lin m A dr → ops !! id = Some (QWant q (SDrop stmt)) →
  ended (runDrop stmt db) = Some (db', r) →
  ∃ m' A' dr', linear (mkWorld db' (<[id:=QDone r]> ops) i h) (lin ++ [mkEntry id q r]) m' A' dr'.
Proof.
  intros H Hid Hrun. pose proof (ln_stands _ _ _ _ _ H) as Hst. simpl in Hst.
  pose proof (runDrop_stands _ _ _ _ stmt Hst) as Hr. destruct (ref_drop (view m A) stmt) as [[D' r']|] eqn:Href.
  2: { destruct Hr as (db1 & e & A' & Hret & Hst' & Hk). rewrite Hret in Hrun. injection Hrun as <- <-.
       exists m, A', dr. by eapply linear_fail. }
  destruct Hr as (db1 & A' & Hret & [sp Hm] & Hst' & Hk & HD'). rewrite Hret in Hrun. injection Hrun as <- <-.
  destruct (named_table _ _ _ _ _ _ Hst Hm) as (p & c & t & x & -> & _ & Hx & _).
  destruct (want_ok _ _ _ _ _ _ _ _ H Hid) as (Hq & Hn & Hc & _). destruct stmt as [n]. simpl in *.
  assert (r' = "OK") as ->.
  { unfold ref_drop in Href. simpl in Href. destruct (view m A !! n); [|done]. by injection Href as _ <-. }
  assert (Hrq : ref_query (state_of lin) q = Some (D', "OK")).
  { rewrite (parsed_query _ _ _ Hq). simpl. rewrite <- (ln_view _ _ _ _ _ H). done. }
  exists (delete n m), A', (<[p:=(id, n)]> dr). eapply linear_take_effect; [done|done|done|done| | | | |].
  - eapply stands_perm; [|done]. symmetry. by eapply held_same.
  - unfold ref_next. rewrite Hrq, HD', <- view_delete. by eapply view_keeps.
  - unfold answer. by rewrite Hrq.
  - apply (dropped_ok_drop _ _ A _ _ _ _ c (mkEntry id q "OK")); [by apply H|done|apply Hst|by apply H| |done|done].
    intros p' x'. by eapply keeps_back.
  - intros id' ph' Hne Hid'. pose proof (ln_ops _ _ _ _ _ H _ _ Hid') as Hop. simpl in Hop.
    assert (Hup : upto id (lin ++ [mkEntry id q "OK"]) = lin) by (by apply upto_app).
    assert (Hrt : ∀ a, returned_before h id' a → a ∈ ids (upto id (lin ++ [mkEntry id q "OK"]))).
    { intros a Ha. rewrite Hup. eapply returned_in; [|done]. apply (ln_lin _ _ _ _ _ H). }
    eapply op_frame; [by apply (op_snoc _ _ _ _ _ _ (mkEntry id q "OK") A (ln_dropped _ _ _ _ _ H) Hop Hne)|done|done|done|done|done| |].
    + intros sp p' y Hsp Hp' Hy. rewrite lookup_insert_ne; [done|]. intros <-. destruct y as [d n'].
      destruct (do_each _ _ _ _ (ln_dropped _ _ _ _ _ H) p d n' x Hy Hx) as [_ _ Hu]. by apply (Hu n _ Hm).
    + intros sp p' n' Hsp Hp' Hn'. destruct (decide (n' = n)) as [->|Hnn].
      * right. exists id. rewrite Hm in Hn'. injection Hn' as <-. injection Hp' as <-. by rewrite lookup_insert_eq.
      * left. by rewrite lookup_delete_ne.
Qed.

(** ** Working on a table *)
Lemma body_answer s n D sc l q f :
  parseQuery q = Val s → target s = Some n → D !! n = Some (sc, l) → f = rowsOf s sc l →
  match f with
  | Some (l', r) => answer D q r ∧ ref_next D q = <[n:=(sc, l')]> D
  | None => ∀ e, answer D q (errorReply e) ∧ ref_next D q = D
  end.
Proof.
  intros Hq Ht HD ->. unfold answer, ref_next. rewrite (parsed_query _ _ _ Hq), (ref_target _ _ _ Ht). unfold at_rows.
  rewrite HD. destruct (rowsOf s sc l) as [[l' r]|]; [done|]. intros e. split; [|done]. by exists (what e).
Qed.

(** What the work on the table at [p] does, as one outcome. *)
Lemma body_outcome ls db db' m A p c sc l s cs r :
  stands ls db m A → derives s cs → A !! p = Some (sc, l) →
  ended (atTable (mkSharedPtr (Some p) (Some c)) (bodyOf s) db) = Some (db', r) →
  ∃ l', stands ls db' m (<[p:=(sc, l')]> A) ∧
    ∀ D q n, parseQuery q = Val s → target s = Some n → D !! n = Some (sc, l) →
      answer D q r ∧ ref_next D q = <[n:=(sc, l')]> D.
Proof.
  intros Hst Hd Hp Hrun. pose proof (atTable_stands ls db m A p c sc l _ _ Hst (bodyOf_ok s cs Hd) Hp) as Hb.
  destruct (rowsOf s sc l) as [[l' r']|] eqn:Hf.
  - destruct Hb as (db1 & Hret & Hst'). rewrite Hret in Hrun. injection Hrun as <- <-. exists l'. split; [done|].
    intros D q n Hq Ht HD. by apply (body_answer s n D sc l q (Some (l', r'))).
  - destruct Hb as (db1 & e & Hret & Hst'). rewrite Hret in Hrun. injection Hrun as <- <-. exists l. rewrite (insert_id A) by done.
    split; [done|]. intros D q n Hq Ht HD. rewrite insert_id by done. by apply (body_answer s n D sc l q None).
Qed.

Lemma step_body db db' ops i h lin m A dr id q s sp r :
  linear (mkWorld db ops i h) lin m A dr → ops !! id = Some (QHave q s sp) →
  ended (atTable sp (bodyOf s) db) = Some (db', r) →
  ∃ lin' A', linear (mkWorld db' (<[id:=QLeave sp r]> ops) i h) lin' m A' dr.
Proof.
  intros H Hid Hrun. pose proof (ln_stands _ _ _ _ _ H) as Hst. simpl in Hst.
  destruct (ln_ops _ _ _ _ _ H _ _ Hid) as (Hq & Hni & Hc & n & p & c & Ht & -> & Hcase). simpl in Hc.
  pose proof (parseQuery_spec q) as Hs. rewrite Hq in Hs. destruct Hs as [cs Hd].
  destruct (handle_table _ _ _ _ (mkSharedPtr (Some p) (Some c)) Hst) as (p0 & c0 & t & [sc l] & [= <- <-] & _ & Hp & _);
    [apply handles_held; by eapply held_elem|done|].
  destruct (body_outcome _ _ _ _ _ _ _ _ _ _ _ _ Hst Hd Hp Hrun) as (l' & Hst' & Hans).
  assert (Hst2 : stands (held (<[id:=QLeave (mkSharedPtr (Some p) (Some c)) r]> ops)) db' m (<[p:=(sc, l')]> A)).
  { eapply stands_perm; [|done]. symmetry. by eapply held_same. }
  destruct Hcase as [Hn|(d & Hdr & Htime)].
  - assert (HD : state_of lin !! n = Some (sc, l)).
    { rewrite <- (ln_view _ _ _ _ _ H), view_lookup, Hn. done. }
    destruct (Hans _ q n Hq Ht HD) as [Ha Hnext]. eexists _, _. eapply linear_append; eauto; [done| |].
    + rewrite Hnext, <- (ln_view _ _ _ _ _ H). by eapply view_set; [apply Hst| |].
    + eapply dropped_ok_set; [by apply H|done|done|done].
  - pose proof (ln_dropped _ _ _ _ _ H) as Hdo. pose proof (do_in _ _ _ _ Hdo _ _ _ Hdr) as Hin.
    destruct (do_each _ _ _ _ Hdo p d n (sc, l) Hdr Hp) as [Hdrops HD Hun].
    destruct (Hans _ q n Hq Ht HD) as [Ha Hnext].
    destruct (linearizes_insert h lin d id q r n s) as [Hlz Hsame]; [by apply H|done|done|done|done|done| |by eexists|done|done|].
    { intros e post Heq. destruct (upto_split d lin Hin) as (e' & post' & Heq' & He'). apply Hdrops.
      - rewrite Heq. apply elem_of_app. right. by left.
      - rewrite Heq in Heq' at 1. by apply app_inv_head in Heq' as [= -> ->]. }
    exists (insertBefore d (mkEntry id q r) lin), (<[p:=(sc, l')]> A). split; simpl; [done| |done| | |apply H].
    + rewrite view_set_other by done. rewrite (ln_view _ _ _ _ _ H).
      destruct (insertBefore_at d (mkEntry id q r) lin Hin) as (e & post & Heq & _ & -> & _); [by intros <-|].
      rewrite (Hsame e post post Heq). by rewrite <- Heq.
    + eapply dropped_ok_insert; [done|done|done|done|done|done|]. simpl. by rewrite Hnext, lookup_insert_eq.
    + intros id' ph' [[<- <-]|[Hne Hid']]%lookup_insert_Some.
      { eapply op_effective; [done|]. rewrite insertBefore_perm. by left. }
      eapply op_frame; [by apply (ln_ops _ _ _ _ _ H)| | |done|done| |done|by eauto].
      * intros e He. rewrite insertBefore_perm. by right.
      * intros Hn'. unfold ids. rewrite insertBefore_perm. csimpl. by apply not_elem_of_cons.
      * intros p' d' n' a Hp' Ha'. pose proof (do_in _ _ _ _ Hdo _ _ _ Hp') as Hin'. destruct (decide (d' = d)) as [->|Hdd].
        { destruct (insertBefore_at d (mkEntry id q r) lin Hin) as (e & post & _ & _ & _ & ->); [by intros <-|]. by apply ids_snoc. }
        destruct (upto_insertBefore d d' (mkEntry id q r) lin Hin Hin' Hdd) as [->|(e & k & _ & Hk & ->)]; [by intros <-|done|].
        rewrite Hk in Ha'. unfold ids in *. rewrite fmap_app in *. csimpl in *. rewrite elem_of_app in *. rewrite elem_of_cons.
        tauto.
Qed.

Lemma step_linear w w' lin m A dr : linear w lin m A dr → qstep w w' → ∃ lin' m' A' dr', linear w' lin' m' A' dr'.
Proof.
  intros H Hs. destruct Hs as [q s db ops i h Hq|q e db ops i h Hq|id q s db db' r ops i h Hid Ht Hr|id q s n db db' sp ops i h Hid Ht Hr
    |id q s n db db' e ops i h Hid Ht Hr|id q s sp db db' r ops i h Hid Hr|id sp r db db' ops i h Hid Hr|id r db ops i h Hid].
  - eexists _, _, _, _. by apply step_call.
  - eexists _, _, _, _. by apply step_call_bad.
  - eexists (lin ++ [mkEntry id q r]). destruct s; try done; [by eapply step_create|by eapply step_drop].
  - eexists _, _, _, _. by eapply step_get.
  - eexists _, _, _, _. by eapply step_missing.
  - destruct (step_body _ _ _ _ _ _ _ _ _ _ _ _ _ _ H Hid Hr) as (lin' & A' & ?). by eexists _, _, _, _.
  - destruct (step_leave _ _ _ _ _ _ _ _ _ _ _ _ H Hid Hr) as (A' & ?). by eexists _, _, _, _.
  - eexists _, _, _, _. by apply step_return.
Qed.

Lemma linear_start : linear newWorld [] ∅ ∅ ∅.
Proof.
  split; simpl; [apply newDatabase_stands|apply omap_empty|..|by intros id q ?%elem_of_nil].
  - split; [done|apply NoDup_nil_2|by intros e ?%elem_of_nil|by intros a r ?%elem_of_nil|by intros a b ?%elem_of_nil].
  - split; [by intros p d n ?|by intros p d n x ?|by intros p p' d n n' ?].
  - intros id ph Hid. by rewrite lookup_empty in Hid.
Qed.

Lemma linear_reachable w : rtc qstep newWorld w → ∃ lin m A dr, linear w lin m A dr.
Proof.
  intros Hr. assert (H : ∃ lin m A dr, linear newWorld lin m A dr) by (eexists _, _, _, _; apply linear_start).
  induction Hr as [|w1 w2 w3 Hs _ IH]; [done|]. apply IH. destruct H as (lin & m & A & dr & H). by eapply step_linear.
Qed.
End Linear.
