(* ===== verification/QueryProgress.v ===== *)
(** * Concurrent queries: progress

    A query in flight has at most four steps left, and can always take the next
    one: none of its steps depends on what another query does. *)

From S2P Require Import Prelude AssocList CxxStd Schema Row KeyIndex LRUCache Table TableSpec SharedPtr Database DatabaseSpec.
From S2P Require Import Lexer Ast Parser ParserSpec QueryExecutor QueryConcurrent QueryRef QueryRows QueryBodies QuerySpec QueryLinear QueryLinearSpec.

Section Progress.
Context {Ix Dx : Type} `{!KeyIndex Z nat Ix} `{!KeyIndexLaws Z nat Ix}.
Context `{!KeyIndex string SharedPtr Dx} `{!KeyIndexLaws string SharedPtr Dx}.
Abbreviation W := (qworld Ix Dx).
Abbreviation DB := (Database Ix Dx).

(** The linearization of a world; a world at rest stands for its last state. *)
Lemma world_linearizes (w : W) :
  rtc qstep newWorld w →
  ∃ lin, linearizes (w_hist w) lin ∧
    (w_ops w = ∅ → db_ok [] (w_db w) (state_of lin) ∧
       base.size (objects (heap_ (w_db w))) = base.size (state_of lin)).
Proof.
  intros Hr. destruct (linear_reachable w Hr) as (lin & m & A & dr & H). exists lin. split; [apply H|]. intros He.
  assert (Hok : db_ok [] (w_db w) (state_of lin)).
  { exists m, A. rewrite <- (ln_view _ _ _ _ _ H). split; [|done]. pose proof (ln_stands _ _ _ _ _ H) as Hst.
    rewrite He in Hst. exact Hst. }
  split; [done|]. by apply db_ok_objects.
Qed.

(** How many steps a query has left. *)
Definition stepsLeft (ph : option qphase) : nat :=
  match ph with
  | Some (QWant _ _) => 4
  | Some (QHave _ _ _) => 3
  | Some (QLeave _ _) => 2
  | Some (QDone _) => 1
  | None => 0
  end.

(** A step of the query [id] alone, one of those it has left. *)
Definition advances (id : nat) (w w' : W) : Prop :=
  qstep w w' ∧ stepsLeft (w_ops w' !! id) < stepsLeft (w_ops w !! id) ∧
  ∀ id', id' ≠ id → w_ops w' !! id' = w_ops w !! id'.

Lemma advances_set id (db db' : DB) ops i h ph ph' :
  ops !! id = Some ph → qstep (mkWorld db ops i h) (mkWorld db' (<[id:=ph']> ops) i h) →
  stepsLeft (Some ph') < stepsLeft (Some ph) → ∃ w', advances id (mkWorld db ops i h) w' ∧ w_hist w' = h.
Proof.
  intros Hid Hs Hlt. exists (mkWorld db' (<[id:=ph']> ops) i h). split; [|done]. split; [done|]. simpl. rewrite lookup_insert_eq, Hid. split; [done|].
  intros id' Hne. by rewrite lookup_insert_ne.
Qed.

Lemma want_advances (db : DB) ops i h lin m A dr id q s :
  linear (mkWorld db ops i h) lin m A dr → ops !! id = Some (QWant q s) →
  ∃ w', advances id (mkWorld db ops i h) w' ∧ w_hist w' = h.
Proof.
  intros H Hid. destruct (want_ok _ _ _ _ _ _ _ _ H Hid) as (_ & _ & _ & cs & Hd).
  pose proof (ln_stands _ _ _ _ _ H) as Hst. simpl in Hst. destruct (target s) as [n|] eqn:Ht.
  - pose proof (tableOrThrow_stands _ _ _ _ n Hst) as Hg. destruct (m !! n) as [sp|].
    + destruct Hg as (db' & Hrun & _). eapply advances_set; [done|by eapply q_get|simpl; lia].
    + destruct Hg as (e & Hrun). eapply advances_set; [done|by eapply q_missing|simpl; lia].
  - assert (Hdb : db_ok (held ops) db (view m A)) by (by exists m, A).
    pose proof (run_spec (held ops) db (view m A) s cs Hdb Hd) as Hrun.
    assert (∃ db' r, ended (run s db) = Some (db', r)) as (db' & r & Hend) by (destruct (run s db); simpl; eauto; done).
    eapply advances_set; [done|by eapply q_whole|simpl; lia].
Qed.

Lemma have_advances (db : DB) ops i h lin m A dr id q s sp :
  linear (mkWorld db ops i h) lin m A dr → ops !! id = Some (QHave q s sp) →
  ∃ w', advances id (mkWorld db ops i h) w' ∧ w_hist w' = h.
Proof.
  intros H Hid. pose proof (ln_stands _ _ _ _ _ H) as Hst. simpl in Hst.
  destruct (ln_ops _ _ _ _ _ H _ _ Hid) as (Hq & _ & _ & n & p & c & _ & -> & _).
  pose proof (parseQuery_spec q) as Hs. rewrite Hq in Hs. destruct Hs as [cs Hd].
  destruct (handle_table _ _ _ _ (mkSharedPtr (Some p) (Some c)) Hst) as (p' & c' & t & [sc l] & [= <- <-] & _ & Hp & _); [|done|].
  { apply handles_held. by eapply held_elem. }
  pose proof (atTable_stands _ db m A p c sc l _ _ Hst (bodyOf_ok s cs Hd) Hp) as Hr.
  destruct (rowsOf s sc l) as [[l' r]|].
  - destruct Hr as (db' & Hrun & _). eapply advances_set; [done|eapply q_body; [done|by rewrite Hrun]|simpl; lia].
  - destruct Hr as (db' & e & Hrun & _). eapply advances_set; [done|eapply q_body; [done|by rewrite Hrun]|simpl; lia].
Qed.

Lemma leave_advances (db : DB) ops i h lin m A dr id sp r :
  linear (mkWorld db ops i h) lin m A dr → ops !! id = Some (QLeave sp r) →
  ∃ w', advances id (mkWorld db ops i h) w' ∧ w_hist w' = h.
Proof.
  intros H Hid. pose proof (ln_stands _ _ _ _ _ H) as Hst. simpl in Hst.
  apply (stands_perm _ (sp :: held (delete id ops))) in Hst; [|by rewrite (held_take _ _ _ Hid)].
  destruct (release_stands _ _ _ _ _ Hst) as (db' & A' & Hrun & _).
  eapply advances_set; [done|by eapply q_leave|simpl; lia].
Qed.

(** A query that has no reply yet moves; one that has returns. *)
Lemma query_moves (w : W) id ph :
  rtc qstep newWorld w → w_ops w !! id = Some ph →
  (∃ r, ph = QDone r) ∨ ∃ w', advances id w w' ∧ w_hist w' = w_hist w.
Proof.
  intros Hr Hid. destruct (linear_reachable w Hr) as (lin & m & A & dr & H). destruct w as [db ops i h]. simpl in *.
  destruct ph as [q s|q s sp|sp r|r]; [right; by eapply want_advances|right; by eapply have_advances|
    right; by eapply leave_advances|by left; exists r].
Qed.

Lemma query_advances (w : W) id :
  rtc qstep newWorld w → is_Some (w_ops w !! id) → stepsLeft (w_ops w !! id) ≤ 4 ∧ ∃ w', advances id w w'.
Proof.
  intros Hr [ph Hid]. split; [rewrite Hid; destruct ph; simpl; lia|].
  destruct (query_moves w id ph Hr Hid) as [[r ->]|(w' & Ha & _)]; [|by exists w'].
  destruct w as [db ops i h]. simpl in *. eexists. split; [by apply q_return|]. simpl. rewrite lookup_delete_eq, Hid.
  split; [simpl; lia|]. intros id' Hne. by rewrite lookup_delete_ne.
Qed.

(** ** A query that runs alone *)
Lemma release_no_exn (sp : SharedPtr) (db db' : DB) e : onHeap (release sp) db ≠ Exn db' e.
Proof.
  unfold onHeap, release. destruct (control_ sp) as [c|]; [|done]. unfold fetchAdd. mrun.
  destruct (counts (heap_ db) !! c) as [n|]; [|done]. simpl. mrun. case_bool_decide; [|done].
  unfold deleteObject, deleteControl. destruct (ptr_ sp) as [p|]; mrun; simpl.
  - destruct (objects (heap_ db) !! p); [|done]. simpl. mrun. simpl. by rewrite lookup_insert_eq.
  - by rewrite lookup_insert_eq.
Qed.

(** The scope of a handle: the body, then the release. *)
Lemma scoped_ended sp (body : M DB string) db db' r :
  ended (scoped sp body db) = Some (db', r) →
  ∃ db1, ended (body db) = Some (db1, r) ∧ onHeap (release sp) db1 = Ret db' ().
Proof.
  unfold scoped. destruct (body db) as [db1 a|db1 e|] eqn:Hb; [..|done]; intros Hend; exists db1;
    destruct (onHeap (release sp) db1) as [db2 []|db2 e'|] eqn:Hrel.
  - erewrite M_bind_run in Hend by done. by injection Hend as <- <-.
  - by apply release_no_exn in Hrel.
  - unfold mbind, M_bind in Hend. by rewrite Hrel in Hend.
  - erewrite M_bind_run in Hend by done. by injection Hend as <- <-.
  - by apply release_no_exn in Hrel.
  - unfold mbind, M_bind in Hend. by rewrite Hrel in Hend.
Qed.

(** [execute] is what the steps of a query do when no other query runs in between. *)
Lemma query_alone (db db' : DB) ops i h query r :
  execute query db = Ret db' r → ops !! i = None →
  rtc qstep (mkWorld db ops i h) (mkWorld db' ops (S i) (h ++ [ECall i query; EReturn i r])).
Proof.
  intros Hex Hi. change [ECall i query; EReturn i r] with ([ECall i query] ++ [EReturn i r]). rewrite (assoc_L (++)).
  assert (Hret : ∀ ph, rtc qstep (mkWorld db (<[i:=ph]> ops) (S i) (h ++ [ECall i query]))
      (mkWorld db' (<[i:=QDone r]> ops) (S i) (h ++ [ECall i query])) →
    rtc qstep (mkWorld db (<[i:=ph]> ops) (S i) (h ++ [ECall i query]))
      (mkWorld db' ops (S i) ((h ++ [ECall i query]) ++ [EReturn i r]))).
  { intros ph Hs. etrans; [exact Hs|]. apply rtc_once. rewrite <- (delete_insert_id ops i (QDone r)) at 2 by done.
    apply q_return. by rewrite lookup_insert_eq. }
  unfold execute in Hex. destruct (parseQuery query) as [s|e|] eqn:Hq; [| |done]; revert Hex; mrun; intros Hex.
  2: { injection Hex as <- <-. eapply rtc_l; [by apply q_call_bad|]. by apply Hret. }
  assert (Hend : ended (run s db) = Some (db', r)) by (revert Hex; destruct (run s db); [by intros [= <- <-]..|done]). clear Hex.
  eapply rtc_l; [by apply q_call|]. apply Hret. destruct (target s) as [n|] eqn:Ht.
  2: { rewrite <- (insert_insert_eq ops i (QDone r) (QWant query s)). apply rtc_once.
       eapply q_whole; [by rewrite lookup_insert_eq|done|done]. }
  rewrite (run_target _ _ _ Ht) in Hend. unfold onTable in Hend.
  destruct (tableOrThrow n db) as [db1 sp|db1 e|] eqn:Hg.
  - erewrite M_bind_run in Hend by done. destruct (scoped_ended _ _ _ _ _ Hend) as (db2 & Hb & Hrel).
    eapply rtc_l; [eapply q_get; [by rewrite lookup_insert_eq|done|done]|].
    eapply rtc_l; [eapply q_body; [by rewrite lookup_insert_eq|done]|].
    eapply rtc_l; [eapply q_leave; [by rewrite lookup_insert_eq|done]|]. by rewrite !insert_insert_eq.
  - erewrite M_bind_exn in Hend by done. injection Hend as <- <-. rewrite <- (insert_insert_eq ops i (QDone (errorReply e)) (QWant query s)).
    apply rtc_once. eapply q_missing; [by rewrite lookup_insert_eq|done|done].
  - unfold mbind, M_bind in Hend. by rewrite Hg in Hend.
Qed.
End Progress.
