(* ===== verification/QueryLinearMain.v ===== *)
(** * Concurrent queries: main theorems

    For all hash functions, over every interleaving of any number of queries. *)

From S2P Require Import Prelude AssocList CxxStd Schema Row HashMap KeyIndex HashMapSpec LRUCache Table TableSpec SharedPtr Database DatabaseSpec.
From S2P Require Import Lexer Ast Parser ParserSpec QueryExecutor QueryConcurrent QueryRef QueryRows QueryBodies QuerySpec QueryLinear QueryLinearSpec QueryProgress.

Section Main.
Context (hashZ : Z → N) (hashS : string → N).
#[local] Instance linZ : KeyIndex Z nat (HashMap Z nat) := HashMap_index hashZ.
#[local] Instance linZ_laws : KeyIndexLaws Z nat (HashMap Z nat) := HashMap_index_laws hashZ.
#[local] Instance linS : KeyIndex string SharedPtr (HashMap string SharedPtr) := HashMap_index hashS.
#[local] Instance linS_laws : KeyIndexLaws string SharedPtr (HashMap string SharedPtr) := HashMap_index_laws hashS.
Abbreviation W := (qworld (HashMap Z nat) (HashMap string SharedPtr)).
Abbreviation DB := (Database (HashMap Z nat) (HashMap string SharedPtr)).

(** ** Concurrent queries are linearizable *)

(** C2: Queries are linearizable.  However the queries of any number of threads
    interleave, tables being created, dropped and created again while other
    queries hold them: there is an order of the queries, each once, in which
    running them one after the other on plain sorted lists gives every query the
    reply that it got (or that it will get, for one still in flight that has
    taken effect); a query that returned before another was called comes before
    it; and when none is in flight, the database stands for the state at the end
    of that order and nothing is leaked. *)
Theorem queries_linearizable (w : W) :
  rtc qstep newWorld w →
  ∃ lin, linearizes (w_hist w) lin ∧
    (w_ops w = ∅ → db_ok [] (w_db w) (state_of lin) ∧
       base.size (objects (heap_ (w_db w))) = base.size (state_of lin)).
Proof. apply world_linearizes. Qed.

(** ** Queries finish *)

(** C16: Queries finish and never go wrong.  In every reachable state every query
    in flight can take its next step whatever the others are doing, and it has
    at most four: no handle is null or dangling, no table is used after it was
    freed, no statement runs into undefined behaviour. *)
Theorem queries_progress (w : W) (id : nat) :
  rtc qstep newWorld w → is_Some (w_ops w !! id) → stepsLeft (w_ops w !! id) ≤ 4 ∧ ∃ w', advances id w w'.
Proof. apply query_advances. Qed.
(** ** What is stored is typed *)

(** Every cell is there and has the type of its column. *)
Definition typed_cells (s : Schema) (r : Row) : Prop :=
  Forall2 (λ c v, ∃ x, v = Some x ∧ typed (type c) x) (columns_ s) (values_ r).

Lemma stored_typed s id r : stored s id r → typed_cells s r.
Proof.
  intros Hs. pose proof (rk_cells _ _ (st_row _ _ _ Hs)) as Hc. pose proof (st_full _ _ _ Hs) as Hf. unfold full in Hf. unfold typed_cells.
  induction Hc as [|c v cs vs Hv _ IH]; [constructor|]. apply Forall_cons in Hf as [[x ->] Hf]. constructor; [by exists x|by apply IH].
Qed.

Lemma stored_getInt s id r c : stored s id r → findColumn s kIdColumn = Some c → type c = INT → getInt r kIdColumn = Val id.
Proof.
  intros Hs Hc Hi. destruct (getInt_spec s r kIdColumn c (st_row _ _ _ Hs) (st_full _ _ _ Hs) Hc Hi) as (z & -> & Hz & _).
  rewrite (st_id _ _ _ Hs) in Hz. by injection Hz as ->.
Qed.

Lemma ids_ascend (l : list (Z * Row)) : ksorted l → StronglySorted Z.lt l.*1.
Proof.
  induction 1 as [|e l Hs IH Hall]; csimpl; constructor; [done|]. apply Forall_forall. intros x (e' & -> & Hin)%list_elem_of_fmap.
  rewrite Forall_forall in Hall. by apply Z.ltb_lt, (Hall e').
Qed.

Lemma table_typed (t : Table (HashMap Z nat)) l :
  table_ok t l →
  ∃ rows ids, selectAll t = Ret t rows ∧ Forall (typed_cells (schema_ t)) rows ∧
    (λ r, getInt r kIdColumn) <$> rows = Val <$> ids ∧ StronglySorted Z.lt ids.
Proof.
  intros Ht. exists l.*2, l.*1. destruct (to_id _ _ _ Ht) as (c & Hc & Hi). split_and!.
  - by apply selectAll_spec.
  - apply Forall_forall. intros r ([id r'] & -> & Hin)%list_elem_of_fmap. by eapply stored_typed, (to_stored _ _ _ Ht).
  - rewrite <- !list_fmap_compose. apply list_fmap_ext. intros i [id r] Hir. simpl.
    eapply stored_getInt; [|done|done]. eapply (to_stored _ _ _ Ht). by eapply list_elem_of_lookup_2.
  - by eapply ids_ascend, to_sorted.
Qed.

(** C25: Tables are well typed.  However queries interleave, in every state every
    table, also one that was dropped and is still in use: its columns have
    different names, none of them empty, and [id] is an INT column; every row has
    a cell for every column, of the column's type (numbers within 64 bits); and
    the rows come in strictly ascending order of their ids. *)
Theorem tables_typed (w : W) (p : nat) (t : Table (HashMap Z nat)) :
  rtc qstep newWorld w → objects (heap_ (w_db w)) !! p = Some t →
  schema_ok (schema_ t) ∧ (∃ c, findColumn (schema_ t) kIdColumn = Some c ∧ type c = INT) ∧
  ∃ rows ids, selectAll t = Ret t rows ∧ Forall (typed_cells (schema_ t)) rows ∧
    (λ r, getInt r kIdColumn) <$> rows = Val <$> ids ∧ StronglySorted Z.lt ids.
Proof.
  intros Hr Hp. destruct (linear_reachable w Hr) as (lin & m & A & dr & H).
  pose proof (st_contents _ _ _ _ (ln_stands _ _ _ _ _ H) p) as Hc. rewrite Hp in Hc. destruct (A !! p) as [[s l]|]; [|done].
  destruct Hc as [Ht _]. split; [apply Ht|]. split; [apply Ht|]. by apply (table_typed t l).
Qed.
End Main.

(** ** Witnesses *)
Definition short_hash (s : string) : N := N.of_nat (String.length s).
#[local] Instance shortZ : KeyIndex Z nat (HashMap Z nat) := HashMap_index Z.to_N.
#[local] Instance shortZ_laws : KeyIndexLaws Z nat (HashMap Z nat) := HashMap_index_laws Z.to_N.
#[local] Instance shortS : KeyIndex string SharedPtr (HashMap string SharedPtr) := HashMap_index short_hash.
#[local] Instance shortS_laws : KeyIndexLaws string SharedPtr (HashMap string SharedPtr) := HashMap_index_laws short_hash.

Ltac qnext t :=
  eapply rtc_l; [t; vm_each|];
  match goal with |- rtc ?R ?a ?b => let a' := eval vm_compute in a in change (rtc R a' b) end.

(** An INSERT holds the table while it is dropped, and then works on it. *)
Lemma demo_overlap :
  ∃ w : qworld (HashMap Z nat) (HashMap string SharedPtr), rtc qstep newWorld w ∧ w_ops w = ∅ ∧
    w_hist w = [ECall 0 "CREATE TABLE t (id INT)"; EReturn 0 "OK"; ECall 1 "INSERT INTO t (id) VALUES (7)";
                ECall 2 "DROP TABLE t"; EReturn 2 "OK"; EReturn 1 "OK"].
Proof.
  eexists. split.
  { qnext ltac:(eapply (q_call "CREATE TABLE t (id INT)")). qnext ltac:(eapply (q_whole 0)). qnext ltac:(eapply (q_return 0)).
    qnext ltac:(eapply (q_call "INSERT INTO t (id) VALUES (7)")). qnext ltac:(eapply (q_get 1)).
    qnext ltac:(eapply (q_call "DROP TABLE t")). qnext ltac:(eapply (q_whole 2)). qnext ltac:(eapply (q_return 2)).
    qnext ltac:(eapply (q_body 1)). qnext ltac:(eapply (q_leave 1)). qnext ltac:(eapply (q_return 1)). apply rtc_refl. }
  by vm_compute.
Qed.

Lemma queries_linearizable_witness :
  ∃ (w : qworld (HashMap Z nat) (HashMap string SharedPtr)) lin, w_ops w = ∅ ∧ EReturn 1 "OK" ∈ w_hist w ∧ linearizes (w_hist w) lin ∧ db_ok [] (w_db w) (state_of lin).
Proof.
  destruct demo_overlap as (w & Hr & Hops & Hh). destruct (queries_linearizable Z.to_N short_hash w Hr) as (lin & Hl & Hq).
  exists w, lin. split_and!; [done| |done|by apply Hq]. rewrite Hh. by repeat constructor.
Defined.

(** An INSERT that holds a dropped table. *)
Lemma demo_holding : ∃ w : qworld (HashMap Z nat) (HashMap string SharedPtr), rtc qstep newWorld w ∧ is_Some (w_ops w !! 1).
Proof.
  eexists. split.
  { qnext ltac:(eapply (q_call "CREATE TABLE t (id INT)")). qnext ltac:(eapply (q_whole 0)).
    qnext ltac:(eapply (q_call "INSERT INTO t (id) VALUES (7)")). qnext ltac:(eapply (q_get 1)).
    qnext ltac:(eapply (q_call "DROP TABLE t")). qnext ltac:(eapply (q_whole 2)). apply rtc_refl. }
  by vm_compute; eauto.
Qed.

Lemma queries_progress_witness : ∃ w : qworld (HashMap Z nat) (HashMap string SharedPtr), is_Some (w_ops w !! 1) ∧ ∃ w', advances 1 w w'.
Proof.
  destruct demo_holding as (w & Hr & Hid). exists w. split; [done|]. apply (queries_progress Z.to_N short_hash w 1 Hr Hid).
Defined.

(** A table with a row, dropped while a query is about to read it. *)
Lemma demo_typed : ∃ (w : qworld (HashMap Z nat) (HashMap string SharedPtr)) p t rows, rtc qstep newWorld w ∧
  objects (heap_ (w_db w)) !! p = Some t ∧ selectAll t = Ret t rows ∧ length rows = 1.
Proof.
  eexists _, 0, _, _. split.
  { qnext ltac:(eapply (q_call "CREATE TABLE t (id INT, n TEXT)")). qnext ltac:(eapply (q_whole 0)). qnext ltac:(eapply (q_return 0)).
    qnext ltac:(eapply (q_call "INSERT INTO t (id, n) VALUES (7, 'x')")). qnext ltac:(eapply (q_get 1)). qnext ltac:(eapply (q_body 1)).
    qnext ltac:(eapply (q_leave 1)). qnext ltac:(eapply (q_return 1)). qnext ltac:(eapply (q_call "SELECT * FROM t")).
    qnext ltac:(eapply (q_get 2)). qnext ltac:(eapply (q_call "DROP TABLE t")). qnext ltac:(eapply (q_whole 3)). apply rtc_refl. }
  split; [vm_compute; reflexivity|]. split; vm_compute; reflexivity.
Qed.

Lemma tables_typed_witness :
  ∃ (t : Table (HashMap Z nat)) rows ids, selectAll t = Ret t rows ∧ length rows = 1 ∧ Forall (typed_cells (schema_ t)) rows ∧ StronglySorted Z.lt ids.
Proof.
  destruct demo_typed as (w & p & t & rows & Hr & Hp & Hs & Hl).
  destruct (tables_typed Z.to_N short_hash w p t Hr Hp) as (_ & _ & rows' & ids & Hs' & Ht & _ & Hi). exists t, rows', ids.
  split; [exact Hs'|]. split; [|exact (conj Ht Hi)]. rewrite Hs in Hs'. injection Hs' as <-. exact Hl.
Defined.
