(* ===== verification/QueryMain.v ===== *)
(** * Database and queries: main theorems

    Sessions of queries on a new database over the hash map, for all hash
    functions of the two key types. *)

From S2P Require Import Prelude AssocList CxxStd Schema Row HashMap KeyIndex HashMapSpec LRUCache Table TableSpec RowMain TableMain.
From S2P Require Import SharedPtr Database DatabaseSpec Lexer Ast Parser ParserSpec ParserMain QueryExecutor QueryRef QueryRows QuerySpec.

Section Session.
Context (hashZ : Z → N) (hashS : string → N).
#[local] Instance indexZ : KeyIndex Z nat (HashMap Z nat) := HashMap_index hashZ.
#[local] Instance indexZ_laws : KeyIndexLaws Z nat (HashMap Z nat) := HashMap_index_laws hashZ.
#[local] Instance indexS : KeyIndex string SharedPtr (HashMap string SharedPtr) := HashMap_index hashS.
#[local] Instance indexS_laws : KeyIndexLaws string SharedPtr (HashMap string SharedPtr) := HashMap_index_laws hashS.
Abbreviation DB := (Database (HashMap Z nat) (HashMap string SharedPtr)).

Definition emptyDatabase : DB := newDatabase.
Definition session (queries : list string) : outcome DB (list string) := executeAll queries emptyDatabase.

Lemma session_spec queries :
  ∃ db replies, session queries = Ret db replies ∧ answers ∅ queries replies ∧ db_ok [] db (foldl ref_next ∅ queries).
Proof. apply executeAll_spec, newDatabase_ok. Qed.

(** ** An inserted row is found *)
Lemma db_ok_rows (db : DB) D n s l : db_ok [] db D → D !! n = Some (s, l) →
  ∃ t : Table (HashMap Z nat), table_ok t l ∧ schema_ t = s.
Proof.
  intros (m & A & Hst & ->) HD. rewrite view_lookup in HD. destruct (m !! n) as [sp|] eqn:Hn; [|done].
  destruct (named_table _ _ _ _ _ _ Hst Hn) as (p & c & t & x & -> & _ & Hx & Ht). simpl in HD.
  exists t. assert (x = (s, l)) as -> by congruence. exact Ht.
Qed.

(** A column that no assignment names keeps its cell; otherwise the last
    assignment to it counts. *)
Lemma applySets_other s r assignments c x :
  row_ok s r → schema_ok s → forallb (λ a, literal_fits s a.1 a.2) assignments = true →
  c ∉ assignments.*1 → value r c = Val x → value (applySets s r assignments) c = Val x.
Proof.
  intros Hr Hs Hf Hna Hv. revert r Hr Hv. induction assignments as [|b assignments IH]; intros r Hr Hv; [done|].
  cbn [forallb] in Hf. apply andb_true_iff in Hf as [Hfb Hf]. rewrite fmap_cons in Hna.
  apply not_elem_of_cons in Hna as [Hne Hna]. pose proof (applySet_fits s r b Hr) as Hb. rewrite Hfb in Hb.
  destruct Hb as [Hset Hr']. change (applySets s r (b :: assignments)) with (applySets s (applySet s r b) assignments).
  apply IH; [done..|]. by rewrite (value_set s r b.1 b.2 _ c Hr Hs Hset), decide_False.
Qed.

Lemma applySets_last s r l1 l2 c v col :
  row_ok s r → schema_ok s → forallb (λ a, literal_fits s a.1 a.2) (l1 ++ (c, v) :: l2) = true →
  c ∉ l2.*1 → findColumn s c = Some col →
  value (applySets s r (l1 ++ (c, v) :: l2)) c = Val (cellOf (type col) v).
Proof.
  intros Hr Hs Hf Hna Hcol. revert r Hr. induction l1 as [|a l1 IH]; intros r Hr;
    cbn [app forallb] in Hf; apply andb_true_iff in Hf as [Hfa Hf].
  - pose proof (applySet_fits s r (c, v) Hr) as Ha. rewrite Hfa in Ha. destruct Ha as [Hset Hr'].
    apply (applySets_other s (applySet s r (c, v))); [done..|].
    rewrite (value_set s r c v _ c Hr Hs Hset), decide_True by done. by rewrite Hcol.
  - pose proof (applySet_fits s r a Hr) as Ha. rewrite Hfa in Ha. destruct Ha as [_ Hr']. by apply (IH Hf (applySet s r a)).
Qed.

(** A row that is stored is what a query for its id selects. *)
Lemma select_by_id (db : DB) D n s l id r :
  db_ok [] db D → D !! n = Some (s, l) → al_lookup id l = Some r →
  at_rows D n (rows_select (mkSelect n [] [mkWhere kIdColumn EQ (to_string id)])) =
    Some (D, row_text s r [] +:+ newline +:+ "(1 row)").
Proof.
  intros Hdb HD Hl. destruct (db_ok_rows db D n s l Hdb HD) as (t & Ht & Hs). subst s.
  destruct (to_id _ _ _ Ht) as (idc & Hidc & Hty).
  assert (Hst : ∀ k r, (k, r) ∈ l → stored (schema_ t) k r) by apply Ht.
  assert (Hid : is_int64 id) by (eapply stored_int64; [by eauto|]; apply Hst; by apply al_lookup_elem).
  unfold at_rows, rows_select. cbn [se_table se_where se_columns]. rewrite HD. cbn [forallb andb].
  assert (where_ok (schema_ t) [mkWhere kIdColumn EQ (to_string id)] = true) as ->.
  { unfold where_ok, clause_ok, literal_fits. cbn [forallb wc_column wc_value]. rewrite Hidc, Hty, andb_true_r. apply isValid_int.
    exists id. by apply from_to_string. }
  rewrite <- (lookup_filter (where_holds [mkWhere kIdColumn EQ (to_string id)]) id l); [|by eapply to_sorted|].
  - rewrite insert_id, Hl by done. unfold select_text. csimpl. unfold rowsSuffix. simpl. rewrite string_append_assoc. done.
  - intros [k x] Hin. unfold where_holds. cbn [forallb fst snd]. rewrite andb_true_r.
    rewrite (id_clause_holds (schema_ t) k x) by (done || by apply Hst). cbn [wc_op wc_value]. unfold parseInt.
    rewrite from_to_string by done. simpl. destruct (Z.compare_spec k id); simpl; split; (done || lia).
Qed.

(** What a query that replied with a result did. *)
Lemma execute_statement (db : DB) D st db1 reply :
  db_ok [] db D → statement_ok st → execute (show_statement st) db = Ret db1 reply →
  match ref_exec D st with
  | Some (D', r) => reply = r ∧ db_ok [] db1 D'
  | None => (∃ w, reply = "ERROR: " +:+ w) ∧ db_ok [] db1 D
  end.
Proof.
  intros Hdb Hok Hrun. destruct (execute_spec db D (show_statement st) Hdb) as (db' & r & Hrun' & Ha & Hdb').
  rewrite Hrun in Hrun'. injection Hrun' as <- <-. unfold answer, ref_next, ref_query in *.
  rewrite (parse_show st Hok) in *. by destruct (ref_exec D st) as [[D' r]|].
Qed.

Lemma ref_insert_inv D n cols vals s l D' :
  D !! n = Some (s, l) → at_rows D n (rows_insert (mkInsert n cols vals)) = Some (D', "OK") →
  ∃ id, let r := applySets s (blank s) (zip cols vals) in
    forallb (λ a, literal_fits s a.1 a.2) (zip cols vals) = true ∧ value r kIdColumn = Val (IntV id) ∧
    al_lookup id l = None ∧ D' = <[n:=(s, al_insert id r l)]> D.
Proof.
  intros HD. unfold at_rows, rows_insert. cbn [in_columns in_values]. rewrite HD.
  set (r := applySets _ _ _). destruct (forallb _ _) eqn:Hf; cbn [andb]; [|done]. destruct (is_full r); [|done].
  destruct (value r kIdColumn) as [[id|]| |] eqn:Hv; try done. case_bool_decide as Hl; [|done]. intros [= <-].
  by exists id.
Qed.

(** ** Theorems *)

(** C3: For all hash functions and every sequence of query texts on a new
    database, well formed or not: each query is answered (the executor never
    throws, never loops, never reads out of range), the reply is the one of the
    reference semantics on plain sorted lists of rows, or an ERROR reply where
    that has none and then nothing has changed; at the end the tables, with their
    trees, caches, name index and reference counts, stand for the reference's
    state, and exactly one table object and one control block is allocated per
    table (nothing leaks). *)
Theorem database_session (queries : list string) :
  ∃ db replies, session queries = Ret db replies ∧ answers ∅ queries replies ∧
    db_ok [] db (foldl ref_next ∅ queries) ∧
    base.size (objects (heap_ db)) = base.size (foldl ref_next ∅ queries) ∧
    base.size (counts (heap_ db)) = base.size (foldl ref_next ∅ queries).
Proof.
  destruct (session_spec queries) as (db & rs & ? & ? & Hdb). exists db, rs.
  destruct (db_ok_objects _ _ Hdb). done.
Qed.

(** C12: What is inserted is what is read: after any session, an INSERT of named
    columns that replies OK makes a row with some id such that a SELECT for that
    id replies with exactly that row, whose cells print as the literals that were
    inserted (numbers in canonical form); where the INSERT names a column more
    than once, the last literal for it counts. *)
Theorem inserted_row_is_selected (queries : list string) (db db1 : DB) (replies : list string)
    (n : string) (cols vals : list string) (s : Schema) (l : list (Z * Row)) :
  session queries = Ret db replies → foldl ref_next ∅ queries !! n = Some (s, l) →
  statement_ok (SInsert (mkInsert n cols vals)) →
  execute (show_statement (SInsert (mkInsert n cols vals))) db = Ret db1 "OK" →
  ∃ id r db2,
    execute (show_statement (SSelect (mkSelect n [] [mkWhere kIdColumn EQ (to_string id)]))) db1 =
      Ret db2 (row_text s r [] +:+ newline +:+ "(1 row)") ∧
    cell_text r kIdColumn = to_string id ∧
    ∀ l1 l2 c v col, zip cols vals = l1 ++ (c, v) :: l2 → c ∉ l2.*1 → findColumn s c = Some col →
      cell_text r c = match type col with TEXT => v | INT => to_string (from_chars v).1.1 end.
Proof.
  intros Hsess HD Hok Hins. destruct (session_spec queries) as (db' & rs & Hs' & _ & Hdb).
  rewrite Hsess in Hs'. injection Hs' as <- <-. set (D := foldl ref_next ∅ queries) in *. clearbody D.
  pose proof (execute_statement db D _ db1 "OK" Hdb Hok Hins) as He. cbn [ref_exec] in He.
  cbn [in_table] in He. destruct (at_rows D n (rows_insert (mkInsert n cols vals))) as [[D' w]|] eqn:Href; [|by destruct He as [[w Hw] _]].
  destruct He as [<- Hdb1]. destruct (ref_insert_inv _ _ _ _ _ _ _ HD Href) as (id & Hf & Hid & Hl & HD').
  destruct (db_ok_rows db D n s l Hdb HD) as (t & Ht & Hts).
  set (r := applySets s (blank s) (zip cols vals)) in *.
  assert (HD1 : D' !! n = Some (s, al_insert id r l)) by (rewrite HD'; by rewrite lookup_insert_eq).
  assert (Hlk : al_lookup id (al_insert id r l) = Some r) by (by rewrite al_lookup_insert, keqb_refl).
  set (sel := SSelect (mkSelect n [] [mkWhere kIdColumn EQ (to_string id)])).
  destruct (execute_spec db1 D' (show_statement sel) Hdb1) as (db2 & reply & Hrun & _ & _).
  assert (Hsel : statement_ok sel) by (split; [apply Hok|by repeat constructor]).
  pose proof (execute_statement db1 D' _ db2 reply Hdb1 Hsel Hrun) as Hr. cbn [sel ref_exec se_table] in Hr.
  rewrite (select_by_id db1 D' n s _ id r Hdb1 HD1 Hlk) in Hr. destruct Hr as [-> _].
  exists id, r, db2. split; [done|]. split; [unfold cell_text; by rewrite Hid|].
  intros l1 l2 c v col Hz Hna Hcol. unfold cell_text. destruct (makeRow_ok s) as (r0 & [= <-] & Hr0).
  unfold r. rewrite Hz in *. rewrite (applySets_last s _ l1 l2 c v col) by (done || (rewrite <- Hts; apply Ht)).
  by destruct (type col).
Qed.

(** C9: On every reachable table, the fast path of a WHERE list is the full scan:
    [fetchRows], which goes through the key index (point lookup or range scan)
    where a condition on the id allows it, returns the same rows in the same
    order as filtering all rows by the conjunction, and fails exactly where
    the conjunction cannot be built. *)
Theorem index_path_equals_scan (s : Schema) (cap : N) (t t' : Table (HashMap Z nat)) (ops : list table_op)
    (outs : list table_out) (ws : WhereList) :
  schema_ok s → makeTable s cap = Val t → table_calls hashZ ops t = Ret t' outs →
  match makeConjunction s ws with
  | Val p => ∃ t'' rows, fetchRows ws t' = Ret t'' rows ∧ selectWhere p t' = Ret t' rows
  | Throw _ => ∃ t'' e, fetchRows ws t' = Exn t'' (QueryError e)
  | Undef => False
  end.
Proof.
  intros Hs Hm Hops. destruct (makeTable_inv hashZ _ _ _ Hs Hm) as [Ht Hst].
  destruct (table_calls_spec hashZ t [] ops Ht) as (t1 & Hrun & Ht' & Hst'). rewrite Hops in Hrun.
  injection Hrun as <- _. set (l := (rows_calls _ _ _).1) in *. clearbody l.
  pose proof (makeConjunction_spec s ws) as Hc. pose proof (fetchRows_spec t' l ws Ht') as Hf.
  assert (schema_ t' = s) as Hsch by congruence. rewrite Hsch in Hf. destruct (where_ok s ws).
  - destruct Hc as (p & -> & Hp). destruct Hf as (t'' & Hf & _). exists t'', (base.filter (λ e, where_holds ws e.2 = true) l).*2.
    split; [done|]. apply (selectWhere_spec p); [done|]. intros [id r] Hin.
    destruct (to_stored _ _ _ Ht' id r Hin) as [Hr Hfull _]. rewrite Hsch in Hr. by apply Hp.
  - destruct Hc as (e & ->). destruct Hf as (t'' & e' & Hf & _). eauto.
Qed.

(** C27: A table dropped while a client holds it stays alive and intact: the name
    is gone from the database, the client's handle still reaches the same table
    with the same rows, and letting the handle go frees it. *)
Theorem dropped_table_lives (queries : list string) (db : DB) (replies : list string)
    (n : string) (s : Schema) (l : list (Z * Row)) :
  session queries = Ret db replies → foldl ref_next ∅ queries !! n = Some (s, l) →
  ∃ db1 sp p t db2 db3,
    getTable n db = Ret db1 sp ∧ ptr_ sp = Some p ∧
    dropTable n db1 = Ret db2 true ∧ getTable n db2 = Ret db2 nullPtr ∧
    objects (heap_ db1) !! p = Some t ∧ objects (heap_ db2) !! p = Some t ∧ table_ok t l ∧ schema_ t = s ∧
    onHeap (release sp) db2 = Ret db3 () ∧ db_ok [] db3 (delete n (foldl ref_next ∅ queries)) ∧
    base.size (objects (heap_ db3)) = base.size (delete n (foldl ref_next ∅ queries)).
Proof.
  intros Hsess HD. destruct (session_spec queries) as (db' & rs & Hs' & _ & Hdb).
  rewrite Hsess in Hs'. injection Hs' as <- <-. set (D := foldl ref_next ∅ queries) in *. clearbody D.
  destruct Hdb as (m & A & Hst & HDv). rewrite HDv, view_lookup in HD. pose proof (getTable_stands [] db m A n Hst) as Hg.
  destruct (m !! n) as [sp|] eqn:Hn; [|done]. destruct Hg as (db1 & Hget & Hst1).
  destruct (handle_table _ _ _ _ sp Hst1) as (p & c & t & x & -> & Hp & Hx & Ht); [apply handles_held; by left|by eapply st_named|].
  simpl in HD. assert (x = (s, l)) as -> by congruence.
  destruct (dropTable_stands _ db1 m A n Hst1) as (db2 & A2 & Hdrop & Hst2 & Hk2 & Hkeep).
  rewrite Hn, bool_decide_eq_true_2 in Hdrop by done.
  pose proof (getTable_stands _ db2 _ _ n Hst2) as Hg2. rewrite lookup_delete_eq in Hg2.
  destruct (release_ok _ _ _ _ _ Hst2) as (db3 & Hrel & Hok). rewrite (view_keeps _ _ _ _ Hk2), view_delete, <- HDv in Hok.
  exists db1, (mkSharedPtr (Some p) (Some c)), p, t, db2, db3. destruct Ht as [Ht Hs]. destruct (db_ok_objects _ _ Hok) as [Hsize _].
  rewrite (Hkeep (mkSharedPtr (Some p) (Some c)) p) by (by left || done). by rewrite Hp.
Qed.

(** [tableNames] lists the tables of the database, each once and in ascending
    order, and [tableCount] is their number. *)
Theorem table_names_sorted (queries : list string) (db : DB) (replies : list string) :
  session queries = Ret db replies →
  ∃ ns, tableNames db = Ret db ns ∧ StronglySorted string_le ns ∧ NoDup ns ∧
    (∀ n, n ∈ ns ↔ is_Some (foldl ref_next ∅ queries !! n)) ∧ tableCount db = Ret db (length ns).
Proof.
  intros Hsess. destruct (session_spec queries) as (db' & rs & Hs' & _ & Hdb).
  rewrite Hsess in Hs'. injection Hs' as <- <-. destruct (tableNames_spec _ _ _ Hdb) as (ns & Hrun & Hp & Hsort).
  exists ns. split; [done|]. split; [done|]. split; [rewrite Hp; apply NoDup_fst_map_to_list|].
  split; [|rewrite (tableCount_spec _ _ _ Hdb), Hp, length_fmap, length_map_to_list; done].
  intros n. rewrite Hp, list_elem_of_fmap. split.
  - intros ([n' x] & -> & Hx%elem_of_map_to_list). by exists x.
  - intros [x Hx]. exists (n, x). split; [done|]. by apply elem_of_map_to_list.
Qed.
End Session.

Definition demo_hash (s : string) : N := N.of_nat (String.length s).
Definition demo_queries : list string :=
  ["CREATE TABLE users (id INT, name TEXT)"; "INSERT INTO users (id, name) VALUES (1, 'Ann')"; "SELECT nonsense"].
Definition after {A} (o : outcome (Database (HashMap Z nat) (HashMap string SharedPtr)) A) :=
  match o with Ret db _ | Exn db _ => db | Stuck => emptyDatabase demo_hash end.
Definition demo_db := after (session Z.to_N demo_hash demo_queries).
Definition replies_of {S A} (o : outcome S A) (d : A) : A := match o with Ret _ a => a | _ => d end.
Definition demo_replies := replies_of (session Z.to_N demo_hash demo_queries) [].
Definition demo_rows : list (Z * Row) := [(1%Z, mkRow (Some users) [Some (IntV 1); Some (TextV "Ann")])].

#[local] Instance demo_indexZ : KeyIndex Z nat (HashMap Z nat) := HashMap_index Z.to_N.
#[local] Instance demo_indexZ_laws : KeyIndexLaws Z nat (HashMap Z nat) := HashMap_index_laws Z.to_N.
#[local] Instance demo_indexS : KeyIndex string SharedPtr (HashMap string SharedPtr) := HashMap_index demo_hash.
#[local] Instance demo_indexS_laws : KeyIndexLaws string SharedPtr (HashMap string SharedPtr) := HashMap_index_laws demo_hash.

Definition demo_insert : Statement := SInsert (mkInsert "users" ["name"; "id"; "name"] ["Ann"; "007"; "O'Brien"]).

Lemma inserted_row_is_selected_witness :
  ∃ id r db2,
    execute (show_statement (SSelect (mkSelect "users" [] [mkWhere kIdColumn EQ (to_string id)])))
      (after (execute (show_statement demo_insert) demo_db)) =
      Ret db2 (row_text users r [] +:+ newline +:+ "(1 row)") ∧
    cell_text r kIdColumn = to_string id ∧
    ∀ l1 l2 c v col, zip ["name"; "id"; "name"] ["Ann"; "007"; "O'Brien"] = l1 ++ (c, v) :: l2 → c ∉ l2.*1 →
      findColumn users c = Some col →
      cell_text r c = match type col with TEXT => v | INT => to_string (from_chars v).1.1 end.
Proof.
  apply (inserted_row_is_selected Z.to_N demo_hash demo_queries demo_db _ demo_replies "users" _ _ users demo_rows);
    [vm_compute; reflexivity|vm_compute; reflexivity|repeat constructor; discriminate|vm_compute; reflexivity].
Defined.

Lemma index_path_equals_scan_witness :
  match makeConjunction users [mkWhere "name" NE "Ann"; mkWhere "id" GT "5"] with
  | Val p => ∃ t'' rows, fetchRows [mkWhere "name" NE "Ann"; mkWhere "id" GT "5"] demo_after = Ret t'' rows ∧
      selectWhere p demo_after = Ret demo_after rows
  | Throw _ => ∃ t'' e, fetchRows [mkWhere "name" NE "Ann"; mkWhere "id" GT "5"] demo_after = Exn t'' (QueryError e)
  | Undef => False
  end.
Proof.
  apply (index_path_equals_scan Z.to_N users 2 (demo_table 2) demo_after demo_ops (rows_calls users [] demo_ops).2);
    [decides|vm_compute; reflexivity..].
Defined.

Lemma dropped_table_lives_witness :
  ∃ db1 sp p t db2 db3,
    getTable "users" demo_db = Ret db1 sp ∧ ptr_ sp = Some p ∧
    dropTable "users" db1 = Ret db2 true ∧ getTable "users" db2 = Ret db2 nullPtr ∧
    objects (heap_ db1) !! p = Some t ∧ objects (heap_ db2) !! p = Some t ∧ table_ok t demo_rows ∧ schema_ t = users ∧
    onHeap (release sp) db2 = Ret db3 () ∧ db_ok [] db3 (delete "users" (foldl ref_next ∅ demo_queries)) ∧
    base.size (objects (heap_ db3)) = base.size (delete "users" (foldl ref_next ∅ demo_queries)).
Proof.
  apply (dropped_table_lives Z.to_N demo_hash demo_queries demo_db demo_replies "users" users demo_rows);
    vm_compute; reflexivity.
Defined.

Lemma table_names_sorted_witness :
  ∃ ns, tableNames demo_db = Ret demo_db ns ∧ StronglySorted string_le ns ∧ NoDup ns ∧
    (∀ n, n ∈ ns ↔ is_Some (foldl ref_next ∅ demo_queries !! n)) ∧ tableCount demo_db = Ret demo_db (length ns).
Proof. apply (table_names_sorted Z.to_N demo_hash demo_queries demo_db demo_replies). vm_compute. reflexivity. Defined.

(** The model answers a session as the program does. *)
Example demo_session :
  replies_of (session Z.to_N demo_hash
    ["CREATE TABLE users (id INT, name TEXT)"; "INSERT INTO users (id, name) VALUES (2, 'Bob')";
     "insert into users (name, id) values ('O''Brien', 1)"; "SELECT name FROM users WHERE id <= 5";
     "UPDATE users SET name = 'Zoe' WHERE name = 'Bob' AND id > 1"; "SELECT * FROM users";
     "INSERT INTO users (id, name) VALUES (2, 'Eve')"; "DELETE FROM users WHERE id = 1"; "DROP TABLE users"]) [] =
  ["OK"; "OK"; "OK"; "name=O'Brien" +:+ newline +:+ "name=Bob" +:+ newline +:+ "(2 rows)"; "OK (1 row updated)";
   "id=1, name=O'Brien" +:+ newline +:+ "id=2, name=Zoe" +:+ newline +:+ "(2 rows)";
   "ERROR: duplicate id 2 in table 'users'"; "OK (1 row deleted)"; "OK"].
Proof. vm_compute. reflexivity. Qed.

