(* ===== verification/System.v ===== *)
(** * The whole service (main.cpp, src/network/tcp_server.cpp, src/query/query_executor.cpp)

    The server and the database together: clients send lines, the event loop
    splits them, tasks take them one by one, call [executor_.execute(query)] and
    write the reply, while the queries of other clients run at the same time.
    A task's call is a call of the concurrent queries; the task goes on when it
    returns.  (A connection has at most one task, so that its query in execution
    is known by the connection; that [execute] returns is seen by no one before
    the reply is written, so that both are one step.)  What every client has been
    answered is recorded. *)

From S2P Require Import Prelude KeyIndex SharedPtr Database QueryExecutor QueryConcurrent TCPServer.

(** A query of a client with its reply; [a_id] is the number of the call. *)
Record answered := mkAnswered { a_id : nat; a_query : string; a_reply : string }.

Section System.
Context {Ix Dx : Type} `{!KeyIndex Z nat Ix} `{!KeyIndex string SharedPtr Dx}.
Abbreviation W := (qworld Ix Dx).

Record system := mkSystem {
  y_server : server;
  y_world : W;
  y_calls : gmap nat nat;                (* by connection: its query in execution *)
  y_log : gmap nat (list answered);      (* by connection: what it was answered *)
}.

(** A server that is constructed over a database. *)
Definition systemOn (w : W) : system := mkSystem newServer w ∅ ∅.
Definition newSystem : system := systemOn newWorld.

Definition logOf (lg : gmap nat (list answered)) (c : nat) : list answered := default [] (lg !! c).

(** The event loop of the server. *)
Inductive yloop : system → system → Prop :=
  | y_loop s s' w cl lg : lstep s s' → yloop (mkSystem s w cl lg) (mkSystem s' w cl lg).

(** The workers.  The label tells whose task it is, and where it starts and ends. *)
Inductive ylabel := YStart (c : nat) | YIn (c : nat) | YEnd (c : nat) | YQuery.

Definition partLabel (c : nat) (a : taskPart) : ylabel :=
  match a with KStart => YStart c | KTake => YIn c | KEnd => YEnd c end.

Inductive ywork : ylabel → system → system → Prop :=
  | y_task c a s s' w cl lg :
      kstep c a s s' → ywork (partLabel c a) (mkSystem s w cl lg) (mkSystem s' w cl lg)
  | y_call c k i q s w w' cl lg :
      conns s !! c = Some k → tasks k !! i = Some (TExec q) → cl !! c = None →
      qstep w w' → w_hist w' = w_hist w ++ [ECall (w_next w) q] →
      ywork (YIn c) (mkSystem s w cl lg) (mkSystem s w' (<[c:=w_next w]> cl) lg)
  | y_query s w w' cl lg :
      qstep w w' → w_hist w' = w_hist w → ywork YQuery (mkSystem s w cl lg) (mkSystem s w' cl lg)
  | y_reply c q written id r s s' w w' cl lg :
      cl !! c = Some id → astep c q written s s' →
      qstep w w' → w_hist w' = w_hist w ++ [EReturn id r] →
      ywork (YIn c) (mkSystem s w cl lg)
        (mkSystem s' w' (delete c cl)
           (if written then <[c:=logOf lg c ++ [mkAnswered id q r]]> lg else lg)).

Definition ystep (y y' : system) : Prop := yloop y y' ∨ ∃ l, ywork l y y'.
End System.

Arguments system : clear implicits.
