(* ===== verification/SystemSpec.v ===== *)
(** * The whole service: invariants

    How the connections, the calls in flight and the history of calls and
    returns belong together. *)

From S2P Require Import Prelude KeyIndex SharedPtr Database QueryExecutor QueryConcurrent QueryLinear QueryLinearSpec QueryProgress.
From S2P Require Import TCPServer TCPServerSpec TCPServerLive System.

(** ** Orders in a linearization *)

(** What is ordered pairwise in a list without duplicates is ordered in it. *)
Lemma sublist_pairs (l x : list nat) :
  NoDup x → (∀ a, a ∈ l → a ∈ x) → StronglySorted (λ a b, [a; b] `sublist_of` x) l → l `sublist_of` x.
Proof.
  revert l. induction x as [|y x IH]; intros l Hnd Hin Hs.
  { destruct l as [|a l]; [done|]. by destruct (not_elem_of_nil a); apply Hin; left. }
  apply NoDup_cons in Hnd as [Hy Hnd].
  assert (Hrest : ∀ l, (∀ a, a ∈ l → a ∈ x) → StronglySorted (λ a b, [a; b] `sublist_of` y :: x) l → l `sublist_of` x).
  { clear l Hin Hs. intros l Hin Hs. apply IH; [done|done|]. induction Hs as [|a l Hs IHs Hall]; constructor.
    - apply IHs. intros b Hb. apply Hin. by right.
    - eapply Forall_impl; [done|]. simpl. intros b Hab. apply sublist_cons_r in Hab as [?|(? & [= <- <-] & _)]; [done|].
      destruct Hy. apply Hin. by left. }
  destruct l as [|a l]; [apply sublist_nil_l|]. inversion Hs as [|? ? Hs' Hall]; subst.
  assert (Hl : ∀ b, b ∈ l → b ∈ x).
  { intros b Hb. rewrite Forall_forall in Hall. specialize (Hall b Hb).
    apply sublist_cons_r in Hall as [Hall|(l' & [= <- <-] & Hall)]; [|by apply sublist_cons_l in Hall as (? & ? & -> & _); set_solver].
    eapply elem_of_submseteq; [|by apply sublist_submseteq]. set_solver. }
  destruct (decide (a = y)) as [->|Hne]; [apply sublist_skip; by apply Hrest|].
  apply sublist_cons, Hrest; [|done]. intros b [->|Hb]%elem_of_cons; [|by apply Hl].
  assert (a ∈ y :: x) as [?|?]%elem_of_cons by (apply Hin; by left); done.
Qed.

(** The same for entries, which their numbers tell apart. *)
Lemma sublist_ids (l lin : list entry) :
  NoDup (ids lin) → ids l `sublist_of` ids lin → (∀ e, e ∈ l → e ∈ lin) → l `sublist_of` lin.
Proof.
  revert l. induction lin as [|x lin IH]; intros l Hnd Hs Hin.
  { destruct l as [|e l]; [done|]. by destruct (not_elem_of_nil e); apply Hin; left. }
  apply NoDup_cons in Hnd as [Hx Hnd]. csimpl in Hs. apply sublist_cons_r in Hs as [Hs|(l' & Heq & Hs)].
  - apply sublist_cons, IH; [done|done|]. intros e He. destruct (elem_of_cons lin e x) as [[->|?] _]; [by apply Hin| |done].
    destruct Hx. eapply elem_of_submseteq; [|by apply sublist_submseteq]. by apply ids_elem.
  - destruct l as [|e l]; [done|]. injection Heq as Hid Heq. assert (e = x) as ->.
    { assert (e ∈ x :: lin) as [?|He%ids_elem]%elem_of_cons by (apply Hin; by left); [done|]. by rewrite Hid in He. }
    apply sublist_skip, IH; [done|by rewrite Heq|]. intros e' He'.
    assert (e' ∈ x :: lin) as [->|?]%elem_of_cons by (apply Hin; by right); [|done]. destruct Hx.
    eapply elem_of_submseteq; [|apply sublist_submseteq, Hs]. rewrite <- Heq. by apply ids_elem.
Qed.

Section Spec.
Context {Ix Dx : Type} `{!KeyIndex Z nat Ix} `{!KeyIndexLaws Z nat Ix}.
Context `{!KeyIndex string SharedPtr Dx} `{!KeyIndexLaws string SharedPtr Dx}.
Abbreviation W := (qworld Ix Dx).
Abbreviation Y := (system Ix Dx).
Implicit Types (s : server) (w : W) (y : Y) (cl : gmap nat nat) (lg : gmap nat (list answered)) (h : list event).

(** ** The two halves *)
Lemma ystep_server y y' : ystep y y' → rtc sstep (y_server y) (y_server y').
Proof.
  intros [[]|[l []]]; simpl; try done; apply rtc_once; [by left|right; left|right; right]; unfold tstep; eauto.
Qed.

Lemma ystep_world y y' : ystep y y' → rtc qstep (y_world y) (y_world y').
Proof. intros [[]|[l []]]; simpl; try done; by apply rtc_once. Qed.

(** The server starts on a database on which no query is under way. *)
Definition idleWorld w : Prop := rtc qstep newWorld w ∧ w_ops w = ∅.
Definition yreach y : Prop := ∃ w, idleWorld w ∧ rtc ystep (systemOn w) y.

Lemma idle_new : idleWorld newWorld.
Proof. by split. Qed.

Lemma yreach_new y : rtc ystep newSystem y → yreach y.
Proof. intros Hr. exists newWorld. split; [apply idle_new|done]. Qed.

Lemma yreach_step y y' : yreach y → ystep y y' → yreach y'.
Proof. intros (w & Hw & Hr) Hs. exists w. split; [done|]. by eapply rtc_r. Qed.

Lemma yreach_ind (P : Y → Prop) :
  (∀ w, idleWorld w → P (systemOn w)) → (∀ y y', yreach y → ystep y y' → P y → P y') → ∀ y, yreach y → P y.
Proof.
  intros H0 Hs y (w & Hw & Hr). revert y Hr. apply rtc_ind_r; [by apply H0|]. intros y y' Hr Hy HP. eapply Hs; [|done|done]. by exists w.
Qed.

Lemma reachable_halves y : yreach y → rtc sstep newServer (y_server y) ∧ rtc qstep newWorld (y_world y).
Proof.
  revert y. apply yreach_ind; [by intros w [? _]|]. intros y y' _ Hs [IH1 IH2].
  split; etrans; eauto using ystep_server, ystep_world.
Qed.

(** ** What other steps leave of a connection *)
Record sframe s s' : Prop := {
  sf_old : ∀ c k, conns s !! c = Some k → ∃ k', conns s' !! c = Some k' ∧ executed k' = executed k ∧
    (current k ≠ [] → current k' = current k);
  sf_new : ∀ c k', conns s' !! c = Some k' → conns s !! c = None → executed k' = [];
}.

Lemma sframe_update m m' cs o o' p p' c k k' :
  cs !! c = Some k → executed k' = executed k → (current k ≠ [] → current k' = current k) →
  sframe (mkServer m cs o p) (mkServer m' (<[c:=k']> cs) o' p').
Proof.
  intros Hk He Hc. split; simpl.
  - intros c1 k1 Hk1. destruct (decide (c1 = c)) as [->|Hne]; [rewrite lookup_insert_eq; naive_solver|].
    rewrite lookup_insert_ne by done. eauto.
  - intros c1 k1 [[<- <-]|[Hne Hk1]]%lookup_insert_Some ?; congruence.
Qed.

Lemma sframe_same m m' cs o o' p p' : sframe (mkServer m cs o p) (mkServer m' cs o' p').
Proof. split; simpl; [eauto|congruence]. Qed.

Lemma lstep_frame s s' : lstep s s' → sframe s s'.
Proof.
  intros Hs. destruct Hs as [f c m cs o Hc Hf|f c k data pc m cs o Hf Hk|c k k' r pc sd ol m cs o Hk Hp
    |c k pc sd ol m cs o Hk|c m cs o|c k m cs o Hk Hm|c k c' m cs o Hk Hm|c k k' b m cs o Hk Hd];
    try apply sframe_same; try (eapply sframe_update; [exact Hk|..]); try done.
  - split; simpl.
    + intros c1 k1 Hk1. rewrite lookup_insert_ne by congruence. eauto.
    + intros c1 k1 [[<- <-]|[Hne Hk1]]%lookup_insert_Some ?; [done|congruence].
  - unfold splitPass in Hp. repeat (case_match; simplify_eq; try done).
  - unfold splitPass in Hp. repeat (case_match; simplify_eq; try done).
  - by destruct sd.
  - destruct sd; [|done]. intros _. unfold current. simpl. by rewrite omap_app, app_nil_r.
  - by injection Hd as <- _.
  - by injection Hd as <- _.
Qed.

(** A task whose query is in execution takes no other step. *)
Lemma tstep_frame s s' : sinv s → tstep s s' → sframe s s'.
Proof.
  intros H Hs. assert (Hidle : ∀ c k i t, conns s !! c = Some k → tasks k !! i = Some t → (∀ q, t ≠ TExec q) → current k = []).
  { intros c k i t Hk Hi Ht. destruct (task_busy _ _ _ _ _ _ (si_conn _ H _ _ Hk) Hi) as (_ & _ & _ & _ & E).
    unfold current. rewrite E. simpl. destruct t; naive_solver. }
  destruct Hs as (c & a & Hs). destruct Hs as [k i m cs o p Hk Hi|k k' i q m cs o p Hk Hi Ht|k k' i b m cs o p Hk Hi Ht
    |k k' i b m cs o p Hk Hi Ht]; (eapply sframe_update; [exact Hk| |by rewrite (Hidle _ _ _ _ Hk Hi)]); try done.
  - unfold taskTake in Ht. by destruct (pending k); simplify_eq.
  - unfold taskTake in Ht. by destruct (pending k); simplify_eq.
  - by injection Ht as <- _.
Qed.

(** An answer changes its connection only. *)
Lemma astep_conn c q b s s' :
  sinv s → astep c q b s s' → ∃ k k', conns s !! c = Some k ∧ current k = [q] ∧ conns s' = <[c:=k']> (conns s) ∧
    executed k' = executed k ++ (if b then [q] else []).
Proof.
  intros H Hs. destruct Hs as [k i m cs o p Hk Hi|k i m cs o p Hk Hi]; simpl;
    destruct (task_busy _ _ _ _ _ _ (si_conn _ H _ _ Hk) Hi) as (_ & _ & _ & -> & E); exists k; eexists;
    (split_and!; [done|unfold current; by rewrite E|done|simpl; by rewrite ?app_nil_r]).
Qed.

(** ** Steps of the queries, by what they record *)
Inductive qkind w w' : Prop :=
  | qk_call q :
      w_hist w' = w_hist w ++ [ECall (w_next w) q] → w_next w' = S (w_next w) →
      (∃ ph, w_ops w' = <[w_next w:=ph]> (w_ops w)) → qkind w w'
  | qk_internal :
      w_hist w' = w_hist w → w_next w' = w_next w → dom (w_ops w') = dom (w_ops w) → qkind w w'
  | qk_return id r :
      w_hist w' = w_hist w ++ [EReturn id r] → w_next w' = w_next w → w_ops w !! id = Some (QDone r) →
      w_ops w' = delete id (w_ops w) → qkind w w'.

Lemma qstep_kind w w' : qstep w w' → qkind w w'.
Proof.
  destruct 1; [eapply qk_call; simpl; eauto|eapply qk_call; simpl; eauto|..|by eapply qk_return];
    apply qk_internal; simpl; try done; apply dom_insert_lookup_L; eauto.
Qed.

Lemma hist_grows h (ev ev' : event) : h ++ [ev] = h ++ [ev'] → ev = ev'.
Proof. by intros [= ->]%(inj (app h)). Qed.

Lemma hist_more h (ev : event) : h ≠ h ++ [ev].
Proof. intros Heq%(f_equal length). rewrite length_app in Heq. simpl in Heq. lia. Qed.

(** ** The invariant *)
Record yinv y : Prop := {
  yi_unique : ∀ id q q', ECall id q ∈ w_hist (y_world y) → ECall id q' ∈ w_hist (y_world y) → q = q';
  yi_fresh : ∀ id q, ECall id q ∈ w_hist (y_world y) → id < w_next (y_world y);
  yi_ops : ∀ id, id ∈ dom (w_ops (y_world y)) ↔ ∃ c, y_calls y !! c = Some id;
  yi_inj : ∀ c c' id, y_calls y !! c = Some id → y_calls y !! c' = Some id → c = c';
  yi_call : ∀ c id, y_calls y !! c = Some id → ∃ k q, conns (y_server y) !! c = Some k ∧ current k = [q] ∧
    ECall id q ∈ w_hist (y_world y) ∧ ∀ e, e ∈ logOf (y_log y) c → returned_before (w_hist (y_world y)) id (a_id e);
  yi_log : ∀ c e, e ∈ logOf (y_log y) c →
    ECall (a_id e) (a_query e) ∈ w_hist (y_world y) ∧ EReturn (a_id e) (a_reply e) ∈ w_hist (y_world y);
  yi_order : ∀ c, StronglySorted (λ e e', returned_before (w_hist (y_world y)) (a_id e') (a_id e)) (logOf (y_log y) c);
  yi_executed : ∀ c k, conns (y_server y) !! c = Some k → a_query <$> logOf (y_log y) c = executed k;
  yi_none : ∀ c, conns (y_server y) !! c = None → logOf (y_log y) c = [];
}.

(** Calls are numbered. *)
Lemma hist_numbered w :
  rtc qstep newWorld w →
  (∀ id q, ECall id q ∈ w_hist w → id < w_next w) ∧ ∀ id q q', ECall id q ∈ w_hist w → ECall id q' ∈ w_hist w → q = q'.
Proof.
  revert w. apply rtc_ind_r; [split; [by intros ? ? ?%elem_of_nil|by intros ? ? ? ?%elem_of_nil]|]. intros w w' _ Hs [Hf Hu].
  destruct (qstep_kind _ _ Hs) as [q0 Hh Hn _|Hh Hn|a r Hh Hn]; rewrite Hh, Hn; [| |].
  - split.
    + intros id q [?%Hf|[= -> _]%list_elem_of_singleton]%elem_of_app; lia.
    + intros id q q' [H1|H1%list_elem_of_singleton]%elem_of_app [H2|H2%list_elem_of_singleton]%elem_of_app; simplify_eq;
        [by eapply Hu|apply Hf in H1; lia|apply Hf in H2; lia|done].
  - done.
  - assert (Hc : ∀ id q, ECall id q ∈ w_hist w ++ [EReturn a r] → ECall id q ∈ w_hist w).
    { by intros id q [?|[=]%list_elem_of_singleton]%elem_of_app. }
    split; [intros id q ?%Hc; by apply (Hf id q)|intros id q q' ?%Hc ?%Hc; by eapply Hu].
Qed.

Lemma yinv_new w : idleWorld w → yinv (systemOn w).
Proof.
  intros [Hr Ho]. destruct (hist_numbered w Hr) as [Hf Hu]. split; simpl; try done.
  - intros id. rewrite Ho, dom_empty_L. split; [by intros ?%elem_of_empty|]. by intros [c Hc].
  - by intros ? ? ?%elem_of_nil.
  - constructor.
Qed.

(** The server moves. *)
Lemma yinv_server s s' w cl lg : sframe s s' → yinv (mkSystem s w cl lg) → yinv (mkSystem s' w cl lg).
Proof.
  intros Hf [H1 H2 H3 H4 H5 H6 H7 H8 H9]. split; simpl in *; try done.
  - intros c id Hc. destruct (H5 c id Hc) as (k & q & Hk & Hq & ? & ?). destruct (sf_old _ _ Hf _ _ Hk) as (k' & Hk' & _ & Hcur).
    exists k', q. split_and!; try done. rewrite Hcur; [done|]. by rewrite Hq.
  - intros c k' Hk'. destruct (conns s !! c) as [k|] eqn:Hk.
    + destruct (sf_old _ _ Hf _ _ Hk) as (k1 & Hk1 & He & _). rewrite (H8 _ _ Hk). congruence.
    + rewrite (H9 _ Hk). by rewrite (sf_new _ _ Hf _ _ Hk' Hk).
  - intros c Hc. destruct (conns s !! c) as [k|] eqn:Hk; [|by apply H9].
    destruct (sf_old _ _ Hf _ _ Hk) as (k1 & Hk1 & _). congruence.
Qed.

Lemma returned_before_app h ev b a : returned_before h b a → returned_before (h ++ [ev]) b a.
Proof.
  intros (h1 & h2 & q & r & -> & Hin). exists h1, (h2 ++ [ev]), q, r. split; [|done]. by rewrite <- (assoc_L (++)).
Qed.

Lemma returned_before_call h b q a r : EReturn a r ∈ h → returned_before (h ++ [ECall b q]) b a.
Proof. intros Hin. by exists h, [], q, r. Qed.

(** The history grows. *)
Lemma order_app h ev (l : list answered) :
  StronglySorted (λ e e', returned_before h (a_id e') (a_id e)) l →
  StronglySorted (λ e e', returned_before (h ++ [ev]) (a_id e') (a_id e)) l.
Proof.
  induction 1 as [|e l Hs IH Hall]; constructor; [done|]. eapply Forall_impl; [done|]. intros e'. apply returned_before_app.
Qed.

Lemma elem_snoc_l (h : list event) ev ev' : ev ∈ h → ev ∈ h ++ [ev'].
Proof. intros. apply elem_of_app. by left. Qed.

Lemma yinv_call c k i q s w w' cl lg :
  sinv s → conns s !! c = Some k → tasks k !! i = Some (TExec q) → cl !! c = None →
  qstep w w' → w_hist w' = w_hist w ++ [ECall (w_next w) q] →
  yinv (mkSystem s w cl lg) → yinv (mkSystem s w' (<[c:=w_next w]> cl) lg).
Proof.
  intros Hinv Hk Hi Hc Hq Hh [H1 H2 H3 H4 H5 H6 H7 H8 H9]. simpl in *.
  destruct (qstep_kind _ _ Hq) as [q' Hh' Hn [ph Hops]|Hh'|id r Hh'];
    [|rewrite Hh in Hh'; symmetry in Hh'; by apply hist_more in Hh'|rewrite Hh in Hh'; by apply hist_grows in Hh'].
  assert (Hnew : ∀ q', ECall (w_next w) q' ∉ w_hist w) by (intros q1 Hin%H2; lia).
  assert (Hcl : ∀ c', cl !! c' ≠ Some (w_next w)).
  { intros c' Hc'. destruct (H5 _ _ Hc') as (? & q1 & _ & _ & Hin & _). by destruct (Hnew q1). }
  split; simpl; rewrite ?Hh, ?Hn; try done.
  - intros id q1 q2 [Hin1|[= -> ->]]%elem_snoc [Hin2|E]%elem_snoc; [by eapply H1|injection E as -> ->|..].
    + by destruct (Hnew q1).
    + by destruct (Hnew q2).
    + by injection E as ->.
  - intros id q1 [Hin%H2|[= -> ->]]%elem_snoc; lia.
  - intros id. rewrite Hops, dom_insert_L, elem_of_union, elem_of_singleton, H3. split.
    + intros [->|[c' Hc']]; [exists c; by rewrite lookup_insert_eq|]. exists c'. by rewrite lookup_insert_ne by congruence.
    + intros [c' [[_ ->]|[_ Hc']]%lookup_insert_Some]; eauto.
  - intros c1 c2 id [[<- <-]|[? Hc1]]%lookup_insert_Some [[<- E]|[? Hc2]]%lookup_insert_Some; try done.
    + by destruct (Hcl c2).
    + subst. by destruct (Hcl c1).
    + by eapply H4.
  - intros c' id [[<- <-]|[Hne Hc']]%lookup_insert_Some.
    + exists k, q. destruct (task_busy _ _ _ _ _ _ (si_conn _ Hinv _ _ Hk) Hi) as (_ & _ & _ & _ & E).
      split_and!; [done|unfold current; by rewrite E|apply elem_of_app; right; by left|].
      intros e [_ He]%H6. by eapply returned_before_call.
    + destruct (H5 _ _ Hc') as (k' & q1 & ? & ? & ? & Hr). exists k', q1. split_and!; eauto using elem_snoc_l, returned_before_app.
  - intros c' e [? ?]%H6. eauto using elem_snoc_l.
  - intros c'. by apply order_app.
Qed.

Lemma yinv_query s w w' cl lg :
  qstep w w' → w_hist w' = w_hist w → yinv (mkSystem s w cl lg) → yinv (mkSystem s w' cl lg).
Proof.
  intros Hq Hh H. destruct (qstep_kind _ _ Hq) as [q' Hh'|_ Hn Hd|id r Hh'];
    [rewrite Hh in Hh'; by apply hist_more in Hh'| |rewrite Hh in Hh'; by apply hist_more in Hh'].
  destruct H as [H1 H2 H3 H4 H5 H6 H7 H8 H9]. split; simpl in *; rewrite ?Hh, ?Hn, ?Hd; done.
Qed.
Lemma logOf_insert lg c l c' : logOf (<[c:=l]> lg) c' = if decide (c = c') then l else logOf lg c'.
Proof. unfold logOf. case_decide as Hc; [subst; by rewrite lookup_insert_eq|by rewrite lookup_insert_ne]. Qed.

(** What a client is answered when its query [id] returns. *)
Definition answer_log (b : bool) lg c e : gmap nat (list answered) := if b then <[c:=logOf lg c ++ [e]]> lg else lg.

Lemma answer_log_of b lg c e c' :
  logOf (answer_log b lg c e) c' = logOf lg c' ++ (if decide (c = c') then if b then [e] else [] else []).
Proof.
  unfold answer_log. destruct b; [rewrite logOf_insert|]; case_decide; subst; by rewrite ?app_nil_r.
Qed.

Lemma yinv_reply c q b id r s s' w w' cl lg :
  sinv s → cl !! c = Some id → astep c q b s s' → qstep w w' → w_hist w' = w_hist w ++ [EReturn id r] →
  yinv (mkSystem s w cl lg) → yinv (mkSystem s' w' (delete c cl) (answer_log b lg c (mkAnswered id q r))).
Proof.
  intros Hinv Hc Ha Hq Hh [H1 H2 H3 H4 H5 H6 H7 H8 H9]. simpl in *.
  destruct (qstep_kind _ _ Hq) as [q' Hh'|Hh'|id' r' Hh' Hn Hid Hops];
    [rewrite Hh in Hh'; by apply hist_grows in Hh'|rewrite Hh in Hh'; symmetry in Hh'; by apply hist_more in Hh'|].
  assert (id' = id ∧ r' = r) as [-> ->] by (rewrite Hh in Hh'; by apply hist_grows in Hh' as [= -> ->]).
  destruct (astep_conn _ _ _ _ _ Hinv Ha) as (k & k' & Hk & Hcur & Hs' & Hex).
  destruct (H5 c id Hc) as (k0 & q0 & Hk0 & Hcur0 & Hcall & Hlog).
  assert (k0 = k) as -> by congruence. assert (q0 = q) as -> by congruence.
  split; simpl; rewrite ?Hh, ?Hn; try done.
  - intros a q1 q2 [Hin1|?]%elem_snoc [Hin2|?]%elem_snoc; [by eapply H1|done..].
  - by intros a q1 [Hin%H2|?]%elem_snoc.
  - intros a. rewrite Hops, dom_delete_L, elem_of_difference, elem_of_singleton, H3. split.
    + intros [[c' Hc'] Hne]. exists c'. rewrite lookup_delete_ne; [done|]. intros <-. congruence.
    + intros [c' [Hne Hc']%lookup_delete_Some]. split; [by eauto|]. intros ->. by destruct (Hne (H4 _ _ _ Hc Hc')).
  - intros c1 c2 a [? Hc1]%lookup_delete_Some [? Hc2]%lookup_delete_Some. by eapply H4.
  - intros c' a [Hne Hc']%lookup_delete_Some. destruct (H5 _ _ Hc') as (k1 & q1 & ? & ? & ? & Hr). exists k1, q1.
    rewrite Hs', lookup_insert_ne by done. split_and!; eauto using elem_snoc_l. rewrite answer_log_of, decide_False, app_nil_r by done.
    eauto using returned_before_app.
  - intros c' e. rewrite answer_log_of. intros [[? ?]%H6|He]%elem_of_app; [by eauto using elem_snoc_l|].
    case_decide; [|by apply elem_of_nil in He]. destruct b; [|by apply elem_of_nil in He].
    apply list_elem_of_singleton in He as ->. simpl. split; [by apply elem_snoc_l|]. apply elem_of_app. right. by left.
  - intros c'. rewrite answer_log_of. apply StronglySorted_app_2; [| |by apply order_app; destruct (decide _); [destruct b|]; repeat constructor].
    + intros e e' He He'. case_decide; [|by apply elem_of_nil in He']. destruct b; [|by apply elem_of_nil in He'].
      apply list_elem_of_singleton in He' as ->. subst. by apply returned_before_app, Hlog.
    + by apply order_app.
  - intros c' k1. rewrite Hs', answer_log_of, fmap_app. intros [[<- <-]|[Hne Hk1]]%lookup_insert_Some.
    + rewrite decide_True, (H8 _ _ Hk), Hex by done. by destruct b.
    + rewrite decide_False, app_nil_r by done. by apply H8.
  - intros c'. rewrite Hs', answer_log_of, lookup_insert_None. intros [? ?]. rewrite decide_False, app_nil_r by done. by apply H9.
Qed.

Lemma yinv_reachable y : yreach y → yinv y.
Proof.
  revert y. apply yreach_ind; [apply yinv_new|]. intros y y' Hr Hs IH.
  apply reachable_halves in Hr as [Hsv%sinv_reachable _].
  destruct Hs as [Hs|[l Hs]]; destruct Hs; simpl in *; [eapply yinv_server; [by apply lstep_frame|done]|
    eapply yinv_server; [eapply tstep_frame; [done|by eexists _, _]|done]|
    by eapply yinv_call|by eapply yinv_query|by eapply (yinv_reply _ _ written)].
Qed.

(** ** What clients see *)

(** An answer is the entry of its query in every linearization. *)
Definition asEntry (e : answered) : entry := mkEntry (a_id e) (a_query e) (a_reply e).

Lemma answered_entry y lin c e :
  yinv y → linearizes (w_hist (y_world y)) lin → e ∈ logOf (y_log y) c → asEntry e ∈ lin.
Proof.
  intros H Hl He. destruct (yi_log _ H _ _ He) as [Hc Hr]. destruct (lz_returns _ _ Hl _ _ Hr) as [q Hq].
  pose proof (lz_calls _ _ Hl _ Hq) as Hc'. simpl in Hc'. unfold asEntry. by rewrite (yi_unique _ H _ _ _ Hc Hc').
Qed.

Lemma answered_order y lin c :
  yinv y → linearizes (w_hist (y_world y)) lin → asEntry <$> logOf (y_log y) c `sublist_of` lin.
Proof.
  intros H Hl. pose proof (λ e, answered_entry _ _ c e H Hl) as Hin.
  assert (Hids : ids (asEntry <$> logOf (y_log y) c) `sublist_of` ids lin).
  { apply sublist_pairs; [apply Hl| |].
    - unfold ids. rewrite <- list_fmap_compose. intros a (e & -> & He)%list_elem_of_fmap. simpl. by apply Hin, ids_elem in He.
    - pose proof (yi_order _ H c) as Ho. revert Hin. induction Ho as [|e l Hs IH Hall]; intros Hin; csimpl; constructor.
      + apply IH. intros e' He'. apply Hin. by right.
      + apply Forall_forall. unfold ids. rewrite <- list_fmap_compose. intros a (e' & -> & He')%list_elem_of_fmap. simpl.
        apply (lz_time _ _ Hl); [|by apply (proj1 (Forall_forall _ _) Hall)]. assert (asEntry e' ∈ lin) as Hx%ids_elem by (apply Hin; by right). done. }
  eapply sublist_ids; [apply Hl|done|]. intros e (a & -> & Ha)%list_elem_of_fmap. by apply Hin.
Qed.
End Spec.
