(* ===== verification/SystemLive.v ===== *)
(** * The whole service: coming to rest

    Every step that is not caused from outside decreases [yeffort]; a service
    that can take no such step has answered everything. *)

From S2P Require Import Prelude KeyIndex SharedPtr Database Lexer Ast Parser ParserSpec QueryExecutor QueryConcurrent QueryLinear QueryLinearSpec QueryProgress.
From S2P Require Import TCPServer TCPServerSpec TCPServerLive System SystemSpec.

Section Live.
Context {Ix Dx : Type} `{!KeyIndex Z nat Ix} `{!KeyIndexLaws Z nat Ix}.
Context `{!KeyIndex string SharedPtr Dx} `{!KeyIndexLaws string SharedPtr Dx}.
Abbreviation W := (qworld Ix Dx).
Abbreviation Y := (system Ix Dx).

(** A step that needs nothing from outside. *)
Definition yistep (y y' : Y) : Prop := (∃ l, ywork l y y') ∨ (yloop y y' ∧ phase (y_server y) ≠ LIdle).

Definition queryWork (ops : gmap nat qphase) : nat := map_fold (λ _ ph n, stepsLeft (Some ph) + n) 0 ops.

Definition yeffort (y : Y) : nat :=
  6 * effort (y_server y) + queryWork (w_ops (y_world y)) +
  5 * (base.size (conns (y_server y)) - base.size (y_calls y)).

Lemma queryWork_take ops id ph : ops !! id = Some ph → queryWork ops = stepsLeft (Some ph) + queryWork (delete id ops).
Proof. intros Hid. unfold queryWork. apply (map_fold_delete_L (λ _ ph n, stepsLeft (Some ph) + n)); [intros; lia|done]. Qed.

Lemma queryWork_set ops id ph : queryWork (<[id:=ph]> ops) = stepsLeft (Some ph) + queryWork (delete id ops).
Proof. rewrite (queryWork_take _ id ph) by by rewrite lookup_insert_eq. by rewrite delete_insert_eq. Qed.

Lemma stepsLeft_bound ph : stepsLeft ph ≤ 4.
Proof. destruct ph as [[]|]; simpl; lia. Qed.

Lemma query_effort (w w' : W) : qstep w w' → w_hist w' = w_hist w → queryWork (w_ops w') < queryWork (w_ops w).
Proof.
  destruct 1 as [| |id q s db db' r ops i h Hid|id q s n db db' sp ops i h Hid|id q s n db db' e ops i h Hid
    |id q s sp db db' r ops i h Hid|id sp r db db' ops i h Hid|]; simpl; intros Hh;
    try (symmetry in Hh; by apply hist_more in Hh); rewrite queryWork_set, (queryWork_take _ _ _ Hid); simpl; lia.
Qed.

(** The connections with a query in execution are connections. *)
Lemma calls_size (y : Y) : yinv y → base.size (y_calls y) ≤ base.size (conns (y_server y)).
Proof.
  intros H. rewrite <- !size_dom. apply subseteq_size. intros c. rewrite !elem_of_dom. intros [id Hid].
  destruct (yi_call _ H _ _ Hid) as (k & q & Hk & _). eauto.
Qed.
Lemma size_set {A} (cs : gmap nat A) c k k' : cs !! c = Some k → base.size (<[c:=k']> cs) = base.size cs.
Proof. intros Hk. by rewrite map_size_insert, Hk. Qed.

Lemma istep_size s s' : istep s s' → base.size (conns s') = base.size (conns s).
Proof.
  intros [(c & k & k' & Hk & -> & _)%wstep_conn|[Hs Hp]]; [by eapply size_set|].
  destruct Hs; simpl in *; try done; by eapply size_set.
Qed.

Lemma yistep_effort (y y' : Y) : yinv y → yistep y y' → yeffort y' < yeffort y.
Proof.
  intros H [[lb Hs]|[Hs Hp]]; pose proof (calls_size _ H) as Hsz; unfold yeffort.
  - destruct Hs as [c a s s' w cl lg Ht|c k i q s w w' cl lg Hk Hi Hc Hq Hh|s w w' cl lg Hq Hh
      |c q b id r s s' w w' cl lg Hc Ha Hq Hh]; simpl in *.
    + assert (Hi : istep s s') by (left; left; by exists c, a). rewrite (istep_size _ _ Hi). apply istep_effort in Hi. lia.
    + assert (base.size (<[c:=w_next w]> cl) ≤ base.size (conns s)) as Hle.
      { rewrite <- !size_dom. apply subseteq_size. intros c'. rewrite dom_insert_L, !elem_of_union, elem_of_singleton, !elem_of_dom.
        intros [->|[id Hid]]; [eauto|]. destruct (yi_call _ H _ _ Hid) as (k' & q' & Hk' & _). eauto. }
      rewrite map_size_insert, Hc in Hle. rewrite map_size_insert, Hc. destruct (qstep_kind _ _ Hq) as [q' _ _ [ph Hops]|Hh'|id r Hh'];
        [|rewrite Hh in Hh'; symmetry in Hh'; by apply hist_more in Hh'|rewrite Hh in Hh'; by apply hist_grows in Hh'].
      rewrite Hops, queryWork_set, delete_id; [pose proof (stepsLeft_bound (Some ph)); simpl in *; lia|].
      apply not_elem_of_dom. rewrite (yi_ops _ H). intros [c' Hc']. destruct (yi_call _ H _ _ Hc') as (? & ? & _ & _ & Hin%(yi_fresh _ H) & _).
      simpl in Hin. lia.
    + pose proof (query_effort _ _ Hq Hh). lia.
    + assert (Hi : istep s s') by (left; right; eauto). rewrite (istep_size _ _ Hi). apply istep_effort in Hi.
      rewrite map_size_delete, Hc. destruct (qstep_kind _ _ Hq) as [q' Hh'|Hh'|id' r' Hh' _ Hid Hops];
        [rewrite Hh in Hh'; by apply hist_grows in Hh'|rewrite Hh in Hh'; symmetry in Hh'; by apply hist_more in Hh'|].
      rewrite Hops, (queryWork_take _ _ _ Hid). simpl.
      assert (base.size cl ≠ 0) by (rewrite map_size_ne_0_lookup; eauto). lia.
  - destruct Hs as [s s' w cl lg Hl]. simpl in *. assert (Hi : istep s s') by (by right).
    rewrite (istep_size _ _ Hi). apply istep_effort in Hi. lia.
Qed.

(** ** At rest *)
Lemma exec_moves (y : Y) c k i q :
  yreach y → conns (y_server y) !! c = Some k → tasks k !! i = Some (TExec q) →
  ∃ y', ywork (YIn c) y y' ∨ ywork YQuery y y'.
Proof.
  intros Hr Hk Hi. pose proof (yinv_reachable _ Hr) as H. destruct (reachable_halves _ Hr) as [Hs Hw].
  destruct y as [s w cl lg]. simpl in *. destruct (cl !! c) as [id|] eqn:Hc.
  - assert (id ∈ dom (w_ops w)) as [ph Hph]%elem_of_dom by (apply (yi_ops _ H); eauto).
    destruct (query_moves _ _ _ Hw Hph) as [[r ->]|(w' & (Hq & _) & Hh)]; [|eexists; right; by eapply y_query].
    destruct w as [db ops n h], s as [m cs o p]. simpl in *. eexists. left.
    eapply (y_reply c q true id r); [done|by eapply s_reply|by apply q_return|done].
  - destruct w as [db ops n h]. pose proof (parseQuery_spec q) as Hq. destruct (parseQuery q) as [st|e|] eqn:E; [| |done].
    + eexists. left. eapply y_call; [done|done|done|by apply q_call|done].
    + eexists. left. eapply y_call; [done|done|done|by apply q_call_bad|done].
Qed.

(** Without a task there is no query in flight. *)
Lemma drained_calls (y : Y) : yinv y → drained (y_server y) → y_calls y = ∅ ∧ w_ops (y_world y) = ∅.
Proof.
  intros H [_ Hd].
  assert (Hc : y_calls y = ∅).
  { apply map_eq. intros c. rewrite lookup_empty. destruct (y_calls y !! c) as [id|] eqn:E; [|done].
    destruct (yi_call _ H _ _ E) as (k & q & Hk & Hcur & _). specialize (Hd c k Hk). simpl in Hd.
    unfold current in Hcur. by rewrite Hd in Hcur. }
  split; [done|]. apply map_eq. intros id. rewrite lookup_empty. apply not_elem_of_dom. rewrite (yi_ops _ H), Hc.
  by intros [c Hx].
Qed.
End Live.
