(* ===== verification/SystemMain.v ===== *)
(** * The whole service: main theorems

    From the bytes that clients send to the replies that they get, over every
    interleaving of the event loop, the tasks and the queries. *)

From S2P Require Import Prelude HashMap KeyIndex HashMapSpec SharedPtr Database DatabaseSpec QueryExecutor QueryConcurrent QueryRef QueryLinear QueryLinearSpec QueryProgress.
From S2P Require Import TCPServer TCPServerSpec System SystemSpec.

Section Main.
Context (hashZ : Z → N) (hashS : string → N).
#[local] Instance sysZ : KeyIndex Z nat (HashMap Z nat) := HashMap_index hashZ.
#[local] Instance sysZ_laws : KeyIndexLaws Z nat (HashMap Z nat) := HashMap_index_laws hashZ.
#[local] Instance sysS : KeyIndex string SharedPtr (HashMap string SharedPtr) := HashMap_index hashS.
#[local] Instance sysS_laws : KeyIndexLaws string SharedPtr (HashMap string SharedPtr) := HashMap_index_laws hashS.
Abbreviation Y := (system (HashMap Z nat) (HashMap string SharedPtr)).

(** C1: Every client gets the right answers.  However the bytes of any number of
    clients arrive, and however the event loop, the tasks and the queries
    interleave: there is one order of all queries, each once, in which running
    them one after the other on plain sorted lists gives every reply that was
    written.  Every client's queries are in that order as it sent them, and are
    the queries that its bytes spell, from the first on and without a gap unless
    a reply could not be written. *)
Theorem clients_see_one_order (y : Y) :
  rtc ystep newSystem y →
  ∃ lin, linearizes (w_hist (y_world y)) lin ∧
    ∀ c k, conns (y_server y) !! c = Some k →
      asEntry <$> logOf (y_log y) c `sublist_of` lin ∧
      a_query <$> logOf (y_log y) c `sublist_of` queries_of (received k) ∧
      (unwritten k = false → a_query <$> logOf (y_log y) c `prefix_of` queries_of (received k)).
Proof.
  intros Hr%yreach_new. pose proof (yinv_reachable _ Hr) as H. destruct (reachable_halves _ Hr) as [Hs%sinv_reachable Hw].
  destruct (world_linearizes _ Hw) as (lin & Hl & _). exists lin. split; [done|]. intros c k Hk.
  split; [by apply answered_order|]. rewrite (yi_executed _ H _ _ Hk).
  pose proof (ci_data _ _ _ _ (si_conn _ Hs _ _ Hk)) as Hd. destruct (cd_prefix _ Hd) as [more Hm]. rewrite Hm. split.
  - etrans; [|by apply sublist_inserts_r, (cd_order _ Hd)]. by apply sublist_inserts_r.
  - intros Hu. destruct (cd_exact _ Hd Hu) as [<- _]. rewrite <- (assoc_L (++)). by apply prefix_app_r.
Qed.
End Main.

(** ** Witnesses *)
Definition length_hash (s : string) : N := N.of_nat (String.length s).
#[local] Instance lengthZ : KeyIndex Z nat (HashMap Z nat) := HashMap_index Z.to_N.
#[local] Instance lengthZ_laws : KeyIndexLaws Z nat (HashMap Z nat) := HashMap_index_laws Z.to_N.
#[local] Instance lengthS : KeyIndex string SharedPtr (HashMap string SharedPtr) := HashMap_index length_hash.
#[local] Instance lengthS_laws : KeyIndexLaws string SharedPtr (HashMap string SharedPtr) := HashMap_index_laws length_hash.

Ltac ynext t :=
  eapply rtc_l; [t; try vm_each|];
  match goal with |- rtc ?R ?a ?b => let a' := eval vm_compute in a in change (rtc R a' b) end.
Ltac lnext t := ynext ltac:(left; apply y_loop; t).
Ltac tnext t := ynext ltac:(right; eexists; apply y_task; t).
Ltac cnext c q := ynext ltac:(right; eexists; eapply (y_call c _ 0 q); [| | |apply (q_call q)|]).
Ltac wnext t := ynext ltac:(right; eexists; eapply y_query; [t|]).
Ltac rnext c id := ynext ltac:(right; eexists; eapply (y_reply c _ true); [|eapply (s_reply _ _ _ 0)|eapply (q_return id)|]).

Definition lines (ls : list string) : string := foldr (λ l s, l +:+ String newlineChar s) "" ls.
Definition createT : string := "CREATE TABLE t (id INT)".
Definition insertT : string := "INSERT INTO t (id) VALUES (7)".
Definition dropT : string := "DROP TABLE t".

(** Two clients: one creates a table and inserts into it, the other drops the
    table while the INSERT holds it. *)
Lemma demo_service :
  ∃ (y : system (HashMap Z nat) (HashMap string SharedPtr)) k,
    rtc ystep newSystem y ∧ conns (y_server y) !! 0 = Some k ∧ unwritten k = false ∧
    logOf (y_log y) 0 = [mkAnswered 0 createT "OK"; mkAnswered 1 insertT "OK"] ∧
    logOf (y_log y) 1 = [mkAnswered 2 dropT "OK"].
Proof.
  eexists _, _. split.
  { lnext ltac:(apply (s_accept 7 0)). lnext ltac:(apply (s_accept 8 1)).
    lnext ltac:(eapply (s_read 7 0 _ (lines [createT; insertT]) false)).
    do 3 lnext ltac:(eapply s_pass). lnext ltac:(eapply s_after). lnext ltac:(apply s_keep).
    tnext ltac:(eapply (s_start 0 _ 0)). tnext ltac:(eapply (s_take 0 _ _ 0)).
    cnext 0 createT. wnext ltac:(eapply (q_whole 0)). rnext 0 0. tnext ltac:(eapply (s_take 0 _ _ 0)).
    cnext 0 insertT. wnext ltac:(eapply (q_get 1)).
    lnext ltac:(eapply (s_read 8 1 _ (lines [dropT]) false)).
    do 2 lnext ltac:(eapply s_pass). lnext ltac:(eapply s_after). lnext ltac:(apply s_keep).
    tnext ltac:(eapply (s_start 1 _ 0)). tnext ltac:(eapply (s_take 1 _ _ 0)).
    cnext 1 dropT. wnext ltac:(eapply (q_whole 2)). rnext 1 2.
    wnext ltac:(eapply (q_body 1)). wnext ltac:(eapply (q_leave 1)). rnext 0 1. apply rtc_refl. }
  by vm_compute.
Qed.

Lemma clients_see_one_order_witness :
  ∃ (y : system (HashMap Z nat) (HashMap string SharedPtr)) lin,
    linearizes (w_hist (y_world y)) lin ∧ [mkEntry 0 createT "OK"; mkEntry 1 insertT "OK"] `sublist_of` lin.
Proof.
  destruct demo_service as (y & k & Hr & Hk & Hu & H0 & H1).
  destruct (clients_see_one_order Z.to_N length_hash y Hr) as (lin & Hl & Hc). exists y, lin. split; [done|].
  specialize (Hc 0 k Hk) as [Hs _]. by rewrite H0 in Hs.
Defined.
