(* ===== verification/Service.v ===== *)
(** * The service on its thread pool (src/network/tcp_server.cpp with src/concurrency/thread_pool.cpp)

    A connection's task is a task of the pool: [handleReadable] submits it, a
    worker takes it from the queue and comes back from it.  So the service is
    the server and its queries (System) and the pool (ThreadPool) side by side,
    where these steps are steps of both.  The destructor of the server runs on
    the thread of the loop after [run] has returned: it shuts the pool down and
    then closes what is open. *)

From S2P Require Import Prelude KeyIndex SharedPtr ThreadPool TCPServer QueryExecutor QueryConcurrent QueryLinear System.

Section Service.
Context {Ix Dx : Type} `{!KeyIndex Z nat Ix} `{!KeyIndex string SharedPtr Dx}.

Record service := mkService {
  z_system : system Ix Dx;
  z_pool : psys nat;      (* its tasks: the connections they are for *)
  z_closed : bool;        (* the destructor has returned *)
}.

Definition serviceOn (w : qworld Ix Dx) (threadCount : nat) : service := mkService (systemOn w) (newPsys threadCount) false.
Definition newService (threadCount : nat) : service := serviceOn newWorld threadCount.

(** [if (shouldDispatch) pool_->submit(...)]: whose task the next step of the loop submits. *)
Definition submits (p : lphase) : option nat := if p is LAfter c _ true _ then Some c else None.

(** What the pool does between tasks: notifications, waits, exits and the shutdown. *)
Definition betweenTasks (p p' : psys nat) : Prop :=
  submitted p' = submitted p ∧ started p' = started p ∧ finished p' = finished p.

(** A worker's wait ends without a notification. *)
Definition spurious (p p' : psys nat) : Prop :=
  ∃ i, workers p !! i = Some WAsleep ∧
    p' = mkPsys (shared p) (<[i:=WCheck]> (workers p)) (notifies p) (dtor p) (submitted p) (started p) (finished p).

(** The destructor of the pool begins. *)
Definition stops (p p' : psys nat) : Prop := dtor p = DIdle ∧ dtor p' ≠ DIdle.

(** [~TCPServer], behind the [pool_.reset()]. *)
Definition closeAfter (y : system Ix Dx) : system Ix Dx :=
  mkSystem (destroyServer (y_server y)) (y_world y) (y_calls y) (y_log y).

(** What comes from outside: clients connect and send, a wait ends by itself, and
    the server is destroyed after [run] has returned. *)
Inductive zenv : service → service → Prop :=
  | z_client y y' p :
      yloop y y' → dtor p = DIdle → phase (y_server y) = LIdle →
      zenv (mkService y p false) (mkService y' p false)
  | z_spurious y p p' :
      pstep p p' → spurious p p' → zenv (mkService y p false) (mkService y p' false)
  | z_destroy y p p' :
      pstep p p' → stops p p' → phase (y_server y) = LIdle →
      zenv (mkService y p false) (mkService y p' false).

(** What the threads of the service do. *)
Inductive zrun : service → service → Prop :=
  | z_loop y y' p :
      yloop y y' → dtor p = DIdle → phase (y_server y) ≠ LIdle → submits (phase (y_server y)) = None →
      zrun (mkService y p false) (mkService y' p false)
  | z_submit c y y' p p' :
      yloop y y' → dtor p = DIdle → submits (phase (y_server y)) = Some c →
      pstep p p' → submitted p' = submitted p ++ [c] →
      zrun (mkService y p false) (mkService y' p' false)
  | z_start c y y' p p' :
      ywork (YStart c) y y' → pstep p p' → started p' = started p ++ [c] →
      zrun (mkService y p false) (mkService y' p' false)
  | z_in c y y' p :
      ywork (YIn c) y y' → c ∈ running (workers p) →
      zrun (mkService y p false) (mkService y' p false)
  | z_query y y' p :
      ywork YQuery y y' → zrun (mkService y p false) (mkService y' p false)
  | z_end c y y' p p' :
      ywork (YEnd c) y y' → pstep p p' → finished p' = finished p ++ [c] →
      zrun (mkService y p false) (mkService y' p' false)
  | z_between y p p' :
      pstep p p' → betweenTasks p p' → ¬ spurious p p' → ¬ stops p p' →
      zrun (mkService y p false) (mkService y p' false)
  | z_close y p :
      dtor p = DDone → zrun (mkService y p false) (mkService (closeAfter y) p true).

Definition zstep (z z' : service) : Prop := zenv z z' ∨ zrun z z'.
End Service.

Arguments service : clear implicits.
