(* ===== verification/ServiceSpec.v ===== *)
(** * The service on its thread pool: invariant

    The queue of the pool holds the connections whose task waits, and the workers
    run the connections whose task has begun. *)

From S2P Require Import Prelude KeyIndex SharedPtr ThreadPool ThreadPoolMain TCPServer TCPServerSpec TCPServerLive.
From S2P Require Import QueryExecutor QueryConcurrent QueryLinear QueryLinearSpec QueryProgress System SystemSpec SystemLive Service.

(** ** What a step of the pool does with the tasks *)
Inductive pkind (p p' : psys nat) : Prop :=
  | pk_submit t : submitted p' = submitted p ++ [t] → started p' = started p → finished p' = finished p → dtor p' = dtor p →
      tasks_ (shared p') = tasks_ (shared p) ++ [t] → running (workers p') = running (workers p) → pkind p p'
  | pk_start t : submitted p' = submitted p → started p' = started p ++ [t] → finished p' = finished p → dtor p' = dtor p →
      tasks_ (shared p) = t :: tasks_ (shared p') → running (workers p') ≡ₚ t :: running (workers p) → pkind p p'
  | pk_end t : submitted p' = submitted p → started p' = started p → finished p' = finished p ++ [t] → dtor p' = dtor p →
      tasks_ (shared p') = tasks_ (shared p) → running (workers p) ≡ₚ t :: running (workers p') → pkind p p'
  | pk_between : betweenTasks p p' →
      tasks_ (shared p') = tasks_ (shared p) → running (workers p') ≡ₚ running (workers p) → pkind p p'.

Lemma running_change (ws : list (wstate nat)) i w w' :
  ws !! i = Some w → run_of w ++ running (<[i:=w']> ws) ≡ₚ run_of w' ++ running ws.
Proof. intros Hi. destruct (running_insert ws i w w' Hi) as (r & -> & ->). solve_Permutation. Qed.

Lemma pstep_kind (p p' : psys nat) : pstep p p' → pkind p p'.
Proof.
  destruct 1 as [t p p' ws k d su st fi Hsub|p ws ws' k d su st fi Hw|i p ws k d su st fi Hi Hp
    |i t p p' ws k d su st fi Hi Hp Ht|i p p' ws k d su st fi Hi Hp Ht|i t p ws k d su st fi Hi
    |i p ws k d su st fi Hi|p ws k su st fi|p ws k su st fi|p ws k su st fi Hall].
  - apply (pk_submit _ _ t); try done. unfold submit in Hsub. by destruct (stopping_ p); simplify_eq.
  - apply pk_between; [done|done|]. simpl. destruct Hw as [ws Hno|ws i Hi]; [done|]. apply (running_change ws i _ WCheck Hi).
  - apply pk_between; [done|done|]. apply (running_change ws i _ WAsleep Hi).
  - unfold take in Ht. destruct (tasks_ p) as [|t' rest] eqn:E; simplify_eq. apply (pk_start _ _ t); try done.
    apply (running_change ws i _ (WRun t) Hi).
  - unfold take in Ht. destruct (tasks_ p) as [|t' rest] eqn:E; simplify_eq. apply pk_between; [done|done|].
    apply (running_change ws i _ WExited Hi).
  - apply (pk_end _ _ t); try done. symmetry. apply (running_change ws i _ WCheck Hi).
  - apply pk_between; [done|done|]. apply (running_change ws i _ WCheck Hi).
  - by apply pk_between.
  - apply pk_between; [done|done|]. simpl. by rewrite running_wake.
  - by apply pk_between.
Qed.

Lemma running_length (ws : list (wstate nat)) : length (running ws) ≤ length ws.
Proof. unfold running. induction ws as [|[] ws IH]; csimpl; lia. Qed.

Lemma pstep_workers (p p' : psys nat) : pstep p p' → length (workers p') = length (workers p).
Proof.
  destruct 1 as [| ? ? ? ? ? ? ? ? []| | | | | | | |]; simpl; by rewrite ?length_insert, ?length_fmap.
Qed.

Lemma snoc_self {A} (l : list A) x : l ≠ l ++ [x].
Proof. intros H. apply (f_equal length) in H. rewrite length_app in H. simpl in H. lia. Qed.

Lemma pstep_submit (p p' : psys nat) c :
  pstep p p' → submitted p' = submitted p ++ [c] →
  tasks_ (shared p') = tasks_ (shared p) ++ [c] ∧ running (workers p') = running (workers p) ∧ dtor p' = dtor p.
Proof.
  intros Hs Hc. destruct (pstep_kind _ _ Hs) as [t H1|t H1|t H1|[H1 _]]; rewrite H1 in Hc; try by apply snoc_self in Hc.
  by simplify_list_eq.
Qed.

Lemma pstep_start (p p' : psys nat) c :
  pstep p p' → started p' = started p ++ [c] →
  tasks_ (shared p) = c :: tasks_ (shared p') ∧ running (workers p') ≡ₚ c :: running (workers p) ∧ dtor p' = dtor p.
Proof.
  intros Hs Hc. destruct (pstep_kind _ _ Hs) as [t _ H1|t _ H1|t _ H1|(_ & H1 & _)]; rewrite H1 in Hc;
    try by apply snoc_self in Hc. by simplify_list_eq.
Qed.

Lemma pstep_end (p p' : psys nat) c :
  pstep p p' → finished p' = finished p ++ [c] →
  tasks_ (shared p') = tasks_ (shared p) ∧ running (workers p) ≡ₚ c :: running (workers p') ∧ dtor p' = dtor p.
Proof.
  intros Hs Hc. destruct (pstep_kind _ _ Hs) as [t _ _ H1|t _ _ H1|t _ _ H1|(_ & _ & H1)]; rewrite H1 in Hc;
    try by apply snoc_self in Hc. by simplify_list_eq.
Qed.

Lemma pstep_between (p p' : psys nat) :
  pstep p p' → betweenTasks p p' →
  tasks_ (shared p') = tasks_ (shared p) ∧ running (workers p') ≡ₚ running (workers p).
Proof.
  intros Hs (H1 & H2 & H3). destruct (pstep_kind _ _ Hs) as [t Hc|t _ Hc|t _ _ Hc|]; [| | |done]; exfalso;
    [rewrite H1 in Hc|rewrite H2 in Hc|rewrite H3 in Hc]; by apply snoc_self in Hc.
Qed.

(** ** What a step of the server does with the tasks *)
Definition taskOf (s : server) (c : nat) : option tphase := k ← conns s !! c; head (tasks k).

Definition changesTask (c : nat) (t : option tphase) (s s' : server) : Prop :=
  taskOf s' c = t ∧ ∀ c', c' ≠ c → taskOf s' c' = taskOf s c'.

Lemma changes_insert c k' t m m' cs o o' p p' :
  head (tasks k') = t → changesTask c t (mkServer m cs o p) (mkServer m' (<[c:=k']> cs) o' p').
Proof.
  intros <-. unfold changesTask, taskOf. simpl. split; [by rewrite lookup_insert_eq|].
  intros c' Hne. by rewrite lookup_insert_ne.
Qed.

Lemma changes_same c s s' : changesTask c (taskOf s c) s s' → ∀ c', taskOf s' c' = taskOf s c'.
Proof. intros [H1 H2] c'. destruct (decide (c' = c)) as [->|]; auto. Qed.

Lemma lstep_tasks s s' : lstep s s' → submits (phase s) = None → ∀ c, taskOf s' c = taskOf s c.
Proof.
  intros Hs Hn. destruct Hs as [f c m cs o Hc Hf|f c k data pc m cs o Hf Hk|c k k' r pc sd ol m cs o Hk Hp
    |c k pc sd ol m cs o Hk|c m cs o|c k m cs o Hk Hm|c k c' m cs o Hk Hm|c k k' b m cs o Hk Hd]; try done;
    apply (changes_same c), changes_insert; unfold taskOf; simpl in *; rewrite ?Hc, ?Hk; simpl; try done.
  - unfold splitPass in Hp. repeat (case_match; simplify_eq; try done).
  - by destruct sd.
  - by injection Hd as <- _.
Qed.

Lemma lstep_submit s s' c :
  sinv s → lstep s s' → submits (phase s) = Some c → taskOf s c = None ∧ changesTask c (Some TQueued) s s'.
Proof.
  intros H Hs Hc. destruct Hs as [| | |c' k pc sd ol m cs o Hk| | | |]; try done. destruct sd; [|done].
  injection Hc as <-. pose proof (ci_task _ _ _ _ (si_conn _ H _ _ Hk)) as Ht. simpl in Ht. rewrite view_self in Ht.
  assert (tasks k = []) as E by (destruct (busy k); simpl in *; [apply nil_length_inv|]; lia).
  split; [unfold taskOf; simpl; rewrite Hk; simpl; by rewrite E|]. apply changes_insert. simpl. by rewrite E.
Qed.

Definition partDone (a : taskPart) (t : tphase) (t' : option tphase) : Prop :=
  match a with
  | KStart => t = TQueued ∧ t' = Some TLoop
  | KTake => t = TLoop ∧ ∃ q, t' = Some (TExec q)
  | KEnd => t ≠ TQueued ∧ t' = None
  end.

Lemma kstep_tasks c a s s' :
  sinv s → kstep c a s s' → ∃ t t', taskOf s c = Some t ∧ changesTask c t' s s' ∧ partDone a t t'.
Proof.
  intros H Hs. destruct Hs as [k i m cs o p Hk Hi|k k' i q m cs o p Hk Hi Ht|k k' i b m cs o p Hk Hi Ht|k k' i b m cs o p Hk Hi Ht];
    destruct (task_busy _ _ _ _ _ _ (si_conn _ H _ _ Hk) Hi) as (_ & _ & _ & -> & E); eexists _, _;
    (split; [unfold taskOf; simpl; rewrite Hk; simpl; by rewrite E|split; [by apply changes_insert|]]).
  - simpl. by rewrite E.
  - unfold taskTake in Ht. rewrite E in Ht. case_match; simplify_eq. simpl. eauto.
  - unfold taskTake in Ht. rewrite E in Ht. case_match; by simplify_eq.
  - unfold taskFail in Ht. rewrite E in Ht. by simplify_eq.
Qed.

Lemma astep_tasks c q b s s' :
  sinv s → astep c q b s s' →
  taskOf s c = Some (TExec q) ∧ ∃ t', changesTask c (Some t') s s' ∧ t' ≠ TQueued.
Proof.
  intros H Hs. destruct Hs as [k i m cs o p Hk Hi|k i m cs o p Hk Hi];
    destruct (task_busy _ _ _ _ _ _ (si_conn _ H _ _ Hk) Hi) as (_ & _ & _ & -> & E);
    (split; [unfold taskOf; simpl; rewrite Hk; simpl; by rewrite E|]).
  - exists TLoop. split; [apply changes_insert; simpl; by rewrite E|done].
  - exists TFailed. split; [apply changes_insert; simpl; by rewrite E|done].
Qed.

(** ** The invariant *)
Section Inv.
Context {Ix Dx : Type} `{!KeyIndex Z nat Ix} `{!KeyIndexLaws Z nat Ix}.
Context `{!KeyIndex string SharedPtr Dx} `{!KeyIndexLaws string SharedPtr Dx}.
Abbreviation Y := (system Ix Dx).

(** The pool's tasks are the server's. *)
Record tasks_agree (s : server) (queue run : list nat) : Prop := {
  ta_once : NoDup (queue ++ run);
  ta_queue : ∀ c, c ∈ queue ↔ taskOf s c = Some TQueued;
  ta_run : ∀ c, c ∈ run ↔ ∃ t, taskOf s c = Some t ∧ t ≠ TQueued;
}.

Lemma agree_frame s s' q r r' :
  tasks_agree s q r → (∀ c, taskOf s' c = taskOf s c) → r' ≡ₚ r → tasks_agree s' q r'.
Proof. intros [H1 H2 H3] Hs Hr. split; [by rewrite Hr|intros c; by rewrite Hs|intros c; by rewrite Hr, Hs]. Qed.

Lemma agree_submit s s' c q r :
  tasks_agree s q r → taskOf s c = None → changesTask c (Some TQueued) s s' → tasks_agree s' (q ++ [c]) r.
Proof.
  intros [H1 H2 H3] Hc [Hs Ho]. split.
  - rewrite <- (assoc_L (++)). simpl. rewrite <- Permutation_middle. apply NoDup_cons. split; [|done].
    rewrite elem_of_app, H2, H3, Hc. naive_solver.
  - intros c'. rewrite elem_of_app, list_elem_of_singleton, H2. destruct (decide (c' = c)) as [->|Hne]; [naive_solver|].
    rewrite Ho by done. naive_solver.
  - intros c'. rewrite H3. destruct (decide (c' = c)) as [->|Hne]; [|by rewrite Ho by done].
    rewrite Hc, Hs. naive_solver.
Qed.

Lemma agree_start s s' c q r r' t :
  tasks_agree s (c :: q) r → changesTask c (Some t) s s' → t ≠ TQueued → r' ≡ₚ c :: r → tasks_agree s' q r'.
Proof.
  intros [H1 H2 H3] [Hs Ho] Ht Hr. simpl in H1. pose proof H1 as [Hcn _]%NoDup_cons. split.
  - rewrite Hr. by rewrite <- Permutation_middle.
  - intros c'. specialize (H2 c'). rewrite elem_of_cons in H2. destruct (decide (c' = c)) as [->|Hne].
    + rewrite Hs. rewrite elem_of_app in Hcn. naive_solver.
    + rewrite Ho by done. naive_solver.
  - intros c'. rewrite Hr, elem_of_cons, H3. destruct (decide (c' = c)) as [->|Hne]; [naive_solver|].
    rewrite Ho by done. naive_solver.
Qed.

Lemma agree_in s s' c q r t t' :
  tasks_agree s q r → taskOf s c = Some t → t ≠ TQueued → changesTask c (Some t') s s' → t' ≠ TQueued →
  tasks_agree s' q r.
Proof.
  intros [H1 H2 H3] Hc Ht [Hs Ho] Ht'. split; [done| |]; intros c'; rewrite ?H2, ?H3;
    (destruct (decide (c' = c)) as [->|Hne]; [rewrite Hc, Hs; naive_solver|by rewrite Ho by done]).
Qed.

Lemma agree_end s s' c q r r' t :
  tasks_agree s q r → taskOf s c = Some t → t ≠ TQueued → changesTask c None s s' → r ≡ₚ c :: r' → tasks_agree s' q r'.
Proof.
  intros [H1 H2 H3] Hc Ht [Hs Ho] Hr. rewrite Hr in H1. rewrite <- Permutation_middle in H1.
  apply NoDup_cons in H1 as [Hcn H1]. rewrite elem_of_app in Hcn. split; [done| |].
  - intros c'. rewrite H2. destruct (decide (c' = c)) as [->|Hne]; [rewrite Hc, Hs; naive_solver|by rewrite Ho by done].
  - intros c'. specialize (H3 c'). rewrite Hr, elem_of_cons in H3.
    destruct (decide (c' = c)) as [->|Hne]; [rewrite Hs; naive_solver|]. rewrite Ho by done. naive_solver.
Qed.

Record zinv (n : nat) (y : Y) (p : psys nat) : Prop := {
  zi_system : yreach y;
  zi_pool : rtc pstep (newPsys n) p;
  zi_workers : length (workers p) = n;
  zi_tasks : tasks_agree (y_server y) (tasks_ (shared p)) (running (workers p));
  zi_dtor : dtor p ≠ DIdle → phase (y_server y) = LIdle;
}.

(** *** Every step keeps it *)
Lemma ywork_start c (y y' : Y) : ywork (YStart c) y y' → kstep c KStart (y_server y) (y_server y').
Proof. remember (YStart c) as l eqn:E. intros H. destruct H as [c' a| | |]; try done. by destruct a; simplify_eq/=. Qed.

Lemma ywork_end c (y y' : Y) : ywork (YEnd c) y y' → kstep c KEnd (y_server y) (y_server y').
Proof. remember (YEnd c) as l eqn:E. intros H. destruct H as [c' a| | |]; try done. by destruct a; simplify_eq/=. Qed.

Lemma ywork_query (y y' : Y) : ywork YQuery y y' → y_server y' = y_server y.
Proof. remember YQuery as l eqn:E. intros H. destruct H as [c' a| | |]; try done. by destruct a. Qed.

Lemma ywork_in c (y y' : Y) :
  ywork (YIn c) y y' →
  kstep c KTake (y_server y) (y_server y') ∨ y_server y' = y_server y ∨ ∃ q b, astep c q b (y_server y) (y_server y').
Proof.
  remember (YIn c) as l eqn:E. intros H. destruct H as [c' a| | |]; try done; simplify_eq/=;
    [destruct a; simplify_eq/=; by left|by right; left|right; right; eauto].
Qed.

Lemma ywork_phase l (y y' : Y) : ywork l y y' → phase (y_server y') = phase (y_server y).
Proof. intros []; simpl; try done; by match goal with H : kstep _ _ _ _ |- _ => destruct H | H : astep _ _ _ _ _ |- _ => destruct H end. Qed.

Lemma yloop_server (y y' : Y) : yloop y y' → lstep (y_server y) (y_server y').
Proof. by intros []. Qed.

Lemma ywork_agree l (y y' : Y) q r :
  sinv (y_server y) → ywork l y y' → tasks_agree (y_server y) q r →
  match l with
  | YStart c => ∀ q' r', q = c :: q' → r' ≡ₚ c :: r → tasks_agree (y_server y') q' r'
  | YEnd c => ∀ r', r ≡ₚ c :: r' → tasks_agree (y_server y') q r'
  | YIn _ | YQuery => tasks_agree (y_server y') q r
  end.
Proof.
  intros H Hw Ha. destruct l as [c|c|c|].
  - intros q' r' -> Hr. destruct (kstep_tasks _ _ _ _ H (ywork_start _ _ _ Hw)) as (t & t' & _ & Hc & _ & ->). by eapply agree_start.
  - apply ywork_in in Hw as [Hk|[->|(q' & b & Hk)]]; [|done|].
    + destruct (kstep_tasks _ _ _ _ H Hk) as (t & t' & Ht & Hc & -> & q' & ->). by eapply agree_in.
    + destruct (astep_tasks _ _ _ _ _ H Hk) as (Ht & t' & Hc & Hn). by eapply agree_in.
  - intros r' Hr. destruct (kstep_tasks _ _ _ _ H (ywork_end _ _ _ Hw)) as (t & t' & Ht & Hc & Hn & ->). by eapply agree_end.
  - by rewrite (ywork_query _ _ Hw).
Qed.

Lemma zinv_work n l (y y' : Y) p p' :
  zinv n y p → ywork l y y' → (p' = p ∨ pstep p p') → dtor p' = dtor p →
  tasks_agree (y_server y') (tasks_ (shared p')) (running (workers p')) → zinv n y' p'.
Proof.
  intros [H1 H2 H3 H4 H5] Hw Hp Hd Ha. split; [eapply yreach_step; [done|right; eauto]| | |done|].
  - destruct Hp as [->|Hp]; [done|]. by eapply rtc_r.
  - destruct Hp as [->|Hp]; [done|]. by rewrite (pstep_workers _ _ Hp).
  - rewrite Hd, (ywork_phase _ _ _ Hw). done.
Qed.

Lemma zinv_sinv n (y : Y) p : zinv n y p → sinv (y_server y).
Proof. intros H. apply sinv_reachable. by apply reachable_halves, (zi_system _ _ _ H). Qed.

Lemma zinv_loop n (y y' : Y) p p' :
  zinv n y p → yloop y y' → (p' = p ∨ pstep p p') → dtor p = DIdle → dtor p' = DIdle →
  tasks_agree (y_server y') (tasks_ (shared p')) (running (workers p')) → zinv n y' p'.
Proof.
  intros [H1 H2 H3 H4 H5] Hl Hp Hd Hd' Ha. split; [eapply yreach_step; [done|by left]| | |done|by rewrite Hd'].
  - destruct Hp as [->|Hp]; [done|]. by eapply rtc_r.
  - destruct Hp as [->|Hp]; [done|]. by rewrite (pstep_workers _ _ Hp).
Qed.

Lemma zinv_between n (y : Y) p p' :
  zinv n y p → pstep p p' → betweenTasks p p' → (stops p p' → phase (y_server y) = LIdle) → zinv n y p'.
Proof.
  intros [H1 H2 H3 H4 H5] Hp Hc Hd. destruct (pstep_between _ _ Hp Hc) as (Hq & Hr).
  split; [done|by eapply rtc_r|by rewrite (pstep_workers _ _ Hp)|rewrite Hq; by eapply agree_frame|].
  intros Hne. destruct (decide (dtor p = DIdle)) as [Hi|Hi]; [by apply Hd|by apply H5].
Qed.

Lemma spurious_between p p' : spurious p p' → betweenTasks p p' ∧ ¬ stops p p'.
Proof. intros (i & _ & ->). split; [done|]. intros [H1 H2]. by rewrite H1 in H2. Qed.

Lemma stops_between p p' : pstep p p' → stops p p' → betweenTasks p p'.
Proof.
  intros Hs [H1 H2]. destruct (pstep_kind _ _ Hs); [| | |done]; congruence.
Qed.

Lemma zenv_inv n (y : Y) p z' :
  zinv n y p → zenv (mkService y p false) z' → z_closed z' = false ∧ zinv n (z_system z') (z_pool z').
Proof.
  intros H Hs. inversion Hs as [? y' ? Hl Hd Hi|? ? p' Hp Hsp|? ? p' Hp Hst Hi]; subst; (split; [done|]); simpl.
  - eapply zinv_loop; eauto. eapply agree_frame; [apply (zi_tasks _ _ _ H)| |done].
    apply lstep_tasks; [by apply yloop_server|by rewrite Hi].
  - destruct (spurious_between _ _ Hsp). by eapply zinv_between.
  - eapply zinv_between; eauto. by apply stops_between.
Qed.

Lemma zrun_inv n (y : Y) p z' :
  zinv n y p → zrun (mkService y p false) z' →
  (z_closed z' = false ∧ zinv n (z_system z') (z_pool z')) ∨ (dtor p = DDone ∧ z' = mkService (closeAfter y) p true).
Proof.
  intros H Hs. pose proof (zinv_sinv _ _ _ H) as Hsv. pose proof (zi_tasks _ _ _ H) as Ha.
  inversion Hs as [? y' ? Hl Hd _ Hn|c ? y' ? p' Hl Hd Hn Hp Hc|c ? y' ? p' Hw Hp Hc|c ? y' ? Hw Hc|? y' ? Hw
    |c ? y' ? p' Hw Hp Hc|? ? p' Hp Hc _ Hd|? ? Hd];
    subst; [left|left|left|left|left|left|left|by right]; (split; [done|]); simpl;
    try (pose proof (ywork_agree _ _ _ _ _ Hsv Hw Ha) as Hw').
  - eapply zinv_loop; eauto. eapply agree_frame; [done| |done]. by apply lstep_tasks; [apply yloop_server|].
  - destruct (pstep_submit _ _ _ Hp Hc) as (Hq & Hr & Hd').
    destruct (lstep_submit _ _ _ Hsv (yloop_server _ _ Hl) Hn). eapply zinv_loop; eauto; [by rewrite Hd'|].
    rewrite Hq, Hr. by eapply agree_submit.
  - destruct (pstep_start _ _ _ Hp Hc) as (Hq & Hr & Hd'). eapply zinv_work; eauto.
  - eapply zinv_work; eauto.
  - eapply zinv_work; eauto.
  - destruct (pstep_end _ _ _ Hp Hc) as (Hq & Hr & Hd'). eapply zinv_work; eauto. rewrite Hq. eauto.
  - eapply zinv_between; eauto. by intros.
Qed.

(** A query in execution has a worker of its own. *)
Lemma zinv_calls n (y : Y) p : zinv n y p → base.size (y_calls y) ≤ n.
Proof.
  intros H. rewrite <- (zi_workers _ _ _ H), <- size_dom. etrans; [|apply running_length].
  rewrite <- (size_list_to_set (C:=gset nat)) by (eapply NoDup_app, (ta_once _ _ _ (zi_tasks _ _ _ H))).
  apply subseteq_size. intros c [id Hc]%elem_of_dom. rewrite elem_of_list_to_set, (ta_run _ _ _ (zi_tasks _ _ _ H)).
  destruct (yi_call _ (yinv_reachable _ (zi_system _ _ _ H)) _ _ Hc) as (k & q & Hk & Hcur & _).
  unfold taskOf. rewrite Hk. simpl. unfold current in Hcur.
  assert (Hl := one_task _ _ _ _ (si_conn _ (zinv_sinv _ _ _ H) _ _ Hk)).
  destruct (tasks k) as [|[] [|? ?]]; simpl in *; try done; try lia. eauto.
Qed.

(** A service that is not closed keeps the invariant; a closed one was just closed. *)
Definition zreach (n : nat) (z : service Ix Dx) : Prop :=
  if z_closed z then ∃ y, zinv n y (z_pool z) ∧ dtor (z_pool z) = DDone ∧ z_system z = closeAfter y
  else zinv n (z_system z) (z_pool z).

Lemma zinv_new n w : idleWorld w → zinv n (systemOn w) (newPsys n).
Proof.
  intros Hw. split; [by exists w|done|by simpl; rewrite length_replicate| |done]. simpl.
  assert (running (replicate n (@WCheck nat)) = []) as -> by (clear; by induction n).
  split; [constructor|..]; intros c; unfold taskOf; simpl; rewrite lookup_empty; simpl; (split; [by intros ?%not_elem_of_nil|naive_solver]).
Qed.

Lemma zreach_step n (z z' : service Ix Dx) : zreach n z → zstep z z' → zreach n z'.
Proof.
  destruct z as [y p b]. intros H Hs. destruct b; [by destruct Hs as [Hs|Hs]; inversion Hs|].
  destruct Hs as [Hs|Hs].
  - destruct (zenv_inv _ _ _ _ H Hs) as [E Hz]. unfold zreach. by rewrite E.
  - destruct (zrun_inv _ _ _ _ H Hs) as [[E Hz]|[Hd ->]]; unfold zreach; [by rewrite E|by exists y].
Qed.

Lemma zreach_reachable n (z : service Ix Dx) : rtc zstep (newService n) z → zreach n z.
Proof.
  revert z. apply rtc_ind_r; [apply zinv_new, idle_new|]. intros z z' _ Hs H. by eapply zreach_step.
Qed.
End Inv.
