(* ===== verification/ServiceLive.v ===== *)
(** * The service on its thread pool: coming to rest

    Every step of the service's threads decreases [zeffort], and with at least
    one worker a service that can take no such step has no task left. *)

From S2P Require Import Prelude KeyIndex SharedPtr ThreadPool ThreadPoolMain TCPServer TCPServerSpec TCPServerLive.
From S2P Require Import Database DatabaseSpec QueryExecutor QueryConcurrent QueryRef QueryLinear QueryLinearSpec QueryProgress System SystemSpec SystemLive Service ServiceSpec.

(** ** The pool between tasks *)
Definition looks (w : wstate nat) : nat := if w is WCheck then 1 else 0.
Definition shutdownWork (d : dstate) (n : nat) : nat :=
  match d with DIdle => 0 | DNotify => n + 3 | DJoin => 2 | DDone => 1 end.
Definition poolWork (p : psys nat) : nat :=
  sum_list (looks <$> workers p) + 2 * notifies p + shutdownWork (dtor p) (length (workers p)).

Lemma looks_insert (ws : list (wstate nat)) i w y :
  ws !! i = Some y → sum_list (looks <$> <[i:=w]> ws) + looks y = sum_list (looks <$> ws) + looks w.
Proof.
  intros (l1 & l2 & -> & ->)%list_elem_of_split_length. rewrite insert_app_r_alt, Nat.sub_diag by lia. simpl.
  rewrite !fmap_app, !sum_list_with_app. simpl. lia.
Qed.

Lemma looks_bound (ws : list (wstate nat)) : sum_list (looks <$> ws) ≤ length ws.
Proof. induction ws as [|[] ws IH]; csimpl; lia. Qed.

Lemma pstep_work (p p' : psys nat) :
  pstep p p' → ¬ spurious p p' → ¬ stops p p' → poolWork p' ≤ 2 + poolWork p ∧ (betweenTasks p p' → poolWork p' < poolWork p).
Proof.
  intros Hs Hsp Hst. unfold poolWork. rewrite (pstep_workers _ _ Hs).
  destruct Hs as [t p p' ws k d su st fi Hsub|p ws ws' k d su st fi Hw|i p ws k d su st fi Hi Hp
    |i t p p' ws k d su st fi Hi Hp Ht|i p p' ws k d su st fi Hi Hp Ht|i t p ws k d su st fi Hi
    |i p ws k d su st fi Hi|p ws k su st fi|p ws k su st fi|p ws k su st fi Hall]; cbn [shared workers notifies dtor] in *;
    try (match goal with |- context [<[i:=?w]> ws] => pose proof (looks_insert ws i w _ Hi) as Hw; simpl in Hw end).
  - split; [lia|]. intros [H _]. simpl in H. symmetry in H. by apply snoc_self in H.
  - destruct Hw as [ws Hno|ws i Hi]; [lia|]. pose proof (looks_insert ws i WCheck _ Hi) as Hw. simpl in Hw. lia.
  - lia.
  - lia.
  - lia.
  - split; [lia|]. intros (_ & _ & H). simpl in H. symmetry in H. by apply snoc_self in H.
  - destruct Hsp. by exists i.
  - by destruct Hst.
  - pose proof (looks_bound (wake <$> ws)) as Hl. rewrite length_fmap in Hl. simpl. lia.
  - simpl. lia.
Qed.

Lemma task_not_between (p p' : psys nat) : pstep p p' → ¬ betweenTasks p p' → ¬ spurious p p' ∧ ¬ stops p p'.
Proof. intros Hs Hn. split; intros H; apply Hn; [by apply spurious_between|by apply stops_between]. Qed.

Lemma same_dtor (p p' : psys nat) : dtor p' = dtor p → ¬ stops p p'.
Proof. intros Hd [H1 H2]. congruence. Qed.

(** A pool that can do nothing between tasks. *)
Definition poolStill (p : psys nat) : Prop :=
  ∀ p', pstep p p' → betweenTasks p p' → ¬ spurious p p' → ¬ stops p p' → False.

Lemma still_notifies p : poolStill p → notifies p = 0.
Proof.
  intros Hn. destruct p as [p ws [|k] d su st fi]; [done|]. exfalso.
  destruct (asleep_dec ws) as [(i & Hi)%list_elem_of_lookup_1|Hno];
    (eapply Hn; [apply p_notify; [..]|done|intros (i' & _ & Hw); simplify_eq/=; lia|by apply same_dtor]).
  - by apply (wake_some _ i).
  - by apply wake_nobody.
Qed.

Lemma still_dtor p : poolStill p → dtor p ≠ DNotify ∧ (dtor p = DJoin → ¬ Forall (eq WExited) (workers p)).
Proof.
  intros Hn. destruct p as [p ws k d su st fi]. simpl. split.
  - intros ->. eapply Hn; [by apply p_notify_all|done|intros (i & _ & Hw); by simplify_eq/=|by intros []].
  - intros -> Ha. eapply Hn; [by apply p_join|done|intros (i & _ & Hw); by simplify_eq/=|by intros []].
Qed.

Lemma insert_differs (ws : list (wstate nat)) i w i' :
  ws !! i = Some WCheck → ws !! i' = Some WAsleep → w ≠ WCheck → <[i:=w]> ws ≠ <[i':=WCheck]> ws.
Proof.
  intros Hi Hi' Hw H. apply (f_equal (.!! i)) in H. rewrite list_lookup_insert_eq in H by (by eapply lookup_lt_Some).
  rewrite list_lookup_insert_ne, Hi in H by congruence. congruence.
Qed.

(** A worker that looks at the queue can only take a task. *)
Lemma still_check p i :
  poolStill p → workers p !! i = Some WCheck →
  ∃ c p', pstep p p' ∧ tasks_ (shared p) = c :: tasks_ (shared p') ∧ started p' = started p ++ [c].
Proof.
  intros Hn Hi. destruct p as [p ws k d su st fi]. simpl in *.
  destruct (workPred p) eqn:Hw; [destruct (take p) as [p' [c|]] eqn:Ht|].
  - eexists c, _. split; [by eapply p_take|]. simpl. unfold take in Ht. destruct (tasks_ p); by simplify_eq.
  - exfalso. eapply Hn; [by eapply p_exit|done|intros (i' & Hi' & E); injection E as _ E; by apply (insert_differs ws i WExited i')|by apply same_dtor].
  - exfalso. eapply Hn; [by eapply p_sleep|done|intros (i' & Hi' & E); injection E as E; by apply (insert_differs ws i WAsleep i')|by apply same_dtor].
Qed.

Lemma running_elem (ws : list (wstate nat)) c : c ∈ running ws ↔ ∃ i, ws !! i = Some (WRun c).
Proof.
  unfold running. rewrite list_elem_of_omap. split.
  - intros (w & (i & Hi)%list_elem_of_lookup_1 & Hw). destruct w; simplify_eq. eauto.
  - intros [i Hi]. exists (WRun c). split; [by eapply list_elem_of_lookup_2|done].
Qed.

(** ** The service *)
Section Live.
Context {Ix Dx : Type} `{!KeyIndex Z nat Ix} `{!KeyIndexLaws Z nat Ix}.
Context `{!KeyIndex string SharedPtr Dx} `{!KeyIndexLaws string SharedPtr Dx}.
Abbreviation Y := (system Ix Dx).
Abbreviation Zs := (service Ix Dx).

Definition zeffort (z : Zs) : nat :=
  if z_closed z then 0 else 3 * yeffort (z_system z) + poolWork (z_pool z).

Lemma zrun_effort n (y : Y) p z' : zinv n y p → zrun (mkService y p false) z' → zeffort z' < zeffort (mkService y p false).
Proof.
  intros H Hs. pose proof (yinv_reachable _ (zi_system _ _ _ H)) as Hy.
  assert (Hwork : ∀ l y', ywork l y y' → yeffort y' < yeffort y) by (intros; apply yistep_effort; [done|left; eauto]).
  assert (Hloop : ∀ y', yloop y y' → phase (y_server y) ≠ LIdle → yeffort y' < yeffort y) by (intros; apply yistep_effort; [done|by right]).
  assert (Hpool : ∀ p', pstep p p' → ¬ betweenTasks p p' → poolWork p' ≤ 2 + poolWork p).
  { intros p' Hp Hn. destruct (task_not_between _ _ Hp Hn). by apply pstep_work. }
  assert (Hsnoc : ∀ (l : list nat) x, l ++ [x] ≠ l) by (intros l x E; symmetry in E; by apply snoc_self in E).
  unfold zeffort.
  inversion Hs as [? y' ? Hl Hd Hi Hn|c ? y' ? p' Hl Hd Hn Hp Hc|c ? y' ? p' Hw Hp Hc|c ? y' ? Hw Hc|? y' ? Hw
    |c ? y' ? p' Hw Hp Hc|? ? p' Hp Hc Hsp Hst|? ? Hd]; subst; simpl;
    try (apply Hwork in Hw).
  - apply Hloop in Hl; [lia|done].
  - apply Hloop in Hl; [|by intros E; rewrite E in Hn]. assert (poolWork p' ≤ 2 + poolWork p); [|lia].
    apply Hpool; [done|]. intros (E & _). rewrite Hc in E. by apply Hsnoc in E.
  - assert (poolWork p' ≤ 2 + poolWork p); [|lia].
    apply Hpool; [done|]. intros (_ & E & _). rewrite Hc in E. by apply Hsnoc in E.
  - lia.
  - lia.
  - assert (poolWork p' ≤ 2 + poolWork p); [|lia].
    apply Hpool; [done|]. intros (_ & _ & E). rewrite Hc in E. by apply Hsnoc in E.
  - destruct (pstep_work _ _ Hp Hsp Hst) as [_ Hlt]. specialize (Hlt Hc). lia.
  - unfold poolWork. rewrite Hd. simpl. lia.
Qed.

Lemma nsteps_zeffort m n (z z' : Zs) : zreach n z → nsteps zrun m z z' → m + zeffort z' ≤ zeffort z.
Proof.
  intros Hr Hn. induction Hn as [|m [y p b] z2 z3 Hs Hn IH]; [lia|]. destruct b; [by inversion Hs|].
  pose proof (zrun_effort n y p _ Hr Hs). assert (zreach n z2) as Hz; [|specialize (IH Hz); lia].
  destruct (zrun_inv n y p _ Hr Hs) as [[E Hz]|[Hd ->]]; unfold zreach; [by rewrite E|by exists y].
Qed.

(** *** At rest *)
Definition stopped (z : Zs) : Prop := ∀ z', ¬ zrun z z'.

Lemma taskOf_conn s c t : sinv s → taskOf s c = Some t → ∃ k, conns s !! c = Some k ∧ tasks k = [t].
Proof.
  intros H Ht. unfold taskOf in Ht. destruct (conns s !! c) as [k|] eqn:Hk; [|done]. simpl in Ht. exists k. split; [done|].
  destruct (tasks k) as [|t' l] eqn:E; simplify_eq/=. assert (Hi : tasks k !! 0 = Some t) by by rewrite E.
  destruct (task_busy _ _ _ _ _ _ (si_conn _ H _ _ Hk) Hi) as (_ & _ & _ & _ & E'). congruence.
Qed.

(** A worker that runs a task can go on. *)
Lemma still_running n (y : Y) p : zinv n y p → stopped (mkService y p false) → running (workers p) = [].
Proof.
  intros H Hn. destruct (running (workers p)) as [|c r] eqn:E; [done|]. exfalso.
  assert (Hc : c ∈ running (workers p)) by (rewrite E; by left). pose proof (zinv_sinv _ _ _ H) as Hsv.
  pose proof Hc as (t & Ht & Hq)%(ta_run _ _ _ (zi_tasks _ _ _ H)). destruct (taskOf_conn _ _ _ Hsv Ht) as (k & Hk & Htk).
  assert (Hi : tasks k !! 0 = Some t) by by rewrite Htk.
  assert (Hend : ∀ s', kstep c KEnd (y_server y) s' → False).
  { intros s' Hs'. apply running_elem in Hc as [i Hw]. destruct p as [p ws m d su st fi], y as [s w cl lg].
    eapply Hn, (z_end c); [by apply (y_task c KEnd)|by eapply p_return|done]. }
  destruct t as [| |q|]; [done| | |].
  - destruct y as [[m cs o ph] w cl lg]. destruct (taskTake k 0) as [k' [q|b]] eqn:Ht'.
    + eapply Hn, (z_in c); [|done]. eapply (y_task c KTake). by eapply s_take.
    + eapply Hend. by eapply s_finish.
  - destruct (exec_moves y c k 0 q (zi_system _ _ _ H) Hk Hi) as [y' [Hw|Hw]]; eapply Hn; [by eapply (z_in c)|by eapply z_query].
  - destruct y as [[m cs o ph] w cl lg]. destruct (taskFail k 0) as [k' b] eqn:Ht'. eapply Hend. by eapply s_fail.
Qed.

Lemma stopped_still (y : Y) p : stopped (mkService y p false) → poolStill p.
Proof. intros Hn p' ? ? ? ?. eapply Hn. by apply z_between. Qed.

Lemma still_queue n (y : Y) p : 0 < n → zinv n y p → stopped (mkService y p false) → tasks_ (shared p) = [].
Proof.
  intros Hpos H Hn. pose proof (stopped_still _ _ Hn) as Hst. pose proof (still_running _ _ _ H Hn) as Hrun.
  pose proof (pool_inv_reachable n p Hpos (zi_pool _ _ _ H)) as Hp. destruct (tasks_ (shared p)) as [|c0 r] eqn:E; [done|]. exfalso.
  destruct (pi_wake _ Hp) as [(w & (i & Hi)%list_elem_of_lookup_1 & Ha & He)|[Hk|Hk]]; [by rewrite E| | |].
  - destruct w as [| |c|]; try done.
    + destruct (still_check _ _ Hst Hi) as (c & p' & Hs & Hq & Hc).
      assert (taskOf (y_server y) c = Some TQueued) as Ht by (apply (ta_queue _ _ _ (zi_tasks _ _ _ H)); rewrite Hq; by left).
      destruct (taskOf_conn _ _ _ (zinv_sinv _ _ _ H) Ht) as (k & Hk & Htk). destruct y as [[m cs o ph] w cl lg].
      eapply Hn, (z_start c); [|done|done]. eapply (y_task c KStart), (s_start c k 0); [done|by rewrite Htk].
    + assert (c ∈ running (workers p)) by (apply running_elem; eauto). rewrite Hrun in *. by eapply not_elem_of_nil.
  - pose proof (still_notifies _ Hst). lia.
  - by destruct (still_dtor _ Hst) as [H1 _].
Qed.

Lemma still_shutdown n (y : Y) p : 0 < n → zinv n y p → stopped (mkService y p false) → dtor p = DIdle.
Proof.
  intros Hpos H Hn. pose proof (stopped_still _ _ Hn) as Hst. pose proof (still_queue _ _ _ Hpos H Hn) as Hq.
  pose proof (pool_inv_reachable n p Hpos (zi_pool _ _ _ H)) as Hp. destruct (dtor p) eqn:Hd; [done|exfalso..].
  - by destruct (still_dtor _ Hst) as [H1 _].
  - destruct (all_exited (workers p)) as [Ha|(i & w & Hi & Hw)]; [by destruct (still_dtor _ Hst) as [_ H2]; apply H2|].
    destruct w as [| |c|]; try done.
    + destruct (still_check _ _ Hst Hi) as (c & p' & _ & E & _). by rewrite Hq in E.
    + apply (pi_join _ Hp); [by left|]. by eapply list_elem_of_lookup_2.
    + assert (c ∈ running (workers p)) as Hc by (apply running_elem; eauto). rewrite (still_running _ _ _ H Hn) in Hc.
      by eapply not_elem_of_nil.
  - eapply Hn. by apply z_close.
Qed.

Lemma agree_nil s : tasks_agree s [] [] → ∀ c k, conns s !! c = Some k → tasks k = [].
Proof.
  intros [_ H2 H3] c k Hk. destruct (tasks k) as [|t l] eqn:E; [done|]. exfalso.
  assert (taskOf s c = Some t) as Ht by (unfold taskOf; rewrite Hk; simpl; by rewrite E).
  assert (t = TQueued ∨ t ≠ TQueued) as [->|Hne] by (destruct t; auto); [apply H2 in Ht; by eapply not_elem_of_nil|].
  eapply not_elem_of_nil, H3; eauto.
Qed.

Lemma stopped_drained n (y : Y) p : 0 < n → zinv n y p → stopped (mkService y p false) → drained (y_server y).
Proof.
  intros Hpos H Hn. pose proof (still_shutdown _ _ _ Hpos H Hn) as Hd. split.
  - destruct (decide (loop_conn (phase (y_server y)) = None)) as [E|Hp]; [by destruct (phase (y_server y))|exfalso].
    pose proof (pool_inv_reachable n p Hpos (zi_pool _ _ _ H)) as Hpi. pose proof (zinv_sinv _ _ _ H) as Hsv.
    destruct y as [[m cs o ph] w cl lg]. simpl in *.
    destruct (loop_progress m cs o ph Hsv) as [s' Hs]; [by intros ->|].
    destruct (submits ph) as [c|] eqn:E; [|eapply Hn, z_loop; [by apply y_loop|done|by simpl; intros ->|done]].
    destruct p as [[q st] ws k d su sta fi]. simpl in *. eapply Hn, (z_submit c); [by apply y_loop|done|done|apply p_submit|done].
    unfold submit. simpl. destruct st; [|done]. by destruct (pi_dtor _ Hpi) as [Hx _]; destruct Hx.
  - pose proof (zi_tasks _ _ _ H) as Ha. rewrite (still_queue _ _ _ Hpos H Hn), (still_running _ _ _ H Hn) in Ha.
    intros c k. by apply (agree_nil _ Ha).
Qed.

Lemma done_drained n (y : Y) p : 0 < n → zinv n y p → dtor p = DDone → drained (y_server y).
Proof.
  intros Hpos H Hd. pose proof (pool_inv_reachable n p Hpos (zi_pool _ _ _ H)) as Hp.
  split; [apply (zi_dtor _ _ _ H); by rewrite Hd|]. pose proof (zi_tasks _ _ _ H) as Ha. pose proof (pi_done _ Hp Hd) as Hall.
  assert (Hrun : running (workers p) = []) by (clear -Hall; induction Hall as [|w ws <- _ IH]; [done|by csimpl]).
  assert (Hq : tasks_ (shared p) = []).
  { pose proof (pi_some _ Hp). apply (pi_exited _ Hp). destruct Hall; [done|]. subst. by left. }
  rewrite Hq, Hrun in Ha. intros c k. by apply (agree_nil _ Ha).
Qed.

(** What a service has done that has no task left. *)
Definition allAnswered (y : Y) : Prop :=
  (∀ c k, conns (y_server y) !! c = Some k →
     tasks k = [] ∧ pending k = [] ∧ (unwritten k = false → a_query <$> logOf (y_log y) c = accepted k)) ∧
  ∃ lin, linearizes (w_hist (y_world y)) lin ∧ db_ok [] (w_db (y_world y)) (state_of lin) ∧
    base.size (objects (heap_ (w_db (y_world y)))) = base.size (state_of lin).

Lemma drained_answered (y : Y) : yreach y → drained (y_server y) → allAnswered y.
Proof.
  intros Hr Hd. pose proof (yinv_reachable _ Hr) as H. destruct (reachable_halves _ Hr) as [Hsv%sinv_reachable Hw].
  destruct (drained_calls _ H Hd) as [_ Hops]. split.
  - intros c k Hk. destruct (drained_conn _ _ _ Hsv Hd Hk) as (_ & ? & ? & _). rewrite (yi_executed _ H _ _ Hk).
    split_and!; [by apply Hd in Hk|done..].
  - destruct (world_linearizes _ Hw) as (lin & Hl & Hrest). exists lin. split; [done|]. by apply Hrest.
Qed.
End Live.
