(* ===== verification/ServiceMain.v ===== *)
(** * The service on its thread pool: main theorems

    The event loop, the pool's workers and the queries together, from the first
    connection to the end of the server's destructor. *)

From S2P Require Import Prelude HashMap KeyIndex HashMapSpec SharedPtr ThreadPool TCPServer TCPServerSpec TCPServerLive Database.
From S2P Require Import QueryExecutor QueryConcurrent QueryRef QueryLinear System SystemSpec SystemLive SystemMain Service ServiceSpec ServiceLive.

Section Main.
Context (hashZ : Z → N) (hashS : string → N).
#[local] Instance srvZ : KeyIndex Z nat (HashMap Z nat) := HashMap_index hashZ.
#[local] Instance srvZ_laws : KeyIndexLaws Z nat (HashMap Z nat) := HashMap_index_laws hashZ.
#[local] Instance srvS : KeyIndex string SharedPtr (HashMap string SharedPtr) := HashMap_index hashS.
#[local] Instance srvS_laws : KeyIndexLaws string SharedPtr (HashMap string SharedPtr) := HashMap_index_laws hashS.
Abbreviation Zs := (service (HashMap Z nat) (HashMap string SharedPtr)).

(** C14: The service comes to rest with everything answered.  With any number of
    workers from one on, its threads make only boundedly many steps from any
    state unless clients connect or send (or waits end by themselves).  When no
    step is left, no query is in flight, every client has been answered every
    query that was accepted from it (unless a reply could not be written), and
    the database stands for the state at the end of a linearization of all
    queries, with no table leaked; and if the server was being destroyed, that
    is over. *)
Theorem service_settles (n : nat) (z : Zs) :
  0 < n → rtc zstep (newService n) z →
  (∀ m z', nsteps zrun m z z' → m ≤ zeffort z) ∧
  (∀ z', rtc zrun z z' → (∀ z'', ¬ zrun z' z'') →
   allAnswered (z_system z') ∧ (dtor (z_pool z') ≠ DIdle → z_closed z' = true)).
Proof.
  intros Hn Hr. split; [intros m z' Hm; pose proof (nsteps_zeffort _ _ _ _ (zreach_reachable _ _ Hr) Hm); lia|]. intros z' Hs Hstop.
  assert (Hz : zreach n z').
  { apply zreach_reachable. etrans; [done|]. apply (rtc_subrel zrun); [by right|done]. }
  destruct z' as [y p []]; unfold zreach in Hz; simpl in *.
  - destruct Hz as (y0 & Hz & Hd & ->). split; [|done].
    apply (drained_answered y0); [apply (zi_system _ _ _ Hz)|by eapply done_drained].
  - split; [apply drained_answered; [apply (zi_system _ _ _ Hz)|by eapply stopped_drained]|].
    intros Hd. by destruct Hd; eapply still_shutdown.
Qed.

(** C15: Shutting down.  When the destructor of the server has returned, every
    worker has exited with nothing left in the queue, every accepted query was
    answered (unless its client's reply could not be written), and no descriptor
    of a client is open. *)
Theorem service_shutdown (n : nat) (z : Zs) :
  0 < n → rtc zstep (newService n) z → z_closed z = true →
  Forall (eq WExited) (workers (z_pool z)) ∧ finished (z_pool z) ≡ₚ submitted (z_pool z) ∧
  allAnswered (z_system z) ∧ opened (y_server (z_system z)) = ∅ ∧ connections_ (y_server (z_system z)) = ∅.
Proof.
  intros Hn Hr Hc. pose proof (zreach_reachable _ _ Hr) as H. unfold zreach in H. rewrite Hc in H.
  destruct H as (y & Hz & Hd & ->). pose proof (pool_inv_reachable _ _ Hn (zi_pool _ _ _ Hz)) as Hp.
  pose proof (done_drained _ _ _ Hn Hz Hd) as Hdr. pose proof (pi_done _ Hp Hd) as Hall.
  assert (Hrun : running (workers (z_pool z)) = []) by (clear -Hall; induction Hall as [|w ws <- _ IH]; [done|by csimpl]).
  split_and!; [done| |by apply (drained_answered y), Hdr; apply (zi_system _ _ _ Hz)
    |apply (destroyServer_closes _ (zinv_sinv _ _ _ Hz) Hdr)|done].
  rewrite (pi_queue _ Hp), (pi_started _ Hp), Hrun, app_nil_r.
  assert (tasks_ (shared (z_pool z)) = []) as ->; [|by rewrite app_nil_r].
  pose proof (pi_some _ Hp). apply (pi_exited _ Hp). destruct Hall; [done|]. subst. by left.
Qed.

(** C39: The server uses its pool well.  At any time each connection has at most one
    task in the pool, waiting in the queue or run by a worker exactly as the
    connection's own state says, so that no more queries are in execution than
    there are workers; and as long as the loop runs, [submit] does not throw. *)
Theorem service_pool (n : nat) (z : Zs) :
  0 < n → rtc zstep (newService n) z → z_closed z = false →
  tasks_agree (y_server (z_system z)) (tasks_ (shared (z_pool z))) (running (workers (z_pool z))) ∧
  base.size (y_calls (z_system z)) ≤ n ∧
  (phase (y_server (z_system z)) ≠ LIdle →
   ∀ c, ∃ p', submit (shared (z_pool z)) c = Val p' ∧ tasks_ p' = tasks_ (shared (z_pool z)) ++ [c]).
Proof.
  intros Hn Hr Hc. pose proof (zreach_reachable _ _ Hr) as H. unfold zreach in H. rewrite Hc in H.
  pose proof (pool_inv_reachable _ _ Hn (zi_pool _ _ _ H)) as Hp. split_and!; [apply (zi_tasks _ _ _ H)|by apply (zinv_calls _ _ _ H)|].
  intros Hph c. unfold submit. destruct (stopping_ (shared (z_pool z))) eqn:E; [|eexists; by split].
  apply (pi_dtor _ Hp) in E. by apply (zi_dtor _ _ _ H) in E.
Qed.
End Main.

(** ** Witnesses *)
#[local] Instance demoZ : KeyIndex Z nat (HashMap Z nat) := HashMap_index Z.to_N.
#[local] Instance demoZ_laws : KeyIndexLaws Z nat (HashMap Z nat) := HashMap_index_laws Z.to_N.
#[local] Instance demoS : KeyIndex string SharedPtr (HashMap string SharedPtr) := HashMap_index length_hash.
#[local] Instance demoS_laws : KeyIndexLaws string SharedPtr (HashMap string SharedPtr) := HashMap_index_laws length_hash.

Ltac znext t :=
  eapply rtc_l; [t; try vm_each|];
  match goal with |- rtc ?R ?a ?b => let a' := eval vm_compute in a in change (rtc R a' b) end.
Ltac zclient t := znext ltac:(left; apply z_client; [apply y_loop; t| |]).
Ltac zloop t := znext ltac:(right; apply z_loop; [apply y_loop; t| |discriminate|]).
Ltac zbetween t := znext ltac:(right; eapply z_between; [t; try vm_each|by repeat split|by intros ([|i] & ? & ?); simplify_eq/=|by intros [? ?]; simplify_eq/=]).

(** A client creates a table on a pool of one worker; the service is about to
    run the query. *)
Lemma demo_busy :
  ∃ z : service (HashMap Z nat) (HashMap string SharedPtr), rtc zstep (newService 1) z ∧ z_closed z = false ∧
    running (workers (z_pool z)) = [0] ∧ dtor (z_pool z) = DIdle ∧ phase (y_server (z_system z)) = LEnd 0 false.
Proof.
  eexists. split.
  { zclient ltac:(apply (s_accept 7 0)). zclient ltac:(eapply (s_read 7 0 _ (lines [createT]) false)).
    do 2 zloop ltac:(eapply s_pass).
    znext ltac:(right; eapply (z_submit 0); [apply y_loop; eapply s_after| | |eapply (p_submit 0)|]).
    znext ltac:(right; eapply (z_start 0); [apply (y_task 0 KStart); eapply (s_start 0 _ 0)|eapply (p_take 0 0)|]).
    apply rtc_refl. }
  by vm_compute.
Qed.

Ltac zin c t := znext ltac:(right; eapply (z_in c); [t|by apply (list_elem_of_lookup_2 _ 0)]).

(** The same to the end, with the server destroyed after it. *)
Lemma demo_closed :
  ∃ z : service (HashMap Z nat) (HashMap string SharedPtr), rtc zstep (newService 1) z ∧ z_closed z = true ∧
    logOf (y_log (z_system z)) 0 = [mkAnswered 0 createT "OK"].
Proof.
  eexists. split.
  { zclient ltac:(apply (s_accept 7 0)). zclient ltac:(eapply (s_read 7 0 _ (lines [createT]) false)).
    do 2 zloop ltac:(eapply s_pass).
    znext ltac:(right; eapply (z_submit 0); [apply y_loop; eapply s_after| | |eapply (p_submit 0)|]).
    znext ltac:(right; eapply (z_start 0); [apply (y_task 0 KStart); eapply (s_start 0 _ 0)|eapply (p_take 0 0)|]).
    zloop ltac:(apply s_keep).
    zin 0 ltac:(apply (y_task 0 KTake); eapply (s_take 0 _ _ 0)).
    zin 0 ltac:(eapply (y_call 0 _ 0 createT); [| | |apply (q_call createT)|]).
    znext ltac:(right; eapply z_query, y_query; [eapply (q_whole 0)|]).
    zin 0 ltac:(eapply (y_reply 0 _ true); [|eapply (s_reply _ _ _ 0)|eapply (q_return 0)|]).
    znext ltac:(right; eapply (z_end 0); [apply (y_task 0 KEnd); eapply (s_finish 0 _ _ 0)|eapply (p_return 0)|]).
    znext ltac:(left; apply z_destroy; [apply p_stop|split; [reflexivity|discriminate]|]).
    zbetween ltac:(apply p_notify, wake_nobody; intros Hin; apply list_elem_of_singleton in Hin; discriminate).
    zbetween ltac:(apply p_notify_all).
    zbetween ltac:(eapply (p_exit 0)).
    zbetween ltac:(apply p_join; by constructor).
    znext ltac:(right; apply z_close). apply rtc_refl. }
  by vm_compute.
Qed.

Lemma service_settles_witness :
  ∃ z : service (HashMap Z nat) (HashMap string SharedPtr),
    running (workers (z_pool z)) = [0] ∧ ∀ m z', nsteps zrun m z z' → m ≤ zeffort z.
Proof.
  destruct demo_busy as (z & Hr & _ & Hw & _). exists z. split; [done|].
  apply (service_settles Z.to_N length_hash 1 z); [lia|done].
Defined.

Lemma service_shutdown_witness :
  ∃ z : service (HashMap Z nat) (HashMap string SharedPtr),
    logOf (y_log (z_system z)) 0 = [mkAnswered 0 createT "OK"] ∧ opened (y_server (z_system z)) = ∅.
Proof.
  destruct demo_closed as (z & Hr & Hc & Hl). exists z. split; [done|].
  apply (service_shutdown Z.to_N length_hash 1 z); [lia|done|done].
Defined.

Lemma service_pool_witness :
  ∃ z : service (HashMap Z nat) (HashMap string SharedPtr),
    ∃ p', submit (shared (z_pool z)) 5 = Val p' ∧ tasks_ p' = tasks_ (shared (z_pool z)) ++ [5].
Proof.
  destruct demo_busy as (z & Hr & Hc & _ & _ & Hp). exists z.
  apply (service_pool Z.to_N length_hash 1 z); [lia|done|done|]. rewrite Hp. discriminate.
Defined.
