(* ===== verification/EntryPoint.v ===== *)
(** * Entry point (main.cpp)

    [main]: the port, the server's set-up, the service, tear-down, messages and
    exit code.  [std::atoi] is the standard library's: leading white space, an
    optional sign and decimal digits; a value that an [int] cannot hold is
    undefined behaviour.  What happens while the server runs is a run of the
    service on its pool ([Service]). *)

From S2P Require Import Prelude CxxStd ThreadPool TCPSetup KeyIndex LRUCache Table SharedPtr QueryExecutor HashMap HashMapSpec.
From S2P Require Import TCPServer TCPServerSpec TCPServerLive QueryConcurrent QueryLinear System SystemLive SystemMain Service ServiceSpec ServiceLive ServiceMain.
From Stdlib Require Import Ascii.

Fixpoint skipSpace (s : string) : string :=
  match s with
  | String c s' => if isspace c then skipSpace s' else s
  | EmptyString => s
  end.

Definition atoi (s : string) : result Z :=
  let '(sign, digits) :=
    match skipSpace s with
    | String c s' =>
      if bool_decide (c = "-"%char) then ((-1)%Z, s')
      else if bool_decide (c = "+"%char) then (1%Z, s') else (1%Z, String c s')
    | EmptyString => (1%Z, "")
    end in
  let z := (sign * (scanDigits 0 digits).1)%Z in
  if decide (INT_MIN ≤ z ≤ INT_MAX)%Z then Val z else Undef.

(** The port, or none where [main] prints its usage and fails. *)
Definition portOf (arg : option string) : result (option Z) :=
  match arg with
  | None => Val (Some 5432%Z)
  | Some text =>
    parsed ← atoi text;
    if ((parsed <=? 0) || (65535 <? parsed))%Z then Val None else Val (Some parsed)
  end.

(** ** Ports that are written in decimal *)
Lemma digit_plain (c : ascii) : isdigit c = true → isspace c = false ∧ c ≠ "-"%char ∧ c ≠ "+"%char.
Proof. destruct c as [[] [] [] [] [] [] [] []]; done. Qed.

Lemma atoi_to_string z : (0 ≤ z ≤ INT_MAX)%Z → atoi (to_string z) = Val z.
Proof.
  intros Hz. unfold to_string. rewrite (proj2 (Z.ltb_ge z 0)) by lia. destruct (to_string_N_scan (Z.to_N z)) as [Hs Hd].
  unfold atoi. destruct (to_string_N (Z.to_N z)) as [|c s]; [done|]. destruct (digit_plain c Hs) as (Hsp & Hm & Hp).
  simpl skipSpace. rewrite Hsp, !bool_decide_eq_false_2 by done. rewrite Hd. cbn [fst].
  replace (1 * Z.of_N (Z.to_N z))%Z with z by lia.
  rewrite decide_True; [done|]. unfold INT_MIN. lia.
Qed.

Lemma portOf_range arg p : portOf arg = Val (Some p) → (1 ≤ p ≤ 65535)%Z.
Proof.
  destruct arg as [text|]; simpl; [|intros [= <-]; lia]. destruct (atoi text) as [parsed| |]; simpl; try done.
  destruct (Z.leb_spec parsed 0), (Z.ltb_spec 65535 parsed); simpl; try done. intros [= <-]. lia.
Qed.

(** The port.  [main] serves on 5432 when it gets no argument, on the port
    that its argument spells in decimal when that is between 1 and 65535, and on
    nothing else: 0 and everything out of range make it print its usage and
    fail. *)
Theorem main_port (z : Z) :
  portOf None = Val (Some 5432%Z) ∧
  (0 ≤ z ≤ INT_MAX → portOf (Some (to_string z)) = Val (if decide (1 ≤ z ≤ 65535) then Some z else None))%Z ∧
  (∀ arg p, portOf arg = Val (Some p) → 1 ≤ p ≤ 65535)%Z.
Proof.
  split_and!; [done| |apply portOf_range]. intros Hz. simpl. rewrite atoi_to_string by done. simpl.
  destruct (Z.leb_spec z 0), (Z.ltb_spec 65535 z); simpl; case_decide; try done; lia.
Qed.

Lemma main_port_witness : portOf (Some (to_string 8080)) = Val (Some 8080%Z).
Proof. apply (main_port 8080). unfold INT_MAX. lia. Defined.

Lemma portOf_no_throw arg e : portOf arg ≠ Throw e.
Proof.
  destruct arg as [text|]; [|done]. simpl. unfold atoi. destruct (match skipSpace text with EmptyString => _ | String _ _ => _ end).
  case_decide; [|done]. cbn [mbind result_bind]. by destruct (_ || _).
Qed.

(** ** The program *)
Definition EXIT_SUCCESS : Z := 0.
Definition EXIT_FAILURE : Z := 1.

Record report := mkReport { exitCode : Z; printed : string; errors : string }.

Definition workerCount : nat := 4.

Definition greeting (port : Z) : string :=
  "CppDB listening on 127.0.0.1:" +:+ to_string port +:+ "  (connect with: nc localhost " +:+ to_string port +:+ ")" +:+ newline.
Definition fatal (e : exn) : string := "fatal: " +:+ what e +:+ newline.

(** The pointer that the signal handler reads: null until the server is there, and
    never reset. *)
Inductive mainPoint := BeforeServer | Serving | ServerDestroyed.
Definition g_server (pt : mainPoint) : option bool :=   (* the server, and whether it lives *)
  match pt with BeforeServer => None | Serving => Some true | ServerDestroyed => Some false end.

(** Whether [stop] is called; on a server that is gone it must not be. *)
Definition handleSignal (server : option bool) : result bool :=
  match server with
  | None => Val false
  | Some true => Val true
  | Some false => Undef
  end.

Lemma keys_set (m : gmap nat nat) : list_to_set (map_to_list m).*1 = dom m.
Proof.
  apply set_eq. intros x. rewrite elem_of_list_to_set, list_elem_of_fmap, elem_of_dom. split.
  - intros ([f c] & -> & Hin%elem_of_map_to_list). by exists c.
  - intros [c Hc]. exists (x, c). by rewrite elem_of_map_to_list.
Qed.

Section Main.
Context {Ix Dx : Type} `{!KeyIndex Z nat Ix} `{!KeyIndexLaws Z nat Ix}.
Context `{!KeyIndex string SharedPtr Dx} `{!KeyIndexLaws string SharedPtr Dx}.
Context (pick : gset nat → nat) (ephemeral : Z).

(** What happened while the server lived: the service when the destructor has
    drained the pool, and what [run] threw. *)
Record session := mkSession { drainedService : service Ix Dx; thrown : option exn }.

Definition session_ok (se : session) : Prop :=
  rtc zstep (newService workerCount) (drainedService se) ∧ z_closed (drainedService se) = false ∧
  dtor (z_pool (drainedService se)) = DDone.

(** The kernel with the descriptors of clients: open, non-blocking, and watched
    while they are registered. *)
Definition withClients (s : server) (k : os) : os :=
  mkOs (dom (opened s) ∪ os_open k) (dom (opened s) ∪ os_nonblocking k) (os_bound k) (os_listening k)
    (dom (connections_ s) ∪ os_watched k) (os_results k).

(** The [try] block: the server is destroyed when it is left, by return or by an
    exception of [run]; a constructor that throws leaves no server. *)
Definition serveOn (port : Z) (se : session) : M os report := λ k,
  match openServer pick ephemeral port workerCount k with
  | Stuck => Stuck
  | Exn k' e => Ret k' (mkReport EXIT_FAILURE "" (fatal e))
  | Ret k' f =>
    let s := y_server (z_system (drainedService se)) in
    (closeServer (map_to_list (connections_ s)).*1 f;;
     mret (match thrown se with
           | None => mkReport EXIT_SUCCESS (greeting (port_ f) +:+ "CppDB shut down cleanly." +:+ newline) ""
           | Some e => mkReport EXIT_FAILURE (greeting (port_ f)) (fatal e)
           end)) (withClients s k')
  end.

Definition main (argv0 : string) (arg : option string) (se : session) : M os report :=
  port ← lift (portOf arg);
  match port with
  | None => mret (mkReport EXIT_FAILURE "" ("usage: " +:+ argv0 +:+ " [port]" +:+ newline))
  | Some port => serveOn port se
  end.

Hypothesis pick_fresh : ∀ o, pick o ∉ o.

(** The kernel gives clients numbers that are free. *)
Definition clients_fresh (port : Z) (se : session) (k : os) : Prop :=
  ∀ k1 f, openServer pick ephemeral port workerCount k = Ret k1 f →
    dom (opened (y_server (z_system (drainedService se)))) ## os_open k1.

Lemma serveOn_spec port se k :
  session_ok se → clients_fresh port se k →
  ∃ k' r, serveOn port se k = Ret k' r ∧
    (exitCode r = EXIT_SUCCESS ∧ errors r = "" ∨ exitCode r = EXIT_FAILURE ∧ ∃ e, errors r = fatal e) ∧
    match openServer pick ephemeral port workerCount k with
    | Ret k1 f => (exitCode r = EXIT_SUCCESS ↔ thrown se = None) ∧ os_open k' = os_open k
    | _ => exitCode r = EXIT_FAILURE
    end.
Proof.
  intros (Hz & Hcl & Hd) Hfr. assert (Hw : 0 < workerCount) by (unfold workerCount; lia).
  unfold serveOn. pose proof (openServer_spec pick ephemeral pick_fresh port workerCount k Hw) as Ho.
  destruct (openServer pick ephemeral port workerCount k) as [k1 f|k1 e|] eqn:E; [|by eauto 10|done].
  specialize (Hfr k1 f E). pose proof (zreach_reachable _ _ Hz) as H. unfold zreach in H. rewrite Hcl in H.
  pose proof (drained_tables _ (zinv_sinv _ _ _ H) (done_drained _ _ _ Hw H Hd)) as Ht.
  erewrite M_bind_run by apply closeServer_run. eexists _, _. split; [done|].
  split; [destruct (thrown _); eauto 10|]. split; [by destruct (thrown _)|]. simpl. rewrite <- Ht.
  rewrite (su_open _ _ _ _ _ Ho) in *. destruct (su_fresh _ _ _ _ _ Ho) as [_ Hf].
  assert (Hdis : list_to_set (fdsOf f) ## os_open k) by (intros x Hx%elem_of_list_to_set; by apply Hf).
  rewrite keys_set.
  clear -Hdis Hfr. set_solver.
Qed.

Lemma main_spec argv0 arg p se k :
  portOf arg = Val p → session_ok se → (∀ port, p = Some port → clients_fresh port se k) →
  ∃ k' r, main argv0 arg se k = Ret k' r ∧
    (exitCode r = EXIT_SUCCESS ∧ errors r = "" ∨ exitCode r = EXIT_FAILURE ∧ errors r ≠ "") ∧
    match p with
    | None => exitCode r = EXIT_FAILURE ∧ k' = k
    | Some port =>
      match openServer pick ephemeral port workerCount k with
      | Ret k1 f => (exitCode r = EXIT_SUCCESS ↔ thrown se = None) ∧ os_open k' = os_open k
      | _ => exitCode r = EXIT_FAILURE
      end
    end.
Proof.
  intros Hp Hok Hfr. unfold main. rewrite Hp. mrun. destruct p as [port|]; [|by eexists _, _; eauto 10].
  destruct (serveOn_spec port se k Hok (Hfr port eq_refl)) as (k' & r & Hr & He & Hx). exists k', r. split; [done|]. split; [|done].
  destruct He as [?|[? [e ->]]]; [by left|right]. done.
Qed.
End Main.

(** C20: What the program's exit code says.  However the service ran, where the
    argument is absent or [std::atoi] can read it (its number is in the range of
    [int]): [main] exits with 0 exactly when the port is valid, the server could be
    set up and [run] returned; otherwise with 1 and a message on the error stream.
    Once the server was set up, every descriptor it or a client opened is closed
    when [main] ends, also when [run] threw.  On an argument whose number an [int]
    cannot hold, [std::atoi] and with it [main] is undefined. *)
Theorem main_exit {Ix Dx : Type} `{!KeyIndex Z nat Ix} `{!KeyIndexLaws Z nat Ix}
    `{!KeyIndex string SharedPtr Dx} `{!KeyIndexLaws string SharedPtr Dx}
    (pick : gset nat → nat) (ephemeral : Z) (argv0 : string) (arg : option string) (se : session (Ix := Ix) (Dx := Dx)) (k : os) :
  (∀ o, pick o ∉ o) → session_ok se →
  (∀ port, portOf arg = Val (Some port) → clients_fresh pick ephemeral port se k) →
  match portOf arg with
  | Val p =>
    ∃ k' r, main pick ephemeral argv0 arg se k = Ret k' r ∧
      (exitCode r = EXIT_SUCCESS ∧ errors r = "" ∨ exitCode r = EXIT_FAILURE ∧ errors r ≠ "") ∧
      match p with
      | None => exitCode r = EXIT_FAILURE ∧ k' = k
      | Some port =>
        match openServer pick ephemeral port workerCount k with
        | Ret k1 f => (exitCode r = EXIT_SUCCESS ↔ thrown se = None) ∧ os_open k' = os_open k
        | _ => exitCode r = EXIT_FAILURE
        end
      end
  | Throw _ => False
  | Undef => main pick ephemeral argv0 arg se k = Stuck
  end.
Proof.
  intros Hp Hok Hfr. destruct (portOf arg) as [p|e|] eqn:Ha.
  - apply main_spec; [done..|]. intros port ->. by apply Hfr.
  - by apply portOf_no_throw in Ha.
  - unfold main. by rewrite Ha.
Qed.

(** A signal that comes after the server is gone finds a dangling pointer. *)
Theorem late_signal (pt : mainPoint) : handleSignal (g_server pt) = Undef ↔ pt = ServerDestroyed.
Proof. by destruct pt. Qed.

(** ** Witness: a client connects, and the server is destroyed *)
#[local] Instance entryZ : KeyIndex Z nat (HashMap Z nat) := HashMap_index Z.to_N.
#[local] Instance entryZ_laws : KeyIndexLaws Z nat (HashMap Z nat) := HashMap_index_laws Z.to_N.
#[local] Instance entryS : KeyIndex string SharedPtr (HashMap string SharedPtr) := HashMap_index length_hash.
#[local] Instance entryS_laws : KeyIndexLaws string SharedPtr (HashMap string SharedPtr) := HashMap_index_laws length_hash.

Ltac zworker i :=
  znext ltac:(right; eapply z_between; [eapply (p_exit i); try vm_each|by repeat split
    |by intros ([|[|[|[|j]]]] & ? & ?); simplify_eq/=|by intros [? ?]; simplify_eq/=]).

Lemma demo_service_run :
  ∃ z : service (HashMap Z nat) (HashMap string SharedPtr),
    rtc zstep (newService workerCount) z ∧ z_closed z = false ∧ dtor (z_pool z) = DDone ∧
    opened (y_server (z_system z)) = {[100 := 0]}.
Proof.
  eexists. split.
  { zclient ltac:(apply (s_accept 100 0)).
    znext ltac:(left; apply z_destroy; [apply p_stop|split; [reflexivity|discriminate]|]).
    zbetween ltac:(apply p_notify_all). zworker 0. zworker 1. zworker 2. zworker 3.
    zbetween ltac:(apply p_join; by repeat constructor). apply rtc_refl. }
  by vm_compute.
Qed.

Lemma main_exit_witness :
  ∃ se k' r, main (Ix := HashMap Z nat) (Dx := HashMap string SharedPtr) fresh 49152 "cppdb" None se (demo_os []) = Ret k' r ∧
    exitCode r = EXIT_SUCCESS ∧ os_open k' = {[0; 1; 2]}.
Proof.
  destruct demo_service_run as (z & Hz & Hc & Hd & Ho). exists (mkSession z None).
  destruct (main_exit fresh 49152 "cppdb" None (mkSession z None) (demo_os [])) as (k' & r & Hr & _ & Hx);
    [apply is_fresh|done| |].
  - intros port [= <-] k1 f H. simpl. rewrite Ho. vm_compute in H. injection H as <- _. decides.
  - exists k', r. split; [done|]. destruct (openServer fresh 49152 5432 workerCount (demo_os [])) as [k1 f|k1 e|] eqn:E; [|by vm_compute in E..].
    split; [by apply Hx|apply Hx].
Defined.
