(* ===== verification/Bench.v ===== *)
(** * Benchmarks of one thread (bench/bench.cpp)

    What [benchAllocator], [benchLookup] and [benchLruCache] do with the
    components they measure.  The sizes are arguments, the random keys any keys
    of the range that the code draws them from; clocks and printing are left out. *)

From S2P Require Import Prelude AssocList CxxStd Schema Row BTree BTreeShape BTreeInsert BTreeQuery HashMap KeyIndex HashMapSpec LRUCache PoolAllocator.
From S2P Require Import UniquePtr Table TableSpec RowMain.

(** ** [benchAllocator] *)
Record RowBlock := mkRowBlock { id : Z; payload : list Z }.

(** [RowBlock{}] *)
Definition zeroBlock : RowBlock := mkRowBlock 0 (replicate 56 0%Z).
Definition sizeRowBlock : N := 64.
Definition alignRowBlock : N := 8.

(** [for (i...) ptrs[i] = pool.allocate()] *)
Fixpoint allocateAll (n : nat) : M PoolAllocator (list N) :=
  match n with
  | 0 => mret []
  | S n' =>
    p ← allocate sizeRowBlock alignRowBlock (Val zeroBlock);
    ps ← allocateAll n';
    mret (p :: ps)
  end.

Definition poolRound (kBatch : nat) : M PoolAllocator unit :=
  ptrs ← allocateAll kBatch;
  forM ptrs (λ p, deallocate sizeRowBlock alignRowBlock (Some p)).

Definition benchAllocator (newAt : N) (kOps kBatch : nat) : result (PoolAllocator (T := RowBlock)) :=
  pool ← makePool sizeRowBlock alignRowBlock newAt (N.of_nat kBatch);
  match forM (seq 0 (kOps / kBatch)) (λ _, poolRound kBatch) pool with
  | Ret pool' _ => Val pool'
  | Exn _ e => Throw e
  | Stuck => Undef
  end.

(** The baseline: [ptrs[i] = new RowBlock{}], then [delete ptrs[i]]. *)
Fixpoint newAll (n : nat) : M (UHeap RowBlock) (list nat) :=
  match n with
  | 0 => mret []
  | S n' =>
    p ← unew zeroBlock;
    ps ← newAll n';
    mret (p :: ps)
  end.

Definition newRound (kBatch : nat) : M (UHeap RowBlock) unit :=
  ptrs ← newAll kBatch;
  forM ptrs (λ p, udelete (Some p)).

Definition newDelete (kOps kBatch : nat) : M (UHeap RowBlock) unit := forM (seq 0 (kOps / kBatch)) (λ _, newRound kBatch).

Definition zeroAll (m : gmap nat RowBlock) (ptrs : list nat) : gmap nat RowBlock := foldl (λ m p, <[p:=zeroBlock]> m) m ptrs.

Lemma zeroAll_first m p ptrs : p ∉ ptrs → zeroAll (<[p:=zeroBlock]> m) ptrs = <[p:=zeroBlock]> (zeroAll m ptrs).
Proof.
  revert m. induction ptrs as [|q ptrs IH]; intros m Hn; [done|]. apply not_elem_of_cons in Hn as [Hne Hn]. unfold zeroAll in *. simpl.
  rewrite (insert_insert_ne m) by done. by apply IH.
Qed.

Lemma zeroAll_other m p ptrs : m !! p = None → p ∉ ptrs → zeroAll m ptrs !! p = None.
Proof.
  revert m. induction ptrs as [|q ptrs IH]; intros m Hm Hn; [done|]. apply not_elem_of_cons in Hn as [Hne Hn]. unfold zeroAll in *. simpl.
  apply IH; [|done]. by rewrite lookup_insert_ne.
Qed.

Lemma newAll_spec n m a : newAll n (mkUHeap m a) = Ret (mkUHeap (zeroAll m (seq a n)) (a + n)) (seq a n).
Proof.
  revert m a. induction n as [|n IH]; intros m a; cbn [newAll seq]; [mrun; by rewrite Nat.add_0_r|].
  assert (Hnew : unew zeroBlock (mkUHeap m a) = Ret (mkUHeap (<[a:=zeroBlock]> m) (S a)) a) by (unfold unew; by mrun).
  erewrite M_bind_run by exact Hnew. erewrite M_bind_run by apply IH. mrun. by rewrite Nat.add_succ_comm.
Qed.

Lemma deleteAll_spec ptrs m a :
  NoDup ptrs → (∀ p, p ∈ ptrs → m !! p = None) →
  forM ptrs (λ p, udelete (Some p)) (mkUHeap (zeroAll m ptrs) a) = Ret (mkUHeap m a) ().
Proof.
  induction ptrs as [|p ptrs IH]; intros Hnd Hnew; [done|]. apply NoDup_cons in Hnd as [Hp Hnd]. cbn [forM].
  change (zeroAll m (p :: ptrs)) with (zeroAll (<[p:=zeroBlock]> m) ptrs). rewrite zeroAll_first by done.
  assert (Hd : udelete (Some p) (mkUHeap (<[p:=zeroBlock]> (zeroAll m ptrs)) a) = Ret (mkUHeap (zeroAll m ptrs) a) ()).
  { unfold udelete. mrun. simpl. rewrite lookup_insert_eq. mrun. simpl. rewrite delete_insert_id; [done|].
    apply zeroAll_other; [|done]. apply Hnew. by left. }
  erewrite M_bind_run by exact Hd. apply IH; [done|]. intros q Hq. apply Hnew. by right.
Qed.

(** A round leaves the heap as it found it. *)
Lemma newRound_spec kBatch (m : gmap nat RowBlock) a :
  (∀ p, a ≤ p → m !! p = None) → newRound kBatch (mkUHeap m a) = Ret (mkUHeap m (a + kBatch)) ().
Proof.
  intros Hf. unfold newRound. erewrite M_bind_run by apply newAll_spec. apply deleteAll_spec; [apply NoDup_seq|].
  intros p Hp%elem_of_seq. apply Hf. lia.
Qed.

Theorem newDelete_spec kOps kBatch : ∃ a, newDelete kOps kBatch (mkUHeap ∅ 0) = Ret (mkUHeap ∅ a) ().
Proof.
  unfold newDelete. generalize 0 at 2. induction (seq 0 (kOps / kBatch)) as [|r l IH]; intros a; [by exists a|]. cbn [forM].
  erewrite M_bind_run by (by apply newRound_spec). apply IH.
Qed.

Lemma allocateAll_spec n (p : PoolAllocator (T := RowBlock)) a fl live :
  pool_ok sizeRowBlock alignRowBlock p a fl live → n ≤ length fl →
  ∃ p' a' live', allocateAll n p = Ret p' (take n fl) ∧ pool_ok sizeRowBlock alignRowBlock p' a' (drop n fl) live' ∧
    (∀ addr, is_Some (live' !! addr) ↔ addr ∈ take n fl ∨ is_Some (live !! addr)) ∧ capacity_ p' = capacity_ p.
Proof.
  revert p a fl live. induction n as [|n IH]; intros p a fl live Hp Hn; simpl.
  - exists p, a, live. split_and!; [done|by rewrite drop_0| |done]. intros addr. rewrite take_0, elem_of_nil. tauto.
  - destruct fl as [|node fl]; [simpl in Hn; lia|]. simpl in Hn.
    destruct (allocate_spec sizeRowBlock alignRowBlock ltac:(done) p a (node :: fl) live (Val zeroBlock) Hp) as (p1 & a1 & Hrun & Hp1 & _ & _ & Hc).
    erewrite M_bind_run by done. destruct (IH _ _ _ _ Hp1 ltac:(lia)) as (p2 & a2 & live2 & Hrun2 & Hp2 & Hl & Hc2).
    erewrite M_bind_run by done. mrun. exists p2, a2, live2. split_and!; [done|done| |congruence].
    intros addr. rewrite Hl, lookup_insert_is_Some'. cbn [take]. rewrite elem_of_cons. intuition congruence.
Qed.

Lemma deallocateAll_spec ptrs (p : PoolAllocator (T := RowBlock)) a fl live :
  pool_ok sizeRowBlock alignRowBlock p a fl live → NoDup ptrs → (∀ addr, addr ∈ ptrs → is_Some (live !! addr)) →
  ∃ p' a' live', forM ptrs (λ q, deallocate sizeRowBlock alignRowBlock (Some q)) p = Ret p' () ∧
    pool_ok sizeRowBlock alignRowBlock p' a' (reverse ptrs ++ fl) live' ∧
    (∀ addr, is_Some (live' !! addr) ↔ addr ∉ ptrs ∧ is_Some (live !! addr)) ∧ capacity_ p' = capacity_ p.
Proof.
  revert p a fl live. induction ptrs as [|q ptrs IH]; intros p a fl live Hp Hnd Hl; simpl.
  - exists p, a, live. split_and!; [done|done| |done]. intros addr. pose proof (not_elem_of_nil addr). tauto.
  - apply NoDup_cons in Hnd as [Hq Hnd]. destruct (Hl q) as [x Hx]; [by left|].
    destruct (deallocate_spec sizeRowBlock alignRowBlock ltac:(done) p a fl live q x Hp Hx) as (p1 & a1 & Hrun & Hp1 & _ & Hc).
    erewrite M_bind_run by done. destruct (IH _ _ _ _ Hp1 Hnd) as (p2 & a2 & live2 & Hrun2 & Hp2 & Hl2 & Hc2).
    { intros addr Ha. rewrite lookup_delete_is_Some. split; [by intros ->|]. apply Hl. by right. }
    exists p2, a2, live2. split_and!; [done|by rewrite reverse_cons, <- (assoc_L (++))| |congruence].
    intros addr. rewrite Hl2, lookup_delete_is_Some, not_elem_of_cons. intuition congruence.
Qed.

(** A round gives back every block that it took. *)
Lemma poolRound_spec (p : PoolAllocator (T := RowBlock)) a fl :
  pool_ok sizeRowBlock alignRowBlock p a fl ∅ →
  ∃ p' a' fl', poolRound (length fl) p = Ret p' () ∧ pool_ok sizeRowBlock alignRowBlock p' a' fl' ∅ ∧
    fl' ≡ₚ fl ∧ capacity_ p' = capacity_ p.
Proof.
  intros Hp. destruct (allocateAll_spec (length fl) p a fl ∅ Hp) as (p1 & a1 & live1 & Hrun & Hp1 & Hl & Hc1); [done|].
  rewrite take_ge in Hrun, Hl by done. rewrite drop_ge in Hp1 by done. unfold poolRound. erewrite M_bind_run by done.
  destruct (deallocateAll_spec fl p1 a1 [] live1 Hp1) as (p2 & a2 & live2 & Hrun2 & Hp2 & Hl2 & Hc2).
  { apply (po_nodup _ _ _ _ _ _ Hp). } { intros addr Ha. apply Hl. by left. }
  assert (live2 = ∅) as ->.
  { apply map_empty. intros addr. apply eq_None_not_Some. rewrite Hl2, Hl, lookup_empty. intros [Hn [?|[? ?]]]; done. }
  exists p2, a2, (reverse fl ++ []). split_and!; [done|done| |congruence]. by rewrite app_nil_r, reverse_Permutation.
Qed.

Lemma benchAllocator_spec newAt kOps kBatch :
  0 < kBatch → (N.of_nat kBatch * 64 < 2 ^ 64)%N →
  ∃ pool, benchAllocator newAt kOps kBatch = Val pool ∧ inUse pool = 0%N ∧ available pool = N.of_nat kBatch.
Proof.
  intros Hpos Hlt. destruct (makePool_spec (T := RowBlock) sizeRowBlock alignRowBlock ltac:(done) newAt (N.of_nat kBatch) ltac:(lia) Hlt)
    as (p & a & Hm & Hp & _ & Hcap). unfold benchAllocator. rewrite Hm. cbn [mbind result_bind].
  assert (Hlen : length (addrs sizeRowBlock alignRowBlock newAt 0 (N.to_nat (N.of_nat kBatch))) = kBatch).
  { unfold addrs. rewrite length_fmap, length_seq. lia. }
  revert Hlen Hp. generalize (addrs sizeRowBlock alignRowBlock newAt 0 (N.to_nat (N.of_nat kBatch))). intros fl Hlen Hp.
  enough (∃ p' a' fl', forM (seq 0 (kOps / kBatch)) (λ _, poolRound kBatch) p = Ret p' () ∧
    pool_ok sizeRowBlock alignRowBlock p' a' fl' ∅ ∧ capacity_ p' = N.of_nat kBatch) as (p' & a' & fl' & -> & Hp' & Hc').
  { exists p'. pose proof (po_inUse _ _ _ _ _ _ Hp') as Hu. rewrite map_size_empty in Hu. simpl in Hu.
    split; [done|]. split; [done|]. unfold available, PoolAllocator.wrap. rewrite Hu, Hc'. symmetry. apply (N.mod_unique _ _ 1); lia. }
  clear Hm. revert p a fl Hp Hcap Hlen. generalize (seq 0 (kOps / kBatch)).
  intros rounds. induction rounds as [|r rounds IH]; intros p a fl Hp Hcap Hlen; simpl; [by exists p, a, fl|].
  destruct (poolRound_spec p a fl Hp) as (p1 & a1 & fl1 & Hrun & Hp1 & Hperm & Hc1). rewrite Hlen in Hrun.
  erewrite M_bind_run by done. apply (IH p1 a1 fl1); [done|congruence|by rewrite Hperm].
Qed.

(** ** [benchLookup] *)

(** [sink += v] on [std::int64_t], whose overflow is undefined. *)
Definition addTo (sink v : Z) : result Z := if decide (is_int64 (sink + v)) then Val (sink + v)%Z else Undef.

(** The linear scan: the first entry with the key. *)
Fixpoint scanFor (key : Z) (flat : list (Z * Z)) (sink : Z) : result Z :=
  match flat with
  | [] => Val sink
  | (k, v) :: rest => if bool_decide (k = key) then addTo sink v else scanFor key rest sink
  end.

(** [sink += *tree.search(key)] *)
Definition searchFor (tree : BTree Z Z) (sink key : Z) : result Z :=
  p ← search tree key; v ← deref p; addTo sink v.

Definition fillTree (kRows : Z) : result (list (Z * Z) * BTree Z Z) :=
  tree ← makeBTree 16;
  foldR (λ s i, '(tree, _) ← BTree.insert s.2 i i; Val (s.1 ++ [(i, i)], tree)) ([], tree) (seqZ 0 kRows).

(** What ends up in [sink]. *)
Definition benchLookup (kRows : Z) (targets : list Z) : result Z :=
  '(flat, tree) ← fillTree kRows;
  scanned ← foldR (λ sink key, scanFor key flat sink) 0%Z targets;
  foldR (searchFor tree) scanned targets.

Definition sumZ (l : list Z) : Z := foldr Z.add 0%Z l.

(** Every entry has its key as its value. *)
Definition diagonal (l : list (Z * Z)) : Prop := ∀ k, k ∈ l.*1 → al_lookup k l = Some k.

Lemma diagonal_insert k l : ksorted l → diagonal l → diagonal (al_insert k k l) ∧ k ∈ (al_insert k k l).*1 ∧ l.*1 ⊆ (al_insert k k l).*1.
Proof.
  intros Hs Hd. assert (Hkeys : ∀ k', k' ∈ (al_insert k k l).*1 ↔ is_Some (al_lookup k' (al_insert k k l))).
  { intros k'. rewrite <- not_eq_None_Some, al_lookup_None. destruct (decide (k' ∈ (al_insert k k l).*1)); tauto. }
  assert (Hold : ∀ k', k' ∈ l.*1 → al_lookup k' (al_insert k k l) = Some k') by (intros k' Hk'; by apply al_lookup_insert_stays, Hd).
  assert (Hnew : al_lookup k (al_insert k k l) = Some k).
  { destruct (decide (k ∈ l.*1)) as [Hin|Hin%al_lookup_None]; [by apply Hold|]. rewrite al_lookup_insert by done.
    by rewrite (proj2 (keqb_eq k k)). }
  split_and!.
  - intros k' (e & -> & He)%list_elem_of_fmap. apply al_insert_elem in He as [->|He]; [done|].
    apply Hold. by apply list_elem_of_fmap_2.
  - apply Hkeys. by rewrite Hnew.
  - intros k' Hk'. apply Hkeys. by rewrite Hold.
Qed.

Lemma fill_spec keys flat (tree : BTree Z Z) l :
  represents tree l → degree_fits (t_ tree) → diagonal l →
  ∃ tree' l', foldR (λ s i, '(tree, _) ← BTree.insert s.2 i i; Val (s.1 ++ [(i, i)], tree)) (flat, tree) keys =
      Val (flat ++ ((λ i, (i, i)) <$> keys), tree') ∧ represents tree' l' ∧ diagonal l' ∧
    keys ⊆ l'.*1 ∧ l.*1 ⊆ l'.*1.
Proof.
  revert flat tree l. induction keys as [|i keys IH]; intros flat tree l Ht Hfit Hd; simpl.
  - exists tree, l. rewrite app_nil_r. split_and!; [done|done|done|apply list_subseteq_nil|done].
  - destruct (insert_spec tree l i i Ht Hfit) as (t1 & -> & Ht1 & Hdeg). cbn [mbind result_bind fst snd].
    destruct (diagonal_insert i l) as (Hd1 & Hi & Hsub); [apply Ht|done|].
    destruct (IH (flat ++ [(i, i)]) t1 _ Ht1) as (t2 & l2 & -> & Ht2 & Hd2 & Hk & Hl); [by rewrite Hdeg|done|]. exists t2, l2.
    rewrite <- (assoc_L (++)). split_and!; [done|done|done| |by etrans].
    intros k [->|Hin]%elem_of_cons; [by apply Hl|by apply Hk].
Qed.

Lemma scanFor_spec key keys sink :
  key ∈ keys → scanFor key ((λ i, (i, i)) <$> keys) sink = addTo sink key.
Proof.
  induction keys as [|i keys IH]; [by intros ?%elem_of_nil|]. intros Hin. simpl. case_bool_decide as Hc; [by subst|].
  apply IH. by apply elem_of_cons in Hin as [?|?].
Qed.

Lemma addTo_all (f : Z → Z → result Z) targets sink :
  (∀ s k, k ∈ targets → f s k = addTo s k) → Forall (λ k, 0 ≤ k)%Z targets → (0 ≤ sink)%Z →
  (sink + sumZ targets ≤ INT64_MAX)%Z → foldR f sink targets = Val (sink + sumZ targets)%Z.
Proof.
  intros Hf Hpos. revert sink. induction Hpos as [|k targets Hk Hpos IH]; intros sink Hs Hmax; simpl in *; [by rewrite Z.add_0_r|].
  assert (0 ≤ sumZ targets)%Z by (clear -Hpos; induction Hpos; simpl; lia).
  rewrite Hf by (by left). unfold addTo. rewrite decide_True by (unfold is_int64, INT64_MIN; lia). cbn [mbind result_bind].
  rewrite IH; [f_equal; lia| |lia|lia]. intros s k' Hk'. apply Hf. by right.
Qed.

Lemma benchLookup_spec kRows targets :
  (0 ≤ kRows)%Z → Forall (λ k, 0 ≤ k < kRows)%Z targets → (2 * (kRows * Z.of_nat (length targets)) ≤ INT64_MAX)%Z →
  benchLookup kRows targets = Val (2 * sumZ targets)%Z.
Proof.
  intros Hrows Hin Hmax. unfold benchLookup, fillTree.
  assert (represents (mkBTree None 16 0 : BTree Z Z) []) as Hr by (split; [simpl; lia|split; [constructor|done]]).
  change (makeBTree 16) with (Val (mkBTree None 16 0 : BTree Z Z)). cbn [mbind result_bind].
  destruct (fill_spec (seqZ 0 kRows) [] _ [] Hr) as (tree & l & -> & Ht & Hd & Hk & _); [done|by intros k ?%elem_of_nil|].
  cbn [mbind result_bind app].
  assert (Hpos : Forall (λ k, 0 ≤ k)%Z targets) by (eapply Forall_impl; [done|simpl; lia]).
  assert (Hsum : (0 ≤ sumZ targets ≤ kRows * Z.of_nat (length targets))%Z).
  { clear -Hin. induction Hin as [|k targets Hk _ IH]; simpl; lia. }
  assert (Hmem : ∀ k, k ∈ targets → k ∈ seqZ 0 kRows).
  { intros k Hx. rewrite Forall_forall in Hin. apply elem_of_seqZ. specialize (Hin k Hx). lia. }
  rewrite (addTo_all _ targets 0); [|intros s k Hx; by apply scanFor_spec, Hmem|done|lia|lia]. cbn [mbind result_bind].
  rewrite (addTo_all _ targets); [f_equal; lia| |done|lia|lia].
  intros s k Hx. unfold searchFor. rewrite (search_spec tree l) by done. by rewrite (Hd k) by auto.
Qed.

(** ** [benchLruCache] *)
Definition userSchema : result Schema :=
  s ← addColumn (mkSchema []) "id" INT; addColumn s "name" TEXT.

Section Cache.
Context {Ix : Type} `{!KeyIndex Z nat Ix} `{!KeyIndexLaws Z nat Ix}.
Abbreviation T := (Table Ix).

Definition insertUser (i : Z) : M T unit :=
  t ← get_state;
  row ← lift (Table.makeRow t);
  row1 ← lift (Row.set row "id" (to_string i));
  row2 ← lift (Row.set row1 "name" ("user" +:+ to_string i));
  insert row2;;
  mret ().

(** The counters at the end. *)
Definition benchLruCache (kRows : Z) (reads : list Z) : result (N * N) :=
  s ← userSchema;
  t ← makeTable (Ix := Ix) s 1000;
  match (forM (seqZ 0 kRows) insertUser;;
         forM reads (λ id, findById id;; mret ());;
         h ← cacheHits; m ← cacheMisses; mret (h, m)) t with
  | Ret _ r => Val r
  | Exn _ e => Throw e
  | Stuck => Undef
  end.

Definition usersSchema : Schema := mkSchema [mkColumn "id" INT; mkColumn "name" TEXT].
Definition counters (t : T) : N * N := (hits_ (cache_ t), misses_ (cache_ t)).

Lemma insert_cache (row : Row) (t t' : T) b : insert row t = Ret t' b → cache_ t' = cache_ t.
Proof.
  unfold insert. mrun. destruct (Row.schema row) as [rs| |]; trun; try done. case_bool_decide; [done|].
  destruct (validate (Table.schema_ t) row) as [[]| |]; trun; try done. destruct (getInt row kIdColumn) as [id'| |]; trun; try done.
  destruct (BTree.insert (rows_ t) id' row) as [[rows ins]| |]; trun; try done. unfold setRows. mrun. by intros [= <- _].
Qed.

Lemma insertUser_spec t l i :
  table_ok t l → Table.schema_ t = usersSchema → is_int64 i →
  ∃ t' l', insertUser i t = Ret t' () ∧ table_ok t' l' ∧ Table.schema_ t' = usersSchema ∧ cache_ t' = cache_ t.
Proof.
  intros Ht Hs Hi. set (cells := [("id", to_string i); ("name", "user" +:+ to_string i)]).
  pose proof (buildRow_spec usersSchema cells) as Hb.
  assert (Hfit : forallb (λ a, literal_fits usersSchema a.1 a.2) cells = true).
  { unfold cells, literal_fits, usersSchema. simpl. rewrite !andb_true_iff. split_and!; [|done..].
    apply isValid_int. exists i. by apply from_to_string. }
  rewrite Hfit in Hb. destruct Hb as [Hb Hr]. unfold insertUser. mrun. unfold Table.makeRow. rewrite Hs.
  unfold buildRow in Hb. destruct (Row.makeRow (Some usersSchema)) as [r0| |]; cbn [mbind result_bind] in Hb; [|done..]. mrun.
  unfold cells in Hb. cbn [foldR fst snd] in Hb.
  destruct (Row.set r0 "id" (to_string i)) as [r1| |]; cbn [mbind result_bind] in Hb; [|done..]. mrun.
  destruct (Row.set r1 "name" ("user" +:+ to_string i)) as [r2| |]; cbn [mbind result_bind] in Hb; [|done..]. mrun.
  injection Hb as ->. pose proof (insert_row_spec t l _ usersSchema Ht Hr) as Hins.
  rewrite decide_True in Hins by (by rewrite Hs). destruct Hins as [Hfull _].
  destruct Hfull as (id & t' & _ & _ & _ & Hrun & Ht' & Hs').
  { apply is_full_spec. unfold applySets. simpl. done. }
  erewrite M_bind_run by done. mrun. eexists t', _. split_and!; [done|done|by rewrite Hs'|by eapply insert_cache].
Qed.

Lemma fillUsers_spec ids t l :
  table_ok t l → Table.schema_ t = usersSchema → Forall is_int64 ids →
  ∃ t' l', forM ids insertUser t = Ret t' () ∧ table_ok t' l' ∧ Table.schema_ t' = usersSchema ∧ cache_ t' = cache_ t.
Proof.
  intros Ht Hs Hi. revert t l Ht Hs. induction Hi as [|i ids Hi _ IH]; intros t l Ht Hs; [by exists t, l|]. simpl.
  destruct (insertUser_spec t l i Ht Hs Hi) as (t1 & l1 & Hrun & Ht1 & Hs1 & Hc1). erewrite M_bind_run by done.
  destruct (IH t1 l1 Ht1 Hs1) as (t2 & l2 & Hrun2 & Ht2 & Hs2 & Hc2). exists t2, l2. split_and!; [done|done|done|congruence].
Qed.

(** A read counts once. *)
Lemma findById_counts t l id :
  table_ok t l →
  ∃ t' r, findById id t = Ret t' r ∧ table_ok t' l ∧
    (counters t' = (incr (counters t).1, (counters t).2) ∨ counters t' = ((counters t).1, incr (counters t).2)).
Proof.
  intros Ht. destruct (findById_spec t l id Ht) as (t' & Hrun & Ht' & _). exists t', (al_lookup id l). split; [done|]. split; [done|].
  destruct (to_cache _ _ _ Ht) as (cl & Hcl & Hco). unfold findById in Hrun. revert Hrun. trun.
  destruct (lru_get_spec (cache_ t) cl id Hcl) as (c' & -> & Hc' & _ & Hh & Hm). trun.
  destruct (ref_get id cl).1 as [r|]; trun.
  - intros [= <- _]. left. unfold counters. simpl. by rewrite Hh, Hm.
  - rewrite (search_spec (rows_ t) l) by apply Ht. trun. right. revert Hrun. destruct (al_lookup id l) as [r|]; trun.
    + destruct (lru_put_spec c' _ id r Hc') as (c2 & -> & _ & _ & Hh2 & Hm2). trun. intros [= <-]. unfold counters. simpl.
      by rewrite Hh2, Hm2, Hh, Hm.
    + intros [= <-]. unfold counters. simpl. by rewrite Hh, Hm.
Qed.

Lemma reads_spec reads t l :
  table_ok t l → ((counters t).1 + (counters t).2 + N.of_nat (length reads) < 2 ^ 64)%N →
  ∃ t', forM reads (λ id, findById id;; mret ()) t = Ret t' () ∧ table_ok t' l ∧
    ((counters t').1 + (counters t').2 = (counters t).1 + (counters t).2 + N.of_nat (length reads))%N.
Proof.
  revert t. induction reads as [|id reads IH]; intros t Ht Hlt; cbn [forM length] in *; rewrite ?Nat2N.inj_succ in *.
  - exists t. split_and!; [done|done|simpl; lia].
  - destruct (findById_counts t l id Ht) as (t1 & r & Hrun & Ht1 & Hc). erewrite M_bind_run by (by erewrite M_bind_run).
    assert (Hsum : ((counters t1).1 + (counters t1).2 = (counters t).1 + (counters t).2 + 1)%N).
    { destruct Hc as [-> | ->]; unfold incr; cbn [fst snd]; rewrite N.mod_small by lia; lia. }
    destruct (IH t1 Ht1) as (t2 & Hrun2 & Ht2 & Hc2); [lia|]. exists t2. split_and!; [done|done|lia].
Qed.

Lemma makeTable_counters s cap (t : T) : makeTable s cap = Val t → counters t = (0, 0)%N.
Proof.
  unfold makeTable, makeLRUCache. simpl. destruct (bool_decide (cap = 0%N)); simpl; [done|]. repeat case_match; simpl; try done;
    by intros [= <-].
Qed.

Lemma benchLruCache_spec kRows reads :
  (kRows ≤ INT64_MAX)%Z → (N.of_nat (length reads) < 2 ^ 64)%N →
  ∃ h m, benchLruCache kRows reads = Val (h, m) ∧ (h + m = N.of_nat (length reads))%N.
Proof.
  intros Hrows Hlen. unfold benchLruCache. change userSchema with (Val usersSchema). cbn [mbind result_bind].
  pose proof (makeTable_spec (Ix := Ix) usersSchema 1000 ltac:(decides) ltac:(lia)) as Hm. simpl in Hm.
  destruct Hm as (t & Hm & Ht & Hs). rewrite Hm. cbn [mbind result_bind].
  assert (Hz : counters t = (0, 0)%N) by (eapply makeTable_counters; done).
  destruct (fillUsers_spec (seqZ 0 kRows) t [] Ht Hs) as (t1 & l1 & Hrun1 & Ht1 & _ & Hc1).
  { apply Forall_forall. intros i Hi%elem_of_seqZ. unfold is_int64, INT64_MIN. lia. }
  erewrite M_bind_run by done. assert (Hz1 : counters t1 = (0, 0)%N) by (unfold counters in *; by rewrite Hc1).
  destruct (reads_spec reads t1 l1 Ht1) as (t2 & Hrun2 & Ht2 & Hc2); [rewrite Hz1; simpl; lia|].
  erewrite M_bind_run by done. unfold cacheHits, cacheMisses. mrun. eexists _, _. split; [done|].
  rewrite Hz1 in Hc2. unfold counters in Hc2. cbn [fst snd] in Hc2. unfold LRUCache.hits, LRUCache.misses. lia.
Qed.
End Cache.

(** ** The sizes of the code *)
Definition kOps : nat := N.to_nat 1000000.
Definition kBatch : nat := 1000.
Definition kRows : Z := 100000.
Definition kLookups : nat := 2000.
Definition kReads : nat := N.to_nat 200000.

(** The benchmarks of one thread measure what they say.  No allocation of
    [benchAllocator] fails, and at the end all blocks are free; every key of
    [benchLookup] is found by the scan and by the tree, with its value, and the
    sum does not overflow; every read of [benchLruCache] counts as a hit or as a
    miss, so that the hit rate is a quotient by the number of reads. *)
Theorem bench_local (hash : Z → N) (newAt : N) :
  (∃ pool, benchAllocator newAt kOps kBatch = Val pool ∧ inUse pool = 0%N ∧ available pool = 1000%N) ∧
  (∀ targets, length targets = kLookups → Forall (λ k, 0 ≤ k < kRows)%Z targets →
     benchLookup kRows targets = Val (2 * sumZ targets)%Z) ∧
  (∀ reads, length reads = kReads →
     ∃ h m, benchLruCache (KeyIndex0 := HashMap_index hash) kRows reads = Val (h, m) ∧ (h + m = 200000)%N).
Proof.
  split_and!.
  - apply (benchAllocator_spec newAt kOps kBatch); unfold kBatch; lia.
  - intros targets Hl Hin. apply benchLookup_spec; [done|done|]. rewrite Hl. unfold kRows, kLookups, INT64_MAX. lia.
  - intros reads Hl. pose proof (HashMap_index_laws (V := nat) hash) as Hlaws.
    destruct (benchLruCache_spec (KeyIndex0 := HashMap_index hash) kRows reads) as (h & m & Hrun & Hs);
      [unfold kRows, INT64_MAX; lia|rewrite Hl; unfold kReads; lia|].
    exists h, m. split; [done|]. rewrite Hs, Hl. unfold kReads. lia.
Qed.
