(* ===== verification/BenchClients.v ===== *)
(** * Benchmarks of the server's clients (bench/bench.cpp)

    [benchConcurrentClients]: a table is created, then clients insert rows with
    ids of their own, each client one query after the other, and count the
    replies that say OK.  Between a client and its query is the server, which
    hands queries and replies on in order ([SystemMain.clients_see_one_order]);
    here a client's query is a call of the executor.  ([BenchServer] has the server in
    between.) *)

From S2P Require Import Prelude AssocList CxxStd Schema Row KeyIndex LRUCache Table TableSpec SharedPtr Database DatabaseSpec.
From S2P Require Import HashMap HashMapSpec Ast Parser ParserSpec QueryExecutor QueryConcurrent QueryRef QueryLinear QueryLinearSpec QueryProgress SystemSpec SystemLive.

Definition kClients : nat := 50.
Definition kQueriesEach : nat := 20.

Definition createUsers : string := "CREATE TABLE users (id INT, name TEXT)".
Definition insertQuery (id : Z) : string := "INSERT INTO users (id, name) VALUES (" +:+ to_string id +:+ ", 'u')".

(** A client: how many queries it has done, and the call it waits for. *)
Abbreviation client := (nat * option nat)%type.

Section Clients.
Context {Ix Dx : Type} `{!KeyIndex Z nat Ix} `{!KeyIndexLaws Z nat Ix}.
Context `{!KeyIndex string SharedPtr Dx} `{!KeyIndexLaws string SharedPtr Dx}.
Abbreviation W := (qworld Ix Dx).

Record bench := mkBench { b_world : W; b_clients : list client; okCount : nat }.

Definition startClients (w : W) : bench := mkBench w (replicate kClients (0, None)) 0.

(** The query of client [c] after [i] others. *)
Definition queryOf (c i : nat) : string := insertQuery (Z.of_nat (c * kQueriesEach + i)).

Inductive bstep : bench → bench → Prop :=
  | b_send c i w w' cls ok :
      cls !! c = Some (i, None) → i < kQueriesEach →
      QueryConcurrent.qstep w w' → w_hist w' = w_hist w ++ [ECall (w_next w) (queryOf c i)] →
      bstep (mkBench w cls ok) (mkBench w' (<[c:=(i, Some (w_next w))]> cls) ok)
  | b_serve w w' cls ok :
      QueryConcurrent.qstep w w' → w_hist w' = w_hist w → bstep (mkBench w cls ok) (mkBench w' cls ok)
  | b_reply c i id r w w' cls ok :
      cls !! c = Some (i, Some id) → QueryConcurrent.qstep w w' → w_hist w' = w_hist w ++ [EReturn id r] →
      bstep (mkBench w cls ok)
        (mkBench w' (<[c:=(S i, None)]> cls) (if bool_decide (r = "OK") then S ok else ok)).
End Clients.

Arguments bench : clear implicits.

(** ** The queries *)
Definition usersTable : Schema := mkSchema [mkColumn "id" INT; mkColumn "name" TEXT].

Definition rowOf (id : Z) : Row := mkRow (Some usersTable) [Some (IntV id); Some (TextV "u")].

(** The text is an INSERT of the row [rowOf id]. *)
Definition insertsRow (id : Z) : bool :=
  match parseQuery (insertQuery id) with
  | Val (SInsert st) =>
    let assignments := zip (in_columns st) (in_values st) in
    bool_decide (in_table st = "users") && forallb (λ a, literal_fits usersTable a.1 a.2) assignments &&
    bool_decide (applySets usersTable (blank usersTable) assignments = rowOf id)
  | _ => false
  end.

Lemma all_insert : forallb insertsRow (seqZ 0 1000) = true.
Proof. vm_compute. reflexivity. Qed.

#[local] Opaque insertQuery parseQuery.

Lemma insertsRow_ok id : (0 ≤ id < 1000)%Z → insertsRow id = true.
Proof.
  intros Hid. pose proof all_insert as H. rewrite forallb_forall in H. apply H. apply list_elem_of_In, elem_of_seqZ. lia.
Qed.

Lemma insert_parsed id :
  (0 ≤ id < 1000)%Z → ∃ st, parseQuery (insertQuery id) = Val (SInsert st) ∧ in_table st = "users" ∧
    forallb (λ a, literal_fits usersTable a.1 a.2) (zip (in_columns st) (in_values st)) = true ∧
    applySets usersTable (blank usersTable) (zip (in_columns st) (in_values st)) = rowOf id.
Proof.
  intros Hid%insertsRow_ok. unfold insertsRow in Hid. destruct (parseQuery (insertQuery id)) as [[| |st| | |]| |]; try done.
  rewrite !andb_true_iff, !bool_decide_eq_true in Hid. exists st. tauto.
Qed.

Lemma insertQuery_inj id id' : (0 ≤ id < 1000)%Z → (0 ≤ id' < 1000)%Z → insertQuery id = insertQuery id' → id = id'.
Proof.
  intros H1 H2 E. destruct (insert_parsed id H1) as (st & Hp & _ & _ & Hr). destruct (insert_parsed id' H2) as (st' & Hp' & _ & _ & Hr').
  rewrite E, Hp' in Hp. injection Hp as <-. rewrite Hr' in Hr. by injection Hr.
Qed.

(** An INSERT of an id that is not there. *)
Lemma insert_answer D l id :
  (0 ≤ id < 1000)%Z → D !! "users" = Some (usersTable, l) → al_lookup id l = None →
  ref_query D (insertQuery id) = Some (<["users":=(usersTable, al_insert id (rowOf id) l)]> D, "OK").
Proof.
  intros Hid HD Hl. destruct (insert_parsed id Hid) as (st & Hp & Ht & Hf & Hr). unfold ref_query. rewrite Hp. simpl.
  unfold at_rows. rewrite Ht, HD. unfold rows_insert. rewrite Hf, Hr. simpl. by rewrite bool_decide_eq_true_2.
Qed.

Lemma inserts_answered D l (ns : list Z) rs :
  D !! "users" = Some (usersTable, l) → ksorted l → Forall (λ id, 0 ≤ id < 1000)%Z ns → NoDup ns → (∀ id, id ∈ ns → al_lookup id l = None) →
  answers D (insertQuery <$> ns) rs →
  Forall (eq "OK") rs ∧ ∃ l', foldl ref_next D (insertQuery <$> ns) !! "users" = Some (usersTable, l') ∧
    ∀ id, is_Some (al_lookup id l') ↔ id ∈ ns ∨ is_Some (al_lookup id l).
Proof.
  intros HD Hso Hns. revert D l rs HD Hso. induction Hns as [|id ns Hid _ IH]; intros D l [|r rs] HD Hso Hnd Hnew Ha; simpl in *; try done.
  - split; [constructor|]. exists l. split; [done|]. intros k. rewrite elem_of_nil. tauto.
  - apply NoDup_cons in Hnd as [Hni Hnd]. destruct Ha as [Ha Hrest].
    assert (Hl : al_lookup id l = None) by (apply Hnew; by left).
    pose proof (insert_answer D l id Hid HD Hl) as Hq. unfold answer in Ha. unfold ref_next at 2. unfold ref_next in Hrest at 1.
    rewrite Hq in Ha, Hrest |- *. subst r.
    destruct (IH (<["users":=(usersTable, al_insert id (rowOf id) l)]> D) (al_insert id (rowOf id) l) rs) as (Hok & l' & Hs & Hk);
      [by rewrite lookup_insert_eq|by apply al_insert_ksorted|done| |done|].
    { intros k Hk. rewrite al_lookup_insert by done. destruct (keqb id k) eqn:E; [by apply keqb_eq in E as ->|]. apply Hnew. by right. }
    split; [by constructor|]. exists l'. split; [done|]. intros k. rewrite Hk, elem_of_cons, al_lookup_insert by done.
    destruct (keqb id k) eqn:E; [apply keqb_eq in E as ->; naive_solver|].
    assert (k ≠ id) by (intros ->; by rewrite (proj2 (keqb_eq id id)) in E). tauto.
Qed.

(** ** What every linearization of the inserts says *)
Record insert_history (h h' : list event) (r0 : string) : Prop := {
  ih_setup : h = [ECall 0 createUsers; EReturn 0 r0] ++ h';
  ih_inserts : ∀ b q, ECall b q ∈ h' → b ≠ 0 ∧ ∃ n, (0 ≤ n < 1000)%Z ∧ q = insertQuery n;
  ih_once : ∀ b b' q, ECall b q ∈ h' → ECall b' q ∈ h' → b = b';
}.

Lemma setup_first h h' r0 lin :
  insert_history h h' r0 → linearizes h lin → ∃ lin', lin = mkEntry 0 createUsers r0 :: lin' ∧ ∀ e, e ∈ lin' → e_id e ≠ 0.
Proof.
  intros [-> Hi _] Hl. destruct (lz_returns _ _ Hl 0 r0) as [q0 H0]; [by right; left|].
  pose proof (lz_nodup _ _ Hl) as Hnd. destruct lin as [|e lin]; [by apply elem_of_nil in H0|].
  unfold ids in Hnd. csimpl in Hnd. apply NoDup_cons in Hnd as [Hne Hnd].
  assert (Hq : ∀ q, ECall 0 q ∈ [ECall 0 createUsers; EReturn 0 r0] ++ h' → q = createUsers).
  { intros q [[= ->]|[[=]|Hin]%elem_of_cons]%elem_of_cons; [done|]. by destruct (Hi _ _ Hin). }
  destruct (decide (e_id e = 0)) as [E|E].
  - assert (e = mkEntry 0 q0 r0) as ->.
    { apply elem_of_cons in H0 as [->|H0]; [done|]. destruct Hne. rewrite E. by apply (ids_elem (mkEntry 0 q0 r0)). }
    exists lin. pose proof (lz_calls _ _ Hl (mkEntry 0 q0 r0) ltac:(by left)) as Hc. simpl in Hc. apply Hq in Hc as ->.
    split; [done|]. intros e He Hz. apply Hne. simpl. rewrite <- Hz. by apply ids_elem.
  - exfalso. apply E. assert (He : ECall (e_id e) (e_query e) ∈ [ECall 0 createUsers; EReturn 0 r0] ++ h').
    { apply (lz_calls _ _ Hl). by left. }
    apply elem_of_app in He as [He|He].
    { apply elem_of_cons in He as [[= -> _]|He]; [done|]. by apply elem_of_cons in He as [?|?%elem_of_nil]. }
    apply list_elem_of_split in He as (h1 & h2 & ->).
    assert (Hp : precedes 0 (e_id e) (e :: lin)).
    { apply (lz_time _ _ Hl); [by left|]. exists ([ECall 0 createUsers; EReturn 0 r0] ++ h1), h2, (e_query e), r0.
      split; [by rewrite <- (assoc_L (++))|]. by right; left. }
    unfold precedes, ids in Hp. csimpl in Hp. apply sublist_cons_r in Hp as [Hp|(l & [= <- <-] & Hp)]; [|done].
    destruct Hne. apply (sublist_subseteq _ _ Hp). by right; left.
Qed.

Lemma calls_entry h h' r0 lin e1 e2 :
  insert_history h h' r0 → linearizes h lin → e1 ∈ lin → e2 ∈ lin → e_id e1 ≠ 0 → e_id e2 ≠ 0 → e_query e1 = e_query e2 → e1 = e2.
Proof.
  intros Hh Hl H1 H2 Hz1 Hz2 E. assert (Hc : ∀ e, e ∈ lin → e_id e ≠ 0 → ECall (e_id e) (e_query e) ∈ h').
  { intros e He Hz. pose proof (lz_calls _ _ Hl e He) as Hc. rewrite (ih_setup _ _ _ Hh) in Hc.
    by apply elem_of_cons in Hc as [[= ? _]|[[=]|Hc]%elem_of_cons]. }
  assert (e_id e1 = e_id e2) as Eid by (eapply (ih_once _ _ _ Hh); [by apply Hc|rewrite E; by apply Hc]).
  apply list_elem_of_lookup in H1 as [i Hi]. apply list_elem_of_lookup in H2 as [j Hj].
  assert (i = j) as ->; [|congruence]. eapply NoDup_lookup; [apply (lz_nodup _ _ Hl)|..]; unfold ids; rewrite list_lookup_fmap.
  - by rewrite Hi.
  - by rewrite Hj, Eid.
Qed.

Lemma inserts_linearized h h' r0 lin :
  insert_history h h' r0 → linearizes h lin →
  (∀ a r, EReturn a r ∈ h → r = "OK") ∧
  ∃ l, state_of lin !! "users" = Some (usersTable, l) ∧
    ∀ n, is_Some (al_lookup n l) ↔ (0 ≤ n < 1000)%Z ∧ ∃ e, e ∈ lin ∧ e_query e = insertQuery n.
Proof.
  intros Hh Hl. destruct (setup_first _ _ _ _ Hh Hl) as (lin' & -> & Hid).
  assert (∃ ns, e_query <$> lin' = insertQuery <$> ns ∧ Forall (λ n, 0 ≤ n < 1000)%Z ns) as (ns & Hns & Hrange).
  { assert (Hq : ∀ e, e ∈ lin' → ∃ n, (0 ≤ n < 1000)%Z ∧ e_query e = insertQuery n).
    { intros e He. pose proof (lz_calls _ _ Hl e ltac:(by right)) as Hc. rewrite (ih_setup _ _ _ Hh) in Hc.
      apply elem_of_cons in Hc as [[= Hz _]|[[=]|Hc]%elem_of_cons]; [by apply Hid in He|]. apply (ih_inserts _ _ _ Hh _ _ Hc). }
    clear -Hq. induction lin' as [|e lin' IH]; [by exists []|]. destruct IH as (ns & E & Hns); [intros; apply Hq; by right|].
    destruct (Hq e) as (n & Hn & En); [by left|]. exists (n :: ns). csimpl. by rewrite E, En; split; [|constructor]. }
  assert (Hnd : NoDup ns).
  { apply (NoDup_fmap_1 insertQuery). rewrite <- Hns. apply NoDup_fmap_2_strong.
    - intros e1 e2 H1 H2 E. apply (calls_entry _ _ _ _ e1 e2 Hh Hl); [by right|by right|by apply Hid|by apply Hid|done].
    - pose proof (lz_nodup _ _ Hl) as Hn. unfold ids in Hn. csimpl in Hn. apply NoDup_cons in Hn as [_ Hn]. by apply NoDup_fmap_1 in Hn. }
  pose proof (lz_explained _ _ Hl) as Hex. unfold explained in Hex. csimpl in Hex. destruct Hex as [H0 Hex]. rewrite Hns in Hex.
  assert (Hcreate : ref_query ∅ createUsers = Some ({["users" := (usersTable, [])]}, "OK")) by (vm_compute; reflexivity).
  assert (Hnext : ref_next ∅ createUsers = {["users" := (usersTable, [])]}) by (unfold ref_next; by rewrite Hcreate).
  rewrite Hnext in Hex. unfold answer in H0. rewrite Hcreate in H0.
  destruct (inserts_answered {["users" := (usersTable, [])]} [] ns (e_reply <$> lin')) as (Hok & l & Hs & Hk);
    [by rewrite lookup_singleton_eq|constructor|done|done|done|done|]. split.
  - intros a r [q Ha]%(lz_returns _ _ Hl). apply elem_of_cons in Ha as [[= -> -> ->]|Ha]; [done|].
    rewrite Forall_forall in Hok. symmetry. apply Hok. by apply (list_elem_of_fmap_2 e_reply) in Ha.
  - exists l. split; [unfold state_of; csimpl; by rewrite Hnext, Hns|]. intros n. rewrite Hk. simpl. split.
    + intros [Hn|[? ?]]; [|done]. rewrite Forall_forall in Hrange. split; [by apply Hrange|].
      assert (insertQuery n ∈ e_query <$> lin') as (e & E & He)%list_elem_of_fmap by (rewrite Hns; by apply list_elem_of_fmap_2).
      exists e. split; [by right|done].
    + intros (Hn & e & [->|He]%elem_of_cons & E).
      * exfalso. destruct (insert_parsed n Hn) as (st & Hp & _). simpl in E. rewrite <- E in Hp. by vm_compute in Hp.
      * left. apply (list_elem_of_fmap_2 e_query) in He. rewrite Hns, E in He. apply list_elem_of_fmap in He as (m & Em & Hm).
        rewrite Forall_forall in Hrange. by rewrite (insertQuery_inj n m) by auto.
Qed.

(** ** The invariant of the clients *)
Lemma query_range c i : c < kClients → i < kQueriesEach → (0 ≤ Z.of_nat (c * kQueriesEach + i) < 1000)%Z.
Proof. unfold kClients, kQueriesEach. lia. Qed.

Lemma queryOf_inj c i c' i' :
  c < kClients → i < kQueriesEach → c' < kClients → i' < kQueriesEach → queryOf c i = queryOf c' i' → c = c' ∧ i = i'.
Proof.
  intros H1 H2 H3 H4 E. apply insertQuery_inj in E; [|by apply query_range..]. unfold kClients, kQueriesEach in *. lia.
Qed.

Section Inv.
Context {Ix Dx : Type} `{!KeyIndex Z nat Ix} `{!KeyIndexLaws Z nat Ix}.
Context `{!KeyIndex string SharedPtr Dx} `{!KeyIndexLaws string SharedPtr Dx}.
Abbreviation W := (qworld Ix Dx).
Implicit Types (w : W) (cls : list client) (h : list event).

(** The clients and the history behind the set-up. *)
Record calls_ok cls h : Prop := {
  co_len : length cls = kClients;
  co_bound : ∀ c i o, cls !! c = Some (i, o) → i ≤ kQueriesEach ∧ (is_Some o → i < kQueriesEach);
  co_calls : ∀ a q, ECall a q ∈ h → a ≠ 0 ∧ ∃ c i o j, cls !! c = Some (i, o) ∧ q = queryOf c j ∧ (j < i ∨ j = i ∧ o = Some a);
  co_once : ∀ a a' q, ECall a q ∈ h → ECall a' q ∈ h → a = a';
  co_id : ∀ a q q', ECall a q ∈ h → ECall a q' ∈ h → q = q';
  co_done : ∀ c i o j, cls !! c = Some (i, o) → j < i → ∃ a r, ECall a (queryOf c j) ∈ h ∧ EReturn a r ∈ h;
  co_flight : ∀ c i a, cls !! c = Some (i, Some a) → ECall a (queryOf c i) ∈ h;
}.

Lemma calls_index cls h a q :
  calls_ok cls h → ECall a q ∈ h →
  ∃ c i o j, cls !! c = Some (i, o) ∧ q = queryOf c j ∧ (j < i ∨ j = i ∧ o = Some a) ∧ c < kClients ∧ j < kQueriesEach.
Proof.
  intros H Hc. destruct (co_calls _ _ H _ _ Hc) as (_ & c & i & o & j & Hl & Hq & Hj). exists c, i, o, j.
  destruct (co_bound _ _ H _ _ _ Hl) as [Hi Ho]. split_and!; [done|done|done| |].
  - rewrite <- (co_len _ _ H). by eapply lookup_lt_Some.
  - destruct Hj as [?|[-> ->]]; [lia|]. by apply Ho.
Qed.

Lemma calls_history h0 cls h r0 :
  calls_ok cls h → h0 = [ECall 0 createUsers; EReturn 0 r0] ++ h → insert_history h0 h r0.
Proof.
  intros H ->. split; [done| |apply (co_once _ _ H)]. intros b q Hb. split; [by apply (co_calls _ _ H _ _ Hb)|].
  destruct (calls_index _ _ _ _ H Hb) as (c & i & o & j & _ & -> & _ & Hc & Hj). eexists. split; [by apply query_range|done].
Qed.

Lemma calls_new : calls_ok (replicate kClients (0, None)) [].
Proof.
  split; [by rewrite length_replicate| |by intros a q ?%elem_of_nil|by intros a a' q ?%elem_of_nil|by intros a q q' ?%elem_of_nil| |].
  - intros c i o [[= -> ->] _]%lookup_replicate. split; [lia|by intros [? ?]].
  - intros c i o j [[= -> ->] _]%lookup_replicate. lia.
  - by intros c i a [? _]%lookup_replicate.
Qed.

Lemma calls_send cls h c i a :
  calls_ok cls h → cls !! c = Some (i, None) → i < kQueriesEach → a ≠ 0 → (∀ q, ECall a q ∉ h) →
  calls_ok (<[c:=(i, Some a)]> cls) (h ++ [ECall a (queryOf c i)]).
Proof.
  intros H Hc Hi Ha Hnew. assert (Hlt : c < kClients) by (rewrite <- (co_len _ _ H); by eapply lookup_lt_Some).
  assert (Hfresh : ∀ a', ECall a' (queryOf c i) ∉ h).
  { intros a' Hin. destruct (calls_index _ _ _ _ H Hin) as (c' & i' & o & j & Hl & Hq & Hj & Hc' & Hj').
    destruct (queryOf_inj _ _ _ _ Hlt Hi Hc' Hj' Hq) as [<- <-]. rewrite Hc in Hl. injection Hl as <- <-. by destruct Hj as [?|[_ ?]]; [lia|]. }
  assert (Hold : ∀ c' i' o', <[c:=(i, Some a)]> cls !! c' = Some (i', o') → (c' = c ∧ i' = i ∧ o' = Some a) ∨ (c' ≠ c ∧ cls !! c' = Some (i', o'))).
  { intros c' i' o' [(<- & [= <- <-] & _)|[? ?]]%list_lookup_insert_Some; [by left|right; by split]. }
  split.
  - by rewrite length_insert, (co_len _ _ H).
  - intros c' i' o' [(-> & -> & ->)|[_ Hl]]%Hold; [split; [lia|done]|by apply (co_bound _ _ H _ _ _ Hl)].
  - intros a' q [Hin|[= -> ->]%list_elem_of_singleton]%elem_of_app.
    + destruct (co_calls _ _ H _ _ Hin) as (Hz & c' & i' & o & j & Hl & Hq & Hj). split; [done|].
      destruct (decide (c' = c)) as [->|Hne].
      * rewrite Hc in Hl. injection Hl as <- <-. exists c, i, (Some a), j. rewrite list_lookup_insert_eq by (by eapply lookup_lt_Some).
        split_and!; [done|done|]. by destruct Hj as [?|[_ ?]]; [left|].
      * exists c', i', o, j. by rewrite list_lookup_insert_ne.
    + split; [done|]. exists c, i, (Some a), i. rewrite list_lookup_insert_eq by (by eapply lookup_lt_Some). split_and!; [done|done|by right].
  - intros a1 a2 q [H1|H1%list_elem_of_singleton]%elem_of_app [H2|H2%list_elem_of_singleton]%elem_of_app; simplify_eq;
      [by eapply (co_once _ _ H)|by apply Hfresh in H1|by apply Hfresh in H2|done].
  - intros a1 q1 q2 [H1|H1%list_elem_of_singleton]%elem_of_app [H2|H2%list_elem_of_singleton]%elem_of_app; simplify_eq;
      [by eapply (co_id _ _ H)|by apply Hnew in H1|by apply Hnew in H2|done].
  - intros c' i' o' j [(-> & -> & ->)|[_ Hl]]%Hold Hj.
    + destruct (co_done _ _ H _ _ _ _ Hc Hj) as (a' & r & ? & ?). exists a', r. rewrite !elem_of_app. eauto.
    + destruct (co_done _ _ H _ _ _ _ Hl Hj) as (a' & r & ? & ?). exists a', r. rewrite !elem_of_app. eauto.
  - intros c' i' a' [(-> & -> & [= ->])|[_ Hl]]%Hold; rewrite elem_of_app; [right; by left|left; by apply (co_flight _ _ H)].
Qed.

Lemma calls_reply cls h c i a r :
  calls_ok cls h → cls !! c = Some (i, Some a) → calls_ok (<[c:=(S i, None)]> cls) (h ++ [EReturn a r]).
Proof.
  intros H Hc.
  assert (Hold : ∀ c' i' o', <[c:=(S i, None)]> cls !! c' = Some (i', o') → (c' = c ∧ i' = S i ∧ o' = None) ∨ (c' ≠ c ∧ cls !! c' = Some (i', o'))).
  { intros c' i' o' [(<- & [= <- <-] & _)|[? ?]]%list_lookup_insert_Some; [by left|right; by split]. }
  assert (Hcall : ∀ a' q, ECall a' q ∈ h ++ [EReturn a r] → ECall a' q ∈ h).
  { by intros a' q [?|[=]%list_elem_of_singleton]%elem_of_app. }
  assert (Hmine : ∀ a' j, ECall a' (queryOf c j) ∈ h → j = i → a' = a).
  { intros a' j Hin ->. by eapply (co_once _ _ H); [|apply (co_flight _ _ H)]. }
  split.
  - by rewrite length_insert, (co_len _ _ H).
  - intros c' i' o' [(-> & -> & ->)|[_ Hl]]%Hold; [|by apply (co_bound _ _ H _ _ _ Hl)].
    destruct (co_bound _ _ H _ _ _ Hc) as [_ Hi]. specialize (Hi ltac:(done)). split; [lia|by intros [? ?]].
  - intros a' q Hin%Hcall. destruct (co_calls _ _ H _ _ Hin) as (Hz & c' & i' & o & j & Hl & Hq & Hj). split; [done|].
    destruct (decide (c' = c)) as [->|Hne].
    + rewrite Hc in Hl. injection Hl as <- <-. exists c, (S i), None, j. rewrite list_lookup_insert_eq by (by eapply lookup_lt_Some).
      split_and!; [done|done|]. left. destruct Hj as [?|[-> _]]; lia.
    + exists c', i', o, j. by rewrite list_lookup_insert_ne.
  - intros a1 a2 q H1%Hcall H2%Hcall. by eapply (co_once _ _ H).
  - intros a1 q1 q2 H1%Hcall H2%Hcall. by eapply (co_id _ _ H).
  - intros c' i' o' j [(-> & -> & ->)|[_ Hl]]%Hold Hj; [|destruct (co_done _ _ H _ _ _ _ Hl Hj) as (a' & r' & ? & ?); exists a', r'; rewrite !elem_of_app; eauto].
    destruct (decide (j = i)) as [->|Hne].
    + exists a, r. rewrite !elem_of_app. split; [left; by apply (co_flight _ _ H)|right; by left].
    + destruct (co_done _ _ H _ _ _ j Hc) as (a' & r' & ? & ?); [lia|]. exists a', r'. rewrite !elem_of_app. eauto.
  - intros c' i' a' [(_ & _ & [=])|[_ Hl]]%Hold. rewrite elem_of_app. left. by apply (co_flight _ _ H).
Qed.

Lemma flight_unique cls h c c' i i' a :
  calls_ok cls h → cls !! c = Some (i, Some a) → cls !! c' = Some (i', Some a) → c = c'.
Proof.
  intros H Hc Hc'. assert (Hlt : ∀ c i, cls !! c = Some (i, Some a) → c < kClients ∧ i < kQueriesEach).
  { intros c1 i1 Hl. split; [rewrite <- (co_len _ _ H); by eapply lookup_lt_Some|]. by apply (co_bound _ _ H _ _ _ Hl). }
  destruct (Hlt _ _ Hc), (Hlt _ _ Hc').
  destruct (queryOf_inj c i c' i') as [? _]; try done. by eapply (co_id _ _ H); apply (co_flight _ _ H).
Qed.

Definition doneBy cls : nat := sum_list (fst <$> cls).

Record binv (r0 : string) (b : bench Ix Dx) : Prop := {
  bi_world : rtc QueryConcurrent.qstep newWorld (b_world b);
  bi_calls : ∃ h, w_hist (b_world b) = [ECall 0 createUsers; EReturn 0 r0] ++ h ∧ calls_ok (b_clients b) h;
  bi_ops : ∀ a, a ∈ dom (w_ops (b_world b)) ↔ ∃ c i, b_clients b !! c = Some (i, Some a);
  bi_fresh : ∀ a q, ECall a q ∈ w_hist (b_world b) → a < w_next (b_world b);
  bi_ok : okCount b = doneBy (b_clients b);
}.

Lemma doneBy_insert cls c i o i' o' :
  cls !! c = Some (i, o) → doneBy (<[c:=(i', o')]> cls) + i = doneBy cls + i'.
Proof.
  intros (l1 & l2 & -> & ->)%list_elem_of_split_length. rewrite insert_app_r_alt, Nat.sub_diag by lia. unfold doneBy. simpl.
  rewrite !fmap_app, !sum_list_with_app. simpl. lia.
Qed.

(** Every reply is OK. *)
Lemma replies_ok r0 w h cls a r :
  rtc QueryConcurrent.qstep newWorld w → w_hist w = [ECall 0 createUsers; EReturn 0 r0] ++ h → calls_ok cls h →
  EReturn a r ∈ w_hist w → r = "OK".
Proof.
  intros Hr Hh Hc Ha. destruct (world_linearizes w Hr) as (lin & Hl & _).
  destruct (inserts_linearized _ _ _ _ (calls_history _ _ _ _ Hc Hh) Hl) as [Hok _]. by eapply Hok.
Qed.

Lemma binv_step r0 b b' : binv r0 b → bstep b b' → binv r0 b'.
Proof.
  intros [H1 (h & Hh & Hco) H3 H4 H5] Hs. destruct Hs as [c i w w' cls ok Hc Hi Hq Hw|w w' cls ok Hq Hw|c i a r w w' cls ok Hc Hq Hw];
    simpl in *; assert (H1' : rtc QueryConcurrent.qstep newWorld w') by (by eapply rtc_r).
  - destruct (qstep_kind _ _ Hq) as [q' Hw' Hn' [ph Hops]|Hw'|a r Hw'];
      [|rewrite Hw in Hw'; symmetry in Hw'; by apply hist_more in Hw'|rewrite Hw in Hw'; by apply hist_grows in Hw'].
    assert (Hz : 0 < w_next w) by (apply (H4 0 createUsers); rewrite Hh; by left).
    split; simpl; [done| | | |].
    + exists (h ++ [ECall (w_next w) (queryOf c i)]). rewrite Hw, Hh. split; [done|].
      apply calls_send; [done|done|done|lia|]. intros q Hin. assert (w_next w < w_next w); [|lia]. apply (H4 _ q). rewrite Hh. by right; right.
    + intros a. rewrite Hops, dom_insert_L, elem_of_union, elem_of_singleton, H3. split.
      * intros [->|(c' & i' & Hc')]; [exists c, i; by rewrite list_lookup_insert_eq by (by eapply lookup_lt_Some)|].
        exists c', i'. rewrite list_lookup_insert_ne; [done|]. intros <-. congruence.
      * intros (c' & i' & [(_ & [= _ ->] & _)|[_ ?]]%list_lookup_insert_Some); [by left|right; eauto].
    + rewrite Hw, Hn'. intros a q [Hin%H4|[= -> _]%list_elem_of_singleton]%elem_of_app; lia.
    + pose proof (doneBy_insert _ _ _ _ i (Some (w_next w)) Hc). lia.
  - destruct (qstep_kind _ _ Hq) as [q' Hw'|Hw' Hn' Hd|a r Hw'];
      [rewrite Hw in Hw'; by apply hist_more in Hw'| |rewrite Hw in Hw'; by apply hist_more in Hw'].
    split; simpl; [done|rewrite Hw; eauto|by rewrite Hd|by rewrite Hw, Hn'|done].
  - destruct (qstep_kind _ _ Hq) as [q' Hw'|Hw'|a' r' Hw' Hn' Hid Hops];
      [rewrite Hw in Hw'; by apply hist_grows in Hw'|rewrite Hw in Hw'; symmetry in Hw'; by apply hist_more in Hw'|].
    rewrite Hw in Hw'. apply hist_grows in Hw' as [= <- <-].
    pose proof (calls_reply _ _ _ _ _ r Hco Hc) as Hco'.
    assert (Hh' : w_hist w' = [ECall 0 createUsers; EReturn 0 r0] ++ (h ++ [EReturn a r])) by (by rewrite Hw, Hh).
    assert (r = "OK") as ->.
    { eapply (replies_ok _ w' _ _ a); [done|exact Hh'|exact Hco'|]. rewrite Hw. apply elem_of_app. right. by left. }
    split; simpl; [done|by exists (h ++ [EReturn a "OK"])| | |].
    + intros a'. rewrite Hops, dom_delete_L, elem_of_difference, elem_of_singleton, H3. split.
      * intros [(c' & i' & Hc') Hne]. exists c', i'. rewrite list_lookup_insert_ne; [done|]. intros <-. congruence.
      * intros (c' & i' & [(_ & [=] & _)|[Hne Hc']]%list_lookup_insert_Some). split; [eauto|]. intros ->.
        apply Hne. exact (flight_unique _ _ _ _ _ _ _ Hco Hc Hc').
    + rewrite Hw, Hn'. intros a' q [Hin%H4|[=]%list_elem_of_singleton]%elem_of_app. lia.
    + pose proof (doneBy_insert _ _ _ _ (S i) None Hc). lia.
Qed.

(** ** The end *)
Definition clientWork (k : client) : nat := 6 * (kQueriesEach - (k.1 + if k.2 is Some _ then 1 else 0)).
Definition beffort (b : bench Ix Dx) : nat := sum_list (clientWork <$> b_clients b) + queryWork (w_ops (b_world b)).

Lemma clientWork_insert cls c k k' :
  cls !! c = Some k → sum_list (clientWork <$> <[c:=k']> cls) + clientWork k = sum_list (clientWork <$> cls) + clientWork k'.
Proof.
  intros (l1 & l2 & -> & ->)%list_elem_of_split_length. rewrite insert_app_r_alt, Nat.sub_diag by lia. simpl.
  rewrite !fmap_app, !sum_list_with_app. simpl. lia.
Qed.

Lemma ops_fresh r0 b : binv r0 b → w_ops (b_world b) !! w_next (b_world b) = None.
Proof.
  intros H. apply not_elem_of_dom. rewrite (bi_ops _ _ H). intros (c & i & Hc). destruct (bi_calls _ _ H) as (h & Hh & Hco).
  pose proof (co_flight _ _ Hco _ _ _ Hc) as Hin. assert (w_next (b_world b) < w_next (b_world b)); [|lia].
  eapply (bi_fresh _ _ H). rewrite Hh. right; right. exact Hin.
Qed.

Lemma bstep_effort r0 b b' : binv r0 b → bstep b b' → beffort b' < beffort b.
Proof.
  intros H Hs. pose proof (ops_fresh _ _ H) as Hf. unfold beffort.
  destruct Hs as [c i w w' cls ok Hc Hi Hq Hw|w w' cls ok Hq Hw|c i a r w w' cls ok Hc Hq Hw]; cbn [b_world b_clients] in *.
  - destruct (qstep_kind _ _ Hq) as [q' Hw' Hn' [ph Hops]|Hw'|a r Hw'];
      [|rewrite Hw in Hw'; symmetry in Hw'; by apply hist_more in Hw'|rewrite Hw in Hw'; by apply hist_grows in Hw'].
    rewrite Hops, queryWork_set, delete_id by done. pose proof (stepsLeft_bound (Some ph)).
    pose proof (clientWork_insert _ _ _ (i, Some (w_next w)) Hc) as Hcw. unfold clientWork in Hcw at 2 4. cbn [fst snd] in Hcw. lia.
  - pose proof (query_effort _ _ Hq Hw). lia.
  - destruct (qstep_kind _ _ Hq) as [q' Hw'|Hw'|a' r' Hw' Hn' Hid Hops];
      [rewrite Hw in Hw'; by apply hist_grows in Hw'|rewrite Hw in Hw'; symmetry in Hw'; by apply hist_more in Hw'|].
    rewrite Hops, (queryWork_take _ _ _ Hid). cbn [stepsLeft].
    pose proof (clientWork_insert _ _ _ (S i, None) Hc) as Hcw. unfold clientWork in Hcw at 2 4. cbn [fst snd] in Hcw. lia.
Qed.

Lemma nsteps_beffort r0 m b b' : binv r0 b → nsteps bstep m b b' → m + beffort b' ≤ beffort b.
Proof.
  intros H Hn. induction Hn as [|m b1 b2 b3 Hs Hn IH]; [lia|]. pose proof (bstep_effort _ _ _ H Hs).
  specialize (IH (binv_step _ _ _ H Hs)). lia.
Qed.

Lemma queryOf_parses c i : c < kClients → i < kQueriesEach → ∃ st, parseQuery (queryOf c i) = Val (SInsert st).
Proof. intros Hc Hi. destruct (insert_parsed _ (query_range c i Hc Hi)) as (st & Hp & _). by exists st. Qed.

Lemma rest_done r0 b : binv r0 b → (∀ b', ¬ bstep b b') → ∀ c i o, b_clients b !! c = Some (i, o) → i = kQueriesEach ∧ o = None.
Proof.
  intros H Hn c i o Hc. destruct (bi_calls _ _ H) as (h & Hh & Hco). destruct (co_bound _ _ Hco _ _ _ Hc) as [Hi Ho].
  pose proof (bi_world _ _ H) as Hr. pose proof (bi_ops _ _ H) as Hops. destruct b as [w cls ok]. simpl in *. destruct o as [a|].
  - exfalso. assert (a ∈ dom (w_ops w)) as [ph Hph]%elem_of_dom by (apply Hops; eauto).
    destruct (query_moves _ _ _ Hr Hph) as [[r ->]|(w' & (Hq & _) & Hw)].
    + destruct w as [db ops n hs]. eapply Hn, (b_reply c i a r); [done|by apply q_return|done].
    + eapply Hn. by eapply b_serve.
  - split; [|done]. destruct (decide (i = kQueriesEach)) as [|Hne]; [done|]. exfalso.
    assert (c < kClients) as Hlt by (rewrite <- (co_len _ _ Hco); by eapply lookup_lt_Some).
    destruct (queryOf_parses c i Hlt) as [st Hp]; [lia|]. destruct w as [db ops n hs].
    eapply Hn, (b_send c i); [done|lia|by apply q_call|done].
Qed.

Lemma rest_count cls : length cls = kClients → (∀ c i o, cls !! c = Some (i, o) → i = kQueriesEach ∧ o = None) →
  doneBy cls = kClients * kQueriesEach.
Proof.
  intros <- Hall. unfold doneBy. induction cls as [|[i o] cls IH]; [done|]. csimpl. rewrite IH.
  - destruct (Hall 0 i o eq_refl) as [-> _]. unfold id, kQueriesEach in *. simpl. lia.
  - intros c i' o' Hc. by apply (Hall (S c)).
Qed.

Lemma rest_table r0 b :
  binv r0 b → (∀ c i o, b_clients b !! c = Some (i, o) → i = kQueriesEach ∧ o = None) →
  ∃ D l, db_ok [] (w_db (b_world b)) D ∧ D !! "users" = Some (usersTable, l) ∧
    ∀ n, is_Some (al_lookup n l) ↔ (0 ≤ n < Z.of_nat (kClients * kQueriesEach))%Z.
Proof.
  intros H Hall. destruct (bi_calls _ _ H) as (h & Hh & Hco). destruct (world_linearizes _ (bi_world _ _ H)) as (lin & Hl & Hdb).
  destruct (inserts_linearized _ _ _ _ (calls_history _ _ _ _ Hco Hh) Hl) as (_ & l & Hs & Hk). exists (state_of lin), l.
  split_and!; [|done|].
  - apply Hdb. apply map_eq. intros a. rewrite lookup_empty. apply not_elem_of_dom. rewrite (bi_ops _ _ H).
    intros (c & i & [_ [=]]%Hall).
  - intros n. rewrite Hk. change (Z.of_nat (kClients * kQueriesEach)) with 1000%Z. split; [by intros [? _]|]. intros Hn. split; [done|].
    set (c := Z.to_nat n / kQueriesEach). set (j := Z.to_nat n mod kQueriesEach).
    pose proof (Nat.div_mod (Z.to_nat n) kQueriesEach ltac:(done)) as Hdm. fold c j in Hdm.
    pose proof (Nat.mod_upper_bound (Z.to_nat n) kQueriesEach ltac:(done)) as Hj. fold j in Hj.
    assert (c < kClients) as Hc by (unfold kClients, kQueriesEach in *; lia).
    rewrite <- (co_len _ _ Hco) in Hc. apply lookup_lt_is_Some_2 in Hc as [[i o] Hc]. destruct (Hall _ _ _ Hc) as [-> ->].
    destruct (co_done _ _ Hco _ _ _ j Hc Hj) as (a & r & Hca & Hra).
    destruct (lz_returns _ _ Hl a r) as [q Hq]; [rewrite Hh; right; right; done|]. exists (mkEntry a q r). split; [done|]. simpl.
    pose proof (lz_calls _ _ Hl _ Hq) as Hcall. simpl in Hcall. rewrite Hh in Hcall.
    destruct (co_calls _ _ Hco _ _ Hca) as [Hz _].
    apply elem_of_cons in Hcall as [[= ? _]|[[=]|Hcall]%elem_of_cons]; [done|].
    rewrite (co_id _ _ Hco _ _ _ Hcall Hca). unfold queryOf. f_equal. unfold kQueriesEach in *. lia.
Qed.

Lemma binv_start r0 w :
  rtc QueryConcurrent.qstep newWorld w → w_hist w = [ECall 0 createUsers; EReturn 0 r0] → w_ops w = ∅ → binv r0 (startClients w).
Proof.
  intros Hr Hh Ho. unfold startClients. split; cbn [b_world b_clients okCount]; [done| | | |done].
  - exists []. split; [done|apply calls_new].
  - intros a. rewrite Ho, dom_empty_L. split; [by intros ?%elem_of_empty|]. by intros (c & i & [? _]%lookup_replicate).
  - intros a q Hin. destruct (linear_reachable w Hr) as (lin & m & A & dr & H). by eapply (ln_fresh _ _ _ _ _ H).
Qed.

Lemma binv_steps r0 b b' : binv r0 b → rtc bstep b b' → binv r0 b'.
Proof. intros H Hr. induction Hr; eauto using binv_step. Qed.
End Inv.

Section Main.
Context (hashZ : Z → N) (hashS : string → N).
#[local] Instance clZ : KeyIndex Z nat (HashMap Z nat) := HashMap_index hashZ.
#[local] Instance clZ_laws : KeyIndexLaws Z nat (HashMap Z nat) := HashMap_index_laws hashZ.
#[local] Instance clS : KeyIndex string SharedPtr (HashMap string SharedPtr) := HashMap_index hashS.
#[local] Instance clS_laws : KeyIndexLaws string SharedPtr (HashMap string SharedPtr) := HashMap_index_laws hashS.

(** Concurrent clients that insert rows with different ids all succeed.
    After the table has been created, however the queries of the 50 clients of
    [benchConcurrentClients] interleave: every reply is OK, so that [okCount] is
    the number of queries done; the clients make boundedly many steps; and when
    no step is left all 1000 queries are done, and the table holds exactly the
    ids from 0 to 999. *)
Theorem bench_clients (w : qworld (HashMap Z nat) (HashMap string SharedPtr)) (r0 : string)
    (b : bench (HashMap Z nat) (HashMap string SharedPtr)) :
  rtc QueryConcurrent.qstep newWorld w → w_hist w = [ECall 0 createUsers; EReturn 0 r0] → w_ops w = ∅ →
  rtc bstep (startClients w) b →
  okCount b = doneBy (b_clients b) ∧
  (∀ m b', nsteps bstep m b b' → m ≤ beffort b) ∧
  ∀ b', rtc bstep b b' → (∀ b'', ¬ bstep b' b'') →
    okCount b' = kClients * kQueriesEach ∧
    ∃ D l, db_ok [] (w_db (b_world b')) D ∧ D !! "users" = Some (usersTable, l) ∧
      ∀ n, is_Some (al_lookup n l) ↔ (0 ≤ n < Z.of_nat (kClients * kQueriesEach))%Z.
Proof.
  intros Hw Hh Ho Hb. pose proof (binv_steps _ _ _ (binv_start _ _ Hw Hh Ho) Hb) as H. split_and!; [apply (bi_ok _ _ H)| |].
  - intros m b' Hm. pose proof (nsteps_beffort _ _ _ _ H Hm). lia.
  - intros b' Hs Hn. pose proof (binv_steps _ _ _ H Hs) as H'. pose proof (rest_done _ _ H' Hn) as Hall.
    split; [|by eapply rest_table]. rewrite (bi_ok _ _ H'). destruct (bi_calls _ _ H') as (h & _ & Hco).
    apply rest_count; [apply (co_len _ _ Hco)|done].
Qed.
End Main.

(** ** Witness: the table is created, and the first client sends its first query *)
#[local] Transparent insertQuery parseQuery.
#[local] Instance demoClientZ : KeyIndex Z nat (HashMap Z nat) := HashMap_index Z.to_N.
#[local] Instance demoClientZ_laws : KeyIndexLaws Z nat (HashMap Z nat) := HashMap_index_laws Z.to_N.
#[local] Instance demoClientS : KeyIndex string SharedPtr (HashMap string SharedPtr) := HashMap_index (λ s, N.of_nat (String.length s)).
#[local] Instance demoClientS_laws : KeyIndexLaws string SharedPtr (HashMap string SharedPtr) := HashMap_index_laws (λ s, N.of_nat (String.length s)).

Lemma demo_setup :
  ∃ w : qworld (HashMap Z nat) (HashMap string SharedPtr),
    rtc QueryConcurrent.qstep newWorld w ∧ w_hist w = [ECall 0 createUsers; EReturn 0 "OK"] ∧ w_ops w = ∅.
Proof.
  eexists. split.
  { eapply rtc_l; [eapply (q_call createUsers); vm_each|]. eapply rtc_l; [eapply (q_whole 0); vm_each|].
    eapply rtc_l; [eapply (q_return 0); vm_each|]. apply rtc_refl. }
  by vm_compute.
Qed.

Lemma bench_clients_witness :
  ∃ (w : qworld (HashMap Z nat) (HashMap string SharedPtr)),
    w_hist w = [ECall 0 createUsers; EReturn 0 "OK"] ∧
    ∀ m b', nsteps bstep m (startClients w) b' → m ≤ beffort (startClients w).
Proof.
  destruct demo_setup as (w & Hr & Hh & Ho). exists w. split; [done|].
  apply (bench_clients Z.to_N (λ s, N.of_nat (String.length s)) w "OK" (startClients w) Hr Hh Ho). apply rtc_refl.
Defined.
