(* ===== verification/BenchServer.v ===== *)
(** * The benchmark of the server, from socket to socket (bench/bench.cpp with src/network/tcp_server.cpp)

    [benchConcurrentClients] with nothing left out between a client and its
    query: client threads connect, send lines, read replies byte by byte up to
    the newline and close; the server with its four workers accepts, reads what
    has arrived, runs the queries and writes the replies; when the clients have
    been joined the server is destroyed.

    Of the network this is assumed: a connection to the listening socket is made
    and is accepted at some time, bytes arrive in order and in any pieces, a read
    returns the end of the stream only after the client has closed and all its
    bytes have been read, and a write to a client that has not closed succeeds. *)

From S2P Require Import Prelude KeyIndex SharedPtr ThreadPool TCPServer Database QueryExecutor QueryConcurrent System Service BenchClients.

(** [TCPServer server(0, db, 4)] *)
Definition kWorkers : nat := 4.

(** Where a client's thread is: before [connect]; before sending query [i] (or
    before [close] after the last one); reading the reply of query [i]; over. *)
Inductive cstate := CConnect | CSend (i : nat) | CAwait (i : nat) | CClosed.

Record netclient := mkNetclient {
  n_state : cstate;
  n_wire : string;   (* bytes sent that the server has not read *)
  n_seen : string;   (* bytes of replies that the client has read *)
}.

(** [execute(query)] with a newline behind it: the bytes that [writeAll] has sent a connection. *)
Definition sentTo (l : list answered) : string := foldr (λ a s, a_reply a +:+ String newlineChar s) "" l.

Definition netLine (s : string) : string := s +:+ String newlineChar "".

Section Net.
Context {Ix Dx : Type} `{!KeyIndex Z nat Ix} `{!KeyIndex string SharedPtr Dx}.
Abbreviation Zs := (service Ix Dx).

Record net := mkNet { n_service : Zs; n_clients : list netclient; n_ok : nat }.

Definition startNet (w : qworld Ix Dx) : net := mkNet (serviceOn w kWorkers) (replicate kClients (mkNetclient CConnect "" "")) 0.

Definition srv (z : Zs) : server := y_server (z_system z).

Definition allWritten (s : server) : Prop := ∀ c k, conns s !! c = Some k → unwritten k = false.

Inductive nstep : net → net → Prop :=
  (* the clients *)
  | n_connect c z cls ok :
      cls !! c = Some (mkNetclient CConnect "" "") →
      nstep (mkNet z cls ok) (mkNet z (<[c:=mkNetclient (CSend 0) "" ""]> cls) ok)
  | n_send c i wire seen z cls ok :
      cls !! c = Some (mkNetclient (CSend i) wire seen) → i < kQueriesEach →
      nstep (mkNet z cls ok) (mkNet z (<[c:=mkNetclient (CAwait i) (wire +:+ netLine (queryOf c i)) seen]> cls) ok)
  | n_read c i wire seen line rest more z cls ok :
      cls !! c = Some (mkNetclient (CAwait i) wire seen) →
      sentTo (logOf (y_log (z_system z)) c) = seen +:+ rest → takeLine rest = Some (line, more) →
      nstep (mkNet z cls ok)
        (mkNet z (<[c:=mkNetclient (CSend (S i)) wire (seen +:+ netLine line)]> cls)
           (if bool_decide (line = "OK") then S ok else ok))
  | n_close c wire seen z cls ok :
      cls !! c = Some (mkNetclient (CSend kQueriesEach) wire seen) →
      nstep (mkNet z cls ok) (mkNet z (<[c:=mkNetclient CClosed wire seen]> cls) ok)
  (* the server's socket calls *)
  | n_accept c f cl z z' cls ok :
      cls !! c = Some cl → n_state cl ≠ CConnect →
      zenv z z' → conns (srv z) !! c = None → conns (srv z') = <[c:=newConn f]> (conns (srv z)) →
      nstep (mkNet z cls ok) (mkNet z' cls ok)
  | n_recv c st data rest seen k peerClosed z z' cls ok :
      cls !! c = Some (mkNetclient st (data +:+ rest) seen) →
      (if peerClosed : bool then st = CClosed ∧ rest = "" else data ≠ "") →
      zenv z z' → conns (srv z) !! c = Some k → conns (srv z') = <[c:=receive k data]> (conns (srv z)) →
      phase (srv z) = LIdle → phase (srv z') = LLines c peerClosed false false →
      nstep (mkNet z cls ok) (mkNet z' (<[c:=mkNetclient st rest seen]> cls) ok)
  (* its threads *)
  | n_serve z z' cls ok :
      zrun z z' → allWritten (srv z') → nstep (mkNet z cls ok) (mkNet z' cls ok)
  (* [server.stop()], and the end of the scope *)
  | n_destroy z z' cls ok :
      Forall (λ cl, n_state cl = CClosed) cls → zenv z z' → stops (z_pool z) (z_pool z') →
      nstep (mkNet z cls ok) (mkNet z' cls ok).

(** A wait of a worker ends by itself. *)
Inductive nwake : net → net → Prop :=
  | n_wake z z' cls ok :
      zenv z z' → spurious (z_pool z) (z_pool z') → nwake (mkNet z cls ok) (mkNet z' cls ok).

Definition nmove (n n' : net) : Prop := nstep n n' ∨ nwake n n'.
End Net.

Arguments net : clear implicits.
