(* ===== verification/BenchServerSpec.v ===== *)
(** * The benchmark of the server, from socket to socket: invariants

    What the clients send stays within the server's limits, so that the server
    drops a connection only after its client has closed; and every step is none
    or one of [BenchClients.bstep]. *)

From S2P Require Import Prelude KeyIndex SharedPtr ThreadPool TCPServer TCPServerSpec TCPServerLive Database QueryExecutor QueryConcurrent QueryLinear QueryLinearSpec QueryProgress.
From S2P Require Import System SystemSpec SystemLive Service ServiceSpec ServiceLive BenchClients BenchServer.

(** ** The bytes of a client *)
Fixpoint stream (c m : nat) : string :=
  match m with O => "" | S m => stream c m +:+ netLine (queryOf c m) end.

Definition queryBytes : nat := 100.

Definition plainQuery (id : Z) : bool :=
  let q := insertQuery id in
  bool_decide (linesFrom "" (netLine q) = ([q], "")) && bool_decide (stripReturn q = q) && bool_decide (q ≠ "") &&
  (String.length q <? queryBytes).

Lemma all_plain : forallb plainQuery (seqZ 0 1000) = true.
Proof. vm_compute. reflexivity. Qed.

#[local] Opaque insertQuery.

Lemma queryOf_plain c i :
  c < kClients → i < kQueriesEach →
  linesFrom "" (netLine (queryOf c i)) = ([queryOf c i], "") ∧ stripReturn (queryOf c i) = queryOf c i ∧
  queryOf c i ≠ "" ∧ String.length (queryOf c i) < queryBytes.
Proof.
  intros Hc Hi. pose proof all_plain as H. rewrite forallb_forall in H.
  specialize (H (Z.of_nat (c * kQueriesEach + i))). unfold queryOf. unfold plainQuery in H.
  rewrite !andb_true_iff, !bool_decide_eq_true, Nat.ltb_lt in H. destruct H as [[[? ?] ?] ?]; [|done].
  apply list_elem_of_In, elem_of_seqZ. pose proof (query_range c i Hc Hi). lia.
Qed.

Lemma stream_lines c m : c < kClients → m ≤ kQueriesEach → linesFrom "" (stream c m) = (queryOf c <$> seq 0 m, "").
Proof.
  intros Hc. induction m as [|m IH]; intros Hm; [done|]. destruct (queryOf_plain c m Hc) as [Hl _]; [lia|]. cbn [stream].
  rewrite linesFrom_app, IH by lia. cbn [fst snd]. rewrite Hl, seq_S, fmap_app. done.
Qed.

Lemma stream_queries c m : c < kClients → m ≤ kQueriesEach → queries_of (stream c m) = queryOf c <$> seq 0 m.
Proof.
  intros Hc Hm. unfold queries_of, keepLines. rewrite stream_lines by done. cbn [fst].
  assert (Hall : ∀ i, i ∈ seq 0 m → stripReturn (queryOf c i) = queryOf c i ∧ queryOf c i ≠ "").
  { intros i Hi%elem_of_seq. destruct (queryOf_plain c i) as (_ & ? & ? & _); [done|lia|done]. }
  induction (seq 0 m) as [|i l IH]; [done|]. csimpl. destruct (Hall i) as [-> Hne]; [by left|].
  rewrite filter_cons_True by done. rewrite IH; [done|]. intros j Hj. apply Hall. by right.
Qed.

Lemma stream_residue c m : c < kClients → m ≤ kQueriesEach → residue (stream c m) = "".
Proof. intros Hc Hm. unfold residue. by rewrite stream_lines. Qed.

Lemma stream_length c m : c < kClients → m ≤ kQueriesEach → String.length (stream c m) ≤ m * queryBytes.
Proof.
  intros Hc. induction m as [|m IH]; intros Hm; [done|]. destruct (queryOf_plain c m Hc) as (_ & _ & _ & Hl); [lia|].
  cbn [stream]. unfold netLine. rewrite !string_length_app. simpl. specialize (IH ltac:(lia)). unfold queryBytes in *. lia.
Qed.

(** ** Connections that stay within the limits *)
Lemma linesFrom_length acc s : String.length (linesFrom acc s).2 ≤ String.length acc + String.length s.
Proof.
  revert acc. induction s as [|a s IH]; intros acc; cbn [linesFrom]; [simpl; lia|]. case_bool_decide.
  - specialize (IH ""). destruct (linesFrom "" s). simpl in *. lia.
  - specialize (IH (acc +:+ String a "")). rewrite string_length_app in IH. simpl in *. lia.
Qed.

(** What was received of a client is within the limits, however it was cut. *)
Record modest (k : conn) : Prop := {
  md_count : length (queries_of (received k)) ≤ kQueriesEach;
  md_size : Forall (λ q, String.length q ≤ queryBytes) (queries_of (received k));
  md_bytes : String.length (received k) ≤ kQueriesEach * queryBytes;
}.

Lemma stream_modest c m k rest :
  c < kClients → m ≤ kQueriesEach → received k +:+ rest = stream c m →
  modest k ∧ queries_of (received k) `prefix_of` (queryOf c <$> seq 0 m).
Proof.
  intros Hc Hm E. assert (Hp : queries_of (received k) `prefix_of` (queryOf c <$> seq 0 m)).
  { destruct (queries_of_app (received k) (received k) rest eq_refl) as (more & Hq & _).
    rewrite E, stream_queries in Hq by done. by exists more. }
  split; [|done]. split.
  - apply prefix_length in Hp. rewrite length_fmap, length_seq in Hp. lia.
  - assert (Hall : Forall (λ q, String.length q ≤ queryBytes) (queryOf c <$> seq 0 m)).
    { apply Forall_fmap, Forall_forall. intros i Hi%elem_of_seq. simpl. destruct (queryOf_plain c i Hc) as (_ & _ & _ & Hl); lia. }
    destruct Hp as [more Hp]. rewrite Hp in Hall. by apply Forall_app in Hall as [? _].
  - pose proof (stream_length c m Hc Hm) as Hl. rewrite <- E, string_length_app in Hl. unfold queryBytes in *. nia.
Qed.

(** The loop has read the end of the client's stream. *)
Definition ending (s : server) (c : nat) : bool :=
  match phase s with
  | LIdle => false
  | LLines c' pc _ _ | LAfter c' pc _ _ => bool_decide (c' = c) && pc
  | LEnd c' d => bool_decide (c' = c) && d
  | LDrop c' => bool_decide (c' = c)
  end || (if conns s !! c is Some k then closed k else false).

(** No limit was exceeded. *)
Definition overLimitOf (p : lphase) : bool := match p with LLines _ _ _ ol | LAfter _ _ _ ol => ol | _ => false end.

Record calm (s : server) : Prop := {
  ca_conns : ∀ c k, conns s !! c = Some k → overran k = false;
  ca_phase : overLimitOf (phase s) = false;
}.

Lemma modest_pass k k' r : conn_data k → modest k → overran k = false → splitPass k = (k', r) → r ≠ PLimit ∧ overran k' = false.
Proof.
  intros Hd Hm Ho. destruct (cd_lines _ Hd Ho) as [Hq _]. pose proof (cd_order _ Hd) as Hord. unfold splitPass.
  destruct (takeLine (inbox k)) as [[raw rest]|] eqn:Ht; [|by intros [= <- <-]]. destruct (queries_of_take _ _ _ Ht) as [Hq' _].
  case_bool_decide as Hne; [by intros [= <- <-]|].
  assert (Hin : stripReturn raw ∈ queries_of (received k)) by (rewrite Hq, Hq'; apply elem_of_app; right; by left).
  pose proof (proj1 (Forall_forall _ _) (md_size _ Hm) _ Hin) as Hs. simpl in Hs.
  destruct (N.ltb_spec kMaxLineBytes (sizeN (stripReturn raw))) as [Hl|_]; [unfold sizeN, kMaxLineBytes, queryBytes in *; lia|].
  assert (length (pending k) ≤ kQueriesEach) as Hp.
  { etrans; [|exact (md_count _ Hm)]. apply sublist_length in Hord. rewrite Hq, !length_app in *. lia. }
  destruct (N.leb_spec kMaxPendingQueries (N.of_nat (length (pending k)))) as [Hl|_]; [unfold kMaxPendingQueries, kQueriesEach in *; lia|].
  by intros [= <- <-].
Qed.

Lemma modest_inbox k : conn_data k → modest k → quiet k → inboxOver k = false.
Proof.
  intros Hd Hm [Hn Ho]. destruct (cd_lines _ Hd Ho) as [_ Hr]. destruct (queries_of_none _ Hn) as [_ E]. rewrite E in Hr.
  unfold inboxOver. apply N.ltb_ge. rewrite <- Hr. pose proof (linesFrom_length "" (received k)) as Hl. simpl in Hl.
  unfold sizeN, residue. pose proof (md_bytes _ Hm). unfold kMaxLineBytes, kQueriesEach, queryBytes in *. lia.
Qed.

Lemma calm_update m m' cs o o' p p' c k k' :
  calm (mkServer m cs o p) → cs !! c = Some k → overran k' = false → overLimitOf p' = false →
  calm (mkServer m' (<[c:=k']> cs) o' p').
Proof. intros [H1 H2] Hk Ho Hp. split; simpl; [|done]. intros c' k1 [[_ <-]|[_ Hk1]]%lookup_insert_Some; [done|by eapply H1]. Qed.

(** A worker leaves what the loop has read. *)
Lemma wstep_same s s' :
  wstep s s' → ∃ c k k', conns s !! c = Some k ∧ conns s' = <[c:=k']> (conns s) ∧ phase s' = phase s ∧
    received k' = received k ∧ overran k' = overran k ∧ closed k' = closed k.
Proof.
  intros [(c & a & Hs)|(c & q & b & Hs)]; [destruct Hs as [k i m cs o p Hk Hi|k k' i q m cs o p Hk Hi Ht|k k' i b m cs o p Hk Hi Ht
    |k k' i b m cs o p Hk Hi Ht]|destruct Hs as [k i m cs o p Hk Hi|k i m cs o p Hk Hi]]; simpl;
    eexists c, k, _; (split; [exact Hk|]); (split; [reflexivity|]); try done;
    first [injection Ht as <- _; done|unfold taskTake in Ht; destruct (pending k); by simplify_eq].
Qed.

Lemma received_update (cs : gmap nat conn) c k k' c' :
  cs !! c = Some k → received k' = received k → received <$> (<[c:=k']> cs !! c') = received <$> (cs !! c').
Proof. intros Hk E. destruct (decide (c' = c)) as [->|Hne]; [rewrite lookup_insert_eq, Hk; simpl; by f_equal|by rewrite lookup_insert_ne]. Qed.

Lemma istep_received s s' c : istep s s' → received <$> (conns s' !! c) = received <$> (conns s !! c).
Proof.
  intros [(c' & k & k' & Hk & -> & _ & Hr & _)%wstep_same|[Hs Hp]]; [by eapply received_update|].
  destruct Hs as [|f c' k data pc m cs o Hf Hk|c' k k' r pc sd ol m cs o Hk Hpa|c' k pc sd ol m cs o Hk|c' m cs o
    |c' k m cs o Hk Hm|c' k c'' m cs o Hk Hm|c' k k' b m cs o Hk Hd]; simpl in *; try done; (eapply received_update; [exact Hk|]).
  - unfold splitPass in Hpa. repeat (case_match; simplify_eq; try done).
  - by destruct sd.
  - by injection Hd as <- _.
Qed.

Lemma ending_update m m' cs o o' p p' c k k' c' :
  cs !! c = Some k →
  (c' ≠ c → ending (mkServer m' cs o' p') c' = ending (mkServer m cs o p) c') →
  (ending (mkServer m' (<[c:=k']> cs) o' p') c = ending (mkServer m cs o p) c) →
  ending (mkServer m' (<[c:=k']> cs) o' p') c' = ending (mkServer m cs o p) c'.
Proof.
  intros Hk Hother Hself. destruct (decide (c' = c)) as [->|Hne]; [done|]. rewrite <- Hother by done.
  unfold ending. simpl. by rewrite lookup_insert_ne.
Qed.

Lemma ending_other m m' cs o o' p p' c c' :
  (loop_conn p = None ∨ loop_conn p = Some c) → (loop_conn p' = None ∨ loop_conn p' = Some c) → c' ≠ c →
  ending (mkServer m' cs o' p') c' = ending (mkServer m cs o p) c'.
Proof.
  intros H1 H2 Hne. assert (H : ∀ p0, loop_conn p0 = None ∨ loop_conn p0 = Some c → ∀ m0 o0, ending (mkServer m0 cs o0 p0) c' =
    (if cs !! c' is Some k then closed k else false)); [|by rewrite !H].
  intros p0 Hp m0 o0. unfold ending. destruct p0; simpl in *; try done; (rewrite bool_decide_false; [done|]); intros ->; destruct Hp; congruence.
Qed.

(** The steps of the server keep within the limits, and drop a connection only
    after the end of its stream. *)
Lemma istep_calm s s' :
  sinv s → calm s → (∀ c k, conns s !! c = Some k → modest k) → istep s s' → calm s' ∧ ∀ c, ending s' c = ending s c.
Proof.
  intros H Hc Hm [(c & k & k' & Hk & Hcs & Hp & _ & Ho & Hcl)%wstep_same|[Hs Hp]].
  { destruct s as [m cs o p], s' as [m' cs' o' p']. simpl in *. subst. split.
    - eapply calm_update; [done|done|rewrite Ho; by apply (ca_conns _ Hc c)|apply (ca_phase _ Hc)].
    - intros c'. unfold ending. simpl. f_equal. destruct (decide (c' = c)) as [->|Hne]; [by rewrite lookup_insert_eq, Hk|by rewrite lookup_insert_ne]. }
  destruct Hs as [|f c k data pc m cs o Hf Hk|c k k' r pc sd ol m cs o Hk Hpa|c k pc sd ol m cs o Hk|c m cs o
    |c k m cs o Hk Hm'|c k c' m cs o Hk Hm'|c k k' b m cs o Hk Hd]; try done.
  - conn_of H Hk Hi. pose proof (ca_phase _ Hc) as Hol. simpl in Hol. subst ol. assert (Hcl : closed k = false) by by apply (ci_work _ _ _ _ Hi).
    destruct (modest_pass k k' r) as [Hr Ho]; [apply (ci_data _ _ _ _ Hi)|by eapply Hm|by apply (ca_conns _ Hc c)|done|].
    destruct (splitPass_inv _ _ _ _ _ _ _ Hi Hpa) as [Hi' _]. assert (Hcl' : closed k' = false) by (apply (ci_work _ _ _ _ Hi'); by destruct r).
    split; [eapply calm_update; [done|done|done|by destruct r]|]. intros c'. eapply ending_update; [done| |].
    + intros Hne. eapply (ending_other _ _ _ _ _ _ _ c); [by right|by destruct r; right|done].
    + unfold ending. simpl. rewrite lookup_insert_eq, Hk, Hcl, Hcl'. by destruct r.
  - conn_of H Hk Hi. pose proof (ca_phase _ Hc) as Hol. simpl in Hol. subst ol. assert (Hcl : closed k = false) by by apply (ci_work _ _ _ _ Hi).
    assert (inboxOver k = false) as ->.
    { apply modest_inbox; [apply (ci_data _ _ _ _ Hi)|by eapply Hm|]. by apply (ci_inbox _ _ _ _ Hi). }
    split; [eapply calm_update; [done|done| |done]; destruct sd; exact (ca_conns _ Hc c k Hk)|]. intros c'. eapply ending_update; [done| |].
    + intros Hne. eapply (ending_other _ _ _ _ _ _ _ c); [by right|by right|done].
    + unfold ending. simpl. rewrite lookup_insert_eq, Hk, Hcl. rewrite !orb_false_r. by destruct sd; simpl; rewrite ?Hcl, ?orb_false_r.
  - split; [split; [apply (ca_conns _ Hc)|done]|]. intros c'. unfold ending. simpl. by rewrite andb_false_r.
  - assert (m !! fd k = Some c) by by eapply loop_registered. congruence.
  - assert (Hm2 : m !! fd k = Some c) by by eapply loop_registered. assert (c' = c) as -> by congruence.
    split; [split; [apply (ca_conns _ Hc)|done]|]. intros c'. unfold ending. simpl. by rewrite andb_true_r.
  - injection Hd as <- <-. split; [eapply calm_update; [done|done|exact (ca_conns _ Hc c k Hk)|done]|]. intros c'. eapply ending_update; [done| |].
    + intros Hne. eapply (ending_other _ _ _ _ _ _ _ c); [by right|by left|done].
    + unfold ending. simpl. by rewrite lookup_insert_eq, bool_decide_true.
Qed.

(** ** The clients *)
Definition sentBy (st : cstate) : nat :=
  match st with CConnect => 0 | CSend i => i | CAwait i => S i | CClosed => kQueriesEach end.
Definition readBy (st : cstate) : nat :=
  match st with CConnect => 0 | CSend i | CAwait i => i | CClosed => kQueriesEach end.

Definition receivedOf (s : server) (c : nat) : string := default "" (received <$> conns s !! c).

Record client_ok (s : server) (log : list answered) (c : nat) (cl : netclient) : Prop := {
  cl_bound : sentBy (n_state cl) ≤ kQueriesEach;
  cl_read : readBy (n_state cl) ≤ length log;
  cl_seen : n_seen cl = sentTo (firstn (readBy (n_state cl)) log);
  cl_wire : receivedOf s c +:+ n_wire cl = stream c (sentBy (n_state cl));
  cl_open : n_state cl ≠ CClosed → ending s c = false;
}.

(** The server and the log go on. *)
Lemma client_frame s s' log log' c cl :
  client_ok s log c cl → receivedOf s' c = receivedOf s c → ending s' c = ending s c → log `prefix_of` log' →
  client_ok s' log' c cl.
Proof.
  intros [H1 H2 H3 H4 H5] Hr He [more ->]. split; [done| |by rewrite take_app_le|by rewrite Hr|by rewrite He].
  rewrite length_app. lia.
Qed.

Section Inv.
Context {Ix Dx : Type} `{!KeyIndex Z nat Ix} `{!KeyIndexLaws Z nat Ix}.
Context `{!KeyIndex string SharedPtr Dx} `{!KeyIndexLaws string SharedPtr Dx}.
Abbreviation Y := (system Ix Dx).
Abbreviation Zs := (service Ix Dx).
Implicit Types (y : Y) (z : Zs).

(** *** What the steps of the service's threads are *)
Lemma yistep_server y y' : yistep y y' → y_server y' = y_server y ∨ istep (y_server y) (y_server y').
Proof.
  intros [[l Hs]|[Hs Hp]]; destruct Hs; simpl in *; [right; left; left; by eexists _, _|by left|by left| |right; by right].
  right; left; right; eauto.
Qed.

Lemma zrun_system z z' :
  zrun z z' → (z_closed z' = false ∧ (z_system z' = z_system z ∨ yistep (z_system z) (z_system z'))) ∨
    (z_closed z' = true ∧ z_system z' = closeAfter (z_system z)).
Proof.
  intros [y y' p Hl Hd Hp _|c y y' p p' Hl Hd Hn Hp Hc|c y y' p p' Hw Hp Hc|c y y' p Hw Hc|y y' p Hw
    |c y y' p p' Hw Hp Hc|y p p' Hp Hc Hsp Hst|y p Hd]; simpl; try (left; split; [done|]; right; left; by eexists).
  - left. split; [done|]. right. by right.
  - left. split; [done|]. right. right. split; [done|]. intros E. by rewrite E in Hn.
  - left. split; [done|]. by left.
  - by right.
Qed.

Lemma ystep_log y y' c : yistep y y' → logOf (y_log y) c `prefix_of` logOf (y_log y') c.
Proof.
  intros [[l Hs]|[Hs Hp]]; destruct Hs; simpl; try done. destruct written; [|done].
  rewrite logOf_insert. case_decide; [subst; by apply prefix_app_r|done].
Qed.

(** *** The clients' calls *)
Definition answeredBy y (c : nat) : client := (length (logOf (y_log y) c), y_calls y !! c).
Definition viewOf y (ok : nat) : bench Ix Dx := mkBench (y_world y) (answeredBy y <$> seq 0 kClients) ok.

Lemma fmap_seq_update {A} (f f' : nat → A) n c :
  (∀ c', c' ≠ c → f' c' = f c') → f' <$> seq 0 n = <[c:=f' c]> (f <$> seq 0 n).
Proof.
  intros H. apply list_eq. intros i. destruct (decide (i = c)) as [->|Hne].
  - destruct (decide (c < n)) as [Hc|Hc].
    + rewrite list_lookup_insert_eq by (by rewrite length_fmap, length_seq). by rewrite list_lookup_fmap, lookup_seq_lt.
    + rewrite list_insert_ge, !list_lookup_fmap, lookup_seq_ge by (rewrite ?length_fmap, ?length_seq; lia). done.
  - rewrite list_lookup_insert_ne, !list_lookup_fmap by done. destruct (seq 0 n !! i) as [j|] eqn:E; [|done].
    apply lookup_seq in E as [-> _]. simpl. by rewrite H.
Qed.

Lemma answeredBy_lookup y c : c < kClients → (answeredBy y <$> seq 0 kClients) !! c = Some (answeredBy y c).
Proof. intros Hc. by rewrite list_lookup_fmap, lookup_seq_lt. Qed.

(** A query in execution is the next one of its client. *)
Definition next_queries y : Prop := ∀ c k i q,
  conns (y_server y) !! c = Some k → tasks k !! i = Some (TExec q) →
  c < kClients ∧ length (logOf (y_log y) c) < kQueriesEach ∧ q = queryOf c (length (logOf (y_log y) c)).

Lemma yistep_view y y' ok :
  next_queries y → allWritten (y_server y') → yistep y y' → ∃ ok', rtc bstep (viewOf y ok) (viewOf y' ok').
Proof.
  intros Hq Hwr [[l Hs]|[Hs _]]; [|destruct Hs; by exists ok]. destruct Hs as [c a s s' w cl lg Hk|c k i q s w w' cl lg Hk Hi Hc Hw Hh
    |s w w' cl lg Hw Hh|c q written id r s s' w w' cl lg Hc Ha Hw Hh]; [by exists ok| | |].
  - destruct (Hq c k i q Hk Hi) as (Hlt & Hlen & ->). simpl in *. exists ok. apply rtc_once. unfold viewOf. cbn [y_world].
    rewrite (fmap_seq_update (answeredBy (mkSystem s w cl lg)) (answeredBy (mkSystem s w' (<[c:=w_next w]> cl) lg)) _ c).
    + unfold answeredBy at 2. cbn [y_log y_calls]. rewrite lookup_insert_eq. eapply b_send; [|done|done|done].
      rewrite answeredBy_lookup by done. unfold answeredBy. simpl. by rewrite Hc.
    + intros c' Hne. unfold answeredBy. simpl. by rewrite lookup_insert_ne.
  - exists ok. apply rtc_once. by apply b_serve.
  - assert (∃ k i, conns s !! c = Some k ∧ tasks k !! i = Some (TExec q)) as (k & i & Hk & Hi) by (destruct Ha; simpl; eauto).
    destruct (Hq c k i q Hk Hi) as (Hlt & Hlen & _). simpl in *. destruct written.
    2:{ exfalso. inversion Ha; subst. specialize (Hwr c). simpl in Hwr. rewrite lookup_insert_eq in Hwr. by specialize (Hwr _ eq_refl). }
    eexists. apply rtc_once. unfold viewOf. cbn [y_world].
    rewrite (fmap_seq_update (answeredBy (mkSystem s w cl lg))
      (answeredBy (mkSystem s' w' (delete c cl) (<[c:=logOf lg c ++ [mkAnswered id q r]]> lg))) _ c).
    + unfold answeredBy at 2. cbn [y_log y_calls]. rewrite lookup_delete_eq, logOf_insert, decide_True, length_app, Nat.add_1_r by done.
      eapply b_reply; [|done|done]. rewrite answeredBy_lookup by done. unfold answeredBy. simpl. by rewrite Hc.
    + intros c' Hne. unfold answeredBy. simpl. by rewrite lookup_delete_ne, logOf_insert, decide_False by done.
Qed.

(** *** The socket calls *)
Definition onlyServer z z' : Prop :=
  z_pool z' = z_pool z ∧ y_world (z_system z') = y_world (z_system z) ∧ y_calls (z_system z') = y_calls (z_system z) ∧
  y_log (z_system z') = y_log (z_system z).

Lemma accept_step z z' c f :
  zenv z z' → conns (srv z) !! c = None → conns (srv z') = <[c:=newConn f]> (conns (srv z)) →
  onlyServer z z' ∧ phase (srv z) = LIdle ∧ phase (srv z') = LIdle.
Proof.
  intros Hs Hc Hc'. assert (Hsame : conns (srv z') !! c ≠ None) by (by rewrite Hc', lookup_insert_eq).
  destruct Hs as [y y' p Hl Hd Hp|y p p' Hp Hsp|y p p' Hp Hst Hi]; unfold srv in *; simpl in *; [|done|done].
  destruct Hl as [s s' w cl lg Hl]. simpl in *. destruct Hl; simpl in *; try done.
  destruct Hsame. rewrite lookup_insert_ne; [done|]. intros ->. congruence.
Qed.

Lemma recv_step z z' c pc : zenv z z' → phase (srv z) = LIdle → phase (srv z') = LLines c pc false false → onlyServer z z'.
Proof.
  intros Hs Hp Hp'. destruct Hs as [y y' p Hl Hd _|y p p' _ Hsp|y p p' _ Hst Hi]; unfold srv in *; simpl in *; [|congruence|congruence].
  by destruct Hl.
Qed.

Lemma zrun_dtor z z' : zrun z z' → dtor (z_pool z) = DIdle → dtor (z_pool z') = DIdle.
Proof.
  intros Hs Hd. destruct (decide (dtor (z_pool z') = DIdle)) as [|Hne]; [done|exfalso].
  assert (Hst : stops (z_pool z) (z_pool z')) by done.
  assert (Hb : pstep (z_pool z) (z_pool z') → betweenTasks (z_pool z) (z_pool z')) by (intros; by apply stops_between).
  destruct Hs as [y y' p Hl _ Hp _|c y y' p p' Hl _ Hn Hp Hc|c y y' p p' Hw Hp Hc|c y y' p Hw Hc|y y' p Hw
    |c y y' p p' Hw Hp Hc|y p p' Hp Hc Hsp Hno|y p Hd']; simpl in *; try congruence; destruct (Hb Hp) as (E1 & E2 & E3).
  - rewrite Hc in E1. symmetry in E1. by apply snoc_self in E1.
  - rewrite Hc in E2. symmetry in E2. by apply snoc_self in E2.
  - rewrite Hc in E3. symmetry in E3. by apply snoc_self in E3.
Qed.

(** *** The invariant *)
Definition readOf (cls : list netclient) : nat := sum_list ((λ cl, readBy (n_state cl)) <$> cls).

Record ninv (w : qworld Ix Dx) (n : net Ix Dx) : Prop := {
  ni_service : zreach kWorkers (n_service n);
  ni_calm : calm (srv (n_service n));
  ni_written : allWritten (srv (n_service n));
  ni_len : length (n_clients n) = kClients;
  ni_dom : ∀ c k, conns (srv (n_service n)) !! c = Some k → c < kClients;
  ni_clients : ∀ c cl, n_clients n !! c = Some cl →
    client_ok (srv (n_service n)) (logOf (y_log (z_system (n_service n))) c) c cl;
  ni_view : ∃ ok, rtc bstep (startClients w) (viewOf (z_system (n_service n)) ok);
  ni_ok : n_ok n = readOf (n_clients n);
  ni_over : dtor (z_pool (n_service n)) ≠ DIdle → Forall (λ cl, n_state cl = CClosed) (n_clients n);
}.

Lemma ninv_conn w n c k :
  ninv w n → conns (srv (n_service n)) !! c = Some k →
  ∃ cl, n_clients n !! c = Some cl ∧ c < kClients ∧ client_ok (srv (n_service n)) (logOf (y_log (z_system (n_service n))) c) c cl ∧
    received k +:+ n_wire cl = stream c (sentBy (n_state cl)).
Proof.
  intros H Hk. pose proof (ni_dom _ _ H _ _ Hk) as Hc. pose proof Hc as Hl. rewrite <- (ni_len _ _ H) in Hl.
  apply lookup_lt_is_Some_2 in Hl as [cl Hcl]. exists cl. pose proof (ni_clients _ _ H _ _ Hcl) as Hok.
  split_and!; [done|done|done|]. rewrite <- (cl_wire _ _ _ _ Hok). unfold receivedOf. by rewrite Hk.
Qed.

Lemma ninv_modest w n c k : ninv w n → conns (srv (n_service n)) !! c = Some k → modest k.
Proof.
  intros H Hk. destruct (ninv_conn _ _ _ _ H Hk) as (cl & _ & Hc & Hok & E).
  by eapply stream_modest; [|apply (cl_bound _ _ _ _ Hok)|].
Qed.

Lemma ninv_zinv w n : ninv w n → z_closed (n_service n) = false → zinv kWorkers (z_system (n_service n)) (z_pool (n_service n)).
Proof. intros H Hc. pose proof (ni_service _ _ H) as Hz. unfold zreach in Hz. by rewrite Hc in Hz. Qed.

Lemma ninv_queries w n : ninv w n → z_closed (n_service n) = false → next_queries (z_system (n_service n)).
Proof.
  intros H Hcl c k i q Hk Hi. pose proof (ninv_zinv _ _ H Hcl) as Hz. pose proof (yinv_reachable _ (zi_system _ _ _ Hz)) as Hy.
  destruct (ninv_conn _ _ _ _ H Hk) as (cl & _ & Hc & Hok & E). pose proof (cl_bound _ _ _ _ Hok) as Hb.
  destruct (stream_modest _ _ _ _ Hc Hb E) as [_ Hp]. pose proof (si_conn _ (zinv_sinv _ _ _ Hz) _ _ Hk) as Hi'.
  destruct (task_busy _ _ _ _ _ _ Hi' Hi) as (_ & _ & _ & _ & Ht). pose proof (ci_data _ _ _ _ Hi') as Hd.
  destruct (cd_exact _ Hd (ni_written _ _ H _ _ Hk)) as [He _]. pose proof (yi_executed _ Hy _ _ Hk) as Hlog.
  apply (f_equal length) in Hlog. rewrite length_fmap in Hlog. rewrite Hlog.
  assert (Hq : (queryOf c <$> seq 0 (sentBy (n_state cl))) !! length (executed k) = Some q).
  { eapply prefix_lookup_Some; [|exact Hp]. eapply prefix_lookup_Some; [|exact (cd_prefix _ Hd)]. rewrite <- He. unfold current. rewrite Ht.
    simpl. by rewrite list_lookup_middle. }
  rewrite list_lookup_fmap in Hq. destruct (seq 0 _ !! length (executed k)) as [j|] eqn:Hj; simplify_eq/=.
  apply lookup_seq in Hj as [-> Hj]. split_and!; [done|lia|done].
Qed.

(** *** Every step keeps it *)
Lemma ninv_start w : idleWorld w → ninv w (startNet w).
Proof.
  intros Hw. unfold startNet. split; cbn [n_service n_clients n_ok].
  - by apply zinv_new.
  - by split.
  - done.
  - by rewrite length_replicate.
  - done.
  - intros c cl [-> Hc]%lookup_replicate. by split; simpl; unfold kQueriesEach; try lia.
  - by exists 0.
  - unfold readOf. rewrite fmap_replicate, sum_list_replicate. simpl. lia.
  - done.
Qed.

Lemma zenv_open z z' : zenv z z' → z_closed z = false ∧ z_closed z' = false.
Proof. by intros []. Qed.

Lemma zrun_open z z' : zrun z z' → z_closed z = false.
Proof. by intros []. Qed.

Lemma zrun_closing z z' : zrun z z' → z_closed z' = true → dtor (z_pool z) = DDone.
Proof. by intros []. Qed.

(** The service moves and the clients do not. *)
Lemma ninv_service w z z' cls ok :
  ninv w (mkNet z cls ok) → zstep z z' → calm (srv z') → allWritten (srv z') →
  (∀ c, is_Some (conns (srv z') !! c) → is_Some (conns (srv z) !! c) ∨ c < kClients) →
  (∀ c cl, cls !! c = Some cl → client_ok (srv z') (logOf (y_log (z_system z')) c) c cl) →
  (∀ ok, ∃ ok', rtc bstep (viewOf (z_system z) ok) (viewOf (z_system z') ok')) →
  (dtor (z_pool z') ≠ DIdle → dtor (z_pool z) ≠ DIdle ∨ Forall (λ cl, n_state cl = CClosed) cls) →
  ninv w (mkNet z' cls ok).
Proof.
  intros [H1 H2 H3 H4 H5 H6 [okv H7] H8 H9] Hs Hc Hw Hd Hcl Hv Ho. simpl in *. split; simpl; try done.
  - by eapply zreach_step.
  - intros c k Hk. destruct (Hd c) as [[k0 Hk0]|]; [by exists k|by eapply H5|done].
  - destruct (Hv okv) as [ok' Hv']. exists ok'. by etrans.
  - intros Hne. destruct (Ho Hne); auto.
Qed.

(** The same for steps that leave the connections' streams and the log as they are. *)
Lemma clients_frame w z z' cls ok :
  ninv w (mkNet z cls ok) → (∀ c, receivedOf (srv z') c = receivedOf (srv z) c ∧ ending (srv z') c = ending (srv z) c ∧
    logOf (y_log (z_system z)) c `prefix_of` logOf (y_log (z_system z')) c) →
  ∀ c cl, cls !! c = Some cl → client_ok (srv z') (logOf (y_log (z_system z')) c) c cl.
Proof. intros H Hf c cl Hcl. destruct (Hf c) as (? & ? & ?). by eapply client_frame; [apply (ni_clients _ _ H _ _ Hcl)|..]. Qed.

Lemma istep_receivedOf s s' c : istep s s' → receivedOf s' c = receivedOf s c ∧ (is_Some (conns s' !! c) → is_Some (conns s !! c)).
Proof.
  intros Hs. pose proof (istep_received _ _ c Hs) as E. unfold receivedOf. rewrite E. split; [done|].
  rewrite <- (fmap_is_Some received), <- (fmap_is_Some received (conns s !! c)). by rewrite E.
Qed.

Lemma closed_idle z : zreach kWorkers z → dtor (z_pool z) ≠ DIdle → phase (srv z) = LIdle.
Proof.
  intros Hz Hd. unfold zreach in Hz. destruct (z_closed z); [|by apply (zi_dtor _ _ _ Hz)].
  destruct Hz as (y & _ & _ & E). unfold srv. by rewrite E.
Qed.

Lemma ninv_run w z z' cls ok :
  ninv w (mkNet z cls ok) → zrun z z' → allWritten (srv z') → ninv w (mkNet z' cls ok).
Proof.
  intros H Hs Hw. pose proof (zrun_open _ _ Hs) as Hop. pose proof (ninv_zinv _ _ H Hop) as Hz. simpl in Hz.
  assert (Hd : dtor (z_pool z') ≠ DIdle → dtor (z_pool z) ≠ DIdle) by (intros Hne E; by apply Hne, (zrun_dtor z)).
  assert (Hsame : conns (srv z') = conns (srv z) → phase (srv z') = phase (srv z) → y_log (z_system z') = y_log (z_system z) →
    viewOf (z_system z') = viewOf (z_system z) → ninv w (mkNet z' cls ok)).
  { intros E1 E2 E3 E4. eapply ninv_service; [done|by right| |done|by rewrite E1; auto| |rewrite E4; intros okv; by exists okv|by auto].
    - destruct (ni_calm _ _ H). split; by rewrite ?E1, ?E2.
    - eapply clients_frame; [done|]. intros c. unfold receivedOf, ending. by rewrite E1, E2, E3. }
  destruct (zrun_system _ _ Hs) as [[_ [E|Hy]]|[Hcl E]]; [unfold srv in *; apply Hsame; by rewrite E| |].
  - destruct (yistep_server _ _ Hy) as [E|Hi].
    + eapply ninv_service; [done|by right| |done|unfold srv; rewrite E; by auto| | |by auto].
      * destruct (ni_calm _ _ H). unfold srv. by rewrite E.
      * eapply clients_frame; [done|]. intros c. unfold srv. rewrite E. split_and!; [done|done|by apply ystep_log].
      * intros okv. apply yistep_view; [by apply (ninv_queries _ _ H)|done|done].
    + destruct (istep_calm _ _ (zinv_sinv _ _ _ Hz) (ni_calm _ _ H) (λ c k, ninv_modest _ _ c k H) Hi) as [Hc He].
      eapply ninv_service; [done|by right|done|done| | | |by auto].
      * intros c Hc'. left. by apply (istep_receivedOf _ _ c Hi).
      * eapply clients_frame; [done|]. intros c. split_and!; [by apply istep_receivedOf|apply He|by apply ystep_log].
      * intros okv. apply yistep_view; [by apply (ninv_queries _ _ H)|done|done].
  - assert (Hp : phase (srv z) = LIdle).
    { apply (zi_dtor _ _ _ Hz). by rewrite (zrun_closing _ _ Hs Hcl). }
    apply Hsame; unfold srv in *; by rewrite E.
Qed.

Lemma view_same z z' ok : onlyServer z z' → ∃ ok', rtc bstep (viewOf (z_system z) ok) (viewOf (z_system z') ok').
Proof. intros (_ & E1 & E2 & E3). exists ok. unfold viewOf, answeredBy. by rewrite E1, E2, E3. Qed.

Lemma ninv_accept w z z' cls ok c f :
  ninv w (mkNet z cls ok) → c < kClients → zenv z z' → conns (srv z) !! c = None → conns (srv z') = <[c:=newConn f]> (conns (srv z)) →
  ninv w (mkNet z' cls ok).
Proof.
  intros H Hlt Hs Hc Hc'. destruct (accept_step _ _ _ _ Hs Hc Hc') as (Ho & Hp & Hp').
  pose proof (view_same z z') as Hv. destruct Ho as (E1 & E2 & E3 & E4).
  eapply ninv_service; [done|by left| | | | |intros; by apply Hv|by rewrite E1; auto].
  - destruct (ni_calm _ _ H) as [H1 _]. split; [|by rewrite Hp']. rewrite Hc'. intros c1 k [[_ <-]|[_ Hk]]%lookup_insert_Some; [done|by eapply H1].
  - pose proof (ni_written _ _ H) as Hw. intros c1 k. rewrite Hc'. intros [[_ <-]|[_ Hk]]%lookup_insert_Some; [done|by eapply Hw].
  - rewrite Hc'. intros c1 [k [[<- _]|[_ Hk]]%lookup_insert_Some]; [by right|left; eauto].
  - eapply clients_frame; [done|]. intros c1. unfold receivedOf, ending. rewrite Hc', Hp, Hp', E4. split_and!; [| |done];
      (destruct (decide (c1 = c)) as [->|Hne]; [by rewrite lookup_insert_eq, Hc|by rewrite lookup_insert_ne]).
Qed.

Lemma ninv_same w z z' cls ok :
  ninv w (mkNet z cls ok) → zenv z z' → z_system z' = z_system z →
  (dtor (z_pool z') ≠ DIdle → dtor (z_pool z) ≠ DIdle ∨ Forall (λ cl, n_state cl = CClosed) cls) →
  ninv w (mkNet z' cls ok).
Proof.
  intros H Hs E Hd. assert (Hsrv : srv z' = srv z) by (unfold srv; by rewrite E).
  eapply ninv_service; [done|by left|rewrite Hsrv; apply H|rewrite Hsrv; apply H|rewrite Hsrv; by auto| | |done].
  - rewrite Hsrv, E. apply (ni_clients _ _ H).
  - intros okv. exists okv. by rewrite E.
Qed.

Lemma ninv_wake w n n' : ninv w n → nwake n n' → ninv w n'.
Proof.
  intros H Hs. destruct Hs as [z z' cls ok Hs Hsp]. eapply ninv_same; [done|done| |].
  - destruct Hs as [y y' p Hl|y p p' _ _|y p p' _ Hst Hi]; [|done|done]. simpl in *. destruct Hsp as (i & Hi & E).
    apply (f_equal workers) in E. simpl in E. apply (f_equal (.!! i)) in E.
    rewrite list_lookup_insert_eq in E by (by eapply lookup_lt_Some). congruence.
  - destruct Hsp as (i & _ & ->). by left.
Qed.

Lemma ninv_destroy w z z' cls ok :
  ninv w (mkNet z cls ok) → Forall (λ cl, n_state cl = CClosed) cls → zenv z z' → stops (z_pool z) (z_pool z') → ninv w (mkNet z' cls ok).
Proof.
  intros H Hall Hs Hst. eapply ninv_same; [done|done| |by auto].
  destruct Hs as [y y' p Hl|y p p' _ _|y p p' _ Hst' Hi]; [|done|done]. simpl in *. by destruct Hst.
Qed.

(** A client moves. *)
Lemma readOf_insert cls c cl cl' :
  cls !! c = Some cl → readOf (<[c:=cl']> cls) + readBy (n_state cl) = readOf cls + readBy (n_state cl').
Proof.
  intros (l1 & l2 & -> & ->)%list_elem_of_split_length. rewrite insert_app_r_alt, Nat.sub_diag by lia. unfold readOf. simpl.
  rewrite !fmap_app, !sum_list_with_app. simpl. lia.
Qed.

Lemma ninv_client w z cls ok c cl cl' ok' :
  ninv w (mkNet z cls ok) → cls !! c = Some cl → n_state cl ≠ CClosed →
  client_ok (srv z) (logOf (y_log (z_system z)) c) c cl' → ok' + readBy (n_state cl) = ok + readBy (n_state cl') →
  ninv w (mkNet z (<[c:=cl']> cls) ok').
Proof.
  intros [H1 H2 H3 H4 H5 H6 H7 H8 H9] Hc Hne Hok Hsum. simpl in *. split; simpl; try done.
  - by rewrite length_insert.
  - intros c1 cl1 [(<- & <- & _)|[_ Hc1]]%list_lookup_insert_Some; [done|by apply H6].
  - pose proof (readOf_insert _ _ _ cl' Hc). lia.
  - intros Hd. specialize (H9 Hd). rewrite Forall_lookup in H9. by specialize (H9 _ _ Hc).
Qed.

Lemma ninv_recv w z z' cls ok c st data rest seen k (pc : bool) :
  ninv w (mkNet z cls ok) → cls !! c = Some (mkNetclient st (data +:+ rest) seen) →
  (if pc then st = CClosed ∧ rest = "" else data ≠ "") →
  zenv z z' → conns (srv z) !! c = Some k → conns (srv z') = <[c:=receive k data]> (conns (srv z)) →
  phase (srv z) = LIdle → phase (srv z') = LLines c pc false false →
  ninv w (mkNet z' (<[c:=mkNetclient st rest seen]> cls) ok).
Proof.
  intros H Hcl Hpc Hs Hk Hk' Hp Hp'. pose proof (recv_step _ _ _ _ Hs Hp Hp') as Ho.
  destruct Ho as (E1 & _ & _ & E4). destruct H as [H1 H2 H3 H4 H5 H6 [ok0 H7] H8 H9]. simpl in *. split; simpl.
  - eapply zreach_step; [done|by left].
  - destruct H2 as [H2 _]. split; [|by rewrite Hp']. rewrite Hk'. intros c1 k1 [[_ <-]|[_ Hk1]]%lookup_insert_Some; [by apply (H2 c k)|by eapply H2].
  - intros c1 k1. rewrite Hk'. intros [[_ <-]|[_ Hk1]]%lookup_insert_Some; [by apply (H3 c k)|by eapply H3].
  - by rewrite length_insert.
  - intros c1 k1. rewrite Hk'. intros [[<- _]|[_ Hk1]]%lookup_insert_Some; by eapply H5.
  - intros c1 cl1 [(<- & <- & _)|[Hne Hc1]]%list_lookup_insert_Some; rewrite E4.
    + destruct (H6 _ _ Hcl) as [G1 G2 G3 G4 G5]. simpl in *. split; simpl; try done.
      * unfold receivedOf in *. rewrite Hk', lookup_insert_eq. rewrite Hk in G4. simpl in *. by rewrite string_append_assoc.
      * intros Hst. specialize (G5 Hst). unfold ending in *. rewrite Hp', Hk', lookup_insert_eq. rewrite Hp, Hk in G5. simpl in *.
        rewrite G5. destruct pc; [by destruct Hpc|]. by rewrite andb_false_r.
    + eapply client_frame; [by apply H6| | |done]; unfold receivedOf, ending; rewrite Hk', ?Hp', ?Hp, lookup_insert_ne by done; [done|].
      by rewrite bool_decide_false.
  - destruct (view_same z z' ok0) as [ok1 Hv1]; [by apply (recv_step _ _ _ _ Hs Hp Hp')|]. exists ok1. by etrans.
  - pose proof (readOf_insert _ _ _ (mkNetclient st rest seen) Hcl) as E. simpl in E. lia.
  - rewrite E1. intros Hd. apply Forall_insert; [by apply H9|]. simpl. specialize (H9 Hd). rewrite Forall_lookup in H9. by apply (H9 _ _ Hcl).
Qed.

(** *** Replies *)
Lemma ninv_binv w n r0 :
  idleWorld w → w_hist w = [ECall 0 createUsers; EReturn 0 r0] → ninv w n → ∃ ok, binv r0 (viewOf (z_system (n_service n)) ok).
Proof.
  intros [Hr Ho] Hh H. destruct (ni_view _ _ H) as [ok Hv]. exists ok. eapply binv_steps; [|done]. by apply binv_start.
Qed.

Lemma ninv_replies w n r0 c a :
  idleWorld w → w_hist w = [ECall 0 createUsers; EReturn 0 r0] → ninv w n → z_closed (n_service n) = false →
  a ∈ logOf (y_log (z_system (n_service n))) c → a_reply a = "OK".
Proof.
  intros Hw Hh H Hcl Ha. destruct (ninv_binv _ _ _ Hw Hh H) as [ok Hb]. destruct (bi_calls _ _ Hb) as (h & Hhist & Hco). simpl in *.
  pose proof (yinv_reachable _ (zi_system _ _ _ (ninv_zinv _ _ H Hcl))) as Hy. destruct (yi_log _ Hy _ _ Ha) as [_ Hret].
  eapply replies_ok; [apply (bi_world _ _ Hb)|exact Hhist|exact Hco|exact Hret].
Qed.

Lemma string_app_cancel s s1 s2 : s +:+ s1 = s +:+ s2 → s1 = s2.
Proof. induction s as [|a s IH]; [done|]. rewrite !string_app_cons. intros [= E]. by apply IH. Qed.

Lemma sentTo_app l l' : sentTo (l ++ l') = sentTo l +:+ sentTo l'.
Proof.
  induction l as [|a l IH]; [done|]. cbn [app]. unfold sentTo in *. simpl. by rewrite IH, string_append_assoc.
Qed.

(** The reply that a client reads next. *)
Lemma next_reply log i rest line more :
  (∀ a, a ∈ log → a_reply a = "OK") → i ≤ length log → sentTo log = sentTo (firstn i log) +:+ rest → takeLine rest = Some (line, more) →
  line = "OK" ∧ S i ≤ length log ∧ sentTo (firstn (S i) log) = sentTo (firstn i log) +:+ netLine line.
Proof.
  intros Hok Hi E Ht. rewrite <- (firstn_skipn i log) in E at 1. rewrite sentTo_app in E. apply string_app_cancel in E. subst rest.
  destruct (skipn i log) as [|a l] eqn:Hd; [done|].
  assert (Ha : log !! i = Some a).
  { rewrite <- (firstn_skipn i log), Hd, lookup_app_r, length_take, Nat.min_l, Nat.sub_diag by (rewrite ?length_take; lia). done. }
  assert (a_reply a = "OK") as Hr by (eapply Hok, list_elem_of_lookup_2; exact Ha).
  unfold sentTo in Ht. simpl in Ht. rewrite Hr in Ht. vm_compute in Ht. injection Ht as <- _.
  split_and!; [done|by eapply lookup_lt_Some|]. rewrite (take_S_r log i a Ha), sentTo_app. f_equal. unfold sentTo. simpl. by rewrite Hr.
Qed.

Lemma ninv_step w r0 n n' :
  idleWorld w → w_hist w = [ECall 0 createUsers; EReturn 0 r0] → ninv w n → nmove n n' → ninv w n'.
Proof.
  intros Hw Hh H [Hs|Hs]; [|by eapply ninv_wake].
  destruct Hs as [c z cls ok Hc|c i wire seen z cls ok Hc Hi|c i wire seen line rest more z cls ok Hc E Ht|c wire seen z cls ok Hc
    |c f cl z z' cls ok Hc Hne Hs Hn Hn'|c st data rest seen k pc z z' cls ok Hc Hpc Hs Hk Hk' Hp Hp'|z z' cls ok Hs Hwr|z z' cls ok Ha Hs Hst].
  - pose proof (ni_clients _ _ H _ _ Hc) as [G1 G2 G3 G4 G5]. simpl in *. eapply ninv_client; [done|done|done|split; simpl; try done; by auto|done].
  - pose proof (ni_clients _ _ H _ _ Hc) as [G1 G2 G3 G4 G5]. simpl in *. eapply ninv_client; [done|done|done| |done].
    split; simpl; try done; [by rewrite <- G4, string_append_assoc|by auto].
  - pose proof (ni_clients _ _ H _ _ Hc) as [G1 G2 G3 G4 G5]. simpl in *.
    assert (Hop : z_closed z = false).
    { destruct (z_closed z) eqn:Hcl; [|done]. pose proof (ni_service _ _ H) as Hz. unfold zreach in Hz. simpl in Hz. rewrite Hcl in Hz.
      destruct Hz as (y & _ & Hd & _). pose proof (ni_over _ _ H) as Ho. simpl in Ho. rewrite Hd, Forall_lookup in Ho. by specialize (Ho ltac:(done) _ _ Hc). }
    rewrite G3 in E. destruct (next_reply _ i rest line more (λ a, ninv_replies _ _ r0 c a Hw Hh H Hop) G2 E Ht) as (-> & Hlen & Hsent).
    eapply ninv_client; [done|done|done| |simpl; lia]. cbn [n_service] in *. split; cbn [n_state n_wire n_seen sentBy readBy]; try done; [by rewrite Hsent, G3|by auto].
  - pose proof (ni_clients _ _ H _ _ Hc) as [G1 G2 G3 G4 G5]. simpl in *. eapply ninv_client; [done|done|done|split; simpl; try done; by auto|done].
  - eapply ninv_accept; [done| |done|done|done]. rewrite <- (ni_len _ _ H). by eapply lookup_lt_Some.
  - by eapply ninv_recv.
  - by eapply ninv_run.
  - by eapply ninv_destroy.
Qed.

Lemma ninv_steps w r0 n n' :
  idleWorld w → w_hist w = [ECall 0 createUsers; EReturn 0 r0] → ninv w n → rtc nmove n n' → ninv w n'.
Proof. intros Hw Hh H Hs. induction Hs as [|n1 n2 n3 Hs _ IH]; [done|]. apply IH. by eapply ninv_step. Qed.
End Inv.
