(* ===== verification/BenchServerMain.v ===== *)
(** * The benchmark of the server, from socket to socket: main theorem

    The clients and the server come to rest, and at rest every query of every
    client was answered OK, the table holds all their rows and the server is
    gone. *)

From S2P Require Import Prelude AssocList KeyIndex HashMap HashMapSpec SharedPtr ThreadPool ThreadPoolMain TCPServer TCPServerSpec TCPServerLive Table TableSpec Database DatabaseSpec.
From S2P Require Import QueryExecutor QueryConcurrent QueryRef QueryLinear QueryLinearSpec QueryProgress System SystemSpec SystemLive Service ServiceSpec ServiceLive.
From S2P Require Import BenchClients BenchServer BenchServerSpec.

(** ** Termination by three counts *)
Lemma sn_counts {A} (R : relation A) (P : A → Prop) (a b c : A → nat) :
  (∀ x y, P x → R x y → P y) →
  (∀ x y, P x → R x y → a y < a x ∨ a y ≤ a x ∧ (b y < b x ∨ b y ≤ b x ∧ c y < c x)) →
  ∀ x, P x → sn R x.
Proof.
  intros Hp Hd. assert (H : ∀ i j k x, a x ≤ i → b x ≤ j → c x ≤ k → P x → sn R x).
  { induction i as [i IHi] using lt_wf_ind. induction j as [j IHj] using lt_wf_ind. induction k as [k IHk] using lt_wf_ind.
    intros x Ha Hb Hc Hx. constructor. intros y Hy. simpl in Hy. pose proof (Hp _ _ Hx Hy) as HPy.
    destruct (Hd _ _ Hx Hy) as [Hlt|[Hle [Hlt|[Hle' Hlt]]]].
    - by eapply (IHi (a y)); [lia|reflexivity..|].
    - by eapply (IHj (b y)); [lia|lia|reflexivity..|].
    - by eapply (IHk (c y)); [lia|lia|lia|reflexivity|]. }
  intros x. by eapply H.
Qed.

Lemma sum_le {A} (f g : A → nat) l : (∀ x, x ∈ l → f x ≤ g x) → sum_list (f <$> l) ≤ sum_list (g <$> l).
Proof.
  induction l as [|x l IH]; intros H; [done|]. csimpl. assert (f x ≤ g x) by (apply H; by left).
  assert (sum_list (f <$> l) ≤ sum_list (g <$> l)); [apply IH; intros; apply H; by right|lia].
Qed.

Lemma sum_lt {A} (f g : A → nat) l x :
  (∀ x, x ∈ l → f x ≤ g x) → x ∈ l → f x < g x → sum_list (f <$> l) < sum_list (g <$> l).
Proof.
  intros H (l1 & l2 & ->)%list_elem_of_split Hx. rewrite !fmap_app, !sum_list_with_app. csimpl.
  assert (∀ l', (∀ y, y ∈ l' → y ∈ l1 ++ x :: l2) → sum_list (f <$> l') ≤ sum_list (g <$> l')) as Hle by (intros l' Hl'; apply sum_le; auto).
  pose proof (Hle l1) as H1. pose proof (Hle l2) as H2. specialize (H1 ltac:(set_solver)). specialize (H2 ltac:(set_solver)).
  unfold id in *. lia.
Qed.

Section Live.
Context {Ix Dx : Type} `{!KeyIndex Z nat Ix} `{!KeyIndexLaws Z nat Ix}.
Context `{!KeyIndex string SharedPtr Dx} `{!KeyIndexLaws string SharedPtr Dx}.
Abbreviation Y := (system Ix Dx).
Abbreviation Zs := (service Ix Dx).
Implicit Types (z : Zs) (cls : list netclient) (n : net Ix Dx).

(** What is left of the clients' loops. *)
Definition loopLeft (cl : netclient) : nat :=
  match n_state cl with
  | CConnect => 2 * kQueriesEach + 2
  | CSend i => 2 * (kQueriesEach - i) + 1
  | CAwait i => 2 * (kQueriesEach - i)
  | CClosed => 0
  end.
Definition clientsLeft n : nat := sum_list (loopLeft <$> n_clients n).

(** What is left for the server to accept, to read, to drop and to begin. *)
Definition unread (cl : netclient) : nat := String.length (n_wire cl).
Definition undropped (s : server) (c : nat) : nat := if ending s c then 0 else 1.
Definition socketsLeft n : nat :=
  (kClients - base.size (conns (srv (n_service n)))) + sum_list (unread <$> n_clients n) +
  sum_list (undropped (srv (n_service n)) <$> seq 0 kClients) + (if dtor (z_pool (n_service n)) is DIdle then 1 else 0).

Lemma sum_clients (f : netclient → nat) cls c cl cl' :
  cls !! c = Some cl → sum_list (f <$> <[c:=cl']> cls) + f cl = sum_list (f <$> cls) + f cl'.
Proof.
  intros (l1 & l2 & -> & ->)%list_elem_of_split_length. rewrite insert_app_r_alt, Nat.sub_diag by lia. simpl.
  rewrite !fmap_app, !sum_list_with_app. simpl. lia.
Qed.

Lemma conns_size w n : ninv w n → base.size (conns (srv (n_service n))) ≤ kClients.
Proof.
  intros H. rewrite <- size_dom. etrans; [apply (subseteq_size _ (list_to_set (seq 0 kClients)))|].
  - intros c [k Hk]%elem_of_dom. apply elem_of_list_to_set, elem_of_seq. pose proof (ni_dom _ _ H _ _ Hk). lia.
  - rewrite size_list_to_set, length_seq; [done|apply NoDup_seq].
Qed.

Lemma pstep_destroyed (p p' : psys nat) : pstep p p' → dtor p ≠ DIdle → dtor p' ≠ DIdle.
Proof. by intros []. Qed.

Lemma zrun_destroyed z z' : zrun z z' → dtor (z_pool z) ≠ DIdle → dtor (z_pool z') ≠ DIdle.
Proof. intros []; simpl; by eauto using pstep_destroyed. Qed.

Lemma run_frame w z z' cls ok :
  ninv w (mkNet z cls ok) → zrun z z' →
  base.size (conns (srv z')) = base.size (conns (srv z)) ∧ ∀ c, ending (srv z') c = ending (srv z) c.
Proof.
  intros H Hs. pose proof (ninv_zinv _ _ H (zrun_open _ _ Hs)) as Hz. simpl in Hz.
  destruct (zrun_system _ _ Hs) as [[_ [E|Hy]]|[Hcl E]]; [unfold srv; by rewrite E| |].
  - destruct (yistep_server _ _ Hy) as [E|Hi]; [unfold srv; by rewrite E|]. split; [by apply istep_size|].
    by apply (istep_calm _ _ (zinv_sinv _ _ _ Hz) (ni_calm _ _ H) (λ c k, ninv_modest _ _ c k H) Hi).
  - unfold srv. rewrite E. split; [done|]. intros c. unfold ending. simpl. rewrite (zi_dtor _ _ _ Hz); [done|].
    by rewrite (zrun_closing _ _ Hs Hcl).
Qed.

(** The loop reads from connections that it has not dropped. *)
Lemma recv_open w z z' cls ok c k pc :
  ninv w (mkNet z cls ok) → zenv z z' → conns (srv z) !! c = Some k → phase (srv z) = LIdle → phase (srv z') = LLines c pc false false →
  closed k = false.
Proof.
  intros H Hs Hk Hp Hp'. destruct (zenv_open _ _ Hs) as [Hop _]. pose proof (zinv_sinv _ _ _ (ninv_zinv _ _ H Hop)) as Hsv. simpl in Hsv.
  destruct Hs as [y y' p Hl Hd _|y p p' _ Hsp|y p p' _ Hst Hi]; unfold srv in *; simpl in *; [|congruence|congruence].
  destruct Hl as [s s' w0 cl lg Hl]. simpl in *. destruct Hl as [|f c0 k0 data pc0 m cs o Hf Hk0| | | | | |]; simpl in *; try done.
  injection Hp' as -> ->. assert (fd k = f) as <- by (by eapply (named_fd _ _ _ _ _ (si_registered _ Hsv))).
  by apply (ci_registered _ _ _ _ (si_conn _ Hsv _ _ Hk)).
Qed.

Lemma accept_count w c f cl z z' cls ok :
  ninv w (mkNet z cls ok) → cls !! c = Some cl → zenv z z' → conns (srv z) !! c = None → conns (srv z') = <[c:=newConn f]> (conns (srv z)) →
  socketsLeft (mkNet z' cls ok) < socketsLeft (mkNet z cls ok).
Proof.
  intros H Hc Hs Hn Hn'. unfold socketsLeft. cbn [n_service n_clients].
  destruct (accept_step _ _ _ _ Hs Hn Hn') as ((E1 & _) & Hp & Hp').
  assert (Hlt : c < kClients) by (rewrite <- (ni_len _ _ H); by eapply lookup_lt_Some).
  pose proof (conns_size _ _ (ninv_accept _ _ _ _ _ _ _ H Hlt Hs Hn Hn')) as Hsz. simpl in Hsz. rewrite E1, Hn', map_size_insert_None in * by done.
  assert (sum_list (undropped (srv z') <$> seq 0 kClients) ≤ sum_list (undropped (srv z) <$> seq 0 kClients)); [|lia].
  apply sum_le. intros c1 _. unfold undropped, ending. rewrite Hn', Hp, Hp'.
  destruct (decide (c1 = c)) as [->|Hne1]; [by rewrite lookup_insert_eq, Hn|by rewrite lookup_insert_ne].
Qed.

Lemma recv_count w c st data rest seen k (pc : bool) z z' cls ok :
  ninv w (mkNet z cls ok) → cls !! c = Some (mkNetclient st (data +:+ rest) seen) →
  (if pc then st = CClosed ∧ rest = "" else data ≠ "") →
  zenv z z' → conns (srv z) !! c = Some k → conns (srv z') = <[c:=receive k data]> (conns (srv z)) →
  phase (srv z) = LIdle → phase (srv z') = LLines c pc false false →
  socketsLeft (mkNet z' (<[c:=mkNetclient st rest seen]> cls) ok) < socketsLeft (mkNet z cls ok).
Proof.
  intros H Hc Hpc Hs Hk Hk' Hp Hp'. unfold socketsLeft. cbn [n_service n_clients].
  pose proof (sum_clients unread _ _ _ (mkNetclient st rest seen) Hc) as Eu.
  destruct (recv_step _ _ _ _ Hs Hp Hp') as (E1 & _).
  pose proof (recv_open _ _ _ _ _ _ _ _ H Hs Hk Hp Hp') as Hcl.
  unfold unread in Eu at 2 4. cbn [n_wire] in Eu. rewrite string_length_app in Eu. rewrite E1, Hk', (size_set _ _ _ _ Hk).
  assert (Hle : ∀ c1, undropped (srv z') c1 ≤ undropped (srv z) c1).
  { intros c1. unfold undropped, ending. rewrite Hp, Hp', Hk'. destruct (decide (c1 = c)) as [->|Hne].
    - rewrite lookup_insert_eq, Hk. simpl. rewrite Hcl. by destruct (bool_decide _ && pc); simpl; lia.
    - by rewrite lookup_insert_ne, bool_decide_false by done. }
  pose proof (sum_le (undropped (srv z')) (undropped (srv z)) (seq 0 kClients) (λ c1 _, Hle c1)) as Hsum.
  destruct pc; [|destruct data; [done|simpl in Eu; lia]].
  assert (sum_list (undropped (srv z') <$> seq 0 kClients) < sum_list (undropped (srv z) <$> seq 0 kClients)); [|lia].
  apply (sum_lt _ _ _ c); [auto| |].
  + apply elem_of_seq. pose proof (ni_dom _ _ H _ _ Hk). simpl. lia.
  + unfold undropped, ending. rewrite Hp, Hp', Hk', lookup_insert_eq, Hk, bool_decide_true by done. simpl. rewrite Hcl. lia.
Qed.

Lemma nstep_counts w n n' :
  ninv w n → nstep n n' →
  clientsLeft n' < clientsLeft n ∨ clientsLeft n' ≤ clientsLeft n ∧
    (socketsLeft n' < socketsLeft n ∨ socketsLeft n' ≤ socketsLeft n ∧ zeffort (n_service n') < zeffort (n_service n)).
Proof.
  intros H Hs. unfold clientsLeft, socketsLeft.
  destruct Hs as [c z cls ok Hc|c i wire seen z cls ok Hc Hi|c i wire seen line rest more z cls ok Hc E Ht|c wire seen z cls ok Hc
    |c f cl z z' cls ok Hc Hne Hs Hn Hn'|c st data rest seen k pc z z' cls ok Hc Hpc Hs Hk Hk' Hp Hp'|z z' cls ok Hs Hwr|z z' cls ok Ha Hs Hst];
    cbn [n_service n_clients] in *.
  - left. pose proof (sum_clients loopLeft _ _ _ (mkNetclient (CSend 0) "" "") Hc) as E. unfold loopLeft in E at 2 4. simpl n_state in E. cbv iota in E. lia.
  - left. pose proof (sum_clients loopLeft _ _ _ (mkNetclient (CAwait i) (wire +:+ netLine (queryOf c i)) seen) Hc) as E.
    unfold loopLeft in E at 2 4. simpl n_state in E. cbv iota in E. lia.
  - left. pose proof (sum_clients loopLeft _ _ _ (mkNetclient (CSend (S i)) wire (seen +:+ netLine line)) Hc) as E'.
    pose proof (cl_bound _ _ _ _ (ni_clients _ _ H _ _ Hc)) as Hb. simpl in Hb.
    unfold loopLeft in E' at 2 4. simpl n_state in E'. cbv iota in E'. lia.
  - left. pose proof (sum_clients loopLeft _ _ _ (mkNetclient CClosed wire seen) Hc) as E. unfold loopLeft in E at 2 4. simpl n_state in E. cbv iota in E. lia.
  - right. split; [done|]. left. by eapply accept_count.
  - right. pose proof (sum_clients loopLeft _ _ _ (mkNetclient st rest seen) Hc) as E. unfold loopLeft in E at 2 4. simpl n_state in E.
    split; [lia|]. left. by eapply recv_count.
  - right. split; [done|]. right. destruct (run_frame _ _ _ _ _ H Hs) as [-> He].
    assert (sum_list (undropped (srv z') <$> seq 0 kClients) ≤ sum_list (undropped (srv z) <$> seq 0 kClients)).
    { apply sum_le. intros c _. unfold undropped. by rewrite He. }
    pose proof (zrun_destroyed _ _ Hs) as Hd. split; [destruct (dtor (z_pool z)), (dtor (z_pool z')); try lia; by destruct Hd|].
    pose proof (ninv_zinv _ _ H (zrun_open _ _ Hs)) as Hz. pose proof (zrun_open _ _ Hs) as Hop. destruct z as [y p b]. simpl in *. subst b.
    by eapply zrun_effort.
  - right. split; [done|]. left. destruct Hs as [y y' p Hl|y p p' _ Hsp|y p p' _ _ Hi]; unfold srv; simpl in *; [by destruct Hst| |];
      destruct Hst as [-> Hst]; destruct (dtor p'); try done; lia.
Qed.

Lemma nmove_ends w r0 n :
  idleWorld w → w_hist w = [ECall 0 createUsers; EReturn 0 r0] → ninv w n → sn nstep n.
Proof.
  intros Hw Hh. apply (sn_counts nstep (ninv w) clientsLeft socketsLeft (λ n, zeffort (n_service n))); [|apply nstep_counts].
  intros n1 n2 H Hs. eapply ninv_step; [done|done|done|by left].
Qed.

(** ** At rest *)
Lemma written_update (cs : gmap nat conn) m m' o o' p p' c k k' :
  allWritten (mkServer m cs o p) → cs !! c = Some k → unwritten k' = unwritten k → allWritten (mkServer m' (<[c:=k']> cs) o' p').
Proof. intros H Hk E c1 k1. simpl. intros [[_ <-]|[_ Hk1]]%lookup_insert_Some; [rewrite E; by apply (H c)|by apply (H c1)]. Qed.

Lemma lstep_written s s' : lstep s s' → allWritten s → allWritten s'.
Proof.
  intros Hs H. destruct Hs as [f c m cs o Hc Hf|f c k data pc m cs o Hf Hk|c k k' r pc sd ol m cs o Hk Hp
    |c k pc sd ol m cs o Hk|c m cs o|c k m cs o Hk Hm|c k c' m cs o Hk Hm|c k k' b m cs o Hk Hd]; try done;
    try (eapply written_update; [exact H|exact Hk|]); try done.
  - intros c1 k1. simpl. intros [[_ <-]|[_ Hk1]]%lookup_insert_Some; [done|by apply (H c1)].
  - unfold splitPass in Hp. repeat (case_match; simplify_eq; try done).
  - by destruct sd.
  - by injection Hd as <- _.
Qed.

Lemma kstep_written c a s s' : kstep c a s s' → allWritten s → allWritten s'.
Proof.
  intros Hs H. destruct Hs as [k i m cs o p Hk Hi|k k' i q m cs o p Hk Hi Ht|k k' i b m cs o p Hk Hi Ht|k k' i b m cs o p Hk Hi Ht];
    (eapply written_update; [exact H|exact Hk|]); try done; first [by injection Ht as <- _|unfold taskTake in Ht; by destruct (pending k); simplify_eq].
Qed.

(** A step that loses a reply could have been one that writes it. *)
Lemma ywork_written l (y y' : Y) : ywork l y y' → allWritten (y_server y) → ∃ y', ywork l y y' ∧ allWritten (y_server y').
Proof.
  intros Hs H. destruct Hs as [c a s s' w cl lg Hk|c k i q s w w' cl lg Hk Hi Hc Hw Hh|s w w' cl lg Hw Hh
    |c q b id r s s' w w' cl lg Hc Ha Hw Hh].
  - eexists. split; [by apply y_task|]. by eapply kstep_written.
  - eexists. split; [by eapply y_call|done].
  - eexists. split; [by eapply y_query|done].
  - assert (∃ s', astep c q true s s' ∧ allWritten s') as (s1 & Ha1 & Hs1).
    { destruct Ha as [k i m cs o p Hk Hi|k i m cs o p Hk Hi]; (eexists; split; [by eapply s_reply|]);
        (eapply written_update; [exact H|exact Hk|done]). }
    eexists. split; [by eapply (y_reply c q true)|done].
Qed.

Lemma zrun_written z z' : zrun z z' → allWritten (srv z) → ∃ z', zrun z z' ∧ allWritten (srv z').
Proof.
  assert (Hl : ∀ y y' : Y, yloop y y' → allWritten (y_server y) → allWritten (y_server y')).
  { intros ? ? [] ?. by eapply lstep_written. }
  unfold srv. intros Hs H. destruct Hs as [y y' p Hy Hd Hp Hn|c y y' p p' Hy Hd Hn Hp Hc|c y y' p p' Hw Hp Hc|c y y' p Hw Hc|y y' p Hw
    |c y y' p p' Hw Hp Hc|y p p' Hp Hc Hsp Hst|y p Hd]; simpl in *; try (destruct (ywork_written _ _ _ Hw H) as (y1 & Hw1 & H1));
    (eexists; split; [|]).
  - by apply z_loop.
  - simpl. eauto.
  - by eapply z_submit.
  - simpl. eauto.
  - by eapply (z_start c).
  - done.
  - by eapply (z_in c).
  - done.
  - by eapply z_query.
  - done.
  - by eapply (z_end c).
  - done.
  - by eapply z_between.
  - done.
  - by eapply z_close.
  - done.
Qed.

Lemma rest_stopped w n : ninv w n → (∀ n', ¬ nstep n n') → stopped (n_service n).
Proof.
  intros H Hn z' Hs. destruct (zrun_written _ _ Hs (ni_written _ _ H)) as (z1 & Hs1 & Hw). destruct n as [z cls ok]. eapply Hn. by apply n_serve.
Qed.

(** What the loop can do when it waits for events. *)
Lemma accept_enabled (y : Y) p c :
  phase (y_server y) = LIdle → dtor p = DIdle → conns (y_server y) !! c = None →
  ∃ f z', zenv (mkService y p false) z' ∧ conns (srv z') = <[c:=newConn f]> (conns (y_server y)).
Proof.
  intros Hp Hd Hc. destruct y as [[m cs o ph] w cl lg]. simpl in *. subst ph. exists (fresh (dom o)).
  eexists. split; [apply z_client; [apply y_loop, (s_accept (fresh (dom o)) c); [done|]|done|done]|done].
  apply not_elem_of_dom, is_fresh.
Qed.

Lemma recv_enabled m (y : Y) p c k data pc :
  zinv m y p → phase (y_server y) = LIdle → dtor p = DIdle → conns (y_server y) !! c = Some k → closed k = false →
  ∃ z', zenv (mkService y p false) z' ∧ conns (srv z') = <[c:=receive k data]> (conns (y_server y)) ∧
    phase (srv z') = LLines c pc false false.
Proof.
  intros Hz Hp Hd Hk Hcl. pose proof (si_conn _ (zinv_sinv _ _ _ Hz) _ _ Hk) as Hi. rewrite Hp in Hi.
  assert (Hm : connections_ (y_server y) !! fd k = Some c) by (by apply (ci_registered _ _ _ _ Hi)).
  destruct y as [[mm cs o ph] w cl lg]. simpl in *. subst ph. eexists.
  split; [apply z_client; [by apply y_loop, (s_read (fd k) c k data pc)|done|done]|done].
Qed.

(** At rest, a connection that is not dropped has everything answered that arrived. *)
Lemma rest_log w n c k m :
  ninv w n → z_closed (n_service n) = false → drained (srv (n_service n)) → conns (srv (n_service n)) !! c = Some k →
  closed k = false → c < kClients → m ≤ kQueriesEach → received k = stream c m → length (logOf (y_log (z_system (n_service n))) c) = m.
Proof.
  intros H Hop Hdr Hk Hcl Hc Hm Hr. pose proof (ninv_zinv _ _ H Hop) as Hz. pose proof (zinv_sinv _ _ _ Hz) as Hsv.
  destruct (drained_conn _ _ _ Hsv Hdr Hk) as (_ & _ & He & Hs). specialize (He (ni_written _ _ H _ _ Hk)).
  destruct (Hs Hcl) as [[Hq Ho] _]. destruct (cd_lines _ (ci_data _ _ _ _ (si_conn _ Hsv _ _ Hk)) Ho) as [Hlines _].
  rewrite (proj1 (queries_of_none _ Hq)), app_nil_r, Hr, stream_queries, <- He in Hlines by done.
  pose proof (yi_executed _ (yinv_reachable _ (zi_system _ _ _ Hz)) _ _ Hk) as Hlog. apply (f_equal length) in Hlog.
  by rewrite <- Hlines, !length_fmap, length_seq in Hlog.
Qed.

Lemma rest_closed w r0 n :
  idleWorld w → w_hist w = [ECall 0 createUsers; EReturn 0 r0] → ninv w n → (∀ n', ¬ nstep n n') → z_closed (n_service n) = false →
  dtor (z_pool (n_service n)) = DIdle → drained (srv (n_service n)) → Forall (λ cl, n_state cl = CClosed) (n_clients n).
Proof.
  intros Hw Hh H Hn Hop Hd Hdr. apply Forall_lookup. intros c cl Hcl. pose proof (ni_clients _ _ H _ _ Hcl) as Hok.
  assert (Hc : c < kClients) by (rewrite <- (ni_len _ _ H); by eapply lookup_lt_Some).
  pose proof (ninv_zinv _ _ H Hop) as Hz. pose proof (λ a, ninv_replies _ _ _ c a Hw Hh H Hop) as Hrep. pose proof Hdr as [Hp _]. destruct n as [[y p b] cls ok], cl as [[|i|i|] wire seen]; unfold srv in *; simpl in *; subst b; [| | |done]; exfalso.
  - destruct Hok as [_ _ G3 G4 _]. simpl in *. destruct (receivedOf (y_server y) c), wire; try done. subst seen. eapply Hn. by apply (n_connect c).
  - destruct (decide (i = kQueriesEach)) as [->|Hne]; [eapply Hn; by eapply (n_close c)|].
    pose proof (cl_bound _ _ _ _ Hok) as Hb. simpl in Hb. eapply Hn. eapply (n_send c i); [done|lia].
  - pose proof (cl_bound _ _ _ _ Hok) as Hb. pose proof (cl_wire _ _ _ _ Hok) as Hwire. pose proof (cl_open _ _ _ _ Hok) as Hopen. simpl in *.
    destruct (conns (y_server y) !! c) as [k|] eqn:Hk.
    2:{ destruct (accept_enabled y p c Hp Hd Hk) as (f & z' & Hs & Hc'). eapply Hn. by eapply (n_accept c f). }
    assert (Hck : closed k = false).
    { specialize (Hopen ltac:(done)). unfold ending in Hopen. by rewrite Hp, Hk in Hopen. }
    destruct wire as [|a wire].
    + unfold receivedOf in Hwire. rewrite Hk in Hwire. simpl in Hwire. rewrite string_append_nil in Hwire.
      assert (Hlen : length (logOf (y_log y) c) = S i) by (eapply (rest_log w (mkNet (mkService y p false) cls ok)); eauto).
      pose proof (cl_seen _ _ _ _ Hok) as Hseen. simpl in Hseen.
      assert (∃ e l, skipn i (logOf (y_log y) c) = e :: l ∧ e ∈ logOf (y_log y) c) as (e & l & Hsk & Hin).
      { destruct (skipn i (logOf (y_log y) c)) as [|e l] eqn:E; [apply (f_equal length) in E; rewrite length_drop in E; simpl in E; lia|].
        exists e, l. split; [done|]. rewrite <- (firstn_skipn i (logOf (y_log y) c)), E. apply elem_of_app. right. by left. }
      eapply Hn. eapply (n_read c i _ _ "OK" (sentTo (e :: l)) (sentTo l)); [done| |].
      * simpl. rewrite <- (firstn_skipn i (logOf (y_log y) c)), Hsk at 1. by rewrite sentTo_app, Hseen.
      * unfold sentTo. simpl. by rewrite (Hrep e Hin).
    + destruct (recv_enabled _ y p c k (String a wire) false Hz Hp Hd Hk Hck) as (z' & Hs & Hc' & Hp').
      eapply Hn. eapply (n_recv c (CAwait i) (String a wire) "" seen k false); [by rewrite string_append_nil|done|done|done|done|done|done].
Qed.

Lemma rest_destroyed w r0 n :
  idleWorld w → w_hist w = [ECall 0 createUsers; EReturn 0 r0] → ninv w n → (∀ n', ¬ nstep n n') → z_closed (n_service n) = true.
Proof.
  intros Hw Hh H Hn. destruct (z_closed (n_service n)) eqn:Hop; [done|exfalso]. pose proof (rest_stopped _ _ H Hn) as Hst.
  pose proof (ninv_zinv _ _ H Hop) as Hz. assert (0 < kWorkers) as Hk by (unfold kWorkers; lia).
  assert (Hz' : n_service n = mkService (z_system (n_service n)) (z_pool (n_service n)) false) by (destruct (n_service n); by simpl in *; subst).
  rewrite Hz' in Hst. pose proof (still_shutdown _ _ _ Hk Hz Hst) as Hd. pose proof (stopped_drained _ _ _ Hk Hz Hst) as Hdr.
  pose proof (rest_closed _ _ _ Hw Hh H Hn Hop Hd Hdr) as Hall. destruct Hdr as [Hp _].
  destruct n as [[y [p ws k d su st fi] b] cls ok]. simpl in *. subst b d. eapply Hn. eapply n_destroy; [done|apply z_destroy; [apply p_stop|by split|done]|by split].
Qed.

Lemma readOf_closed cls : Forall (λ cl, n_state cl = CClosed) cls → readOf cls = length cls * kQueriesEach.
Proof. unfold readOf. induction 1 as [|cl cls E _ IH]; [done|]. csimpl. rewrite IH, E. simpl. unfold id. lia. Qed.

(** The clients have been answered all their queries. *)
Lemma closed_calls w r0 n :
  idleWorld w → w_hist w = [ECall 0 createUsers; EReturn 0 r0] → ninv w n → Forall (λ cl, n_state cl = CClosed) (n_clients n) →
  ∃ ok, binv r0 (viewOf (z_system (n_service n)) ok) ∧
    ∀ c i o, b_clients (viewOf (z_system (n_service n)) ok) !! c = Some (i, o) → i = kQueriesEach ∧ o = None.
Proof.
  intros Hw Hh H Hall. destruct (ninv_binv _ _ _ Hw Hh H) as [ok Hb]. exists ok. split; [done|]. intros c i o Hc.
  destruct (bi_calls _ _ Hb) as (h & _ & Hco). destruct (co_bound _ _ Hco _ _ _ Hc) as [Hi Ho]. cbn [viewOf b_clients] in Hc.
  assert (Hlt : c < kClients) by (apply lookup_lt_Some in Hc; by rewrite length_fmap, length_seq in Hc).
  rewrite answeredBy_lookup in Hc by done. unfold answeredBy in Hc. injection Hc as Hlen Hcall.
  rewrite <- (ni_len _ _ H) in Hlt. apply lookup_lt_is_Some_2 in Hlt as [cl Hcl]. pose proof (ni_clients _ _ H _ _ Hcl) as Hok.
  rewrite Forall_lookup in Hall. pose proof (cl_read _ _ _ _ Hok) as Hr. rewrite (Hall _ _ Hcl) in Hr. simpl in Hr.
  assert (i = kQueriesEach) as -> by lia. split; [done|]. destruct o; [|done]. specialize (Ho ltac:(done)). lia.
Qed.
End Live.

Section Main.
Context (hashZ : Z → N) (hashS : string → N).
#[local] Instance bsZ : KeyIndex Z nat (HashMap Z nat) := HashMap_index hashZ.
#[local] Instance bsZ_laws : KeyIndexLaws Z nat (HashMap Z nat) := HashMap_index_laws hashZ.
#[local] Instance bsS : KeyIndex string SharedPtr (HashMap string SharedPtr) := HashMap_index hashS.
#[local] Instance bsS_laws : KeyIndexLaws string SharedPtr (HashMap string SharedPtr) := HashMap_index_laws hashS.

(** C26: The benchmark of the server, from socket to socket.  After the table has
    been created, however the 50 client threads, the network, the event loop, the
    four workers and the queries interleave: the clients' queries run as those
    of [BenchClients.bstep]; [okCount] is the number of replies read, so that
    every reply is OK; no sequence of steps (other than waits that end by
    themselves) is infinite; and when no step is left [okCount] is 1000, every
    client has closed, the server is destroyed with its workers gone and no
    descriptor open, and the table holds exactly the ids from 0 to 999. *)
Theorem bench_server (w : qworld (HashMap Z nat) (HashMap string SharedPtr)) (r0 : string)
    (n : net (HashMap Z nat) (HashMap string SharedPtr)) :
  rtc qstep newWorld w → w_hist w = [ECall 0 createUsers; EReturn 0 r0] → w_ops w = ∅ →
  rtc nmove (startNet w) n →
  (∃ ok, rtc bstep (startClients w) (viewOf (z_system (n_service n)) ok)) ∧
  n_ok n = readOf (n_clients n) ∧
  sn nstep n ∧
  ∀ n', rtc nmove n n' → (∀ n'', ¬ nstep n' n'') →
    n_ok n' = kClients * kQueriesEach ∧ Forall (λ cl, n_state cl = CClosed) (n_clients n') ∧
    z_closed (n_service n') = true ∧ Forall (eq WExited) (workers (z_pool (n_service n'))) ∧ opened (srv (n_service n')) = ∅ ∧
    ∃ D l, db_ok [] (w_db (y_world (z_system (n_service n')))) D ∧ D !! "users" = Some (usersTable, l) ∧
      ∀ id, is_Some (al_lookup id l) ↔ (0 ≤ id < Z.of_nat (kClients * kQueriesEach))%Z.
Proof.
  intros Hr Hh Ho Hn. assert (Hw : idleWorld w) by done.
  pose proof (ninv_steps _ _ _ _ Hw Hh (ninv_start w Hw) Hn) as H. split_and!; [apply (ni_view _ _ H)|apply (ni_ok _ _ H)|by eapply nmove_ends|].
  intros n' Hn' Hstop. pose proof (ninv_steps _ _ _ _ Hw Hh H Hn') as H'. pose proof (rest_destroyed _ _ _ Hw Hh H' Hstop) as Hcl.
  pose proof (ni_service _ _ H') as Hz. unfold zreach in Hz. rewrite Hcl in Hz. destruct Hz as (y & Hz & Hd & Ey).
  assert (Hall : Forall (λ cl, n_state cl = CClosed) (n_clients n')) by (apply (ni_over _ _ H'); by rewrite Hd).
  assert (0 < kWorkers) as Hk by (unfold kWorkers; lia). destruct (closed_calls _ _ _ Hw Hh H' Hall) as (ok & Hb & Hdone).
  split_and!; [by rewrite (ni_ok _ _ H'), readOf_closed, (ni_len _ _ H')|done|done
    |by apply (pi_done _ (pool_inv_reachable _ _ Hk (zi_pool _ _ _ Hz)))| |exact (rest_table _ _ Hb Hdone)].
  unfold srv. rewrite Ey. apply destroyServer_closes; [apply (zinv_sinv _ _ _ Hz)|by eapply done_drained].
Qed.
End Main.

(** ** Witness: the table is created, and the first client connects *)
#[local] Instance demoServerZ : KeyIndex Z nat (HashMap Z nat) := HashMap_index Z.to_N.
#[local] Instance demoServerZ_laws : KeyIndexLaws Z nat (HashMap Z nat) := HashMap_index_laws Z.to_N.
#[local] Instance demoServerS : KeyIndex string SharedPtr (HashMap string SharedPtr) := HashMap_index (λ s, N.of_nat (String.length s)).
#[local] Instance demoServerS_laws : KeyIndexLaws string SharedPtr (HashMap string SharedPtr) := HashMap_index_laws (λ s, N.of_nat (String.length s)).

Lemma bench_server_witness :
  ∃ (w : qworld (HashMap Z nat) (HashMap string SharedPtr)) n, w_hist w = [ECall 0 createUsers; EReturn 0 "OK"] ∧
    n_clients n !! 0 = Some (mkNetclient (CSend 0) "" "") ∧ rtc nmove (startNet w) n ∧ sn nstep n.
Proof.
  destruct demo_setup as (w & Hr & Hh & Ho). exists w. eexists. split; [done|].
  assert (Hs : nmove (startNet w) (mkNet (serviceOn w kWorkers) (<[0:=mkNetclient (CSend 0) "" ""]> (replicate kClients (mkNetclient CConnect "" ""))) 0)).
  { left. by apply (n_connect 0). }
  split; [|split; [apply rtc_once; exact Hs|]]; [done|].
  apply (bench_server Z.to_N (λ s, N.of_nat (String.length s)) w "OK" _ Hr Hh Ho). by apply rtc_once.
Defined.
