(* ===== verification/BenchPool.v ===== *)
(** * Benchmark of the thread pool (bench/bench.cpp)

    [benchThreadPool]: a thread submits tasks that count, waits on a latch until
    all have counted and destroys the pool.  The steps of the pool are those of
    [ThreadPool]; a task's body, between its start and its end, is a step of its
    own. *)

From S2P Require Import Prelude ThreadPool ThreadPoolMain Service ServiceSpec ServiceLive.

(** ** [benchThreadPool] *)
Section PoolBench.
Context (kTasks : nat).

Record poolBench := mkPoolBench {
  t_pool : psys nat;
  t_sent : nat;            (* the loop counter of the submitting thread *)
  t_counted : list nat;    (* the tasks that have counted *)
}.

Definition startPool (workers : nat) : poolBench := mkPoolBench (newPsys workers) 0 [].

Definition counter (b : poolBench) : nat := length (t_counted b).

(** [std::latch done(kTasks)] after [counter] times [count_down]; more than
    [kTasks] times would be undefined. *)
Definition latch (b : poolBench) : result nat := if bool_decide (counter b ≤ kTasks) then Val (kTasks - counter b) else Undef.

Inductive bpstep : poolBench → poolBench → Prop :=
  | t_submit i cd p p' :
      i < kTasks → pstep p p' → submitted p' = submitted p ++ [i] →
      bpstep (mkPoolBench p i cd) (mkPoolBench p' (S i) cd)
  | t_start c i cd p p' :
      pstep p p' → started p' = started p ++ [c] → bpstep (mkPoolBench p i cd) (mkPoolBench p' i cd)
  | t_body c i cd p :
      c ∈ running (workers p) → c ∉ cd → bpstep (mkPoolBench p i cd) (mkPoolBench p i (cd ++ [c]))
  | t_end c i cd p p' :
      c ∈ cd → pstep p p' → finished p' = finished p ++ [c] → bpstep (mkPoolBench p i cd) (mkPoolBench p' i cd)
  | t_between i cd p p' :
      pstep p p' → betweenTasks p p' → ¬ spurious p p' → ¬ stops p p' →
      bpstep (mkPoolBench p i cd) (mkPoolBench p' i cd)
  | t_stop cd p p' :   (* behind the loop and [done.wait()] *)
      latch (mkPoolBench p kTasks cd) = Val 0 → pstep p p' → stops p p' →
      bpstep (mkPoolBench p kTasks cd) (mkPoolBench p' kTasks cd).

(** A wait that ends by itself. *)
Inductive bpenv : poolBench → poolBench → Prop :=
  | t_spurious i cd p p' : pstep p p' → spurious p p' → bpenv (mkPoolBench p i cd) (mkPoolBench p' i cd).

Definition bpany (b b' : poolBench) : Prop := bpenv b b' ∨ bpstep b b'.

(** *** The invariant *)
Record bp_inv (n : nat) (b : poolBench) : Prop := {
  bp_pool : rtc pstep (newPsys n) (t_pool b);
  bp_workers : length (workers (t_pool b)) = n;
  bp_sent : t_sent b ≤ kTasks ∧ submitted (t_pool b) = seq 0 (t_sent b);
  bp_once : NoDup (t_counted b);
  bp_counted : t_counted b ⊆ started (t_pool b);
  bp_finished : finished (t_pool b) ⊆ t_counted b;
  bp_dtor : dtor (t_pool b) ≠ DIdle → t_sent b = kTasks ∧ counter b = kTasks;
}.

Lemma bp_inv_new n : bp_inv n (startPool n).
Proof.
  split; simpl; [done|by rewrite length_replicate|split; [lia|done]|constructor|done|done|done].
Qed.

Lemma bp_pool_step n p p' i cd :
  bp_inv n (mkPoolBench p i cd) → pstep p p' → rtc pstep (newPsys n) p' ∧ length (workers p') = n.
Proof. intros H Hp. split; [eapply rtc_r; [apply H|done]|]. rewrite (pstep_workers _ _ Hp). apply H. Qed.

Lemma bp_started n b c : bp_inv n b → c ∈ running (workers (t_pool b)) → c ∈ started (t_pool b).
Proof.
  intros H Hc. assert (Hn : 0 < n).
  { rewrite <- (bp_workers _ _ H). apply running_elem in Hc as [i Hi]. apply lookup_lt_Some in Hi. lia. }
  rewrite (pi_started _ (pool_inv_reachable _ _ Hn (bp_pool _ _ H))). apply elem_of_app. by right.
Qed.

(** Tasks that have started are among the first [kTasks] numbers. *)
Lemma bp_bound n b l : bp_inv n b → 0 < n → NoDup l → l ⊆ started (t_pool b) → length l ≤ t_sent b.
Proof.
  intros H Hn Hnd Hl. destruct (bp_sent _ _ H) as [Hle Hs]. pose proof (pi_queue _ (pool_inv_reachable _ _ Hn (bp_pool _ _ H))) as Hq.
  rewrite <- (length_seq (t_sent b) 0), <- Hs. apply submseteq_length, NoDup_submseteq; [done|].
  intros x Hx%Hl. rewrite Hq. apply elem_of_app. by left.
Qed.

Lemma bp_env n b b' : bp_inv n b → bpenv b b' → bp_inv n b'.
Proof.
  intros H Hs. destruct Hs as [i cd p p' Hp Hsp]. destruct (bp_pool_step _ _ _ _ _ H Hp) as [Hr' Hw']. destruct Hsp as (j & _ & ->).
  destruct H as [H1 H2 H3 H4 H5 H6 H7]. by split.
Qed.

Lemma bp_step n b b' : bp_inv n b → bpstep b b' → bp_inv n b'.
Proof.
  intros H Hs. destruct Hs as [i cd p p' Hi Hp Hc|c i cd p p' Hp Hc|c i cd p Hin Hn|c i cd p p' Hin Hp Hc|i cd p p' Hp Hc _ Hst|cd p p' Hl Hp Hst];
    try (destruct (bp_pool_step _ _ _ _ _ H Hp) as [Hr' Hw']).
  - pose proof H as [H1 H2 [H3 H3'] H4 H5 H6 H7]. simpl in *.
    destruct (pstep_kind _ _ Hp) as [t E1 E2 E3 E4|t E1|t E1|[E1 _]]; rewrite E1 in Hc; try by apply snoc_self in Hc.
    split; cbn [t_pool t_sent t_counted]; [done|done| |done|by rewrite E2|by rewrite E3|].
    + split; [lia|]. rewrite E1, Hc, H3', seq_S. done.
    + rewrite E4. intros Hd. destruct (H7 Hd). unfold counter in *. simpl in *. lia.
  - pose proof H as [H1 H2 H3 H4 H5 H6 H7]. simpl in *.
    destruct (pstep_kind _ _ Hp) as [t _ E2|t E1 E2 E3 E4|t _ E2|(_ & E2 & _)]; rewrite E2 in Hc; try by apply snoc_self in Hc.
    split; cbn [t_pool t_sent t_counted]; [done|done|by rewrite E1|done| |by rewrite E3|by rewrite E4]. rewrite E2. set_solver.
  - pose proof H as [H1 H2 H3 H4 H5 H6 H7]. simpl in *. split; cbn [t_pool t_sent t_counted]; [done|done|done| | | |].
    + apply NoDup_app. split_and!; [done|by intros x Hx ->%list_elem_of_singleton|apply NoDup_singleton].
    + intros x [?| ->%list_elem_of_singleton]%elem_of_app; [by apply H5|].
      apply (bp_started _ _ _ H Hin).
    + set_solver.
    + intros Hd. destruct (H7 Hd) as [Hi Hk]. exfalso.
      assert (Hpos : 0 < n) by (rewrite <- H2; apply running_elem in Hin as [j Hj]; apply lookup_lt_Some in Hj; lia).
      assert (length (cd ++ [c]) ≤ i); [|unfold counter in Hk; rewrite length_app in *; simpl in *; lia].
      apply (bp_bound _ _ _ H Hpos); simpl.
      * apply NoDup_app. split_and!; [done|by intros x Hx ->%list_elem_of_singleton|apply NoDup_singleton].
      * intros x [?| ->%list_elem_of_singleton]%elem_of_app; [by apply H5|apply (bp_started _ _ _ H Hin)].
  - pose proof H as [H1 H2 H3 H4 H5 H6 H7]. simpl in *.
    destruct (pstep_kind _ _ Hp) as [t _ _ E3|t _ _ E3|t E1 E2 E3 E4|(_ & _ & E3)]; rewrite E3 in Hc; try by apply snoc_self in Hc.
    split; cbn [t_pool t_sent t_counted]; [done|done|by rewrite E1|done|by rewrite E2| |by rewrite E4]. rewrite E3, Hc. set_solver.
  - pose proof H as [H1 H2 H3 H4 H5 H6 H7]. simpl in *. destruct Hc as (E1 & E2 & E3).
    split; cbn [t_pool t_sent t_counted]; [done|done|by rewrite E1|done|by rewrite E2|by rewrite E3|].
    intros Hd. destruct (decide (dtor p = DIdle)); [by destruct Hst|by apply H7].
  - pose proof (stops_between _ _ Hp Hst) as (E1 & E2 & E3). destruct H as [H1 H2 H3 H4 H5 H6 H7]. simpl in *.
    split; cbn [t_pool t_sent t_counted]; [done|done|by rewrite E1|done|by rewrite E2|by rewrite E3|]. intros _. split; [done|].
    unfold latch, counter in *. simpl in *. case_bool_decide; [|done]. injection Hl. lia.
Qed.

Lemma bp_reachable n b : rtc bpany (startPool n) b → bp_inv n b.
Proof. revert b. apply rtc_ind_r; [apply bp_inv_new|]. intros b b' _ [Hs|Hs] H; [by eapply bp_env|by eapply bp_step]. Qed.

(** *** The end *)
Definition bpeffort (b : poolBench) : nat :=
  let p := t_pool b in
  3 * ((kTasks - t_sent b) + (kTasks - length (started p)) + (kTasks - counter b) + (kTasks - length (finished p))) +
  poolWork p + (if decide (dtor p = DIdle) then length (workers p) + 4 else 0).

Lemma stops_work (p p' : psys nat) :
  pstep p p' → stops p p' → dtor p' = DNotify ∧ poolWork p' = poolWork p + length (workers p) + 3.
Proof. intros Hs [H1 H2]. destruct Hs; simpl in *; try congruence. split; [done|]. unfold poolWork. simpl. lia. Qed.

Lemma pstep_dtor (p p' : psys nat) : pstep p p' → ¬ stops p p' → dtor p' = DIdle ↔ dtor p = DIdle.
Proof. intros Hs Hn. destruct Hs; simpl; try done. by destruct Hn. Qed.

Lemma bp_lengths n b :
  bp_inv n b → 0 < n →
  length (finished (t_pool b)) ≤ counter b ∧ counter b ≤ length (started (t_pool b)) ∧ length (started (t_pool b)) ≤ t_sent b ∧ t_sent b ≤ kTasks.
Proof.
  intros H Hn. pose proof (pool_inv_reachable _ _ Hn (bp_pool _ _ H)) as Hp. destruct (bp_sent _ _ H) as [Hle Hs].
  assert (Hst : NoDup (started (t_pool b))).
  { pose proof (NoDup_seq 0 (t_sent b)) as Hd. rewrite <- Hs, (pi_queue _ Hp) in Hd. by apply NoDup_app in Hd as [? _]. }
  assert (Hfi : NoDup (finished (t_pool b))) by (pose proof Hst as Hd; rewrite (pi_started _ Hp) in Hd; by apply NoDup_app in Hd as [? _]).
  split_and!; [|..|done].
  - apply submseteq_length, NoDup_submseteq; [done|]. apply (bp_finished _ _ H).
  - apply submseteq_length, NoDup_submseteq; [apply (bp_once _ _ H)|]. apply (bp_counted _ _ H).
  - by apply (bp_bound _ _ _ H Hn).
Qed.

Lemma bp_effort n b b' : 0 < n → bp_inv n b → bpstep b b' → bpeffort b' < bpeffort b.
Proof.
  intros Hn H Hs. pose proof (bp_lengths _ _ (bp_step _ _ _ H Hs) Hn) as Hlen. clear H.
  assert (Hsnoc : ∀ (l : list nat) x, l ++ [x] ≠ l) by (intros l x E; symmetry in E; by apply snoc_self in E).
  destruct Hs as [i cd p p' Hi Hp Hc|c i cd p p' Hp Hc|c i cd p Hin Hnc|c i cd p p' Hin Hp Hc|i cd p p' Hp Hc Hsp Hst|cd p p' Hl Hp Hst];
    unfold bpeffort, counter in *; cbn [t_pool t_sent t_counted] in *;
    try (assert (Hnb : ¬ betweenTasks p p') by (intros (E1 & E2 & E3); rewrite ?E1, ?E2, ?E3 in Hc; symmetry in Hc; by apply Hsnoc in Hc);
         destruct (task_not_between _ _ Hp Hnb) as [Hsp Hst]);
    try (destruct (pstep_work _ _ Hp Hsp Hst) as [Hle Hlt]; rewrite (pstep_workers _ _ Hp);
         rewrite (decide_ext (dtor p' = DIdle) (dtor p = DIdle)) by (by apply pstep_dtor)).
  - destruct (pstep_kind _ _ Hp) as [t E1 E2 E3|t E1|t E1|[E1 _]]; rewrite E1 in Hc; try by apply snoc_self in Hc.
    rewrite E2, E3 in *. lia.
  - destruct (pstep_kind _ _ Hp) as [t _ E2|t E1 E2 E3|t _ E2|(_ & E2 & _)]; rewrite E2 in Hc; try by apply snoc_self in Hc.
    rewrite E2, E3 in *. rewrite length_app in *. simpl in *. lia.
  - rewrite length_app in *. simpl in *. lia.
  - destruct (pstep_kind _ _ Hp) as [t _ _ E3|t _ _ E3|t E1 E2 E3|(_ & _ & E3)]; rewrite E3 in Hc; try by apply snoc_self in Hc.
    rewrite E2, E3 in *. rewrite length_app in *. simpl in *. lia.
  - specialize (Hlt Hc). destruct Hc as (E1 & E2 & E3). rewrite E2, E3 in *. lia.
  - destruct (stops_between _ _ Hp Hst) as (E1 & E2 & E3). destruct (stops_work _ _ Hp Hst) as [Hd Hw]. rewrite E2, E3 in *.
    rewrite (pstep_workers _ _ Hp), Hd, Hw. destruct Hst as [Hd0 _]. rewrite (decide_False (P := DNotify = DIdle)) by done. rewrite decide_True by done. lia.
Qed.

Lemma bp_rest n b :
  0 < n → bp_inv n b → (∀ b', ¬ bpstep b b') → dtor (t_pool b) = DDone ∧ counter b = kTasks ∧ finished (t_pool b) ≡ₚ seq 0 kTasks.
Proof.
  intros Hpos H Hn. pose proof (pool_inv_reachable _ _ Hpos (bp_pool _ _ H)) as Hp.
  destruct b as [p i cd]. simpl in *. assert (Hst : poolStill p) by (intros p' ? ? ? ?; eapply Hn; by apply t_between).
  assert (Hrun : running (workers p) = []).
  { destruct (running (workers p)) as [|c r] eqn:E; [done|]. exfalso. assert (Hc : c ∈ running (workers p)) by (rewrite E; by left).
    destruct (decide (c ∈ cd)) as [Hin|Hin]; [|eapply Hn; by apply (t_body c)].
    apply running_elem in Hc as [j Hj]. destruct p as [p ws k d su st fi]. eapply Hn, (t_end c); [done|by eapply p_return|done]. }
  assert (Hq : tasks_ (shared p) = []).
  { destruct (tasks_ (shared p)) as [|c0 r] eqn:E; [done|]. exfalso.
    destruct (pi_wake _ Hp) as [(w & (j & Hj)%list_elem_of_lookup_1 & Ha & He)|[Hk|Hk]]; [by rewrite E| | |].
    - destruct w as [| |c|]; try done.
      + destruct (still_check _ _ Hst Hj) as (c & p' & Hs & _ & Hc). eapply Hn. by eapply t_start.
      + assert (c ∈ running (workers p)) as Hc by (apply running_elem; eauto). rewrite Hrun in Hc. by apply elem_of_nil in Hc.
    - pose proof (still_notifies _ Hst). lia.
    - by destruct (still_dtor _ Hst) as [H1 _]. }
  destruct (bp_sent _ _ H) as [Hle Hs]. simpl in Hle, Hs.
  assert (Hi : i = kTasks).
  { destruct (decide (i = kTasks)) as [|Hne]; [done|exfalso]. assert (dtor p = DIdle) as Hd.
    { destruct (decide (dtor p = DIdle)) as [|Hd]; [done|]. by destruct (bp_dtor _ _ H Hd). }
    destruct p as [[q stop] ws k d su st fi]. simpl in *. eapply Hn, t_submit; [lia|apply p_submit|done].
    unfold submit. simpl. destruct stop; [|done]. by destruct (pi_dtor _ Hp) as [Hx _]; destruct Hx. }
  subst i. assert (Hfin : finished p ≡ₚ seq 0 kTasks).
  { rewrite <- Hs, (pi_queue _ Hp), (pi_started _ Hp), Hq, Hrun. by rewrite !app_nil_r. }
  destruct (bp_lengths _ _ H Hpos) as (L1 & L2 & L3 & L4). simpl in *. rewrite Hfin, length_seq in L1.
  assert (Hcount : counter (mkPoolBench p kTasks cd) = kTasks) by lia. split_and!; [|done|done].
  destruct (dtor p) eqn:Hd; [exfalso..|done].
  - destruct p as [p ws k d su st fi]. simpl in Hd. subst d. eapply Hn, t_stop; [|by apply p_stop|by split].
    unfold latch, counter in *. simpl in *. rewrite bool_decide_eq_true_2 by lia. f_equal. lia.
  - by destruct (still_dtor _ Hst) as [H1 _].
  - destruct (all_exited (workers p)) as [Ha|(j & w & Hj & Hw)]; [by destruct (still_dtor _ Hst) as [_ H2]; apply H2|].
    destruct w as [| |c|]; try done.
    + destruct (still_check _ _ Hst Hj) as (c & p' & _ & E & _). by rewrite Hq in E.
    + apply (pi_join _ Hp); [by left|]. by eapply list_elem_of_lookup_2.
    + assert (c ∈ running (workers p)) as Hc by (apply running_elem; eauto). rewrite Hrun in Hc. by apply elem_of_nil in Hc.
Qed.
End PoolBench.

(** The benchmark ends, and counts every task.  With any number of workers
    from one on, the latch is never counted below zero; the threads make
    boundedly many steps (waits that end by themselves apart); and when no step
    is left the pool is destroyed, every task has run and the counter is
    [kTasks]. *)
Theorem bench_pool (kTasks n : nat) (b : poolBench) :
  0 < n → rtc (bpany kTasks) (startPool n) b →
  latch kTasks b = Val (kTasks - counter b) ∧
  (∀ m b', nsteps (bpstep kTasks) m b b' → m ≤ bpeffort kTasks b) ∧
  ∀ b', rtc (bpstep kTasks) b b' → (∀ b'', ¬ bpstep kTasks b' b'') →
    dtor (t_pool b') = DDone ∧ counter b' = kTasks ∧ finished (t_pool b') ≡ₚ seq 0 kTasks.
Proof.
  intros Hn H%bp_reachable. split_and!.
  - destruct (bp_lengths _ _ _ H Hn) as (_ & ? & ? & ?). unfold latch. by rewrite bool_decide_eq_true_2 by lia.
  - intros m b' Hm. enough (m + bpeffort kTasks b' ≤ bpeffort kTasks b) by lia.
    induction Hm as [|m b1 b2 b3 Hs _ IH]; [lia|]. pose proof (bp_effort _ _ _ _ Hn H Hs). specialize (IH (bp_step _ _ _ _ H Hs)). lia.
  - intros b' Hs Hrest. apply (bp_rest _ n b' Hn); [|done]. clear Hrest. induction Hs; eauto using bp_step.
Qed.
