(* ===== verification/BenchQueue.v ===== *)
(** * Benchmark of the lock-free queue (bench/bench.cpp)

    [benchLockFreeQueue]: producers push the same numbers, the main thread pops
    until it has received them all.  The accesses are those of [LockFreeQueue]. *)

From S2P Require Import Prelude LockFreeQueue LockFreeQueueMain.

Section QueueBench.
Context (kProducers kPerProducer : nat).

Definition total : nat := kProducers * kPerProducer.

Record queueBench := mkQueueBench {
  k_queue : qsys (T := Z);
  k_next : list nat;     (* the loop counters of the producers *)
  k_received : nat;
}.

Definition startQueue : queueBench := mkQueueBench (newQsys kProducers) (replicate kProducers 0) 0.

Inductive kstep : queueBench → queueBench → Prop :=
  | k_alloc i j q q' a ps c pu po nx rc :   (* [queue.push(i)] begins *)
      nx !! i = Some j → j < kPerProducer → ps !! i = Some PIdle → push_alloc q (Z.of_nat j) = (q', a) →
      kstep (mkQueueBench (mkQsys q ps c pu po) nx rc)
        (mkQueueBench (mkQsys q' (<[i:=PNew a]> ps) c pu po) (<[i:=S j]> nx) rc)
  | k_push q q' nx rc :                     (* it goes on *)
      qstep q q' → fresh (shared q') = fresh (shared q) → producers q' ≠ producers q →
      kstep (mkQueueBench q nx rc) (mkQueueBench q' nx rc)
  | k_pop q q' nx rc :                      (* [queue.pop(item)] *)
      rc < total → qstep q q' → producers q' = producers q → consumer q' ≠ consumer q →
      kstep (mkQueueBench q nx rc) (mkQueueBench q' nx (if consumer q' is CIdle then S rc else rc)).

(** [pop] finds nothing, and the thread yields. *)
Inductive kspin : queueBench → queueBench → Prop :=
  | k_yield q nx rc :
      rc < total → consumer q = CIdle → pop_load (shared q) = Val None → kspin (mkQueueBench q nx rc) (mkQueueBench q nx rc).

Definition kany (b b' : queueBench) : Prop := kspin b b' ∨ kstep b b'.

(** ** The invariant *)
Definition isNew (p : pstate) : nat := if p is PNew _ then 1 else 0.
Definition inserting (ps : list pstate) : nat := sum_list (isNew <$> ps).

Record k_inv (b : queueBench) : Prop := {
  ki_queue : rtc qstep (newQsys kProducers) (k_queue b);
  ki_len : length (producers (k_queue b)) = kProducers ∧ length (k_next b) = kProducers;
  ki_next : Forall (λ j, j ≤ kPerProducer) (k_next b);
  ki_pushed : length (pushed (k_queue b)) + inserting (producers (k_queue b)) = sum_list (k_next b);
  ki_received : k_received b = length (popped (k_queue b));
  ki_got : ∀ n, consumer (k_queue b) = CGot n → k_received b < total;
}.

Lemma inserting_insert ps i p p' : ps !! i = Some p → inserting (<[i:=p']> ps) + isNew p = inserting ps + isNew p'.
Proof.
  intros (l1 & l2 & -> & ->)%list_elem_of_split_length. rewrite insert_app_r_alt, Nat.sub_diag by lia. unfold inserting. simpl.
  rewrite !fmap_app, !sum_list_with_app. simpl. unfold id. lia.
Qed.

Lemma sum_insert (l : list nat) i j j' : l !! i = Some j → sum_list (<[i:=j']> l) + j = sum_list l + j'.
Proof.
  intros (l1 & l2 & -> & ->)%list_elem_of_split_length. rewrite insert_app_r_alt, Nat.sub_diag by lia. simpl.
  rewrite !sum_list_with_app. simpl. unfold id. lia.
Qed.

Lemma k_inv_new : k_inv startQueue.
Proof.
  split; simpl; [done|by rewrite !length_replicate| | |done|done].
  - apply Forall_replicate. lia.
  - unfold inserting. generalize kProducers. intros n. induction n as [|n IH]; csimpl; [done|]. unfold id in *. lia.
Qed.

Lemma k_inv_step b b' : k_inv b → kstep b b' → k_inv b'.
Proof.
  intros [H1 [H2 H2'] H3 H4 H5 H6] Hs. destruct Hs as [i j q q' a ps c pu po nx rc Hj Hlt Hi Ha|q q' nx rc Hq Hf Hp|q q' nx rc Hlt Hq Hp Hc]; simpl in *.
  - split; simpl; [eapply rtc_r; [done|by eapply q_alloc]|by rewrite !length_insert| | |done|done].
    + apply Forall_insert; [done|lia].
    + pose proof (inserting_insert _ _ _ (PNew a) Hi). pose proof (sum_insert _ _ _ (S j) Hj). simpl in *. lia.
  - assert (rtc qstep (newQsys kProducers) q') by (by eapply rtc_r).
    destruct Hq as [i x q q' a ps c pu po Hi Ha|i a x q q' prev ps c pu po Hi Hx Ha|i a prev q q' ps c pu po Hi Ha
      |q ps pu po Hl|q n ps pu po Hl|q q' n x ps pu po Ht]; simpl in *; try done.
    + injection Ha as <- <-. simpl in Hf. lia.
    + split; simpl; [done|by rewrite length_insert|done| |done|done].
      pose proof (inserting_insert _ _ _ (PLink a prev) Hi). rewrite length_app. simpl in *. lia.
    + split; simpl; [done|by rewrite length_insert|done| |done|done].
      pose proof (inserting_insert _ _ _ PIdle Hi). simpl in *. lia.
  - assert (rtc qstep (newQsys kProducers) q') by (by eapply rtc_r).
    destruct Hq as [i x q q' a ps c pu po Hi Ha|i a x q q' prev ps c pu po Hi Hx Ha|i a prev q q' ps c pu po Hi Ha
      |q ps pu po Hl|q n ps pu po Hl|q q' n x ps pu po Ht]; simpl in *; try done.
    split; simpl; try done. rewrite length_app. simpl. lia.
Qed.

Lemma k_inv_reachable b : rtc kany startQueue b → k_inv b.
Proof.
  revert b. apply rtc_ind_r; [apply k_inv_new|]. intros b b' _ [Hs|Hs] H; [by destruct Hs|by eapply k_inv_step].
Qed.

(** ** The end *)
Definition producerWork (p : pstate) : nat := match p with PIdle => 0 | PNew _ => 2 | PLink _ _ => 1 end.
Definition consumerWork (c : cstate) (rc : nat) : nat :=
  match c with CIdle => 2 * (total - rc) | CGot _ => 1 + 2 * (total - S rc) end.
Definition keffort (b : queueBench) : nat :=
  3 * (total - sum_list (k_next b)) + sum_list (producerWork <$> producers (k_queue b)) +
  consumerWork (consumer (k_queue b)) (k_received b).

Lemma producerWork_insert ps i p p' :
  ps !! i = Some p → sum_list (producerWork <$> <[i:=p']> ps) + producerWork p = sum_list (producerWork <$> ps) + producerWork p'.
Proof.
  intros (l1 & l2 & -> & ->)%list_elem_of_split_length. rewrite insert_app_r_alt, Nat.sub_diag by lia. simpl.
  rewrite !fmap_app, !sum_list_with_app. simpl. unfold id. lia.
Qed.

Lemma next_bound l : Forall (λ j, j ≤ kPerProducer) l → sum_list l ≤ length l * kPerProducer.
Proof. induction 1; csimpl; [lia|]. unfold id in *. lia. Qed.

Lemma k_effort b b' : k_inv b → kstep b b' → keffort b' < keffort b.
Proof.
  intros H Hs. pose proof (k_inv_step _ _ H Hs) as H'. unfold keffort.
  assert (Hb : sum_list (k_next b') ≤ total).
  { pose proof (next_bound _ (ki_next _ H')) as Hn. destruct (ki_len _ H') as [_ Hl]. rewrite Hl in Hn. exact Hn. }
  destruct Hs as [i j q q' a ps c pu po nx rc Hj Hlt Hi Ha|q q' nx rc Hq Hf Hp|q q' nx rc Hlt Hq Hp Hc]; cbn [k_queue k_next k_received producers consumer] in *.
  - pose proof (producerWork_insert _ _ _ (PNew a) Hi). pose proof (sum_insert _ _ _ (S j) Hj). cbn [producerWork] in *. lia.
  - destruct Hq as [i x q q' a ps c pu po Hi Ha|i a x q q' prev ps c pu po Hi Hx Ha|i a prev q q' ps c pu po Hi Ha
      |q ps pu po Hl|q n ps pu po Hl|q q' n x ps pu po Ht]; cbn [producers consumer shared] in *; try done.
    + injection Ha as <- <-. simpl in Hf. lia.
    + pose proof (producerWork_insert _ _ _ (PLink a prev) Hi). cbn [producerWork] in *. lia.
    + pose proof (producerWork_insert _ _ _ PIdle Hi). cbn [producerWork] in *. lia.
  - destruct Hq as [i x q q' a ps c pu po Hi Ha|i a x q q' prev ps c pu po Hi Hx Ha|i a prev q q' ps c pu po Hi Ha
      |q ps pu po Hl|q n ps pu po Hl|q q' n x ps pu po Ht]; cbn [producers consumer shared] in *; try done; simpl consumerWork; lia.
Qed.

Lemma k_rest b :
  k_inv b → (∀ b', ¬ kstep b b') →
  k_received b = total ∧ popped (k_queue b) = pushed (k_queue b) ∧ length (popped (k_queue b)) = total.
Proof.
  intros H Hn. destruct (q_inv_reachable _ _ (ki_queue _ H)) as (chain & xs & Hc & Hp & Hg). destruct (ki_len _ H) as [Hl Hl'].
  pose proof (ki_received _ H) as Hrc. pose proof (ki_pushed _ H) as Hpu. pose proof (ki_next _ H) as Hnx. pose proof (ki_got _ H) as Hgot.
  destruct b as [[q ps c pu po] nx rc]. simpl in *.
  assert (Hidle : ∀ i p, ps !! i = Some p → p = PIdle).
  { intros i p Hi. destruct p as [|a|a prev]; [done|exfalso..].
    - destruct (ch_new _ _ _ _ Hc _ _ Hi) as [x Hx]. eapply Hn. eapply k_push; [eapply (q_exchange i a x); [done|by rewrite Hx|done]|done|].
      simpl. intros E. apply (f_equal (.!! i)) in E. rewrite list_lookup_insert_eq, Hi in E by (by eapply lookup_lt_Some). done.
    - destruct (chained_link _ _ _ _ _ _ _ Hc Hi) as (q' & Hq' & _). eapply Hn. eapply k_push; [by eapply (q_link i a prev)| |].
      + simpl. unfold push_link in Hq'. destruct (heap q !! prev); [|done]. by injection Hq' as <-.
      + simpl. intros E. apply (f_equal (.!! i)) in E. rewrite list_lookup_insert_eq, Hi in E by (by eapply lookup_lt_Some). done. }
  assert (Hnew : inserting ps = 0).
  { clear -Hidle. unfold inserting. induction ps as [|p ps IH]; [done|]. csimpl. rewrite (Hidle 0 p) by done. apply IH.
    intros i p' Hi. by apply (Hidle (S i)). }
  assert (Hall : nx = replicate kProducers kPerProducer).
  { symmetry. apply replicate_as_Forall. split; [done|]. apply Forall_lookup. intros i j Hj. symmetry.
    assert (Hle : j ≤ kPerProducer) by (by eapply Forall_lookup_1 in Hnx). destruct (decide (j = kPerProducer)) as [|Hne]; [done|exfalso].
    assert (is_Some (ps !! i)) as [p Hi] by (apply lookup_lt_is_Some; rewrite Hl, <- Hl'; by eapply lookup_lt_Some).
    rewrite (Hidle _ _ Hi) in Hi. eapply Hn. eapply (k_alloc i j); [done|lia|done|done]. }
  assert (Hlen : length pu = total).
  { rewrite Hall in Hpu. assert (sum_list (replicate kProducers kPerProducer) = total) as E; [|lia]. unfold total.
    clear. induction kProducers as [|n IH]; [done|]. csimpl. rewrite IH. unfold id. lia. }
  assert (Hle : length po ≤ length pu) by (rewrite Hp, length_app; lia).
  assert (Hdone : rc = total).
  { destruct (decide (rc = total)) as [|Hne]; [done|exfalso]. assert (Hlt : rc < total) by lia. destruct c as [|n].
    - destruct (pop_load_spec _ _ _ _ Hc) as (o & Ho & Hx). destruct o as [n|].
      + eapply Hn. eapply k_pop; [done|by apply q_load|done|done].
      + destruct Hx as [->|(i & n & Hi)]; [rewrite Hp, app_nil_r in Hlen; lia|]. by apply Hidle in Hi.
    - destruct Hg as [Hn1 Hh]. destruct xs as [|x xs].
      { pose proof (ch_length _ _ _ _ Hc) as E. apply lookup_lt_Some in Hn1. simpl in E. lia. }
      destruct (chained_take _ _ _ _ _ _ Hc Hn1 Hh) as (q' & chain' & Ht & _).
      eapply Hn. eapply k_pop; [done|by eapply q_take|done|done]. }
  split_and!; [done| |lia]. assert (length xs = 0) as ->%nil_length_inv by (rewrite Hp, length_app in Hlen; lia). by rewrite Hp, app_nil_r.
Qed.
End QueueBench.

(** The benchmark ends, and receives everything.  However the producers and
    the consumer interleave, they make boundedly many steps (apart from yields
    while nothing is ready), and when no step is left the consumer has received
    as many items as were pushed, in the order of the pushes. *)
Theorem bench_queue (kProducers kPerProducer : nat) (b : queueBench) :
  rtc (kany kProducers kPerProducer) (startQueue kProducers) b →
  (∀ m b', nsteps (kstep kProducers kPerProducer) m b b' → m ≤ keffort kProducers kPerProducer b) ∧
  ∀ b', rtc (kstep kProducers kPerProducer) b b' → (∀ b'', ¬ kstep kProducers kPerProducer b' b'') →
    k_received b' = kProducers * kPerProducer ∧ popped (k_queue b') = pushed (k_queue b') ∧
    length (popped (k_queue b')) = kProducers * kPerProducer.
Proof.
  intros H%k_inv_reachable. split.
  - intros m b' Hm. enough (m + keffort kProducers kPerProducer b' ≤ keffort kProducers kPerProducer b) by lia.
    induction Hm as [|m b1 b2 b3 Hs _ IH]; [lia|]. pose proof (k_effort _ _ _ _ H Hs). specialize (IH (k_inv_step _ _ _ _ H Hs)). lia.
  - intros b' Hs Hrest. apply (k_rest kProducers kPerProducer b'); [|done]. clear Hrest. induction Hs; eauto using k_inv_step.
Qed.
